(* ===== verification/_CoqProject ===== *)
-Q . S2P
Prelude.v
Event.v
Sequencer.v
Metrics.v
Queue.v
GoStrings.v
GoText.v
GoMisc.v
InternalEvents.v
VmName.v
ClientIP.v
RateLimit.v
ConnRegistry.v
SessionStore.v
Session.v
Frame.v
Segment.v
Dedup.v
Spool.v
SpoolProofs.v
SpoolHistory.v
Threads.v
Backlog.v
SpoolBacklog.v
Messages.v
Sender.v
SenderProofs.v
SenderHistory.v
AuditRecords.v
AuditParser.v
AuditParserProofs.v
Correlator.v
CorrelatorProofs.v
Pipeline.v
PipelineProofs.v
Normalize.v
NormalizeProofs.v
NormalizeEvidence.v
CommandEvidence.v
Enrich.v
HostMonitor.v
MonitorProofs.v
Collector.v
DedupPending.v
Triples.v
CollectorAcks.v
CollectorFrames.v
CollectorSafety.v
CollectorAlerts.v
DedupOnce.v
CollectorOnce.v
CollectorGates.v
CollectorWrites.v
Netlink.v
NetlinkProofs.v
AuditControl.v
AuditRules.v
AuditPolicy.v
AuditRulesProofs.v
AuditPathProofs.v
AuditPolicyProofs.v
AuditPolicyRun.v
