(* ===== verification/Prelude.v ===== *)
(** * DevBox Gateway: verification library

    DevBox Gateway (Go) lets users log in, own virtual machines and reach them
    over RDP or a browser console, and collects the machines' security events.
    It has two halves.

    - The gateway (src/internal): an HTTP front end over a session manager, a
      login rate limiter, the registry of proxied connections, and the libvirt
      back end. A login passes the rate limiter and creates a session; a session
      grants one-time tokens for RDP connections; a token is exchanged for a
      ticket; the ticket registers the proxied connection, which a logout or the
      shutdown closes.
    - SauronAgent (src/SauronAgent): an agent in each guest numbers audit events,
      queues them in memory, appends them to a spool on disk and sends them as
      frames over vsock; a collector on the host removes duplicates, detects gaps
      and acknowledges what its sinks have accepted, upon which the agent deletes.

    ** What models what

    - [Prelude]: machine integers, times as instants in nanoseconds, results,
      byte strings, reachability, and the generic lemmas and tactics.
      [GoStrings]: the functions of Go's [strings] package the code uses.
    - [Event], [Metrics]: the Event struct (internal/event/event.go) and the
      agent's counters (internal/metrics/metrics.go).
    - [Sequencer] (internal/agent/sequencer.go): assign and advanceTo as atomic
      actions, the compare-and-swap loop step by step.
    - [Queue] (internal/queue/queue.go): the ring buffer with its overflow
      accounting, and the consumers parked in Get on the notify channel.
    - [Frame] (internal/protocol/frame.go, encoder.go, decoder.go, conn.go): the
      header codec, encoder, decoder with its reused buffers, and the connection
      that a failed write leaves torn.
    - [Segment] (internal/spool/segment.go): records with their CRC32C, segment
      names, the recovery walk and the scan that truncates a torn tail.
    - [Dedup] (internal/host/dedup.go, arrival.go, pending_gaps.go): the
      collector's table of streams, the reservations of events in flight and the
      ledger of gap publications.
    - [VmName] (src/internal/vmname/vmname.go), [ClientIP] (CanonicalClientIP of
      src/internal/session/session.go) and [RateLimit]
      (src/internal/gateway/ratelimit.go).
    - [ConnRegistry] (the connection half of src/internal/session/session.go and
      connection_authorization.go): tickets, registration, logout, drain.
    - [SessionStore] (src/internal/session/session_expiry.go): the expiry
      tracking around the scs store, with its timers.
    - [Session] (the session half of session.go, rdp.go): sessions and one-time
      RDP grants over [SessionStore] and [ConnRegistry].

    A Go struct is a Record with the source's field names, a method a function
    from the state to the state and its results, in the source's order of guards.
    What runs under a mutex, or is one atomic instruction, is one transition;
    goroutines are the interleavings of such transitions, as an inductive step
    relation per component ([seq_step], [mt_step], [reg_step], [exp_step],
    [rdp_step], [dd_step]), and theorems quantify over the states reachable by
    [rtc]. Clock readings, map iteration orders, random tokens and the failures
    of the system are inputs of a transition, so a theorem holds for all of them.
    Code outside the repository is a parameter with documented behaviour as its
    hypotheses: the scs store and codec (class [Scs] and its laws), sha256,
    net/netip parsing (class [NetIP]), strings.ToLower, encoding/json. The theorems that have
    such a hypothesis have a concrete instance that satisfies it.

    ** What is proved

    - Access: an RDP token is used at most once, only by the user, from the
      address and for the machine it was granted to, within its two minutes; a
      logout revokes tokens and tickets, also those in flight; limits on
      connections and the drain at shutdown are exact; login failures are
      bounded per window and lockouts enforced; a session timeout is audited at
      most once and never after Close; machine names do not collide.
    - Delivery: issued sequence numbers are unique; the queue refines a bounded
      FIFO that reports exactly how many events it lost, without a lost wake-up;
      what is sent over a connection is what is received; a segment cut short by
      a crash is recovered to its complete records, and a walk is safe on any
      bytes; the collector acknowledges a sequence only when it was written or
      its loss was reported and accepted, and never skips an event in flight.
    - Bounds: decoder buffers, stream tables, gap lists and windows stay within
      their limits whatever the peer sends.
    - Two places where the code departs from its comments are stated as theorems:
      the overflow range of the queue may include delivered sequences
      ([Queue.overflow_range_not_exact]), and the recovery walk trusts the length
      of a damaged header ([Segment.torn_header_hides_record]).

    ** Fuel

    [Segment.walk_loop] runs with one unit more than the length of the file: each
    step that continues consumes at least one byte, so it never runs out, which
    [Segment.walk_sound] includes. [Dedup.absorb] runs with one unit more than
    the sequences ahead and missing ranges there are, each step removing one.
    [Dedup.safeGapPart] moves past one protected sequence per round and runs with
    two units more than there are reservations ([Dedup.safeGapPart_fuel]). [Frame.receive_all] is the
    reading loop of a peer and runs with one unit more than the bytes on the wire.

    ** What is not modelled

    Sockets, files and the libvirt, LDAP, Splunk and ACME clients are I/O. Not yet
    modelled, in the order planned: the spool (internal/spool/spool.go: Append,
    Next, Ack, recover, enforceMaxSize and the checkpoint) over [Segment]; the
    sender (internal/agent/sender.go) over the spool and [Frame]; the collector's
    session (internal/host/session.go, stream_write.go) over [Dedup]; the RDP
    request and routing (src/internal/rdp); the reconnect backoff
    (internal/transport/reconnect.go); quota, name locks and provisioning intents
    (src/internal/virt); the audit record parser and correlator
    (internal/audit). *)

From stdpp Require Export base tactics list gmap strings fin_maps sorting.
From Stdlib Require Export ZArith Lia.
From Stdlib.Strings Require Export Byte.

#[global] Open Scope Z_scope.

(** ** Machine integers

    A Go [uint64], [uint32], ... is a [Z] kept in range by writing the
    wrap-around out wherever the source computes with it. *)

Definition u64_mod : Z := 2 ^ 64.
Definition u64 (z : Z) : Z := z mod u64_mod.
Definition u32 (z : Z) : Z := z mod 2 ^ 32.
Definition is_u64 (z : Z) : Prop := 0 <= z < u64_mod.
Definition is_u32 (z : Z) : Prop := 0 <= z < 2 ^ 32.

(** The largest and smallest [int64], the bounds at which [time.Time.Sub]
    saturates. *)
Definition max_int64 : Z := 2 ^ 63 - 1.
Definition min_int64 : Z := - 2 ^ 63.

Lemma u64_small z : is_u64 z → u64 z = z.
Proof. intros H. apply Z.mod_small, H. Qed.

Lemma u64_range z : is_u64 (u64 z).
Proof. apply Z.mod_pos_bound. reflexivity. Qed.

Lemma u32_small z : is_u32 z → u32 z = z.
Proof. intros H. apply Z.mod_small, H. Qed.

(** ** Results of fallible operations *)

Inductive result (E A : Type) : Type :=
| Ok (a : A)
| Err (e : E).
Arguments Ok {E A} a.
Arguments Err {E A} e.

Definition res_bind {E A B} (r : result E A) (k : A → result E B) : result E B :=
  match r with Ok a => k a | Err e => Err e end.

Declare Scope go_scope.
Delimit Scope go_scope with go.
Notation "'let?' x ':=' r 'in' k" := (res_bind r (fun x => k))
  (at level 10, x pattern, r at level 100, k at level 200) : go_scope.
#[global] Open Scope go_scope.

Lemma res_bind_ok {E A B} (r : result E A) (k : A → result E B) b :
  res_bind r k = Ok b ↔ ∃ a, r = Ok a ∧ k a = Ok b.
Proof.
  destruct r as [a|e]; simpl; [|split; [done|by intros (? & ? & ?)]].
  split; [eauto|]. by intros (? & [= ->] & ?).
Qed.

(** ** Time

    [time.Time] is a number of nanoseconds, with the zero [Time] at 0;
    [time.Duration] is a number of nanoseconds too. *)

Abbreviation time := Z (only parsing).
Abbreviation duration := Z (only parsing).
Definition zero_time : time := 0.
Definition IsZero (t : time) : bool := t =? zero_time.
Definition Before (t u : time) : bool := t <? u.
Definition Second : duration := 1000000000.
Definition Minute : duration := 60 * Second.

(** [t.Sub(u)] saturates at the bounds of a [Duration]. *)
Definition Sub (t u : time) : duration := Z.max min_int64 (Z.min max_int64 (t - u)).

(** ** Bytes and big-endian integers *)

Definition b2z (b : byte) : Z := Z.of_N (Byte.to_N b).

Definition z2b (z : Z) : byte :=
  match Byte.of_N (Z.to_N (z mod 256)) with Some b => b | None => x00 end.

Lemma b2z_range b : 0 <= b2z b < 256.
Proof. unfold b2z. pose proof (Byte.to_N_bounded b). lia. Qed.

Lemma b2z_z2b z : b2z (z2b z) = z mod 256.
Proof.
  unfold b2z, z2b. pose proof (Z.mod_pos_bound z 256 eq_refl).
  destruct (Byte.of_N (Z.to_N (z mod 256))) as [b|] eqn:E.
  - apply Byte.to_of_N in E. rewrite E. lia.
  - apply Byte.of_N_None_iff in E. lia.
Qed.

Lemma z2b_b2z b : z2b (b2z b) = b.
Proof.
  unfold z2b. rewrite Z.mod_small by apply b2z_range.
  unfold b2z. by rewrite N2Z.id, Byte.of_to_N.
Qed.

Lemma b2z_inj a b : b2z a = b2z b → a = b.
Proof. intros H. by rewrite <- (z2b_b2z a), H, z2b_b2z. Qed.

#[export] Instance byte_eq_dec : EqDecision byte.
Proof. intros a b. destruct (Byte.byte_eq_dec a b); [left|right]; done. Defined.

(** [binary.BigEndian.PutUintN]: the [n] low bytes of [z], most significant
    first, and [binary.BigEndian.UintN], its reading back. *)
Fixpoint be_put (n : nat) (z : Z) : list byte :=
  match n with
  | O => []
  | S n => z2b (z / 256 ^ Z.of_nat n) :: be_put n z
  end.

Fixpoint be_get (l : list byte) : Z :=
  match l with
  | [] => 0
  | b :: l => b2z b * 256 ^ Z.of_nat (length l) + be_get l
  end.

Lemma be_put_length n z : length (be_put n z) = n.
Proof. induction n; simpl; lia. Qed.

Lemma pow256_succ (n : nat) : 256 ^ Z.of_nat (S n) = 256 * 256 ^ Z.of_nat n.
Proof. rewrite Nat2Z.inj_succ, Z.pow_succ_r; lia. Qed.

Lemma pow256_pos (n : nat) : 0 < 256 ^ Z.of_nat n.
Proof. apply Z.pow_pos_nonneg; lia. Qed.

Lemma be_get_range l : 0 <= be_get l < 256 ^ Z.of_nat (length l).
Proof.
  induction l as [|b l IH]; cbn [be_get length]; [simpl; lia|].
  rewrite pow256_succ. pose proof (b2z_range b). nia.
Qed.

Lemma be_get_put n z : be_get (be_put n z) = z mod 256 ^ Z.of_nat n.
Proof.
  induction n as [|n IH]; cbn [be_get be_put]; [by rewrite Z.mod_1_r|].
  rewrite be_put_length, IH, b2z_z2b, pow256_succ.
  pose proof (pow256_pos n).
  rewrite (Z.mul_comm 256), Z.rem_mul_r by lia. lia.
Qed.

(** The bytes above the [j] lowest do not show in [be_put j]. *)
Lemma be_put_high (j n : nat) k m :
  (j ≤ n)%nat → be_put j (k * 256 ^ Z.of_nat n + m) = be_put j m.
Proof.
  induction j as [|j IH]; intros Hj; cbn [be_put]; [done|].
  rewrite IH by lia. f_equal. apply b2z_inj. rewrite !b2z_z2b.
  replace (Z.of_nat n) with (Z.of_nat (n - S j) + Z.of_nat (S j)) by lia.
  rewrite Z.pow_add_r, pow256_succ by lia.
  replace (k * (256 ^ Z.of_nat (n - S j) * (256 * 256 ^ Z.of_nat j)) + m)
    with (k * 256 ^ Z.of_nat (n - S j) * 256 * 256 ^ Z.of_nat j + m) by ring.
  pose proof (pow256_pos j).
  by rewrite Z.div_add_l, Z.add_comm, Z.mod_add by lia.
Qed.

Lemma be_put_get l n : length l = n → be_put n (be_get l) = l.
Proof.
  revert n. induction l as [|b l IH]; intros n <-; cbn [be_put be_get length]; [done|].
  pose proof (be_get_range l). pose proof (pow256_pos (length l)). f_equal.
  - rewrite Z.div_add_l, Z.div_small, Z.add_0_r by lia. apply z2b_b2z.
  - by rewrite be_put_high, IH by done.
Qed.

(** Fixed-width readings and writings used by the wire formats. *)
Lemma be_get_put_small n z :
  0 <= z < 256 ^ Z.of_nat n → be_get (be_put n z) = z.
Proof. intros. rewrite be_get_put. by apply Z.mod_small. Qed.

Lemma forallb_Forall_true {A} (f : A → bool) l :
  forallb f l = true → Forall (λ x, f x = true) l.
Proof. rewrite forallb_forall, Forall_forall. setoid_rewrite list_elem_of_In. done. Qed.

(** Filtering keeps inclusion of lists up to order. *)
Lemma filter_impl_submseteq {A} (P Q : A → Prop) `{!∀ x, Decision (P x), !∀ x, Decision (Q x)} l :
  (∀ x, P x → Q x) → filter P l ⊆+ filter Q l.
Proof.
  intros HPQ. induction l as [|x l IH]; [done|]. rewrite !filter_cons.
  destruct (decide (P x)) as [HP|HP], (decide (Q x)) as [HQ|HQ]; try by constructor.
  - by destruct HQ; apply HPQ.
  - done.
Qed.

Lemma filter_submseteq {A} (P Q : A → Prop) `{!∀ x, Decision (P x), !∀ x, Decision (Q x)} l k :
  (∀ x, P x → Q x) → l ⊆+ k → filter P l ⊆+ filter Q k.
Proof.
  intros HPQ Hlk. transitivity (filter P k); [|by apply filter_impl_submseteq].
  clear HPQ. induction Hlk; rewrite ?filter_cons.
  - done.
  - case_decide; [by constructor|done].
  - repeat case_decide; try done. by constructor.
  - case_decide; [by constructor|done].
  - by etransitivity.
Qed.

Lemma NoDup_submseteq_l {A} (l k : list A) : l ⊆+ k → NoDup k → NoDup l.
Proof. intros [k' ->]%submseteq_Permutation [H _]%NoDup_app. done. Qed.

Lemma Forall_submseteq_l {A} (P : A → Prop) (l k : list A) : l ⊆+ k → Forall P k → Forall P l.
Proof. intros [k' ->]%submseteq_Permutation [H _]%Forall_app. done. Qed.

(** An invariant of every step is an invariant of every run. *)
Lemma rtc_invariant {A} (R : relation A) (P : A → Prop) x y :
  (∀ x y, R x y → P x → P y) → P x → rtc R x y → P y.
Proof. intros HR Hx Hr. induction Hr; eauto. Qed.

(** Slicing [buf[i:j]]. *)
Definition slice {A} (i j : nat) (l : list A) : list A := take (j - i) (drop i l).

(** ** Automation

    [go_cases] splits every [if] and [match] of the goal, keeping the
    equations; [bool_lia] turns the boolean comparisons the source's conditions
    become into propositions. *)

Ltac bool_props :=
  repeat match goal with
  | H : (_ && _)%bool = true |- _ => apply andb_true_iff in H as [? ?]
  | H : (_ || _)%bool = false |- _ => apply orb_false_iff in H as [? ?]
  | H : negb _ = true |- _ => apply negb_true_iff in H
  | H : negb _ = false |- _ => apply negb_false_iff in H
  | H : (_ <? _) = true |- _ => apply Z.ltb_lt in H
  | H : (_ <? _) = false |- _ => apply Z.ltb_ge in H
  | H : (_ <=? _) = true |- _ => apply Z.leb_le in H
  | H : (_ <=? _) = false |- _ => apply Z.leb_gt in H
  | H : (_ =? _) = true |- _ => apply Z.eqb_eq in H
  | H : (_ =? _) = false |- _ => apply Z.eqb_neq in H
  end.

Ltac go_case :=
  match goal with
  | |- context [if ?b then _ else _] => destruct b eqn:?
  | |- context [match ?x with _ => _ end] => destruct x eqn:?
  end.

Ltac go_cases := repeat (go_case; simplify_eq/=; try done).

Ltac go_case_in H :=
  match type of H with
  | context [if ?b then _ else _] => destruct b eqn:?
  | context [match ?x with _ => _ end] => destruct x eqn:?
  end.

Ltac go_cases_in H := repeat (go_case_in H; simplify_eq/=; try done).

Create HintDb go discriminated.
Create Rewrite HintDb go.
#[export] Hint Resolve u64_range b2z_range pow256_pos : go.
#[export] Hint Rewrite be_put_length b2z_z2b z2b_b2z @length_app : go.

(** ** Filtering lists *)

Lemma filter_none {A} (P : A → Prop) `{!∀ x, Decision (P x)} l : (∀ x, x ∈ l → ¬ P x) → filter P l = [].
Proof.
  induction l as [|x l IH]; intros Hn; [done|]. rewrite filter_cons_False by (apply Hn; set_solver).
  apply IH. set_solver.
Qed.

Lemma filter_whole {A} (P : A → Prop) `{!∀ x, Decision (P x)} (l : list A) : (∀ x, x ∈ l → P x) → filter P l = l.
Proof.
  induction l as [|x l IH]; intros Hn; [done|]. rewrite filter_cons_True by (apply Hn; set_solver).
  f_equal. apply IH. set_solver.
Qed.

Lemma filter_fmap {A B} (f : A → B) (P : B → Prop) (Q : A → Prop) `{!∀ x, Decision (P x), !∀ x, Decision (Q x)} (l : list A) :
  (∀ x, x ∈ l → P (f x) ↔ Q x) → filter P (f <$> l) = f <$> filter Q l.
Proof.
  induction l as [|x l IH]; intros Hn; [done|]. rewrite fmap_cons. specialize (IH ltac:(set_solver)).
  pose proof (Hn x ltac:(set_solver)) as Hx. destruct (decide (Q x)).
  - rewrite !filter_cons_True, fmap_cons, IH; naive_solver.
  - rewrite !filter_cons_False, IH; naive_solver.
Qed.

Lemma filter_same {A} (P Q : A → Prop) `{!∀ x, Decision (P x), !∀ x, Decision (Q x)} (l : list A) :
  (∀ x, x ∈ l → P x ↔ Q x) → filter P l = filter Q l.
Proof.
  induction l as [|x l IH]; intros Hn; [done|]. rewrite !filter_cons, IH by set_solver.
  specialize (Hn x ltac:(set_solver)). destruct (decide (P x)), (decide (Q x)); tauto.
Qed.
