(* ===== verification/Event.v ===== *)
(** * The normalized event model

    [SauronAgent/internal/event/event.go]: the record every guest-side and
    host-side component passes around.  Pointer fields are options (nil is
    [None]); a nil slice and an empty one are told apart, as the code does. *)

From S2P Require Import Prelude.

(** The values of [map[string]any]: what the normalizer stores in [Fields]; the last
    three are [[]string], [map[string]any] and [[]map[string]any]. *)
Inductive any : Type :=
| AnyString (s : string)
| AnyInt (z : Z)
| AnyBool (b : bool)
| AnyStrings (l : list string)
| AnyMap (m : gmap string any)
| AnyMaps (l : list (gmap string any)).

Record Event : Type := mkEvent {
  Version : Z;
  Sequence : Z;
  Timestamp : time;
  Type_ : string;
  Severity : string;
  AuditID : string;
  BootID : string;
  PID : option Z;
  PPID : option Z;
  UID : option Z;
  GID : option Z;
  AUID : option Z;
  Executable : string;
  Command : string;
  CWD : string;
  Paths : option (list string);
  Result : string;
  RecordTypes : option (list string);
  Fields : option (gmap string any);
  Raw : option (list string)
}.

Definition SchemaVersion : Z := 1.

(** The zero [Event], on which a Go composite literal starts. *)
Definition zero_event : Event :=
  {| Version := 0; Sequence := 0; Timestamp := zero_time; Type_ := "";
     Severity := ""; AuditID := ""; BootID := ""; PID := None; PPID := None;
     UID := None; GID := None; AUID := None; Executable := ""; Command := "";
     CWD := ""; Paths := None; Result := ""; RecordTypes := None;
     Fields := None; Raw := None |}.

(** [e.Sequence = q] and [e.BootID = b] on the mutable event. *)
Definition set_Sequence (q : Z) (e : Event) : Event :=
  {| Version := Version e; Sequence := q; Timestamp := Timestamp e; Type_ := Type_ e;
     Severity := Severity e; AuditID := AuditID e; BootID := BootID e; PID := PID e;
     PPID := PPID e; UID := UID e; GID := GID e; AUID := AUID e;
     Executable := Executable e; Command := Command e; CWD := CWD e; Paths := Paths e;
     Result := Result e; RecordTypes := RecordTypes e; Fields := Fields e; Raw := Raw e |}.

Definition set_BootID (b : string) (e : Event) : Event :=
  {| Version := Version e; Sequence := Sequence e; Timestamp := Timestamp e; Type_ := Type_ e;
     Severity := Severity e; AuditID := AuditID e; BootID := b; PID := PID e;
     PPID := PPID e; UID := UID e; GID := GID e; AUID := AUID e;
     Executable := Executable e; Command := Command e; CWD := CWD e; Paths := Paths e;
     Result := Result e; RecordTypes := RecordTypes e; Fields := Fields e; Raw := Raw e |}.

(** An event that carries only a sequence number, for examples. *)
Definition event_at (q : Z) : Event := set_Sequence q zero_event.
