(* ===== verification/Sequencer.v ===== *)
(** * The per-boot sequence numbers

    [SauronAgent/internal/agent/sequencer.go].  The counter is one atomic
    [uint64] shared by several goroutines.  [assign] and the individual attempts
    of [advanceTo]'s compare-and-swap loop are the atomic steps; [seq_step]
    interleaves them, with a ghost log of the numbers handed out. *)

From S2P Require Import Prelude Event.

Record sequencer : Type := mkSequencer { next : Z; bootID : string }.

Definition newSequencer (start : Z) (boot : string) : sequencer :=
  mkSequencer (if start =? 0 then 1 else start) boot.

(** [assign]: a nil event is [None]; the returned number is the event's. *)
Definition assign (s : sequencer) (e : option Event) : sequencer * option Event * Z :=
  match e with
  | None => (s, None, 0)
  | Some e =>
      let '(s, e) :=
        if Sequence e =? 0
        then let n := u64 (next s + 1) in
             (mkSequencer n (bootID s), set_Sequence (u64 (n - 1)) e)
        else (s, e) in
      let e := if String.eqb (BootID e) "" then set_BootID (bootID s) e else e in
      (s, Some e, Sequence e)
  end.

(** One goroutine inside [advanceTo]: about to load, about to compare-and-swap
    against the value it loaded, or returned. *)
Inductive adv_pc : Type :=
| AdvLoad (target : Z)
| AdvCas (target cur : Z)
| AdvDone (v : Z).

(** Entry of [advanceTo], with its treatment of 0. *)
Definition advanceTo (target : Z) : adv_pc :=
  AdvLoad (if target =? 0 then 1 else target).

(** One atomic action of [advanceTo]'s loop on the counter. *)
Definition adv_step (n : Z) (pc : adv_pc) : Z * adv_pc :=
  match pc with
  | AdvLoad t => if t <=? n then (n, AdvDone n) else (n, AdvCas t n)
  | AdvCas t cur => if n =? cur then (t, AdvDone t) else (n, AdvLoad t)
  | AdvDone v => (n, AdvDone v)
  end.

(** [advanceTo] with no interference: the loop run until it returns. *)
Fixpoint adv_run (fuel : nat) (n : Z) (pc : adv_pc) : Z * adv_pc :=
  match fuel with
  | O => (n, pc)
  | S fuel =>
      match pc with
      | AdvDone v => (n, pc)
      | _ => let '(n, pc) := adv_step n pc in adv_run fuel n pc
      end
  end.

Definition peek (s : sequencer) : Z := next s.

(** ** Interleavings *)

Record seq_state : Type := mkSeqState {
  counter : sequencer;
  callers : gmap nat adv_pc;  (** goroutines inside [advanceTo] *)
  issued : list Z             (** ghost: numbers handed out, newest first *)
}.

Inductive seq_step : seq_state → seq_state → Prop :=
| step_assign st e s' e' q :
    Sequence e = 0 →
    assign (counter st) (Some e) = (s', Some e', q) →
    seq_step st (mkSeqState s' (callers st) (q :: issued st))
| step_assign_numbered st e s' e' q :
    Sequence e ≠ 0 →
    assign (counter st) (Some e) = (s', Some e', q) →
    seq_step st (mkSeqState s' (callers st) (issued st))
| step_call st tid target :
    callers st !! tid = None → is_u64 target →
    seq_step st (mkSeqState (counter st) (<[tid := advanceTo target]> (callers st)) (issued st))
| step_adv st tid pc n' pc' :
    callers st !! tid = Some pc →
    adv_step (next (counter st)) pc = (n', pc') →
    seq_step st (mkSeqState (mkSequencer n' (bootID (counter st)))
                            (<[tid := pc']> (callers st)) (issued st)).

(** A step that does not take the counter past the last [uint64]. *)
Definition seq_step_in_range (st st' : seq_state) : Prop :=
  seq_step st st' ∧ next (counter st) + 1 < u64_mod.

Definition seq_init (start : Z) (boot : string) : seq_state :=
  mkSeqState (newSequencer start boot) ∅ [].

(** ** Invariant *)

Definition pc_ok (n : Z) (pc : adv_pc) : Prop :=
  match pc with
  | AdvLoad t => is_u64 t
  | AdvCas t cur => is_u64 t ∧ cur < t ∧ cur <= n
  | AdvDone v => v <= n
  end.

(** The newest number first: each number handed out is above all earlier ones. *)
Fixpoint decreasing_below (n : Z) (l : list Z) : Prop :=
  match l with
  | [] => True
  | q :: l => q < n ∧ 0 < q ∧ decreasing_below q l
  end.

Record seq_inv (st : seq_state) : Prop := {
  inv_next : 0 < next (counter st) < u64_mod;
  inv_issued : decreasing_below (next (counter st)) (issued st);
  inv_callers : map_Forall (λ _, pc_ok (next (counter st))) (callers st)
}.

Lemma decreasing_below_mono n n' l :
  n <= n' → decreasing_below n l → decreasing_below n' l.
Proof. destruct l; simpl; [done|]. intros ? (? & ? & ?). repeat split; try done; lia. Qed.

Lemma decreasing_below_lt n l q : decreasing_below n l → q ∈ l → 0 < q < n.
Proof.
  revert n. induction l as [|x l IH]; intros n; simpl; [by intros _ ?%elem_of_nil|].
  intros (? & ? & Hl) [->|Hq]%elem_of_cons; [lia|]. specialize (IH _ Hl Hq). lia.
Qed.

Lemma decreasing_below_nodup n l : decreasing_below n l → NoDup l.
Proof.
  revert n. induction l as [|x l IH]; intros n; simpl; [constructor|].
  intros (? & ? & Hl). constructor; [|eauto].
  intros Hx. pose proof (decreasing_below_lt _ _ _ Hl Hx). lia.
Qed.

Lemma pc_ok_mono n n' pc : n <= n' → pc_ok n pc → pc_ok n' pc.
Proof. destruct pc; simpl; intros; intuition lia. Qed.

Lemma callers_mono n n' (m : gmap nat adv_pc) :
  n <= n' → map_Forall (λ _, pc_ok n) m → map_Forall (λ _, pc_ok n') m.
Proof. intros Hn Hm i pc Hpc. eapply pc_ok_mono; [done|by eapply Hm]. Qed.

Lemma seq_init_inv start boot : is_u64 start → seq_inv (seq_init start boot).
Proof.
  intros Hs. unfold is_u64 in Hs. split; simpl.
  - destruct (start =? 0) eqn:E; bool_props; [unfold u64_mod; lia|lia].
  - done.
  - apply map_Forall_empty.
Qed.

(** [assign] on an unnumbered event, away from the end of the range. *)
Lemma assign_fresh s e :
  Sequence e = 0 → 0 <= next s → next s + 1 < u64_mod →
  ∃ e', assign s (Some e) = (mkSequencer (next s + 1) (bootID s), Some e', next s).
Proof.
  intros He Hn Hlt. unfold assign. rewrite He. simpl.
  rewrite (u64_small (next s + 1)), (u64_small (next s + 1 - 1)) by (unfold is_u64; lia).
  replace (next s + 1 - 1) with (next s) by lia.
  by destruct (String.eqb _ _); eexists.
Qed.

Lemma assign_numbered s e :
  Sequence e ≠ 0 → ∃ e', assign s (Some e) = (s, Some e', Sequence e).
Proof.
  intros He. unfold assign. rewrite (proj2 (Z.eqb_neq _ _) He).
  by destruct (String.eqb _ _); eexists.
Qed.

Lemma adv_step_inv n pc n' pc' :
  0 < n < u64_mod → pc_ok n pc → adv_step n pc = (n', pc') →
  n <= n' < u64_mod ∧ pc_ok n' pc'.
Proof.
  unfold adv_step, pc_ok, is_u64. intros Hn Hpc Hs.
  go_cases_in Hs; bool_props; simpl; lia.
Qed.

Lemma seq_step_inv st st' : seq_step_in_range st st' → seq_inv st → seq_inv st'.
Proof.
  intros [Hstep Hr] [Hn Hi Hc].
  destruct Hstep as [st e s' e' q He Ha|st e s' e' q He Ha|st tid t Ht Hu|st tid pc n' pc' Hpc Hs].
  - destruct (assign_fresh (counter st) e) as [e'' Ha']; [done|lia..|].
    rewrite Ha' in Ha. simplify_eq. split; simpl in *; [lia| |].
    + repeat split; [lia..|done].
    + eapply callers_mono; [|done]. lia.
  - destruct (assign_numbered (counter st) e He) as [e'' Ha'].
    rewrite Ha' in Ha. by simplify_eq.
  - split; simpl; [done..|]. apply map_Forall_insert_2; [|done].
    unfold advanceTo, pc_ok, is_u64 in *. unfold u64_mod in *. go_case; lia.
  - destruct (adv_step_inv _ _ _ _ Hn (Hc _ _ Hpc) Hs) as [Hle Hok]. split; simpl.
    + lia.
    + eapply decreasing_below_mono; [|done]. lia.
    + apply map_Forall_insert_2; [done|]. eapply callers_mono; [|done]. lia.
Qed.

Lemma seq_reachable_inv start boot st :
  is_u64 start → rtc seq_step_in_range (seq_init start boot) st → seq_inv st.
Proof.
  intros Hs. apply rtc_invariant; [exact seq_step_inv|by apply seq_init_inv].
Qed.

(** ** Properties *)


(** A run of three steps: an event is numbered while the sender lifts the counter
    to 10 between its load and its compare-and-swap. *)
Definition demo_init : seq_state := seq_init 5 "b".

Lemma demo_run :
  rtc seq_step_in_range demo_init
    (mkSeqState (mkSequencer 6 "b") {[ 0%nat := AdvLoad 10 ]} [5]).
Proof.
  eapply rtc_l; [split; [eapply (step_call _ 0%nat 10); done|done]|].
  eapply rtc_l; [split; [eapply (step_adv _ 0%nat); [done|reflexivity]|done]|].
  eapply rtc_l; [split; [eapply (step_assign _ zero_event); [done|reflexivity]|done]|].
  eapply rtc_l; [split; [eapply (step_adv _ 0%nat); [done|reflexivity]|done]|].
  apply rtc_refl.
Defined.


(** C39: [advanceTo] run without interference returns after at most two atomic
    actions, never moves the counter backwards, and leaves it at least at the
    requested position, which is what it returns. *)
Theorem advanceTo_solo n target :
  adv_run 3 n (advanceTo target) =
  (Z.max n (if target =? 0 then 1 else target),
   AdvDone (Z.max n (if target =? 0 then 1 else target))).
Proof.
  unfold advanceTo. set (t := if target =? 0 then 1 else target). simpl.
  destruct (Z.leb_spec t n); simpl; [by rewrite Z.max_l by lia|].
  rewrite Z.eqb_refl. by rewrite Z.max_r by lia.
Qed.
