(* ===== verification/Metrics.v ===== *)
(** * Counters

    [SauronAgent/internal/metrics/metrics.go]: the guest-side counters the
    queue, the spool and the sender publish.  A nil [*metrics.Agent] is [None]. *)

From S2P Require Import Prelude.

Record Agent : Type := mkAgent {
  AuditMessagesReceived : Z;
  AuditMessagesDropped : Z;
  KernelRecordsLost : Z;
  ParseErrors : Z;
  EventsCreated : Z;
  EventsSent : Z;
  EventsAcknowledged : Z;
  EventsDropped : Z;
  EventsResent : Z;
  QueueDepth : Z;
  SpoolBytes : Z;
  SpoolEvents : Z;
  VSOCKReconnects : Z;
  SendErrors : Z
}.

Definition zero_agent : Agent := mkAgent 0 0 0 0 0 0 0 0 0 0 0 0 0 0.

Section setters.
Context (a : Agent).

Definition set_EventsDropped (v : Z) : Agent :=
  mkAgent (AuditMessagesReceived a) (AuditMessagesDropped a) (KernelRecordsLost a)
    (ParseErrors a) (EventsCreated a) (EventsSent a) (EventsAcknowledged a) v
    (EventsResent a) (QueueDepth a) (SpoolBytes a) (SpoolEvents a) (VSOCKReconnects a)
    (SendErrors a).

Definition set_QueueDepth (v : Z) : Agent :=
  mkAgent (AuditMessagesReceived a) (AuditMessagesDropped a) (KernelRecordsLost a)
    (ParseErrors a) (EventsCreated a) (EventsSent a) (EventsAcknowledged a)
    (EventsDropped a) (EventsResent a) v (SpoolBytes a) (SpoolEvents a)
    (VSOCKReconnects a) (SendErrors a).

Definition set_Spool (bytes events : Z) : Agent :=
  mkAgent (AuditMessagesReceived a) (AuditMessagesDropped a) (KernelRecordsLost a)
    (ParseErrors a) (EventsCreated a) (EventsSent a) (EventsAcknowledged a)
    (EventsDropped a) (EventsResent a) (QueueDepth a) bytes events
    (VSOCKReconnects a) (SendErrors a).
End setters.

(** [if m != nil { m.EventsDropped.Add(n) }] on an atomic [uint64]. *)
Definition add_EventsDropped (n : Z) (m : option Agent) : option Agent :=
  (λ a, set_EventsDropped a (u64 (EventsDropped a + n))) <$> m.

(** [m.X.Add(n)] on the counters of the sender, whose [metrics] is never nil. *)
Section counters.
Context (n : Z) (a : Agent).
Definition count_EventsCreated : Agent :=
  mkAgent (AuditMessagesReceived a) (AuditMessagesDropped a) (KernelRecordsLost a)
    (ParseErrors a) (u64 (EventsCreated a + n)) (EventsSent a) (EventsAcknowledged a)
    (EventsDropped a) (EventsResent a) (QueueDepth a) (SpoolBytes a) (SpoolEvents a)
    (VSOCKReconnects a) (SendErrors a).
Definition count_EventsSent : Agent :=
  mkAgent (AuditMessagesReceived a) (AuditMessagesDropped a) (KernelRecordsLost a)
    (ParseErrors a) (EventsCreated a) (u64 (EventsSent a + n)) (EventsAcknowledged a)
    (EventsDropped a) (EventsResent a) (QueueDepth a) (SpoolBytes a) (SpoolEvents a)
    (VSOCKReconnects a) (SendErrors a).
Definition count_EventsAcknowledged : Agent :=
  mkAgent (AuditMessagesReceived a) (AuditMessagesDropped a) (KernelRecordsLost a)
    (ParseErrors a) (EventsCreated a) (EventsSent a) (u64 (EventsAcknowledged a + n))
    (EventsDropped a) (EventsResent a) (QueueDepth a) (SpoolBytes a) (SpoolEvents a)
    (VSOCKReconnects a) (SendErrors a).
Definition count_EventsDropped : Agent :=
  mkAgent (AuditMessagesReceived a) (AuditMessagesDropped a) (KernelRecordsLost a)
    (ParseErrors a) (EventsCreated a) (EventsSent a) (EventsAcknowledged a)
    (u64 (EventsDropped a + n)) (EventsResent a) (QueueDepth a) (SpoolBytes a) (SpoolEvents a)
    (VSOCKReconnects a) (SendErrors a).
Definition count_EventsResent : Agent :=
  mkAgent (AuditMessagesReceived a) (AuditMessagesDropped a) (KernelRecordsLost a)
    (ParseErrors a) (EventsCreated a) (EventsSent a) (EventsAcknowledged a) (EventsDropped a)
    (u64 (EventsResent a + n)) (QueueDepth a) (SpoolBytes a) (SpoolEvents a) (VSOCKReconnects a)
    (SendErrors a).
Definition count_VSOCKReconnects : Agent :=
  mkAgent (AuditMessagesReceived a) (AuditMessagesDropped a) (KernelRecordsLost a)
    (ParseErrors a) (EventsCreated a) (EventsSent a) (EventsAcknowledged a) (EventsDropped a)
    (EventsResent a) (QueueDepth a) (SpoolBytes a) (SpoolEvents a) (u64 (VSOCKReconnects a + n))
    (SendErrors a).
Definition count_SendErrors : Agent :=
  mkAgent (AuditMessagesReceived a) (AuditMessagesDropped a) (KernelRecordsLost a)
    (ParseErrors a) (EventsCreated a) (EventsSent a) (EventsAcknowledged a) (EventsDropped a)
    (EventsResent a) (QueueDepth a) (SpoolBytes a) (SpoolEvents a) (VSOCKReconnects a)
    (u64 (SendErrors a + n)).
End counters.
