(* ===== verification/Queue.v ===== *)
(** * The bounded hand-off queue

    [SauronAgent/internal/queue/queue.go]: a fixed-capacity ring that never
    blocks its producer and drops the oldest event on overflow.  [fifo] is the
    abstract bounded FIFO; [repr] relates a ring to the list it holds and the
    refinement theorem shows every operation implements its abstract one.  The
    second part interleaves producers and parked consumers and shows that no
    wake-up is lost. *)

From S2P Require Import Prelude Event Metrics.

#[local] Open Scope nat_scope.

(** Go's [int] indices are naturals here: they stay below the capacity. *)
Record Queue : Type := mkQueue {
  buf : list (option Event);
  head : nat;
  n : nat;
  closed : bool;
  notify : nat;       (** which channel [notify] currently is; older ones are closed *)
  waiters : nat;
  dropped : Z;
  firstMissing : Z;
  lastMissing : Z;
  metrics : option Agent
}.

Definition defaultCapacity : Z := 10000.

Definition New (capacity : Z) (m : option Agent) : Queue :=
  let capacity := if (capacity <=? 0)%Z then defaultCapacity else capacity in
  mkQueue (replicate (Z.to_nat capacity) None) 0 0 false 0 0 0 0 0 m.

Definition Cap (q : Queue) : nat := length (buf q).
Definition Len (q : Queue) : nat := n q.

(** [recordDropLocked] *)
Definition recordDropLocked (q : Queue) (e : option Event) : Queue :=
  let d := u64 (dropped q + 1) in
  let m := add_EventsDropped 1 (metrics q) in
  match e with
  | Some e =>
      if (Sequence e =? 0)%Z
      then mkQueue (buf q) (head q) (n q) (closed q) (notify q) (waiters q) d
             (firstMissing q) (lastMissing q) m
      else
        let fm := if ((firstMissing q =? 0) || (Sequence e <? firstMissing q))%Z
                  then Sequence e else firstMissing q in
        let lm := if (lastMissing q <? Sequence e)%Z then Sequence e else lastMissing q in
        mkQueue (buf q) (head q) (n q) (closed q) (notify q) (waiters q) d fm lm m
  | None => mkQueue (buf q) (head q) (n q) (closed q) (notify q) (waiters q) d
             (firstMissing q) (lastMissing q) m
  end.

(** [close(q.notify); q.notify = make(chan struct{})] *)
Definition renew_notify (q : Queue) : Queue :=
  mkQueue (buf q) (head q) (n q) (closed q) (S (notify q)) (waiters q) (dropped q)
    (firstMissing q) (lastMissing q) (metrics q).

Definition wakeLocked (q : Queue) : Queue :=
  if waiters q =? 0 then q else renew_notify q.

Definition updateDepthLocked (q : Queue) : Queue :=
  mkQueue (buf q) (head q) (n q) (closed q) (notify q) (waiters q) (dropped q)
    (firstMissing q) (lastMissing q)
    ((λ a, set_QueueDepth a (Z.of_nat (n q))) <$> metrics q).

(** Taking the oldest slot out of the ring: [buf[head] = nil], [head] advanced,
    [n] decremented. *)
Definition drop_head (q : Queue) : Queue :=
  mkQueue (<[head q := None]> (buf q)) ((head q + 1) mod length (buf q)) (n q - 1)
    (closed q) (notify q) (waiters q) (dropped q) (firstMissing q) (lastMissing q) (metrics q).

(** [q.buf[(q.head+q.n)%len(q.buf)] = e; q.n++] *)
Definition push_tail (q : Queue) (e : Event) : Queue :=
  mkQueue (<[(head q + n q) mod length (buf q) := Some e]> (buf q)) (head q) (n q + 1)
    (closed q) (notify q) (waiters q) (dropped q) (firstMissing q) (lastMissing q) (metrics q).

(** [buf[i]]; the index is always in range (see [repr]). *)
Definition slot (q : Queue) (i : nat) : option Event := default None (buf q !! i).

Definition Put (q : Queue) (e : option Event) : Queue * nat :=
  match e with
  | None => (q, 0)
  | Some e =>
      if closed q then (recordDropLocked q (Some e), 1)
      else
        let '(q, d) :=
          if n q =? length (buf q)
          then let oldest := slot q (head q) in
               (recordDropLocked (drop_head q) oldest, 1)
          else (q, 0) in
        (updateDepthLocked (wakeLocked (push_tail q e)), d)
  end.

Definition popLocked (q : Queue) : Queue * (option Event * bool) :=
  if n q =? 0 then (q, (None, false))
  else (updateDepthLocked (drop_head q), (slot q (head q), true)).

Definition TryGet (q : Queue) : Queue * (option Event * bool) := popLocked q.

Definition DrainOverflow (q : Queue) : Queue * option (Z * Z * Z) :=
  if (dropped q =? 0)%Z then (q, None)
  else (mkQueue (buf q) (head q) (n q) (closed q) (notify q) (waiters q) 0 0 0 (metrics q),
        Some (dropped q, firstMissing q, lastMissing q)).

Definition Close (q : Queue) : Queue :=
  if closed q then q
  else renew_notify
         (mkQueue (buf q) (head q) (n q) true (notify q) (waiters q) (dropped q)
            (firstMissing q) (lastMissing q) (metrics q)).

(** The body of [Get]'s loop under the lock: an event, the end of the stream, or
    parking on the current channel. *)
Inductive get_outcome : Type :=
| GotEvent (e : option Event)
| GotClosed
| Parked (wait : nat).

Definition get_locked (q : Queue) : Queue * get_outcome :=
  match popLocked q with
  | (q', (e, true)) => (q', GotEvent e)
  | (q', (_, false)) =>
      if closed q' then (q', GotClosed)
      else (mkQueue (buf q') (head q') (n q') (closed q') (notify q') (S (waiters q'))
              (dropped q') (firstMissing q') (lastMissing q') (metrics q'),
            Parked (notify q'))
  end.

(** [q.waiters--] after a wake-up or a cancelled wait. *)
Definition unpark (q : Queue) : Queue :=
  mkQueue (buf q) (head q) (n q) (closed q) (notify q) (waiters q - 1) (dropped q)
    (firstMissing q) (lastMissing q) (metrics q).

Arguments recordDropLocked : simpl never.
Arguments Put : simpl never.
Arguments popLocked : simpl never.
Arguments TryGet : simpl never.
Arguments DrainOverflow : simpl never.
Arguments Close : simpl never.

(** ** The abstract queue *)

Module fifo.

Record t : Type := mk { items : list Event; capacity : nat; is_closed : bool }.

(** What a put does to the list, and the events it loses. *)
Definition put (q : t) (e : Event) : t * list Event :=
  if is_closed q then (q, [e])
  else if length (items q) =? capacity q
  then match items q with
       | x :: xs => (mk (xs ++ [e]) (capacity q) false, [x])
       | [] => (q, [])
       end
  else (mk (items q ++ [e]) (capacity q) false, []).

Definition pop (q : t) : t * option Event :=
  match items q with
  | x :: xs => (mk xs (capacity q) (is_closed q), Some x)
  | [] => (q, None)
  end.

Definition close (q : t) : t := mk (items q) (capacity q) true.

(** The sequence numbers among lost events; 0 means the event carried none. *)
Definition seqs (lost : list Event) : list Z :=
  filter (λ s, s ≠ 0%Z) (Sequence <$> lost).

(** [v] is the least (greatest) sequence lost, 0 when no lost event had one. *)
Definition is_low (lost : list Event) (v : Z) : Prop :=
  (v = 0%Z ∧ seqs lost = []) ∨ (v ∈ seqs lost ∧ ∀ s, s ∈ seqs lost → (v <= s)%Z).
Definition is_high (lost : list Event) (v : Z) : Prop :=
  (v = 0%Z ∧ seqs lost = []) ∨ (v ∈ seqs lost ∧ ∀ s, s ∈ seqs lost → (s <= v)%Z).

(** The overflow report owed for [lost]: none when nothing was lost, otherwise
    the exact count and the exact extremes. *)
Definition report (lost : list Event) (r : option (Z * Z * Z)) : Prop :=
  match r with
  | None => lost = []
  | Some (d, lo, hi) =>
      lost ≠ [] ∧ d = Z.of_nat (length lost) ∧ is_low lost lo ∧ is_high lost hi
  end.

Inductive op : Type := OPut (e : Event) | OPop | OClose | ODrain.
Inductive out : Type :=
| RPut (dropped : nat) | RPop (e : option Event) (ok : bool) | RClose | RDrain (r : option (Z * Z * Z)).

(** The abstract machine: the queue and what it has lost since the last report. *)
Inductive step : t * list Event → op → out → t * list Event → Prop :=
| step_put a lost e a' l :
    put a e = (a', l) → step (a, lost) (OPut e) (RPut (length l)) (a', lost ++ l)
| step_pop a lost a' r :
    pop a = (a', r) →
    step (a, lost) OPop (RPop r (bool_decide (is_Some r))) (a', lost)
| step_close a lost : step (a, lost) OClose RClose (close a, lost)
| step_drain a lost r : report lost r → step (a, lost) ODrain (RDrain r) (a, []).

Inductive steps : t * list Event → list op → list out → t * list Event → Prop :=
| steps_nil s : steps s [] [] s
| steps_cons s o r s' os rs s'' :
    step s o r s' → steps s' os rs s'' → steps s (o :: os) (r :: rs) s''.

End fifo.

(** The slots in queue order, and what it means for a ring to hold a list. *)
Definition contents (q : Queue) : list (option Event) :=
  (λ i, slot q ((head q + i) mod length (buf q))) <$> seq 0 (n q).

Record repr (q : Queue) (a : fifo.t) : Prop := {
  repr_items : contents q = Some <$> fifo.items a;
  repr_cap : length (buf q) = fifo.capacity a;
  repr_pos : 0 < fifo.capacity a;
  repr_head : head q < length (buf q);
  repr_n : n q <= length (buf q);
  repr_closed : closed q = fifo.is_closed a
}.

(** ** Ring arithmetic *)

Lemma mod_distinct a b c : a < b → b - a < c → a mod c ≠ b mod c.
Proof.
  intros Hab Hc Heq.
  pose proof (Nat.div_mod_eq a c). pose proof (Nat.div_mod_eq b c).
  destruct (Nat.lt_ge_cases (a / c) (b / c)); nia.
Qed.

Lemma contents_length q : length (contents q) = n q.
Proof. unfold contents. by rewrite length_fmap, length_seq. Qed.

Lemma slot_insert_ne q i j x :
  i ≠ j → default None (<[i := x]> (buf q) !! j) = slot q j.
Proof. intros. unfold slot. by rewrite list_lookup_insert_ne. Qed.

Lemma contents_push q e :
  n q < length (buf q) → contents (push_tail q e) = contents q ++ [Some e].
Proof.
  intros Hn. unfold contents. simpl. rewrite length_insert.
  rewrite Nat.add_1_r, seq_S, fmap_app. f_equal; simpl.
  - apply list_fmap_ext. intros i j Hj. apply lookup_seq in Hj as [-> Hi].
    unfold slot at 1. simpl. apply slot_insert_ne.
    apply not_eq_sym, mod_distinct; lia.
  - unfold slot. simpl. rewrite list_lookup_insert_eq; [done|].
    apply Nat.mod_upper_bound. lia.
Qed.

Lemma contents_drop_head q :
  0 < n q <= length (buf q) → head q < length (buf q) →
  contents q = slot q (head q) :: contents (drop_head q).
Proof.
  intros Hn Hh. unfold contents. simpl. rewrite length_insert.
  destruct (n q) as [|m] eqn:Em; [lia|]. simpl. rewrite Nat.sub_0_r. f_equal.
  - by rewrite Nat.add_0_r, Nat.mod_small by lia.
  - rewrite <- fmap_S_seq, <- list_fmap_compose.
    apply list_fmap_ext. intros i j Hj. apply lookup_seq in Hj as [-> Hi]. simpl.
    rewrite Nat.Div0.add_mod_idemp_l.
    replace (head q + 1 + i) with (head q + S i) by lia.
    unfold slot at 2. simpl. symmetry. apply slot_insert_ne.
    rewrite <- (Nat.mod_small (head q) (length (buf q))) at 1 by lia.
    apply mod_distinct; lia.
Qed.

(** Bookkeeping that leaves the ring itself alone. *)
Lemma repr_upd q q' a :
  buf q' = buf q → head q' = head q → n q' = n q → closed q' = closed q →
  repr q a → repr q' a.
Proof.
  intros Hb Hh Hn Hc [H1 H2 H3 H4 H5 H6].
  split; rewrite ?Hb, ?Hh, ?Hn, ?Hc; try done.
  rewrite <- H1. unfold contents, slot. by rewrite Hb, Hh, Hn.
Qed.

Lemma repr_record_drop q e a : repr q a → repr (recordDropLocked q e) a.
Proof. apply repr_upd; unfold recordDropLocked; destruct e; repeat go_case; done. Qed.

Lemma repr_wake q a : repr q a → repr (wakeLocked q) a.
Proof. apply repr_upd; unfold wakeLocked; go_case; done. Qed.

Lemma repr_depth q a : repr q a → repr (updateDepthLocked q) a.
Proof. by apply repr_upd. Qed.

Lemma repr_items_length q a : repr q a → length (fifo.items a) = n q.
Proof.
  intros [H1 _ _ _ _ _]. apply (f_equal length) in H1.
  by rewrite contents_length, length_fmap in H1.
Qed.

Lemma repr_drop_head q a x xs :
  repr q a → fifo.items a = x :: xs →
  slot q (head q) = Some x ∧ repr (drop_head q) (fifo.mk xs (fifo.capacity a) (fifo.is_closed a)).
Proof.
  intros Hr Hx. pose proof (repr_items_length _ _ Hr) as Hl. destruct Hr as [H1 H2 H3 H4 H5 H6].
  rewrite Hx in Hl. simpl in Hl.
  rewrite contents_drop_head, Hx in H1 by lia. simpl in H1. simplify_eq.
  split; [done|]. split; simpl; rewrite ?length_insert; try done; [|lia].
  apply Nat.mod_upper_bound. lia.
Qed.

Lemma repr_push q a e :
  repr q a → n q < length (buf q) →
  repr (push_tail q e) (fifo.mk (fifo.items a ++ [e]) (fifo.capacity a) (fifo.is_closed a)).
Proof.
  intros [H1 H2 H3 H4 H5 H6] Hn. split; simpl; rewrite ?length_insert; try done; [|lia].
  rewrite contents_push, H1 by done. by rewrite fmap_app.
Qed.

(** The step of [Put] that makes room. *)
Lemma repr_full_nonempty q a :
  repr q a → n q = length (buf q) → ∃ x xs, fifo.items a = x :: xs.
Proof.
  intros Hr Hn. pose proof (repr_items_length _ _ Hr). destruct Hr as [_ H2 H3 _ _ _].
  destruct (fifo.items a) as [|x xs]; simpl in *; [lia|eauto].
Qed.

Lemma Put_repr q a e :
  repr q a →
  repr (fst (Put q (Some e))) (fst (fifo.put a e)) ∧
  snd (Put q (Some e)) = length (snd (fifo.put a e)).
Proof.
  intros Hr. pose proof (repr_items_length _ _ Hr) as Hl.
  pose proof (repr_cap _ _ Hr) as Hcap. pose proof (repr_n _ _ Hr) as Hle.
  unfold Put, fifo.put. rewrite <- (repr_closed _ _ Hr).
  destruct (closed q) eqn:Ec; simpl; [by split; [apply repr_record_drop|]|].
  rewrite Hl, <- Hcap. destruct (n q =? length (buf q)) eqn:En.
  - apply Nat.eqb_eq in En. destruct (repr_full_nonempty q a Hr En) as (x & xs & Hx).
    destruct (repr_drop_head q a x xs Hr Hx) as [Hs Hd]. rewrite Hx. simpl.
    split; [|done]. rewrite Hs, <- (repr_closed _ _ Hr), Ec in *.
    apply repr_depth, repr_wake.
    eapply (repr_record_drop _ (Some x)) in Hd.
    pose proof (repr_cap _ _ Hr). pose proof (repr_pos _ _ Hr).
    eapply (repr_push _ _ e) in Hd; [rewrite Hcap; exact Hd|].
    unfold recordDropLocked. go_case; simpl; rewrite length_insert; lia.
  - apply Nat.eqb_neq in En. simpl. split; [|done].
    apply repr_depth, repr_wake.
    rewrite Hcap. replace false with (fifo.is_closed a) by (by rewrite <- (repr_closed _ _ Hr)).
    apply repr_push; [done|lia].
Qed.

Lemma popLocked_repr q a :
  repr q a →
  repr (fst (popLocked q)) (fst (fifo.pop a)) ∧
  snd (popLocked q) = (snd (fifo.pop a), bool_decide (is_Some (snd (fifo.pop a)))).
Proof.
  intros Hr. pose proof (repr_items_length _ _ Hr) as Hl. unfold popLocked, fifo.pop.
  destruct (fifo.items a) as [|x xs] eqn:Hx; simpl in Hl; rewrite <- Hl; simpl; [done|].
  destruct (repr_drop_head q a x xs Hr Hx) as [Hs Hd].
  split; [by apply repr_depth|]. by rewrite Hs.
Qed.

Lemma Close_repr q a : repr q a → repr (Close q) (fifo.close a).
Proof.
  intros [H1 H2 H3 H4 H5 H6]. unfold Close. destruct (closed q) eqn:Ec; by split.
Qed.

Lemma New_repr c m :
  ∃ cap, repr (New c m) (fifo.mk [] cap false) ∧
         cap = Z.to_nat (if (c <=? 0)%Z then defaultCapacity else c).
Proof.
  eexists. split; [|done]. unfold New, defaultCapacity.
  split; simpl; rewrite ?length_replicate; try done; destruct (Z.leb_spec c 0); lia.
Qed.

(** ** Loss accounting *)

(** The three overflow fields describe the events lost since the last report. *)
Record acct (q : Queue) (lost : list Event) : Prop := {
  acct_count : dropped q = Z.of_nat (length lost);
  acct_low : fifo.is_low lost (firstMissing q);
  acct_high : fifo.is_high lost (lastMissing q);
  acct_pos : Forall (λ e, (0 <= Sequence e)%Z) lost
}.

Lemma seqs_app l1 l2 : fifo.seqs (l1 ++ l2) = fifo.seqs l1 ++ fifo.seqs l2.
Proof. unfold fifo.seqs. by rewrite fmap_app, filter_app. Qed.

Lemma seqs_pos lost s :
  Forall (λ e, (0 <= Sequence e)%Z) lost → s ∈ fifo.seqs lost → (0 < s)%Z.
Proof.
  intros Hp. unfold fifo.seqs. rewrite list_elem_of_filter, list_elem_of_fmap.
  intros (Hne & e & -> & He). rewrite Forall_forall in Hp. specialize (Hp e He). lia.
Qed.

Lemma seqs_single e :
  fifo.seqs [e] = if (Sequence e =? 0)%Z then [] else [Sequence e].
Proof.
  unfold fifo.seqs. simpl. unfold filter. simpl.
  destruct (Z.eqb_spec (Sequence e) 0); case_decide; done.
Qed.

Lemma is_low_snoc lost e v :
  Forall (λ e, (0 <= Sequence e)%Z) lost → Sequence e ≠ 0%Z → fifo.is_low lost v →
  fifo.is_low (lost ++ [e])
    (if ((v =? 0) || (Sequence e <? v))%Z then Sequence e else v).
Proof.
  intros Hp He Hv. unfold fifo.is_low in *. rewrite seqs_app, seqs_single.
  rewrite (proj2 (Z.eqb_neq _ _) He). right.
  setoid_rewrite elem_of_app. setoid_rewrite list_elem_of_singleton.
  destruct Hv as [[-> ->]|[Hin Hmin]].
  - simpl. split; [by right|]. intros s [?%elem_of_nil| ->]; [done|lia].
  - pose proof (seqs_pos _ _ Hp Hin). destruct (Z.eqb_spec v 0); [lia|]. simpl.
    destruct (Z.ltb_spec (Sequence e) v); split; auto.
    + intros s [Hs| ->]; [specialize (Hmin s Hs)|]; lia.
    + intros s [Hs| ->]; [by apply Hmin|lia].
Qed.

Lemma is_high_snoc lost e v :
  (0 < Sequence e)%Z → fifo.is_high lost v →
  fifo.is_high (lost ++ [e]) (if (v <? Sequence e)%Z then Sequence e else v).
Proof.
  intros He Hv. unfold fifo.is_high in *. rewrite seqs_app, seqs_single.
  destruct (Z.eqb_spec (Sequence e) 0); [lia|]. right.
  setoid_rewrite elem_of_app. setoid_rewrite list_elem_of_singleton.
  destruct Hv as [[-> ->]|[Hin Hmax]].
  - destruct (Z.ltb_spec 0 (Sequence e)); [|lia]. split; [by right|].
    intros s [?%elem_of_nil| ->]; [done|lia].
  - destruct (Z.ltb_spec v (Sequence e)); split; auto.
    + intros s [Hs| ->]; [specialize (Hmax s Hs)|]; lia.
    + intros s [Hs| ->]; [by apply Hmax|lia].
Qed.

Lemma is_low_snoc_zero lost e v :
  Sequence e = 0%Z → fifo.is_low lost v → fifo.is_low (lost ++ [e]) v.
Proof. intros He. unfold fifo.is_low. by rewrite seqs_app, seqs_single, He, app_nil_r. Qed.

Lemma is_high_snoc_zero lost e v :
  Sequence e = 0%Z → fifo.is_high lost v → fifo.is_high (lost ++ [e]) v.
Proof. intros He. unfold fifo.is_high. by rewrite seqs_app, seqs_single, He, app_nil_r. Qed.

Lemma record_drop_acct q e lost :
  acct q lost → (0 <= Sequence e)%Z → (Z.of_nat (length lost) + 1 < u64_mod)%Z →
  acct (recordDropLocked q (Some e)) (lost ++ [e]).
Proof.
  intros [Hc Hl Hh Hp] He Hb. unfold recordDropLocked.
  assert (Hd : u64 (dropped q + 1) = Z.of_nat (length (lost ++ [e]))).
  { rewrite Hc, length_app. simpl. rewrite u64_small; [lia|unfold is_u64; lia]. }
  destruct (Z.eqb_spec (Sequence e) 0) as [H0|H0]; split; simpl; try done.
  all: try (apply Forall_app; split; [done|by repeat constructor]).
  - by apply is_low_snoc_zero.
  - by apply is_high_snoc_zero.
  - by apply is_low_snoc.
  - apply is_high_snoc; [lia|done].
Qed.

(** The rest of [Put] and [popLocked] leaves the accounting alone. *)
Lemma acct_upd q q' lost :
  dropped q' = dropped q → firstMissing q' = firstMissing q →
  lastMissing q' = lastMissing q → acct q lost → acct q' lost.
Proof. intros Hd Hf Hl [? ? ? ?]. split; by rewrite ?Hd, ?Hf, ?Hl. Qed.

Lemma push_acct q e lost :
  acct q lost → acct (updateDepthLocked (wakeLocked (push_tail q e))) lost.
Proof. apply acct_upd; unfold wakeLocked; simpl; go_case; done. Qed.

(** ** Refinement *)

(** The relation the simulation maintains. *)
Definition sim (q : Queue) (s : fifo.t * list Event) : Prop :=
  repr q (fst s) ∧ acct q (snd s) ∧ Forall (λ e, (0 <= Sequence e)%Z) (fifo.items (fst s)).

Definition run_op (q : Queue) (o : fifo.op) : Queue * fifo.out :=
  match o with
  | fifo.OPut e => let '(q, d) := Put q (Some e) in (q, fifo.RPut d)
  | fifo.OPop => let '(q, (e, ok)) := TryGet q in (q, fifo.RPop e ok)
  | fifo.OClose => (Close q, fifo.RClose)
  | fifo.ODrain => let '(q, r) := DrainOverflow q in (q, fifo.RDrain r)
  end.

Fixpoint run_ops (q : Queue) (os : list fifo.op) : Queue * list fifo.out :=
  match os with
  | [] => (q, [])
  | o :: os => let '(q, r) := run_op q o in
               let '(q, rs) := run_ops q os in (q, r :: rs)
  end.

Definition op_ok (o : fifo.op) : Prop :=
  match o with fifo.OPut e => (0 <= Sequence e)%Z | _ => True end.

Lemma Put_acct q a e lost :
  sim q (a, lost) → (0 <= Sequence e)%Z → (Z.of_nat (length lost) + 1 < u64_mod)%Z →
  acct (fst (Put q (Some e))) (lost ++ snd (fifo.put a e)).
Proof.
  intros (Hr & Ha & Hp) He Hb. simpl in *. pose proof (repr_items_length _ _ Hr) as Hl.
  unfold Put, fifo.put. rewrite <- (repr_closed _ _ Hr), Hl, <- (repr_cap _ _ Hr).
  destruct (closed q); simpl; [by apply record_drop_acct|].
  destruct (n q =? length (buf q)) eqn:En; simpl; [|rewrite app_nil_r; by apply push_acct].
  apply Nat.eqb_eq in En. destruct (repr_full_nonempty q a Hr En) as (x & xs & Hx).
  destruct (repr_drop_head q a x xs Hr Hx) as [Hs _]. rewrite Hx, Hs in *. simpl.
  apply push_acct, record_drop_acct; [by apply (acct_upd q)|by inversion Hp|done].
Qed.

Lemma put_items_pos a e :
  Forall (λ e, (0 <= Sequence e)%Z) (fifo.items a) → (0 <= Sequence e)%Z →
  Forall (λ e, (0 <= Sequence e)%Z) (fifo.items (fst (fifo.put a e))).
Proof.
  intros Hp He. unfold fifo.put. destruct (fifo.is_closed a); [done|].
  destruct (_ =? _), (fifo.items a) as [|x xs] eqn:Ei; simpl; rewrite ?Ei; try done.
  all: try inversion Hp; subst; repeat constructor; try done.
  all: apply Forall_app; split; [done|by repeat constructor].
Qed.

Lemma put_lost_length a e : length (snd (fifo.put a e)) <= 1.
Proof. unfold fifo.put. repeat (go_case; simpl; try lia). Qed.

Lemma sim_step q s o :
  sim q s → op_ok o → (Z.of_nat (length (snd s)) + 1 < u64_mod)%Z →
  ∃ s', fifo.step s o (snd (run_op q o)) s' ∧ sim (fst (run_op q o)) s' ∧
        length (snd s') <= length (snd s) + 1.
Proof.
  destruct s as [a lost]. intros Hsim Ho Hb. simpl in Hb.
  pose proof Hsim as (Hr & Ha & Hp). simpl in *. destruct o as [e| | |]; simpl in *.
  - destruct (Put_repr q a e Hr) as [Hr' Hd]. pose proof (Put_acct q a e lost Hsim Ho Hb) as Ha'.
    pose proof (put_lost_length a e).
    destruct (fifo.put a e) as [a' l] eqn:Ep, (Put q (Some e)) as [q' d]; simpl in *; subst.
    exists (a', lost ++ l). split; [by constructor|]. split; [|simpl; rewrite length_app; lia].
    split; [done|]. split; [done|]. simpl. pose proof (put_items_pos a e Hp Ho) as H'.
    by rewrite Ep in H'.
  - destruct (popLocked_repr q a Hr) as [Hr' Hd]. unfold TryGet.
    destruct (fifo.pop a) as [a' r] eqn:Ep, (popLocked q) as [q' [r' ok]] eqn:Eq; simpl in *; simplify_eq.
    exists (a', lost). split; [by constructor|]. split; [|simpl; lia].
    split; [done|]. split; simpl.
    + unfold popLocked in Eq. go_cases_in Eq. by apply (acct_upd q).
    + unfold fifo.pop in Ep. go_cases_in Ep. all: rewrite ?Heql in *; by inversion Hp.
  - exists (fifo.close a, lost). split; [constructor|]. split; [|simpl; lia].
    split; [by apply Close_repr|]. split; [|done].
    revert Ha. apply acct_upd; unfold Close; go_case; done.
  - exists (a, []). unfold DrainOverflow. destruct Ha as [Hc Hl Hh Hpos].
    destruct (Z.eqb_spec (dropped q) 0) as [H0|H0]; simpl.
    + assert (lost = []) as -> by (destruct lost; simpl in *; [done|lia]).
      split; [by constructor|]. split; [|lia]. by split.
    + split; [|split; [|lia]].
      * constructor. split; [by intros ->|]. done.
      * split; [by apply (repr_upd q)|]. split; [|done]. split; simpl; try done; by left.
Qed.

Lemma sim_steps q s os :
  sim q s → Forall op_ok os →
  (Z.of_nat (length (snd s)) + Z.of_nat (length os) < u64_mod)%Z →
  ∃ s', fifo.steps s os (snd (run_ops q os)) s' ∧ sim (fst (run_ops q os)) s'.
Proof.
  revert q s. induction os as [|o os IH]; intros q s Hs Ho Hb; simpl.
  - exists s. by split; [constructor|].
  - inversion Ho; subst. simpl in Hb.
    destruct (sim_step q s o) as (s1 & Hst & Hsim & Hlen); [done..|lia|].
    destruct (run_op q o) as [q1 r]. simpl in *.
    destruct (IH q1 s1) as (s2 & Hsts & Hsim2); [done..|lia|].
    destruct (run_ops q1 os) as [q2 rs]. simpl in *.
    exists s2. split; [by econstructor|done].
Qed.

(** C26: the ring buffer refines the abstract bounded FIFO. For any sequence of
    puts, pops, closes and overflow drains on a fresh queue (fewer than 2^64 of
    them), every value the code returns is the one the abstract queue returns:
    events come out in the order they went in, a full queue loses exactly its
    oldest event, a closed queue stores nothing but still drains its backlog,
    and each overflow report counts exactly the events lost since the previous
    report, with their lowest and highest sequence number. *)
Theorem queue_refines_fifo capacity m os :
  Forall op_ok os → (Z.of_nat (length os) < u64_mod)%Z →
  ∃ cap s',
    cap = Z.to_nat (if (capacity <=? 0)%Z then defaultCapacity else capacity) ∧
    fifo.steps (fifo.mk [] cap false, []) os (snd (run_ops (New capacity m) os)) s'.
Proof.
  intros Ho Hb. destruct (New_repr capacity m) as (cap & Hr & Hcap).
  destruct (sim_steps (New capacity m) (fifo.mk [] cap false, []) os) as (s' & Hs & _); eauto.
  split; [done|]. split; [|constructor]. split; simpl; try done; by left.
Qed.

Lemma queue_refines_fifo_witness :
  ∃ s', fifo.steps (fifo.mk [] 2 false, [])
    [fifo.OPut (event_at 1); fifo.OPut (event_at 2); fifo.OPut (event_at 3);
     fifo.OPop; fifo.ODrain]
    [fifo.RPut 0; fifo.RPut 0; fifo.RPut 1; fifo.RPop (Some (event_at 2)) true;
     fifo.RDrain (Some (1, 1, 1)%Z)] s'.
Proof.
  destruct (queue_refines_fifo 2 None
    [fifo.OPut (event_at 1); fifo.OPut (event_at 2); fifo.OPut (event_at 3);
     fifo.OPop; fifo.ODrain]) as (cap & s' & -> & Hs).
  - repeat constructor; simpl; lia.
  - reflexivity.
  - exists s'. exact Hs.
Defined.

(** ** Parked consumers

    [Get] parks outside the lock on the channel it saw under the lock.  A state
    is the queue and, for each parked consumer, the channel it waits on; a
    channel below the current [notify] has been closed. *)

Record mt_state : Type := mkMt { queue : Queue; parked : gmap nat nat }.

Inductive mt_step : mt_state → mt_state → Prop :=
| mt_put st e : mt_step st (mkMt (fst (Put (queue st) e)) (parked st))
| mt_tryget st : mt_step st (mkMt (fst (TryGet (queue st))) (parked st))
| mt_close st : mt_step st (mkMt (Close (queue st)) (parked st))
| mt_drain st : mt_step st (mkMt (fst (DrainOverflow (queue st))) (parked st))
| mt_get_now st q' o :
    get_locked (queue st) = (q', o) → (∀ w, o ≠ Parked w) →
    mt_step st (mkMt q' (parked st))
| mt_get_park st tid q' w :
    parked st !! tid = None → get_locked (queue st) = (q', Parked w) →
    mt_step st (mkMt q' (<[tid := w]> (parked st)))
| mt_wake st tid w :
    parked st !! tid = Some w → w < notify (queue st) →
    mt_step st (mkMt (unpark (queue st)) (delete tid (parked st)))
| mt_cancel st tid w :
    parked st !! tid = Some w →
    mt_step st (mkMt (unpark (queue st)) (delete tid (parked st))).

Record mt_inv (st : mt_state) : Prop := {
  mt_count : waiters (queue st) = size (parked st);
  mt_open : ∀ tid w, parked st !! tid = Some w →
    w <= notify (queue st) ∧
    (w = notify (queue st) → n (queue st) = 0 ∧ closed (queue st) = false)
}.

Lemma mt_inv_empty (P : gmap nat nat) : size P = 0 → P = ∅.
Proof. intros H. by apply map_size_empty_inv. Qed.

(** A queue change that either keeps the emptiness facts or renews the channel. *)
Lemma mt_inv_queue q q' P :
  mt_inv (mkMt q P) → waiters q' = waiters q →
  (notify q' = notify q ∧ (n q = 0 → closed q = false → n q' = 0 ∧ closed q' = false)) ∨
  notify q' = S (notify q) ∨ waiters q = 0 →
  mt_inv (mkMt q' P).
Proof.
  intros [Hc Ho] Hw H. simpl in *. split; simpl; [congruence|]. intros tid w Hp.
  destruct (Ho tid w Hp) as [Hle Hcur]. destruct H as [[Hn Hk]|[Hn|H0]].
  - rewrite Hn. split; [done|]. intros ->. destruct (Hcur eq_refl). by apply Hk.
  - rewrite Hn. split; lia.
  - rewrite H0 in Hc. symmetry in Hc. apply mt_inv_empty in Hc as ->.
    by rewrite lookup_empty in Hp.
Qed.

Lemma recordDrop_ring q e :
  waiters (recordDropLocked q e) = waiters q ∧ notify (recordDropLocked q e) = notify q ∧
  n (recordDropLocked q e) = n q ∧ closed (recordDropLocked q e) = closed q.
Proof. unfold recordDropLocked. by repeat go_case. Qed.

Lemma Put_wakes q e :
  waiters (fst (Put q e)) = waiters q ∧
  ((notify (fst (Put q e)) = notify q ∧
    (n q = 0 → closed q = false → n (fst (Put q e)) = 0 ∧ closed (fst (Put q e)) = false)) ∨
   notify (fst (Put q e)) = S (notify q) ∨ waiters q = 0).
Proof.
  unfold Put. destruct e as [e|]; [|simpl; auto]. destruct (closed q) eqn:Ec.
  - simpl. destruct (recordDrop_ring q (Some e)) as (-> & -> & -> & ->).
    split; [done|]. left. split; [done|]. by intros ? [=].
  - set (r := if _ =? _ then _ else _).
    assert (Hr : waiters (fst r) = waiters q ∧ notify (fst r) = notify q).
    { subst r. go_case; simpl; [|done].
      by destruct (recordDrop_ring (drop_head q) (slot q (head q))) as (-> & -> & _). }
    destruct r as [q1 d]. simpl in *. unfold wakeLocked. simpl. destruct Hr as [Hw Hn].
    destruct (waiters q1 =? 0) eqn:E; simpl.
    + apply Nat.eqb_eq in E. split; [done|]. right. right. lia.
    + split; [done|]. right. left. lia.
Qed.

Lemma get_locked_parks q q' w :
  get_locked q = (q', Parked w) →
  n q = 0 ∧ closed q = false ∧ w = notify q ∧ n q' = 0 ∧ closed q' = false ∧
  notify q' = notify q ∧ waiters q' = S (waiters q).
Proof.
  unfold get_locked, popLocked. destruct (n q =? 0) eqn:E; simpl; [|done].
  apply Nat.eqb_eq in E. destruct (closed q) eqn:Ec; intros; simplify_eq/=. auto 10.
Qed.

Lemma get_locked_now q q' o :
  get_locked q = (q', o) → (∀ w, o ≠ Parked w) →
  waiters q' = waiters q ∧ notify q' = notify q ∧
  (n q = 0 → closed q = false → n q' = 0 ∧ closed q' = false).
Proof.
  unfold get_locked, popLocked. destruct (n q =? 0) eqn:E; simpl.
  - destruct (closed q) eqn:Ec; intros Hq Ho; simplify_eq; [done|]. by destruct (Ho (notify q)).
  - apply Nat.eqb_neq in E. intros Hq Ho; simplify_eq/=. done.
Qed.

Lemma unpark_inv q P tid w :
  mt_inv (mkMt q P) → P !! tid = Some w → mt_inv (mkMt (unpark q) (delete tid P)).
Proof.
  intros [Hc Ho] Hp. simpl in *. split; simpl.
  - rewrite map_size_delete, Hp, Hc. simpl. lia.
  - intros tid' w' [_ H]%lookup_delete_Some. by apply (Ho tid').
Qed.

Lemma mt_step_inv st st' : mt_step st st' → mt_inv st → mt_inv st'.
Proof.
  intros Hs Hi.
  destruct Hs as [[q P] e|[q P]|[q P]|[q P]|[q P] q' o Hg Ho|[q P] tid q' w Hp Hg
                 |[q P] tid w Hp Hw|[q P] tid w Hp]; simpl in *.
  - destruct (Put_wakes q e). by eapply mt_inv_queue.
  - unfold TryGet, popLocked. destruct (n q =? 0) eqn:E; simpl; [done|].
    apply Nat.eqb_neq in E. apply (mt_inv_queue q); simpl; [done..|]. by left.
  - unfold Close. destruct (closed q) eqn:E; [done|]. apply (mt_inv_queue q); simpl; auto.
  - unfold DrainOverflow. destruct (_ =? _)%Z; [done|]. apply (mt_inv_queue q); simpl; auto.
  - destruct (get_locked_now q q' o) as (H1 & H2 & H3); [done..|].
    eapply mt_inv_queue; [done..|]. by left.
  - apply get_locked_parks in Hg as (H1 & H2 & -> & H4 & H5 & H6 & H7).
    destruct Hi as [Hc Ho]. simpl in *. split; simpl.
    + rewrite map_size_insert_None, H7, Hc; done.
    + intros tid' w [[-> <-]|[Hne Hw]]%lookup_insert_Some; rewrite H6; [done|].
      destruct (Ho tid' w Hw). split; [done|]. intros ->. done.
  - by eapply unpark_inv.
  - by eapply unpark_inv.
Qed.

(** no wake-up is lost. In every interleaving of producers, consumers,
    cancellations and Close, a consumer parked in Get while the queue holds an
    event or is closed can always be woken: the channel it waits on has been
    closed, so its wake-up step is enabled. *)
Theorem no_lost_wakeup capacity m st tid w :
  rtc mt_step (mkMt (New capacity m) ∅) st →
  parked st !! tid = Some w →
  0 < n (queue st) ∨ closed (queue st) = true →
  w < notify (queue st) ∧
  mt_step st (mkMt (unpark (queue st)) (delete tid (parked st))).
Proof.
  intros Hr Hp Hq.
  assert (Hi : mt_inv st).
  { eapply rtc_invariant; [exact mt_step_inv| |exact Hr].
    split; simpl; [done|]. intros ??. by rewrite lookup_empty. }
  destruct Hi as [_ Ho]. destruct (Ho tid w Hp) as [Hle Hcur].
  assert (w < notify (queue st)).
  { destruct (Nat.eq_dec w (notify (queue st))) as [He|]; [|lia].
    destruct (Hcur He) as [Hn Hc]. rewrite Hc in Hq. destruct Hq; [lia|done]. }
  split; [done|]. by eapply mt_wake.
Qed.

Lemma no_lost_wakeup_witness :
  let q1 := fst (get_locked (New 2 None)) in
  let q2 := fst (Put q1 (Some (event_at 1))) in
  let st := mkMt q2 (<[7 := 0]> ∅) in
  0 < notify (queue st) ∧ mt_step st (mkMt (unpark (queue st)) (delete 7 (parked st))).
Proof.
  intros q1 q2 st. apply (no_lost_wakeup 2 None st 7 0).
  - eapply rtc_l; [eapply (mt_get_park _ 7 q1 0); reflexivity|].
    eapply rtc_l; [eapply (mt_put _ (Some (event_at 1)))|]. apply rtc_refl.
  - reflexivity.
  - left. vm_compute. lia.
Defined.

(** the overflow report can name a sequence that was delivered. The comment
    on Put says the loss is exactly everything from firstMissing to lastMissing;
    with a consumer running between two overflows that is not so: here event 2
    reaches the consumer, and the next report still covers 1 to 3. *)
Theorem overflow_range_not_exact :
  snd (run_ops (New 2 None)
    [fifo.OPut (event_at 1); fifo.OPut (event_at 2); fifo.OPut (event_at 3);
     fifo.OPop; fifo.OPut (event_at 4); fifo.OPut (event_at 5); fifo.ODrain])
  = [fifo.RPut 0; fifo.RPut 0; fifo.RPut 1; fifo.RPop (Some (event_at 2)) true;
     fifo.RPut 0; fifo.RPut 1; fifo.RDrain (Some (2, 1, 3)%Z)].
Proof. reflexivity. Qed.
