(* ===== verification/GoStrings.v ===== *)
(** * Go strings

    A Go [string] is a sequence of bytes, here a Rocq [string].  This file models
    what the sources use of package [strings] on it: [TrimSpace] (the Unicode
    white space of [unicode.IsSpace], in its UTF-8 encodings), [HasPrefix],
    [HasSuffix], [CutPrefix], [CutSuffix] and byte classes. *)

From S2P Require Import Prelude.
From Stdlib Require Export Ascii.

Abbreviation chars := (list ascii).
Abbreviation to_chars := (String.list_ascii_of_string).
Abbreviation of_chars := (String.string_of_list_ascii).

Definition code (c : ascii) : Z := Z.of_N (N_of_ascii c).
Definition len (s : string) : Z := Z.of_nat (String.length s).

Definition in_range (lo hi : Z) (c : ascii) : bool := (lo <=? code c) && (code c <=? hi).

(** [unicode.IsSpace] on one-, two- and three-byte encodings: the ASCII spaces,
    U+0085, U+00A0, U+1680, U+2000..U+200A, U+2028, U+2029, U+202F, U+205F and
    U+3000. *)
Definition space1 (a : ascii) : bool := in_range 9 13 a || (code a =? 32).
Definition space2 (a b : ascii) : bool :=
  (code a =? 194) && ((code b =? 133) || (code b =? 160)).
Definition space3 (a b c : ascii) : bool :=
  ((code a =? 225) && (code b =? 154) && (code c =? 128))
  || ((code a =? 226) && (code b =? 128)
      && (in_range 128 138 c || (code c =? 168) || (code c =? 169) || (code c =? 175)))
  || ((code a =? 226) && (code b =? 129) && (code c =? 159))
  || ((code a =? 227) && (code b =? 128) && (code c =? 128)).

Fixpoint trim_left (l : chars) : chars :=
  match l with
  | [] => []
  | a :: l1 =>
      if space1 a then trim_left l1
      else match l1 with
           | [] => l
           | b :: l2 =>
               if space2 a b then trim_left l2
               else match l2 with
                    | [] => l
                    | c :: l3 => if space3 a b c then trim_left l3 else l
                    end
           end
  end.

(** The same from the end, on the reversed list. *)
Fixpoint trim_left_rev (l : chars) : chars :=
  match l with
  | [] => []
  | a :: l1 =>
      if space1 a then trim_left_rev l1
      else match l1 with
           | [] => l
           | b :: l2 =>
               if space2 b a then trim_left_rev l2
               else match l2 with
                    | [] => l
                    | c :: l3 => if space3 c b a then trim_left_rev l3 else l
                    end
           end
  end.

Definition TrimSpace (s : string) : string :=
  of_chars (rev (trim_left_rev (rev (trim_left (to_chars s))))).

Fixpoint has_prefix (p l : chars) : bool :=
  match p, l with
  | [], _ => true
  | a :: p, b :: l => Ascii.eqb a b && has_prefix p l
  | _ :: _, [] => false
  end.

Definition HasPrefix (s p : string) : bool := has_prefix (to_chars p) (to_chars s).
Definition HasSuffix (s p : string) : bool := has_prefix (rev (to_chars p)) (rev (to_chars s)).

(** [strings.CutPrefix] and [strings.CutSuffix]: [None] is [ok = false]. *)
Definition CutPrefix (s p : string) : option string :=
  if HasPrefix s p then Some (of_chars (drop (String.length p) (to_chars s))) else None.
Definition CutSuffix (s p : string) : option string :=
  if HasSuffix s p
  then Some (of_chars (take (String.length s - String.length p) (to_chars s))) else None.

(** [strings.ContainsRune] for an ASCII rune. *)
Definition contains (c : ascii) (s : string) : bool := existsb (Ascii.eqb c) (to_chars s).

(** ** Facts *)

Lemma of_to_chars s : of_chars (to_chars s) = s.
Proof. apply String.string_of_list_ascii_of_string. Qed.

Lemma to_of_chars l : to_chars (of_chars l) = l.
Proof. apply String.list_ascii_of_string_of_list_ascii. Qed.

Lemma to_chars_inj s t : to_chars s = to_chars t → s = t.
Proof. intros H. by rewrite <- (of_to_chars s), H, of_to_chars. Qed.

Lemma to_chars_app s t : to_chars (s +:+ t) = to_chars s ++ to_chars t.
Proof. induction s as [|c s IH]; simpl; [done|]. unfold String.app in *. simpl. by rewrite IH. Qed.

Lemma length_to_chars s : length (to_chars s) = String.length s.
Proof. induction s; simpl; congruence. Qed.

Lemma has_prefix_spec p l : has_prefix p l = true ↔ ∃ r, l = p ++ r.
Proof.
  revert l. induction p as [|a p IH]; intros [|b l]; simpl; split; try done.
  - intros _. by exists [].
  - intros _. by eexists.
  - by intros [r ?].
  - intros [->%Ascii.eqb_eq [r ->]%IH]%andb_true_iff. by exists r.
  - intros [r [= -> ->]]. rewrite Ascii.eqb_refl. simpl. apply IH. by exists r.
Qed.

Lemma HasPrefix_app p t : HasPrefix (p +:+ t) p = true.
Proof. unfold HasPrefix. rewrite to_chars_app. apply has_prefix_spec. by eexists. Qed.

Lemma CutPrefix_app p t : CutPrefix (p +:+ t) p = Some t.
Proof.
  unfold CutPrefix. rewrite HasPrefix_app, to_chars_app.
  rewrite drop_app_length' by (symmetry; apply length_to_chars). by rewrite of_to_chars.
Qed.

(** A byte that begins or ends no white-space encoding. *)
Definition solid (c : ascii) : bool := in_range 33 127 c.

Lemma solid_not_space1 a : solid a = true → space1 a = false.
Proof. unfold solid, space1, in_range. lia. Qed.

Lemma solid_not_space2 a b : solid a = true ∨ solid b = true → space2 a b = false.
Proof. unfold solid, space2, in_range. lia. Qed.

Lemma solid_not_space3 a b c : solid a = true ∨ solid c = true → space3 a b c = false.
Proof. unfold solid, space3, in_range. lia. Qed.

Lemma trim_left_solid a l : solid a = true → trim_left (a :: l) = a :: l.
Proof.
  intros Ha. simpl. rewrite solid_not_space1 by done.
  destruct l as [|b [|c l]]; [done|..]; rewrite solid_not_space2 by auto; [done|].
  by rewrite solid_not_space3 by auto.
Qed.

Lemma trim_left_rev_solid a l : solid a = true → trim_left_rev (a :: l) = a :: l.
Proof.
  intros Ha. simpl. rewrite solid_not_space1 by done.
  destruct l as [|b [|c l]]; [done|..]; rewrite solid_not_space2 by auto; [done|].
  by rewrite solid_not_space3 by auto.
Qed.

(** Trimming leaves a string of solid bytes as it is. *)
Lemma TrimSpace_solid s : Forall (λ c, solid c = true) (to_chars s) → TrimSpace s = s.
Proof.
  intros H. unfold TrimSpace. destruct (to_chars s) as [|a l] eqn:E.
  - apply to_chars_inj. by rewrite to_of_chars, E.
  - rewrite trim_left_solid by (by inversion H).
    apply Forall_rev in H. destruct (rev (a :: l)) as [|b l'] eqn:Er.
    { apply (f_equal length) in Er. rewrite length_rev in Er. simpl in Er. lia. }
    rewrite trim_left_rev_solid by (by inversion H).
    rewrite <- Er, rev_involutive, <- E. apply of_to_chars.
Qed.

(** ** Decimal numbers *)

(** [n] decimal digits of [z], the most significant first. *)
Fixpoint digits (n : nat) (z : Z) : chars :=
  match n with
  | O => []
  | S n => ascii_of_N (Z.to_N (48 + z / 10 ^ Z.of_nat n mod 10)) :: digits n z
  end.

(** [strconv.ParseUint(s, 10, 64)] *)
Definition digit_value (c : ascii) : option Z := if in_range 48 57 c then Some (code c - 48) else None.

Definition parse_step (acc : option Z) (c : ascii) : option Z :=
  match acc, digit_value c with
  | Some n, Some d => if n * 10 + d <? u64_mod then Some (n * 10 + d) else None
  | _, _ => None
  end.

Definition ParseUint (s : string) : option Z :=
  if String.eqb s "" then None else fold_left parse_step (to_chars s) (Some 0).

Lemma pow10_succ (n : nat) : 10 ^ Z.of_nat (S n) = 10 * 10 ^ Z.of_nat n.
Proof. rewrite Nat2Z.inj_succ, Z.pow_succ_r; lia. Qed.

Lemma pow10_pos (n : nat) : 0 < 10 ^ Z.of_nat n.
Proof. apply Z.pow_pos_nonneg; lia. Qed.

(** Digits above the [n] lowest do not show. *)
Lemma digits_high (n m : nat) d z : (n <= m)%nat → digits n (d * 10 ^ Z.of_nat m + z) = digits n z.
Proof.
  induction n as [|n IH]; intros Hn; cbn [digits]; [done|]. rewrite IH by lia. do 4 f_equal.
  replace (Z.of_nat m) with (Z.of_nat (m - S n) + Z.of_nat (S n)) by lia.
  rewrite Z.pow_add_r, pow10_succ by lia. pose proof (pow10_pos n).
  replace (d * (10 ^ Z.of_nat (m - S n) * (10 * 10 ^ Z.of_nat n)) + z)
    with (d * 10 ^ Z.of_nat (m - S n) * 10 * 10 ^ Z.of_nat n + z) by ring.
  by rewrite Z.div_add_l, Z.add_comm, Z.mod_add by lia.
Qed.

Lemma digits_length n z : length (digits n z) = n.
Proof. induction n; simpl; lia. Qed.

Lemma digit_value_spec c d : digit_value c = Some d ↔ 0 <= d < 10 ∧ c = ascii_of_N (Z.to_N (48 + d)).
Proof.
  unfold digit_value, in_range, code. split.
  - destruct (_ && _) eqn:E; [|done]. intros [= <-]. bool_props. split; [lia|].
    replace (48 + (Z.of_N (N_of_ascii c) - 48)) with (Z.of_N (N_of_ascii c)) by lia.
    by rewrite N2Z.id, ascii_N_embedding.
  - intros [Hd ->]. rewrite N_ascii_embedding by lia. rewrite Z2N.id by lia.
    destruct (Z.leb_spec 48 (48 + d)), (Z.leb_spec (48 + d) 57); try lia. simpl. f_equal. lia.
Qed.

Lemma fold_parse_digits n : ∀ a z,
  0 <= a → 0 <= z < 10 ^ Z.of_nat n → a * 10 ^ Z.of_nat n + z < u64_mod →
  fold_left parse_step (digits n z) (Some a) = Some (a * 10 ^ Z.of_nat n + z).
Proof.
  induction n as [|n IH]; intros a z Ha Hz Hlt; cbn [digits fold_left].
  - change (10 ^ Z.of_nat 0) with 1 in *. f_equal. lia.
  - rewrite pow10_succ in *. pose proof (pow10_pos n) as Hp. set (P := 10 ^ Z.of_nat n) in *.
    pose proof (Z.div_mod z P ltac:(lia)) as Hdm. pose proof (Z.mod_pos_bound z P ltac:(lia)).
    assert (0 <= z / P < 10) by (split; [apply Z.div_pos; lia|apply Z.div_lt_upper_bound; lia]).
    rewrite (Z.mod_small (z / P)) by lia. unfold parse_step at 2.
    rewrite (proj2 (digit_value_spec _ (z / P))) by done.
    destruct (Z.ltb_spec (a * 10 + z / P) u64_mod); [|nia].
    replace (digits n z) with (digits n (z mod P)).
    2: { rewrite <- (digits_high n n (z / P) (z mod P)) by lia. f_equal. fold P. lia. }
    rewrite IH; fold P; [f_equal; nia|lia|lia|nia].
Qed.

Lemma fold_parse_none l : fold_left parse_step l None = None.
Proof. by induction l. Qed.

Lemma fold_parse_inv l : ∀ a v,
  0 <= a < u64_mod → fold_left parse_step l (Some a) = Some v →
  ∃ w, 0 <= w < 10 ^ Z.of_nat (length l) ∧ v = a * 10 ^ Z.of_nat (length l) + w ∧
       l = digits (length l) w ∧ v < u64_mod.
Proof.
  induction l as [|c l IH]; intros a v Ha H; cbn [fold_left length] in *.
  - injection H as <-. exists 0. change (10 ^ Z.of_nat 0) with 1. split_and!; try done; lia.
  - unfold parse_step at 2 in H. destruct (digit_value c) as [d|] eqn:Ed; [|by rewrite fold_parse_none in H].
    apply digit_value_spec in Ed as [Hd Hc].
    destruct (Z.ltb_spec (a * 10 + d) u64_mod); [|by rewrite fold_parse_none in H].
    apply IH in H as (w & Hw & -> & Hl & Hv); [|lia]. rewrite pow10_succ. pose proof (pow10_pos (length l)).
    set (P := 10 ^ Z.of_nat (length l)) in *. exists (d * P + w). split_and!; [nia|nia|nia| |done].
    cbn [digits]. unfold P at 2. rewrite digits_high, <- Hl by lia. fold P. f_equal. rewrite Hc.
    rewrite Z.div_add_l, Z.div_small, Z.add_0_r, Z.mod_small by lia. done.
Qed.

Lemma CutSuffix_spec s p t : CutSuffix s p = Some t ↔ s = t +:+ p.
Proof.
  unfold CutSuffix, HasSuffix. split.
  - destruct (has_prefix _ _) eqn:E; [|done]. intros [= <-].
    apply has_prefix_spec in E as [r Hr]. apply (f_equal (@rev ascii)) in Hr.
    rewrite rev_involutive, rev_app_distr, rev_involutive in Hr.
    apply to_chars_inj. rewrite to_chars_app, to_of_chars, <- !length_to_chars, Hr, length_app.
    by rewrite Nat.add_sub, take_app_length.
  - intros ->. rewrite to_chars_app, rev_app_distr. rewrite (proj2 (has_prefix_spec _ _)) by eauto.
    f_equal. rewrite <- !length_to_chars, to_chars_app, length_app, Nat.add_sub, take_app_length.
    apply of_to_chars.
Qed.
