(* ===== verification/GoText.v ===== *)
(** * More of packages strings, strconv and encoding/hex

    What the audit record parser and the normalizer use of them, on the characters of
    a string: cutting at a byte, trimming a set of bytes, splitting at white space,
    decimal and hexadecimal numbers. *)

From S2P Require Import Prelude GoStrings.

(** The longest prefix of [l] whose characters satisfy [p], and the rest. *)
Fixpoint span (p : ascii → bool) (l : chars) : chars * chars :=
  match l with
  | [] => ([], [])
  | c :: l' => if p c then let '(a, b) := span p l' in (c :: a, b) else ([], l)
  end.

(** What is before and after the first [c]: [strings.Cut] and [strings.IndexByte]. *)
Fixpoint cut_at (c : ascii) (l : chars) : option (chars * chars) :=
  match l with
  | [] => None
  | x :: l => if Ascii.eqb x c then Some ([], l)
              else match cut_at c l with Some (a, b) => Some (x :: a, b) | None => None end
  end.

(** [strings.Cut] when [ok] is not used: all of it is before. *)
Definition cut_before (c : ascii) (l : chars) : chars * chars := default (l, []) (cut_at c l).

(** [strings.TrimLeft] and [strings.Trim] with a set of bytes. *)
Definition trim_set (set : chars) (l : chars) : chars := snd (span (λ c, bool_decide (c ∈ set)) l).
Definition trim_both (set : chars) (l : chars) : chars := rev (trim_set set (rev (trim_set set l))).

Definition cut_prefix (p l : chars) : option chars := if has_prefix p l then Some (drop (length p) l) else None.

(** [strings.Fields]: a space of two or three bytes is recognised at its first byte. *)
Fixpoint fields_of (l cur : chars) : list chars :=
  let word := match cur with [] => [] | _ => [rev cur] end in
  match l with
  | [] => word
  | a :: l1 =>
      if space1 a then word ++ fields_of l1 []
      else match l1 with
           | [] => fields_of l1 (a :: cur)
           | b :: l2 =>
               if space2 a b then word ++ fields_of l2 []
               else match l2 with
                    | [] => fields_of l1 (a :: cur)
                    | c :: l3 => if space3 a b c then word ++ fields_of l3 [] else fields_of l1 (a :: cur)
                    end
           end
  end.

(** [strings.Join]. *)
Fixpoint join (sep : chars) (l : list chars) : chars :=
  match l with
  | [] => []
  | [x] => x
  | x :: l => x ++ sep ++ join sep l
  end.

(** ** Decimal *)

(** The number of decimal digits of a number below [10 ^ n], at least one. *)
Fixpoint width (n : nat) (z : Z) : nat :=
  match n with
  | O => 1
  | S n => if z <? 10 ^ Z.of_nat (S n) then width n z else S (S n)
  end.

(** [strconv.Itoa] and ["%d"] of a number of at most 20 digits. *)
Definition itoa (z : Z) : chars := digits (width 19 z) z.

Definition parse_uint (l : chars) : option Z := ParseUint (of_chars l).

(** [strconv.ParseUint] and [strconv.ParseInt] at a smaller size, of digits. *)
Definition parse_below (bound : Z) (l : chars) : option Z :=
  match parse_uint l with Some v => if v <? bound then Some v else None | None => None end.

(** [time.Unix]: the seconds since year 1 wrap around. *)
Definition unixToInternal : Z := 62135596800.
Definition wrap_i64 (z : Z) : Z := (z + 2 ^ 63) mod 2 ^ 64 - 2 ^ 63.
Definition Unix (sec nsec : Z) : time := wrap_i64 (sec + unixToInternal) * 1000000000 + nsec.

(** ** Hexadecimal *)

Definition hex_value (c : ascii) : option Z :=
  if in_range 48 57 c then Some (code c - 48)
  else if in_range 97 102 c then Some (code c - 87)
  else if in_range 65 70 c then Some (code c - 55)
  else None.

Definition char_of (z : Z) : ascii := ascii_of_N (Z.to_N z).

(** [hex.DecodeString]. *)
Fixpoint hex_decode (l : chars) : option chars :=
  match l with
  | [] => Some []
  | [_] => None
  | a :: b :: l =>
      match hex_value a, hex_value b, hex_decode l with
      | Some x, Some y, Some r => Some (char_of (x * 16 + y) :: r)
      | _, _, _ => None
      end
  end.

(** ** Facts *)

Lemma span_app p l : let '(a, b) := span p l in l = a ++ b ∧ Forall (λ c, p c = true) a.
Proof.
  induction l as [|c l IH]; simpl; [done|]. destruct (p c) eqn:E; [|done].
  destruct (span p l) as [a b]. destruct IH as [-> H]. split; [done|by constructor].
Qed.

Lemma span_all p a b :
  Forall (λ c, p c = true) a → match b with [] => True | c :: _ => p c = false end → span p (a ++ b) = (a, b).
Proof.
  induction 1 as [|c a Hc _ IH]; simpl; intros Hb.
  - destruct b as [|c b]; [done|]. simpl. by rewrite Hb.
  - by rewrite Hc, IH.
Qed.

Lemma span_length p l : (length (snd (span p l)) <= length l)%nat.
Proof.
  pose proof (span_app p l) as H. destruct (span p l) as [a b]. destruct H as [-> _]. rewrite length_app. simpl. lia.
Qed.

Lemma cut_at_app c a b : c ∉ a → cut_at c (a ++ c :: b) = Some (a, b).
Proof.
  induction a as [|x a IH]; simpl; intros Hc.
  - by rewrite Ascii.eqb_refl.
  - destruct (Ascii.eqb_spec x c); [set_solver|]. rewrite IH by set_solver. done.
Qed.

Lemma cut_at_inv c l a b : cut_at c l = Some (a, b) → l = a ++ c :: b ∧ c ∉ a.
Proof.
  revert a b. induction l as [|x l IH]; simpl; intros a b H; [done|]. destruct (Ascii.eqb_spec x c) as [->|Hne].
  - simplify_eq. split; [done|set_solver].
  - destruct (cut_at c l) as [[a' b']|]; [|done]. simplify_eq. destruct (IH _ _ eq_refl) as [-> H]. split; [done|set_solver].
Qed.

Lemma cut_at_none c l : c ∉ l → cut_at c l = None.
Proof.
  induction l as [|x l IH]; simpl; intros Hc; [done|]. destruct (Ascii.eqb_spec x c); [set_solver|].
  rewrite IH by set_solver. done.
Qed.

Lemma cut_prefix_app p l : cut_prefix p (p ++ l) = Some l.
Proof. unfold cut_prefix. rewrite (proj2 (has_prefix_spec _ _)) by eauto. by rewrite drop_app_length. Qed.

Lemma cut_prefix_inv p l r : cut_prefix p l = Some r → l = p ++ r.
Proof.
  unfold cut_prefix. destruct (has_prefix p l) eqn:E; [|done]. apply has_prefix_spec in E as [t ->]. intros [= <-].
  by rewrite drop_app_length.
Qed.

Lemma trim_set_id set c l : c ∉ set → trim_set set (c :: l) = c :: l.
Proof. intros H. unfold trim_set. simpl. by rewrite bool_decide_false. Qed.

Lemma trim_set_head set l : match trim_set set l with [] => True | c :: _ => c ∉ set end.
Proof.
  unfold trim_set. induction l as [|c l IH]; simpl; [done|]. case_bool_decide as E; [|done].
  by destruct (span _ l).
Qed.

Lemma trim_set_suffix set l : ∃ a, l = a ++ trim_set set l.
Proof.
  unfold trim_set. pose proof (span_app (λ c, bool_decide (c ∈ set)) l) as H. destruct (span _ l) as [a b].
  destruct H as [-> _]. by exists a.
Qed.

(** A text whose ends are not in the set is left alone. *)
Lemma trim_both_id set l :
  match l with [] => True | c :: _ => c ∉ set end → match rev l with [] => True | c :: _ => c ∉ set end →
  trim_both set l = l.
Proof.
  intros H1 H2. unfold trim_both. destruct l as [|c l]; [done|]. rewrite trim_set_id by done.
  destruct (rev (c :: l)) as [|d r] eqn:E; [by apply (f_equal length) in E; rewrite length_rev in E|]. rewrite trim_set_id, <- E by done. apply rev_involutive.
Qed.

(** What [Trim] gives has its ends outside the set. *)
Lemma trim_both_ends set l :
  match trim_both set l with [] => True | c :: _ => c ∉ set end ∧
  match rev (trim_both set l) with [] => True | c :: _ => c ∉ set end.
Proof.
  unfold trim_both. set (m := trim_set set l). rewrite rev_involutive. split; [|apply trim_set_head].
  pose proof (trim_set_head set l) as Hm. fold m in Hm. destruct (trim_set_suffix set (rev m)) as [a Ha].
  apply (f_equal (@rev ascii)) in Ha. rewrite rev_involutive, rev_app_distr in Ha.
  destruct (rev (trim_set set (rev m))) as [|c r]; [done|]. rewrite Ha in Hm. done.
Qed.

(** *** Numbers *)

Lemma width_spec n z : 0 <= z < 10 ^ Z.of_nat (S n) → z < 10 ^ Z.of_nat (width n z) ∧ (1 <= width n z <= S n)%nat.
Proof.
  induction n as [|n IH]; intros Hz; cbn [width]; [split; [lia|lia]|].
  destruct (Z.ltb_spec z (10 ^ Z.of_nat (S n))) as [H|H]; [|split; [lia|lia]].
  destruct IH; [lia|]. split; [done|lia].
Qed.

Lemma width_short n z : 0 <= z < 10 ^ Z.of_nat n → (1 <= n)%nat → (width 19 z <= n)%nat.
Proof.
  intros Hz Hn. destruct (decide (19 < n)%nat); [|].
  - assert (H : ∀ m, (width m z <= S m)%nat) by (induction m as [|m IH]; cbn [width]; [lia|]; destruct (_ <? _); lia).
    specialize (H 19%nat). lia.
  - assert (H : ∀ m, (n <= S m)%nat → (width m z <= n)%nat); [|apply H; lia].
    induction m as [|m IH]; intros Hm; cbn [width]; [lia|].
    destruct (decide (n = S (S m))) as [->|]; [destruct (_ <? _); [|lia]|].
    + clear IH. assert (H : ∀ k, (width k z <= S k)%nat) by (induction k as [|k IH]; cbn [width]; [lia|]; destruct (_ <? _); lia).
      specialize (H m). lia.
    + destruct (Z.ltb_spec z (10 ^ Z.of_nat (S m))) as [H|H]; [apply IH; lia|].
      assert (10 ^ Z.of_nat n <= 10 ^ Z.of_nat (S m)) by (apply Z.pow_le_mono_r; lia). lia.
Qed.

Lemma parse_digits n z : (1 <= n)%nat → 0 <= z < 10 ^ Z.of_nat n → is_u64 z → parse_uint (digits n z) = Some z.
Proof.
  intros Hn Hz Hu. unfold parse_uint, ParseUint. destruct n as [|n]; [lia|].
  replace (String.eqb (of_chars (digits (S n) z)) "") with false.
  - rewrite to_of_chars, fold_parse_digits; [done|lia|lia|unfold is_u64 in Hu; lia].
  - symmetry. apply String.eqb_neq. intros E. by apply (f_equal to_chars) in E.
Qed.

Lemma parse_itoa z : is_u64 z → parse_uint (itoa z) = Some z.
Proof.
  intros Hz. assert (Hr : 0 <= z < 10 ^ Z.of_nat 20) by (unfold is_u64, u64_mod in Hz; simpl; lia).
  destruct (width_spec 19 z Hr) as [Hw Hn]. apply parse_digits; [lia|unfold is_u64 in Hz; lia|done].
Qed.

Lemma digits_range n z c : c ∈ digits n z → in_range 48 57 c = true.
Proof.
  induction n as [|n IH]; cbn [digits]; [set_solver|].
  intros [->|H]%elem_of_cons; [|by apply IH]. set (d := z / _ mod 10).
  assert (Hd : 0 <= d < 10) by (apply Z.mod_pos_bound; lia).
  assert (H : digit_value (ascii_of_N (Z.to_N (48 + d))) = Some d) by (by apply digit_value_spec).
  unfold digit_value in H. by destruct (in_range 48 57 _).
Qed.

Lemma not_in_digits c n z : in_range 48 57 c = false → c ∉ digits n z.
Proof. intros H Hc. apply digits_range in Hc. congruence. Qed.
