(* ===== verification/GoMisc.v ===== *)
(** * Letters, signed numbers, paths and stable sorting

    What the event normalizer uses of packages strings, strconv, path and sort, on the
    characters of a string. *)

From S2P Require Import Prelude GoStrings GoText.

(** ** Letters *)

Definition lower (c : ascii) : ascii := if in_range 65 90 c then char_of (code c + 32) else c.

(** [strings.ToLower] where its result is ASCII: only U+0130 and U+212A fall into ASCII
    from outside.  Where the result is not ASCII this differs from it in bytes outside
    ASCII only, which matters to no comparison with an ASCII text. *)
Fixpoint to_lower (l : chars) : chars :=
  match l with
  | [] => []
  | a :: l1 =>
      match l1 with
      | [] => [lower a]
      | b :: l2 =>
          if (code a =? 196) && (code b =? 176) then "i"%char :: to_lower l2
          else match l2 with
               | [] => lower a :: to_lower l1
               | c :: l3 =>
                   if (code a =? 226) && (code b =? 132) && (code c =? 170) then "k"%char :: to_lower l3
                   else lower a :: to_lower l1
               end
      end
  end.

(** [strings.EqualFold] with a text of ASCII letters other than k and s, whose only other
    case is ASCII. *)
Definition equal_fold (s t : string) : bool := bool_decide (lower <$> to_chars s = lower <$> to_chars t).

(** [strings.TrimRight] with a set, [strings.Split] at a byte, and [strings.ReplaceAll]
    of a byte. *)
Definition trim_right (set : chars) (l : chars) : chars := rev (trim_set set (rev l)).

Fixpoint split_on (c : ascii) (l : chars) : list chars :=
  match l with
  | [] => [[]]
  | x :: l =>
      if Ascii.eqb x c then [] :: split_on c l
      else match split_on c l with w :: ws => (x :: w) :: ws | [] => [[x]] end
  end.

Definition replace_byte (a b : ascii) (l : chars) : chars := (λ c, if Ascii.eqb c a then b else c) <$> l.

Definition all_digits (l : chars) : bool := match l with [] => false | _ => forallb (in_range 48 57) l end.

(** ** Numbers *)

(** [strconv.ParseInt(s, 10, 64)] and [strconv.Atoi]: an optional sign, digits, and the
    range of an int64. *)
Definition ParseInt (l : chars) : option Z :=
  let '(neg, l) := match l with
                   | c :: l' => if code c =? 45 then (true, l') else if code c =? 43 then (false, l') else (false, l)
                   | [] => (false, l)
                   end in
  match parse_uint l with
  | Some v => if neg : bool then if 2 ^ 63 <? v then None else Some (- v) else if 2 ^ 63 <=? v then None else Some v
  | None => None
  end.

(** [strconv.ParseUint(s, 16, 64)]. *)
Definition hex_step (acc : option Z) (c : ascii) : option Z :=
  match acc, hex_value c with
  | Some v, Some d => if v * 16 + d <? 2 ^ 64 then Some (v * 16 + d) else None
  | _, _ => None
  end.
Definition ParseHex (l : chars) : option Z := match l with [] => None | _ => fold_left hex_step l (Some 0) end.

(** ** Paths *)

Definition slash : ascii := "/"%char.

(** One element of [path.Clean]; the elements kept so far are on a stack. *)
Definition clean_step (rooted : bool) (st : list chars) (w : chars) : list chars :=
  if bool_decide (w = [] ∨ w = to_chars ".") then st
  else if bool_decide (w = to_chars "..") then
    match st with
    | top :: st' => if bool_decide (top = to_chars "..") then w :: st else st'
    | [] => if rooted then [] else [w]
    end
  else w :: st.

Definition path_Clean (l : chars) : chars :=
  let rooted := match l with c :: _ => Ascii.eqb c slash | [] => false end in
  let body := join [slash] (rev (fold_left (clean_step rooted) (split_on slash l) [])) in
  if rooted then slash :: body else match body with [] => to_chars "." | _ => body end.

(** [path.Join] of two elements that are not empty. *)
Definition path_Join (a b : chars) : chars := path_Clean (a ++ slash :: b).

(** ** [sort.SliceStable] *)

Section sort.
Context {A : Type} (key : A → Z).

Fixpoint insert_stable (x : A) (l : list A) : list A :=
  match l with
  | [] => [x]
  | y :: l' => if key x <=? key y then x :: l else y :: insert_stable x l'
  end.

Fixpoint sort_stable (l : list A) : list A :=
  match l with [] => [] | x :: l => insert_stable x (sort_stable l) end.

Lemma insert_stable_perm x l : insert_stable x l ≡ₚ x :: l.
Proof.
  induction l as [|y l IH]; simpl; [done|]. destruct (_ <=? _); [done|]. rewrite IH. apply Permutation_swap.
Qed.

Lemma sort_stable_perm l : sort_stable l ≡ₚ l.
Proof. induction l as [|x l IH]; simpl; [done|]. by rewrite insert_stable_perm, IH. Qed.
End sort.

(** ** Facts *)

Lemma all_digits_parse l v : parse_below (2 ^ 32) l = Some v → 0 <= v < 2 ^ 32.
Proof.
  unfold parse_below. destruct (parse_uint l) as [w|] eqn:E; [|done]. destruct (Z.ltb_spec w (2 ^ 32)); [|done].
  intros [= <-]. unfold parse_uint, ParseUint in E. destruct (String.eqb _ _); [done|].
  apply fold_parse_inv in E as (x & Hx & -> & _); [|done]. lia.
Qed.

Example clean_sample : of_chars (path_Join (to_chars "/var/log") (to_chars "../../etc/./passwd")) = "/etc/passwd".
Proof. vm_compute. reflexivity. Qed.
Example parse_int_sample : ParseInt (to_chars "-13") = Some (-13) ∧ ParseInt (to_chars "9223372036854775808") = None ∧ ParseInt (to_chars "+") = None.
Proof. vm_compute. done. Qed.
