(* ===== verification/InternalEvents.v ===== *)
(** * The agent's reports about itself

    [SauronAgent/internal/event/internal.go] and [categories.go]: the events in which
    the agent reports its own losses and failures, in the stream it sends. *)

From S2P Require Import Prelude GoStrings Event.

Definition SeverityInfo : string := "info".
Definition SeverityNotice : string := "notice".
Definition SeverityWarning : string := "warning".
Definition SeverityCritical : string := "critical".

Definition TypeParseFailure : string := "sauron.parse.failure".
Definition TypeQueueOverflow : string := "sauron.queue.overflow".
Definition TypeSpoolFull : string := "sauron.spool.full".
Definition TypeSpoolError : string := "sauron.spool.error".
Definition TypeTransportDisconnect : string := "sauron.transport.disconnected".
Definition TypeTransportConnected : string := "sauron.transport.connected".
Definition TypeAgentStarted : string := "sauron.agent.started".
Definition TypeAgentStopping : string := "sauron.agent.stopping".
Definition TypeAuditKernelLost : string := "sauron.audit.lost".
Definition TypeStreamLost : string := "sauron.stream.lost".
Definition TypeStreamResumed : string := "sauron.stream.resumed".
Definition TypeProtocolViolation : string := "sauron.protocol.violation".

(** [len(typ) > 7 && typ[:7] == "sauron."] *)
Definition IsInternal (typ : string) : bool :=
  (7 <? len typ) && String.eqb (String.substring 0 7 typ) "sauron.".

(** [e.SetField(key, value)] on the mutable event. *)
Definition SetField (key : string) (value : any) (e : Event) : Event :=
  {| Version := Version e; Sequence := Sequence e; Timestamp := Timestamp e; Type_ := Type_ e;
     Severity := Severity e; AuditID := AuditID e; BootID := BootID e; PID := PID e;
     PPID := PPID e; UID := UID e; GID := GID e; AUID := AUID e;
     Executable := Executable e; Command := Command e; CWD := CWD e; Paths := Paths e;
     Result := Result e; RecordTypes := RecordTypes e;
     Fields := Some (<[key := value]> (default ∅ (Fields e))); Raw := Raw e |}.

Definition internalSeverity (typ : string) : string :=
  if bool_decide (typ ∈ [TypeQueueOverflow; TypeSpoolFull; TypeAuditKernelLost; TypeStreamLost]) then SeverityCritical
  else if bool_decide (typ ∈ [TypeParseFailure; TypeSpoolError; TypeTransportDisconnect; TypeProtocolViolation])
  then SeverityWarning
  else if bool_decide (typ ∈ [TypeTransportConnected; TypeAgentStarted; TypeAgentStopping; TypeStreamResumed])
  then SeverityNotice
  else SeverityInfo.

Definition internal_event (now : time) (typ severity : string) : Event :=
  {| Version := SchemaVersion; Sequence := 0; Timestamp := now; Type_ := typ;
     Severity := severity; AuditID := ""; BootID := ""; PID := None; PPID := None;
     UID := None; GID := None; AUID := None; Executable := ""; Command := "";
     CWD := ""; Paths := None; Result := ""; RecordTypes := None;
     Fields := None; Raw := None |}.

(** [NewInternal] at the time [now]; the fields are copied one by one. *)
Definition NewInternal (now : time) (typ severity : string) (fields : gmap string any) : Event :=
  let severity := if String.eqb severity "" then internalSeverity typ else severity in
  map_fold SetField (internal_event now typ severity) fields.

Definition fieldEventsDropped : string := "events_dropped".
Definition fieldFirstMissing : string := "first_missing_sequence".
Definition fieldLastMissing : string := "last_missing_sequence".
Definition fieldRecordsLost : string := "records_lost".
Definition fieldReason : string := "reason".
Definition fieldAttempt : string := "attempt".
Definition fieldPeer : string := "peer".
Definition fieldRaw : string := "raw".
Definition fieldRawTruncated : string := "raw_truncated".
Definition fieldRawOriginalLen : string := "raw_original_bytes".

Definition maxInternalRawBytes : Z := 4096.

Definition loss_fields (dropped firstMissing lastMissing : Z) : gmap string any :=
  {[ fieldEventsDropped := AnyInt dropped; fieldFirstMissing := AnyInt firstMissing;
     fieldLastMissing := AnyInt lastMissing ]}.

Definition NewQueueOverflow (now : time) (dropped firstMissing lastMissing : Z) : Event :=
  NewInternal now TypeQueueOverflow SeverityCritical (loss_fields dropped firstMissing lastMissing).

Definition NewSpoolFull (now : time) (dropped firstMissing lastMissing : Z) : Event :=
  NewInternal now TypeSpoolFull SeverityCritical (loss_fields dropped firstMissing lastMissing).

Definition NewKernelRecordsLost (now : time) (lost : Z) : Event :=
  NewInternal now TypeAuditKernelLost SeverityCritical {[ fieldRecordsLost := AnyInt lost ]}.

Definition NewParseFailure (now : time) (raw reason : string) : Event :=
  let fields : gmap string any := {[ fieldReason := AnyString reason ]} in
  let fields :=
    if maxInternalRawBytes <? len raw
    then <[fieldRawOriginalLen := AnyInt (len raw)]> (<[fieldRawTruncated := AnyBool true]>
           (<[fieldRaw := AnyString (String.substring 0 (Z.to_nat maxInternalRawBytes) raw)]> fields))
    else <[fieldRaw := AnyString raw]> fields in
  NewInternal now TypeParseFailure SeverityWarning fields.

Definition NewTransportDisconnected (now : time) (reason : string) (attempt : Z) : Event :=
  NewInternal now TypeTransportDisconnect SeverityWarning
    {[ fieldReason := AnyString reason; fieldAttempt := AnyInt attempt ]}.

Definition NewTransportConnected (now : time) (peer : string) (attempt : Z) : Event :=
  NewInternal now TypeTransportConnected SeverityNotice
    {[ fieldPeer := AnyString peer; fieldAttempt := AnyInt attempt ]}.

(** ** The reports carry their fields *)

Lemma SetField_fields k v e : Fields (SetField k v e) = Some (<[k := v]> (default ∅ (Fields e))).
Proof. done. Qed.

(** The copy in [NewInternal] is the map it was given; without fields the map stays
    nil.  Nothing else of the event depends on the fields. *)
Lemma NewInternal_fields now typ severity fields :
  let e := NewInternal now typ severity fields in
  default ∅ (Fields e) = fields ∧ (Fields e = None ↔ fields = ∅) ∧ Type_ e = typ ∧ Sequence e = 0 ∧
  Severity e = (if String.eqb severity "" then internalSeverity typ else severity).
Proof.
  unfold NewInternal. cbv zeta. set (sev := if String.eqb severity "" then _ else _).
  revert fields. apply (map_fold_weak_ind (λ e m, default ∅ (Fields e) = m ∧ (Fields e = None ↔ m = ∅) ∧
    Type_ e = typ ∧ Sequence e = 0 ∧ Severity e = sev)); [done|].
  intros k v m e' Hk (H1 & H2 & H3 & H4 & H5). rewrite SetField_fields. simpl. split_and!; try done.
  - by rewrite H1.
  - split; [done|]. intros E. by apply insert_non_empty in E.
Qed.
