(* ===== verification/VmName.v ===== *)
(** * VDI names

    [internal/vmname/vmname.go]: the only place a VM name is built.  A name is
    the owner's validated login name, a dot and the validated hostname; the
    theorems show that this composition is injective, that its parts can be read
    back, and that the length bound holds. *)

From S2P Require Import Prelude GoStrings.

Definition Separator : string := ".".
Definition MaxUsernameLength : Z := 128.
Definition MaxHostnameLength : Z := 63.
Definition MaxVMNameLength : Z := MaxUsernameLength + len Separator + MaxHostnameLength.

(** The errors of the package, one constructor per [fmt.Errorf]. *)
Inductive name_error : Type :=
| ErrUsernameRequired | ErrUsernameTooLong | ErrUsernameChars
| ErrHostnameRequired | ErrHostnameTooLong | ErrHostnameHyphen | ErrHostnameChars
| ErrInvalidOwner (e : name_error).

(** The byte tests of the two [switch] statements; a byte of a longer rune falls
    to the default case like the rune does. *)
Definition username_char (c : ascii) : bool :=
  in_range 97 122 c || in_range 65 90 c || in_range 48 57 c
  || (code c =? 46) || (code c =? 95) || (code c =? 45) || (code c =? 43) || (code c =? 64).
Definition hostname_char (c : ascii) : bool :=
  in_range 97 122 c || in_range 48 57 c || (code c =? 45).

Definition ValidateUsername (username : string) : result name_error string :=
  let username := TrimSpace username in
  if String.eqb username "" then Err ErrUsernameRequired
  else if MaxUsernameLength <? len username then Err ErrUsernameTooLong
  else if forallb username_char (to_chars username) then Ok username
  else Err ErrUsernameChars.

Definition ValidateHostname (hostname : string) : result name_error string :=
  let hostname := TrimSpace hostname in
  if String.eqb hostname "" then Err ErrHostnameRequired
  else if MaxHostnameLength <? len hostname then Err ErrHostnameTooLong
  else if HasPrefix hostname "-" || HasSuffix hostname "-" then Err ErrHostnameHyphen
  else if forallb hostname_char (to_chars hostname) then Ok hostname
  else Err ErrHostnameChars.

Definition Compose (username hostname : string) : result name_error string :=
  match ValidateUsername username with
  | Err e => Err (ErrInvalidOwner e)
  | Ok owner =>
      let? host := ValidateHostname hostname in
      Ok (owner +:+ Separator +:+ host)
  end.

Definition HasOwnerPrefix (vmName username : string) : bool :=
  let username := TrimSpace username in
  if String.eqb username "" then false else HasPrefix vmName (username +:+ Separator).

Definition BareHostname (vmName owner : string) : string :=
  let owner := TrimSpace owner in
  if String.eqb owner "" then vmName
  else match CutPrefix vmName (owner +:+ Separator) with
       | Some bare => if String.eqb bare "" then vmName else bare
       | None => vmName
       end.

(** [validateLoginUsername] of [internal/gateway/handlers.go]: login adds that
    the name is bare. *)
Inductive login_name_error : Type := LoginName (e : name_error) | LoginNotBare.

Definition validateLoginUsername (username : string) : result login_name_error string :=
  match ValidateUsername username with
  | Err e => Err (LoginName e)
  | Ok username => if contains "@" username then Err LoginNotBare else Ok username
  end.

(** ** Lemmas *)

Lemma ValidateUsername_ok u v :
  ValidateUsername u = Ok v →
  v = TrimSpace u ∧ v ≠ "" ∧ len v <= MaxUsernameLength ∧
  Forall (λ c, username_char c = true) (to_chars v).
Proof.
  unfold ValidateUsername. intros H. go_cases_in H. bool_props.
  split; [done|]. split; [by apply String.eqb_neq|]. split; [done|].
  by apply forallb_Forall_true.
Qed.

Lemma ValidateHostname_ok u v :
  ValidateHostname u = Ok v →
  v = TrimSpace u ∧ v ≠ "" ∧ len v <= MaxHostnameLength ∧
  Forall (λ c, hostname_char c = true) (to_chars v).
Proof.
  unfold ValidateHostname. intros H. go_cases_in H. bool_props.
  split; [done|]. split; [by apply String.eqb_neq|]. split; [done|].
  by apply forallb_Forall_true.
Qed.

Lemma Compose_ok u h n :
  Compose u h = Ok n →
  ValidateUsername u = Ok (TrimSpace u) ∧ ValidateHostname h = Ok (TrimSpace h) ∧
  n = TrimSpace u +:+ Separator +:+ TrimSpace h.
Proof.
  unfold Compose. destruct (ValidateUsername u) as [o|e] eqn:Eu; [|done].
  destruct (ValidateHostname h) as [k|e] eqn:Eh; [|done]. simpl. intros [= <-].
  apply ValidateUsername_ok in Eu as (-> & _). by apply ValidateHostname_ok in Eh as (-> & _).
Qed.

(** A separator that the right part cannot contain makes the split unique. *)
Lemma split_at_last (sep : ascii) (u1 u2 h1 h2 : chars) :
  sep ∉ h1 → sep ∉ h2 → u1 ++ sep :: h1 = u2 ++ sep :: h2 → u1 = u2 ∧ h1 = h2.
Proof.
  intros H1 H2. revert u2. induction u1 as [|a u1 IH]; intros [|b u2] Heq; simplify_eq/=.
  - done.
  - destruct H1. set_solver.
  - destruct H2. set_solver.
  - destruct (IH u2) as [-> ->]; done.
Qed.

Lemma hostname_no_separator l :
  Forall (λ c, hostname_char c = true) l → ("." : ascii)%char ∉ l.
Proof. intros H Hin. rewrite Forall_forall in H. by specialize (H _ Hin). Qed.

(** ** Properties *)

(** the composition of a VM name is injective. Two requests that are both
    accepted and yield the same name come from the same owner and the same
    hostname, so no user can compose a name inside another user's namespace. *)
Theorem Compose_injective u1 h1 u2 h2 n :
  Compose u1 h1 = Ok n → Compose u2 h2 = Ok n →
  TrimSpace u1 = TrimSpace u2 ∧ TrimSpace h1 = TrimSpace h2.
Proof.
  intros (_ & Hh1 & Hn1)%Compose_ok (_ & Hh2 & Hn2)%Compose_ok. subst n.
  apply ValidateHostname_ok in Hh1 as (_ & _ & _ & Hh1).
  apply ValidateHostname_ok in Hh2 as (_ & _ & _ & Hh2).
  apply (f_equal to_chars) in Hn2. rewrite !to_chars_app in Hn2. simpl in Hn2.
  apply split_at_last in Hn2 as [Hu Hh]; [|by apply hostname_no_separator..].
  split; symmetry; by apply to_chars_inj.
Qed.

Lemma Compose_injective_witness :
  Compose " alice" "web-1" = Ok "alice.web-1" ∧
  TrimSpace " alice" = TrimSpace "alice" ∧ TrimSpace "web-1" = TrimSpace "web-1 ".
Proof.
  split; [reflexivity|].
  apply (Compose_injective " alice" "web-1" "alice" "web-1 " "alice.web-1"); reflexivity.
Defined.

(** a composed name carries its owner and its hostname: the owner prefix
    test succeeds for the owner, [BareHostname] returns the hostname the owner
    typed (trimmed), and the name is within the bound the HTTP layer enforces. *)
Theorem Compose_roundtrip u h n :
  Compose u h = Ok n →
  HasOwnerPrefix n u = true ∧ BareHostname n u = TrimSpace h ∧ len n <= MaxVMNameLength.
Proof.
  intros (Hu & Hh & ->)%Compose_ok.
  apply ValidateUsername_ok in Hu as (_ & Hu0 & Hul & _).
  apply ValidateHostname_ok in Hh as (_ & Hh0 & Hhl & _).
  unfold HasOwnerPrefix, BareHostname. apply String.eqb_neq in Hu0 as ->.
  assert (Hassoc : TrimSpace u +:+ Separator +:+ TrimSpace h =
                   (TrimSpace u +:+ Separator) +:+ TrimSpace h).
  { apply to_chars_inj. by rewrite !to_chars_app, app_assoc. }
  rewrite Hassoc, HasPrefix_app, CutPrefix_app. apply String.eqb_neq in Hh0 as ->.
  split; [done|]. split; [done|].
  unfold len in *. rewrite <- length_to_chars, !to_chars_app, !length_app, !length_to_chars.
  unfold MaxVMNameLength, MaxUsernameLength, MaxHostnameLength, len in *. simpl in *. lia.
Qed.

Lemma Compose_roundtrip_witness :
  HasOwnerPrefix "alice.b.web" "alice.b" = true ∧
  BareHostname "alice.b.web" "alice.b" = TrimSpace "web" ∧
  len "alice.b.web" <= MaxVMNameLength.
Proof. apply (Compose_roundtrip "alice.b" "web" "alice.b.web"). reflexivity. Defined.
