(* ===== verification/ClientIP.v ===== *)
(** * Canonical client addresses

    [CanonicalClientIP] of [internal/session/session.go], over the operations it
    uses of [net] and [net/netip].  The class states the documented behaviour of
    those operations that the gateway relies on; [dotted] is an instance on
    dotted addresses, so that examples compute. *)

From S2P Require Import Prelude GoStrings.

Class NetIP : Type := {
  Addr : Type;
  ParseAddrPort : string → option Addr;   (** the address of an ["addr:port"] *)
  SplitHostPort : string → option string; (** the host of a ["host:port"] *)
  ParseAddr : string → option Addr;
  Unmap : Addr → Addr;                    (** strips the IPv4-in-IPv6 prefix *)
  AddrString : Addr → string
}.

(** Printing an address and parsing it gives it back; a printed address has no
    port, no surrounding white space and is not empty. *)
Class NetIPLaws (N : NetIP) : Prop := {
  ParseAddr_String a : ParseAddr (AddrString a) = Some a;
  ParseAddrPort_String a : ParseAddrPort (AddrString a) = None;
  SplitHostPort_String a : SplitHostPort (AddrString a) = None;
  Unmap_Unmap a : Unmap (Unmap a) = Unmap a;
  TrimSpace_String a : TrimSpace (AddrString a) = AddrString a;
  AddrString_nonempty a : AddrString a ≠ ""
}.

Section canonical.
Context `{N : NetIP}.

Definition CanonicalClientIP (remoteAddr : string) : option string :=
  let remoteAddr := TrimSpace remoteAddr in
  if String.eqb remoteAddr "" then None
  else match ParseAddrPort remoteAddr with
       | Some a => Some (AddrString (Unmap a))
       | None =>
           let remoteAddr :=
             match SplitHostPort remoteAddr with Some host => host | None => remoteAddr end in
           match ParseAddr remoteAddr with
           | None => None
           | Some a => Some (AddrString (Unmap a))
           end
       end.

Context `{L : !NetIPLaws N}.

Lemma canonical_is_printed s ip :
  CanonicalClientIP s = Some ip → ∃ a, ip = AddrString (Unmap a).
Proof. unfold CanonicalClientIP. intros H. go_cases_in H; eauto. Qed.

Lemma canonical_printed a :
  CanonicalClientIP (AddrString (Unmap a)) = Some (AddrString (Unmap a)).
Proof.
  unfold CanonicalClientIP.
  rewrite TrimSpace_String, ParseAddrPort_String, SplitHostPort_String, ParseAddr_String, Unmap_Unmap.
  by rewrite (proj2 (String.eqb_neq _ _) (AddrString_nonempty _)).
Qed.

(** Canonicalizing twice is canonicalizing once. *)
Lemma canonical_idempotent s ip :
  CanonicalClientIP s = Some ip → CanonicalClientIP ip = Some ip.
Proof. intros [a ->]%canonical_is_printed. apply canonical_printed. Qed.
End canonical.

(** ** An instance on dotted addresses *)

Definition dotted_char (c : ascii) : bool := in_range 48 57 c || (code c =? 46).
Definition dotted_ok (s : string) : bool :=
  negb (String.eqb s "") && forallb dotted_char (to_chars s).

Fixpoint before_colon (l : chars) : option chars :=
  match l with
  | [] => None
  | c :: l => if code c =? 58 then Some [] else (λ r, c :: r) <$> before_colon l
  end.

Definition dotted_parse (s : string) : option { s | dotted_ok s = true } :=
  match decide (dotted_ok s = true) with left H => Some (exist _ s H) | right _ => None end.

#[export] Instance dotted : NetIP := {|
  Addr := { s | dotted_ok s = true };
  ParseAddrPort s := before_colon (to_chars s) ≫= λ h, dotted_parse (of_chars h);
  SplitHostPort s := of_chars <$> before_colon (to_chars s);
  ParseAddr := dotted_parse;
  Unmap a := a;
  AddrString a := proj1_sig a
|}.

Lemma dotted_no_colon l : forallb dotted_char l = true → before_colon l = None.
Proof.
  induction l as [|c l IH]; simpl; [done|]. intros [Hc Hl]%andb_true_iff.
  destruct (Z.eqb_spec (code c) 58) as [E|]; [|by rewrite IH].
  unfold dotted_char, in_range in Hc. rewrite E in Hc. done.
Qed.

#[export] Instance dotted_laws : NetIPLaws dotted.
Proof.
  split; intros [s Hs]; simpl; try done; pose proof Hs as Hs';
    apply andb_true_iff in Hs' as [H0 H1].
  - unfold dotted_parse. destruct (decide _) as [H|]; [|done].
    do 2 f_equal. apply (proof_irrel H Hs).
  - by rewrite dotted_no_colon.
  - by rewrite dotted_no_colon.
  - apply TrimSpace_solid. apply forallb_Forall_true in H1.
    eapply Forall_impl; [exact H1|]. unfold dotted_char, solid, in_range. lia.
  - apply negb_true_iff, String.eqb_neq in H0. done.
Qed.

Example canonical_example : CanonicalClientIP " 10.0.0.7:5123" = Some "10.0.0.7".
Proof. reflexivity. Qed.
