(* ===== verification/RateLimit.v ===== *)
(** * The login rate limiter

    [internal/gateway/ratelimit.go]: failed logins are counted per (user, client
    IP) pair and per client IP in sliding windows; a bucket that reaches its
    limit locks for a while.  The clock reading [l.now()] is an argument of each
    operation.  [strings.ToLower] is a parameter.

    The main theorem bounds how many failures the limiter ever counts: more than
    [maxAttempts] of them never fall into an interval shorter than both the
    window and the lockout. *)

From S2P Require Import Prelude GoStrings VmName ClientIP.

Definition loginRateLimitCleanupInterval : duration := Minute.

Record loginAttemptBucket : Type := mkBucket { failures : list time; lockedUntil : time }.

Record loginRateLimiter : Type := mkLimiter {
  maxAttempts : Z;
  maxIPAttempts : Z;
  window : duration;
  lockout : duration;
  attempts : gmap string loginAttemptBucket;
  nextCleanup : time
}.

(** The settings [newLoginRateLimiter] reads; nil settings are [None]. *)
Record limit_settings : Type := mkLimits {
  LOGIN_RATE_LIMIT_MAX_ATTEMPTS : Z;
  LOGIN_RATE_LIMIT_IP_MAX_ATTEMPTS : Z;
  LOGIN_RATE_LIMIT_WINDOW : duration;
  LOGIN_RATE_LIMIT_LOCKOUT : duration
}.

Definition newLoginRateLimiter (settings : option limit_settings) : loginRateLimiter :=
  match settings with
  | None => mkLimiter 0 0 0 0 ∅ zero_time
  | Some c => mkLimiter (LOGIN_RATE_LIMIT_MAX_ATTEMPTS c) (LOGIN_RATE_LIMIT_IP_MAX_ATTEMPTS c)
                (LOGIN_RATE_LIMIT_WINDOW c) (LOGIN_RATE_LIMIT_LOCKOUT c) ∅ zero_time
  end.

(** The receiver may be nil. *)
Definition enabled (l : option loginRateLimiter) : bool :=
  match l with
  | None => false
  | Some l => (0 <? maxAttempts l) && (0 <? window l) && (0 <? lockout l)
  end.

Definition set_attempts (a : gmap string loginAttemptBucket) (l : loginRateLimiter) :=
  mkLimiter (maxAttempts l) (maxIPAttempts l) (window l) (lockout l) a (nextCleanup l).

Definition empty_bucket : loginAttemptBucket := mkBucket [] zero_time.

(** [l.attempts[key]] as [bucketForKey] reads it: a fresh bucket when absent. *)
Definition bucketForKey (a : gmap string loginAttemptBucket) (key : string) : loginAttemptBucket :=
  default empty_bucket (a !! key).

Definition pruneBucket (win : duration) (b : loginAttemptBucket) (now : time) : loginAttemptBucket :=
  if negb (IsZero (lockedUntil b)) && negb (Before now (lockedUntil b))
  then mkBucket [] zero_time
  else mkBucket (filter (λ f, Before f (now - win) = false) (failures b)) (lockedUntil b).

Definition bucket_idle (b : loginAttemptBucket) : bool :=
  match failures b with [] => IsZero (lockedUntil b) | _ => false end.

Definition cleanupExpired (l : loginRateLimiter) (now : time) : loginRateLimiter :=
  if negb (IsZero (nextCleanup l)) && Before now (nextCleanup l) then l
  else mkLimiter (maxAttempts l) (maxIPAttempts l) (window l) (lockout l)
         (filter (λ '(_, b), bucket_idle b = false)
            ((λ b, pruneBucket (window l) b now) <$> attempts l))
         (now + loginRateLimitCleanupInterval).

Definition bucketRetryAfter (b : loginAttemptBucket) (now : time) : duration :=
  if IsZero (lockedUntil b) || negb (Before now (lockedUntil b)) then 0
  else Sub (lockedUntil b) now.

Record loginRateLimitRule : Type := mkRule { key : string; limit : Z }.

Section limiter.
Context `{N : NetIP} (ToLower : string → string).

Definition maxLoginUsernameLength : Z := MaxUsernameLength.

Definition loginRateLimitClientIP (remoteAddr : string) : string :=
  match CanonicalClientIP remoteAddr with
  | Some ip => ip
  | None => let remoteAddr := TrimSpace remoteAddr in
            if String.eqb remoteAddr "" then "unknown" else remoteAddr
  end.

Definition loginRateLimitUsername (username : string) : string :=
  let username := ToLower (TrimSpace username) in
  if String.eqb username "" || (maxLoginUsernameLength <? len username) then ""
  else username.

Definition loginRateLimitPairKeyForNormalizedUser (username clientIP : string) : string :=
  "pair:" +:+ clientIP +:+ ":user:" +:+ username.

Definition loginRateLimitPairKey (username remoteAddr : string) : string :=
  let userKey := loginRateLimitUsername username in
  if String.eqb userKey "" then ""
  else loginRateLimitPairKeyForNormalizedUser userKey (loginRateLimitClientIP remoteAddr).

Definition rules (l : loginRateLimiter) (username remoteAddr : string) : list loginRateLimitRule :=
  let clientIP := loginRateLimitClientIP remoteAddr in
  let userKey := loginRateLimitUsername username in
  (if String.eqb userKey "" then []
   else [mkRule (loginRateLimitPairKeyForNormalizedUser userKey clientIP) (maxAttempts l)]) ++
  (if 0 <? maxIPAttempts l then [mkRule ("ip:" +:+ clientIP) (maxIPAttempts l)] else []).

(** The loop of [RetryAfter]: absent buckets are skipped, present ones pruned. *)
Definition retry_step (win : duration) (now : time)
    (st : gmap string loginAttemptBucket * duration) (r : loginRateLimitRule) :=
  let '(a, retryAfter) := st in
  match a !! key r with
  | None => (a, retryAfter)
  | Some b =>
      let b := pruneBucket win b now in
      let retry := bucketRetryAfter b now in
      (<[key r := b]> a, if retryAfter <? retry then retry else retryAfter)
  end.

Definition RetryAfter (l : loginRateLimiter) (username remoteAddr : string) (now : time) :
    loginRateLimiter * (duration * bool) :=
  if negb (enabled (Some l)) then (l, (0, false))
  else
    let l := cleanupExpired l now in
    let '(a, retryAfter) :=
      foldl (retry_step (window l) now) (attempts l, 0) (rules l username remoteAddr) in
    (set_attempts a l, (retryAfter, 0 <? retryAfter)).

(** The two loops of [RecordFailure]. *)
Definition prune_step (win : duration) (now : time)
    (st : gmap string loginAttemptBucket * duration) (r : loginRateLimitRule) :=
  let '(a, retryAfter) := st in
  let b := pruneBucket win (bucketForKey a (key r)) now in
  let retry := bucketRetryAfter b now in
  (<[key r := b]> a, if retryAfter <? retry then retry else retryAfter).

Definition count_step (lock : duration) (now : time)
    (st : gmap string loginAttemptBucket * duration) (r : loginRateLimitRule) :=
  let '(a, retryAfter) := st in
  let b := bucketForKey a (key r) in
  let fs := failures b ++ [now] in
  if limit r <=? Z.of_nat (length fs)
  then (<[key r := mkBucket [] (now + lock)]> a, if retryAfter <? lock then lock else retryAfter)
  else (<[key r := mkBucket fs (lockedUntil b)]> a, retryAfter).

Definition RecordFailure (l : loginRateLimiter) (username remoteAddr : string) (now : time) :
    loginRateLimiter * duration :=
  if negb (enabled (Some l)) then (l, 0)
  else
    let l := cleanupExpired l now in
    let rs := rules l username remoteAddr in
    let '(a, retryAfter) := foldl (prune_step (window l) now) (attempts l, 0) rs in
    if 0 <? retryAfter then (set_attempts a l, retryAfter)
    else let '(a, retryAfter) := foldl (count_step (lockout l) now) (a, 0) rs in
         (set_attempts a l, retryAfter).

Definition RecordSuccess (l : loginRateLimiter) (username remoteAddr : string) : loginRateLimiter :=
  if negb (enabled (Some l)) then l
  else let k := loginRateLimitPairKey username remoteAddr in
       if String.eqb k "" then l else set_attempts (delete k (attempts l)) l.

(** [loginRetryAfterSeconds]: the number printed in the Retry-After header. *)
Definition loginRetryAfterSeconds (retryAfter : duration) : Z :=
  let seconds := Z.quot (retryAfter + Second - 1) Second in
  if seconds <? 1 then 1 else seconds.
End limiter.

(** ** How many failures are ever counted

    The ghost log of a key holds the times at which a failure was counted in its
    bucket, newest first; a successful login of a pair resets its log. *)

(** The times in [log] less than [m] before [t]. *)
Definition near (m : duration) (t : time) (log : list time) : list time :=
  filter (λ x, t - x < m) log.

(** Every counted failure is at most the [lim]-th one within [m]. *)
Fixpoint spaced (lim : Z) (m : duration) (log : list time) : Prop :=
  match log with
  | [] => True
  | y :: older => Z.of_nat (length (near m y (y :: older))) <= lim ∧ spaced lim m older
  end.

(** The limit that applies to a key. *)
Definition limit_of (l : loginRateLimiter) (k : string) : Z :=
  if HasPrefix k "ip:" then maxIPAttempts l else maxAttempts l.

Definition log_at (logs : gmap string (list time)) (k : string) : list time :=
  default [] (logs !! k).

Inductive login_op : Type :=
| Check_ (username remoteAddr : string)
| Fail_ (username remoteAddr : string)
| Success_ (username remoteAddr : string).

Section runs.
Context `{N : NetIP} (ToLower : string → string).

(** The keys a [RecordFailure] at [now] counts a failure for. *)
Definition counted_keys (l : loginRateLimiter) (username remoteAddr : string) (now : time) :=
  let l := cleanupExpired l now in
  let rs := rules ToLower l username remoteAddr in
  if 0 <? snd (foldl (prune_step (window l) now) (attempts l, 0) rs) then [] else key <$> rs.

Definition count_logs (now : time) (logs : gmap string (list time)) (ks : list string) :=
  foldl (λ logs k, <[k := now :: log_at logs k]> logs) logs ks.

Definition do_login (st : loginRateLimiter * gmap string (list time)) (e : time * login_op) :=
  let '(l, logs) := st in
  let '(now, o) := e in
  match o with
  | Check_ u r => (fst (RetryAfter ToLower l u r now), logs)
  | Fail_ u r => (fst (RecordFailure ToLower l u r now),
                  count_logs now logs (counted_keys l u r now))
  | Success_ u r => (RecordSuccess ToLower l u r,
                     let k := loginRateLimitPairKey ToLower u r in
                     if String.eqb k "" then logs else delete k logs)
  end.

Definition run_logins (c : limit_settings) (es : list (time * login_op)) :=
  foldl do_login (newLoginRateLimiter (Some c), ∅) es.
End runs.

(** ** One bucket *)

Section bucket.
Context (lim : Z) (win lock : duration).
#[local] Abbreviation m := (Z.min win lock).

(** What a bucket says of its log at time [t]. *)
Definition bucket_inv (b : loginAttemptBucket) (log : list time) (t : time) : Prop :=
  Forall (λ x, x <= t) log ∧ spaced lim m log ∧
  ((lockedUntil b = zero_time ∧ near m t log ⊆+ failures b ∧
    Z.of_nat (length (failures b)) < lim) ∨
   (lockedUntil b ≠ zero_time ∧ failures b = [] ∧
    Forall (λ x, x + lock <= lockedUntil b) log)).

Lemma near_later t now log : t <= now → near m now log ⊆+ near m t log.
Proof. intros Ht. apply filter_impl_submseteq. lia. Qed.

Lemma near_none now log : Forall (λ x, x + lock <= now) log → near m now log = [].
Proof.
  induction 1 as [|x log Hx _ IH]; [done|]. unfold near in *.
  rewrite filter_cons_False; [done|lia].
Qed.

Lemma bucket_inv_later b log t now :
  t <= now → bucket_inv b log t → bucket_inv b log now.
Proof.
  intros Ht (Hle & Hsp & H). split; [|split; [done|]].
  - eapply Forall_impl; [done|]. simpl. lia.
  - destruct H as [(H0 & Hn & Hl)|H]; [left|by right]. split; [done|]. split; [|done].
    transitivity (near m t log); [by apply near_later|done].
Qed.

Lemma bucket_inv_prune b log now :
  0 < lim → bucket_inv b log now → bucket_inv (pruneBucket win b now) log now.
Proof.
  intros Hlim (Hle & Hsp & H). unfold pruneBucket, IsZero, Before. split; [done|]. split; [done|].
  destruct H as [(H0 & Hn & Hl)|(H0 & Hf & Hlog)].
  - rewrite H0. simpl. left. split; [done|]. split.
    + transitivity (near m now (near m now log)).
      * unfold near. rewrite list_filter_filter. apply filter_impl_submseteq. lia.
      * unfold near. apply filter_submseteq; [|done]. intros x ?. apply Z.ltb_ge. lia.
    + eapply Z.le_lt_trans; [|done]. apply inj_le, length_filter.
  - destruct (Z.eqb_spec (lockedUntil b) zero_time); [done|]. simpl.
    destruct (Z.ltb_spec now (lockedUntil b)); simpl.
    + right. rewrite Hf. done.
    + left. split; [done|]. split; [|simpl; lia]. rewrite near_none; [done|].
      eapply Forall_impl; [done|]. simpl. lia.
Qed.

(** Counting a failure in an unlocked bucket. *)
Lemma bucket_inv_count b log now :
  0 < lim → 0 < win → 0 < lock → 0 < now → lockedUntil b = zero_time → bucket_inv b log now →
  bucket_inv
    (if lim <=? Z.of_nat (length (failures b ++ [now]))
     then mkBucket [] (now + lock) else mkBucket (failures b ++ [now]) (lockedUntil b))
    (now :: log) now.
Proof.
  intros Hlim Hwin Hlock Hnow H0 (Hle & Hsp & H).
  destruct H as [(_ & Hn & Hl)|(? & _)]; [|done].
  assert (Hself : near m now (now :: log) = now :: near m now log)
    by (unfold near; rewrite filter_cons_True; [done|lia]).
  split; [constructor; [lia|done]|]. split.
  - cbn [spaced]. split; [|done]. rewrite Hself. simpl. apply submseteq_length in Hn. lia.
  - destruct (Z.leb_spec lim (Z.of_nat (length (failures b ++ [now])))); simpl.
    + right. split; [unfold zero_time; lia|]. split; [done|].
      constructor; [lia|]. eapply Forall_impl; [done|]. simpl. lia.
    + left. split; [done|]. split; [|done]. rewrite Hself.
      rewrite Permutation_app_comm. simpl. by constructor.
Qed.

Lemma bucket_inv_reset t : 0 < lim → bucket_inv empty_bucket [] t.
Proof. intros. split; [constructor|]. split; [done|]. left. simpl. by repeat split. Qed.
End bucket.

(** ** All buckets *)

Section invariant.
Context `{N : NetIP} (ToLower : string → string) (c : limit_settings).
#[local] Abbreviation win := (LOGIN_RATE_LIMIT_WINDOW c).
#[local] Abbreviation lock := (LOGIN_RATE_LIMIT_LOCKOUT c).

(** The limiter keeps the configuration it was built with. *)
Definition configured (l : loginRateLimiter) : Prop :=
  maxAttempts l = LOGIN_RATE_LIMIT_MAX_ATTEMPTS c ∧
  maxIPAttempts l = LOGIN_RATE_LIMIT_IP_MAX_ATTEMPTS c ∧
  window l = win ∧ lockout l = lock.

Definition lim_of (k : string) : Z := limit_of (newLoginRateLimiter (Some c)) k.

Definition buckets_inv (a : gmap string loginAttemptBucket) (logs : gmap string (list time)) (t : time) :=
  ∀ k, 0 < lim_of k → bucket_inv (lim_of k) win lock (bucketForKey a k) (log_at logs k) t.

Definition limiter_inv (st : loginRateLimiter * gmap string (list time)) (t : time) : Prop :=
  configured (fst st) ∧ buckets_inv (attempts (fst st)) (snd st) t.

Lemma bucketForKey_insert a k b k' :
  bucketForKey (<[k := b]> a) k' = if decide (k = k') then b else bucketForKey a k'.
Proof. unfold bucketForKey. rewrite lookup_insert. by case_decide. Qed.

Lemma bucketForKey_delete a k k' :
  bucketForKey (delete k a) k' = if decide (k = k') then empty_bucket else bucketForKey a k'.
Proof. unfold bucketForKey. rewrite lookup_delete. by case_decide. Qed.

Lemma log_at_insert logs k v k' :
  log_at (<[k := v]> logs) k' = if decide (k = k') then v else log_at logs k'.
Proof. unfold log_at. rewrite lookup_insert. by case_decide. Qed.

Lemma log_at_delete logs k k' :
  log_at (delete k logs) k' = if decide (k = k') then [] else log_at logs k'.
Proof. unfold log_at. rewrite lookup_delete. by case_decide. Qed.

Lemma prune_empty w now : pruneBucket w empty_bucket now = empty_bucket.
Proof. done. Qed.

Lemma bucket_idle_empty b : bucket_idle b = true → b = empty_bucket.
Proof.
  destruct b as [[|f fs] u]; unfold bucket_idle, IsZero; simpl; [|done].
  by intros ->%Z.eqb_eq.
Qed.

(** Clean-up is invisible: a bucket read after it is the bucket, pruned or not. *)
Lemma cleanup_bucket l now k :
  bucketForKey (attempts (cleanupExpired l now)) k = bucketForKey (attempts l) k ∨
  bucketForKey (attempts (cleanupExpired l now)) k =
    pruneBucket (window l) (bucketForKey (attempts l) k) now.
Proof.
  unfold cleanupExpired. go_case; [by left|]. right. simpl.
  unfold bucketForKey. rewrite map_lookup_filter, lookup_fmap.
  destruct (attempts l !! k) as [b|]; simpl; [|done].
  case_guard as Hg; simpl; [done|].
  apply not_false_iff_true in Hg. by rewrite (bucket_idle_empty _ Hg).
Qed.

Lemma cleanup_configured l now : configured l → configured (cleanupExpired l now).
Proof. unfold cleanupExpired. by go_case. Qed.

Lemma buckets_inv_cleanup l logs t now :
  configured l → t <= now → buckets_inv (attempts l) logs t →
  buckets_inv (attempts (cleanupExpired l now)) logs now.
Proof.
  intros (_ & _ & Hw & _) Ht H k Hk. specialize (H k Hk).
  apply (bucket_inv_later _ _ _ _ _ _ now) in H; [|done].
  destruct (cleanup_bucket l now k) as [->| ->]; [done|].
  rewrite Hw. by apply bucket_inv_prune.
Qed.

(** Pruning the buckets of a list of rules. *)
Lemma buckets_inv_prune_step a logs now b k :
  buckets_inv a logs now → b = pruneBucket win (bucketForKey a k) now →
  buckets_inv (<[k := b]> a) logs now.
Proof.
  intros H -> k' Hk'. rewrite bucketForKey_insert. specialize (H k' Hk').
  destruct (decide (k = k')) as [->|]; [|done]. by apply bucket_inv_prune.
Qed.

Lemma buckets_inv_retry a ra logs now rs :
  buckets_inv a logs now →
  buckets_inv (fst (foldl (retry_step win now) (a, ra) rs)) logs now.
Proof.
  revert a ra. induction rs as [|r rs IH]; intros a ra H; simpl; [done|].
  destruct (a !! key r) as [b|] eqn:E; apply IH; [|done].
  eapply buckets_inv_prune_step; [done|]. unfold bucketForKey. by rewrite E.
Qed.

Lemma buckets_inv_prune a ra logs now rs :
  buckets_inv a logs now →
  buckets_inv (fst (foldl (prune_step win now) (a, ra) rs)) logs now.
Proof.
  revert a ra. induction rs as [|r rs IH]; intros a ra H; simpl; [done|].
  apply IH. by eapply buckets_inv_prune_step.
Qed.

(** The loop's maximum never falls. *)
Lemma prune_retry_mono a ra now rs :
  ra <= snd (foldl (prune_step win now) (a, ra) rs).
Proof.
  revert a ra. induction rs as [|r rs IH]; intros a ra; cbn [foldl prune_step]; [simpl; lia|].
  etransitivity; [|apply IH]. destruct (Z.ltb_spec ra
    (bucketRetryAfter (pruneBucket win (bucketForKey a (key r)) now) now)); lia.
Qed.

(** A pruned bucket with no retry delay is not locked. *)
Lemma pruned_unlocked b now :
  bucketRetryAfter (pruneBucket win b now) now <= 0 →
  lockedUntil (pruneBucket win b now) = zero_time.
Proof.
  unfold bucketRetryAfter, pruneBucket, IsZero, Before, Sub, max_int64, min_int64.
  destruct (Z.eqb_spec (lockedUntil b) zero_time) as [E|E]; simpl; [done|].
  destruct (Z.ltb_spec now (lockedUntil b)); simpl; [|done].
  destruct (Z.eqb_spec (lockedUntil b) zero_time); [done|]. simpl.
  destruct (Z.ltb_spec now (lockedUntil b)); simpl; lia.
Qed.

(** When the first loop finds no lockout, every bucket of a rule is unlocked. *)
Lemma prune_unlocked a ra now rs :
  NoDup (key <$> rs) → 0 <= ra →
  snd (foldl (prune_step win now) (a, ra) rs) <= 0 →
  (∀ k, k ∈ key <$> rs →
    lockedUntil (bucketForKey (fst (foldl (prune_step win now) (a, ra) rs)) k) = zero_time) ∧
  (∀ k, k ∉ key <$> rs →
    bucketForKey (fst (foldl (prune_step win now) (a, ra) rs)) k = bucketForKey a k).
Proof.
  revert a ra. induction rs as [|r rs IH]; intros a ra Hnd Hra Hz; simpl in *; [set_solver|].
  apply NoDup_cons in Hnd as [Hr Hnd].
  set (b := pruneBucket win (bucketForKey a (key r)) now) in *.
  set (ra' := if ra <? bucketRetryAfter b now then _ else _) in *.
  assert (Hra' : ra <= ra' ∧ bucketRetryAfter b now <= ra')
    by (subst ra'; destruct (Z.ltb_spec ra (bucketRetryAfter b now)); lia).
  pose proof (prune_retry_mono (<[key r := b]> a) ra' now rs).
  destruct (IH (<[key r := b]> a) ra') as [IH1 IH2]; [done|lia|done|]. split.
  - intros k [->|Hk]%elem_of_cons; [|by apply IH1].
    rewrite IH2, bucketForKey_insert, decide_True by done.
    apply pruned_unlocked. fold b. lia.
  - intros k Hk. rewrite IH2, bucketForKey_insert, decide_False by set_solver. done.
Qed.

(** ** The rules of one attempt *)

Lemma lim_of_pair u ip : lim_of (loginRateLimitPairKeyForNormalizedUser u ip) =
  LOGIN_RATE_LIMIT_MAX_ATTEMPTS c.
Proof. done. Qed.

Lemma lim_of_ip ip : lim_of ("ip:" +:+ ip) = LOGIN_RATE_LIMIT_IP_MAX_ATTEMPTS c.
Proof.
  unfold lim_of, limit_of. change ("ip:" +:+ ip) with (String.append "ip:" ip).
  by rewrite HasPrefix_app.
Qed.

Lemma pair_ip_distinct u ip ip' :
  loginRateLimitPairKeyForNormalizedUser u ip ≠ "ip:" +:+ ip'.
Proof. by intros [=]. Qed.

Lemma rules_ok l u r :
  configured l →
  NoDup (key <$> rules ToLower l u r) ∧
  Forall (λ q, limit q = lim_of (key q)) (rules ToLower l u r).
Proof.
  intros (Hm & Hi & _ & _). unfold rules. rewrite Hm, Hi.
  destruct (String.eqb _ _), (0 <? _); simpl; split;
    repeat first [apply Forall_cons; split | apply Forall_nil | apply NoDup_cons; split | apply NoDup_nil];
    simpl; rewrite ?lim_of_pair, ?lim_of_ip; try done; set_solver by apply pair_ip_distinct.
Qed.

Hypothesis Hmax : 0 < LOGIN_RATE_LIMIT_MAX_ATTEMPTS c.
Hypothesis Hwin : 0 < win.
Hypothesis Hlock : 0 < lock.

Lemma configured_enabled l : configured l → enabled (Some l) = true.
Proof. unfold configured, enabled. intros (-> & _ & -> & ->). lia. Qed.

(** Counting one failure for each of the rules. *)
Lemma buckets_inv_count a ra logs now rs :
  0 < now → NoDup (key <$> rs) →
  Forall (λ r, limit r = lim_of (key r)) rs →
  (∀ k, k ∈ key <$> rs → lockedUntil (bucketForKey a k) = zero_time) →
  buckets_inv a logs now →
  buckets_inv (fst (foldl (count_step lock now) (a, ra) rs))
              (count_logs now logs (key <$> rs)) now.
Proof.
  intros Hnow. revert a ra logs. induction rs as [|r rs IH]; intros a ra logs Hnd Hlim Hun H; simpl; [done|].
  apply NoDup_cons in Hnd as [Hr Hnd]. inversion Hlim as [|?? Hl Hlim']; subst.
  set (fs := failures (bucketForKey a (key r)) ++ [now]).
  set (b := if limit r <=? Z.of_nat (length fs) then mkBucket [] (now + lock)
            else mkBucket fs (lockedUntil (bucketForKey a (key r)))).
  assert (Hstep : ∃ ra', count_step lock now (a, ra) r = (<[key r := b]> a, ra')).
  { unfold count_step. fold fs. subst b. destruct (limit r <=? _); by eexists. }
  destruct Hstep as [ra' Hstep]. unfold count_step in Hstep. fold fs in Hstep. rewrite Hstep.
  apply IH; [done|done|..].
  - intros k Hk. rewrite bucketForKey_insert, decide_False by (by intros <-).
    apply Hun. by right.
  - intros k Hk. rewrite bucketForKey_insert, log_at_insert.
    destruct (decide (key r = k)) as [<-|]; [|by apply H].
    subst b fs. rewrite Hl. apply bucket_inv_count; try done; [|by apply H].
    apply Hun. by left.
Qed.

(** ** Operations keep the invariant *)

Lemma do_login_inv st t now o :
  limiter_inv st t → 0 < now → t <= now →
  limiter_inv (do_login ToLower st (now, o)) now.
Proof.
  destruct st as [l logs]. intros [Hc H] Hnow Ht. simpl in *.
  pose proof (configured_enabled l Hc) as He.
  pose proof (cleanup_configured l now Hc) as Hc'.
  pose proof (buckets_inv_cleanup l logs t now Hc Ht H) as H'.
  pose proof Hc' as (_ & _ & Hw & Hl). set (l' := cleanupExpired l now) in *.
  destruct o as [u r|u r|u r].
  - unfold RetryAfter. rewrite He. simpl. fold l'. rewrite Hw.
    pose proof (buckets_inv_retry (attempts l') 0 logs now (rules ToLower l' u r) H') as HR.
    destruct (foldl _ _ _) as [a ra]. by split.
  - unfold RecordFailure, counted_keys. rewrite He. simpl. fold l'. rewrite Hw, Hl.
    destruct (rules_ok l' u r Hc') as [Hnd Hlim].
    pose proof (buckets_inv_prune (attempts l') 0 logs now (rules ToLower l' u r) H') as HP.
    pose proof (prune_unlocked (attempts l') 0 now (rules ToLower l' u r) Hnd (Z.le_refl 0)) as HU.
    destruct (foldl (prune_step win now) _ _) as [a ra]. simpl in *.
    destruct (Z.ltb_spec 0 ra); [by split|].
    destruct HU as [HU _]; [lia|].
    pose proof (buckets_inv_count a 0 logs now _ Hnow Hnd Hlim HU HP) as HC.
    destruct (foldl (count_step lock now) _ _) as [a' ra']. by split.
  - unfold RecordSuccess. rewrite He. simpl.
    destruct (String.eqb_spec (loginRateLimitPairKey ToLower u r) "") as [E|E].
    all: split; [done|]; intros k Hk; specialize (H k Hk); simpl.
    all: apply (bucket_inv_later _ _ _ _ _ _ now) in H; [|done].
    + done.
    + rewrite log_at_delete, bucketForKey_delete.
      case_decide; [by apply bucket_inv_reset|done].
Qed.

Lemma run_logins_inv st t es :
  limiter_inv st t → Forall (λ e, 0 < fst e) es → Sorted Z.le (t :: (fst <$> es)) →
  ∃ t', limiter_inv (foldl (do_login ToLower) st es) t'.
Proof.
  revert st t. induction es as [|[now o] es IH]; intros st t H Hpos Hs; simpl; [by eexists|].
  inversion Hpos; subst. apply Sorted_inv in Hs as [Hs Hhd]. inversion Hhd; subst.
  eapply IH; [|done|exact Hs]. by eapply do_login_inv.
Qed.
End invariant.

(** ** Properties *)

(** the limiter bounds password guessing. In any sequence of checks, failed
    and successful logins whose clock readings do not go backwards, and for every
    bucket (a user at a client IP, or a client IP), the failures counted for it
    are spaced: any counted failure is at most the maxAttempts-th one counted
    within the shorter of window and lockout. Clean-up of idle buckets, lockouts
    and window expiry are all included; only a successful login of the pair
    resets its own count. *)
Theorem counted_failures_spaced `{N : NetIP} ToLower c es k :
  0 < LOGIN_RATE_LIMIT_MAX_ATTEMPTS c →
  0 < LOGIN_RATE_LIMIT_WINDOW c → 0 < LOGIN_RATE_LIMIT_LOCKOUT c →
  Forall (λ e, 0 < fst e) es → Sorted Z.le (fst <$> es) → 0 < lim_of c k →
  spaced (lim_of c k) (Z.min (LOGIN_RATE_LIMIT_WINDOW c) (LOGIN_RATE_LIMIT_LOCKOUT c))
    (log_at (snd (run_logins ToLower c es)) k).
Proof.
  intros Hm Hw Hl Hpos Hs Hk.
  destruct (run_logins_inv ToLower c Hm Hw Hl (newLoginRateLimiter (Some c), ∅) 0 es)
    as [t' [_ H]].
  - split; [done|]. intros k' Hk'. by apply bucket_inv_reset.
  - done.
  - apply Sorted_cons; [done|]. destruct Hpos; simpl; constructor. lia.
  - by destruct (H k Hk) as (_ & Hsp & _).
Qed.

(** Three attempts allowed in a window of 60 s, locking for 30 s. *)
Definition demo_limits : limit_settings := mkLimits 3 10 (60 * Second) (30 * Second).

Definition demo_logins : list (time * login_op) :=
  [(1 * Second, Fail_ "bob" "10.0.0.7:1"); (2 * Second, Fail_ "bob" "10.0.0.7:2");
   (3 * Second, Fail_ "bob" "10.0.0.7:3"); (4 * Second, Fail_ "bob" "10.0.0.7:4");
   (40 * Second, Fail_ "bob" "10.0.0.7:5")].

Lemma counted_failures_spaced_witness :
  spaced 3 (30 * Second)
    (log_at (snd (run_logins (λ s, s) demo_limits demo_logins)) "pair:10.0.0.7:user:bob") ∧
  log_at (snd (run_logins (λ s, s) demo_limits demo_logins)) "pair:10.0.0.7:user:bob"
    = [40 * Second; 3 * Second; 2 * Second; 1 * Second].
Proof.
  split; [|vm_compute; reflexivity].
  apply (counted_failures_spaced (λ s, s) demo_limits demo_logins "pair:10.0.0.7:user:bob");
    try reflexivity.
  - repeat constructor.
  - repeat constructor; vm_compute; done.
Defined.

(** ** What a client is told

    [retry_reference] recomputes the answer of [RetryAfter] from the buckets of
    the applicable rules alone, with no clean-up and no map update. *)

Definition bucket_delay (win : duration) (a : gmap string loginAttemptBucket) (now : time)
    (k : string) : duration :=
  bucketRetryAfter (pruneBucket win (bucketForKey a k) now) now.

Definition retry_reference (win : duration) (a : gmap string loginAttemptBucket) (now : time)
    (rs : list loginRateLimitRule) : duration :=
  foldr Z.max 0 ((λ r, bucket_delay win a now (key r)) <$> rs).

Lemma retry_nonneg b now : 0 <= bucketRetryAfter b now.
Proof.
  unfold bucketRetryAfter, IsZero, Before, Sub, max_int64, min_int64.
  destruct (_ =? _); simpl; [lia|]. destruct (Z.ltb_spec now (lockedUntil b)); simpl; lia.
Qed.

Lemma retry_until b now :
  0 < bucketRetryAfter b now → now + bucketRetryAfter b now <= lockedUntil b.
Proof.
  unfold bucketRetryAfter, IsZero, Before, Sub, max_int64, min_int64.
  destruct (_ =? _); simpl; [lia|]. destruct (Z.ltb_spec now (lockedUntil b)); simpl; lia.
Qed.

(** Pruning earlier changes nothing of what pruning later leaves. *)
Lemma prune_prune win b t now :
  0 <= win → t <= now → pruneBucket win (pruneBucket win b t) now = pruneBucket win b now.
Proof.
  intros Hw Ht. destruct b as [fs u]. unfold pruneBucket at 2 3, IsZero, Before. simpl.
  destruct (Z.eqb_spec u zero_time) as [E|E], (Z.ltb_spec t u), (Z.ltb_spec now u);
    simpl; try lia; unfold pruneBucket, IsZero, Before; simpl; try done;
    destruct (Z.eqb_spec u zero_time); try done; destruct (Z.ltb_spec now u); simpl; try done; try lia.
  all: f_equal; rewrite list_filter_filter; apply list_filter_iff; intros x; rewrite !Z.ltb_ge; lia.
Qed.

Lemma bucket_delay_cleanup l t now k :
  0 <= window l → t <= now →
  bucket_delay (window l) (attempts (cleanupExpired l t)) now k
    = bucket_delay (window l) (attempts l) now k.
Proof.
  intros Hw Ht. unfold bucket_delay.
  destruct (cleanup_bucket l t k) as [->| ->]; [done|]. by rewrite prune_prune.
Qed.

Lemma bucket_delay_insert_ne win a now k k' b :
  k ≠ k' → bucket_delay win (<[k := b]> a) now k' = bucket_delay win a now k'.
Proof. intros. unfold bucket_delay. by rewrite bucketForKey_insert, decide_False. Qed.

Lemma fmap_delay_insert win a now k b (rs : list loginRateLimitRule) :
  k ∉ key <$> rs →
  (λ r, bucket_delay win (<[k := b]> a) now (key r)) <$> rs
    = (λ r, bucket_delay win a now (key r)) <$> rs.
Proof.
  intros Hk. apply list_fmap_ext. intros i r Hr. apply bucket_delay_insert_ne.
  intros ->. apply Hk. apply list_elem_of_fmap. exists r. split; [done|].
  apply list_elem_of_lookup. eauto.
Qed.

Lemma retry_reference_nonneg win a now rs : 0 <= retry_reference win a now rs.
Proof. unfold retry_reference. generalize ((λ r, bucket_delay win a now (key r)) <$> rs).
  intros l. induction l; simpl; lia. Qed.

Lemma retry_foldl win now (rs : list loginRateLimitRule) a ra :
  0 <= ra → NoDup (key <$> rs) →
  snd (foldl (retry_step win now) (a, ra) rs) = Z.max ra (retry_reference win a now rs).
Proof.
  revert a ra. induction rs as [|r rs IH]; intros a ra Hra Hnd; [unfold retry_reference; simpl; lia|].
  rewrite fmap_cons in Hnd. apply NoDup_cons in Hnd as [Hr Hnd].
  cbn [foldl]. unfold retry_step at 2. destruct (a !! key r) as [b|] eqn:E.
  - rewrite IH by first [done | pose proof (retry_nonneg (pruneBucket win b now) now);
                             destruct (_ <? _); lia].
    unfold retry_reference. rewrite fmap_cons, fmap_delay_insert by done. simpl.
    unfold bucket_delay at 2, bucketForKey. rewrite E. simpl.
    destruct (Z.ltb_spec ra (bucketRetryAfter (pruneBucket win b now) now)); lia.
  - rewrite IH by done. unfold retry_reference. rewrite fmap_cons. simpl.
    unfold bucket_delay at 2, bucketForKey. rewrite E. simpl.
    pose proof (retry_reference_nonneg win a now rs) as Hnn. unfold retry_reference in Hnn.
    unfold bucketRetryAfter, IsZero. simpl. lia.
Qed.

Section answers.
Context `{N : NetIP} (ToLower : string → string).

Lemma rules_NoDup l u r : NoDup (key <$> rules ToLower l u r).
Proof.
  apply (rules_ok ToLower (mkLimits (maxAttempts l) (maxIPAttempts l) (window l) (lockout l))).
  by split_and!.
Qed.

Lemma rules_cleanup l u r now : rules ToLower (cleanupExpired l now) u r = rules ToLower l u r.
Proof. unfold cleanupExpired. by go_case. Qed.

Lemma cleanup_window l now : window (cleanupExpired l now) = window l.
Proof. unfold cleanupExpired. by go_case. Qed.

Lemma enabled_window l : enabled (Some l) = true → 0 < window l ∧ 0 < lockout l.
Proof. unfold enabled. lia. Qed.

Lemma RetryAfter_eq l u r now :
  enabled (Some l) = true →
  snd (RetryAfter ToLower l u r now) =
    (retry_reference (window l) (attempts l) now (rules ToLower l u r),
     0 <? retry_reference (window l) (attempts l) now (rules ToLower l u r)).
Proof.
  intros He. unfold RetryAfter. rewrite He. simpl.
  pose proof (retry_foldl (window l) now (rules ToLower l u r) (attempts (cleanupExpired l now)) 0
    ltac:(lia) (rules_NoDup l u r)) as HR.
  rewrite rules_cleanup, cleanup_window. destruct (foldl _ _ _) as [a ra]. simpl in *. subst ra.
  assert (Heq : retry_reference (window l) (attempts (cleanupExpired l now)) now (rules ToLower l u r)
    = retry_reference (window l) (attempts l) now (rules ToLower l u r)).
  { unfold retry_reference. f_equal. apply list_fmap_ext. intros. apply bucket_delay_cleanup; [|lia].
    apply enabled_window in He. lia. }
  by rewrite Heq, Z.max_r by apply retry_reference_nonneg.
Qed.

(** A bucket that stays locked at least until [now + d]. *)
Definition locked_for (a : gmap string loginAttemptBucket) (rs : list loginRateLimitRule) (until : time) : Prop :=
  ∃ r, r ∈ rs ∧ until <= lockedUntil (bucketForKey a (key r)).

Lemma locked_for_insert_ne a rs k b until :
  k ∉ key <$> rs → locked_for a rs until → locked_for (<[k := b]> a) rs until.
Proof.
  intros Hk (r & Hr & Hl). exists r. split; [done|]. rewrite bucketForKey_insert, decide_False; [done|].
  intros ->. apply Hk. by apply list_elem_of_fmap_2.
Qed.

Lemma prune_locks win now (rs : list loginRateLimitRule) a ra :
  0 <= ra → NoDup (key <$> rs) →
  snd (foldl (prune_step win now) (a, ra) rs) = ra ∨
  locked_for (fst (foldl (prune_step win now) (a, ra) rs)) rs
    (now + snd (foldl (prune_step win now) (a, ra) rs)).
Proof.
  revert a ra. induction rs as [|r rs IH]; intros a ra Hra Hnd; [by left|].
  rewrite fmap_cons in Hnd. apply NoDup_cons in Hnd as [Hr Hnd]. cbn [foldl].
  set (b := pruneBucket win (bucketForKey a (key r)) now).
  change (prune_step win now (a, ra) r) with
    (<[key r := b]> a, if ra <? bucketRetryAfter b now then bucketRetryAfter b now else ra).
  set (ra' := if ra <? _ then _ else _).
  assert (Hkeep : ∀ a1 ra1, bucketForKey (fst (foldl (prune_step win now) (a1, ra1) rs)) (key r)
                            = bucketForKey a1 (key r)).
  { clear -Hr. induction rs as [|q rs IH]; intros a1 ra1; [done|]. cbn [foldl].
    rewrite fmap_cons, elem_of_cons in Hr. unfold prune_step at 2.
    rewrite IH by tauto. rewrite bucketForKey_insert, decide_False by naive_solver. done. }
  destruct (IH (<[key r := b]> a) ra') as [Heq|(q & Hq & Hl)];
    [subst ra'; destruct (Z.ltb_spec ra (bucketRetryAfter b now)); lia|done|..].
  - rewrite Heq. subst ra'. destruct (Z.ltb_spec ra (bucketRetryAfter b now)) as [Hlt|]; [|by left].
    right. exists r. split; [by left|]. rewrite Hkeep, bucketForKey_insert, decide_True by done.
    by apply retry_until; lia.
  - right. exists q. split; [by right|done].
Qed.

Lemma count_keep lock now (rs : list loginRateLimitRule) a ra k :
  k ∉ key <$> rs →
  bucketForKey (fst (foldl (count_step lock now) (a, ra) rs)) k = bucketForKey a k.
Proof.
  revert a ra. induction rs as [|r rs IH]; intros a ra Hk; [done|].
  rewrite fmap_cons, elem_of_cons in Hk. cbn [foldl]. unfold count_step at 2.
  destruct (_ <=? _); rewrite IH by tauto; rewrite bucketForKey_insert, decide_False; naive_solver.
Qed.

Lemma prune_keep win now (rs : list loginRateLimitRule) a ra k :
  k ∉ key <$> rs →
  bucketForKey (fst (foldl (prune_step win now) (a, ra) rs)) k = bucketForKey a k.
Proof.
  revert a ra. induction rs as [|r rs IH]; intros a ra Hk; [done|].
  rewrite fmap_cons, elem_of_cons in Hk. cbn [foldl]. unfold prune_step at 2.
  rewrite IH by tauto. rewrite bucketForKey_insert, decide_False; naive_solver.
Qed.

Lemma count_locks lock now (rs : list loginRateLimitRule) a ra :
  NoDup (key <$> rs) →
  snd (foldl (count_step lock now) (a, ra) rs) = ra ∨
  locked_for (fst (foldl (count_step lock now) (a, ra) rs)) rs
    (now + snd (foldl (count_step lock now) (a, ra) rs)).
Proof.
  revert a ra. induction rs as [|r rs IH]; intros a ra Hnd; [by left|].
  rewrite fmap_cons in Hnd. apply NoDup_cons in Hnd as [Hr Hnd]. cbn [foldl].
  unfold count_step at 2 4 6. set (fs := failures _ ++ [now]).
  assert (Hin : ∀ a' ra', (snd (foldl (count_step lock now) (a', ra') rs) = ra' ∨
    locked_for (fst (foldl (count_step lock now) (a', ra') rs)) (r :: rs)
      (now + snd (foldl (count_step lock now) (a', ra') rs)))).
  { intros a' ra'. destruct (IH a' ra' Hnd) as [|(q & Hq & ?)]; [by left|right].
    exists q. split; [by right|done]. }
  destruct (limit r <=? Z.of_nat (length fs)); [|done].
  destruct (Z.ltb_spec ra lock); [|done].
  set (a' := <[key r := mkBucket [] (now + lock)]> a).
  destruct (Hin a' lock) as [Heq|]; [|by right]. right. rewrite Heq. exists r.
  split; [by left|]. rewrite count_keep by done. subst a'.
  rewrite bucketForKey_insert, decide_True by done. simpl. lia.
Qed.

(** The delay [RecordFailure] returns is backed by a lock in one of the buckets. *)
Lemma RecordFailure_locks l u r now :
  enabled (Some l) = true → 0 < snd (RecordFailure ToLower l u r now) →
  locked_for (attempts (fst (RecordFailure ToLower l u r now))) (rules ToLower l u r)
    (now + snd (RecordFailure ToLower l u r now)).
Proof.
  intros He. unfold RecordFailure. rewrite He. simpl. rewrite rules_cleanup.
  pose proof (rules_NoDup l u r) as Hnd. set (l' := cleanupExpired l now). set (rs := rules _ _ _ _) in *.
  pose proof (prune_locks (window l') now rs (attempts l') 0 ltac:(lia) Hnd) as HP.
  destruct (foldl (prune_step _ _) _ _) as [a ra]. simpl in HP.
  destruct (Z.ltb_spec 0 ra); simpl; [intros _; destruct HP; [lia|done]|].
  pose proof (count_locks (lockout l') now rs a 0 Hnd) as HC.
  destruct (foldl (count_step _ _) _ _) as [a' ra']. simpl in *.
  intros. destruct HC; [lia|done].
Qed.

Lemma RecordFailure_config l u r now :
  let l' := fst (RecordFailure ToLower l u r now) in
  maxAttempts l' = maxAttempts l ∧ maxIPAttempts l' = maxIPAttempts l ∧
  window l' = window l ∧ lockout l' = lockout l.
Proof.
  unfold RecordFailure. destruct (enabled (Some l)); simpl; [|done].
  destruct (foldl _ _ _) as [a ra]. destruct (0 <? ra); simpl.
  - unfold cleanupExpired. by go_case.
  - destruct (foldl _ _ _). unfold cleanupExpired. by go_case.
Qed.

Lemma same_config_rules l l' u r :
  maxAttempts l' = maxAttempts l → maxIPAttempts l' = maxIPAttempts l →
  rules ToLower l' u r = rules ToLower l u r.
Proof. unfold rules. by intros -> ->. Qed.

Lemma bucket_delay_locked win a now k until :
  0 < now → now < until → until - now <= max_int64 →
  until <= lockedUntil (bucketForKey a k) → until - now <= bucket_delay win a now k.
Proof.
  intros H0 Hn Hm Hu. unfold bucket_delay, pruneBucket, IsZero, Before, zero_time in *.
  destruct (Z.eqb_spec (lockedUntil (bucketForKey a k)) 0); [lia|].
  destruct (Z.ltb_spec now (lockedUntil (bucketForKey a k))); [|lia]. simpl.
  unfold bucketRetryAfter, IsZero, Before, Sub, zero_time, max_int64, min_int64 in *. simpl.
  destruct (Z.eqb_spec (lockedUntil (bucketForKey a k)) 0); [lia|].
  destruct (Z.ltb_spec now (lockedUntil (bucketForKey a k))); simpl; lia.
Qed.

Lemma retry_reference_ge win a now rs r :
  r ∈ rs → bucket_delay win a now (key r) <= retry_reference win a now rs.
Proof.
  unfold retry_reference. induction rs as [|q rs IH]; [by intros ?%elem_of_nil|].
  rewrite fmap_cons. simpl. intros [->|Hr]%elem_of_cons; [|specialize (IH Hr)]; lia.
Qed.

(** a lockout announced to a client is enforced. When RecordFailure returns
    a delay, every later check of the same user and address before that delay
    has passed is refused, and the delay it is told is at least the time that
    remains, whatever clean-up runs in between. *)
Theorem lockout_enforced l u r now t :
  enabled (Some l) = true → 0 < now → now <= t →
  t < now + snd (RecordFailure ToLower l u r now) →
  snd (RecordFailure ToLower l u r now) <= max_int64 →
  let answer := snd (RetryAfter ToLower (fst (RecordFailure ToLower l u r now)) u r t) in
  snd answer = true ∧ now + snd (RecordFailure ToLower l u r now) - t <= fst answer.
Proof.
  intros He H0 Ht Hlt Hmax. pose proof (RecordFailure_locks l u r now He ltac:(lia)) as (q & Hq & Hl).
  destruct (RecordFailure_config l u r now) as (Hc1 & Hc2 & Hc3 & Hc4).
  set (l' := fst (RecordFailure ToLower l u r now)) in *.
  set (d := snd (RecordFailure ToLower l u r now)) in *.
  assert (He' : enabled (Some l') = true) by (unfold enabled in *; by rewrite Hc1, Hc3, Hc4).
  intros answer. subst answer. rewrite RetryAfter_eq by done.
  rewrite (same_config_rules l l') by done. simpl.
  pose proof (retry_reference_ge (window l') (attempts l') t _ _ Hq) as HR.
  pose proof (bucket_delay_locked (window l') (attempts l') t (key q) (now + d)
    ltac:(lia) ltac:(lia) ltac:(lia) Hl). lia.
Qed.


(** failures of one login never lock out an unrelated one. If the rules of
    two logins share no bucket, a failure recorded for the first leaves every
    later answer for the second as it was. *)
Theorem failure_isolated l u r u2 r2 now t :
  enabled (Some l) = true → now <= t →
  (∀ q, q ∈ rules ToLower l u2 r2 → key q ∉ key <$> rules ToLower l u r) →
  snd (RetryAfter ToLower (fst (RecordFailure ToLower l u r now)) u2 r2 t)
    = snd (RetryAfter ToLower l u2 r2 t).
Proof.
  intros He Ht Hd. destruct (RecordFailure_config l u r now) as (Hc1 & Hc2 & Hc3 & Hc4).
  rewrite !RetryAfter_eq; [|done|unfold enabled in *; by rewrite Hc1, Hc3, Hc4].
  rewrite Hc3, (same_config_rules l) by done.
  assert (Heq : ∀ q, q ∈ rules ToLower l u2 r2 →
    bucket_delay (window l) (attempts (fst (RecordFailure ToLower l u r now))) t (key q)
    = bucket_delay (window l) (attempts l) t (key q)).
  { intros q Hq. specialize (Hd q Hq).
    rewrite <- (bucket_delay_cleanup l now t) by (apply enabled_window in He; lia).
    unfold bucket_delay. do 2 f_equal. unfold RecordFailure. rewrite He. simpl.
    rewrite rules_cleanup.
    pose proof (prune_keep (window (cleanupExpired l now)) now (rules ToLower l u r)
      (attempts (cleanupExpired l now)) 0 (key q) Hd) as HP.
    destruct (foldl (prune_step _ _) _ _) as [a ra]. simpl in HP.
    destruct (0 <? ra); simpl; [done|].
    pose proof (count_keep (lockout (cleanupExpired l now)) now (rules ToLower l u r) a 0 (key q) Hd) as HC.
    destruct (foldl (count_step _ _) _ _) as [a' ra']. simpl in *. congruence. }
  unfold retry_reference.
  assert (Hmap : (λ q, bucket_delay (window l) (attempts (fst (RecordFailure ToLower l u r now))) t (key q))
      <$> rules ToLower l u2 r2 =
    (λ q, bucket_delay (window l) (attempts l) t (key q)) <$> rules ToLower l u2 r2).
  { apply list_fmap_ext. intros i q Hq. apply Heq. apply list_elem_of_lookup. eauto. }
  by rewrite Hmap.
Qed.
End answers.

(** A limiter that has just counted the third failure of bob. *)
Definition demo_limiter : loginRateLimiter :=
  fst (run_logins (λ s, s) demo_limits (take 2 demo_logins)).

Lemma lockout_enforced_witness :
  let r := RecordFailure (λ s, s) demo_limiter "bob" "10.0.0.7:3" (3 * Second) in
  let answer := snd (RetryAfter (λ s, s) (fst r) "bob" "10.0.0.7:9" (20 * Second)) in
  snd answer = true ∧ 3 * Second + snd r - 20 * Second <= fst answer.
Proof.
  exact (lockout_enforced (λ s, s) demo_limiter "bob" "10.0.0.7:3" (3 * Second) (20 * Second)
    eq_refl ltac:(vm_compute; done) ltac:(vm_compute; done) ltac:(vm_compute; done)
    ltac:(vm_compute; done)).
Defined.

Lemma failure_isolated_witness :
  snd (RetryAfter (λ s, s)
    (fst (RecordFailure (λ s, s) demo_limiter "bob" "10.0.0.7:3" (3 * Second)))
    "bob" "10.0.0.8:1" (20 * Second))
  = snd (RetryAfter (λ s, s) demo_limiter "bob" "10.0.0.8:1" (20 * Second)).
Proof.
  apply (failure_isolated (λ s, s) demo_limiter "bob" "10.0.0.7:3" "bob" "10.0.0.8:1"
    (3 * Second) (20 * Second)); [reflexivity|vm_compute; done|].
  intros q Hq. vm_compute in Hq. vm_compute.
  repeat (apply elem_of_cons in Hq as [->|Hq]; [set_solver|]). by apply elem_of_nil in Hq.
Defined.
