(* ===== verification/ConnRegistry.v ===== *)
(** * The registry of live user connections

    The connection half of [internal/session/session.go] and
    [connection_authorization.go]: tickets captured before authentication, the
    per-user registry with its limit, revocation by generation on logout, and the
    terminal drain at shutdown.  [m.connectionsMu] makes each operation atomic;
    [reg_step] interleaves them, and the closures returned by
    [RegisterUserConnection] are called in any order, any number of times. *)

From S2P Require Import Prelude GoStrings.

Definition sessionTTL : duration := 30 * Minute.

(** A ticket; [a_manager] tells whether it was made by this manager (the zero
    value was not). *)
Record ConnectionAuthorization : Type := mkAuth {
  a_manager : bool;
  a_username : string;
  a_generation : Z;
  a_deadline : time
}.

Definition zero_authorization : ConnectionAuthorization := mkAuth false "" 0 zero_time.

Record registry : Type := mkRegistry {
  connectionGenerations : gmap string Z;
  nextConnectionID : Z;
  userConnections : gmap string (gmap Z nat);  (** close functions, by number *)
  connectionsClosing : bool;
  activeConnections : Z;
  connectionsDrained : bool;                   (** whether the channel is closed *)
  userConnectionLimit : Z
}.

Definition new_registry : registry := mkRegistry ∅ 0 ∅ false 0 true 0.

(** The unregister closure of one registration: which entry it removes. *)
Record registration : Type := mkReg { r_user : string; r_id : Z }.

Section ops.
Context (m : registry).

Definition SetUserConnectionLimit (limit : Z) : registry :=
  mkRegistry (connectionGenerations m) (nextConnectionID m) (userConnections m)
    (connectionsClosing m) (activeConnections m) (connectionsDrained m) limit.

Definition generation (username : string) : Z := default 0 (connectionGenerations m !! username).

Definition connections (username : string) : gmap Z nat := default ∅ (userConnections m !! username).

Definition connectionAuthorization (username : string) (now : time) : ConnectionAuthorization :=
  mkAuth true username (generation username) (now + sessionTTL).

(** [closeFn] is [None] for nil.  [None] is a refusal. *)
Definition RegisterUserConnection (a : ConnectionAuthorization) (closeFn : option nat) (now : time) :
    registry * option registration :=
  let username := a_username a in
  match closeFn with
  | None => (m, None)
  | Some f =>
      if negb (a_manager a) || String.eqb (TrimSpace username) "" then (m, None)
      else if connectionsClosing m || negb (generation username =? a_generation a)
              || negb (Before now (a_deadline a)) then (m, None)
      else if (0 <? userConnectionLimit m)
              && (userConnectionLimit m <=? Z.of_nat (size (connections username))) then (m, None)
      else
        let id := u64 (nextConnectionID m + 1) in
        (mkRegistry (connectionGenerations m) id
           (<[username := <[id := f]> (connections username)]> (userConnections m))
           (connectionsClosing m) (activeConnections m + 1)
           (if activeConnections m =? 0 then false else connectionsDrained m)
           (userConnectionLimit m),
         Some (mkReg username id))
  end.

(** The body of the unregister closure, run at most once by its [sync.Once]. *)
Definition unregister (r : registration) : registry :=
  let conns := delete (r_id r) (connections (r_user r)) in
  let active := activeConnections m - 1 in
  mkRegistry (connectionGenerations m) (nextConnectionID m)
    (if bool_decide (conns = ∅) then delete (r_user r) (userConnections m)
     else <[r_user r := conns]> (userConnections m))
    (connectionsClosing m) active
    (if active =? 0 then true else connectionsDrained m) (userConnectionLimit m).

(** The close functions to call are returned; their order is the map's. *)
Definition CloseUserConnections (username : string) : registry * list nat :=
  let username := TrimSpace username in
  if String.eqb username "" then (m, [])
  else (mkRegistry (<[username := u64 (generation username + 1)]> (connectionGenerations m))
          (nextConnectionID m) (delete username (userConnections m)) (connectionsClosing m)
          (activeConnections m) (connectionsDrained m) (userConnectionLimit m),
        snd <$> map_to_list (connections username)).

(** The locked part of [CloseAllConnections]; the caller then waits for the
    drained channel or its context. *)
Definition CloseAllConnections : registry * list nat :=
  (mkRegistry (connectionGenerations m) (nextConnectionID m) ∅ true (activeConnections m)
     (connectionsDrained m) (userConnectionLimit m),
   map_to_list (userConnections m) ≫= λ '(_, conns), snd <$> map_to_list conns).
End ops.

(** ** Interleavings

    [live] holds the registrations whose closure has not run yet; [spent] those
    whose closure has run, which running again does not change. *)

Record reg_state : Type := mkRegState {
  reg : registry;
  live : gmap Z string;
  spent : gset Z;
  limit0 : Z
}.

Inductive reg_step : reg_state → reg_state → Prop :=
| rs_register st a f now m' r :
    RegisterUserConnection (reg st) a f now = (m', Some r) →
    reg_step st (mkRegState m' (<[r_id r := r_user r]> (live st)) (spent st) (limit0 st))
| rs_refused st a f now m' :
    RegisterUserConnection (reg st) a f now = (m', None) →
    reg_step st (mkRegState m' (live st) (spent st) (limit0 st))
| rs_unregister st id u :
    live st !! id = Some u →
    reg_step st (mkRegState (unregister (reg st) (mkReg u id)) (delete id (live st))
                   ({[ id ]} ∪ spent st) (limit0 st))
| rs_unregister_again st id : id ∈ spent st → reg_step st st
| rs_close_user st u :
    reg_step st (mkRegState (fst (CloseUserConnections (reg st) u)) (live st) (spent st) (limit0 st))
| rs_close_all st :
    reg_step st (mkRegState (fst (CloseAllConnections (reg st))) (live st) (spent st) (limit0 st)).

(** The manager is built, its limit is set once, and then serves. *)
Definition reg_init (limit : Z) : reg_state :=
  mkRegState (SetUserConnectionLimit new_registry limit) ∅ ∅ limit.

(** A step taken while the two uint64 counters (connection numbers and a user's
    logouts) are below their last value. *)
Definition reg_step_in_range (st st' : reg_state) : Prop :=
  reg_step st st' ∧ nextConnectionID (reg st) + 1 < u64_mod ∧
  ∀ u, generation (reg st) u + 1 < u64_mod.

(** ** Invariant *)

Record reg_inv (st : reg_state) : Prop := {
  ri_active : activeConnections (reg st) = Z.of_nat (size (live st));
  ri_drained : connectionsDrained (reg st) = bool_decide (live st = ∅);
  ri_next : 0 <= nextConnectionID (reg st) < u64_mod;
  ri_ids : ∀ id u, live st !! id = Some u → id <= nextConnectionID (reg st);
  ri_spent : ∀ id, id ∈ spent st → id <= nextConnectionID (reg st) ∧ live st !! id = None;
  ri_conns : ∀ u conns id f, userConnections (reg st) !! u = Some conns →
    conns !! id = Some f → live st !! id = Some u;
  ri_limit : userConnectionLimit (reg st) = limit0 st;
  ri_size : ∀ u conns, userConnections (reg st) !! u = Some conns → 0 < limit0 st →
    Z.of_nat (size conns) <= limit0 st
}.

Lemma connections_lookup m u id f :
  connections m u !! id = Some f →
  ∃ conns, userConnections m !! u = Some conns ∧ conns !! id = Some f.
Proof. unfold connections. destruct (userConnections m !! u) as [conns|]; simpl; [eauto|done]. Qed.

Lemma reg_init_inv limit : reg_inv (reg_init limit).
Proof. split; simpl; try done; try set_solver. Qed.

Lemma register_shape m a f now m' r :
  RegisterUserConnection m a f now = (m', Some r) →
  ∃ fn, f = Some fn ∧ r = mkReg (a_username a) (u64 (nextConnectionID m + 1)) ∧
    a_manager a = true ∧ connectionsClosing m = false ∧
    generation m (a_username a) = a_generation a ∧ now < a_deadline a ∧
    (0 < userConnectionLimit m →
      Z.of_nat (size (connections m (a_username a))) < userConnectionLimit m) ∧
    m' = mkRegistry (connectionGenerations m) (u64 (nextConnectionID m + 1))
           (<[a_username a := <[u64 (nextConnectionID m + 1) := fn]> (connections m (a_username a))]>
              (userConnections m))
           (connectionsClosing m) (activeConnections m + 1)
           (if activeConnections m =? 0 then false else connectionsDrained m)
           (userConnectionLimit m).
Proof.
  unfold RegisterUserConnection, Before. destruct f as [fn|]; [|done]. intros H.
  destruct (negb (a_manager a) || _) eqn:E1; [done|].
  destruct (connectionsClosing m || _ || _) eqn:E2; [done|].
  destruct ((0 <? userConnectionLimit m) && _) eqn:E3; [done|].
  simplify_eq. exists fn. bool_props.
  split_and!; try done.
  intros Hl. apply andb_false_iff in E3 as [E|E]; lia.
Qed.

Lemma register_refused_same m a f now m' :
  RegisterUserConnection m a f now = (m', None) → m' = m.
Proof. unfold RegisterUserConnection. intros H. by go_cases_in H. Qed.

Lemma register_inv st a f now m' r :
  reg_inv st → nextConnectionID (reg st) + 1 < u64_mod →
  RegisterUserConnection (reg st) a f now = (m', Some r) →
  reg_inv (mkRegState m' (<[r_id r := r_user r]> (live st)) (spent st) (limit0 st)).
Proof.
  intros [H1 H2 H3 H4 H5 H6 H7 H8] Hr Hreg.
  apply register_shape in Hreg as (fn & -> & -> & _ & _ & _ & _ & Hlim & ->). simpl.
  rewrite u64_small by (unfold is_u64; lia).
  assert (Hfresh : live st !! (nextConnectionID (reg st) + 1) = None).
  { destruct (live st !! _) eqn:E; [|done]. apply H4 in E. lia. }
  split; simpl.
  - rewrite map_size_insert_None by done. lia.
  - rewrite bool_decide_eq_false_2 by apply insert_non_empty.
    destruct (Z.eqb_spec (activeConnections (reg st)) 0) as [E|E]; [done|].
    rewrite H2. apply bool_decide_eq_false. intros He. rewrite He, map_size_empty in H1. simpl in H1. lia.
  - lia.
  - intros id u [[<- <-]|[_ Hid%H4]]%lookup_insert_Some; lia.
  - intros id [Hle Hid]%H5. split; [lia|]. rewrite lookup_insert_ne by lia. done.
  - intros u conns id g Hu Hg. apply lookup_insert_Some in Hu as [[<- <-]|[Hne Hu]].
    + apply lookup_insert_Some in Hg as [[<- <-]|[Hne Hg]]; [by rewrite lookup_insert_eq|].
      apply connections_lookup in Hg as (conns & Hc & Hg). rewrite lookup_insert_ne by done. eauto.
    + pose proof (H6 _ _ _ _ Hu Hg) as Hl. rewrite lookup_insert_ne; [done|].
      intros <-. congruence.
  - done.
  - intros u conns Hu Hpos. apply lookup_insert_Some in Hu as [[<- <-]|[Hne Hu]]; [|eauto].
    rewrite map_size_insert_None; [rewrite <- H7 in *; specialize (Hlim Hpos); lia|].
    destruct (connections (reg st) (a_username a) !! _) eqn:E; [|done].
    apply connections_lookup in E as (conns & Hc & Hg).
    pose proof (H6 _ _ _ _ Hc Hg). congruence.
Qed.

Lemma unregister_conns m r u conns :
  userConnections (unregister m r) !! u = Some conns →
  ∃ conns0, userConnections m !! u = Some conns0 ∧
    (if decide (u = r_user r) then conns = delete (r_id r) conns0 else conns = conns0).
Proof.
  unfold unregister. simpl. case_bool_decide as E.
  - intros [Hne Hu]%lookup_delete_Some. exists conns. rewrite decide_False by done. done.
  - intros [[<- <-]|[Hne Hu]]%lookup_insert_Some.
    + unfold connections in *. destruct (userConnections m !! r_user r) as [c0|]; simpl in *.
      * exists c0. by rewrite decide_True.
      * destruct E. by rewrite delete_empty.
    + exists conns. rewrite decide_False by done. done.
Qed.

Lemma unregister_inv st id u :
  reg_inv st → live st !! id = Some u →
  reg_inv (mkRegState (unregister (reg st) (mkReg u id)) (delete id (live st))
             ({[ id ]} ∪ spent st) (limit0 st)).
Proof.
  intros [H1 H2 H3 H4 H5 H6 H7 H8] Hid.
  assert (Hsz : Z.of_nat (size (delete id (live st))) = activeConnections (reg st) - 1).
  { rewrite map_size_delete, Hid. simpl. rewrite H1.
    assert (size (live st) ≠ 0%nat) by (apply (map_size_ne_0_lookup_2 _ id); eauto). lia. }
  split; simpl.
  - done.
  - destruct (Z.eqb_spec (activeConnections (reg st) - 1) 0) as [E|E].
    + rewrite bool_decide_eq_true_2; [done|]. apply map_size_empty_inv. lia.
    + rewrite H2, !bool_decide_eq_false_2; [done| |].
      * intros Heq. rewrite Heq, map_size_empty in Hsz. simpl in Hsz. lia.
      * intros Heq. by rewrite Heq in Hid.
  - done.
  - intros i v [_ Hi%H4]%lookup_delete_Some. done.
  - intros i [->%elem_of_singleton|Hi]%elem_of_union.
    + split; [by eapply H4|apply lookup_delete_eq].
    + destruct (H5 i Hi) as [? Hn]. split; [done|]. apply lookup_delete_None. auto.
  - intros v conns i f Hv Hf. apply (unregister_conns (reg st) (mkReg u id)) in Hv as (c0 & Hc & Hconns). simpl in *.
    destruct (decide (v = u)) as [->|Hne]; subst.
    + apply lookup_delete_Some in Hf as [Hne Hf].
      rewrite lookup_delete_ne by done. eauto.
    + pose proof (H6 _ _ _ _ Hc Hf) as Hl. rewrite lookup_delete_ne; [done|].
      intros ->. congruence.
  - done.
  - intros v conns Hv Hpos. apply (unregister_conns (reg st) (mkReg u id)) in Hv as (c0 & Hc & Hconns).
    specialize (H8 _ _ Hc Hpos). destruct (decide _); subst; [|done].
    etransitivity; [|exact H8]. apply inj_le. rewrite map_size_delete.
    destruct (c0 !! _); simpl; lia.
Qed.

Lemma reg_step_inv st st' : reg_step_in_range st st' → reg_inv st → reg_inv st'.
Proof.
  intros (Hs & Hr & _) Hi.
  destruct Hs as [st a f now m' r Hreg|st a f now m' Hreg|st id u Hid|st id Hid|st u|st].
  - by eapply register_inv.
  - apply register_refused_same in Hreg as ->. by destruct st.
  - by apply unregister_inv.
  - done.
  - destruct Hi as [H1 H2 H3 H4 H5 H6 H7 H8]. unfold CloseUserConnections.
    destruct (String.eqb _ _); split; simpl; try done.
    + intros v conns id f [_ Hv]%lookup_delete_Some. eauto.
    + intros v conns [_ Hv]%lookup_delete_Some. eauto.
  - destruct Hi as [H1 H2 H3 H4 H5 H6 H7 H8]. split; simpl; try done; set_solver.
Qed.

Lemma reg_reachable_inv limit st :
  rtc reg_step_in_range (reg_init limit) st → reg_inv st.
Proof. apply rtc_invariant; [exact reg_step_inv|apply reg_init_inv]. Qed.

(** ** Properties *)

(** shutdown waits for exactly the live connections. In every interleaving of
    registrations, unregistrations (each closure called any number of times),
    logouts and shutdown, the active count equals the number of registrations
    whose closure has not run, and the drained channel is closed exactly when
    there is none. *)
Theorem drained_iff_no_live limit st :
  rtc reg_step_in_range (reg_init limit) st →
  activeConnections (reg st) = Z.of_nat (size (live st)) ∧
  (connectionsDrained (reg st) = true ↔ live st = ∅).
Proof.
  intros [H1 H2 _ _ _ _ _ _]%reg_reachable_inv. split; [done|].
  rewrite H2. apply bool_decide_eq_true.
Qed.

(** no user ever holds more registered connections than the configured
    limit, and every registered connection belongs to a live registration of that
    very user. *)
Theorem connection_limit_respected limit st u conns :
  rtc reg_step_in_range (reg_init limit) st →
  userConnections (reg st) !! u = Some conns → 0 < limit →
  Z.of_nat (size conns) <= limit ∧
  (∀ id f, conns !! id = Some f → live st !! id = Some u).
Proof.
  intros Hr Hu Hl. pose proof (reg_reachable_inv _ _ Hr) as [_ _ _ _ _ H6 H7 H8].
  assert (Hlim : limit0 st = limit).
  { revert Hr. generalize (eq_refl (limit0 (reg_init limit))). simpl.
    intros _ Hr. assert (limit0 st = limit0 (reg_init limit)) as ->; [|done].
    clear Hu H6 H7 H8. induction Hr as [|s1 s2 s3 [Hs _] _ IH]; [done|].
    rewrite IH. by destruct Hs. }
  split; [|eauto]. rewrite <- Hlim. apply (H8 _ _ Hu). lia.
Qed.

(** Later states keep a user's generation or have moved it on. *)
Lemma generation_mono st st' u :
  rtc reg_step_in_range st st' →
  0 <= generation (reg st) u → generation (reg st) u <= generation (reg st') u.
Proof.
  intros Hr H0. induction Hr as [st|s1 s2 s3 Hs Hr IH]; [lia|].
  assert (H12 : generation (reg s1) u <= generation (reg s2) u).
  { destruct Hs as (Hs & _ & Hlt). specialize (Hlt u).
    destruct Hs as [st a f now m' r Hreg|st a f now m' Hreg|st id v Hid|st id Hid|st v|st]; simpl; try lia.
    - apply register_shape in Hreg as (fn & _ & _ & _ & _ & _ & _ & _ & ->). unfold generation. simpl. lia.
    - apply register_refused_same in Hreg as ->. lia.
    - unfold generation. simpl. lia.
    - unfold CloseUserConnections. destruct (String.eqb _ _); simpl; [lia|].
      unfold generation at 2. simpl. rewrite lookup_insert.
      case_decide as E; simpl; [subst; rewrite u64_small by (unfold is_u64; lia); lia|].
      unfold generation. lia.
    - unfold generation. simpl. lia. }
  etransitivity; [exact H12|]. apply IH. lia.
Qed.

Lemma generation_nonneg limit st u :
  rtc reg_step_in_range (reg_init limit) st → 0 <= generation (reg st) u.
Proof.
  apply (rtc_invariant _ (λ s, 0 <= generation (reg s) u)); [|done].
  intros s1 s2 [Hs _] H0.
  destruct Hs as [st0 a f now m' r Hreg|st0 a f now m' Hreg|st0 id v Hid|st0 id Hid|st0 v|st0]; simpl; try done.
  - by apply register_shape in Hreg as (fn & _ & _ & _ & _ & _ & _ & _ & ->).
  - by apply register_refused_same in Hreg as ->.
  - unfold CloseUserConnections. destruct (String.eqb _ _); simpl; [done|].
    unfold generation. simpl. rewrite lookup_insert. case_decide; simpl; [apply u64_range|done].
Qed.

(** C33: logout revokes connections that are still being set up. A ticket captured
    for a user at any moment before that user's logout is refused at every moment
    after it, whatever else happens in between and afterwards, so a slow backend
    connection cannot outlive the logout. *)
Theorem logout_revokes_pending limit st st1 st2 st3 u now0 f now :
  rtc reg_step_in_range (reg_init limit) st →
  rtc reg_step_in_range st st1 →
  reg_step_in_range st1 st2 →
  reg st2 = fst (CloseUserConnections (reg st1) u) → TrimSpace u = u → u ≠ "" →
  rtc reg_step_in_range st2 st3 →
  RegisterUserConnection (reg st3) (connectionAuthorization (reg st) u now0) f now = (reg st3, None).
Proof.
  intros H0 H1 H12 H2 Ht Hu H3.
  pose proof (generation_nonneg _ _ u H0) as Hg0. pose proof H12 as (_ & _ & Hb1). specialize (Hb1 u).
  pose proof (generation_mono _ _ u H1 Hg0) as Hm1.
  assert (Hm2 : generation (reg st2) u = generation (reg st1) u + 1).
  { rewrite H2. unfold CloseUserConnections. rewrite Ht, (proj2 (String.eqb_neq _ _) Hu).
    unfold generation at 1. simpl. rewrite lookup_insert_eq. simpl.
    apply u64_small. unfold is_u64. lia. }
  pose proof (generation_mono _ _ u H3 ltac:(lia)) as Hm3.
  unfold RegisterUserConnection, connectionAuthorization. simpl. destruct f as [fn|]; [|done].
  rewrite Ht, (proj2 (String.eqb_neq _ _) Hu). simpl.
  rewrite (proj2 (Z.eqb_neq (generation (reg st3) u) (generation (reg st) u))) by lia.
  by rewrite orb_true_r.
Qed.

(** alice registers one connection. *)
Definition demo_auth : ConnectionAuthorization := mkAuth true "alice" 0 100.
Definition demo_reg : registry :=
  fst (RegisterUserConnection (reg (reg_init 2)) demo_auth (Some 9%nat) 5).
Definition demo_reg_state : reg_state := mkRegState demo_reg (<[1 := "alice"]> ∅) ∅ 2.

Lemma demo_reg_reached : rtc reg_step_in_range (reg_init 2) demo_reg_state.
Proof.
  eapply rtc_l; [|apply rtc_refl]. split; [|by split].
  apply (rs_register (reg_init 2) demo_auth (Some 9%nat) 5 demo_reg (mkReg "alice" 1)). reflexivity.
Defined.

Lemma drained_iff_no_live_witness :
  activeConnections demo_reg = 1 ∧
  (connectionsDrained demo_reg = true ↔ live demo_reg_state = ∅).
Proof. exact (drained_iff_no_live 2 demo_reg_state demo_reg_reached). Defined.

Lemma connection_limit_respected_witness :
  Z.of_nat (size ({[ 1 := 9%nat ]} : gmap Z nat)) <= 2 ∧
  (∀ id f, ({[ 1 := 9%nat ]} : gmap Z nat) !! id = Some f → live demo_reg_state !! id = Some "alice").
Proof.
  apply (connection_limit_respected 2 demo_reg_state "alice" {[ 1 := 9%nat ]});
    [exact demo_reg_reached|reflexivity|reflexivity].
Defined.

Definition demo_logged_out : reg_state :=
  mkRegState (fst (CloseUserConnections demo_reg "alice")) (live demo_reg_state) ∅ 2.

Lemma logout_revokes_pending_witness :
  RegisterUserConnection (reg demo_logged_out)
    (connectionAuthorization (reg (reg_init 2)) "alice" 1) (Some 3%nat) 7
  = (reg demo_logged_out, None).
Proof.
  apply (logout_revokes_pending 2 (reg_init 2) demo_reg_state demo_logged_out demo_logged_out "alice" 1
    (Some 3%nat) 7).
  - apply rtc_refl.
  - exact demo_reg_reached.
  - split; [apply (rs_close_user demo_reg_state "alice")|]. split; [done|].
    intros u. change (default 0 ((∅ : gmap string Z) !! u) + 1 < u64_mod). by rewrite lookup_empty.
  - reflexivity.
  - reflexivity.
  - done.
  - apply rtc_refl.
Defined.
