(* ===== verification/SessionStore.v ===== *)
(** * Session data, the session store and expiry auditing

    The data of [internal/session/session.go] and the decorator of
    [session_expiry.go], over the third-party session store and codec
    (github.com/alexedwards/scs), which are the class [Scs] with the documented
    behaviour [ScsLaws].  Timers are over-approximated: a timer callback may run
    at any moment, also after it was stopped, so what is proved does not depend on
    the timer wheel.  Timeout events are sent after the mutex is released: an event
    under way is a member of [active], the wait group [Close] waits for. *)

From S2P Require Import Prelude GoStrings.

(** [internal/identity/user.go] *)
Record User : Type := mkUser { Name : string; IsAdmin : bool }.

#[export] Instance User_eq_dec : EqDecision User.
Proof. solve_decision. Defined.

(** [rdpConnectGrant]; a verifier is the digest of a token. *)
Record rdpConnectGrant : Type := mkGrant { Verifier : string; ExpiresAt : time }.

Record sessionData : Type := mkSession {
  sUser : option User;
  CreatedAt : time;
  ClientIP : string;
  LoginPasswordHash : string;
  RDPConnectGrants : gmap string rdpConnectGrant
}.

Definition sessionKey : string := "session".

(** The values of an scs session: [interface{}] holding a [sessionData] or not. *)
Inductive value : Type := VSession (s : sessionData) | VOther (s : string).
Abbreviation values := (gmap string value).

(** [values[sessionKey].(sessionData)] *)
Definition session_of (v : values) : option sessionData :=
  match v !! sessionKey with Some (VSession s) => Some s | _ => None end.

(** The scs codec and store; [None] is an error. *)
Class Scs : Type := {
  raw : Type;
  Encode : time → values → option raw;
  Decode : raw → option (time * values);
  store : Type;
  sFind : store → string → time → option (option raw);
  sCommit : store → string → raw → time → option store;
  sDelete : store → string → option store;
  sAll : store → time → option (list (string * raw))
}.

Class ScsLaws (S : Scs) : Prop := {
  Decode_Encode d v r : Encode d v = Some r → Decode r = Some (d, v);
  find_committed s s' k r e t :
    sCommit s k r e = Some s' → t < e → sFind s' k t = Some (Some r);
  find_deleted s s' k t : sDelete s k = Some s' → sFind s' k t = Some None;
  find_deleted_other s s' k k' t : sDelete s k = Some s' → k ≠ k' → sFind s' k' t = sFind s k' t
}.

(** The identity snapshot a timer carries; [t_id] is the pointer's identity. *)
Record trackedSessionExpiry : Type := mkTracked {
  t_id : nat;
  t_user : User;
  t_sourceIP : string;
  t_expires : time
}.

(** The audit event of an expiry: user, address and whether deletion succeeded. *)
Record timeout_event : Type := mkTimeout {
  ev_id : nat; ev_user : User; ev_sourceIP : string; ev_success : bool
}.

Section store.
Context `{S : Scs}.

Record sessionExpiryStore : Type := mkExpiryStore {
  inner : store;
  tracked : gmap string trackedSessionExpiry;
  closed : bool;
  active : list (trackedSessionExpiry * bool);  (** events the wait group counts *)
  fresh : nat;                   (** the next pointer identity *)
  audited : list timeout_event   (** events sent to the audit log, newest first *)
}.

Definition newSessionExpiryStore (i : store) : sessionExpiryStore := mkExpiryStore i ∅ false [] 0 [].

Definition with_inner (s : sessionExpiryStore) (i : store) : sessionExpiryStore :=
  mkExpiryStore i (tracked s) (closed s) (active s) (fresh s) (audited s).

Definition removeLocked (s : sessionExpiryStore) (token : string) :
    sessionExpiryStore * option trackedSessionExpiry :=
  (mkExpiryStore (inner s) (delete token (tracked s)) (closed s) (active s) (fresh s) (audited s),
   tracked s !! token).

Definition cancelLocked (s : sessionExpiryStore) (token : string) : sessionExpiryStore :=
  fst (removeLocked s token).

(** [s.active.Add(1)], with the arguments of the [auditTimeout] call that follows
    the release of the mutex. *)
Definition active_Add (s : sessionExpiryStore) (c : trackedSessionExpiry) (ok : bool) :
    sessionExpiryStore :=
  mkExpiryStore (inner s) (tracked s) (closed s) ((c, ok) :: active s) (fresh s) (audited s).

(** [auditTimeout] and the deferred [s.active.Done()]: [rest] are the other events
    under way. *)
Definition auditTimeout (s : sessionExpiryStore) (c : trackedSessionExpiry) (ok : bool)
    (rest : list (trackedSessionExpiry * bool)) : sessionExpiryStore :=
  mkExpiryStore (inner s) (tracked s) (closed s) rest (fresh s)
    (mkTimeout (t_id c) (t_user c) (t_sourceIP c) ok :: audited s).

(** [Delete]: [false] is an error. *)
Definition Delete (s : sessionExpiryStore) (token : string) : sessionExpiryStore * bool :=
  match sDelete (inner s) token with
  | None => (s, false)
  | Some i => (cancelLocked (with_inner s i) token, true)
  end.

Definition Find (s : sessionExpiryStore) (token : string) (now : time) : option (option raw) :=
  sFind (inner s) token now.

Definition All (s : sessionExpiryStore) (now : time) : option (list (string * raw)) :=
  sAll (inner s) now.

(** [decodeTrackedSession]: [None] is a decoding error, [Some None] nothing to
    track. *)
Definition decodeTrackedSession (data : raw) (expiry : time) (id : nat) :
    option (option trackedSessionExpiry) :=
  match Decode data with
  | None => None
  | Some (_, values) =>
      match session_of values with
      | Some sess =>
          match sUser sess with
          | Some u => Some (Some (mkTracked id u (ClientIP sess) expiry))
          | None => Some None
          end
      | None => Some None
      end
  end.

Inductive commit_error : Type := StoreClosed | SessionExpired | CleanupFailed | CommitFailed.

(** Try the deletion of an expired token; the flag is its success. *)
Definition delete_inner (s : sessionExpiryStore) (token : string) : sessionExpiryStore * bool :=
  match sDelete (inner s) token with
  | None => (s, false)
  | Some i => (with_inner s i, true)
  end.

Definition Commit (s : sessionExpiryStore) (token : string) (data : raw) (expiry now : time) :
    sessionExpiryStore * option commit_error :=
  let tr := decodeTrackedSession data expiry (fresh s) in
  if closed s then (s, Some StoreClosed)
  else if negb (now <? expiry) then
    let '(s, current) := removeLocked s token in
    let '(s, ok) := delete_inner s token in
    let s := match current with Some c => active_Add s c ok | None => s end in
    (s, Some (if ok then SessionExpired else CleanupFailed))
  else match sCommit (inner s) token data expiry with
       | None => (s, Some CommitFailed)
       | Some i =>
           let s := cancelLocked (with_inner s i) token in
           match tr with
           | Some (Some t) =>
               (mkExpiryStore (inner s) (<[token := t]> (tracked s)) (closed s) (active s)
                  (fresh s + 1) (audited s), None)
           | _ => (s, None)
           end
       end.

(** The timer callback [expire(token, expected)]. *)
Definition expire (s : sessionExpiryStore) (token : string) (expected : nat) (now : time) :
    sessionExpiryStore :=
  match tracked s !! token with
  | None => s
  | Some current =>
      if negb (t_id current =? expected)%nat || closed s then s
      else if 0 <? t_expires current - now then s
      else let '(s, _) := removeLocked s token in
           let '(s, ok) := delete_inner s token in
           active_Add s current ok
  end.

Definition claim (s : sessionExpiryStore) (token : string) :
    sessionExpiryStore * option trackedSessionExpiry := removeLocked s token.

Definition restore (s : sessionExpiryStore) (token : string) (t : option trackedSessionExpiry) :
    sessionExpiryStore :=
  match t with
  | None => s
  | Some t =>
      if closed s then s
      else match tracked s !! token with
           | Some _ => s
           | None => mkExpiryStore (inner s) (<[token := t]> (tracked s)) (closed s) (active s) (fresh s)
                       (audited s)
           end
  end.

(** [Close] up to the release of the mutex; it returns once [close_returns]. *)
Definition Close (s : sessionExpiryStore) : sessionExpiryStore :=
  if closed s then s else mkExpiryStore (inner s) ∅ true (active s) (fresh s) (audited s).

(** [s.active.Wait()] does not block. *)
Definition close_returns (s : sessionExpiryStore) : bool :=
  closed s && match active s with [] => true | _ => false end.

(** ** Interleavings

    [claims] are the snapshots taken by [claim] and not yet given back. *)

Record exp_state : Type := mkExp {
  est : sessionExpiryStore;
  claims : list trackedSessionExpiry
}.

Inductive exp_step : exp_state → exp_state → Prop :=
| ex_commit st token data expiry now :
    exp_step st (mkExp (fst (Commit (est st) token data expiry now)) (claims st))
| ex_delete st token : exp_step st (mkExp (fst (Delete (est st) token)) (claims st))
| ex_expire st token id now : exp_step st (mkExp (expire (est st) token id now) (claims st))
| ex_claim st token s' t :
    claim (est st) token = (s', Some t) → exp_step st (mkExp s' (t :: claims st))
| ex_claim_none st token s' :
    claim (est st) token = (s', None) → exp_step st (mkExp s' (claims st))
| ex_restore st token t l1 l2 :
    claims st = l1 ++ t :: l2 → exp_step st (mkExp (restore (est st) token (Some t)) (l1 ++ l2))
| ex_audit st c ok l1 l2 :
    active (est st) = l1 ++ (c, ok) :: l2 →
    exp_step st (mkExp (auditTimeout (est st) c ok (l1 ++ l2)) (claims st))
| ex_close st : exp_step st (mkExp (Close (est st)) (claims st)).

(** Every identity in play: tracked, claimed, being audited or already audited. *)
Definition ids_of (st : exp_state) : list nat :=
  (t_id <$> (snd <$> map_to_list (tracked (est st)))) ++ (t_id <$> claims st)
  ++ (t_id ∘ fst <$> active (est st)) ++ (ev_id <$> audited (est st)).

Definition exp_inv (st : exp_state) : Prop :=
  NoDup (ids_of st) ∧ Forall (λ i, (i < fresh (est st))%nat) (ids_of st).

Lemma tracked_delete_ids (m : gmap string trackedSessionExpiry) k :
  t_id <$> (snd <$> map_to_list m) ≡ₚ
  (match m !! k with Some t => [t_id t] | None => [] end) ++
  (t_id <$> (snd <$> map_to_list (delete k m))).
Proof.
  destruct (m !! k) as [t|] eqn:E.
  - rewrite <- (insert_delete_id m k t E) at 1.
    rewrite map_to_list_insert by apply lookup_delete_eq. done.
  - by rewrite delete_id.
Qed.

Lemma tracked_insert_ids (m : gmap string trackedSessionExpiry) k t :
  m !! k = None →
  t_id <$> (snd <$> map_to_list (<[k := t]> m)) ≡ₚ t_id t :: (t_id <$> (snd <$> map_to_list m)).
Proof. intros. by rewrite map_to_list_insert. Qed.

(** The invariant only depends on the identities and their bound. *)
Lemma exp_inv_sub st st' :
  exp_inv st → ids_of st' ⊆+ ids_of st → (fresh (est st) <= fresh (est st'))%nat → exp_inv st'.
Proof.
  intros [Hnd Hlt] Hsub Hf. split.
  - by eapply NoDup_submseteq_l.
  - eapply Forall_impl; [by eapply Forall_submseteq_l|]. simpl. lia.
Qed.

Lemma delete_inner_fields s token :
  tracked (fst (delete_inner s token)) = tracked s ∧
  closed (fst (delete_inner s token)) = closed s ∧
  active (fst (delete_inner s token)) = active s ∧
  fresh (fst (delete_inner s token)) = fresh s ∧
  audited (fst (delete_inner s token)) = audited s.
Proof. unfold delete_inner. by destruct (sDelete _ _). Qed.

Lemma removed_ids s token i cl :
  ids_of (mkExp (cancelLocked (with_inner s i) token) cl) ⊆+ ids_of (mkExp s cl).
Proof.
  unfold ids_of. simpl. apply submseteq_skips_r.
  rewrite (tracked_delete_ids (tracked s) token). apply submseteq_inserts_l. done.
Qed.

(** Moving what was tracked under a token to the events under way keeps the
    identities. *)
Lemma moved_inv s token s2 ok cl :
  exp_inv (mkExp s cl) → delete_inner (fst (removeLocked s token)) token = (s2, ok) →
  exp_inv (mkExp (match tracked s !! token with Some c => active_Add s2 c ok | None => s2 end) cl).
Proof.
  intros Hi Ed. pose proof (delete_inner_fields (fst (removeLocked s token)) token) as Hf.
  rewrite Ed in Hf. destruct Hf as (Ht & _ & Hac & Hf & Ha). simpl in Ht, Hac, Hf, Ha.
  eapply exp_inv_sub; [exact Hi| |by destruct (tracked s !! token); simpl; rewrite Hf].
  unfold ids_of. simpl. rewrite (tracked_delete_ids (tracked s) token).
  destruct (tracked s !! token) as [c|]; simpl; rewrite Ht, Hac, Ha; [|done].
  rewrite <- !Permutation_middle. done.
Qed.

Lemma decodeTracked_id data expiry id t :
  decodeTrackedSession data expiry id = Some (Some t) → t_id t = id.
Proof. unfold decodeTrackedSession. intros H. repeat (go_case_in H; try done). by simplify_eq. Qed.

Lemma Commit_inv s token data expiry now cl :
  exp_inv (mkExp s cl) → exp_inv (mkExp (fst (Commit s token data expiry now)) cl).
Proof.
  intros Hi. unfold Commit. destruct (closed s) eqn:Ec; [done|].
  destruct (negb (now <? expiry)) eqn:Ex.
  - destruct (delete_inner (fst (removeLocked s token)) token) as [s2 ok] eqn:Ed.
    pose proof (moved_inv s token s2 ok cl Hi Ed). unfold removeLocked in *. simpl in *.
    by rewrite Ed.
  - destruct (sCommit (inner s) token data expiry) as [i|]; [|done].
    assert (Hc : exp_inv (mkExp (cancelLocked (with_inner s i) token) cl)).
    { eapply exp_inv_sub; [done|apply removed_ids|done]. }
    destruct (decodeTrackedSession data expiry (fresh s)) as [[t|]|] eqn:Et; [|done..].
    apply decodeTracked_id in Et. destruct Hc as [Hnd Hlt]. unfold exp_inv, ids_of in *. simpl in *.
    rewrite tracked_insert_ids by apply lookup_delete_eq. simpl. split.
    + apply NoDup_cons. split; [|done]. intros Hin.
      rewrite Forall_forall in Hlt. apply Hlt in Hin. simpl in Hin. lia.
    + constructor; [lia|]. eapply Forall_impl; [exact Hlt|]. intros j Hj. simpl in Hj. lia.
Qed.

Lemma expire_inv s token id now cl :
  exp_inv (mkExp s cl) → exp_inv (mkExp (expire s token id now) cl).
Proof.
  intros Hi. unfold expire. destruct (tracked s !! token) as [c|] eqn:Et; [|done].
  destruct (_ || _); [done|]. destruct (_ <? _); [done|].
  destruct (delete_inner (fst (removeLocked s token)) token) as [s2 ok] eqn:Ed.
  pose proof (moved_inv s token s2 ok cl Hi Ed) as Hm. rewrite Et in Hm.
  unfold removeLocked in *. simpl in *. by rewrite Ed.
Qed.

Lemma exp_step_inv st st' : exp_step st st' → exp_inv st → exp_inv st'.
Proof.
  intros Hs Hi. destruct Hs as [[s cl] token data e now|[s cl] token|[s cl] token id now
    |[s cl] token s' t Hc|[s cl] token s' Hc|[s cl] token t l1 l2 Hcl|[s cl] c ok l1 l2 Hac
    |[s cl]]; simpl in *.
  - by apply Commit_inv.
  - unfold Delete. destruct (sDelete (inner s) token); [|done].
    eapply exp_inv_sub; [done|apply removed_ids|done].
  - by apply expire_inv.
  - unfold claim, removeLocked in Hc. injection Hc as <- Ht. eapply exp_inv_sub; [done| |done].
    unfold ids_of. simpl. rewrite (tracked_delete_ids (tracked s) token), Ht. simpl.
    by rewrite <- Permutation_middle.
  - unfold claim, removeLocked in Hc. simplify_eq. eapply exp_inv_sub; [done| |done].
    unfold ids_of. simpl. by rewrite delete_id.
  - assert (Hdrop : exp_inv (mkExp s (l1 ++ l2))).
    { eapply exp_inv_sub; [done| |done]. unfold ids_of. simpl. rewrite Hcl, !fmap_app. simpl.
      apply submseteq_skips_l, submseteq_skips_r, submseteq_skips_l. by apply submseteq_cons. }
    unfold restore. destruct (closed s); [done|].
    destruct (tracked s !! token) eqn:Et; [done|].
    eapply exp_inv_sub; [exact Hi| |done]. unfold ids_of. simpl.
    rewrite tracked_insert_ids by done. rewrite Hcl, !fmap_app. simpl.
    rewrite <- !app_assoc. simpl. rewrite <- !Permutation_middle. done.
  - eapply exp_inv_sub; [done| |done]. unfold ids_of. simpl. rewrite Hac, !fmap_app. simpl.
    apply submseteq_skips_l, submseteq_skips_l. rewrite <- !app_assoc. simpl.
    apply submseteq_skips_l. by rewrite <- Permutation_middle.
  - unfold Close. destruct (closed s) eqn:E; [done|]. eapply exp_inv_sub; [done| |done].
    unfold ids_of. simpl. rewrite map_to_list_empty. simpl. apply submseteq_inserts_l. done.
Qed.

Lemma exp_init_inv i : exp_inv (mkExp (newSessionExpiryStore i) []).
Proof. unfold exp_inv, ids_of. simpl. rewrite map_to_list_empty. split; constructor. Qed.

(** Nothing starts being audited once the store is closed. *)
Lemma closed_step st st' :
  exp_step st st' → close_returns (est st) = true →
  close_returns (est st') = true ∧ audited (est st') = audited (est st).
Proof.
  unfold close_returns. intros Hs Hc. apply andb_prop in Hc as [Hc Hac].
  destruct (active (est st)) as [|? ?] eqn:Eac; [|done].
  destruct Hs as [[s cl] token data e now|[s cl] token|[s cl] token id now
    |[s cl] token s' t Hcl|[s cl] token s' Hcl|[s cl] token t l1 l2 Hcl|[s cl] c ok l1 l2 Hx
    |[s cl]]; simpl in *.
  - unfold Commit. rewrite Hc. simpl. by rewrite Hc, Eac.
  - unfold Delete. destruct (sDelete _ _); simpl; by rewrite Hc, Eac.
  - unfold expire. destruct (tracked s !! token); [rewrite Hc, orb_true_r|]; by rewrite Hc, Eac.
  - unfold claim, removeLocked in Hcl. simplify_eq. simpl. by rewrite Hc, Eac.
  - unfold claim, removeLocked in Hcl. simplify_eq. simpl. by rewrite Hc, Eac.
  - unfold restore. rewrite Hc. by rewrite Hc, Eac.
  - rewrite Eac in Hx. by destruct l1.
  - unfold Close. rewrite Hc. by rewrite Hc, Eac.
Qed.

(** ** Properties *)

(** a session's timeout is audited at most once. In every interleaving of
    commits, deletions, timer callbacks (late ones included), claims, restores
    and shutdown, no tracked session has two timeout events in the audit log, and
    a session with an event is neither tracked nor claimable any more. *)
Theorem timeout_audited_once i st :
  rtc exp_step (mkExp (newSessionExpiryStore i) []) st →
  NoDup (ev_id <$> audited (est st)) ∧
  ∀ token t, tracked (est st) !! token = Some t → t_id t ∉ ev_id <$> audited (est st).
Proof.
  intros Hr. assert (Hi : exp_inv st).
  { eapply rtc_invariant; [exact exp_step_inv|apply exp_init_inv|exact Hr]. }
  destruct Hi as [Hnd _]. unfold ids_of in Hnd.
  apply NoDup_app in Hnd as (_ & Hd & Hnd). apply NoDup_app in Hnd as (_ & _ & Hnd).
  apply NoDup_app in Hnd as (_ & _ & Hnd).
  split; [done|]. intros token t Ht Hin. eapply (Hd (t_id t)); [|by rewrite !elem_of_app; auto].
  apply list_elem_of_fmap_2. apply list_elem_of_fmap. exists (token, t).
  split; [done|]. by apply elem_of_map_to_list.
Qed.

(** once Close has returned (the store is closed and the wait group is empty)
    no timeout event reaches the audit sink, whatever timers still fire and
    whatever requests still run. *)
Theorem no_audit_after_close st st' :
  close_returns (est st) = true → rtc exp_step st st' →
  audited (est st') = audited (est st).
Proof.
  intros Hc Hr. induction Hr as [|s1 s2 s3 Hs _ IH]; [done|].
  destruct (closed_step _ _ Hs Hc) as [Hc2 Ha]. rewrite IH by done. done.
Qed.

(** a save that arrives at or after the session's deadline never revives it:
    it reports an error and, when the store accepts the deletion, the token is
    gone. *)
Theorem stale_commit_never_revives `{!ScsLaws S} s token data expiry now t :
  closed s = false → expiry <= now →
  snd (Commit s token data expiry now) = Some CleanupFailed ∨
  (snd (Commit s token data expiry now) = Some SessionExpired ∧
   Find (fst (Commit s token data expiry now)) token t = Some None ∧
   tracked (fst (Commit s token data expiry now)) !! token = None).
Proof.
  intros Hc He. unfold Commit. rewrite Hc. destruct (Z.ltb_spec now expiry); [lia|].
  simpl. unfold delete_inner. simpl. destruct (sDelete (inner s) token) as [i|] eqn:Ed.
  - right. destruct (tracked s !! token) as [c|]; simpl; (split; [done|]);
      (split; [by eapply find_deleted|apply lookup_delete_eq]).
  - left. by destruct (tracked s !! token).
Qed.
End store.

(** ** A concrete store

    A map from tokens to records with their expiry, as the in-memory store of scs
    keeps; sessions are stored unserialised. *)

Abbreviation memstore := (gmap string ((time * values) * time)).

#[export] Instance mem_scs : Scs := {
  raw := (time * values)%type;
  Encode d v := Some (d, v);
  Decode r := Some r;
  store := memstore;
  sFind s k t :=
    Some (match s !! k with Some (r, e) => if t <? e then Some r else None | None => None end);
  sCommit s k r e := Some (<[k := (r, e)]> s);
  sDelete s k := Some (delete k s);
  sAll s t := Some (omap (λ kv, match kv with (k, (r, e)) => if t <? e then Some (k, r) else None end)
                      (map_to_list s))
}.

#[export] Instance mem_scs_laws : ScsLaws mem_scs.
Proof.
  split; simpl.
  - congruence.
  - intros s s' k r e t [= <-] Ht. rewrite lookup_insert_eq. by destruct (Z.ltb_spec t e); [|lia].
  - intros s s' k t [= <-]. by rewrite lookup_delete_eq.
  - intros s s' k k' t [= <-] Hk. by rewrite lookup_delete_ne.
Qed.

Definition alice : User := mkUser "alice" false.

Definition alice_values : values :=
  <[sessionKey := VSession (mkSession (Some alice) 10 "10.0.0.1" "hash" ∅)]> ∅.

(** Committed, claimed and restored, then expired and audited. *)
Definition exp0 : exp_state := mkExp (newSessionExpiryStore (S := mem_scs) ∅) [].
Definition exp1 : exp_state :=
  mkExp (fst (Commit (S := mem_scs) (est exp0) "tok" (100, alice_values) 100 20)) [].
Definition exp2 : exp_state := mkExp (expire (est exp1) "tok" 0 100) [].
Definition alice_tracked : trackedSessionExpiry := mkTracked 0 alice "10.0.0.1" 100.
Definition exp3 : exp_state := mkExp (auditTimeout (est exp2) alice_tracked true []) [].
Definition exp4 : exp_state := mkExp (Close (est exp3)) [].

Lemma exp_run : rtc exp_step exp0 exp3.
Proof.
  eapply rtc_l; [apply (ex_commit exp0 "tok" (100, alice_values) 100 20)|].
  eapply rtc_l; [apply (ex_expire exp1 "tok" 0 100)|].
  eapply rtc_l; [|apply rtc_refl].
  apply (ex_audit exp2 alice_tracked true [] []). vm_compute. reflexivity.
Qed.

Lemma timeout_audited_once_witness :
  audited (est exp3) = [mkTimeout 0 alice "10.0.0.1" true] ∧
  NoDup (ev_id <$> audited (est exp3)).
Proof.
  split; [vm_compute; reflexivity|].
  apply (timeout_audited_once (S := mem_scs) ∅ exp3). exact exp_run.
Defined.

Lemma no_audit_after_close_witness :
  close_returns (est exp4) = true ∧
  audited (fst (Commit (est exp4) "tok" (100, alice_values) 100 200)) = audited (est exp4).
Proof.
  split; [vm_compute; reflexivity|].
  apply (no_audit_after_close (S := mem_scs) exp4
           (mkExp (fst (Commit (est exp4) "tok" (100, alice_values) 100 200)) [])).
  - vm_compute. reflexivity.
  - apply rtc_once. apply (ex_commit exp4 "tok" (100, alice_values) 100 200).
Defined.

Lemma stale_commit_never_revives_witness :
  snd (Commit (est exp1) "tok" (100, alice_values) 100 100) = Some SessionExpired ∧
  (snd (Commit (est exp1) "tok" (100, alice_values) 100 100) = Some CleanupFailed ∨
   (snd (Commit (est exp1) "tok" (100, alice_values) 100 100) = Some SessionExpired ∧
    Find (fst (Commit (est exp1) "tok" (100, alice_values) 100 100)) "tok" 50 = Some None ∧
    tracked (fst (Commit (est exp1) "tok" (100, alice_values) 100 100)) !! "tok" = None)).
Proof.
  split; [vm_compute; reflexivity|].
  apply (stale_commit_never_revives (S := mem_scs)); [vm_compute; reflexivity|lia].
Defined.
