(* ===== verification/Session.v ===== *)
(** * RDP connect grants and the life of a session

    [internal/session/rdp.go], the session half of [session.go] and
    [AuthorizeConnection] of [connection_authorization.go].  Every operation runs
    under [sessionsMu]; the clock readings it makes are arguments, in the order of
    the code.  A verifier is [sha256] of a token, with [sha256] a parameter; [random]
    is what [crypto/rand] delivers, [None] its error.  [Destroy] and [RenewToken] of
    scs are parameters that change the store. *)

From S2P Require Import Prelude GoStrings ClientIP SessionStore ConnRegistry.

Definition rdpConnectWindow : duration := 2 * Minute.

Record rdpTokenReference : Type := mkRef {
  sessionToken : string;
  vmName : string;
  user : User;
  clientIP : string;
  createdAt : time;
  expiresAt : time
}.

(** The request context: the session scs loaded for the request and its token,
    and the session [SessionMiddleware] attached. *)
Record context : Type := mkContext {
  ctx_scs : option value;
  ctx_token : string;
  ctx_huma : option sessionData
}.

(** [m.Get(ctx, sessionKey).(sessionData)] *)
Definition Get (ctx : context) : option sessionData :=
  match ctx_scs ctx with Some (VSession s) => Some s | _ => None end.

(** [hex.EncodeToString] *)
Definition hex_digit (n : Z) : ascii :=
  ascii_of_N (Z.to_N (if n <? 10 then 48 + n else 87 + n)).

Definition hex_EncodeToString (bs : list Z) : string :=
  of_chars (bs ≫= λ b, [hex_digit (b / 16); hex_digit (b mod 16)]).

Definition sameRDPSession (sess : sessionData) (u : User) (ip : string) (created : time) : bool :=
  match sUser sess with
  | Some su => bool_decide (su = u) && String.eqb (ClientIP sess) ip && (CreatedAt sess =? created)
  | None => false
  end.

Inductive grant_error : Type :=
| VmNameRequired | NoAuthenticatedSession | NoPersistedSession | LoadFailed | NoLongerActive
| DecodeFailed | Expired | SessionChanged | BadClientIP | RandomFailed | TokenCollision
| EncodeFailed | PersistFailed.

(** The clock readings of [loadRDPConnectGrant]: both [time.Now] calls, and the
    store's own reading between them. *)
Record load_clock : Type := mkClock { c_now1 : time; c_find : time; c_now2 : time }.

Section manager.
Context `{N : NetIP} `{S : Scs} (sha256 : string → string).

Record Manager : Type := mkManager {
  Store : sessionExpiryStore;
  rdpTokens : gmap string rdpTokenReference
}.

(** Third-party: [(store, true)] is success. *)
Context (Destroy RenewToken : sessionExpiryStore → string → sessionExpiryStore * bool).

Definition set_rdpTokens (m : Manager) (t : gmap string rdpTokenReference) : Manager :=
  mkManager (Store m) t.
Definition set_Store (m : Manager) (s : sessionExpiryStore) : Manager := mkManager s (rdpTokens m).

(** ** Granting *)

Definition newRDPConnectGrant (m : Manager) (random : option (list Z)) (now deadline : time) :
    result grant_error (string * rdpConnectGrant) :=
  match random with
  | None => Err RandomFailed
  | Some bs =>
      let token := hex_EncodeToString bs in
      let verifier := sha256 token in
      match rdpTokens m !! verifier with
      | Some _ => Err TokenCollision
      | None =>
          let expires := now + rdpConnectWindow in
          let expires := if Before deadline expires then deadline else expires in
          Ok (token, mkGrant verifier expires)
      end
  end.

(** [u] is [*sess.User], which [sameRDPSession] has compared with the caller. *)
Definition indexRDPConnectGrant (m : Manager) (token : string) (sess : sessionData) (u : User)
    (vm : string) (grant : rdpConnectGrant) (now : time) : Manager :=
  set_rdpTokens m
    (<[Verifier grant :=
         mkRef token vm u (ClientIP sess) (CreatedAt sess) (ExpiresAt grant)]>
      (filter (λ kv, negb (negb (Before now (expiresAt kv.2))
                           || String.eqb (sessionToken kv.2) token && String.eqb (vmName kv.2) vm)
                     = true)
         (rdpTokens m))).

Definition grantStoredRDPConnect (m : Manager) (token : string) (caller : sessionData)
    (callerUser : User) (vm : string) (random : option (list Z)) (t_find now t_commit : time) :
    Manager * result grant_error string :=
  match Find (Store m) token t_find with
  | None => (m, Err LoadFailed)
  | Some None => (m, Err NoLongerActive)
  | Some (Some raw) =>
      match Decode raw with
      | None => (m, Err DecodeFailed)
      | Some (deadline, values) =>
          if negb (Before now deadline) then (m, Err Expired)
          else
            match session_of values with
            | None => (m, Err SessionChanged)
            | Some sess =>
                if negb (sameRDPSession sess callerUser (ClientIP caller) (CreatedAt caller))
                then (m, Err SessionChanged)
                else
                  match CanonicalClientIP (ClientIP sess) with
                  | None => (m, Err BadClientIP)
                  | Some _ =>
                      match newRDPConnectGrant m random now deadline with
                      | Err e => (m, Err e)
                      | Ok (tok, grant) =>
                          let grants :=
                            <[vm := grant]>
                              (filter (λ kv, Before now (ExpiresAt kv.2) = true)
                                 (RDPConnectGrants sess)) in
                          let sess := mkSession (sUser sess) (CreatedAt sess) (ClientIP sess)
                                        (LoginPasswordHash sess) grants in
                          let values := <[sessionKey := VSession sess]> values in
                          match Encode deadline values with
                          | None => (m, Err EncodeFailed)
                          | Some encoded =>
                              let '(st, err) := Commit (Store m) token encoded deadline t_commit in
                              match err with
                              | Some _ => (set_Store m st, Err PersistFailed)
                              | None =>
                                  (indexRDPConnectGrant (set_Store m st) token sess callerUser vm grant now,
                                   Ok tok)
                              end
                          end
                      end
                  end
            end
      end
  end.

Definition GrantRDPConnect (m : Manager) (ctx : context) (vm : string) (random : option (list Z))
    (t_find now t_commit : time) : Manager * result grant_error string :=
  let vm := TrimSpace vm in
  if String.eqb vm "" then (m, Err VmNameRequired)
  else match Get ctx with
       | None => (m, Err NoAuthenticatedSession)
       | Some caller =>
           match sUser caller with
           | None => (m, Err NoAuthenticatedSession)
           | Some u =>
               if String.eqb (ctx_token ctx) "" then (m, Err NoPersistedSession)
               else grantStoredRDPConnect m (ctx_token ctx) caller u vm random t_find now t_commit
           end
       end.

(** ** Authorizing *)

(** [c] ranges over runes; the tests only accept ASCII ones. *)
Definition lower_hex (c : ascii) : bool := in_range 48 57 c || in_range 97 102 c.

Definition rdpTokenLookup (token ip : string) : option (string * string) :=
  if negb (len token =? 32) then None
  else if negb (forallb lower_hex (to_chars token)) then None
  else match CanonicalClientIP ip with
       | Some canonicalIP => Some (sha256 token, canonicalIP)
       | None => None
       end.

Definition removeSessionRDPTokenIndex (m : Manager) (token : string) : Manager :=
  set_rdpTokens m (filter (λ kv, sessionToken kv.2 ≠ token) (rdpTokens m)).

Definition forget (m : Manager) (verifier : string) : Manager :=
  set_rdpTokens m (delete verifier (rdpTokens m)).

Definition loadRDPConnectGrant (m : Manager) (verifier canonicalIP : string) (ck : load_clock) :
    Manager * option (rdpTokenReference * time * values * sessionData) :=
  match rdpTokens m !! verifier with
  | None => (m, None)
  | Some ref =>
      if negb (Before (c_now1 ck) (expiresAt ref)) then (forget m verifier, None)
      else if negb (String.eqb (clientIP ref) canonicalIP) then (m, None)
      else match Find (Store m) (sessionToken ref) (c_find ck) with
           | None => (m, None)
           | Some None => (removeSessionRDPTokenIndex m (sessionToken ref), None)
           | Some (Some raw) =>
               match Decode raw with
               | None => (m, None)
               | Some (deadline, values) =>
                   let now := c_now2 ck in
                   if negb (Before now deadline)
                   then (removeSessionRDPTokenIndex m (sessionToken ref), None)
                   else if negb (Before now (expiresAt ref)) then (forget m verifier, None)
                   else match session_of values with
                        | None => (removeSessionRDPTokenIndex m (sessionToken ref), None)
                        | Some sess =>
                            if negb (sameRDPSession sess (user ref) canonicalIP (createdAt ref))
                            then (removeSessionRDPTokenIndex m (sessionToken ref), None)
                            else match RDPConnectGrants sess !! vmName ref with
                                 | None => (forget m verifier, None)
                                 | Some grant =>
                                     if negb (Before now (ExpiresAt grant))
                                        || negb (String.eqb (Verifier grant) verifier)
                                     then (forget m verifier, None)
                                     else (m, Some (ref, deadline, values, sess))
                                 end
                        end
               end
           end
  end.

Definition RDPConnectTarget (m : Manager) (token ip : string) (ck : load_clock) :
    Manager * option string :=
  match rdpTokenLookup token ip with
  | None => (m, None)
  | Some (verifier, canonicalIP) =>
      let '(m, r) := loadRDPConnectGrant m verifier canonicalIP ck in
      (m, (λ '(ref, _, _, _), vmName ref) <$> r)
  end.

(** [g] is the connection registry when the ticket is captured, at time [t0],
    before [sessionsMu] is taken. *)
Definition AuthorizeRDPConnection (g : registry) (m : Manager) (token username ip vm : string)
    (t0 : time) (ck : load_clock) (t_commit : time) : Manager * option ConnectionAuthorization :=
  let username := TrimSpace username in
  let vm := TrimSpace vm in
  match rdpTokenLookup token ip with
  | None => (m, None)
  | Some (verifier, canonicalIP) =>
      if String.eqb username "" || String.eqb vm "" then (m, None)
      else
        let authorization := connectionAuthorization g username t0 in
        let '(m, r) := loadRDPConnectGrant m verifier canonicalIP ck in
        match r with
        | None => (m, None)
        | Some (ref, deadline, values, sess) =>
            if negb (String.eqb (Name (user ref)) username) || negb (String.eqb (vmName ref) vm)
            then (m, None)
            else
              let sess := mkSession (sUser sess) (CreatedAt sess) (ClientIP sess)
                            (LoginPasswordHash sess) (delete vm (RDPConnectGrants sess)) in
              let values := <[sessionKey := VSession sess]> values in
              match Encode deadline values with
              | None => (m, None)
              | Some encoded =>
                  let '(st, err) := Commit (Store m) (sessionToken ref) encoded deadline t_commit in
                  match err with
                  | Some _ => (set_Store m st, None)
                  | None =>
                      (forget (set_Store m st) verifier,
                       Some (mkAuth (a_manager authorization) (a_username authorization)
                               (a_generation authorization) deadline))
                  end
              end
        end
  end.

Definition ConsumeRDPConnectGrant (g : registry) (m : Manager) (token username ip vm : string)
    (t0 : time) (ck : load_clock) (t_commit : time) : Manager * bool :=
  let '(m, r) := AuthorizeRDPConnection g m token username ip vm t0 ck t_commit in
  (m, match r with Some _ => true | None => false end).

(** ** The life of a session *)

(** [CreateSession]: [new_token] is the token [RenewToken] puts in the context.
    The session is saved by [LoadAndSave] when the response is written. *)
Definition CreateSession (m : Manager) (ctx : context) (new_token : string) (u : option User)
    (ip hash : string) (now : time) : Manager * option context :=
  let oldToken := ctx_token ctx in
  let '(st, ok) := RenewToken (Store m) oldToken in
  let m := set_Store m st in
  if negb ok then (m, None)
  else
    (removeSessionRDPTokenIndex m oldToken,
     Some (mkContext (Some (VSession (mkSession u now (default "" (CanonicalClientIP ip)) hash ∅)))
             new_token (ctx_huma ctx))).

(** [getSession], and [m.Get] with the nil check of its other callers. *)
Definition getSession (ctx : context) : option sessionData :=
  match Get ctx with
  | Some s => match sUser s with Some _ => Some s | None => None end
  | None => None
  end.

Definition UserFromContext (ctx : context) : option User :=
  match Get ctx ≫= sUser with
  | Some u => Some u
  | None => ctx_huma ctx ≫= sUser
  end.

Definition hash_of (s : sessionData) : option string :=
  match sUser s with
  | Some _ => if String.eqb (LoginPasswordHash s) "" then None else Some (LoginPasswordHash s)
  | None => None
  end.

Definition PasswordHashFromContext (ctx : context) : option string :=
  match Get ctx ≫= hash_of with
  | Some h => Some h
  | None => ctx_huma ctx ≫= hash_of
  end.

Definition allSessions (m : Manager) (now : time) : list sessionData :=
  match All (Store m) now with
  | None => []
  | Some sessions => omap (λ '(_, r), match Decode r with
                                      | Some (_, values) => session_of values
                                      | None => None
                                      end) sessions
  end.

Definition named (username : string) (s : sessionData) : bool :=
  match sUser s with Some u => String.eqb (Name u) username | None => false end.

Definition getSessionFromUserName (m : Manager) (username : string) (now : time) :
    option sessionData :=
  let username := TrimSpace username in
  if String.eqb username "" then None
  else List.find (named username) (allSessions m now).

Definition UserHasActiveSessionFromIP (m : Manager) (username ip : string) (now : time) : bool :=
  let username := TrimSpace username in
  if String.eqb username "" then false
  else match CanonicalClientIP ip with
       | None => false
       | Some canonicalIP =>
           existsb (λ s, named username s && String.eqb (ClientIP s) canonicalIP) (allSessions m now)
       end.

Definition DestroySession (m : Manager) (ctx : context) : Manager * bool :=
  let token := ctx_token ctx in
  let '(st, ok) := Destroy (Store m) token in
  let m := set_Store m st in
  if ok then (removeSessionRDPTokenIndex m token, true) else (m, false).

(** [(claimed, success)] *)
Definition invalidateSession (m : Manager) (ctx : context) : Manager * (bool * bool) :=
  let token := ctx_token ctx in
  let '(st, tr) := claim (Store m) token in
  let claimed := match tr with Some _ => true | None => false end in
  let '(st, ok) := Destroy st token in
  if ok then (removeSessionRDPTokenIndex (set_Store m st) token, (claimed, true))
  else (set_Store m (restore st token tr), (claimed, false)).

(** One round of the loop of [DestroyAllSessionsForUser]; the flag is whether no
    deletion has failed yet. *)
Definition destroy_one (username : string) (acc : Manager * bool) (kv : string * raw) :
    Manager * bool :=
  let '(m, ok) := acc in
  match Decode (snd kv) with
  | None => acc
  | Some (_, values) =>
      match session_of values with
      | None => acc
      | Some sess =>
          if negb (named username sess) then acc
          else let '(st, deleted) := Delete (Store m) (fst kv) in
               if negb deleted then (set_Store m st, false)
               else (removeSessionRDPTokenIndex (set_Store m st) (fst kv), ok)
      end
  end.

Definition DestroyAllSessionsForUser (m : Manager) (username : string) (now : time) : Manager * bool :=
  let username := TrimSpace username in
  if String.eqb username "" then (m, true)
  else match All (Store m) now with
       | None => (m, false)
       | Some sessions => fold_left (destroy_one username) sessions (m, true)
       end.

(** [enforceClientIP]: whether the request goes on, and the audit event, with the
    address it came from. *)
Definition enforceClientIP (m : Manager) (ctx : context) (remoteAddr : string) (sess : sessionData) :
    Manager * bool * option (option User * string * bool) :=
  let ip := CanonicalClientIP remoteAddr in
  if bool_decide (ip = Some (ClientIP sess)) then (m, true, None)
  else
    let '(m, (claimed, ok)) := invalidateSession m ctx in
    (m, ok, if claimed then Some (sUser sess, default "" ip, ok) else None).

(** [EnforceClientIP]: [true] is a call of the next handler. *)
Definition EnforceClientIP (m : Manager) (ctx : context) (remoteAddr : string) :
    Manager * bool * option (option User * string * bool) :=
  match getSession ctx with
  | None => (m, true, None)
  | Some sess => enforceClientIP m ctx remoteAddr sess
  end.

(** [SessionMiddleware]: [None] is a redirection to the login page. *)
Definition SessionMiddleware (ctx : context) : option context :=
  match getSession ctx with
  | None => None
  | Some sess => Some (mkContext (ctx_scs ctx) (ctx_token ctx) (Some sess))
  end.

(** [g] is the registry when the ticket is captured at [t0]. *)
Definition AuthorizeConnection (g : registry) (m : Manager) (ctx : context) (t0 t_find now : time) :
    option ConnectionAuthorization :=
  match UserFromContext ctx with
  | None => None
  | Some u =>
      let authorization := connectionAuthorization g (Name u) t0 in
      match Find (Store m) (ctx_token ctx) t_find with
      | None | Some None => None
      | Some (Some raw) =>
          match Decode raw with
          | None => None
          | Some (deadline, values) =>
              if negb (Before now deadline) then None
              else match session_of values with
                   | None => None
                   | Some sess =>
                       if negb (named (Name u) sess) then None
                       else Some (mkAuth (a_manager authorization) (a_username authorization)
                                    (a_generation authorization) deadline)
                   end
          end
      end
  end.

(** [Close] *)
Definition Manager_Close (m : Manager) : Manager := set_Store m (Close (Store m)).

(** ** Runs

    What clients observe: a token granted (its verifier, the session it was granted
    to, the VM, the user, the address, the time) and an authorization given (the
    verifier, user, address and VM presented, and the last clock reading).  Between
    the operations the store may change in any way: requests that save their
    session snapshot, timers, other administrators. *)

Inductive rdp_event : Type :=
| EGrant (v tok vm : string) (u : User) (ip : string) (at_ : time)
| EAuth (v username ip vm : string) (at_ : time).

Record rdp_state : Type := mkRdp { mgr : Manager; log : list rdp_event (** newest first *) }.

Inductive rdp_step : rdp_state → rdp_state → Prop :=
| rd_grant st ctx vm random tf now tc m' tok caller u :
    GrantRDPConnect (mgr st) ctx vm random tf now tc = (m', Ok tok) →
    Get ctx = Some caller → sUser caller = Some u →
    rdp_step st (mkRdp m' (EGrant (sha256 tok) (ctx_token ctx) (TrimSpace vm) u (ClientIP caller) now
                           :: log st))
| rd_grant_refused st ctx vm random tf now tc m' e :
    GrantRDPConnect (mgr st) ctx vm random tf now tc = (m', Err e) →
    rdp_step st (mkRdp m' (log st))
| rd_authorize st g token username ip vm t0 ck tc m' a canonicalIP :
    AuthorizeRDPConnection g (mgr st) token username ip vm t0 ck tc = (m', Some a) →
    CanonicalClientIP ip = Some canonicalIP →
    rdp_step st (mkRdp m' (EAuth (sha256 token) (TrimSpace username) canonicalIP (TrimSpace vm)
                             (c_now2 ck) :: log st))
| rd_authorize_refused st g token username ip vm t0 ck tc m' :
    AuthorizeRDPConnection g (mgr st) token username ip vm t0 ck tc = (m', None) →
    rdp_step st (mkRdp m' (log st))
| rd_target st token ip ck :
    rdp_step st (mkRdp (fst (RDPConnectTarget (mgr st) token ip ck)) (log st))
| rd_create st ctx new u ip hash now :
    rdp_step st (mkRdp (fst (CreateSession (mgr st) ctx new u ip hash now)) (log st))
| rd_destroy st ctx : rdp_step st (mkRdp (fst (DestroySession (mgr st) ctx)) (log st))
| rd_invalidate st ctx : rdp_step st (mkRdp (fst (invalidateSession (mgr st) ctx)) (log st))
| rd_destroy_all st username now :
    rdp_step st (mkRdp (fst (DestroyAllSessionsForUser (mgr st) username now)) (log st))
| rd_store st s : rdp_step st (mkRdp (set_Store (mgr st) s) (log st)).

Definition rdp_init (s : sessionExpiryStore) : rdp_state := mkRdp (mkManager s ∅) [].

Definition grants_of (v : string) (l : list rdp_event) : nat :=
  length (List.filter (λ e, match e with EGrant v' _ _ _ _ _ => String.eqb v' v | _ => false end) l).
Definition auths_of (v : string) (l : list rdp_event) : nat :=
  length (List.filter (λ e, match e with EAuth v' _ _ _ _ => String.eqb v' v | _ => false end) l).

Lemma sameRDPSession_spec sess u ip c :
  sameRDPSession sess u ip c = true →
  sUser sess = Some u ∧ ClientIP sess = ip ∧ CreatedAt sess = c.
Proof.
  unfold sameRDPSession. intros H. destruct (sUser sess); [|done]. bool_props.
  split_and!; [f_equal; by eapply bool_decide_eq_true_1|by apply String.eqb_eq|done].
Qed.

(** *** What one operation does to the index *)

Lemma load_shape m v ip ck m' r :
  loadRDPConnectGrant m v ip ck = (m', r) →
  Store m' = Store m ∧ rdpTokens m' ⊆ rdpTokens m ∧
  ∀ ref d vals sess, r = Some (ref, d, vals, sess) →
    m' = m ∧ rdpTokens m !! v = Some ref ∧ clientIP ref = ip ∧
    c_now2 ck < expiresAt ref ∧ c_now2 ck < d ∧ sUser sess = Some (user ref) ∧
    session_of vals = Some sess.
Proof.
  assert (Hf : ∀ t : string, filter (λ kv : string * rdpTokenReference, sessionToken kv.2 ≠ t) (rdpTokens m)
    ⊆ rdpTokens m) by (intros; apply map_filter_subseteq).
  assert (Hd : delete v (rdpTokens m) ⊆ rdpTokens m) by apply delete_subseteq.
  unfold loadRDPConnectGrant, removeSessionRDPTokenIndex, forget, set_rdpTokens. intros H.
  repeat (go_case_in H; simplify_eq/=; try (by split_and!)).
  split_and!; [done..|]. intros. simplify_eq. unfold Before in *. bool_props.
  repeat match goal with
  | H : sameRDPSession _ _ _ _ = true |- _ => apply sameRDPSession_spec in H as (? & ? & ?)
  | H : String.eqb _ _ = true |- _ => apply String.eqb_eq in H
  end. split_and!; done || lia.
Qed.

Lemma authorize_shape g m token username ip vm t0 ck tc m' r :
  AuthorizeRDPConnection g m token username ip vm t0 ck tc = (m', r) →
  rdpTokens m' ⊆ rdpTokens m ∧
  ∀ a, r = Some a → ∃ canonicalIP ref,
    CanonicalClientIP ip = Some canonicalIP ∧ rdpTokens m !! sha256 token = Some ref ∧
    clientIP ref = canonicalIP ∧ Name (user ref) = TrimSpace username ∧
    vmName ref = TrimSpace vm ∧ c_now2 ck < expiresAt ref ∧
    rdpTokens m' = delete (sha256 token) (rdpTokens m).
Proof.
  unfold AuthorizeRDPConnection, rdpTokenLookup. intros H.
  destruct (negb (len token =? 32)); [by simplify_eq|].
  destruct (negb (forallb _ _)); [by simplify_eq|].
  destruct (CanonicalClientIP ip) as [cip|]; [|by simplify_eq].
  destruct (_ || _) eqn:?; [by simplify_eq|].
  destruct (loadRDPConnectGrant m (sha256 token) cip ck) as [m1 r1] eqn:El.
  apply load_shape in El as (Hst & Hsub & Hsome).
  destruct r1 as [[[[ref d] vals] sess]|]; [|by simplify_eq].
  destruct (Hsome _ _ _ _ eq_refl) as (-> & Hv & Hip & Hexp & _).
  destruct (negb (String.eqb (Name (user ref)) _) || _) eqn:Hn; [by simplify_eq|].
  apply orb_false_iff in Hn as [Hn1 Hn2]. bool_props.
  apply String.eqb_eq in Hn1, Hn2.
  destruct (Encode _ _); [|by simplify_eq]. destruct (Commit _ _ _ _ _) as [st [e|]]; simplify_eq/=.
  - done.
  - split; [apply delete_subseteq|]. intros ? _. exists (clientIP ref), ref. by split_and!.
Qed.

Lemma grant_shape m ctx vm random tf now tc m' r :
  GrantRDPConnect m ctx vm random tf now tc = (m', r) →
  (∀ e, r = Err e → rdpTokens m' = rdpTokens m) ∧
  ∀ tok, r = Ok tok → ∃ caller u exp,
    Get ctx = Some caller ∧ sUser caller = Some u ∧
    rdpTokens m !! sha256 tok = None ∧ now < exp <= now + rdpConnectWindow ∧
    rdpTokens m' !! sha256 tok =
      Some (mkRef (ctx_token ctx) (TrimSpace vm) u (ClientIP caller) (CreatedAt caller) exp) ∧
    delete (sha256 tok) (rdpTokens m') ⊆ rdpTokens m.
Proof.
  unfold GrantRDPConnect. intros H. destruct (String.eqb _ ""); [by simplify_eq|].
  destruct (Get ctx) as [caller|]; [|by simplify_eq]. destruct (sUser caller) as [u|] eqn:Hu; [|by simplify_eq].
  destruct (String.eqb (ctx_token ctx) ""); [by simplify_eq|].
  unfold grantStoredRDPConnect in H.
  destruct (Find _ _ _) as [[raw0|]|]; [|by simplify_eq..].
  destruct (Decode raw0) as [[d vals]|]; [|by simplify_eq].
  destruct (negb (Before now d)) eqn:Hd; [by simplify_eq|].
  destruct (session_of vals) as [sess|]; [|by simplify_eq].
  destruct (negb (sameRDPSession _ _ _ _)) eqn:Hs; [by simplify_eq|].
  destruct (CanonicalClientIP (ClientIP sess)); [|by simplify_eq].
  unfold newRDPConnectGrant in H.
  destruct random as [bs|]; [|by simplify_eq].
  destruct (rdpTokens m !! sha256 (hex_EncodeToString bs)) eqn:Hfresh; [by simplify_eq|].
  destruct (Encode _ _); [|by simplify_eq]. destruct (Commit _ _ _ _ _) as [st [e|]]; simplify_eq/=; [done|].
  split; [done|]. intros tok [= <-]. bool_props. apply sameRDPSession_spec in Hs as (_ & Hip & Hcr).
  unfold Before in *. bool_props.
  eexists caller, u, _. split_and!; [done..| | | |].
  3: { rewrite lookup_insert_eq, Hip, Hcr. done. }
  - destruct (_ <? _) eqn:?; bool_props; unfold rdpConnectWindow, Minute, Second; lia.
  - destruct (_ <? _) eqn:?; bool_props; lia.
  - rewrite delete_insert_eq. etrans; [apply delete_subseteq|apply map_filter_subseteq].
Qed.

Lemma destroy_one_sub u m ok kv : rdpTokens (fst (destroy_one u (m, ok) kv)) ⊆ rdpTokens m.
Proof.
  unfold destroy_one. repeat (go_case; simplify_eq/=; try done). apply map_filter_subseteq.
Qed.

Lemma destroy_all_sub m username now :
  rdpTokens (fst (DestroyAllSessionsForUser m username now)) ⊆ rdpTokens m.
Proof.
  unfold DestroyAllSessionsForUser. destruct (String.eqb _ ""); [done|].
  destruct (All (Store m) now) as [l|]; [|done].
  assert (Hg : ∀ l acc, rdpTokens (fst (fold_left (destroy_one (TrimSpace username)) l acc))
                        ⊆ rdpTokens (fst acc)); [|exact (Hg l (m, true))].
  clear. induction l as [|kv l IH]; intros [m ok]; [done|]. simpl. etrans; [apply IH|].
  apply destroy_one_sub.
Qed.

(** Every step but a grant only shrinks the index. *)
Lemma rdp_step_cases st st' :
  rdp_step st st' →
  (rdpTokens (mgr st') ⊆ rdpTokens (mgr st) ∧ log st' = log st) ∨
  (∃ v tok vm u ip t0 created exp, log st' = EGrant v tok vm u ip t0 :: log st ∧
     rdpTokens (mgr st) !! v = None ∧ exp <= t0 + rdpConnectWindow ∧
     rdpTokens (mgr st') !! v = Some (mkRef tok vm u ip created exp) ∧
     delete v (rdpTokens (mgr st')) ⊆ rdpTokens (mgr st)) ∨
  (∃ v username ip vm t ref, log st' = EAuth v username ip vm t :: log st ∧
     rdpTokens (mgr st) !! v = Some ref ∧ clientIP ref = ip ∧ Name (user ref) = username ∧
     vmName ref = vm ∧ t < expiresAt ref ∧ rdpTokens (mgr st') = delete v (rdpTokens (mgr st))).
Proof.
  destruct 1 as [st ctx vm random tf now tc m' tok caller u Hg Hc Hu|st ctx vm random tf now tc m' e Hg
    |st g token username ip vm t0 ck tc m' a cip Ha Hip|st g token username ip vm t0 ck tc m' Ha
    |st token ip ck|st ctx new u ip hash now|st ctx|st ctx|st username now|st s]; simpl.
  - right; left. apply grant_shape in Hg as [_ Hg].
    destruct (Hg _ eq_refl) as (c' & u' & exp & Hc' & Hu' & Hn & He & Hl & Hd).
    rewrite Hc in Hc'. injection Hc' as <-. rewrite Hu in Hu'. injection Hu' as <-.
    eexists _, _, _, _, _, _, _, exp. split_and!; [done|done|lia|done|done].
  - left. apply grant_shape in Hg as [Hg _]. by rewrite (Hg e eq_refl).
  - right; right. apply authorize_shape in Ha as [_ Ha].
    destruct (Ha _ eq_refl) as (cip' & ref & Hip' & Hr & Hi & Hn & Hv & Ht & Hd).
    rewrite Hip in Hip'. injection Hip' as <-. eexists _, _, _, _, _, ref. by split_and!.
  - left. by apply authorize_shape in Ha as [Ha _].
  - left. split; [|done]. unfold RDPConnectTarget. destruct (rdpTokenLookup token ip) as [[v cip]|]; [|done].
    destruct (loadRDPConnectGrant _ v cip ck) as [m1 r1] eqn:El. by apply load_shape in El as (_ & Hl & _).
  - left. split; [|done]. unfold CreateSession. destruct (RenewToken _ _) as [s [|]]; simpl; [|done].
    apply map_filter_subseteq.
  - left. split; [|done]. unfold DestroySession. destruct (Destroy _ _) as [s [|]]; simpl; [|done].
    apply map_filter_subseteq.
  - left. split; [|done]. unfold invalidateSession. destruct (claim _ _) as [s tr].
    destruct (Destroy _ _) as [s2 [|]]; simpl; [|done]. apply map_filter_subseteq.
  - left. split; [|done]. apply destroy_all_sub.
  - by left.
Qed.

(** *** The invariant: every indexed token was granted and is not spent yet *)

Definition granted (l : list rdp_event) (v : string) (ref : rdpTokenReference) : Prop :=
  ∃ t0, EGrant v (sessionToken ref) (vmName ref) (user ref) (clientIP ref) t0 ∈ l ∧
        expiresAt ref <= t0 + rdpConnectWindow.

Definition indexed (m : Manager) (v : string) : nat :=
  match rdpTokens m !! v with Some _ => 1%nat | None => 0%nat end.

Record rdp_inv (st : rdp_state) : Prop := {
  ri_granted v ref : rdpTokens (mgr st) !! v = Some ref → granted (log st) v ref;
  ri_count v : (auths_of v (log st) + indexed (mgr st) v <= grants_of v (log st))%nat
}.

Lemma indexed_mono m m' v : rdpTokens m' ⊆ rdpTokens m → (indexed m' v <= indexed m v)%nat.
Proof.
  intros Hs. unfold indexed. destruct (rdpTokens m' !! v) as [r|] eqn:E; [|lia].
  by rewrite (lookup_weaken _ _ _ _ E Hs).
Qed.

Lemma granted_cons l e v ref : granted l v ref → granted (e :: l) v ref.
Proof. intros (t0 & Hin & He). exists t0. split; [|done]. by apply list_elem_of_further. Qed.

Lemma rdp_step_inv st st' : rdp_step st st' → rdp_inv st → rdp_inv st'.
Proof.
  intros Hs [Hg Hc]. destruct (rdp_step_cases _ _ Hs) as
    [[Hsub Hl]|[(v & tok & vm & u & ip & t0 & cr & exp & Hl & Hn & He & Hv & Hd)
    |(v & un & ip & vm & t & ref & Hl & Hv & _ & _ & _ & _ & Hd)]]; split; intros v0; rewrite Hl.
  - intros ref Hr. apply Hg. by eapply lookup_weaken.
  - specialize (Hc v0). pose proof (indexed_mono _ _ v0 Hsub). lia.
  - intros ref Hr. destruct (decide (v0 = v)) as [->|Hne].
    + rewrite Hv in Hr. injection Hr as <-. exists t0. split; [by apply list_elem_of_here|done].
    + apply granted_cons, Hg. eapply lookup_weaken; [|exact Hd]. by rewrite lookup_delete_ne.
  - specialize (Hc v0). unfold grants_of, auths_of in *. simpl. unfold indexed in *.
    destruct (String.eqb_spec v v0) as [->|Hne]; simpl.
    + rewrite Hv. rewrite Hn in Hc. lia.
    + destruct (rdpTokens (mgr st') !! v0) as [r|] eqn:E; [|lia].
      rewrite (lookup_weaken (delete v (rdpTokens (mgr st'))) _ v0 r) in Hc; [lia| |done].
      by rewrite lookup_delete_ne.
  - intros r Hr. apply granted_cons, Hg. rewrite Hd in Hr. by apply lookup_delete_Some in Hr as [_ Hr].
  - specialize (Hc v0). unfold grants_of, auths_of in *. simpl. unfold indexed in *. rewrite Hd.
    destruct (String.eqb_spec v v0) as [->|Hne]; simpl.
    + rewrite lookup_delete_eq. rewrite Hv in Hc. lia.
    + by rewrite lookup_delete_ne.
Qed.

Lemma rdp_reachable_inv s st : rtc rdp_step (rdp_init s) st → rdp_inv st.
Proof.
  apply rtc_invariant; [exact rdp_step_inv|]. split; simpl; [done|].
  intros v. unfold indexed. simpl. done.
Qed.

(** Every authorization in the log rests on a grant before it. *)
Definition log_sound (l : list rdp_event) : Prop :=
  ∀ l1 v username ip vm t l2, l = l1 ++ EAuth v username ip vm t :: l2 →
    ∃ tok u t0, EGrant v tok vm u ip t0 ∈ l2 ∧ Name u = username ∧ t < t0 + rdpConnectWindow.

Lemma log_sound_cons e l :
  log_sound l →
  (∀ v username ip vm t, e = EAuth v username ip vm t →
    ∃ tok u t0, EGrant v tok vm u ip t0 ∈ l ∧ Name u = username ∧ t < t0 + rdpConnectWindow) →
  log_sound (e :: l).
Proof.
  intros Hl He [|e' l1] v un ip vm t l2 H; simplify_eq/=; [by eapply He|by eapply Hl].
Qed.

Lemma log_sound_step st st' :
  rdp_step st st' → rdp_inv st → log_sound (log st) → log_sound (log st').
Proof.
  intros Hs [Hg _] Hl. destruct (rdp_step_cases _ _ Hs) as
    [[_ ->]|[(v & tok & vm & u & ip & t0 & cr & exp & -> & _)
    |(v & un & ip & vm & t & ref & -> & Hv & Hip & Hn & Hvm & Ht & _)]]; [done|..];
    apply log_sound_cons; try done.
  intros ? ? ? ? ? [= <- <- <- <- <-]. destruct (Hg _ _ Hv) as (t0 & Hin & He). subst.
  exists (sessionToken ref), (user ref), t0. split_and!; [done|done|lia].
Qed.

(** C18: an RDP token opens at most one connection. In every interleaving of grants,
    authorizations (successful or not), target lookups, logins, logouts and
    arbitrary changes of the session store, the number of authorizations given
    against a token's verifier never exceeds the number of times it was granted. *)
Theorem rdp_token_single_use s st v :
  rtc rdp_step (rdp_init s) st → (auths_of v (log st) <= grants_of v (log st))%nat.
Proof. intros Hr. pose proof (ri_count _ (rdp_reachable_inv _ _ Hr) v). lia. Qed.

(** C19: an authorization is never given to anybody but the holder of a grant: it
    follows a grant of the same token for the same virtual machine, to the user
    presented, bound to the client address it comes from, less than two minutes
    before. *)
Theorem rdp_authorization_sound s st l1 v username ip vm t l2 :
  rtc rdp_step (rdp_init s) st → log st = l1 ++ EAuth v username ip vm t :: l2 →
  ∃ tok u t0, EGrant v tok vm u ip t0 ∈ l2 ∧ Name u = username ∧ t < t0 + rdpConnectWindow.
Proof.
  intros Hr. assert (H : rdp_inv st ∧ log_sound (log st)).
  { revert Hr. apply (rtc_invariant rdp_step (λ st, rdp_inv st ∧ log_sound (log st))).
    - intros x y Hs [Hi Hl]. split; [by eapply rdp_step_inv|by eapply log_sound_step].
    - split; [apply (rdp_reachable_inv s); apply rtc_refl|]. intros [|? ?]; done. }
  destruct H as [_ Hl]. intros Heq. by eapply Hl.
Qed.

(** No entry of the index belongs to session [tok]. *)
Definition unindexed (tok : string) (m : Manager) : Prop :=
  ∀ v ref, rdpTokens m !! v = Some ref → sessionToken ref ≠ tok.

Lemma remove_unindexed m tok : unindexed tok (removeSessionRDPTokenIndex m tok).
Proof. intros v ref [_ Hr]%map_lookup_filter_Some. done. Qed.

Lemma sub_unindexed m m' tok : unindexed tok m → rdpTokens m' ⊆ rdpTokens m → unindexed tok m'.
Proof. intros Hu Hs v ref Hr. eapply Hu. by eapply lookup_weaken. Qed.

(** The log of [st'] extends that of [st] by [new], with no grant for [tok]. *)
Definition no_grant_for (tok : string) (new : list rdp_event) : Prop :=
  Forall (λ e, match e with EGrant _ tok' _ _ _ _ => tok' ≠ tok | _ => True end) new.

Lemma unindexed_run tok st st' :
  rtc rdp_step st st' → rdp_inv st → unindexed tok (mgr st) →
  ∃ new, log st' = new ++ log st ∧
    (no_grant_for tok new →
     unindexed tok (mgr st') ∧
     ∀ v username ip vm t, EAuth v username ip vm t ∈ new →
       ∃ tok' u t0, EGrant v tok' vm u ip t0 ∈ log st' ∧ tok' ≠ tok).
Proof.
  intros Hr Hi Hu. pattern st'. eapply rtc_ind_r; [| |exact Hr]; clear st' Hr.
  { exists []. split; [done|]. intros _. split; [done|]. intros ? ? ? ? ? H. by apply elem_of_nil in H. }
  intros st2 st3 Hs Hr (new & Hlog & Hnew).
  assert (Hi2 : rdp_inv st2) by (eapply (rtc_invariant _ rdp_inv _ _ rdp_step_inv); done).
  destruct (rdp_step_cases _ _ Hr) as
    [[Hsub Hl]|[(v & tk & vm & u & ip & t0 & cr & exp & Hl & Hn & He & Hv & Hd)
    |(v & un & ip & vm & t & ref & Hl & Hv & Hip & Hnm & Hvm & Ht & Hd)]].
  - exists new. rewrite Hl. split; [done|]. intros Hng. destruct (Hnew Hng) as [Hu2 Ha].
    split; [by eapply sub_unindexed|done].
  - exists (EGrant v tk vm u ip t0 :: new). rewrite Hl, Hlog. split; [done|].
    intros [Hne Hng]%Forall_cons. destruct (Hnew Hng) as [Hu2 Ha]. split.
    + intros v0 r Hr0. destruct (decide (v0 = v)) as [->|Hnv].
      * rewrite Hv in Hr0. by injection Hr0 as <-.
      * eapply Hu2, (lookup_weaken _ _ v0 r); [|exact Hd]. by rewrite lookup_delete_ne.
    + intros v1 un1 ip1 vm1 t1 [?|Hin]%elem_of_cons; [done|].
      destruct (Ha _ _ _ _ _ Hin) as (tk' & u' & t' & Hin' & Hne'). rewrite Hlog in Hin'.
      exists tk', u', t'. split; [by apply list_elem_of_further|done].
  - exists (EAuth v un ip vm t :: new). rewrite Hl, Hlog. split; [done|].
    intros [_ Hng]%Forall_cons. destruct (Hnew Hng) as [Hu2 Ha]. split.
    + eapply sub_unindexed; [exact Hu2|]. rewrite Hd. apply delete_subseteq.
    + intros v1 un1 ip1 vm1 t1 [Heq|Hin]%elem_of_cons.
      * injection Heq as -> -> -> -> ->. destruct (ri_granted _ Hi2 _ _ Hv) as (t0 & Hin & _).
        rewrite Hlog in Hin. subst.
        exists (sessionToken ref), (user ref), t0. split; [by apply list_elem_of_further|by eapply Hu2].
      * destruct (Ha _ _ _ _ _ Hin) as (tk' & u' & t' & Hin' & Hne'). rewrite Hlog in Hin'.
        exists tk', u', t'. split; [by apply list_elem_of_further|done].
Qed.


(** *** A granted token works, once *)

Lemma hex_digit_ok n : 0 <= n < 16 → lower_hex (hex_digit n) = true.
Proof.
  intros Hn. unfold hex_digit, lower_hex, in_range, code.
  destruct (Z.ltb_spec n 10); rewrite N_ascii_embedding by lia; rewrite Z2N.id by lia; apply orb_true_iff; [left|right]; apply andb_true_iff; lia.
Qed.

Lemma hex_token_ok bs :
  Forall (λ b, 0 <= b < 256) bs →
  len (hex_EncodeToString bs) = 2 * Z.of_nat (length bs) ∧
  forallb lower_hex (to_chars (hex_EncodeToString bs)) = true.
Proof.
  unfold hex_EncodeToString, len. intros Hb. rewrite <- length_to_chars, to_of_chars.
  induction Hb as [|b bs Hb _ [IHl IHf]]; [done|].
  cbn [mbind list_bind app length forallb].
  fold (mbind (M := list) (λ b, [hex_digit (b / 16); hex_digit (b mod 16)]) bs).
  rewrite IHf. rewrite !hex_digit_ok; [split; [cbn [length]; lia|done]| |].
  - apply Z.mod_pos_bound. lia.
  - split; [apply Z.div_pos; lia|apply Z.div_lt_upper_bound; lia].
Qed.

Lemma Commit_ok `{!ScsLaws S} s token data expiry now s' :
  Commit s token data expiry now = (s', None) →
  closed s' = false ∧ ∀ t, t < expiry → Find s' token t = Some (Some data).
Proof.
  unfold Commit, Find. intros H. destruct (closed s) eqn:Ec; [done|].
  destruct (negb (now <? expiry)); [by go_cases_in H|].
  destruct (sCommit (inner s) token data expiry) as [i|] eqn:Es; [|done].
  destruct (decodeTrackedSession data expiry (fresh s)) as [[t|]|]; simplify_eq/=;
    (split; [done|intros; by eapply find_committed]).
Qed.

Lemma Commit_live s token data expiry now :
  closed s = false → now < expiry → is_Some (sCommit (inner s) token data expiry) →
  snd (Commit s token data expiry now) = None.
Proof.
  intros Hc Hn [i Hi]. unfold Commit. rewrite Hc, Hi. destruct (Z.ltb_spec now expiry); [|lia].
  simpl. by destruct (decodeTrackedSession _ _ _) as [[?|]|].
Qed.

(** What a successful grant leaves in the store. *)
Lemma grant_stored `{!ScsLaws S} m ctx vm bs tf now tc m' tok ref :
  GrantRDPConnect m ctx vm (Some bs) tf now tc = (m', Ok tok) →
  rdpTokens m' !! sha256 tok = Some ref →
  tok = hex_EncodeToString bs ∧ closed (Store m') = false ∧ vmName ref ≠ "" ∧
  ∃ deadline vals sess grant, expiresAt ref <= deadline ∧
    (∀ t, t < deadline → ∃ r, Find (Store m') (sessionToken ref) t = Some (Some r) ∧
                              Decode r = Some (deadline, vals)) ∧
    session_of vals = Some sess ∧
    sameRDPSession sess (user ref) (clientIP ref) (createdAt ref) = true ∧
    RDPConnectGrants sess !! vmName ref = Some grant ∧
    Verifier grant = sha256 tok ∧ ExpiresAt grant = expiresAt ref.
Proof.
  unfold GrantRDPConnect. intros H Href. destruct (String.eqb_spec (TrimSpace vm) "") as [|Hvm]; [done|].
  destruct (Get ctx) as [caller|]; [|done]. destruct (sUser caller) as [u|] eqn:Hu; [|done].
  destruct (String.eqb (ctx_token ctx) ""); [done|]. unfold grantStoredRDPConnect in H.
  destruct (Find _ _ _) as [[raw0|]|]; [|done..]. destruct (Decode raw0) as [[d vals]|]; [|done].
  destruct (negb (Before now d)) eqn:Hd; [done|].
  destruct (session_of vals) as [sess|]; [|done].
  destruct (negb (sameRDPSession _ _ _ _)) eqn:Hs; [done|].
  destruct (CanonicalClientIP (ClientIP sess)); [|done]. unfold newRDPConnectGrant in H.
  destruct (rdpTokens m !! sha256 (hex_EncodeToString bs)) eqn:Hfresh; [done|].
  destruct (Encode _ _) as [enc|] eqn:Henc; [|done].
  destruct (Commit _ _ _ _ _) as [st [e|]] eqn:Hcm; simplify_eq/=.
  apply Commit_ok in Hcm as [Hcl Hfind]. rewrite lookup_insert_eq in Href. injection Href as <-. simpl.
  apply negb_false_iff, sameRDPSession_spec in Hs as (Hsu & Hip & Hcr).
  split_and!; [done..|]. eexists d, _, _, _. split_and!.
  - destruct (Before d _) eqn:Hb; unfold Before in *; bool_props; lia.
  - intros t Ht. exists enc. split; [by apply Hfind|by eapply Decode_Encode].
  - unfold session_of. by rewrite lookup_insert_eq.
  - unfold sameRDPSession. simpl. rewrite Hsu, bool_decide_true by done.
    by rewrite String.eqb_refl, Z.eqb_refl.
  - simpl. apply lookup_insert_eq.
  - done.
  - done.
Qed.

(** The codec and the store accept what they are given, as the in-memory ones do. *)
Class ScsTotal : Prop := {
  Encode_total d v : is_Some (Encode d v);
  sCommit_total s k r e : is_Some (sCommit s k r e)
}.

Lemma load_granted `{!ScsLaws S} m ctx vm bs tf now tc m1 tok ref ck :
  GrantRDPConnect m ctx vm (Some bs) tf now tc = (m1, Ok tok) →
  rdpTokens m1 !! sha256 tok = Some ref →
  c_now1 ck < expiresAt ref → c_find ck < expiresAt ref → c_now2 ck < expiresAt ref →
  ∃ deadline vals sess, expiresAt ref <= deadline ∧
  loadRDPConnectGrant m1 (sha256 tok) (clientIP ref) ck = (m1, Some (ref, deadline, vals, sess)).
Proof.
  intros Hg Hr H1 Hf H2.
  destruct (grant_stored _ _ _ _ _ _ _ _ _ _ Hg Hr) as
    (-> & Hcl & Hvm & d & vals & sess & grant & Hd & Hfind & Hsess & Hsame & Hgr & Hv & He).
  exists d, vals, sess. split; [done|]. unfold loadRDPConnectGrant. rewrite Hr.
  destruct (Hfind (c_find ck)) as (r & Hfr & Hdec); [lia|].
  rewrite String.eqb_refl, Hfr, Hdec, Hsess, Hsame, Hgr, Hv, He, String.eqb_refl. unfold Before.
  rewrite !(proj2 (Z.ltb_lt _ _)) by lia. done.
Qed.

(** a freshly granted token works exactly once. Presented by the session's user,
    from the session's address, for the granted machine and before it expires, it
    yields a ticket in that user's name; presented again, in any way, it is
    refused. *)
Theorem fresh_grant_usable_once `{!ScsLaws S, !ScsTotal} m ctx vm bs tf now tc m1 tok ref
    g username ip vm' t0 ck tc' :
  GrantRDPConnect m ctx vm (Some bs) tf now tc = (m1, Ok tok) →
  length bs = 16%nat → Forall (λ b, 0 <= b < 256) bs →
  rdpTokens m1 !! sha256 tok = Some ref →
  TrimSpace username = Name (user ref) → Name (user ref) ≠ "" → TrimSpace vm' = vmName ref →
  CanonicalClientIP ip = Some (clientIP ref) →
  c_now1 ck < expiresAt ref → c_find ck < expiresAt ref → c_now2 ck < expiresAt ref →
  tc' < expiresAt ref →
  ∃ m2 a, AuthorizeRDPConnection g m1 tok username ip vm' t0 ck tc' = (m2, Some a) ∧
    a_username a = Name (user ref) ∧ a_manager a = true ∧
    ∀ g2 un2 ip2 vm2 t2 ck2 tc2,
      AuthorizeRDPConnection g2 m2 tok un2 ip2 vm2 t2 ck2 tc2 = (m2, None).
Proof.
  intros Hg Hlen Hbs Hr Hun Hne Hvm' Hip H1 Hf H2 Htc.
  destruct (load_granted _ _ _ _ _ _ _ _ _ _ ck Hg Hr H1 Hf H2) as (d & vals & sess & Hd & Hload).
  destruct (grant_stored _ _ _ _ _ _ _ _ _ _ Hg Hr) as (Htok & Hcl & Hvmne & _).
  destruct (hex_token_ok bs Hbs) as [Hl Hhex]. rewrite <- Htok, Hlen in *.
  unfold AuthorizeRDPConnection, rdpTokenLookup at 1.
  rewrite Hl, Hhex, Hip, Hun, Hvm'. simpl (negb _).
  rewrite (proj2 (String.eqb_neq _ _) Hne), (proj2 (String.eqb_neq _ _) Hvmne). simpl (_ || _).
  rewrite Hload, !String.eqb_refl. simpl (_ || _).
  destruct (Encode_total d (<[sessionKey:=VSession (mkSession (sUser sess) (CreatedAt sess)
    (ClientIP sess) (LoginPasswordHash sess) (delete (vmName ref) (RDPConnectGrants sess)))]> vals))
    as [enc Henc]. rewrite Henc.
  pose proof (Commit_live (Store m1) (sessionToken ref) enc d tc' Hcl ltac:(lia) (sCommit_total _ _ _ _))
    as Hcm. destruct (Commit _ _ _ _ _) as [st err]. simpl in Hcm. subst err.
  eexists _, _. split_and!; [done..|]. intros.
  destruct (rdpTokenLookup tok ip2) as [[v cip]|] eqn:El; [|done].
  unfold rdpTokenLookup in El. go_cases_in El. simplify_eq.
  destruct (String.eqb _ "" || _); [done|]. unfold loadRDPConnectGrant, forget. simpl.
  by rewrite lookup_delete_eq.
Qed.

(** RDPConnectTarget names exactly the machine that AuthorizeRDPConnection would
    accept, and does not spend the token: when it answers, the state is unchanged,
    and from there no authorization with this token succeeds for any other machine. *)
Theorem target_is_authorized_machine m token ip ck m1 vm :
  RDPConnectTarget m token ip ck = (m1, Some vm) →
  m1 = m ∧
  ∀ g username vm' t0 ck' tc m2 a,
    AuthorizeRDPConnection g m1 token username ip vm' t0 ck' tc = (m2, Some a) → TrimSpace vm' = vm.
Proof.
  unfold RDPConnectTarget. destruct (rdpTokenLookup token ip) as [[v cip]|] eqn:El; [|done].
  destruct (loadRDPConnectGrant m v cip ck) as [m' r] eqn:Eld. intros H.
  destruct r as [[[[ref d] vals] sess]|]; simplify_eq/=.
  destruct (load_shape _ _ _ _ _ _ Eld) as (_ & _ & Hs).
  destruct (Hs _ _ _ _ eq_refl) as (-> & Hv & _). split; [done|].
  intros g username vm' t0 ck' tc m2 a Ha. apply authorize_shape in Ha as [_ Ha].
  destruct (Ha _ eq_refl) as (_ & ref' & _ & Hv' & _ & _ & Hvm & _).
  unfold rdpTokenLookup in El. by go_cases_in El.
Qed.
End manager.

(** ** Concrete runs

    On the concrete store, with dotted addresses and the identity as digest:
    alice, logged in from 10.0.0.1 with a session that ends at 100. *)

#[export] Instance mem_scs_total : ScsTotal (S := mem_scs).
Proof. split; simpl; eauto. Qed.

Definition w_sha (s : string) : string := s.
Definition w_m0 : Manager (S := mem_scs) := mkManager (est exp1) ∅.
Definition w_ctx : context :=
  mkContext (Some (VSession (mkSession (Some alice) 10 "10.0.0.1" "hash" ∅))) "tok" None.
Definition w_bs : list Z := replicate 16 171.
Definition w_tok : string := hex_EncodeToString w_bs.
Definition w_ck : load_clock := mkClock 40 41 42.
Definition w_m1 : Manager := fst (GrantRDPConnect w_sha w_m0 w_ctx "vm1" (Some w_bs) 30 30 30).
Definition w_ref : rdpTokenReference := mkRef "tok" "vm1" alice "10.0.0.1" 10 100.
Definition w_auth (m : Manager) : Manager * option ConnectionAuthorization :=
  AuthorizeRDPConnection w_sha new_registry m w_tok "alice" "10.0.0.1:3389" "vm1" 40 w_ck 43.
Definition w_m2 : Manager := fst (w_auth w_m1).
Definition w_log1 : list rdp_event := [EGrant w_tok "tok" "vm1" alice "10.0.0.1" 30].
Definition w_log2 : list rdp_event := EAuth w_tok "alice" "10.0.0.1" "vm1" 42 :: w_log1.

Example grant_then_authorize :
  snd (GrantRDPConnect w_sha w_m0 w_ctx "vm1" (Some w_bs) 30 30 30) = Ok w_tok ∧
  snd (w_auth w_m1) = Some (mkAuth true "alice" 0 100) ∧ snd (w_auth w_m2) = None.
Proof. vm_compute. done. Qed.

Abbreviation w_step := (rdp_step (N := dotted) (S := mem_scs) w_sha Delete Delete).

Lemma w_run1 : rtc w_step (rdp_init (est exp1)) (mkRdp w_m1 w_log1).
Proof.
  apply rtc_once.
  apply (rd_grant w_sha Delete Delete (rdp_init (est exp1)) w_ctx "vm1" (Some w_bs) 30 30 30 w_m1 w_tok
           (mkSession (Some alice) 10 "10.0.0.1" "hash" ∅) alice); vm_compute; reflexivity.
Qed.

Lemma w_run2 : rtc w_step (rdp_init (est exp1)) (mkRdp w_m2 w_log2).
Proof.
  eapply rtc_r; [exact w_run1|].
  apply (rd_authorize w_sha Delete Delete (mkRdp w_m1 w_log1) new_registry w_tok "alice" "10.0.0.1:3389"
           "vm1" 40 w_ck 43 w_m2 (mkAuth true "alice" 0 100) "10.0.0.1"); vm_compute; reflexivity.
Qed.

Lemma rdp_token_single_use_witness :
  auths_of w_tok w_log2 = 1%nat ∧ (auths_of w_tok w_log2 <= grants_of w_tok w_log2)%nat.
Proof.
  split; [vm_compute; reflexivity|].
  apply (rdp_token_single_use w_sha Delete Delete (est exp1) (mkRdp w_m2 w_log2)). exact w_run2.
Defined.

Lemma rdp_authorization_sound_witness :
  ∃ tok u t0, EGrant w_tok tok "vm1" u "10.0.0.1" t0 ∈ w_log1 ∧ Name u = "alice" ∧
              42 < t0 + rdpConnectWindow.
Proof.
  apply (rdp_authorization_sound w_sha Delete Delete (est exp1) (mkRdp w_m2 w_log2) [] w_tok "alice"
           "10.0.0.1" "vm1" 42 w_log1); [exact w_run2|reflexivity].
Defined.


Lemma fresh_grant_usable_once_witness :
  ∃ m2 a, w_auth w_m1 = (m2, Some a) ∧ a_username a = "alice" ∧ a_manager a = true ∧
    ∀ g2 un2 ip2 vm2 t2 ck2 tc2,
      AuthorizeRDPConnection w_sha g2 m2 w_tok un2 ip2 vm2 t2 ck2 tc2 = (m2, None).
Proof.
  apply (fresh_grant_usable_once w_sha w_m0 w_ctx "vm1" w_bs 30 30 30 w_m1 w_tok w_ref new_registry
           "alice" "10.0.0.1:3389" "vm1" 40 w_ck 43);
    try (vm_compute; reflexivity).
  - unfold w_bs. apply Forall_replicate. lia.
  - done.
Defined.

Lemma target_is_authorized_machine_witness :
  RDPConnectTarget w_sha w_m1 w_tok "10.0.0.1:50000" w_ck = (w_m1, Some "vm1") ∧
  w_m1 = w_m1 ∧
  ∀ g username vm' t0 ck' tc m2 a,
    AuthorizeRDPConnection w_sha g w_m1 w_tok username "10.0.0.1:50000" vm' t0 ck' tc = (m2, Some a) →
    TrimSpace vm' = "vm1".
Proof.
  split; [vm_compute; reflexivity|].
  apply (target_is_authorized_machine w_sha w_m1 w_tok "10.0.0.1:50000" w_ck w_m1 "vm1").
  vm_compute. reflexivity.
Defined.
