(* ===== verification/Frame.v ===== *)
(** * The wire protocol

    [SauronAgent/internal/protocol]: the frame header ([frame.go]), the encoder
    ([encoder.go]), the decoder with its reused buffer ([decoder.go]) and the
    connection that refuses to go on after a torn write ([conn.go]).

    A reader is the bytes that will arrive and the error that ends them:
    [io.ReadFull] depends on nothing else, however the bytes are split.  A frame's
    payload is a view into a buffer of the decoder, as in the code, so that a
    later read may overwrite it. *)

From S2P Require Import Prelude GoStrings.

Definition Magic : list byte := [x53; x41; x55; x52].
Definition Version : Z := 1.
Definition HeaderSize : nat := 20.
Definition DefaultMaxPayloadSize : Z := 2 ^ 20.
Definition MaxPayloadCeiling : Z := DefaultMaxPayloadSize * 64.

(** [MessageType] is a [uint8]. *)
Abbreviation MessageType := Z (only parsing).
Definition MsgHello : MessageType := 1.
Definition MsgReady : MessageType := 2.
Definition MsgEvent : MessageType := 3.
Definition MsgAck : MessageType := 4.
Definition MsgPing : MessageType := 5.
Definition MsgPong : MessageType := 6.
Definition MsgError : MessageType := 7.
Definition MsgShutdown : MessageType := 8.

Definition Valid (t : MessageType) : bool := (MsgHello <=? t) && (t <=? MsgShutdown).

Definition FlagsNone : Z := 0.

Record Header : Type := mkHeader {
  hVersion : Z;
  hType : MessageType;
  hFlags : Z;
  hSequence : Z;
  hPayloadLen : Z
}.

(** The errors of the package.  The last group is not a statement about the peer:
    the end of the stream, a failed read or write, a value JSON cannot encode. *)
Inductive error : Type :=
| ErrBadMagic | ErrBadVersion | ErrBadType | ErrReservedFlags | ErrPayloadTooLarge
| ErrShortHeader | ErrMalformedPayload | ErrTrailingData
| EOF | ErrUnexpectedEOF | ReadFailed | WriteFailed | EncodeFailed | DeadlineFailed | Abandoned.

#[export] Instance error_eq_dec : EqDecision error.
Proof. solve_decision. Defined.

(** JSON errors of nested bodies are wrapped in [ErrMalformedPayload] here. *)
Definition IsProtocolError (e : option error) : bool :=
  match e with
  | Some (ErrBadMagic | ErrBadVersion | ErrBadType | ErrReservedFlags | ErrPayloadTooLarge
         | ErrShortHeader | ErrMalformedPayload | ErrTrailingData) => true
  | _ => false
  end.

(** ** Headers *)

Definition header_bytes (h : Header) : list byte :=
  Magic ++ [z2b (hVersion h); z2b (hType h)] ++ be_put 2 (hFlags h) ++ be_put 8 (hSequence h)
  ++ be_put 4 (hPayloadLen h).

(** [MarshalHeader] writes over the first bytes of [buf]. *)
Definition MarshalHeader (buf : list byte) (h : Header) : result error (list byte) :=
  if (length buf <? HeaderSize)%nat then Err ErrShortHeader
  else Ok (header_bytes h ++ drop HeaderSize buf).

Definition UnmarshalHeader (buf : list byte) (maxPayload : Z) : result error Header :=
  if (length buf <? HeaderSize)%nat then Err ErrShortHeader
  else if negb (bool_decide (slice 0 4 buf = Magic)) then Err ErrBadMagic
  else
    let version := be_get (slice 4 5 buf) in
    if negb (version =? Version) then Err ErrBadVersion
    else
      let typ := be_get (slice 5 6 buf) in
      if negb (Valid typ) then Err ErrBadType
      else
        let flags := be_get (slice 6 8 buf) in
        if negb (flags =? FlagsNone) then Err ErrReservedFlags
        else
          let seq := be_get (slice 8 16 buf) in
          let plen := be_get (slice 16 20 buf) in
          if maxPayload <? plen then Err ErrPayloadTooLarge
          else Ok (mkHeader version typ flags seq plen).

Definition normalizeMaxPayload (maxPayload : Z) : Z :=
  if maxPayload =? 0 then DefaultMaxPayloadSize
  else if MaxPayloadCeiling <? maxPayload then MaxPayloadCeiling
  else maxPayload.

(** ** The encoder

    [WriteFrame] and [WriteMessage] return the bytes of the single [Write] they
    make, or the error that prevents it. *)

Definition headerPlaceholder : list byte := replicate HeaderSize x00.

Record Encoder : Type := mkEncoder { e_maxPayload : Z }.

Definition NewEncoder (maxPayload : Z) : Encoder := mkEncoder (normalizeMaxPayload maxPayload).

(** [flush], up to the write of the assembled buffer [b]. *)
Definition flush (b : list byte) (t : MessageType) (seq : Z) : result error (list byte) :=
  let h := mkHeader Version t FlagsNone seq (u32 (Z.of_nat (length b) - Z.of_nat HeaderSize)) in
  MarshalHeader b h.

Definition WriteFrame (e : Encoder) (t : MessageType) (seq : Z) (payload : list byte) :
    result error (list byte) :=
  if negb (Valid t) then Err ErrBadType
  else if e_maxPayload e <? Z.of_nat (length payload) then Err ErrPayloadTooLarge
  else flush (headerPlaceholder ++ payload) t seq.

(** Dropping the newline that ends the output of [json.Encoder]. *)
Definition trim_newline (b : list byte) : list byte :=
  match rev b with
  | x0a :: r => if (HeaderSize <? length b)%nat then rev r else b
  | _ => b
  end.

(** [encoded] is what [json.Encoder.Encode] writes for the value, [None] its error. *)
Definition WriteMessage (e : Encoder) (t : MessageType) (seq : Z) (encoded : option (list byte)) :
    result error (list byte) :=
  if negb (Valid t) then Err ErrBadType
  else match encoded with
       | None => Err EncodeFailed
       | Some js =>
           let b := trim_newline (headerPlaceholder ++ js) in
           let n := Z.of_nat (length b) - Z.of_nat HeaderSize in
           if e_maxPayload e <? n then Err ErrPayloadTooLarge
           else flush b t seq
       end.

(** ** The reader and the decoder *)

Record stream : Type := mkStream { avail : list byte; ending : error }.

(** [io.ReadFull] of [n] bytes: what was read, the rest, and an error. *)
Definition ReadFull (n : nat) (r : stream) : list byte * stream * option error :=
  if (n <=? length (avail r))%nat
  then (take n (avail r), mkStream (drop n (avail r)) (ending r), None)
  else (avail r, mkStream [] (ending r),
        Some (match ending r, avail r with
              | EOF, _ :: _ => ErrUnexpectedEOF
              | e, _ => e
              end)).

(** A slice of a buffer, from its start. *)
Record view : Type := mkView { v_buf : nat; v_len : nat }.

Record Frame : Type := mkFrame { fHeader : Header; fPayload : view }.

(** [d_bufs] holds the buffers made so far, [d_buf] is the current one. *)
Record Decoder : Type := mkDecoder {
  d_maxPayload : Z;
  d_bufs : gmap nat (list byte);
  d_buf : nat
}.

Definition NewDecoder (maxPayload : Z) : Decoder :=
  mkDecoder (normalizeMaxPayload maxPayload) {[0%nat := []]} 0.

Definition MaxPayload (d : Decoder) : Z := d_maxPayload d.

Definition buffer (d : Decoder) (i : nat) : list byte := default [] (d_bufs d !! i).

(** The bytes a view shows now. *)
Definition contents (d : Decoder) (v : view) : list byte := take (v_len v) (buffer d (v_buf v)).

(** [d.buf] grows to at least [n] bytes by doubling, within the limit. *)
Definition grow (d : Decoder) (n : nat) : Decoder :=
  let c := length (buffer d (d_buf d)) in
  if (c <? n)%nat then
    let grown := Z.max (Z.of_nat c * 2) (Z.of_nat n) in
    let grown := Z.min grown (d_maxPayload d) in
    let i := (d_buf d + 1)%nat in
    mkDecoder (d_maxPayload d) (<[i := replicate (Z.to_nat grown) x00]> (d_bufs d)) i
  else d.

(** Writing [bs] at the start of the current buffer. *)
Definition fill (d : Decoder) (bs : list byte) : Decoder :=
  mkDecoder (d_maxPayload d)
    (<[d_buf d := bs ++ drop (length bs) (buffer d (d_buf d))]> (d_bufs d)) (d_buf d).

Definition ReadFrame (d : Decoder) (r : stream) : Decoder * stream * result error Frame :=
  let '(hdr, r, err) := ReadFull HeaderSize r in
  match err with
  | Some e => (d, r, Err e)
  | None =>
      match UnmarshalHeader hdr (d_maxPayload d) with
      | Err e => (d, r, Err e)
      | Ok h =>
          if d_maxPayload d <? hPayloadLen h then (d, r, Err ErrPayloadTooLarge)
          else
            let n := Z.to_nat (hPayloadLen h) in
            let d := grow d n in
            let payload := mkView (d_buf d) n in
            if (n =? 0)%nat then (d, r, Ok (mkFrame h payload))
            else
              let '(bs, r, err) := ReadFull n r in
              let d := fill d bs in
              match err with
              | Some e => (d, r, Err e)
              | None => (d, r, Ok (mkFrame h payload))
              end
      end
  end.

(** ** Payloads *)

Definition json_space (b : byte) : bool :=
  match b with x20 | x09 | x0a | x0d => true | _ => false end.

(** [json] is the JSON decoder: the first value of the input and what follows it. *)
Definition DecodePayload {V} (json : list byte → option (V * list byte))
    (d : Decoder) (f : option Frame) : result error V :=
  match f with
  | None => Err ErrMalformedPayload
  | Some f =>
      match json (contents d (fPayload f)) with
      | None => Err ErrMalformedPayload
      | Some (v, rest) => if forallb json_space rest then Ok v else Err ErrTrailingData
      end
  end.

(** ** The connection

    [wire] is everything written so far.  [deadline_ok] tells whether the deadline
    could be set; a write puts all its bytes on the wire or fails after
    [Some n] of them. *)

Record Conn : Type := mkConn {
  c_enc : Encoder;
  torn : bool;
  wire : list byte
}.

Definition NewConn (maxPayload : Z) : Conn := mkConn (NewEncoder maxPayload) false [].

Definition Send (c : Conn) (t : MessageType) (seq : Z) (encoded : option (list byte))
    (deadline_ok : bool) (failed : option nat) : Conn * option error :=
  if torn c then (c, Some Abandoned)
  else if negb deadline_ok then (c, Some DeadlineFailed)
  else match WriteMessage (c_enc c) t seq encoded with
       | Err e => (c, Some e)
       | Ok b =>
           match failed with
           | None => (mkConn (c_enc c) false (wire c ++ b), None)
           | Some n => (mkConn (c_enc c) true (wire c ++ take n b), Some WriteFailed)
           end
       end.

(** [Receive]: setting the deadline, then reading. *)
Definition Receive (d : Decoder) (r : stream) (deadline_ok : bool) :
    Decoder * stream * result error Frame :=
  if negb deadline_ok then (d, r, Err DeadlineFailed) else ReadFrame d r.

Definition deadline (timeout : duration) (now : time) : time :=
  if timeout <=? 0 then zero_time else now + timeout.

(** ** Headers on the wire *)

Arguments be_put : simpl never.
Arguments be_get : simpl never.
Arguments header_bytes : simpl never.

Record header_ok (maxPayload : Z) (h : Header) : Prop := {
  ho_version : hVersion h = Version;
  ho_type : Valid (hType h) = true;
  ho_flags : hFlags h = FlagsNone;
  ho_sequence : is_u64 (hSequence h);
  ho_length : 0 <= hPayloadLen h < 2 ^ 32;
  ho_limit : hPayloadLen h <= maxPayload
}.

Lemma header_bytes_length h : length (header_bytes h) = HeaderSize.
Proof. unfold header_bytes. rewrite !length_app, !be_put_length. done. Qed.

Lemma slice_app_at {A} (a b c : list A) i j :
  length a = i → length b = (j - i)%nat → slice i j (a ++ b ++ c) = b.
Proof.
  intros Ha Hb. unfold slice. rewrite drop_app_length' by done. by rewrite take_app_length' by done.
Qed.

(** The fields of a header, where [UnmarshalHeader] looks for them. *)
Lemma header_slices h rest :
  let buf := header_bytes h ++ rest in
  slice 0 4 buf = Magic ∧ slice 4 5 buf = [z2b (hVersion h)] ∧ slice 5 6 buf = [z2b (hType h)] ∧
  slice 6 8 buf = be_put 2 (hFlags h) ∧ slice 8 16 buf = be_put 8 (hSequence h) ∧
  slice 16 20 buf = be_put 4 (hPayloadLen h).
Proof.
  unfold header_bytes. cbv zeta. rewrite <- !app_assoc. split_and!.
  - by apply (slice_app_at []).
  - by apply (slice_app_at Magic [z2b (hVersion h)]).
  - by apply (slice_app_at (Magic ++ [z2b (hVersion h)]) [z2b (hType h)]).
  - apply (slice_app_at (Magic ++ [z2b (hVersion h); z2b (hType h)])); [done|apply be_put_length].
  - rewrite (app_assoc [_; _]), (app_assoc Magic). apply slice_app_at; [|apply be_put_length].
    rewrite !length_app, be_put_length. done.
  - rewrite (app_assoc (be_put 2 _)), (app_assoc [_; _]), (app_assoc Magic).
    apply slice_app_at; [|apply be_put_length]. rewrite !length_app, !be_put_length. done.
Qed.

Lemma be_get_one z : 0 <= z < 256 → be_get [z2b z] = z.
Proof. intros. unfold be_get. simpl. rewrite b2z_z2b, Z.mod_small; lia. Qed.

Lemma Valid_range t : Valid t = true → 1 <= t <= 8.
Proof. unfold Valid, MsgHello, MsgShutdown. intros. bool_props. lia. Qed.

Lemma unmarshal_header_bytes h rest maxPayload :
  header_ok maxPayload h → UnmarshalHeader (header_bytes h ++ rest) maxPayload = Ok h.
Proof.
  intros [Hv Ht Hf Hs Hl Hm]. unfold UnmarshalHeader.
  destruct (header_slices h rest) as (-> & -> & -> & -> & -> & ->).
  rewrite length_app, header_bytes_length. rewrite bool_decide_true by done.
  pose proof (Valid_range _ Ht). unfold is_u64 in Hs.
  rewrite Hv, Hf, !be_get_one by (unfold Version; lia).
  unfold u64_mod in Hs. rewrite !be_get_put_small by (simpl; unfold FlagsNone; lia).
  rewrite Ht. destruct (Nat.ltb_spec (HeaderSize + length rest) HeaderSize) as [Hlt|_]; [lia|].
  simpl. destruct (Z.ltb_spec maxPayload (hPayloadLen h)); [lia|]. simpl in Hv, Hf.
  destruct h. simpl in *. by subst.
Qed.

Lemma take_slice {A} i j (l : list A) : (i <= j)%nat → take j l = take i l ++ slice i j l.
Proof.
  intros. unfold slice. rewrite <- (take_drop i (take j l)). rewrite take_take.
  rewrite Nat.min_l by lia. f_equal. by rewrite firstn_skipn_comm, Nat.add_comm, Nat.sub_add by lia.
Qed.

Lemma slice_length {A} i j (l : list A) : (i <= j <= length l)%nat → length (slice i j l) = (j - i)%nat.
Proof. intros. unfold slice. rewrite length_take, length_drop. lia. Qed.

Lemma take_header {A} (l : list A) :
  take HeaderSize l = slice 0 4 l ++ slice 4 5 l ++ slice 5 6 l ++ slice 6 8 l ++ slice 8 16 l
                      ++ slice 16 20 l.
Proof.
  unfold HeaderSize. rewrite (take_slice 16 20), (take_slice 8 16), (take_slice 6 8), (take_slice 5 6),
    (take_slice 4 5) by lia. rewrite <- !app_assoc. done.
Qed.

Lemma be_put_one l : length l = 1%nat → l = [z2b (be_get l)].
Proof. destruct l as [|b [|? ?]]; try done. intros _. unfold be_get. simpl. rewrite Z.mul_1_r, Z.add_0_r.
  by rewrite z2b_b2z. Qed.

Lemma unmarshal_sound buf maxPayload h :
  UnmarshalHeader buf maxPayload = Ok h →
  header_ok maxPayload h ∧ buf = header_bytes h ++ drop HeaderSize buf ∧ (HeaderSize <= length buf)%nat.
Proof.
  unfold UnmarshalHeader. intros H.
  destruct (Nat.ltb_spec (length buf) HeaderSize) as [|Hlen]; [done|].
  assert (Hb : slice 0 4 buf = Magic → buf = header_bytes (mkHeader (be_get (slice 4 5 buf))
      (be_get (slice 5 6 buf)) (be_get (slice 6 8 buf)) (be_get (slice 8 16 buf))
      (be_get (slice 16 20 buf))) ++ drop HeaderSize buf).
  { intros Hmag. unfold HeaderSize in Hlen.
    rewrite <- (take_drop HeaderSize buf) at 1. f_equal. rewrite take_header, Hmag.
    unfold header_bytes. cbn [hVersion hType hFlags hSequence hPayloadLen].
    rewrite !be_put_get by (apply slice_length; lia).
    rewrite (be_put_one (slice 4 5 buf)) at 1 by (rewrite slice_length; lia).
    rewrite (be_put_one (slice 5 6 buf)) at 1 by (rewrite slice_length; lia). done. }
  repeat (go_case_in H; [done|]). injection H as <-. bool_props.
  match goal with H : bool_decide _ = true |- _ => apply bool_decide_eq_true in H end.
  split; [|split; [by apply Hb|done]]; unfold HeaderSize in Hlen. split; simpl; try done.
  - pose proof (be_get_range (slice 8 16 buf)) as Hr. rewrite slice_length in Hr by lia.
    unfold is_u64, u64_mod. simpl in Hr. lia.
  - pose proof (be_get_range (slice 16 20 buf)) as Hr. rewrite slice_length in Hr by lia.
    simpl in Hr. lia.
Qed.

(** the frame header is an exact encoding. UnmarshalHeader accepts a buffer
    exactly when MarshalHeader writes the same bytes into it for a header of this
    protocol version with a defined type, no reserved flag and a payload length
    within the receiver's limit; and it returns that header. *)
Theorem header_codec_exact buf maxPayload h :
  UnmarshalHeader buf maxPayload = Ok h ↔
  header_ok maxPayload h ∧ MarshalHeader buf h = Ok buf.
Proof.
  unfold MarshalHeader. split.
  - intros (Hok & Hb & Hlen)%unmarshal_sound.
    destruct (Nat.ltb_spec (length buf) HeaderSize); [lia|]. by rewrite <- Hb.
  - intros [Hok H]. destruct (Nat.ltb_spec (length buf) HeaderSize); [done|].
    injection H as H. rewrite <- H. by apply unmarshal_header_bytes.
Qed.

(** ** The decoder's buffer *)

Record decoder_ok (d : Decoder) : Prop := {
  do_max : 0 <= d_maxPayload d <= MaxPayloadCeiling;
  do_bufs i b : d_bufs d !! i = Some b → Z.of_nat (length b) <= d_maxPayload d;
  do_cur : is_Some (d_bufs d !! d_buf d)
}.

Lemma normalizeMaxPayload_range m : 0 <= m → 1 <= normalizeMaxPayload m <= MaxPayloadCeiling.
Proof.
  unfold normalizeMaxPayload, MaxPayloadCeiling, DefaultMaxPayloadSize. intros.
  destruct (Z.eqb_spec m 0); [lia|]. destruct (Z.ltb_spec (2 ^ 20 * 64) m); lia.
Qed.

Lemma NewDecoder_ok m : 0 <= m → decoder_ok (NewDecoder m).
Proof.
  intros Hm. pose proof (normalizeMaxPayload_range m Hm). split; simpl; [lia| |by rewrite lookup_singleton_eq].
  intros i b [_ <-]%lookup_singleton_Some. simpl. lia.
Qed.

Lemma buffer_insert d i b m j : buffer (mkDecoder m (<[i := b]> (d_bufs d)) j) i = b.
Proof. unfold buffer. simpl. by rewrite lookup_insert_eq. Qed.

Lemma grow_ok d n :
  decoder_ok d → Z.of_nat n <= d_maxPayload d →
  decoder_ok (grow d n) ∧ d_maxPayload (grow d n) = d_maxPayload d ∧
  (n <= length (buffer (grow d n) (d_buf (grow d n))))%nat.
Proof.
  intros [Hm Hb Hc] Hn. unfold grow. destruct (Nat.ltb_spec (length (buffer d (d_buf d))) n) as [Hlt|Hge].
  - split; [|split; [done|]].
    + split; simpl; [done| |by rewrite lookup_insert_eq].
      intros i b [[<- <-]|[_ Hi]]%lookup_insert_Some; [|by eapply Hb].
      rewrite length_replicate. lia.
    + simpl. rewrite buffer_insert, length_replicate. lia.
  - by split_and!.
Qed.

Lemma fill_ok d bs :
  decoder_ok d → (length bs <= length (buffer d (d_buf d)))%nat → decoder_ok (fill d bs).
Proof.
  intros [Hm Hb [b Hc]] Hl. unfold fill. split; simpl; [done| |by rewrite lookup_insert_eq].
  intros i b' [[<- <-]|[_ Hi]]%lookup_insert_Some; [|by eapply Hb].
  rewrite length_app, length_drop. apply Hb in Hc as Hc'. unfold buffer in *. rewrite Hc in *.
  simpl in *. lia.
Qed.

Lemma ReadFull_length n r bs r' err :
  ReadFull n r = (bs, r', err) →
  (length bs <= n)%nat ∧ (length (avail r') <= length (avail r))%nat ∧
  (err = None → length (avail r') + n = length (avail r))%nat.
Proof.
  unfold ReadFull. destruct (Nat.leb_spec n (length (avail r))); intros [= <- <- <-]; simpl;
    rewrite ?length_take, ?length_drop; split_and!; try done; lia.
Qed.

(** Every read keeps the decoder's invariant, never lengthens the input, and a
    successful one takes at least a header off it. *)
Lemma ReadFrame_ok d r d' r' x :
  decoder_ok d → ReadFrame d r = (d', r', x) →
  decoder_ok d' ∧ d_maxPayload d' = d_maxPayload d ∧
  (length (avail r') <= length (avail r))%nat ∧
  ∀ f, x = Ok f →
    (length (avail r') + HeaderSize <= length (avail r))%nat ∧
    Z.of_nat (v_len (fPayload f)) = hPayloadLen (fHeader f) ∧ header_ok (d_maxPayload d) (fHeader f).
Proof.
  intros Hd H. unfold ReadFrame in H.
  destruct (ReadFull HeaderSize r) as [[hdr r1] err] eqn:E1. apply ReadFull_length in E1 as (_ & Hr1 & Hn1).
  destruct err as [e|]; [by simplify_eq|]. specialize (Hn1 eq_refl).
  destruct (UnmarshalHeader hdr (d_maxPayload d)) as [h|e] eqn:Eh; [|by simplify_eq].
  apply unmarshal_sound in Eh as [Hh _].
  destruct (d_maxPayload d <? hPayloadLen h) eqn:El; [by simplify_eq|].
  destruct Hh as [Hv Ht Hf Hs Hl Hlim]. pose proof (Build_header_ok _ _ Hv Ht Hf Hs Hl Hlim) as Hok.
  destruct (grow_ok d (Z.to_nat (hPayloadLen h)) Hd) as (Hg & Hm & Hcap); [lia|].
  destruct (Z.to_nat (hPayloadLen h) =? 0)%nat.
  { simplify_eq. split_and!; try done. intros f [= <-]. simpl. split_and!; [lia|lia|done]. }
  destruct (ReadFull (Z.to_nat (hPayloadLen h)) r1) as [[bs r2] err] eqn:E2.
  apply ReadFull_length in E2 as (Hbs & Hr2 & Hn2).
  assert (Hfill : decoder_ok (fill (grow d (Z.to_nat (hPayloadLen h))) bs)) by (apply fill_ok; [done|lia]).
  destruct err as [e|]; simplify_eq; (split_and!; [done|done|lia|]); [done|].
  intros f [= <-]. simpl. split_and!; [lia|lia|done].
Qed.

(** Any number of reads, from any input. *)
Definition read_step (d d' : Decoder) : Prop := ∃ r r' x, ReadFrame d r = (d', r', x).

Lemma reads_ok d d' : rtc read_step d d' → decoder_ok d → decoder_ok d' ∧ d_maxPayload d' = d_maxPayload d.
Proof.
  induction 1 as [|d1 d2 d3 (r & r' & x & Hs) _ IH]; [done|]. intros Hd.
  destruct (ReadFrame_ok _ _ _ _ _ Hd Hs) as (Hd2 & Hm & _). destruct (IH Hd2) as [Hd3 Hm3].
  split; [done|congruence].
Qed.

(** no peer makes the decoder reserve more than its limit. After any reads of
    any bytes, every buffer the decoder has made is at most the configured limit
    long, which is at most the 64 MiB ceiling whatever the configuration says, and
    a frame it returns has a payload of exactly the announced length, within the
    limit. *)
Theorem decoder_memory_bounded maxPayload d :
  0 <= maxPayload → rtc read_step (NewDecoder maxPayload) d →
  MaxPayload d = normalizeMaxPayload maxPayload ∧ MaxPayload d <= MaxPayloadCeiling ∧
  (∀ i b, d_bufs d !! i = Some b → Z.of_nat (length b) <= MaxPayload d) ∧
  ∀ r d' r' f, ReadFrame d r = (d', r', Ok f) →
    Z.of_nat (v_len (fPayload f)) = hPayloadLen (fHeader f) ∧ hPayloadLen (fHeader f) <= MaxPayload d.
Proof.
  intros Hm Hr. destruct (reads_ok _ _ Hr (NewDecoder_ok _ Hm)) as [[Hmax Hb Hc] Hmp].
  unfold MaxPayload. split_and!; [done|lia|done|]. intros r d' r' f Hf.
  destruct (ReadFrame_ok d r d' r' (Ok f)) as (_ & _ & _ & Hx); [done|done|].
  destruct (Hx f eq_refl) as (_ & Hl & [? ? ? ? ? ?]). done.
Qed.

(** ** Whole frames *)

Definition frame_bytes (t : MessageType) (seq : Z) (payload : list byte) : list byte :=
  header_bytes (mkHeader Version t FlagsNone seq (Z.of_nat (length payload))) ++ payload.

(** A message as the peer sees it. *)
Definition message : Type := MessageType * Z * list byte.

Definition message_ok (maxPayload : Z) (x : message) : Prop :=
  Valid x.1.1 = true ∧ is_u64 x.1.2 ∧ Z.of_nat (length x.2) <= maxPayload.

Definition bytes_of (x : message) : list byte := frame_bytes x.1.1 x.1.2 x.2.

Lemma message_header_ok maxPayload x :
  message_ok maxPayload x → maxPayload <= MaxPayloadCeiling →
  header_ok maxPayload (mkHeader Version x.1.1 FlagsNone x.1.2 (Z.of_nat (length x.2))).
Proof.
  intros (Ht & Hs & Hl) Hm. split; simpl; try done. unfold MaxPayloadCeiling, DefaultMaxPayloadSize in Hm. lia.
Qed.

Lemma bytes_of_length x : length (bytes_of x) = (HeaderSize + length x.2)%nat.
Proof. unfold bytes_of, frame_bytes. by rewrite length_app, header_bytes_length. Qed.

(** Filling the start of the current buffer shows in a view of that length. *)
Lemma contents_fill d bs :
  contents (fill d bs) (mkView (d_buf (fill d bs)) (length bs)) = bs.
Proof. unfold contents, fill. simpl. rewrite buffer_insert. by rewrite take_app_length. Qed.

Definition frame_message (d : Decoder) (f : Frame) : message :=
  (hType (fHeader f), hSequence (fHeader f), contents d (fPayload f)).

Lemma ReadFull_app bs rest e :
  ReadFull (length bs) (mkStream (bs ++ rest) e) = (bs, mkStream rest e, None).
Proof.
  unfold ReadFull. simpl. rewrite length_app.
  destruct (Nat.leb_spec (length bs) (length bs + length rest)); [|lia].
  by rewrite take_app_length, drop_app_length.
Qed.

Lemma ReadFull_header h rest e :
  ReadFull HeaderSize (mkStream (header_bytes h ++ rest) e) = (header_bytes h, mkStream rest e, None).
Proof. rewrite <- (header_bytes_length h). apply ReadFull_app. Qed.

(** Reading one whole frame gives the message back. *)
Lemma ReadFrame_message d x rest e :
  decoder_ok d → message_ok (d_maxPayload d) x →
  ∃ d' f, ReadFrame d (mkStream (bytes_of x ++ rest) e) = (d', mkStream rest e, Ok f) ∧
          frame_message d' f = x.
Proof.
  intros Hd Hx. pose proof (message_header_ok _ _ Hx ltac:(apply Hd)) as Hh.
  destruct x as [[t seq] p]. cbn [fst snd] in *. unfold ReadFrame, bytes_of, frame_bytes. cbn [fst snd].
  rewrite <- app_assoc.
  set (h := mkHeader Version t FlagsNone seq (Z.of_nat (length p))) in *.
  rewrite ReadFull_header.
  pose proof (unmarshal_header_bytes h [] _ Hh) as Hu. rewrite app_nil_r in Hu. rewrite Hu.
  destruct (Z.ltb_spec (d_maxPayload d) (hPayloadLen h)) as [Hlt|_]; [pose proof (ho_limit _ _ Hh); lia|].
  change (hPayloadLen h) with (Z.of_nat (length p)). rewrite Nat2Z.id.
  destruct (Nat.eqb_spec (length p) 0) as [Hz|Hnz].
  - destruct p; [|done]. eexists _, _. split; [done|]. unfold frame_message. simpl. done.
  - rewrite ReadFull_app. eexists _, _. split; [done|]. unfold frame_message. simpl. f_equal.
    exact (contents_fill (grow d (length p)) p).
Qed.

Lemma ReadFull_short n bs :
  (length bs < n)%nat →
  ∃ e, ReadFull n (mkStream bs EOF) = (bs, mkStream [] EOF, Some e) ∧ IsProtocolError (Some e) = false ∧
       (bs = [] → e = EOF).
Proof.
  intros Hn. unfold ReadFull. simpl. destruct (Nat.leb_spec n (length bs)); [lia|].
  destruct bs; eexists; split_and!; done.
Qed.

(** A frame cut short is the end of the stream, not a violation. *)
Lemma ReadFrame_cut d x n :
  decoder_ok d → message_ok (d_maxPayload d) x → (n < length (bytes_of x))%nat →
  ∃ d' r' e, ReadFrame d (mkStream (take n (bytes_of x)) EOF) = (d', r', Err e) ∧
             IsProtocolError (Some e) = false ∧ (n = 0%nat → e = EOF).
Proof.
  intros Hd Hx Hn. pose proof (message_header_ok _ _ Hx ltac:(apply Hd)) as Hh. rewrite bytes_of_length in Hn.
  destruct x as [[t seq] p]. unfold bytes_of, frame_bytes, ReadFrame. cbn [fst snd] in *.
  set (h := mkHeader Version t FlagsNone seq (Z.of_nat (length p))) in *.
  destruct (decide (n < HeaderSize)%nat) as [Hlt|Hge].
  - rewrite take_app_le by (rewrite header_bytes_length; lia).
    destruct (ReadFull_short HeaderSize (take n (header_bytes h))) as (e & -> & He & Hz).
    { rewrite length_take. lia. }
    eexists _, _, e. split_and!; [done..|]. intros ->. by apply Hz.
  - rewrite take_app_ge by (rewrite header_bytes_length; lia). rewrite header_bytes_length.
    rewrite ReadFull_header.
    pose proof (unmarshal_header_bytes h [] _ Hh) as Hu. rewrite app_nil_r in Hu. rewrite Hu.
    destruct (Z.ltb_spec (d_maxPayload d) (hPayloadLen h)) as [|_]; [pose proof (ho_limit _ _ Hh); lia|].
    change (hPayloadLen h) with (Z.of_nat (length p)). rewrite Nat2Z.id.
    destruct (Nat.eqb_spec (length p) 0) as [|_]; [lia|].
    destruct (ReadFull_short (length p) (take (n - HeaderSize) p)) as (e & -> & He & _).
    { rewrite length_take. lia. }
    eexists _, _, e. split_and!; [done..|unfold HeaderSize in Hge; lia].
Qed.

(** The receive loop: every message until the first error; each successful read
    shortens the input, so the input's length is enough fuel. *)
Fixpoint receive_all (fuel : nat) (d : Decoder) (r : stream) : list message * error :=
  match fuel with
  | O => ([], ReadFailed)
  | S fuel =>
      match ReadFrame d r with
      | (_, _, Err e) => ([], e)
      | (d, r, Ok f) => let '(l, e) := receive_all fuel d r in (frame_message d f :: l, e)
      end
  end.

Lemma receive_sent xs : ∀ d fuel x n,
  decoder_ok d → Forall (message_ok (d_maxPayload d)) xs → message_ok (d_maxPayload d) x →
  (length (concat (bytes_of <$> xs) ++ take n (bytes_of x)) < fuel)%nat →
  ∃ extra e, receive_all fuel d (mkStream (concat (bytes_of <$> xs) ++ take n (bytes_of x)) EOF)
             = (xs ++ extra, e) ∧
    IsProtocolError (Some e) = false ∧ (n = 0%nat → extra = [] ∧ e = EOF) ∧
    (extra = [] ∨ extra = [x]).
Proof.
  induction xs as [|y xs IH]; intros d fuel x n Hd Hxs Hx Hfuel.
  - simpl in *. destruct fuel as [|fuel]; [lia|]. simpl.
    destruct (decide (n < length (bytes_of x))%nat) as [Hcut|Hall].
    + destruct (ReadFrame_cut d x n Hd Hx Hcut) as (d' & r' & e & -> & He & Hz).
      exists [], e. split_and!; try done; [by intros H0; split; [|apply Hz]|by left].
    + rewrite take_ge in * by lia. destruct (ReadFrame_message d x [] EOF Hd Hx) as (d' & f & Hr & Hf).
      rewrite app_nil_r in Hr. rewrite Hr, Hf. pose proof (bytes_of_length x) as Hl.
      destruct fuel as [|fuel]; [unfold HeaderSize in Hl; lia|]. simpl.
      exists [x], EOF. split_and!; [done|done| |by right]. unfold HeaderSize in Hl. lia.
  - apply Forall_cons in Hxs as [Hy Hxs]. destruct fuel as [|fuel]; [lia|].
    rewrite fmap_cons in *. cbn [concat receive_all] in *. rewrite <- app_assoc in *.
    destruct (ReadFrame_message d y (concat (bytes_of <$> xs) ++ take n (bytes_of x)) EOF Hd Hy)
      as (d' & f & Hr & Hf). rewrite Hr, Hf.
    destruct (ReadFrame_ok _ _ _ _ _ Hd Hr) as (Hd' & Hm & _).
    destruct (IH d' fuel x n) as (extra & e & -> & H1 & H2 & H3); rewrite ?Hm; try done.
    { rewrite length_app in Hfuel. pose proof (bytes_of_length y). unfold HeaderSize in *. lia. }
    by exists extra, e.
Qed.

(** ** Sending *)

Record request : Type := mkRequest {
  q_type : MessageType; q_seq : Z; q_json : option (list byte);
  q_deadline : bool; q_failed : option nat
}.

(** The payload of a message: its JSON without the final newline. *)
Definition payload_of (js : list byte) : list byte :=
  drop HeaderSize (trim_newline (headerPlaceholder ++ js)).

Definition request_message (q : request) : message :=
  (q_type q, q_seq q, payload_of (default [] (q_json q))).

Definition do_send (c : Conn) (q : request) : Conn * option error :=
  Send c (q_type q) (q_seq q) (q_json q) (q_deadline q) (q_failed q).

(** The connection after the requests, and the messages whose [Send] returned nil. *)
Fixpoint run_sends (c : Conn) (qs : list request) : Conn * list message :=
  match qs with
  | [] => (c, [])
  | q :: qs =>
      let '(c, err) := do_send c q in
      let '(c, l) := run_sends c qs in
      (c, match err with None => request_message q :: l | Some _ => l end)
  end.

Lemma trim_newline_shape js :
  trim_newline (headerPlaceholder ++ js) = headerPlaceholder ++ payload_of js.
Proof.
  assert (H : ∃ p, trim_newline (headerPlaceholder ++ js) = headerPlaceholder ++ p).
  { unfold trim_newline. rewrite rev_app_distr. destruct (rev js) as [|b r] eqn:Er.
    - exists js. by destruct js as [|? ?]; [|apply (f_equal length) in Er; rewrite length_rev in Er].
    - simpl ((_ :: _) ++ _). assert (Hjs : js = rev r ++ [b]) by (by rewrite <- (rev_involutive js), Er).
      destruct b; try (by exists js). destruct (_ <? _)%nat; [|by exists js].
      exists (rev r). by rewrite rev_app_distr. }
  destruct H as [p Hp]. unfold payload_of. rewrite Hp. by rewrite drop_app_length'.
Qed.

Lemma placeholder_length p :
  Z.of_nat (length (headerPlaceholder ++ p)) - Z.of_nat HeaderSize = Z.of_nat (length p).
Proof. rewrite length_app. unfold headerPlaceholder. rewrite length_replicate. lia. Qed.

Lemma Ok_inj {E A} (x y : A) : Ok (E := E) x = Ok y → x = y.
Proof. congruence. Qed.

Lemma WriteMessage_ok e t seq js b :
  e_maxPayload e <= MaxPayloadCeiling → WriteMessage e t seq js = Ok b →
  ∃ j, js = Some j ∧ Valid t = true ∧ Z.of_nat (length (payload_of j)) <= e_maxPayload e ∧
       b = frame_bytes t seq (payload_of j).
Proof.
  unfold WriteMessage. intros Hm H. destruct (Valid t) eqn:Ht; [|done]. destruct js as [j|]; [|done].
  cbn [negb] in H. cbv zeta in H. rewrite trim_newline_shape in H.
  rewrite placeholder_length in H.
  destruct (Z.ltb_spec (e_maxPayload e) (Z.of_nat (length (payload_of j)))); [done|].
  unfold flush, MarshalHeader in H. rewrite placeholder_length in H.
  destruct (Nat.ltb_spec (length (headerPlaceholder ++ payload_of j)) HeaderSize) as [Hlt|_];
    [rewrite length_app in Hlt; simpl in Hlt; unfold HeaderSize in Hlt; lia|].
  apply Ok_inj in H. subst b. exists j. split_and!; [done..|]. unfold frame_bytes.
  rewrite drop_app_length' by done. do 3 f_equal.
  unfold u32, MaxPayloadCeiling, DefaultMaxPayloadSize in *. rewrite Z.mod_small; lia.
Qed.

(** What is on the wire: the frames sent, and the start of one more once torn. *)
Definition torn_tail (maxPayload : Z) (qs : list request) (tail : list byte) : Prop :=
  ∃ n x, tail = take n (bytes_of x) ∧ message_ok maxPayload x ∧ x ∈ request_message <$> qs.

Lemma run_sends_torn qs : ∀ c, torn c = true → run_sends c qs = (c, []).
Proof.
  induction qs as [|q qs IH]; intros c Hc; simpl; [done|].
  unfold do_send, Send. by rewrite Hc, IH.
Qed.

Lemma run_sends_wire qs : ∀ c c' l,
  e_maxPayload (c_enc c) <= MaxPayloadCeiling → Forall (λ q, is_u64 (q_seq q)) qs →
  run_sends c qs = (c', l) →
  Forall (message_ok (e_maxPayload (c_enc c))) l ∧
  ∃ tail, wire c' = wire c ++ concat (bytes_of <$> l) ++ tail ∧
    (tail = [] ∨ torn c' = true ∧ torn_tail (e_maxPayload (c_enc c)) qs tail).
Proof.
  induction qs as [|q qs IH]; intros c c' l Hm Hseq H; simpl in H.
  { simplify_eq. split; [constructor|]. exists []. rewrite app_nil_r. auto. }
  apply Forall_cons in Hseq as [Hq Hseq].
  assert (Hmore : ∀ m tail, torn_tail m qs tail → torn_tail m (q :: qs) tail).
  { intros m tail (n & x & Ht & Hx & Hin). exists n, x. split_and!; try done. by apply list_elem_of_further. }
  destruct (do_send c q) as [c1 err] eqn:Ed. destruct (run_sends c1 qs) as [c2 l2] eqn:Er.
  injection H as <- <-. unfold do_send, Send in Ed.
  assert (Hsame : c1 = c → err ≠ None →
    Forall (message_ok (e_maxPayload (c_enc c))) (match err with None => request_message q :: l2 | Some _ => l2 end) ∧
    ∃ tail, wire c2 = wire c ++ concat (bytes_of <$> (match err with None => request_message q :: l2 | Some _ => l2 end)) ++ tail ∧
      (tail = [] ∨ torn c2 = true ∧ torn_tail (e_maxPayload (c_enc c)) (q :: qs) tail)).
  { intros -> He. destruct err; [|done]. destruct (IH c c2 l2 Hm Hseq Er) as (Hl & tail & Hw & Ht).
    split; [done|]. exists tail. split; [done|]. destruct Ht as [|[? ?]]; auto. }
  destruct (torn c) eqn:Et; [injection Ed as <- <-; by apply Hsame|].
  destruct (q_deadline q); simpl in Ed; [|injection Ed as <- <-; by apply Hsame].
  destruct (WriteMessage (c_enc c) (q_type q) (q_seq q) (q_json q)) as [b|e] eqn:Ew;
    [|injection Ed as <- <-; by apply Hsame].
  apply WriteMessage_ok in Ew as (j & Hj & Hv & Hlen & ->); [|done].
  assert (Hmsg : message_ok (e_maxPayload (c_enc c)) (request_message q)).
  { unfold request_message. rewrite Hj. by split_and!. }
  assert (Hb : frame_bytes (q_type q) (q_seq q) (payload_of j) = bytes_of (request_message q)).
  { unfold request_message, bytes_of. by rewrite Hj. }
  rewrite Hb in Ed. destruct (q_failed q) as [n|]; injection Ed as <- <-.
  - rewrite run_sends_torn in Er by done. injection Er as <- <-. split; [constructor|].
    exists (take n (bytes_of (request_message q))). split; [done|]. right. split; [done|].
    exists n, (request_message q). split_and!; [done..|]. by apply list_elem_of_here.
  - eapply IH in Er as (Hl & tail & Hw & Ht); [|done..]. cbn [c_enc wire torn] in Hl, Hw, Ht.
    split; [by constructor|]. exists tail. split.
    + rewrite Hw, fmap_cons. cbn [concat]. by rewrite <- !app_assoc.
    + destruct Ht as [|[? ?]]; auto.
Qed.


(** ** Concrete runs *)

Definition ping_json : list byte := [x7b; x7d; x0a].   (** ["{}\n"] *)
Definition demo_requests : list request :=
  [mkRequest MsgPing 0 (Some ping_json) true None;
   mkRequest 9 0 (Some ping_json) true None;
   mkRequest MsgEvent 7 (Some ping_json) true (Some 21%nat);
   mkRequest MsgEvent 8 (Some ping_json) true None].

Example demo_sends :
  snd (run_sends (NewConn 0) demo_requests) = [(MsgPing, 0, [x7b; x7d])] ∧
  snd (receive_all 100 (NewDecoder 0) (mkStream (wire (fst (run_sends (NewConn 0) demo_requests))) EOF))
  = ErrUnexpectedEOF.
Proof. vm_compute. done. Qed.


Definition demo_decoder : Decoder :=
  fst (fst (ReadFrame (NewDecoder 16) (mkStream (frame_bytes MsgPing 1 [x7b; x7d]) EOF))).

Lemma decoder_memory_bounded_witness :
  d_bufs demo_decoder !! 1%nat = Some [x7b; x7d] ∧ MaxPayload demo_decoder = 16 ∧
  ∀ i b, d_bufs demo_decoder !! i = Some b → Z.of_nat (length b) <= MaxPayload demo_decoder.
Proof.
  split; [vm_compute; reflexivity|].
  destruct (decoder_memory_bounded 16 demo_decoder) as (Hm & _ & Hb & _); [lia| |by split].
  apply rtc_once. unfold read_step, demo_decoder. set (r := mkStream _ _).
  destruct (ReadFrame (NewDecoder 16) r) as [[d' r'] x] eqn:E. by exists r, r', x.
Defined.
