(* ===== verification/Segment.v ===== *)
(** * Spool segments

    [SauronAgent/internal/spool/segment.go]: segment names, the record encoding
    with its CRC-32C, the walk that finds the valid records of a damaged file, and
    the scan that repairs it.  A file is read as a stream ([Frame.stream]): its
    bytes and the error or end that follows them.  JSON is a parameter: [sequenceOf]
    is the sequence number of a stored payload. *)

From S2P Require Import Prelude GoStrings Event Frame.

Definition recordHeaderSize : nat := 12.
Definition maxRecordSize : Z := 8 * 2 ^ 20.
Definition segmentSuffix : string := ".seg".
Definition segmentNameDigits : nat := 20.
Definition recordMagic : list byte := [x53; x52; x45; x43].

(** ** CRC-32C

    The reflected Castagnoli polynomial, a bit at a time. *)

Definition castagnoli : Z := 0x82F63B78.

Definition crc_bit (c : Z) : Z :=
  if Z.odd c then Z.lxor (Z.shiftr c 1) castagnoli else Z.shiftr c 1.

Definition crc_byte (c : Z) (b : byte) : Z := Nat.iter 8 crc_bit (Z.lxor c (b2z b)).

Definition Checksum (bs : list byte) : Z := Z.lxor (fold_left crc_byte bs (2 ^ 32 - 1)) (2 ^ 32 - 1).

(** The check value of CRC-32C: the ASCII digits 1 to 9. *)
Example crc32c_check : Checksum [x31; x32; x33; x34; x35; x36; x37; x38; x39] = 0xE3069283.
Proof. reflexivity. Qed.

(** ** Names *)

(** ["%0*d"] of a [uint64], whose decimal form has at most 20 digits. *)
Definition segmentName (seq : Z) : string :=
  of_chars (digits segmentNameDigits seq) +:+ segmentSuffix.

(** [None] is [errNotSegment]. *)
Definition parseSegmentName (name : string) : option Z :=
  match CutSuffix name segmentSuffix with
  | None => None
  | Some ds =>
      if negb (len ds =? Z.of_nat segmentNameDigits) then None else ParseUint ds
  end.

(** ** Records *)

Definition encodeRecord (dst payload : list byte) : list byte :=
  dst ++ recordMagic ++ be_put 4 (u32 (Z.of_nat (length payload))) ++ be_put 4 (Checksum payload)
  ++ payload.

Record walkStats : Type := mkStats {
  ws_count : Z;
  ws_validEnd : Z;
  ws_skipped : Z;
  ws_gapLow : Z;
  ws_gapHigh : Z;
  ws_torn : Z;
  ws_stopped : bool
}.

Section walk.
Context (sequenceOf : list byte → option Z).
Context {A : Type} (fn : A → Z → list byte → Z → A * bool).

(** The locals of [walkRecords]: the stats, the unread input, the offset, the last
    sequence accepted if any, whether damage was met since, and the callback's own
    state. *)
Record walkState : Type := mkWalk {
  w_st : walkStats;
  w_in : stream;
  w_off : Z;
  w_prev : option Z;
  w_damage : bool;
  w_acc : A
}.

Inductive walk_outcome : Type := Continue (s : walkState) | Break (s : walkState) | ReadError (s : walkState).

(** The record is damaged, or ends the iteration early: skip [n] bytes. *)
Definition skip (s : walkState) (n : nat) : walkState :=
  mkWalk (w_st s) (mkStream (drop n (avail (w_in s))) (ending (w_in s))) (w_off s + Z.of_nat n)
    (w_prev s) true (w_acc s).

(** The [if inDamage] block. *)
Definition note_gap (st : walkStats) (prev : option Z) (seq : Z) : walkStats :=
  let low := u64 (default 0 prev + 1) in
  let high := u64 (seq - 1) in
  let high := if high <? low then low else high in
  mkStats (ws_count st) (ws_validEnd st) (ws_skipped st + 1)
    (if ws_gapLow st =? 0 then low else ws_gapLow st) high (ws_torn st) (ws_stopped st).

Definition accept (s : walkState) (seq : Z) (payload : list byte) (endd : Z) : walk_outcome :=
  let st := if w_damage s then note_gap (w_st s) (w_prev s) seq else w_st s in
  let '(acc, cont) := fn (w_acc s) seq payload endd in
  let st := mkStats (ws_count st + 1) endd (ws_skipped st) (ws_gapLow st) (ws_gapHigh st)
              (ws_torn st) (if cont then ws_stopped st else true) in
  let s := mkWalk st (mkStream (drop (recordHeaderSize + length payload) (avail (w_in s)))
                        (ending (w_in s)))
             endd (Some seq) false acc in
  if cont then Continue s else Break s.

(** One iteration of the loop. *)
Definition walk_step (size : Z) (s : walkState) : walk_outcome :=
  let input := avail (w_in s) in
  if (length input <? recordHeaderSize)%nat then
    match ending (w_in s) with EOF => Break s | _ => ReadError s end
  else
    let hdr := take recordHeaderSize input in
    let len := be_get (slice 4 8 hdr) in
    let crcWant := be_get (slice 8 12 hdr) in
    if negb (bool_decide (slice 0 4 hdr = recordMagic)) || (len =? 0) || (maxRecordSize <? len)
       || (size <? w_off s + Z.of_nat recordHeaderSize + len)
    then Continue (skip s 1)
    else
      let n := Z.to_nat len in
      let payload := take n (drop recordHeaderSize input) in
      if (length payload <? n)%nat then
        match ending (w_in s) with EOF => Break s | _ => ReadError s end
      else
        let endd := w_off s + Z.of_nat recordHeaderSize + len in
        let seq := if Checksum payload =? crcWant then sequenceOf payload else None in
        match seq with
        | None => Continue (skip s (recordHeaderSize + n))
        | Some seq =>
            if (seq =? 0) || match w_prev s with Some p => seq <=? p | None => false end
            then Continue (skip s (recordHeaderSize + n))
            else accept s seq payload endd
        end.

(** The loop.  Every iteration that continues consumes at least one byte, so one
    more than the number of bytes is enough ([walk_fuel_enough]). *)
Fixpoint walk_loop (fuel : nat) (size : Z) (s : walkState) : walk_outcome :=
  match fuel with
  | O => Continue s
  | S fuel =>
      match walk_step size s with
      | Continue s => walk_loop fuel size s
      | o => o
      end
  end.

Definition start_stats (start : Z) : walkStats := mkStats 0 start 0 0 0 0 false.

(** [walkRecords]: [r] is positioned at [start]. The flag is [false] on a read
    error. *)
Definition walkRecords (r : stream) (start size : Z) (acc : A) : walkStats * A * bool :=
  match walk_loop (length (avail r) + 1) size (mkWalk (start_stats start) r start None false acc) with
  | Continue s => (w_st s, w_acc s, true)
  | Break s => (w_st s, w_acc s, true)
  | ReadError s => (w_st s, w_acc s, false)
  end.
End walk.

Arguments mkWalk {A}.
Arguments w_st {A}.
Arguments w_in {A}.
Arguments w_off {A}.
Arguments w_prev {A}.
Arguments w_damage {A}.
Arguments w_acc {A}.
Arguments skip {A}.

Record segment : Type := mkSegment {
  path : string;
  base : Z;
  last : Z;
  count : Z;
  size : Z;
  reported : Z;
  undecodable : Z
}.

(** [sg.walk] over the file's bytes, all of them readable. *)
Definition walk (sequenceOf : list byte → option Z) {A} (fn : A → Z → list byte → Z → A * bool)
    (file : list byte) (start : Z) (acc : A) : walkStats * A * bool :=
  walkRecords sequenceOf fn (mkStream (drop (Z.to_nat start) file) EOF) start
    (Z.of_nat (length file)) acc.

(** [scanSegment]: the segment recovered, what the pass found, and the repaired
    file. *)
Definition scanSegment (sequenceOf : list byte → option Z) (name : string) (nameBase : Z)
    (file : list byte) : segment * walkStats * list byte :=
  let fn (sg : segment) (seq : Z) (_ : list byte) (_ : Z) :=
    (mkSegment (path sg) (if count sg =? 0 then seq else base sg) seq (count sg + 1) (size sg)
       (reported sg) (undecodable sg), true) in
  let '(st, sg, _) := walk sequenceOf fn file 0 (mkSegment name nameBase 0 0 0 0 0) in
  let sg := mkSegment (path sg) (base sg) (last sg) (count sg) (ws_validEnd st) (ws_skipped st)
              (undecodable sg) in
  let low := if negb (ws_gapLow st =? 0) && (ws_gapLow st <? nameBase) then nameBase else ws_gapLow st in
  let high := if ws_gapHigh st <? low then low else ws_gapHigh st in
  let filesize := Z.of_nat (length file) in
  let torn := if ws_validEnd st <? filesize then filesize - ws_validEnd st else 0 in
  (sg, mkStats (ws_count st) (ws_validEnd st) (ws_skipped st) low high torn (ws_stopped st),
   take (Z.to_nat (ws_validEnd st)) file).

(** ** Checksums and headers *)

Arguments be_put : simpl never.
Arguments be_get : simpl never.
Arguments Checksum : simpl never.

Lemma lxor_u32 a b : 0 <= a < 2 ^ 32 → 0 <= b < 2 ^ 32 → 0 <= Z.lxor a b < 2 ^ 32.
Proof.
  intros Ha Hb. assert (Hn : 0 <= Z.lxor a b) by (apply Z.lxor_nonneg; lia).
  split; [done|]. destruct (Z.eq_dec (Z.lxor a b) 0) as [->|Hz]; [lia|].
  apply Z.log2_lt_pow2; [lia|]. pose proof (Z.log2_lxor a b ltac:(lia) ltac:(lia)).
  assert (∀ x, 0 <= x < 2 ^ 32 → Z.log2 x < 32) as Hl.
  { intros x Hx. destruct (Z.eq_dec x 0) as [->|]; [done|]. apply Z.log2_lt_pow2; lia. }
  pose proof (Hl a Ha). pose proof (Hl b Hb). lia.
Qed.

Lemma crc_bit_range c : 0 <= c < 2 ^ 32 → 0 <= crc_bit c < 2 ^ 32.
Proof.
  intros Hc. assert (0 <= Z.shiftr c 1 < 2 ^ 32).
  { rewrite Z.shiftr_div_pow2 by lia. split; [apply Z.div_pos; lia|apply Z.div_lt_upper_bound; lia]. }
  unfold crc_bit. destruct (Z.odd c); [apply lxor_u32; [done|unfold castagnoli; lia]|done].
Qed.

Lemma iter_range n c : 0 <= c < 2 ^ 32 → 0 <= Nat.iter n crc_bit c < 2 ^ 32.
Proof. intros Hc. induction n; simpl; [done|]. by apply crc_bit_range. Qed.

Lemma Checksum_range bs : 0 <= Checksum bs < 2 ^ 32.
Proof.
  apply lxor_u32; [|lia]. assert (H : 0 <= 2 ^ 32 - 1 < 2 ^ 32) by lia.
  revert H. generalize (2 ^ 32 - 1). induction bs as [|b bs IH]; intros c Hc; [done|].
  apply IH, iter_range, lxor_u32; [done|]. pose proof (b2z_range b). lia.
Qed.

(** The bytes of one record. *)
Definition record (payload : list byte) : list byte := encodeRecord [] payload.
Arguments record : simpl never.

Definition payload_ok (payload : list byte) : Prop :=
  0 < Z.of_nat (length payload) <= maxRecordSize.

Lemma encodeRecord_app dst p : encodeRecord dst p = dst ++ record p.
Proof. done. Qed.

Lemma record_length p : length (record p) = (recordHeaderSize + length p)%nat.
Proof. unfold record, encodeRecord. rewrite !length_app, !be_put_length. done. Qed.

(** The header of a record that starts the input, as [walk_step] reads it. *)
Lemma record_header p rest :
  payload_ok p →
  let hdr := take recordHeaderSize (record p ++ rest) in
  slice 0 4 hdr = recordMagic ∧ be_get (slice 4 8 hdr) = Z.of_nat (length p) ∧
  be_get (slice 8 12 hdr) = Checksum p.
Proof.
  intros [Hp Hmax] hdr. unfold maxRecordSize in Hmax. pose proof (Checksum_range p).
  assert (Hh : hdr = recordMagic ++ be_put 4 (u32 (Z.of_nat (length p))) ++ be_put 4 (Checksum p) ++ []).
  { unfold hdr, record, encodeRecord. rewrite app_nil_l, app_nil_r, !app_assoc, <- app_assoc.
    apply take_app_length'. rewrite !length_app, !be_put_length. done. }
  rewrite Hh. clear hdr Hh. split_and!.
  - by apply (slice_app_at []).
  - rewrite slice_app_at by (done || apply be_put_length).
    unfold u32. rewrite be_get_put_small; [apply Z.mod_small; lia|]. apply Z.mod_pos_bound. lia.
  - rewrite app_assoc, slice_app_at by
      (rewrite ?length_app, ?be_put_length; done). apply be_get_put_small. lia.
Qed.

Lemma record_payload p rest :
  take (length p) (drop recordHeaderSize (record p ++ rest)) = p.
Proof.
  unfold record, encodeRecord. rewrite app_nil_l, <- !app_assoc, !app_assoc, <- (app_assoc _ p rest).
  rewrite drop_app_length' by (rewrite !length_app, !be_put_length; done). apply take_app_length.
Qed.

(** What the header checks of [walk_step] and the checksum establish. *)
Lemma record_recognized input :
  let hdr := take recordHeaderSize input in
  let n := Z.to_nat (be_get (slice 4 8 hdr)) in
  let p := take n (drop recordHeaderSize input) in
  (recordHeaderSize + n <= length input)%nat → slice 0 4 hdr = recordMagic →
  be_get (slice 8 12 hdr) = Checksum p → be_get (slice 4 8 hdr) <= maxRecordSize →
  be_get (slice 4 8 hdr) = Z.of_nat (length p) ∧ input = record p ++ drop (length (record p)) input.
Proof.
  intros hdr n p Hlen Hmag Hcrc Hmax.
  assert (Hh : length hdr = 12%nat) by (unfold hdr; rewrite length_take; unfold recordHeaderSize in *; lia).
  assert (Hp : length p = n) by (unfold p; rewrite length_take, length_drop; lia).
  pose proof (be_get_range (slice 4 8 hdr)) as Hr. rewrite slice_length in Hr by lia.
  assert (Hnz : be_get (slice 4 8 hdr) = Z.of_nat (length p)) by (rewrite Hp; unfold n; lia).
  split; [done|]. rewrite record_length, Hp.
  rewrite <- (take_drop (recordHeaderSize + n) input) at 1.
  f_equal. unfold record, encodeRecord. rewrite app_nil_l.
  rewrite <- (take_drop recordHeaderSize (take _ _)), take_take, Nat.min_l by lia.
  fold hdr. rewrite skipn_firstn_comm. replace (recordHeaderSize + n - recordHeaderSize)%nat with n by lia.
  fold p. rewrite !app_assoc. f_equal. rewrite <- (firstn_all2 (n := 12) hdr) at 1 by lia.
  rewrite (take_slice 8 12), (take_slice 4 8) by lia.
  replace (take 4 hdr) with (slice 0 4 hdr) by done. rewrite Hmag, <- Hcrc.
  unfold u32. rewrite <- Hnz, Z.mod_small by (unfold maxRecordSize in *; lia).
  by rewrite !be_put_get by (apply slice_length; lia).
Qed.

#[local] Opaque record.

(** ** The walk always ends *)

Section walk_facts.
Context (sequenceOf : list byte → option Z) {A : Type} (fn : A → Z → list byte → Z → A * bool).

Abbreviation step := (walk_step sequenceOf fn).
Abbreviation loop := (walk_loop sequenceOf fn).

(** What one iteration that goes on has done: it skipped damage or accepted a
    record that is all there. *)
Lemma walk_step_cases sz s s' :
  step sz s = Continue s' ∨ step sz s = Break s' →
  (step sz s = Continue s' ∧ ∃ n, (0 < n <= length (avail (w_in s)))%nat ∧ s' = skip s n) ∨
  (∃ seq p acc cont, payload_ok p ∧ avail (w_in s) = record p ++ drop (length (record p)) (avail (w_in s)) ∧
     sequenceOf p = Some seq ∧ seq ≠ 0 ∧ (∀ q, w_prev s = Some q → q < seq) ∧
     w_off s + Z.of_nat (length (record p)) <= sz ∧
     fn (w_acc s) seq p (w_off s + Z.of_nat (length (record p))) = (acc, cont) ∧
     w_acc s' = acc ∧ w_prev s' = Some seq ∧ w_off s' = w_off s + Z.of_nat (length (record p)) ∧
     w_in s' = mkStream (drop (length (record p)) (avail (w_in s))) (ending (w_in s)) ∧
     w_damage s' = false ∧ ws_validEnd (w_st s') = w_off s' ∧
     ws_count (w_st s') = ws_count (w_st s) + 1 ∧
     step sz s = if cont then Continue s' else Break s') ∨
  (step sz s = Break s' ∧ s' = s).
Proof.
  unfold walk_step. intros H. destruct (Nat.ltb_spec (length (avail (w_in s))) recordHeaderSize) as [Hs|Hs].
  { right; right. destruct (ending (w_in s)); destruct H as [H|H]; simplify_eq; done. }
  destruct (_ || _ || _ || _) eqn:Hc.
  { left. destruct H as [H|H]; simplify_eq. split; [done|]. exists 1%nat. unfold recordHeaderSize in Hs.
    split; [lia|done]. }
  apply orb_false_iff in Hc as [Hc Hsz]. apply orb_false_iff in Hc as [Hc Hmax].
  apply orb_false_iff in Hc as [Hmag Hz]. bool_props. apply bool_decide_eq_true in Hmag.
  set (hdr := take recordHeaderSize (avail (w_in s))) in *.
  set (n := Z.to_nat (be_get (slice 4 8 hdr))) in *.
  destruct (Nat.ltb_spec (length (take n (drop recordHeaderSize (avail (w_in s))))) n) as [Hsh|Hfull].
  { right; right. destruct (ending (w_in s)); destruct H as [H|H]; simplify_eq; done. }
  rewrite length_take, length_drop in Hfull.
  assert (Hlen : (recordHeaderSize + n <= length (avail (w_in s)))%nat) by lia.
  set (p := take n (drop recordHeaderSize (avail (w_in s)))) in *.
  destruct (if Checksum p =? _ then sequenceOf p else None) as [seq|] eqn:Hseq.
  2: { left. destruct H as [H|H]; simplify_eq. split; [done|]. exists (recordHeaderSize + n)%nat.
       split; [unfold recordHeaderSize in *; lia|done]. }
  destruct (_ || _) eqn:Hord.
  { left. destruct H as [H|H]; simplify_eq. split; [done|]. exists (recordHeaderSize + n)%nat.
    split; [unfold recordHeaderSize in *; lia|done]. }
  right; left. destruct (Z.eqb_spec (Checksum p) (be_get (slice 8 12 hdr))) as [Hcrc|]; [|done].
  apply orb_false_iff in Hord as [Hnz Hord]. bool_props.
  destruct (record_recognized (avail (w_in s)) Hlen Hmag) as (Hnz' & Hrec); [by symmetry|done|].
  fold hdr n in Hnz', Hrec. fold p in Hnz', Hrec.
  destruct (fn (w_acc s) seq p (w_off s + Z.of_nat (length (record p)))) as [acc cont] eqn:Hfn.
  unfold accept in *. rewrite record_length, Nat2Z.inj_add, Z.add_assoc in Hfn. rewrite Hnz' in *.
  rewrite Hfn in *. exists seq, p, acc, cont.
  assert (Hsi : ∀ q, w_prev s = Some q → q < seq).
  { intros q Hq. rewrite Hq in Hord. bool_props. lia. }
  assert (Hpo : payload_ok p) by (split; lia).
  rewrite record_length, Nat2Z.inj_add, Z.add_assoc.
  destruct cont; destruct H as [H|H]; simplify_eq; simpl; split_and!; try done; try lia.
  all: by destruct (w_damage s).
Qed.

Lemma walk_loop_invariant (P : walkState (A := A) → Prop) sz fuel : ∀ s s',
  (∀ s s', P s → step sz s = Continue s' ∨ step sz s = Break s' → P s') →
  P s → loop fuel sz s = Break s' → P s'.
Proof.
  induction fuel as [|fuel IH]; intros s s' HP Hs H; simpl in H; [done|].
  destruct (step sz s) as [s1|s1|s1] eqn:E; [|simplify_eq; eapply HP; eauto|done].
  eapply IH; [done| |done]. eapply HP; eauto.
Qed.

Lemma step_avail sz s s' :
  step sz s = Continue s' →
  (length (avail (w_in s')) < length (avail (w_in s)))%nat ∧ ending (w_in s') = ending (w_in s).
Proof.
  intros H. destruct (walk_step_cases sz s s' (or_introl H)) as [[_ (n & Hn & ->)]|[Ha|[Hb _]]].
  - simpl. rewrite length_drop. split; [lia|done].
  - destruct Ha as (seq & p & acc & cont & _ & Hrec & _ & _ & _ & _ & _ & _ & _ & _ & -> & _). simpl.
    split; [|done]. rewrite length_drop. apply (f_equal length) in Hrec. rewrite length_app in Hrec.
    rewrite record_length in *. unfold recordHeaderSize in *. lia.
  - congruence.
Qed.

(** One unit of fuel more than there are bytes never runs out, and a file without
    read errors is walked to a [Break]. *)
Lemma walk_fuel_enough sz fuel : ∀ s,
  (length (avail (w_in s)) < fuel)%nat → ending (w_in s) = EOF → ∃ s', loop fuel sz s = Break s'.
Proof.
  induction fuel as [|fuel IH]; intros s Hf He; [lia|]. simpl.
  destruct (step sz s) as [s1|s1|s1] eqn:E.
  - apply step_avail in E as [Hl He1]. apply IH; [lia|congruence].
  - by exists s1.
  - unfold walk_step in E. rewrite He in E. unfold accept in E. by go_cases_in E.
Qed.
End walk_facts.

(** ** What a walk delivers *)

Abbreviation delivered := (Z * list byte * Z)%type.

Definition collect (acc : list delivered) (seq : Z) (payload : list byte) (endd : Z) :
    list delivered * bool := ((seq, payload, endd) :: acc, true).

(** The records found, newest first: each is in the file, checked, and after the
    one before it, both in sequence and in place. *)
Fixpoint chain (sequenceOf : list byte → option Z) (file : list byte) (l : list delivered) : Prop :=
  match l with
  | [] => True
  | (seq, p, e) :: l =>
      payload_ok p ∧ sequenceOf p = Some seq ∧ seq ≠ 0 ∧
      slice (Z.to_nat e - length (record p)) (Z.to_nat e) file = record p ∧
      e <= Z.of_nat (length file) ∧
      match l with
      | [] => Z.of_nat (length (record p)) <= e
      | (seq', _, e') :: _ => seq' < seq ∧ e' + Z.of_nat (length (record p)) <= e
      end ∧
      chain sequenceOf file l
  end.

Definition last_end (l : list delivered) : Z := match l with [] => 0 | (_, _, e) :: _ => e end.
Definition last_seq (l : list delivered) : option Z :=
  match l with [] => None | (q, _, _) :: _ => Some q end.

Record walk_inv (sequenceOf : list byte → option Z) (file : list byte)
    (s : walkState (A := list delivered)) : Prop := {
  wi_in : w_in s = mkStream (drop (Z.to_nat (w_off s)) file) EOF;
  wi_off : 0 <= w_off s <= Z.of_nat (length file);
  wi_chain : chain sequenceOf file (w_acc s);
  wi_end : ws_validEnd (w_st s) = last_end (w_acc s) ∧ 0 <= last_end (w_acc s) <= w_off s;
  wi_prev : w_prev s = last_seq (w_acc s);
  wi_count : ws_count (w_st s) = Z.of_nat (length (w_acc s))
}.

Lemma skip_inv sequenceOf file s n :
  walk_inv sequenceOf file s → (n <= length (avail (w_in s)))%nat → walk_inv sequenceOf file (skip s n).
Proof.
  intros [Hin Hoff Hch Hend Hprev Hc] Hn. rewrite Hin in Hn. simpl in Hn. rewrite length_drop in Hn.
  split; simpl; try done; [|lia|split; [apply Hend|lia]].
  rewrite Hin. simpl. rewrite drop_drop. do 2 f_equal. lia.
Qed.

Lemma walk_step_inv sequenceOf file sz s s' :
  walk_inv sequenceOf file s →
  walk_step sequenceOf collect sz s = Continue s' ∨ walk_step sequenceOf collect sz s = Break s' →
  walk_inv sequenceOf file s'.
Proof.
  intros Hi H. destruct (walk_step_cases _ _ sz s s' H) as [[_ (n & Hn & ->)]|[Ha|[_ ->]]]; [..|done].
  { apply skip_inv; [done|lia]. }
  destruct Ha as (seq & p & acc & cont & Hp & Hrec & Hseq & Hnz & Hord & _ & Hfn & Hacc & Hpv & Hoff' & Hin'
    & _ & Hve & Hct & _).
  destruct Hi as [Hin Hoff Hch [Hend1 Hend2] Hprev Hc]. unfold collect in Hfn. injection Hfn as <- <-.
  rewrite Hin in Hrec. cbn [avail] in Hrec.
  assert (Hlen : (length (record p) <= length (drop (Z.to_nat (w_off s)) file))%nat)
    by (apply (f_equal length) in Hrec; rewrite length_app in Hrec; lia).
  pose proof (record_length p) as Hrl. rewrite length_drop in Hlen.
  split; rewrite ?Hacc, ?Hoff', ?Hin', ?Hpv, ?Hve, ?Hct, ?length_cons; cbn [chain last_end last_seq];
    try lia; try done.
  - rewrite Hin. cbn [avail ending]. rewrite drop_drop. do 2 f_equal. lia.
  - split_and!; try done; try lia.
    + unfold slice. replace (Z.to_nat (w_off s + Z.of_nat (length (record p))) - length (record p))%nat
        with (Z.to_nat (w_off s)) by lia.
      rewrite Hrec. replace (_ - _)%nat with (length (record p)) by lia. apply take_app_length.
    + destruct (w_acc s) as [|[[seq' p'] e'] l]; simpl in *; [lia|].
      split; [by apply Hord|lia].
Qed.

(** reading a segment is safe on any bytes whatsoever. The walk over an arbitrary
    file returns (it never runs out of fuel and reports no read error); every record
    it delivers is really in the file with a matching checksum, a length within the
    limit and the sequence number its payload carries; sequence numbers are nonzero
    and strictly increasing and records do not overlap; and the stats count exactly
    the records delivered and where the last one ends. *)
Theorem walk_sound sequenceOf file :
  ∃ st l, walk sequenceOf collect file 0 [] = (st, l, true) ∧
    chain sequenceOf file l ∧ ws_count st = Z.of_nat (length l) ∧ ws_validEnd st = last_end l ∧
    0 <= ws_validEnd st <= Z.of_nat (length file).
Proof.
  unfold walk, walkRecords. set (s0 := mkWalk _ _ _ _ _ _).
  assert (Hi0 : walk_inv sequenceOf file s0).
  { split; simpl; try done; lia. }
  destruct (walk_fuel_enough sequenceOf collect (Z.of_nat (length file))
    (length (avail (w_in s0)) + 1) s0) as [s' Hs']; [lia|done|].
  change (drop (Z.to_nat 0) file) with (avail (w_in s0)) at 1. cbn [avail] in *. rewrite Hs'.
  assert (Hi : walk_inv sequenceOf file s').
  { eapply (walk_loop_invariant sequenceOf collect (walk_inv sequenceOf file)); [|exact Hi0|exact Hs'].
    intros. by eapply walk_step_inv. }
  destruct Hi as [_ Hoff Hch [He1 He2] _ Hc].
  eexists _, _. split_and!; [done|done|done|done|lia..].
Qed.

(** ** Recovery after a crash *)

(** Records appended one after the other: their sequence numbers, above [prev]. *)
Fixpoint appended (sequenceOf : list byte → option Z) (prev : Z) (items : list (Z * list byte)) : Prop :=
  match items with
  | [] => True
  | (seq, p) :: items =>
      prev < seq ∧ payload_ok p ∧ sequenceOf p = Some seq ∧ appended sequenceOf seq items
  end.

Definition bytes_of_items (items : list (Z * list byte)) : list byte :=
  concat (record ∘ snd <$> items).

(** The walk meets a whole record. *)
Lemma walk_step_whole sequenceOf {A} (fn : A → Z → list byte → Z → A * bool) sz
    (x : walkState (A := A)) q p rest :
  avail (w_in x) = record p ++ rest → payload_ok p → sequenceOf p = Some q → q ≠ 0 →
  (∀ q', w_prev x = Some q' → q' < q) → w_off x + Z.of_nat (length (record p)) <= sz →
  walk_step sequenceOf fn sz x = accept fn x q p (w_off x + Z.of_nat (length (record p))).
Proof.
  intros Hin Hp Hseq Hnz Hprev Hsz. unfold walk_step. rewrite Hin.
  destruct (record_header p rest Hp) as (Hm & Hl & Hc). rewrite Hm, Hl, Hc, Nat2Z.id, record_payload.
  rewrite bool_decide_true by done. rewrite record_length, Nat2Z.inj_add, Z.add_assoc in *.
  destruct Hp as [Hp1 Hp2].
  destruct (Nat.ltb_spec (length (record p ++ rest)) recordHeaderSize) as [Hlt|_];
    [rewrite length_app, record_length in Hlt; lia|].
  destruct (Z.eqb_spec (Z.of_nat (length p)) 0); [lia|].
  destruct (Z.ltb_spec maxRecordSize (Z.of_nat (length p))); [lia|].
  destruct (Z.ltb_spec sz (w_off x + Z.of_nat recordHeaderSize + Z.of_nat (length p))); [lia|].
  simpl (_ || _). cbn iota. rewrite Nat.ltb_irrefl, Z.eqb_refl, Hseq.
  destruct (Z.eqb_spec q 0); [done|]. simpl (_ || _).
  replace (match w_prev x with Some p0 => q <=? p0 | None => false end) with false; [done|].
  destruct (w_prev x) as [q'|] eqn:E; [|done]. specialize (Hprev q' eq_refl). symmetry. apply Z.leb_gt. lia.
Qed.

Section recover.
Context (sequenceOf : list byte → option Z) {A : Type} (f : A → Z → list byte → Z → A).

(** A callback that never stops the walk. *)
Definition go_on (acc : A) (seq : Z) (p : list byte) (e : Z) : A * bool := (f acc seq p e, true).

Lemma walk_step_record sz s seq p rest :
  avail (w_in s) = record p ++ rest → payload_ok p → sequenceOf p = Some seq → seq ≠ 0 →
  (∀ q, w_prev s = Some q → q < seq) → w_off s + Z.of_nat (length (record p)) <= sz →
  w_damage s = false →
  walk_step sequenceOf go_on sz s =
  Continue (mkWalk (mkStats (ws_count (w_st s) + 1) (w_off s + Z.of_nat (length (record p)))
                      (ws_skipped (w_st s)) (ws_gapLow (w_st s)) (ws_gapHigh (w_st s)) (ws_torn (w_st s))
                      (ws_stopped (w_st s)))
              (mkStream rest (ending (w_in s))) (w_off s + Z.of_nat (length (record p))) (Some seq) false
              (f (w_acc s) seq p (w_off s + Z.of_nat (length (record p))))).
Proof.
  intros Hin Hp Hseq Hnz Hprev Hsz Hd. rewrite (walk_step_whole _ _ _ _ seq p rest) by done.
  unfold accept, go_on. rewrite Hd, Hin.
  by rewrite drop_app_length' by (by rewrite record_length).
Qed.

Fixpoint fold_items (acc : A) (off : Z) (items : list (Z * list byte)) : A :=
  match items with
  | [] => acc
  | (seq, p) :: items =>
      let e := off + Z.of_nat (length (record p)) in fold_items (f acc seq p e) e items
  end.

(** The walk over appended records, with [fuel] left for what follows. *)
Lemma walk_appended sz items : ∀ s prev rest fuel,
  avail (w_in s) = bytes_of_items items ++ rest → appended sequenceOf prev items → 0 <= prev →
  (∀ q, w_prev s = Some q → q <= prev) → w_damage s = false →
  w_off s + Z.of_nat (length (bytes_of_items items)) <= sz → w_off s = ws_validEnd (w_st s) →
  ∃ s', walk_loop sequenceOf go_on (length items + fuel) sz s = walk_loop sequenceOf go_on fuel sz s' ∧
    avail (w_in s') = rest ∧ ending (w_in s') = ending (w_in s) ∧
    w_off s' = w_off s + Z.of_nat (length (bytes_of_items items)) ∧ w_damage s' = false ∧
    w_acc s' = fold_items (w_acc s) (w_off s) items ∧
    w_st s' = mkStats (ws_count (w_st s) + Z.of_nat (length items)) (w_off s') (ws_skipped (w_st s))
                (ws_gapLow (w_st s)) (ws_gapHigh (w_st s)) (ws_torn (w_st s)) (ws_stopped (w_st s)).
Proof.
  induction items as [|[seq p] items IH]; intros s prev rest fuel Hin Happ Hpos Hprev Hd Hsz Hve.
  - exists s. simpl. split_and!; try done; [lia|]. rewrite Z.add_0_r, Hve. by destruct (w_st s).
  - destruct Happ as (Hlt & Hp & Hseq & Happ). unfold bytes_of_items in Hin, Hsz. rewrite fmap_cons in Hin, Hsz.
    cbn [concat compose snd] in Hin, Hsz. fold (bytes_of_items items) in Hin, Hsz.
    rewrite <- app_assoc in Hin. rewrite length_app in Hsz.
    pose proof (walk_step_record sz s seq p _ Hin Hp Hseq ltac:(lia)
      ltac:(intros q Hq; specialize (Hprev q Hq); lia) ltac:(lia) Hd) as Hstep.
    cbn [length Nat.add walk_loop]. rewrite Hstep.
    match type of Hstep with _ = Continue ?s1 =>
      destruct (IH s1 seq rest fuel) as (s' & Hrun & H1 & H2 & H3 & H4 & H5 & H6) end;
      [reflexivity|exact Happ|lia| |reflexivity| |reflexivity|].
    { simpl. intros q [= <-]. lia. }
    { cbn [w_off]. lia. }
    exists s'. rewrite Hrun. cbn [w_off w_st w_in w_acc ending ws_count ws_skipped ws_gapLow ws_gapHigh ws_torn ws_stopped] in *.
    split_and!; try done.
    + rewrite H3. unfold bytes_of_items at 2. rewrite fmap_cons. cbn [concat compose snd].
      fold (bytes_of_items items). rewrite length_app. lia.
    + rewrite H6. f_equal. lia.
Qed.

Lemma slice_take {B} i j n (l : list B) : (j <= n)%nat → slice i j (take n l) = slice i j l.
Proof. intros. unfold slice. rewrite skipn_firstn_comm, take_take. f_equal. lia. Qed.

(** Bytes without a plausible record start (the magic and a length within the limit)
    are skipped one at a time. *)
Definition no_start (l : list byte) : Prop :=
  ∀ i, (i + recordHeaderSize <= length l)%nat → slice i (i + 4) l = recordMagic →
    maxRecordSize < be_get (slice (i + 4) (i + 8) l).

Lemma slice_drop {B} i j n (l : list B) : slice i j (drop n l) = slice (n + i) (n + j) l.
Proof. unfold slice. rewrite drop_drop. by replace (n + j - (n + i))%nat with (j - i)%nat by lia. Qed.

Lemma no_start_drop l n : no_start l → no_start (drop n l).
Proof.
  intros H i Hi. rewrite !slice_drop, !Nat.add_assoc. rewrite length_drop in Hi.
  intros Hm. apply (H (n + i)%nat); [unfold recordHeaderSize in *; lia|done].
Qed.

Lemma walk_no_start sz fuel : ∀ s,
  no_start (avail (w_in s)) → ending (w_in s) = EOF → (length (avail (w_in s)) < fuel)%nat →
  ∃ s', walk_loop sequenceOf go_on fuel sz s = Break s' ∧ w_st s' = w_st s ∧ w_acc s' = w_acc s.
Proof.
  induction fuel as [|fuel IH]; intros s Hn He Hf; [lia|]. cbn [walk_loop]. unfold walk_step.
  destruct (Nat.ltb_spec (length (avail (w_in s))) recordHeaderSize) as [Hs|Hs].
  { rewrite He. by exists s. }
  rewrite !slice_take by (unfold recordHeaderSize; lia).
  replace (negb _ || _ || _ || _) with true.
  2: { symmetry. destruct (bool_decide_reflect (slice 0 4 (avail (w_in s)) = recordMagic)) as [Hm|]; [|done].
       specialize (Hn 0%nat Hs Hm). change (slice (0 + 4) (0 + 8)) with (slice (A := byte) 4 8) in Hn.
       apply Z.ltb_lt in Hn. rewrite Hn. by rewrite !orb_true_r. }
  cbn iota. destruct (IH (skip s 1)) as (s' & Hrun & Hst & Hacc).
  - simpl. by apply no_start_drop.
  - done.
  - simpl. rewrite length_drop. unfold recordHeaderSize in Hs. lia.
  - by exists s'.
Qed.

(** A record cut short is skipped, if no other record seems to start within it. *)
Lemma walk_cut sz fuel s q n :
  avail (w_in s) = take n (record q) → payload_ok q → (n < length (record q))%nat →
  no_start (drop 1 (take n (record q))) → w_off s + Z.of_nat n = sz → ending (w_in s) = EOF →
  (length (avail (w_in s)) < fuel)%nat →
  ∃ s', walk_loop sequenceOf go_on fuel sz s = Break s' ∧ w_st s' = w_st s ∧ w_acc s' = w_acc s.
Proof.
  intros Hin Hq Hn Hm Hsz He Hf. destruct fuel as [|fuel]; [lia|]. cbn [walk_loop]. unfold walk_step.
  destruct (Nat.ltb_spec (length (avail (w_in s))) recordHeaderSize) as [Hs|Hs].
  { rewrite He. by exists s. }
  rewrite Hin, length_take in Hs. rewrite record_length in Hn, Hs.
  destruct (record_header q [] Hq) as (Hmag & Hl & Hc). rewrite app_nil_r in *.
  assert (Hhdr : take recordHeaderSize (avail (w_in s)) = take recordHeaderSize (record q)).
  { rewrite Hin, take_take. f_equal. lia. }
  rewrite Hhdr, Hmag, Hl.
  destruct (Z.ltb_spec sz (w_off s + Z.of_nat recordHeaderSize + Z.of_nat (length q))) as [_|]; [|lia].
  rewrite orb_true_r. destruct (walk_no_start sz fuel (skip s 1)) as (s' & Hrun & Hst & Hacc).
  - simpl. by rewrite Hin.
  - done.
  - simpl. rewrite length_drop. unfold recordHeaderSize in *. rewrite Hin, length_take in *. rewrite record_length in *. lia.
  - by exists s'.
Qed.
End recover.

(** The callback of [scanSegment], which never stops. *)
Definition scan_fn (sg : segment) (seq : Z) (_ : list byte) (_ : Z) : segment :=
  mkSegment (path sg) (if count sg =? 0 then seq else base sg) seq (count sg + 1) (size sg)
    (reported sg) (undecodable sg).

Lemma list_last_cons {B} (x d : B) l : List.last (x :: l) d = List.last l x.
Proof.
  revert x d. induction l as [|y l IH]; intros x d; [done|].
  change (List.last (x :: y :: l) d) with (List.last (y :: l) d). by rewrite !IH.
Qed.

Lemma fold_scan items : ∀ sg off,
  0 < count sg →
  fold_items scan_fn sg off items =
  mkSegment (path sg) (base sg) (List.last (fst <$> items) (last sg)) (count sg + Z.of_nat (length items))
    (size sg) (reported sg) (undecodable sg).
Proof.
  induction items as [|[seq p] items IH]; intros sg off Hc; cbn [fold_items].
  - rewrite Z.add_0_r. by destruct sg.
  - rewrite IH by (unfold scan_fn; simpl; lia). unfold scan_fn. cbn [path base last count size reported undecodable].
    destruct (Z.eqb_spec (count sg) 0); [lia|]. rewrite fmap_cons, length_cons. f_equal; [|lia].
    by rewrite list_last_cons.
Qed.

(** What a scan makes of a segment that holds [items]. *)
Definition scanned (name : string) (nameBase : Z) (items : list (Z * list byte)) : segment :=
  match items with
  | [] => mkSegment name nameBase 0 0 0 0 0
  | (seq, _) :: rest =>
      mkSegment name seq (List.last (fst <$> rest) seq) (Z.of_nat (length items))
        (Z.of_nat (length (bytes_of_items items))) 0 0
  end.

Lemma bytes_of_items_cons it items :
  bytes_of_items (it :: items) = record (snd it) ++ bytes_of_items items.
Proof. done. Qed.

Lemma bytes_of_items_app l k : bytes_of_items (l ++ k) = bytes_of_items l ++ bytes_of_items k.
Proof. unfold bytes_of_items. by rewrite fmap_app, concat_app. Qed.

Lemma bytes_of_items_length items : (length items <= length (bytes_of_items items))%nat.
Proof.
  induction items as [|it items IH]; [done|]. rewrite bytes_of_items_cons, length_app, record_length.
  unfold recordHeaderSize. simpl. lia.
Qed.

(** A file of appended records followed by a torn one. *)
Lemma scan_torn sequenceOf name nameBase items q n :
  appended sequenceOf 0 items → payload_ok q → (n < length (record q))%nat →
  no_start (drop 1 (take n (record q))) →
  let kept := bytes_of_items items in
  scanSegment sequenceOf name nameBase (kept ++ take n (record q)) =
  (scanned name nameBase items,
   mkStats (Z.of_nat (length items)) (Z.of_nat (length kept)) 0 0 0 (Z.of_nat n) false, kept).
Proof.
  intros Happ Hq Hn Hm kept. unfold scanSegment, walk, walkRecords.
  set (file := kept ++ take n (record q)).
  assert (Hfl : length file = (length kept + n)%nat).
  { unfold file. rewrite length_app, length_take. lia. }
  pose proof (bytes_of_items_length items : (_ <= length kept)%nat) as Hklen.
  cbn [avail]. change (drop (Z.to_nat 0) file) with file.
  change (λ (sg : segment) (seq0 : Z) (_ : list byte) (_ : Z), _) with (go_on scan_fn).
  set (s0 := mkWalk _ _ _ _ _ _). replace (length file + 1)%nat
    with (length items + (length file + 1 - length items))%nat by lia.
  destruct (walk_appended sequenceOf scan_fn (Z.of_nat (length file)) items s0 0
    (take n (record q)) (length file + 1 - length items))
    as (s1 & -> & Hin & He & Hoff & Hd & Hacc & Hst); try done; [unfold s0; cbn [w_off]; fold kept; lia|].
  destruct (walk_cut sequenceOf scan_fn (Z.of_nat (length file)) (length file + 1 - length items) s1 q n)
    as (s2 & -> & Hst2 & Hacc2); try done.
  { rewrite Hoff. fold kept. unfold s0. cbn [w_off]. lia. }
  { rewrite Hin, length_take. lia. }
  rewrite Hst2, Hacc2, Hst, Hacc, Hoff. fold kept. unfold s0.
  cbn [w_acc w_off w_st ws_count ws_validEnd ws_skipped ws_gapLow ws_gapHigh ws_torn ws_stopped
       start_stats]. rewrite !Z.add_0_l, Hfl. simpl (negb _ && _). simpl (0 <? 0). cbn iota. rewrite Nat2Z.id.
  unfold file. rewrite take_app_length. repeat match goal with |- (_, _) = (_, _) => f_equal end.
  - unfold kept. destruct items as [|[seq p] items]; [done|]. cbn [fold_items]. rewrite fold_scan by (simpl; lia).
    unfold scan_fn, scanned. cbn [path base last count size reported undecodable]. simpl (0 =? 0). cbn iota.
    f_equal. rewrite length_cons. lia.
  - f_equal. destruct (Z.ltb_spec (Z.of_nat (length kept)) (Z.of_nat (length kept + n))); lia.
Qed.


(** In text a record starts nowhere: bytes that are not zero spell a length far above
    the limit.  So a torn record of a text payload hides no other record, unless its
    own length and checksum spell the magic. *)
Definition header_clean (p : list byte) : Prop :=
  ∀ i, (1 <= i < 8)%nat → slice i (i + 4) (record p) ≠ recordMagic.

Lemma be_get_nonzero b l : b ≠ x00 → 256 ^ Z.of_nat (length l) <= be_get (b :: l).
Proof.
  intros Hb. unfold be_get; fold be_get. pose proof (be_get_range l). pose proof (b2z_range b).
  assert (b2z b ≠ 0) by (intros Hz; apply Hb, b2z_inj; by rewrite Hz).
  pose proof (pow256_pos (length l)). assert (1 * 256 ^ Z.of_nat (length l) <= b2z b * 256 ^ Z.of_nat (length l)) by (apply Z.mul_le_mono_nonneg_r; lia). lia.
Qed.

Lemma text_no_start p n :
  payload_ok p → x00 ∉ p → header_clean p → no_start (drop 1 (take n (record p))).
Proof.
  intros Hp H0 Hh i Hi. rewrite !slice_drop. rewrite length_drop, length_take in Hi.
  rewrite !slice_take by (unfold recordHeaderSize in *; lia). intros Hm.
  destruct (decide (1 + i < 8)%nat) as [Hlt|Hge]; [destruct (Hh (1 + i)%nat); [lia|done]|].
  rewrite record_length in Hi. unfold recordHeaderSize in Hi.
  assert (Hs : slice (1 + (i + 4)) (1 + (i + 8)) (record p) = slice (i + 5 - 12) (i + 9 - 12) p).
  { change (record p) with (encodeRecord [] p). unfold slice, encodeRecord. rewrite app_nil_l, !app_assoc.
    rewrite drop_app_ge by (rewrite !length_app, !be_put_length; simpl; lia).
    rewrite !length_app, !be_put_length. f_equal; [lia|f_equal; simpl; lia]. }
  rewrite Hs. unfold slice. destruct (drop (i + 5 - 12) p) as [|b l] eqn:E.
  { apply (f_equal length) in E. rewrite length_drop in E. simpl in E. lia. }
  assert (Hb : b ≠ x00).
  { intros ->. apply H0. rewrite <- (take_drop (i + 5 - 12) p), E. set_solver. }
  replace (i + 9 - 12 - (i + 5 - 12))%nat with 4%nat by lia. cbn [take].
  pose proof (be_get_nonzero b (take 3 l) Hb) as Hg. apply (f_equal length) in E.
  rewrite length_drop in E. cbn [length] in E. rewrite length_take, Nat.min_l in Hg by lia.
  unfold maxRecordSize. lia.
Qed.

(** ** Repairing twice *)

Section truncate.
Context (sequenceOf : list byte → option Z) {A : Type} (f : A → Z → list byte → Z → A).
Abbreviation step := (walk_step sequenceOf (go_on f)).
Abbreviation loop := (walk_loop sequenceOf (go_on f)).

(** The walk at the same point of the file cut at [V]. *)
Definition cut (V : Z) (s : walkState (A := A)) : walkState :=
  mkWalk (w_st s) (mkStream (take (Z.to_nat (V - w_off s)) (avail (w_in s))) EOF) (w_off s) (w_prev s)
    (w_damage s) (w_acc s).

Lemma cut_skip V s n : w_off s + Z.of_nat n <= V → skip (cut V s) n = cut V (skip s n).
Proof.
  intros Hn. unfold skip, cut. cbn [w_in w_off w_st w_prev w_acc w_damage avail ending].
  rewrite skipn_firstn_comm. do 3 f_equal. lia.
Qed.

(** An iteration that stays below [V] is the same on the cut file. *)
Lemma step_cut sz V s s' :
  step sz s = Continue s' → V <= sz → w_off s + 13 <= V → w_off s' <= V →
  step V (cut V s) = Continue (cut V s').
Proof.
  intros H HV H13 Hoff. unfold walk_step in *. cbv zeta in *.
  assert (Hin : avail (w_in (cut V s)) = take (Z.to_nat (V - w_off s)) (avail (w_in s))) by done.
  rewrite Hin. change (w_off (cut V s)) with (w_off s). change (w_prev (cut V s)) with (w_prev s).
  change (ending (w_in (cut V s))) with EOF.
  destruct (Nat.ltb_spec (length (avail (w_in s))) recordHeaderSize) as [|Hlen]; [by destruct (ending (w_in s))|].
  destruct (Nat.ltb_spec (length (take (Z.to_nat (V - w_off s)) (avail (w_in s)))) recordHeaderSize) as [Hs|_];
    [rewrite length_take in Hs; unfold recordHeaderSize in *; lia|].
  rewrite take_take, Nat.min_l by (unfold recordHeaderSize; lia).
  set (hdr := take recordHeaderSize (avail (w_in s))) in *.
  set (len := be_get (slice 4 8 hdr)) in *.
  set (bad := negb (bool_decide (slice 0 4 hdr = recordMagic)) || (len =? 0) || (maxRecordSize <? len)) in *.
  destruct (bad || (sz <? w_off s + Z.of_nat recordHeaderSize + len)) eqn:Hc.
  { injection H as <-. replace (bad || (V <? _)) with true; [by rewrite cut_skip by (simpl in *; lia)|].
    symmetry. apply orb_true_iff in Hc as [->|Hc]; [done|]. bool_props.
    rewrite (proj2 (Z.ltb_lt _ _)) by lia. apply orb_true_r. }
  apply orb_false_iff in Hc as [Hbad _]. rewrite Hbad. simpl (false || _).
  set (n := Z.to_nat len) in *. pose proof (be_get_range (slice 4 8 hdr)) as Hr. fold len in Hr.
  set (payload := take n (drop recordHeaderSize (avail (w_in s)))) in *.
  destruct (Nat.ltb_spec (length payload) n) as [|Hpl]; [by destruct (ending (w_in s))|].
  assert (Hend : w_off s' = w_off s + Z.of_nat recordHeaderSize + len).
  { unfold accept, go_on in H. go_cases_in H; cbn [skip w_off]; unfold n, recordHeaderSize; lia. }
  rewrite Hend in Hoff. destruct (Z.ltb_spec V (w_off s + Z.of_nat recordHeaderSize + len)); [lia|].
  replace (take n (drop recordHeaderSize (take (Z.to_nat (V - w_off s)) (avail (w_in s))))) with payload.
  2: { unfold payload. rewrite skipn_firstn_comm, take_take. f_equal. unfold n. lia. }
  destruct (Nat.ltb_spec (length payload) n); [lia|].
  assert (Hsk : Continue (skip (cut V s) (recordHeaderSize + n)) = Continue (cut V (skip s (recordHeaderSize + n)))).
  { by rewrite cut_skip by lia. }
  revert H. destruct (if Checksum payload =? be_get (slice 8 12 hdr) then sequenceOf payload else None)
    as [seq|]; intros H; [|by injection H as <-].
  destruct (_ || _) in H |- *; [by injection H as <-|]. unfold accept, go_on in *. injection H as <-.
  rewrite Hin. unfold cut. cbn [w_in w_off w_st w_prev w_acc w_damage avail ending].
  rewrite skipn_firstn_comm. do 4 f_equal. unfold payload in *. rewrite length_take, length_drop in *. lia.
Qed.

(** What is left of a walk either changes nothing or finds a record. *)
Lemma walk_final sz fuel : ∀ s sf,
  loop fuel sz s = Break sf →
  (w_st sf = w_st s ∧ w_acc sf = w_acc s) ∨ w_off s + 13 <= ws_validEnd (w_st sf).
Proof.
  induction fuel as [|fuel IH]; intros s sf H; [done|]. cbn [walk_loop] in H.
  destruct (step sz s) as [s1|s1|s1] eqn:E; [| |done].
  - specialize (IH _ _ H).
    destruct (walk_step_cases _ _ sz s s1 (or_introl E)) as [[_ (n & Hn & ->)]|[Ha|[? _]]]; [| |congruence].
    + cbn [skip w_st w_acc w_off] in IH. destruct IH as [IH|IH]; [by left|right; lia].
    + destruct Ha as (seq & p & acc & cont & [Hp _] & _ & _ & _ & _ & _ & _ & _ & _ & Hoff & _ & _ & Hve & _).
      rewrite record_length in Hoff. unfold recordHeaderSize in Hoff. right.
      destruct IH as [[-> _]|IH]; lia.
  - injection H as <-. destruct (walk_step_cases _ _ sz s s1 (or_intror E)) as [[? _]|[Ha|[_ ->]]];
      [congruence| |by left].
    destruct Ha as (seq & p & acc & cont & _ & _ & _ & _ & _ & _ & Hfn & _ & _ & _ & _ & _ & _ & _ & Hst).
    unfold go_on in Hfn. injection Hfn as <- <-. congruence.
Qed.

(** The walk over the file cut at the end of the last valid record finds the same. *)
Lemma walk_cut_same sz fuel : ∀ s sf,
  loop fuel sz s = Break sf → ws_validEnd (w_st sf) <= sz → ws_validEnd (w_st s) <= w_off s →
  ∃ sf', loop fuel (ws_validEnd (w_st sf)) (cut (ws_validEnd (w_st sf)) s) = Break sf' ∧
         w_st sf' = w_st sf ∧ w_acc sf' = w_acc sf.
Proof.
  induction fuel as [|fuel IH]; intros s sf H Hsz Hve; [done|].
  pose proof (walk_final _ _ _ _ H) as [[Hst Hacc]|H13].
  - cbn [walk_loop]. unfold walk_step. cbn [cut w_in avail].
    replace (Z.to_nat (ws_validEnd (w_st sf) - w_off s)) with 0%nat by (rewrite Hst; lia).
    simpl. eexists. split; [done|]. simpl. by rewrite Hst, Hacc.
  - cbn [walk_loop] in *. destruct (step sz s) as [s1|s1|s1] eqn:E; [| |done].
    + assert (Hoff : w_off s1 <= ws_validEnd (w_st sf) ∧ ws_validEnd (w_st s1) <= w_off s1).
      { pose proof (walk_final _ _ _ _ H) as Hf.
        destruct (walk_step_cases _ _ sz s s1 (or_introl E)) as [[_ (n & Hn & ->)]|[Ha|[? _]]]; [| |congruence].
        - cbn [skip w_st w_off] in *. destruct Hf as [[Hf _]|Hf]; [rewrite Hf in H13; lia|lia].
        - destruct Ha as (seq & p & acc & cont & _ & _ & _ & _ & _ & _ & _ & _ & _ & _ & _ & _ & Hv & _).
          destruct Hf as [[Hf _]|Hf]; [rewrite Hf|]; lia. }
      destruct Hoff as [Hoff Hve1]. rewrite (step_cut sz _ s s1) by done. by apply IH.
    + injection H as <-. destruct (walk_step_cases _ _ sz s s1 (or_intror E)) as [[? _]|[Ha|[_ ->]]];
        [congruence| |lia].
      destruct Ha as (seq & p & acc & cont & _ & _ & _ & _ & _ & _ & Hfn & _ & _ & _ & _ & _ & _ & _ & Hst).
      unfold go_on in Hfn. injection Hfn as <- <-. congruence.
Qed.
End truncate.

Lemma walk_loop_more sequenceOf {A} (fn : A → Z → list byte → Z → A * bool) sz fuel fuel' : ∀ s sf,
  walk_loop sequenceOf fn fuel sz s = Break sf → (fuel <= fuel')%nat →
  walk_loop sequenceOf fn fuel' sz s = Break sf.
Proof.
  revert fuel'. induction fuel as [|fuel IH]; intros [|fuel'] s sf H Hle; try done; [lia|].
  cbn [walk_loop] in *. destruct (walk_step sequenceOf fn sz s); [|done..]. apply IH; [done|lia].
Qed.

(** [scanSegment] by way of its walk. *)
Definition scan_result (nameBase : Z) (file : list byte) (st : walkStats) (sg : segment) :
    segment * walkStats * list byte :=
  let low := if negb (ws_gapLow st =? 0) && (ws_gapLow st <? nameBase) then nameBase else ws_gapLow st in
  (mkSegment (path sg) (base sg) (last sg) (count sg) (ws_validEnd st) (ws_skipped st) (undecodable sg),
   mkStats (ws_count st) (ws_validEnd st) (ws_skipped st) low
     (if ws_gapHigh st <? low then low else ws_gapHigh st)
     (if ws_validEnd st <? Z.of_nat (length file) then Z.of_nat (length file) - ws_validEnd st else 0)
     (ws_stopped st),
   take (Z.to_nat (ws_validEnd st)) file).

Definition scan_start (name : string) (nameBase : Z) (file : list byte) : walkState :=
  mkWalk (start_stats 0) (mkStream file EOF) 0 None false (mkSegment name nameBase 0 0 0 0 0).

Lemma scanSegment_walk sequenceOf name nameBase file sf :
  walk_loop sequenceOf (go_on scan_fn) (length file + 1) (Z.of_nat (length file))
    (scan_start name nameBase file) = Break sf →
  scanSegment sequenceOf name nameBase file = scan_result nameBase file (w_st sf) (w_acc sf).
Proof.
  intros H. unfold scanSegment, walk, walkRecords.
  change (λ (sg : segment) (seq0 : Z) (_ : list byte) (_ : Z), _) with (go_on scan_fn).
  cbn [avail]. change (drop (Z.to_nat 0) file) with file. unfold scan_start in H. by rewrite H.
Qed.

Lemma walk_end_bounded sequenceOf name nameBase file sf :
  walk_loop sequenceOf (go_on scan_fn) (length file + 1) (Z.of_nat (length file))
    (scan_start name nameBase file) = Break sf →
  0 <= ws_validEnd (w_st sf) <= Z.of_nat (length file).
Proof.
  intros H. eapply (walk_loop_invariant sequenceOf (go_on scan_fn)
    (λ s, 0 <= ws_validEnd (w_st s) <= Z.of_nat (length file) ∧ 0 <= w_off s)); [| |exact H].
  - intros s s' [Hv Ho] Hs. destruct (walk_step_cases _ _ _ s s' Hs) as [[_ (n & _ & ->)]|[Ha|[_ ->]]]; [| |done].
    + cbn [skip w_st w_off]. split; [done|lia].
    + destruct Ha as (seq & p & acc & cont & _ & _ & _ & _ & _ & Hsz & _ & _ & _ & Hoff & _ & _ & Hve & _). lia.
  - simpl. lia.
Qed.

(** repairing a segment is idempotent. Whatever the file held, scanning the file
    that scanSegment leaves behind recovers the same segment with the same records,
    corruption count and gap, finds no torn tail any more and changes nothing. *)
Theorem scan_idempotent sequenceOf name nameBase file sg st file' :
  scanSegment sequenceOf name nameBase file = (sg, st, file') →
  scanSegment sequenceOf name nameBase file' =
  (sg, mkStats (ws_count st) (ws_validEnd st) (ws_skipped st) (ws_gapLow st) (ws_gapHigh st) 0
         (ws_stopped st), file').
Proof.
  intros H.
  destruct (walk_fuel_enough sequenceOf (go_on scan_fn) (Z.of_nat (length file)) (length file + 1)
    (scan_start name nameBase file)) as [sf Hsf]; [simpl; lia|done|].
  rewrite (scanSegment_walk _ _ _ _ _ Hsf) in H. pose proof (walk_end_bounded _ _ _ _ _ Hsf) as Hb.
  destruct (walk_cut_same sequenceOf scan_fn _ _ _ _ Hsf) as (sf' & Hsf' & Hst & Hacc); [lia|simpl; lia|].
  set (V := ws_validEnd (w_st sf)) in *.
  assert (Hlen : length file' = Z.to_nat V).
  { unfold scan_result in H. injection H as _ _ <-. rewrite length_take. fold V. lia. }
  assert (Hcut : cut V (scan_start name nameBase file) = scan_start name nameBase file').
  { unfold scan_result in H. injection H as _ _ <-. unfold cut, scan_start. simpl. by rewrite Z.sub_0_r. }
  rewrite Hcut in Hsf'.
  destruct (walk_fuel_enough sequenceOf (go_on scan_fn) (Z.of_nat (length file')) (length file' + 1)
    (scan_start name nameBase file')) as [sf2 Hsf2]; [simpl; lia|done|].
  assert (sf2 = sf') as ->.
  { replace (Z.of_nat (length file')) with V in Hsf2 by lia.
    apply (walk_loop_more _ _ _ _ (length file + 1)) in Hsf2; [|lia]. congruence. }
  rewrite (scanSegment_walk _ _ _ _ _ Hsf2), Hst, Hacc. unfold scan_result in *. fold V in H |- *.
  rewrite Hlen. destruct (Z.ltb_spec V (Z.of_nat (Z.to_nat V))); [lia|].
  injection H as <- <- <-. cbn [ws_count ws_validEnd ws_skipped ws_gapLow ws_gapHigh ws_stopped].
  f_equal. by rewrite take_take, Nat.min_id.
Qed.

(** a record cut short whose header survived hides what follows it. After a torn
    write (15 of 32 bytes here) another record is appended in full, as Append does
    after a failed write: the walk trusts the length of the torn header, finds the
    checksum wrong and continues behind the length it claims, so the complete,
    valid record is never delivered, although on its own it is. *)
Theorem torn_header_hides_record :
  let big := replicate 20 x61 in
  let small := be_put 8 7 in
  let seq_of p := if (length p =? 8)%nat then Some (be_get p) else None in
  walk seq_of collect (record small) 0 [] = (mkStats 1 20 0 0 0 0 false, [(7, small, 20)], true) ∧
  walk seq_of collect (take 15 (record big) ++ record small) 0 [] = (mkStats 0 0 0 0 0 0 false, [], true).
Proof. vm_compute. done. Qed.

(** ** Segment names *)

Lemma parse_segmentName seq : is_u64 seq → parseSegmentName (segmentName seq) = Some seq.
Proof.
  intros Hu. unfold parseSegmentName, segmentName. rewrite (proj2 (CutSuffix_spec _ _ _) eq_refl).
  unfold len. rewrite <- length_to_chars, to_of_chars, digits_length. simpl (negb _). cbn iota.
  unfold ParseUint. rewrite to_of_chars, fold_parse_digits; [done|lia| |].
  - unfold is_u64, u64_mod, segmentNameDigits in *. simpl. lia.
  - unfold is_u64 in Hu. lia.
Qed.

(** segment names are an exact, fixed-width encoding of sequence numbers.
    parseSegmentName accepts a file name exactly when segmentName produces it for
    some uint64, and then returns that number. *)
Theorem segment_name_exact name seq :
  parseSegmentName name = Some seq ↔ is_u64 seq ∧ name = segmentName seq.
Proof.
  split.
  - unfold parseSegmentName, segmentName. destruct (CutSuffix name segmentSuffix) as [ds|] eqn:Ec; [|done]. apply CutSuffix_spec in Ec as ->.
    destruct (Z.eqb_spec (len ds) (Z.of_nat segmentNameDigits)) as [Hl|]; [|done]. simpl.
    unfold ParseUint. destruct (String.eqb ds ""); [done|]. intros H.
    apply fold_parse_inv in H as (w & Hw & -> & Hd & Hv); [|unfold u64_mod; lia].
    unfold len in Hl. rewrite <- length_to_chars in Hl. apply Nat2Z.inj in Hl. rewrite Hl in *.
    rewrite Z.mul_0_l, Z.add_0_l in *. split; [unfold is_u64; lia|].
    f_equal. rewrite <- (of_to_chars ds), Hd. done.
  - intros [Hu ->]. by apply parse_segmentName.
Qed.

(** ** Concrete recoveries *)

Definition demo_seq_of (p : list byte) : option Z :=
  if (length p =? 8)%nat then Some (be_get p) else None.

(** Two records and half of a third. *)
Definition demo_items : list (Z * list byte) := [(5, be_put 8 5); (9, be_put 8 9)].

Lemma demo_no_start : no_start (drop 1 (take 15 (record (be_put 8 10)))).
Proof.
  intros i. destruct (decide (i < 12)%nat) as [Hi|Hi].
  - do 12 (destruct i as [|i]; [vm_compute; done|]). lia.
  - rewrite length_drop, length_take. unfold recordHeaderSize. lia.
Qed.


Lemma scan_idempotent_witness :
  scanSegment demo_seq_of "s" 5 (bytes_of_items demo_items) =
  (mkSegment "s" 5 9 2 40 0 0, mkStats 2 40 0 0 0 0 false, bytes_of_items demo_items).
Proof.
  apply (scan_idempotent demo_seq_of "s" 5 (bytes_of_items demo_items ++ [x53; x52])
           (mkSegment "s" 5 9 2 40 0 0) (mkStats 2 40 0 0 0 2 false)).
  vm_compute. reflexivity.
Defined.
