(* ===== verification/Dedup.v ===== *)
(** * Deduplication and gap accounting on the host

    [SauronAgent/internal/host/dedup.go], [arrival.go] and the ledger half of
    [pending_gaps.go]: per guest stream a watermark (what the host acknowledges), the
    sequences written ahead of it, the ranges reported missing, the gaps whose report
    is pending, and the arrivals in flight.  [d.mu] makes each operation atomic.

    The order in which Go ranges over the [arrivals] map is the argument [order] of
    the operations it may matter to: any list, of which only the keys of the map are
    visited.  A [*dedupStream] is the stream with its [identity]; [output.Source] is
    the type parameter [Source], and cloning one is not visible here. *)

From S2P Require Import Prelude.

Definition minDedupWindow : Z := 64.
Definition maxMissingRanges : nat := 64.

Definition streamKey : Type := string * string.

Record seqRange : Type := mkRange { first : Z; last : Z }.

Record gapVersion : Type := mkVersion { v_stream : Z; v_generation : Z }.

Record dedupResult : Type := mkResult {
  Duplicate : bool;
  Gap : option (seqRange * gapVersion);
  Blocked : bool
}.

Definition no_result : dedupResult := mkResult false None false.

Definition set_Blocked (r : dedupResult) : dedupResult := mkResult (Duplicate r) (Gap r) true.

Section dedup.
Context {Source : Type}.

Record dedupStream : Type := mkStreamState {
  identity : Z;
  arrivals : gmap Z Z;
  arrivalOverflow : bool;
  written : Z;
  ahead : gset Z;
  missing : list seqRange;
  pending : list seqRange;
  gapSource : option Source;
  gapGeneration : Z;
  nextGapClaim : Z;
  activeGapClaim : Z;
  highest : Z;
  forgotten : Z;
  used : Z
}.

(** Field updates. *)
Section updates.
Context (s : dedupStream).
Definition set_arrivals x := mkStreamState (identity s) x (arrivalOverflow s) (written s) (ahead s) (missing s)
  (pending s) (gapSource s) (gapGeneration s) (nextGapClaim s) (activeGapClaim s) (highest s) (forgotten s) (used s).
Definition set_arrivalOverflow x := mkStreamState (identity s) (arrivals s) x (written s) (ahead s) (missing s)
  (pending s) (gapSource s) (gapGeneration s) (nextGapClaim s) (activeGapClaim s) (highest s) (forgotten s) (used s).
Definition set_written x := mkStreamState (identity s) (arrivals s) (arrivalOverflow s) x (ahead s) (missing s)
  (pending s) (gapSource s) (gapGeneration s) (nextGapClaim s) (activeGapClaim s) (highest s) (forgotten s) (used s).
Definition set_ahead x := mkStreamState (identity s) (arrivals s) (arrivalOverflow s) (written s) x (missing s)
  (pending s) (gapSource s) (gapGeneration s) (nextGapClaim s) (activeGapClaim s) (highest s) (forgotten s) (used s).
Definition set_missing x := mkStreamState (identity s) (arrivals s) (arrivalOverflow s) (written s) (ahead s) x
  (pending s) (gapSource s) (gapGeneration s) (nextGapClaim s) (activeGapClaim s) (highest s) (forgotten s) (used s).
Definition set_pending x := mkStreamState (identity s) (arrivals s) (arrivalOverflow s) (written s) (ahead s) (missing s)
  x (gapSource s) (gapGeneration s) (nextGapClaim s) (activeGapClaim s) (highest s) (forgotten s) (used s).
Definition set_gapSource x := mkStreamState (identity s) (arrivals s) (arrivalOverflow s) (written s) (ahead s)
  (missing s) (pending s) x (gapGeneration s) (nextGapClaim s) (activeGapClaim s) (highest s) (forgotten s) (used s).
Definition set_gapGeneration x := mkStreamState (identity s) (arrivals s) (arrivalOverflow s) (written s) (ahead s)
  (missing s) (pending s) (gapSource s) x (nextGapClaim s) (activeGapClaim s) (highest s) (forgotten s) (used s).
Definition set_claims x y := mkStreamState (identity s) (arrivals s) (arrivalOverflow s) (written s) (ahead s)
  (missing s) (pending s) (gapSource s) (gapGeneration s) x y (highest s) (forgotten s) (used s).
Definition set_highest x := mkStreamState (identity s) (arrivals s) (arrivalOverflow s) (written s) (ahead s)
  (missing s) (pending s) (gapSource s) (gapGeneration s) (nextGapClaim s) (activeGapClaim s) x (forgotten s) (used s).
Definition set_forgotten x := mkStreamState (identity s) (arrivals s) (arrivalOverflow s) (written s) (ahead s)
  (missing s) (pending s) (gapSource s) (gapGeneration s) (nextGapClaim s) (activeGapClaim s) (highest s) x (used s).
Definition set_used x := mkStreamState (identity s) (arrivals s) (arrivalOverflow s) (written s) (ahead s)
  (missing s) (pending s) (gapSource s) (gapGeneration s) (nextGapClaim s) (activeGapClaim s) (highest s) (forgotten s) x.
End updates.

(** [x++], skipping zero on wrap-around. *)
Definition next_nonzero (x : Z) : Z := let x := u64 (x + 1) in if x =? 0 then u64 (x + 1) else x.

(** ** Ranges *)

(** [slices.SortFunc] by [first].  Ranges with the same [first] may come in either
    order; no caller depends on it. *)
Fixpoint insert_range (r : seqRange) (l : list seqRange) : list seqRange :=
  match l with
  | [] => [r]
  | r' :: l' => if first r <=? first r' then r :: l else r' :: insert_range r l'
  end.
Definition SortFunc (l : list seqRange) : list seqRange := foldr insert_range [] l.

(** Whether two ranges neither overlap nor touch. *)
Definition apart (f l : Z) (r : seqRange) : bool :=
  (last r <? f) && (1 <? f - last r) || (l <? first r) && (1 <? first r - l).

(** The loop of [queueMissing]: the ranges kept, and the coalesced bounds. *)
Fixpoint coalesce (f l : Z) (ranges : list seqRange) : list seqRange * Z * Z :=
  match ranges with
  | [] => ([], f, l)
  | r :: ranges =>
      if apart f l r
      then let '(kept, f, l) := coalesce f l ranges in (r :: kept, f, l)
      else coalesce (Z.min f (first r)) (Z.max l (last r)) ranges
  end.

(** [subtractRange]; [None] is a refusal. *)
Definition subtract_one (f l : Z) (r : seqRange) : list seqRange :=
  if (l <? first r) || (last r <? f) then [r]
  else (if first r <? f then [mkRange (first r) (u64 (f - 1))] else [])
       ++ (if l <? last r then [mkRange (u64 (l + 1)) (last r)] else []).

Definition subtractRange (ranges : list seqRange) (f l : Z) : option (list seqRange) :=
  if l <? f then Some ranges
  else let result := ranges ≫= subtract_one f l in
       if (maxMissingRanges <? length result)%nat then None else Some result.

(** ** One stream *)

Definition clearGapSourceIfDrained (s : dedupStream) : dedupStream :=
  match pending s with [] => set_gapSource s None | _ => s end.

(** The loop of [excludePending] over the ranges; [room] tells whether one more
    range fits. [None] is a refusal, and the flag whether a range was changed. *)
Fixpoint exclude_from (room : bool) (seq : Z) (l : list seqRange) : option (list seqRange * bool) :=
  match l with
  | [] => Some ([], false)
  | gap :: l' =>
      if seq <? first gap then Some (l, false)
      else if last gap <? seq then
        (λ '(l', c), (gap :: l', c)) <$> exclude_from room seq l'
      else if first gap =? last gap then Some (l', true)
      else if seq =? first gap then Some (mkRange (u64 (first gap + 1)) (last gap) :: l', true)
      else if seq =? last gap then Some (mkRange (first gap) (u64 (last gap - 1)) :: l', true)
      else if room
           then Some (mkRange (first gap) (u64 (seq - 1)) :: mkRange (u64 (seq + 1)) (last gap) :: l', true)
           else None
  end.

Definition excludePending (s : dedupStream) (seq : Z) : option dedupStream :=
  match exclude_from (length (pending s) <? maxMissingRanges)%nat seq (pending s) with
  | None => None
  | Some (l, true) => Some (clearGapSourceIfDrained (set_pending s l))
  | Some (_, false) => Some s
  end.

Definition exclude_arrival (s : dedupStream) (seq : Z) : dedupStream :=
  match arrivals s !! seq with
  | None => s
  | Some refs =>
      match excludePending s seq with
      | None => s
      | Some s => if refs =? 0 then set_arrivals s (delete seq (arrivals s)) else s
      end
  end.

Definition excludeArrivals (order : list Z) (s : dedupStream) : dedupStream :=
  fold_left exclude_arrival order s.

Definition arrived (s : dedupStream) (f l : Z) : bool :=
  existsb (λ '(seq, _), (f <=? seq) && (seq <=? l)) (map_to_list (arrivals s)).

Definition coversArrival (s : dedupStream) (f l : Z) : bool := arrivalOverflow s || arrived s f l.

(** The least arrival in a range, [exclude] counting as one. *)
Definition firstProtected (s : dedupStream) (gap : seqRange) (exclude : Z) : option Z :=
  let inside q := (first gap <=? q) && (q <=? last gap) in
  fold_left (λ acc '(q, _),
               if inside q && match acc with Some p => q <? p | None => true end then Some q else acc)
    (map_to_list (arrivals s)) (if inside exclude then Some exclude else None).

(** [safeGapPart]: the loop moves the start of the range past the arrivals there; it
    runs at most once for each of them and the excluded one ([safeGapPart_fuel]). *)
Fixpoint safe_part (fuel : nat) (s : dedupStream) (gap : seqRange) (exclude : Z) : option seqRange :=
  match fuel with
  | O => None
  | S fuel =>
      match firstProtected s gap exclude with
      | None => Some gap
      | Some p =>
          if first gap <? p then Some (mkRange (first gap) (u64 (p - 1)))
          else if p =? last gap then None
          else safe_part fuel s (mkRange (u64 (first gap + 1)) (last gap)) exclude
      end
  end.

Definition safeGapPart (s : dedupStream) (gap : seqRange) (exclude : Z) : option seqRange :=
  if arrivalOverflow s then None else safe_part (size (arrivals s) + 2) s gap exclude.

Fixpoint safe_pending (s : dedupStream) (exclude : Z) (l : list seqRange) : dedupResult :=
  match l with
  | [] => no_result
  | p :: l =>
      match safeGapPart s p exclude with
      | Some gap => mkResult false (Some (gap, mkVersion (identity s) (gapGeneration s))) false
      | None => safe_pending s exclude l
      end
  end.

Definition safePendingGap (s : dedupStream) (exclude : Z) : dedupResult :=
  safe_pending s exclude (pending s).
Definition pendingGap (s : dedupStream) : dedupResult := safePendingGap s 0.
Definition pendingGapExcluding (s : dedupStream) (seq : Z) : dedupResult := safePendingGap s seq.

(** [queueMissing]; [None] is a refusal. *)
Definition queueMissing (s : dedupStream) (f l : Z) : option dedupStream :=
  if (l <? f) || (l <=? written s) then Some s
  else
    let f := if f <=? written s then u64 (written s + 1) else f in
    let '(kept, f, l) := coalesce f l (pending s) in
    if (maxMissingRanges <=? length kept)%nat then None
    else
      let s' := set_pending s (SortFunc (kept ++ [mkRange f l])) in
      Some (match pending s with
            | [] => set_gapSource (set_gapGeneration s' (next_nonzero (gapGeneration s))) None
            | _ => s'
            end).

(** [check]: the result, and the state it leaves. *)
Definition check (s : dedupStream) (seq : Z) : dedupStream * dedupResult :=
  if arrivalOverflow s then (s, set_Blocked no_result)
  else
    let s := if (highest s =? 0) && (0 <? seq) then set_written s (seq - 1) else s in
    match excludePending s seq with
    | None => (s, set_Blocked (pendingGapExcluding s seq))
    | Some s =>
        let queued :=
          if negb (highest s =? 0) && (highest s <? seq) && (1 <? seq - highest s)
          then queueMissing s (u64 (highest s + 1)) (u64 (seq - 1)) else Some s in
        match queued with
        | None => (s, set_Blocked (pendingGap s))
        | Some s =>
            let s := if highest s <? seq then set_highest s seq else s in
            let r := pendingGap s in
            (s, mkResult (if seq <=? written s then true else bool_decide (seq ∈ ahead s))
                  (Gap r) (Blocked r))
        end
    end.

(** [takeMissing]: the range's upper bound and the other ranges. *)
Fixpoint takeMissing (seq : Z) (l : list seqRange) : option (Z * list seqRange) :=
  match l with
  | [] => None
  | r :: l => if (seq <? first r) || (last r <? seq)
              then (λ '(x, l), (x, r :: l)) <$> takeMissing seq l
              else Some (last r, l)
  end.

(** One round of [absorb]; [None] is its return. *)
Definition absorb_step (s : dedupStream) : option dedupStream :=
  let next := u64 (written s + 1) in
  if bool_decide (next ∈ ahead s) then Some (set_written (set_ahead s (ahead s ∖ {[next]})) next)
  else match takeMissing next (missing s) with
       | Some (l, rest) => Some (set_written (set_missing s rest) l)
       | None => None
       end.

Fixpoint absorb_loop (fuel : nat) (s : dedupStream) : dedupStream :=
  match fuel with
  | O => s
  | S fuel => match absorb_step s with Some s => absorb_loop fuel s | None => s end
  end.

(** Every round takes an element of [ahead] or [missing] ([absorb_ends]). *)
Definition absorb (s : dedupStream) : dedupStream :=
  absorb_loop (size (ahead s) + length (missing s) + 1) s.

Definition prunePending (order : list Z) (s : dedupStream) : dedupStream :=
  let l := filter (λ r, written s < last r) (pending s) in
  let l := (λ r, if first r <=? written s then mkRange (u64 (written s + 1)) (last r) else r) <$> l in
  clearGapSourceIfDrained (excludeArrivals order (set_pending s l)).

(** The loop of [noteMissing] first drops or shortens what the watermark covers. *)
Definition above (w : Z) (l : list seqRange) : list seqRange :=
  omap (λ r, if last r <=? w then None
             else Some (if first r <=? w then mkRange (u64 (w + 1)) (last r) else r)) l.

(** [noteMissing]; [None] is a refusal. *)
Definition noteMissing (s : dedupStream) (f l : Z) : option dedupStream :=
  if (l <? f) || (l <=? written s) then Some s
  else
    let f := if f <=? written s then u64 (written s + 1) else f in
    let '(kept, f, l) := coalesce f l (above (written s) (missing s)) in
    if (maxMissingRanges <=? length kept)%nat && negb (f =? u64 (written s + 1)) then None
    else Some (absorb (set_missing s (SortFunc (kept ++ [mkRange f l])))).

Definition pendingContains (s : dedupStream) (f l : Z) : bool :=
  (fix go rs := match rs with
                | [] => false
                | r :: rs => if f <? first r then false
                             else if (first r <=? f) && (l <=? last r) then true
                             else go rs
                end) (pending s).

(** [trim]: keys in increasing order. *)
Definition sorted_keys (m : gset Z) : list Z := merge_sort Z.le (elements m).

Definition trim (window : Z) (s : dedupStream) : dedupStream * Z :=
  let n := Z.of_nat (size (ahead s)) in
  if n <=? window then (s, 0)
  else
    let drop := Z.min (n - window + window / 4) n in
    let dropped := take (Z.to_nat drop) (sorted_keys (ahead s)) in
    (set_forgotten (set_ahead s (ahead s ∖ list_to_set dropped)) (u64 (forgotten s + drop)), drop).

(** [queueReplayMissing]; [None] is a refusal, with the state it leaves. *)
Fixpoint replay_loop (s : dedupStream) (next l : Z) (acc : list seqRange) : dedupStream * bool :=
  match acc with
  | [] => match queueMissing s next l with Some s => (s, true) | None => (s, false) end
  | r :: acc =>
      if last r <? next then replay_loop s next l acc
      else if l <? first r then match queueMissing s next l with Some s => (s, true) | None => (s, false) end
      else
        let queued := if next <? first r then queueMissing s next (u64 (first r - 1)) else Some s in
        match queued with
        | None => (s, false)
        | Some s => if l <=? last r then (s, true) else replay_loop s (u64 (last r + 1)) l acc
        end
  end.

Definition single (q : Z) : seqRange := mkRange q q.

Definition queueReplayMissing (s : dedupStream) (l : Z) : dedupStream * bool :=
  let accounted := missing s ++ (single <$> elements (ahead s))
                   ++ (single <$> (fst <$> map_to_list (arrivals s))) in
  replay_loop s (u64 (written s + 1)) l (SortFunc accounted).

(** The body of [Commit], with the watermark and the number forgotten. *)
Definition commit (window : Z) (order : list Z) (s : dedupStream) (seq : Z) : dedupStream * (Z * Z) :=
  if seq <=? written s then (s, (written s, 0))
  else
    let s := prunePending order (absorb (set_ahead s ({[seq]} ∪ ahead s))) in
    let '(s', n) := trim window s in
    (s', (written s, n)).

(** What [NoteMissing] and [finishGap] do once a report is accepted. *)
Definition account (order : list Z) (s : dedupStream) (f l : Z) : option dedupStream :=
  match subtractRange (pending s) f l with
  | None => None
  | Some remaining =>
      match noteMissing s f l with
      | None => None
      | Some s =>
          let s := prunePending order (set_pending s remaining) in
          Some (if highest s <? l then set_highest s l else s)
      end
  end.

(** [canPublishGap] *)
Definition canPublishGap (s : dedupStream) (f l : Z) : bool :=
  if coversArrival s f l then false
  else match subtractRange (pending s) f l with
       | None => false
       | Some _ =>
           if (l <? f) || (l <=? written s) || (f <=? u64 (written s + 1)) then true
           else let '(kept, _, _) := coalesce f l (filter (λ r, written s < last r) (missing s)) in
                (length kept <? maxMissingRanges)%nat
       end.

(** [nextPublishableGap], with the state [excludeArrivals] leaves. *)
Definition nextPublishableGap (order : list Z) (s : dedupStream) : dedupStream * option seqRange :=
  let s := excludeArrivals order s in
  (s, (fix go l := match l with
                   | [] => None
                   | p :: l =>
                       match safeGapPart s p 0 with
                       | Some gap => if canPublishGap s (first gap) (last gap) then Some gap else go l
                       | None => go l
                       end
                   end) (pending s)).

(** ** The table *)

Record dedup : Type := mkDedup {
  window : Z;
  maxStreams : Z;
  clock : Z;
  nextStream : Z;
  streams : gmap streamKey dedupStream
}.

Definition newDedup (w m : Z) : dedup :=
  mkDedup (if w <? minDedupWindow then minDedupWindow else w) (if m <? 1 then 1 else m) 0 0 ∅.

Definition put (d : dedup) (k : streamKey) (s : dedupStream) : dedup :=
  mkDedup (window d) (maxStreams d) (clock d) (nextStream d) (<[k := s]> (streams d)).

(** [d.clock++; s.used = d.clock] *)
Definition tick (d : dedup) : dedup :=
  mkDedup (window d) (maxStreams d) (u64 (clock d + 1)) (nextStream d) (streams d).
Definition touch (d : dedup) (s : dedupStream) : dedupStream := set_used s (clock d).

Definition pinned (s : dedupStream) : bool :=
  negb (bool_decide (pending s = [])) || negb (activeGapClaim s =? 0)
  || negb (bool_decide (arrivals s = ∅)) || arrivalOverflow s.

(** The least recently used stream that is not pinned. *)
Definition victim (d : dedup) : option streamKey :=
  fst <$> fold_left (λ acc '(k, s),
            if pinned s then acc
            else match acc with
                 | Some (_, oldest) => if used s <? oldest then Some (k, used s) else acc
                 | None => Some (k, used s)
                 end) (map_to_list (streams d)) None.

Definition evictOldest (d : dedup) : option dedup :=
  (λ k, mkDedup (window d) (maxStreams d) (clock d) (nextStream d) (delete k (streams d))) <$> victim d.

Definition new_stream (id clk : Z) : dedupStream :=
  mkStreamState id ∅ false 0 ∅ [] [] None 0 0 0 0 0 clk.

(** [stream]: the table with the stream of [k] in it, and that stream. *)
Definition stream (d : dedup) (k : streamKey) : dedup * option dedupStream :=
  let d := tick d in
  match streams d !! k with
  | Some s => let s := touch d s in (put d k s, Some s)
  | None =>
      let room := if maxStreams d <=? Z.of_nat (size (streams d)) then evictOldest d else Some d in
      match room with
      | None => (d, None)
      | Some d =>
          let id := next_nonzero (nextStream d) in
          let s := new_stream id (clock d) in
          (put (mkDedup (window d) (maxStreams d) (clock d) id (streams d)) k s, Some s)
      end
  end.

Definition Check (d : dedup) (k : streamKey) (seq : Z) : dedup * dedupResult :=
  let '(d, os) := stream d k in
  match os with
  | None => (d, set_Blocked no_result)
  | Some s => let '(s, r) := check s seq in (put d k s, r)
  end.

Definition Commit (d : dedup) (k : streamKey) (seq : Z) (order : list Z) : dedup * (Z * Z) :=
  let '(d, os) := stream d k in
  match os with
  | None => (d, (0, 0))
  | Some s => let '(s, r) := commit (window d) order s seq in (put d k s, r)
  end.

Definition CheckReplay (d : dedup) (k : streamKey) (firstSequence : Z) : dedup * dedupResult :=
  match streams d !! k with
  | None => (d, no_result)
  | Some s =>
      let d := tick d in
      let s := touch d s in
      if (written s <? firstSequence) && (1 <? firstSequence - written s) then
        let '(s, ok) := queueReplayMissing s (u64 (firstSequence - 1)) in
        (put d k s, if ok then pendingGap s else set_Blocked (pendingGap s))
      else (put d k s, pendingGap s)
  end.

Definition NoteMissing (d : dedup) (k : streamKey) (f l : Z) (order : list Z) : dedup :=
  match streams d !! k with
  | None => d
  | Some s =>
      if coversArrival s f l then d
      else
        let d := tick d in
        let s := touch d s in
        put d k (default s (account order s f l))
  end.

Definition ResumeFrom (d : dedup) (k : streamKey) : dedup * Z :=
  match streams d !! k with
  | None => (d, 0)
  | Some s => let d := tick d in (put d k (touch d s), written s)
  end.

(** ** Arrivals *)

Record arrivalReservation : Type := mkReservation { a_key : streamKey; a_stream : Z; a_seq : Z }.

Definition remember_source (src : Source) (s : dedupStream) : dedupStream :=
  match pending s, gapSource s with
  | _ :: _, None => set_gapSource s (Some src)
  | _, _ => s
  end.

(** [reserveArrival]; [None] is an error. *)
Definition reserveArrival (d : dedup) (k : streamKey) (seq : Z) (src : Source) :
    dedup * option arrivalReservation :=
  let '(d, os) := stream d k in
  match os with
  | None => (d, None)
  | Some s =>
      match arrivals s !! seq with
      | None =>
          if window d <=? Z.of_nat (size (arrivals s))
          then (put d k (set_arrivalOverflow s true), None)
          else let s := remember_source src (fst (check (set_arrivals s (<[seq := 1]> (arrivals s))) seq)) in
               (put d k s, Some (mkReservation k (identity s) seq))
      | Some n =>
          let s := remember_source src (fst (check (set_arrivals s (<[seq := n + 1]> (arrivals s))) seq)) in
          (put d k s, Some (mkReservation k (identity s) seq))
      end
  end.

(** [release] decrements the entry of its own stream. *)
Definition release (d : dedup) (r : arrivalReservation) (order : list Z) : dedup :=
  match streams d !! a_key r with
  | Some s =>
      if identity s =? a_stream r
      then put d (a_key r)
             (excludeArrivals order
                (set_arrivals s (<[a_seq r := default 0 (arrivals s !! a_seq r) - 1]> (arrivals s))))
      else d
  | None => d
  end.

(** ** Publishing gaps *)

Record gapPublication : Type := mkPublication {
  p_key : streamKey; p_stream : Z; p_generation : Z; p_claim : Z; p_source : option Source; p_gap : seqRange
}.

Definition claimGapLocked (k : streamKey) (s : dedupStream) (gap : seqRange) :
    dedupStream * gapPublication :=
  let c := next_nonzero (nextGapClaim s) in
  (set_claims s c c, mkPublication k (identity s) (gapGeneration s) c (gapSource s) gap).

Definition claimGap (d : dedup) (k : streamKey) (src : Source) (f l : Z) (v : gapVersion) :
    dedup * option gapPublication :=
  match streams d !! k with
  | None => (d, None)
  | Some s =>
      if bool_decide (pending s = []) || negb (identity s =? v_stream v)
         || negb (gapGeneration s =? v_generation v) || negb (pendingContains s f l)
      then (d, None)
      else
        let s := match gapSource s with None => set_gapSource s (Some src) | Some _ => s end in
        if negb (activeGapClaim s =? 0) || negb (canPublishGap s f l) then (put d k s, None)
        else
          let d := tick d in
          let '(s, p) := claimGapLocked k (touch d s) (mkRange f l) in
          (put d k s, Some p)
  end.

(** [takePendingGap]: every candidate runs [nextPublishableGap]; the least recently
    used of those with a gap to publish is claimed. *)
Definition gap_candidate (s : dedupStream) : bool :=
  negb (bool_decide (pending s = [])) && bool_decide (is_Some (gapSource s)) && (activeGapClaim s =? 0).

Definition takePendingGap (d : dedup) (order : streamKey → list Z) : dedup * option gapPublication :=
  let scanned := map_imap (λ k s, Some (if gap_candidate s then nextPublishableGap (order k) s
                                        else (s, None))) (streams d) in
  let d := mkDedup (window d) (maxStreams d) (clock d) (nextStream d) (fst <$> scanned) in
  let oldest := fold_left (λ acc '(k, (s, g)),
      match g, acc with
      | Some gap, Some (_, s', _) => if used s <? used s' then Some (k, s, gap) else acc
      | Some gap, None => Some (k, s, gap)
      | None, _ => acc
      end) (map_to_list scanned) None in
  match oldest with
  | None => (d, None)
  | Some (k, s, gap) =>
      let d := tick d in
      let '(s, p) := claimGapLocked k (touch d s) gap in
      (put d k s, Some p)
  end.

Definition takeNextPendingGap (d : dedup) (k : streamKey) (order : list Z) :
    dedup * option gapPublication :=
  match streams d !! k with
  | None => (d, None)
  | Some s =>
      if negb (gap_candidate s) then (d, None)
      else
        let '(s, g) := nextPublishableGap order s in
        match g with
        | None => (put d k s, None)
        | Some gap =>
            let d := tick d in
            let '(s, p) := claimGapLocked k (touch d s) gap in
            (put d k s, Some p)
        end
  end.

Definition finishGap (d : dedup) (p : gapPublication) (accepted : bool) (order : list Z) : dedup * bool :=
  match streams d !! p_key p with
  | None => (d, false)
  | Some s =>
      if negb (identity s =? p_stream p) || negb (activeGapClaim s =? p_claim p) then (d, false)
      else
        let s := set_claims s (nextGapClaim s) 0 in
        let gap := p_gap p in
        if negb accepted || coversArrival s (first gap) (last gap)
           || negb (gapGeneration s =? p_generation p)
           || negb (pendingContains s (first gap) (last gap))
        then (put d (p_key p) s, false)
        else match account order s (first gap) (last gap) with
             | None => (put d (p_key p) s, false)
             | Some s => let d := tick d in (put d (p_key p) (touch d s), true)
             end
  end.

(** [readiness]: whether no report is outstanding. *)
Definition readiness (d : dedup) : bool :=
  forallb (λ '(_, s), negb (arrivalOverflow s) && bool_decide (pending s = [])) (map_to_list (streams d)).

(** ** What a stream accounts for *)

Definition in_range (q : Z) (r : seqRange) : Prop := first r <= q <= last r.
Definition in_ranges (q : Z) (l : list seqRange) : Prop := ∃ r, r ∈ l ∧ in_range q r.

(** Every number in the state is a [uint64]. *)
Record stream_u64 (s : dedupStream) : Prop := {
  su_written : is_u64 (written s);
  su_missing : Forall (λ r, is_u64 (first r) ∧ is_u64 (last r)) (missing s)
}.

(** [s'] accounts for no more than [s] and [extra]: what it wrote ahead, what it
    holds as reported missing, and what is below its watermark. *)
Record grows (extra_w extra_m : Z → Prop) (s s' : dedupStream) : Prop := {
  gr_ahead q : q ∈ ahead s' → q ∈ ahead s ∨ extra_w q;
  gr_missing q : in_ranges q (missing s') → in_ranges q (missing s) ∨ extra_m q;
  gr_written q : is_u64 q → q <= written s' →
    q <= written s ∨ q ∈ ahead s ∨ in_ranges q (missing s) ∨ extra_w q ∨ extra_m q
}.

Definition none : Z → Prop := λ _, False.

Lemma grows_same s s' :
  ahead s' = ahead s → missing s' = missing s → written s' = written s → grows none none s s'.
Proof. intros Ha Hm Hw. split; intros q; rewrite ?Ha, ?Hm, ?Hw; auto. Qed.

Lemma grows_trans ew em ew' em' s1 s2 s3 :
  grows ew em s1 s2 → grows ew' em' s2 s3 → grows (λ q, ew q ∨ ew' q) (λ q, em q ∨ em' q) s1 s3.
Proof.
  intros [A1 M1 W1] [A2 M2 W2]. split.
  - intros q [H|H]%A2; [apply A1 in H as [?|?]|]; auto.
  - intros q [H|H]%M2; [apply M1 in H as [?|?]|]; auto.
  - intros q Hq H. destruct (W2 q Hq H) as [H1|[H1|[H1|[H1|H1]]]].
    + destruct (W1 q Hq H1) as [|[|[|[|]]]]; auto 6.
    + apply A1 in H1 as [?|?]; auto 6.
    + apply M1 in H1 as [?|?]; auto 6.
    + auto 6.
    + auto 6.
Qed.

Lemma grows_mono (ew em ew' em' : Z → Prop) s s' :
  (∀ q, ew q → ew' q) → (∀ q, em q → em' q) → grows ew em s s' → grows ew' em' s s'.
Proof.
  intros Hw Hm [A M W]. split.
  - intros q [?|?]%A; auto.
  - intros q [?|?]%M; auto.
  - intros q Hq H. destruct (W q Hq H) as [|[|[|[|]]]]; auto 6.
Qed.

Lemma grows_none_r ew em s1 s2 s3 : grows none none s1 s2 → grows ew em s2 s3 → grows ew em s1 s3.
Proof.
  intros H1 H2. eapply grows_mono; [| |exact (grows_trans _ _ _ _ _ _ _ H1 H2)]; by intros q [[]|?].
Qed.

Lemma grows_none_l ew em s1 s2 s3 : grows ew em s1 s2 → grows none none s2 s3 → grows ew em s1 s3.
Proof.
  intros H1 H2. eapply grows_mono; [| |exact (grows_trans _ _ _ _ _ _ _ H1 H2)]; by intros q [?|[]].
Qed.

(** *** Ranges *)

Lemma insert_range_perm r l : insert_range r l ≡ₚ r :: l.
Proof.
  induction l as [|r' l IH]; simpl; [done|]. destruct (_ <=? _); [done|]. rewrite IH. by constructor.
Qed.

Lemma SortFunc_perm l : SortFunc l ≡ₚ l.
Proof. induction l as [|r l IH]; simpl; [done|]. by rewrite insert_range_perm, IH. Qed.

Lemma in_ranges_perm q l l' : l ≡ₚ l' → in_ranges q l → in_ranges q l'.
Proof. intros Hp (r & Hr & Hq). exists r. split; [by rewrite <- Hp|done]. Qed.

Lemma in_ranges_cons q r l : in_ranges q (r :: l) ↔ in_range q r ∨ in_ranges q l.
Proof.
  unfold in_ranges. split.
  - intros (x & [->|Hx]%elem_of_cons & Hq); eauto.
  - intros [Hq|(x & Hx & Hq)]; [exists r|exists x]; split; try done; [by left|by right].
Qed.

Lemma in_ranges_app q l l' : in_ranges q (l ++ l') ↔ in_ranges q l ∨ in_ranges q l'.
Proof.
  induction l as [|r l IH]; [split; [auto|by intros [(?&?%elem_of_nil&_)|?]]|].
  simpl. rewrite !in_ranges_cons, IH. tauto.
Qed.

(** Coalescing covers what the ranges and the new bounds cover, no more. *)
Lemma coalesce_spec ranges : ∀ f l kept f' l',
  f <= l → coalesce f l ranges = (kept, f', l') →
  f' <= f ∧ l <= l' ∧ (length kept <= length ranges)%nat ∧
  (∀ r, r ∈ kept → r ∈ ranges) ∧
  (∀ q, f' <= q <= l' → f <= q <= l ∨ in_ranges q ranges) ∧
  (Forall (λ r, is_u64 (first r) ∧ is_u64 (last r)) ranges → is_u64 f → is_u64 l → is_u64 f' ∧ is_u64 l').
Proof.
  induction ranges as [|r ranges IH]; intros f l kept f' l' Hfl H; simpl in H.
  { simplify_eq. split_and!; try done; lia || auto. }
  destruct (apart f l r) eqn:Ea.
  - destruct (coalesce f l ranges) as [[k2 f2] l2] eqn:E. simplify_eq.
    destruct (IH _ _ _ _ _ Hfl E) as (H1 & H2 & H3 & H4 & H5 & H6). split_and!; try done.
    + simpl. lia.
    + intros x [->|Hx]%elem_of_cons; [by left|right; auto].
    + intros q Hq. rewrite in_ranges_cons. destruct (H5 q Hq); auto.
    + intros [_ Hr]%Forall_cons. auto.
  - assert (Hm : Z.min f (first r) <= Z.max l (last r)) by lia.
    destruct (IH _ _ _ _ _ Hm H) as (H1 & H2 & H3 & H4 & H5 & H6).
    split_and!; try lia; [simpl; lia|intros; right; auto| |].
    + intros q Hq. rewrite in_ranges_cons. destruct (H5 q Hq) as [Hin|Hin]; [|auto].
      unfold apart in Ea. apply orb_false_iff in Ea as [E1 E2].
      apply andb_false_iff in E1, E2. unfold in_range.
      destruct (decide (f <= q <= l)); [by left|].
      right; left. destruct E1, E2; bool_props; lia.
    + intros [[Hr1 Hr2] Hr]%Forall_cons Hf Hl. apply H6; [done|..]; unfold is_u64 in *; lia.
Qed.

(** *** The watermark *)

Lemma u64_succ w : is_u64 w → u64 (w + 1) = w + 1 ∧ w + 1 < u64_mod ∨ u64 (w + 1) = 0 ∧ w = u64_mod - 1.
Proof.
  unfold is_u64, u64. intros Hw. destruct (decide (w = u64_mod - 1)) as [->|].
  - right. split; [|done]. by rewrite Z.sub_add, Z.mod_same.
  - left. rewrite Z.mod_small; lia.
Qed.

Lemma takeMissing_spec seq l x rest :
  takeMissing seq l = Some (x, rest) →
  ∃ r, r ∈ l ∧ in_range seq r ∧ x = last r ∧ l ≡ₚ r :: rest.
Proof.
  revert x rest. induction l as [|r l IH]; intros x rest H; simpl in H; [done|].
  destruct (_ || _) eqn:E.
  - destruct (takeMissing seq l) as [[y l2]|]; [|done]. simplify_eq/=.
    destruct (IH _ _ eq_refl) as (r' & Hin & Hr & -> & Hp). exists r'.
    split_and!; [by right|done|done|]. rewrite Hp. constructor.
  - simplify_eq. exists r. apply orb_false_iff in E as [E1 E2]. bool_props.
    split; [by left|]. split; [unfold in_range; lia|done].
Qed.

Lemma absorb_step_grows s s' :
  stream_u64 s → absorb_step s = Some s' → stream_u64 s' ∧ grows none none s s'.
Proof.
  intros [Hw Hm] H. unfold absorb_step in H. destruct (bool_decide (u64 (written s + 1) ∈ ahead s)) eqn:E.
  - apply bool_decide_eq_true in E. simplify_eq. split.
    + split; simpl; [apply u64_range|done].
    + split; simpl; auto; [set_solver|].
      intros q Hq Hle. destruct (u64_succ _ Hw) as [[Hs _]|[Hs Hmax]].
      * rewrite Hs in *. destruct (decide (q = written s + 1)) as [->|]; [auto|left; lia].
      * left. unfold is_u64 in Hq. lia.
  - destruct (takeMissing _ _) as [[x rest]|] eqn:Et; [|done]. simplify_eq.
    apply takeMissing_spec in Et as (r & Hin & Hr & -> & Hp).
    assert (Hm' : Forall (λ r, is_u64 (first r) ∧ is_u64 (last r)) (r :: rest)) by (by rewrite <- Hp).
    apply Forall_cons in Hm' as [[Hr1 Hr2] Hrest]. split; [by split|].
    split; simpl; auto.
    + intros q Hq. left. eapply in_ranges_perm; [symmetry; exact Hp|]. apply in_ranges_cons. by right.
    + intros q Hq Hle. destruct (u64_succ _ Hw) as [[Hs _]|[Hs Hmax]]; [|left; unfold is_u64 in Hq; lia].
      rewrite Hs in Hr. destruct (decide (q <= written s)); [by left|].
      right; right; left. exists r. split; [done|]. unfold in_range in *. lia.
Qed.

Lemma absorb_loop_grows fuel : ∀ s,
  stream_u64 s → stream_u64 (absorb_loop fuel s) ∧ grows none none s (absorb_loop fuel s).
Proof.
  induction fuel as [|fuel IH]; intros s Hs; simpl; [split; [done|by apply grows_same]|].
  destruct (absorb_step s) as [s1|] eqn:E; [|split; [done|by apply grows_same]].
  destruct (absorb_step_grows _ _ Hs E) as [Hs1 Hg]. destruct (IH s1 Hs1) as [Hs2 Hg2].
  split; [done|]. by eapply grows_none_r.
Qed.

Lemma absorb_grows s : stream_u64 s → stream_u64 (absorb s) ∧ grows none none s (absorb s).
Proof. apply absorb_loop_grows. Qed.

(** The loop of [absorb] ends: the watermark is followed by a hole. *)
Lemma absorb_ends s : absorb_step (absorb s) = None.
Proof.
  unfold absorb. assert (H : ∀ n t, (size (ahead t) + length (missing t) < n)%nat →
    absorb_step (absorb_loop n t) = None); [|apply H; lia].
  induction n as [|n IH]; intros t Hn; [lia|]. simpl.
  destruct (absorb_step t) as [t'|] eqn:E; [|done]. apply IH. unfold absorb_step in E.
  destruct (bool_decide _) eqn:Eb.
  - apply bool_decide_eq_true in Eb. simplify_eq. simpl.
    rewrite size_difference by set_solver. rewrite size_singleton.
    destruct (size (ahead t)) eqn:E0; [apply size_empty_inv in E0; set_solver|lia].
  - destruct (takeMissing _ _) as [[x rest]|] eqn:Et; [|done]. simplify_eq.
    apply takeMissing_spec in Et as (r & _ & _ & _ & Hp). apply Permutation_length in Hp. simpl in *. lia.
Qed.

(** *** The loop of [safeGapPart] *)

(** The sequences it must not include. *)
Definition protected (s : dedupStream) (gap : seqRange) (exclude : Z) : gset Z :=
  filter (λ q, first gap <= q <= last gap) ({[exclude]} ∪ dom (arrivals s)).

Lemma firstProtected_elem s gap exclude p :
  firstProtected s gap exclude = Some p → p ∈ protected s gap exclude.
Proof.
  unfold firstProtected, protected. set (inside q := (first gap <=? q) && (q <=? last gap)).
  assert (Hin : ∀ q, inside q = true → first gap <= q <= last gap) by (unfold inside; intros; bool_props; lia).
  assert (Hf : ∀ l acc r, fold_left (λ acc '(q, _),
      if inside q && match acc with Some p => q <? p | None => true end then Some q else acc) l acc = Some r →
      acc = Some r ∨ (inside r = true ∧ ∃ n : Z, (r, n) ∈ l)).
  { induction l as [|[q n] l IH]; intros acc r Hr; simpl in Hr; [by left|].
    apply IH in Hr as [Hr|[H1 [n' H2]]]; [|right; split; [done|exists n'; by right]].
    destruct (inside q) eqn:Eq; [|by left]. destruct (match acc with Some p => q <? p | None => true end); [|by left].
    injection Hr as <-. right. split; [done|]. exists n. by left. }
  intros H. apply Hf in H as [H|[H1 [n H2]]].
  - change ((if inside exclude then Some exclude else None) = Some p) in H.
    destruct (inside exclude) eqn:Ee in H; [|done]. injection H as ->. apply elem_of_filter. split; [by apply Hin|set_solver].
  - apply elem_of_map_to_list in H2. apply elem_of_filter. split; [by apply Hin|].
    apply elem_of_union. right. by eapply elem_of_dom_2.
Qed.

(** More fuel than there are protected sequences changes nothing. *)
Lemma safe_part_more fuel : ∀ s gap exclude,
  is_u64 (first gap) → is_u64 (last gap) → (size (protected s gap exclude) < fuel)%nat →
  safe_part (S fuel) s gap exclude = safe_part fuel s gap exclude.
Proof.
  induction fuel as [|fuel IH]; intros s gap exclude H1 H2 Hf; [lia|].
  cbn [safe_part] in *. destruct (firstProtected s gap exclude) as [p|] eqn:E; [|done].
  destruct (Z.ltb_spec (first gap) p); [done|]. destruct (Z.eqb_spec p (last gap)); [done|].
  apply firstProtected_elem in E as Hp. unfold protected in Hp. apply elem_of_filter in Hp as [Hr Hin].
  assert (Hu : u64 (first gap + 1) = first gap + 1).
  { unfold is_u64 in *. apply Z.mod_small. lia. }
  apply IH; cbn [first last]; [apply u64_range|done|]. rewrite Hu.
  assert (protected s (mkRange (first gap + 1) (last gap)) exclude ⊂ protected s gap exclude) as Hsub.
  { split.
    - intros q. unfold protected. rewrite !elem_of_filter. simpl. intros [? ?]. split; [lia|done].
    - intros Hc. assert (Hp : p ∈ protected s gap exclude) by (apply elem_of_filter; auto).
      apply Hc in Hp. unfold protected in Hp. apply elem_of_filter in Hp as [Hp _]. simpl in Hp. lia. }
  apply subset_size in Hsub. lia.
Qed.

(** So the fuel of [safeGapPart] is enough. *)
Lemma safeGapPart_fuel s gap exclude fuel :
  is_u64 (first gap) → is_u64 (last gap) → (size (arrivals s) + 2 <= fuel)%nat →
  safe_part fuel s gap exclude = safe_part (size (arrivals s) + 2) s gap exclude.
Proof.
  intros H1 H2 Hf. assert (Hsz : (size (protected s gap exclude) <= size (arrivals s) + 1)%nat).
  { unfold protected. etrans; [apply (subseteq_size _ ({[exclude]} ∪ dom (arrivals s))); set_solver|].
    rewrite size_union_alt, size_singleton.
    pose proof (subseteq_size (dom (arrivals s) ∖ {[exclude]}) (dom (arrivals s)) ltac:(set_solver)) as Hd.
    rewrite size_dom in Hd. lia. }
  induction Hf as [|fuel Hle IH]; [done|]. rewrite safe_part_more; [done|done|done|lia].
Qed.

(** *** Operations that leave the accounting alone *)

Definition same_account (s s' : dedupStream) : Prop :=
  ahead s' = ahead s ∧ missing s' = missing s ∧ written s' = written s.

#[local] Instance same_account_preorder : PreOrder same_account.
Proof. split; [done|]. intros s1 s2 s3 (?&?&?) (?&?&?). unfold same_account. intuition congruence. Qed.

(** The same, and the same highest sequence received. *)
Definition same_stream (s s' : dedupStream) : Prop := same_account s s' ∧ highest s' = highest s.

#[local] Instance same_stream_preorder : PreOrder same_stream.
Proof. split; [done|]. intros s1 s2 s3 [? ?] [? ?]. split; [by etrans|congruence]. Qed.

Lemma same_account_grows s s' : same_account s s' → grows none none s s'.
Proof. intros (?&?&?). by apply grows_same. Qed.

Lemma same_account_u64 s s' : same_account s s' → stream_u64 s → stream_u64 s'.
Proof. intros (_&Hm&Hw) [? ?]. split; [by rewrite Hw|by rewrite Hm]. Qed.

Lemma clearGapSource_same s : same_account s (clearGapSourceIfDrained s).
Proof. unfold clearGapSourceIfDrained. by destruct (pending s). Qed.

Lemma excludePending_same s seq s' :
  excludePending s seq = Some s' → same_account s s' ∧ highest s' = highest s ∧ arrivals s' = arrivals s.
Proof.
  unfold excludePending, clearGapSourceIfDrained. intros H.
  destruct (exclude_from _ _ _) as [[l [|]]|]; simplify_eq; [|done]. by destruct (pending _).
Qed.

Lemma exclude_arrival_same s seq : same_account s (exclude_arrival s seq) ∧ highest (exclude_arrival s seq) = highest s.
Proof.
  unfold exclude_arrival. destruct (arrivals s !! seq); [|done].
  destruct (excludePending s seq) as [s'|] eqn:E; [|done].
  apply excludePending_same in E as (Hs & Hh & _). by destruct (_ =? 0).
Qed.

Lemma excludeArrivals_same order : ∀ s,
  same_account s (excludeArrivals order s) ∧ highest (excludeArrivals order s) = highest s.
Proof.
  unfold excludeArrivals. induction order as [|q order IH]; intros s; simpl; [done|].
  destruct (exclude_arrival_same s q) as [H1 H2]. destruct (IH (exclude_arrival s q)) as [H3 H4].
  split; [by etrans|congruence].
Qed.

Lemma prunePending_same order s : same_account s (prunePending order s) ∧ highest (prunePending order s) = highest s.
Proof.
  unfold prunePending. set (s1 := set_pending s _).
  destruct (excludeArrivals_same order s1) as [H1 H2]. split.
  - etrans; [|apply clearGapSource_same]. etrans; [|exact H1]. done.
  - unfold clearGapSourceIfDrained. destruct (pending (excludeArrivals order s1)); exact H2.
Qed.

Lemma queueMissing_same s f l s' :
  queueMissing s f l = Some s' → same_account s s' ∧ highest s' = highest s ∧ arrivals s' = arrivals s.
Proof.
  unfold queueMissing. intros H. destruct (_ || _); [by simplify_eq|].
  destruct (coalesce _ _ _) as [[k f2] l2]. destruct (_ <=? _)%nat; [done|]. simplify_eq. by destruct (pending s).
Qed.

Lemma replay_same acc : ∀ s next l, same_stream s (fst (replay_loop s next l acc)).
Proof.
  assert (Hq : ∀ s next l, same_stream s (fst (match queueMissing s next l with Some s => (s, true) | None => (s, false) end))).
  { intros s next l. destruct (queueMissing s next l) as [s'|] eqn:E; [|done].
    by apply queueMissing_same in E as (? & ? & _). }
  induction acc as [|r acc IH]; intros s next l; simpl; [apply Hq|].
  destruct (last r <? next); [apply IH|]. destruct (l <? first r); [apply Hq|].
  destruct (if next <? first r then _ else _) as [s'|] eqn:E; [|done].
  assert (same_stream s s').
  { destruct (next <? first r); [by apply queueMissing_same in E as (? & ? & _)|by simplify_eq]. }
  destruct (l <=? last r); [done|]. etrans; [done|apply IH].
Qed.

(** The watermark moves on arrival only to anchor a stream that received nothing. *)
Definition anchors (s : dedupStream) (seq : Z) : bool :=
  negb (arrivalOverflow s) && (highest s =? 0) && (0 <? seq).

Lemma check_same s seq :
  ahead (fst (check s seq)) = ahead s ∧ missing (fst (check s seq)) = missing s ∧
  written (fst (check s seq)) = (if anchors s seq then seq - 1 else written s).
Proof.
  unfold check, anchors. destruct (arrivalOverflow s); [done|]. cbn [negb andb].
  set (s1 := if (highest s =? 0) && (0 <? seq) then set_written s (seq - 1) else s).
  assert (H1 : ahead s1 = ahead s ∧ missing s1 = missing s ∧
               written s1 = if (highest s =? 0) && (0 <? seq) then seq - 1 else written s).
  { unfold s1. by destruct (_ && _). }
  destruct (excludePending s1 seq) as [s2|] eqn:E2; [|done].
  apply excludePending_same in E2 as [(Ha&Hm&Hw) _].
  destruct (if negb (highest s2 =? 0) && _ && _ then _ else _) as [s3|] eqn:E3.
  - assert (Hs : same_account s2 s3).
    { destruct (_ && _ && _); [by apply queueMissing_same in E3 as [? _]|by simplify_eq]. }
    destruct Hs as (Ha'&Hm'&Hw'). destruct (highest s3 <? seq); simpl; intuition congruence.
  - simpl. intuition congruence.
Qed.

(** *** Operations that account for more *)

Lemma above_spec w l :
  is_u64 w → Forall (λ r, is_u64 (first r) ∧ is_u64 (last r)) l →
  Forall (λ r, is_u64 (first r) ∧ is_u64 (last r)) (above w l) ∧
  ∀ q, in_ranges q (above w l) → in_ranges q l.
Proof.
  intros Hw Hl. induction Hl as [|r l [Hr1 Hr2] _ [IH1 IH2]]; [done|]. unfold above in *. simpl.
  destruct (Z.leb_spec (last r) w).
  { split; [done|]. intros q Hq. apply in_ranges_cons. auto. }
  destruct (Z.leb_spec (first r) w).
  - destruct (u64_succ w Hw) as [[Hs ?]|[? ?]]; [|unfold is_u64 in *; lia]. split.
    + constructor; [|done]. split; [apply u64_range|done].
    + intros q [Hq|Hq]%in_ranges_cons; apply in_ranges_cons; [left|auto].
      unfold in_range in *. simpl in Hq. lia.
  - split; [by constructor|]. intros q [Hq|Hq]%in_ranges_cons; apply in_ranges_cons; auto.
Qed.

(** The lower bound [noteMissing] and [queueMissing] start from. *)
Lemma clip_spec w f l :
  is_u64 w → is_u64 f → is_u64 l → f <= l → w < l →
  let f1 := if f <=? w then u64 (w + 1) else f in is_u64 f1 ∧ f <= f1 <= l ∧ w < f1.
Proof.
  intros Hw Hf Hl Hfl Hwl. simpl. destruct (Z.leb_spec f w); [|split_and!; done || lia].
  destruct (u64_succ w Hw) as [[-> ?]|[? ?]]; unfold is_u64 in *; lia.
Qed.

Lemma noteMissing_grows s f l s' :
  stream_u64 s → is_u64 f → is_u64 l → noteMissing s f l = Some s' →
  stream_u64 s' ∧ grows none (λ q, f <= q <= l) s s'.
Proof.
  intros Hs Hf Hl H. unfold noteMissing in H.
  destruct (_ || _) eqn:Eo; [simplify_eq; split; [done|eapply grows_mono; [..|by apply grows_same]; done]|].
  apply orb_false_iff in Eo as [E1 E2]. bool_props.
  destruct (clip_spec (written s) f l (su_written s Hs) Hf Hl E1 E2) as (Hf1 & Hfl & _).
  set (f1 := if f <=? written s then u64 (written s + 1) else f) in *.
  destruct (coalesce f1 l (above (written s) (missing s))) as [[kept f2] l2] eqn:Ec.
  destruct (_ && _); [done|]. injection H as <-.
  destruct (above_spec _ _ (su_written s Hs) (su_missing s Hs)) as [Hab1 Hab2].
  destruct (coalesce_spec _ _ _ _ _ _ (proj2 Hfl) Ec) as (_ & _ & _ & Hk & Hq & Hu).
  destruct (Hu Hab1 Hf1 Hl) as [Hf2 Hl2].
  set (s1 := set_missing s (SortFunc (kept ++ [mkRange f2 l2]))).
  assert (Hs1 : stream_u64 s1).
  { split; [apply Hs|]. simpl. rewrite SortFunc_perm. apply Forall_app. split; [|by constructor].
    rewrite Forall_forall in Hab1 |- *. intros r Hr. by apply Hab1, Hk. }
  assert (Hg1 : grows none (λ q, f <= q <= l) s s1).
  { split; simpl; auto. intros q H1. apply (in_ranges_perm _ _ _ (SortFunc_perm _)), in_ranges_app in H1.
    destruct H1 as [(r & Hr & Hqr)|(r & [->|[]%elem_of_nil]%elem_of_cons & Hqr)].
    - left. apply Hab2. exists r. split; [by apply Hk|done].
    - destruct (Hq q Hqr) as [|]; [right; lia|left; auto]. }
  destruct (absorb_grows s1 Hs1) as [Hs2 Hg2]. split; [done|]. by eapply grows_none_l.
Qed.

Lemma trim_grows w s : stream_u64 s → stream_u64 (fst (trim w s)) ∧ grows none none s (fst (trim w s)).
Proof.
  intros [Hw Hm]. unfold trim. destruct (_ <=? _); simpl; [split; [done|by apply grows_same]|].
  split; [done|]. split; simpl; auto. set_solver.
Qed.

Lemma commit_grows w order s seq :
  stream_u64 s → stream_u64 (fst (commit w order s seq)) ∧ grows (λ q, q = seq) none s (fst (commit w order s seq)).
Proof.
  intros Hs. unfold commit. destruct (seq <=? written s); simpl.
  { split; [done|]. eapply grows_mono; [..|by apply grows_same]; done. }
  set (s1 := set_ahead s ({[seq]} ∪ ahead s)).
  assert (Hs1 : stream_u64 s1) by (destruct Hs; by split).
  assert (Hg1 : grows (λ q, q = seq) none s s1) by (split; simpl; auto; set_solver).
  destruct (absorb_grows s1 Hs1) as [Hs2 Hg2].
  destruct (prunePending_same order (absorb s1)) as [Hp _].
  destruct (trim_grows w (prunePending order (absorb s1))) as [Hs3 Hg3]; [by eapply same_account_u64|].
  destruct (trim w _) as [s' n]. simpl in *. split; [done|].
  eapply grows_none_l; [exact Hg1|]. eapply grows_none_r; [exact Hg2|].
  eapply grows_none_r; [by apply same_account_grows|done].
Qed.

Lemma account_grows order s f l s' :
  stream_u64 s → is_u64 f → is_u64 l → account order s f l = Some s' →
  stream_u64 s' ∧ grows none (λ q, f <= q <= l) s s'.
Proof.
  intros Hs Hf Hl H. unfold account in H. destruct (subtractRange _ _ _) as [rem|]; [|done].
  destruct (noteMissing s f l) as [s1|] eqn:En; [|done].
  destruct (noteMissing_grows _ _ _ _ Hs Hf Hl En) as [Hs1 Hg1].
  destruct (prunePending_same order (set_pending s1 rem)) as [Hp _].
  set (s2 := prunePending order (set_pending s1 rem)) in *.
  assert (Hsame : same_account s1 s') by (destruct (highest s2 <? l); simplify_eq; done).
  split; [by eapply same_account_u64|]. eapply grows_none_l; [done|by apply same_account_grows].
Qed.

(** ** Runs

    With each stream goes a ghost record of what happened to it since it was created:
    where it was anchored, which sequences were committed after their sink write, and
    which ranges the sink accepted a loss report for. *)

Record ghost : Type := mkGhost {
  g_anchor : Z; g_committed : gset Z; g_reported : list seqRange
}.
Definition fresh_ghost : ghost := mkGhost 0 ∅ [].
Definition anchor_at (a : Z) (g : ghost) : ghost := mkGhost a (g_committed g) (g_reported g).
Definition add_committed (q : Z) (g : ghost) : ghost :=
  mkGhost (g_anchor g) ({[q]} ∪ g_committed g) (g_reported g).
Definition add_reported (r : seqRange) (g : ghost) : ghost :=
  mkGhost (g_anchor g) (g_committed g) (r :: g_reported g).

Record dd_state : Type := mkDD { tbl : dedup; gh : gmap streamKey ghost }.

(** A stream that does not exist yet starts afresh. *)
Definition ghost_at (st : dd_state) (k : streamKey) : ghost :=
  match streams (tbl st) !! k with Some _ => default fresh_ghost (gh st !! k) | None => fresh_ghost end.

Definition stream_at (d : dedup) (k : streamKey) : dedupStream := default (new_stream 0 0) (streams d !! k).

Definition anchored (d : dedup) (k : streamKey) (seq : Z) (g : ghost) : ghost :=
  if anchors (stream_at d k) seq then anchor_at (seq - 1) g else g.

Definition set_gh (st : dd_state) (d : dedup) (k : streamKey) (g : ghost) : dd_state :=
  mkDD d (<[k := g]> (gh st)).

Inductive dd_step : dd_state → dd_state → Prop :=
| dd_check st k seq :
    is_u64 seq →
    dd_step st (set_gh st (fst (Check (tbl st) k seq)) k (anchored (tbl st) k seq (ghost_at st k)))
| dd_reserve st k seq src d' r :
    is_u64 seq → reserveArrival (tbl st) k seq src = (d', Some r) →
    dd_step st (set_gh st d' k (anchored (tbl st) k seq (ghost_at st k)))
| dd_reserve_refused st k seq src d' :
    is_u64 seq → reserveArrival (tbl st) k seq src = (d', None) →
    dd_step st (set_gh st d' k (ghost_at st k))
| dd_release st r order : dd_step st (mkDD (release (tbl st) r order) (gh st))
| dd_commit st k seq order :
    is_u64 seq →
    dd_step st (set_gh st (fst (Commit (tbl st) k seq order)) k (add_committed seq (ghost_at st k)))
| dd_replay st k seq :
    is_u64 seq → dd_step st (mkDD (fst (CheckReplay (tbl st) k seq)) (gh st))
| dd_note st k r order :
    is_u64 (first r) → is_u64 (last r) →
    dd_step st (set_gh st (NoteMissing (tbl st) k (first r) (last r) order) k (add_reported r (ghost_at st k)))
| dd_resume st k : dd_step st (mkDD (fst (ResumeFrom (tbl st) k)) (gh st))
| dd_claim st k src f l v : dd_step st (mkDD (fst (claimGap (tbl st) k src f l v)) (gh st))
| dd_take st order : dd_step st (mkDD (fst (takePendingGap (tbl st) order)) (gh st))
| dd_take_next st k order : dd_step st (mkDD (fst (takeNextPendingGap (tbl st) k order)) (gh st))
| dd_accepted st p order :
    is_u64 (first (p_gap p)) → is_u64 (last (p_gap p)) →
    dd_step st (set_gh st (fst (finishGap (tbl st) p true order)) (p_key p)
                  (add_reported (p_gap p) (ghost_at st (p_key p))))
| dd_failed st p order : dd_step st (mkDD (fst (finishGap (tbl st) p false order)) (gh st)).

Definition dd_init (w m : Z) : dd_state := mkDD (newDedup w m) ∅.

(** A stream and its ghost agree. *)
Record stream_ok (g : ghost) (s : dedupStream) : Prop := {
  so_u64 : stream_u64 s;
  so_ahead q : q ∈ ahead s → q ∈ g_committed g;
  so_missing q : in_ranges q (missing s) → in_ranges q (g_reported g);
  so_written q : is_u64 q → g_anchor g < q <= written s →
    q ∈ g_committed g ∨ in_ranges q (g_reported g)
}.

Definition dd_inv (st : dd_state) : Prop :=
  ∀ k s, streams (tbl st) !! k = Some s → stream_ok (default fresh_ghost (gh st !! k)) s.

Lemma new_stream_ok id clk : stream_ok fresh_ghost (new_stream id clk).
Proof.
  split; simpl; [split; [unfold is_u64, u64_mod; simpl; lia|constructor]|set_solver| |lia].
  intros q (r & []%elem_of_nil & _).
Qed.

Lemma stream_ok_grows (ew em : Z → Prop) g g' s s' :
  stream_ok g s → stream_u64 s' → grows ew em s s' → g_anchor g' = g_anchor g →
  (∀ q, q ∈ g_committed g ∨ ew q → q ∈ g_committed g') →
  (∀ q, in_ranges q (g_reported g) ∨ em q → in_ranges q (g_reported g')) →
  stream_ok g' s'.
Proof.
  intros [_ Ha Hm Hw] Hu [Ga Gm Gw] Hanc Hc Hr. split; [done|..].
  - intros q [H|H]%Ga; apply Hc; auto.
  - intros q [H|H]%Gm; apply Hr; auto.
  - intros q Hq [H1 H2]. rewrite Hanc in H1. destruct (Gw q Hq H2) as [H|[H|[H|[H|H]]]].
    + destruct (Hw q Hq ltac:(lia)); auto.
    + left. apply Hc. auto.
    + right. apply Hr. auto.
    + left. auto.
    + right. auto.
Qed.

Lemma stream_ok_same g s s' : stream_ok g s → same_account s s' → stream_ok g s'.
Proof.
  intros Hs Hsame. eapply (stream_ok_grows none none g g s s'); try done.
  - eapply same_account_u64; [done|apply Hs].
  - by apply same_account_grows.
  - by intros q [?|[]].
  - by intros q [?|[]].
Qed.

(** Anchoring keeps the agreement, at the new anchor. *)
Lemma check_ok g s seq :
  is_u64 seq → stream_ok g s →
  stream_ok (if anchors s seq then anchor_at (seq - 1) g else g) (fst (check s seq)).
Proof.
  intros Hq [[Hw Hms] Ha Hm Hwr]. destruct (check_same s seq) as (Ea & Em & Ew).
  destruct (anchors s seq) eqn:E.
  - unfold anchors in E. bool_props. split; simpl; rewrite ?Ea, ?Em, ?Ew; auto; [|lia].
    split; [rewrite Ew; unfold is_u64 in *; lia|by rewrite Em].
  - eapply stream_ok_same; [by split|]. by split_and!.
Qed.

(** *** The table *)

(** [d'] differs from [d] at [k] only, and by forgetting streams. *)
Definition only_at (k : streamKey) (d d' : dedup) : Prop :=
  ∀ k' s, k' ≠ k → streams d' !! k' = Some s → streams d !! k' = Some s.

Lemma put_only_at d d' k s : only_at k d d' → only_at k d (put d' k s).
Proof. intros H k' s' Hne Hs. simpl in Hs. rewrite lookup_insert_ne in Hs by done. by eapply H. Qed.

Lemma only_at_inv st k d' g' :
  dd_inv st → only_at k (tbl st) d' →
  (∀ s', streams d' !! k = Some s' → stream_ok g' s') → dd_inv (set_gh st d' k g').
Proof.
  intros Hi Ho Hk k' s' Hs. simpl in *. destruct (decide (k' = k)) as [->|Hne].
  - rewrite lookup_insert_eq. by apply Hk.
  - rewrite lookup_insert_ne by done. apply Hi. by eapply Ho.
Qed.

Lemma only_at_inv_same st k d' :
  dd_inv st → only_at k (tbl st) d' →
  (∀ s', streams d' !! k = Some s' → ∃ s, streams (tbl st) !! k = Some s ∧ same_account s s') →
  dd_inv (mkDD d' (gh st)).
Proof.
  intros Hi Ho Hk k' s' Hs. simpl in *. destruct (decide (k' = k)) as [->|Hne].
  - destruct (Hk s' Hs) as (s & Hs0 & Hsame). eapply stream_ok_same; [by apply Hi|done].
  - apply Hi. by eapply Ho.
Qed.

Lemma stream_spec d k d' os :
  stream d k = (d', os) →
  only_at k d d' ∧ window d' = window d ∧ maxStreams d' = maxStreams d ∧
  match os with
  | Some s => streams d' !! k = Some s ∧
      ((∃ s0 u, streams d !! k = Some s0 ∧ s = set_used s0 u) ∨
       (streams d !! k = None ∧ ∃ id clk, s = new_stream id clk))
  | None => streams d' !! k = None
  end.
Proof.
  unfold stream. intros H. destruct (streams (tick d) !! k) as [s|] eqn:Es.
  { injection H as <- <-. split_and!; try done.
    - apply put_only_at. by intros k' s' _ ?.
    - apply lookup_insert_eq.
    - left. by eexists s, _. }
  destruct (if _ <=? _ then evictOldest (tick d) else Some (tick d)) as [d1|] eqn:Er.
  - injection H as <- <-.
    assert (Hd1 : (∀ k' s', streams d1 !! k' = Some s' → streams d !! k' = Some s') ∧
                  window d1 = window d ∧ maxStreams d1 = maxStreams d).
    { destruct (_ <=? _); [|by simplify_eq]. unfold evictOldest in Er.
      destruct (victim (tick d)) as [v|]; [|done]. simpl in Er. simplify_eq. simpl. split_and!; try done.
      intros k' s' [_ ?]%lookup_delete_Some. done. }
    destruct Hd1 as (Hd1 & Hw & Hm). split_and!; simpl; try done.
    + apply put_only_at. intros k' s' _ ?. by apply Hd1.
    + apply lookup_insert_eq.
    + right. split; [done|]. by eexists _, _.
  - injection H as <- <-. split_and!; try done. by intros k' s' _ ?.
Qed.

Lemma stream_ghost_ok st k d' s :
  dd_inv st → stream (tbl st) k = (d', Some s) →
  only_at k (tbl st) d' ∧ stream_ok (ghost_at st k) s ∧
  (arrivalOverflow s = arrivalOverflow (stream_at (tbl st) k) ∧ highest s = highest (stream_at (tbl st) k)).
Proof.
  intros Hi H. apply stream_spec in H as (Ho & _ & _ & Hs & Hcase). split; [done|].
  unfold ghost_at, stream_at. destruct Hcase as [(s0 & u & Hs0 & ->)|[Hnone (id & clk & ->)]].
  - rewrite Hs0. simpl. split; [|done]. eapply stream_ok_same; [by apply Hi|done].
  - rewrite Hnone. simpl. split; [apply new_stream_ok|done].
Qed.

Lemma absent_ok st k d' g' :
  dd_inv st → only_at k (tbl st) d' → streams d' !! k = None → dd_inv (set_gh st d' k g').
Proof. intros Hi Ho Hn. apply only_at_inv; [done..|]. intros s'. by rewrite Hn. Qed.

Lemma Check_inv st k seq :
  is_u64 seq → dd_inv st →
  dd_inv (set_gh st (fst (Check (tbl st) k seq)) k (anchored (tbl st) k seq (ghost_at st k))).
Proof.
  intros Hq Hi. unfold Check. destruct (stream (tbl st) k) as [d' [s|]] eqn:Es.
  - destruct (stream_ghost_ok _ _ _ _ Hi Es) as (Ho & Hok & Hov & Hh).
    pose proof (check_ok _ _ seq Hq Hok) as Hc. destruct (check s seq) as [s' r]. simpl in *.
    apply only_at_inv; [done|by apply put_only_at|]. intros s2. simpl. rewrite lookup_insert_eq. intros [= <-].
    unfold anchored, anchors in *. by rewrite <- Hov, <- Hh.
  - apply stream_spec in Es as (Ho & _ & _ & Hn). by apply absent_ok.
Qed.

Lemma remember_same src s : same_account s (remember_source src s).
Proof. unfold remember_source. by destruct (pending s), (gapSource s). Qed.

Lemma reserve_inv st k seq src d' r :
  is_u64 seq → dd_inv st → reserveArrival (tbl st) k seq src = (d', r) →
  dd_inv (set_gh st d' k (match r with
                          | Some _ => anchored (tbl st) k seq (ghost_at st k)
                          | None => ghost_at st k
                          end)).
Proof.
  intros Hq Hi H. unfold reserveArrival in H. destruct (stream (tbl st) k) as [d1 [s|]] eqn:Es.
  2: { injection H as <- <-. apply stream_spec in Es as (Ho & _ & _ & Hn). by apply absent_ok. }
  destruct (stream_ghost_ok _ _ _ _ Hi Es) as (Ho & Hok & Hov & Hh).
  assert (Hgo : ∀ n, let s' := remember_source src (fst (check (set_arrivals s (<[seq := n]> (arrivals s))) seq)) in
    dd_inv (set_gh st (put d1 k s') k (anchored (tbl st) k seq (ghost_at st k)))).
  { intros n s'. apply only_at_inv; [done|by apply put_only_at|]. intros s2. simpl. rewrite lookup_insert_eq.
    intros [= <-]. eapply stream_ok_same; [|apply remember_same].
    assert (Hok' : stream_ok (ghost_at st k) (set_arrivals s (<[seq := n]> (arrivals s))))
      by (eapply stream_ok_same; done).
    pose proof (check_ok _ _ seq Hq Hok') as Hc. unfold anchored, anchors in *. simpl in Hc.
    by rewrite <- Hov, <- Hh. }
  destruct (arrivals s !! seq) as [n|].
  - injection H as <- <-. apply Hgo.
  - destruct (_ <=? _); injection H as <- <-; [|apply Hgo].
    apply only_at_inv; [done|by apply put_only_at|]. intros s2. simpl. rewrite lookup_insert_eq.
    intros [= <-]. eapply stream_ok_same; done.
Qed.

Lemma dedup_Commit_inv st k seq order :
  is_u64 seq → dd_inv st →
  dd_inv (set_gh st (fst (Commit (tbl st) k seq order)) k (add_committed seq (ghost_at st k))).
Proof.
  intros Hq Hi. unfold Commit. destruct (stream (tbl st) k) as [d' [s|]] eqn:Es.
  - destruct (stream_ghost_ok _ _ _ _ Hi Es) as (Ho & Hok & _).
    destruct (commit_grows (window d') order s seq (so_u64 _ _ Hok)) as [Hu Hg].
    destruct (commit _ _ _ _) as [s' r]. simpl in *.
    apply only_at_inv; [done|by apply put_only_at|]. intros s2. simpl. rewrite lookup_insert_eq. intros [= <-].
    eapply stream_ok_grows; try done; simpl; [set_solver|by intros q [?|[]]].
  - apply stream_spec in Es as (Ho & _ & _ & Hn). by apply absent_ok.
Qed.

(** A report extends what the ghost knows. *)
Lemma reported_ok g r s : stream_ok g s → stream_ok (add_reported r g) s.
Proof.
  intros Hs. eapply (stream_ok_grows none none g _ s s); try done; [apply Hs|by apply grows_same| |].
  - by intros q [?|[]].
  - intros q [?|[]]. simpl. apply in_ranges_cons. by right.
Qed.

Lemma account_ok order g r s s' :
  is_u64 (first r) → is_u64 (last r) → stream_ok g s → account order s (first r) (last r) = Some s' →
  stream_ok (add_reported r g) s'.
Proof.
  intros H1 H2 Hs Ha. destruct (account_grows _ _ _ _ _ (so_u64 _ _ Hs) H1 H2 Ha) as [Hu Hg].
  eapply stream_ok_grows; try done; [by intros q [?|[]]|].
  intros q Hq. simpl. apply in_ranges_cons. destruct Hq; [by right|by left].
Qed.

Lemma ghost_at_some st k s :
  streams (tbl st) !! k = Some s → ghost_at st k = default fresh_ghost (gh st !! k).
Proof. unfold ghost_at. by intros ->. Qed.

Lemma only_at_tick d k : only_at k d (tick d).
Proof. by intros k' s _ ?. Qed.

Lemma only_at_refl d k : only_at k d d.
Proof. by intros k' s _ ?. Qed.

Lemma NoteMissing_inv st k r order :
  is_u64 (first r) → is_u64 (last r) → dd_inv st →
  dd_inv (set_gh st (NoteMissing (tbl st) k (first r) (last r) order) k (add_reported r (ghost_at st k))).
Proof.
  intros H1 H2 Hi. unfold NoteMissing. destruct (streams (tbl st) !! k) as [s|] eqn:Es.
  2: { apply absent_ok; [done|apply only_at_refl|done]. }
  pose proof (Hi _ _ Es) as Hok. rewrite (ghost_at_some _ _ _ Es).
  destruct (coversArrival s (first r) (last r)).
  - apply only_at_inv; [done|apply only_at_refl|]. intros s'. rewrite Es. intros [= <-]. by apply reported_ok.
  - apply only_at_inv; [done|apply put_only_at, only_at_tick|].
    intros s'. simpl. rewrite lookup_insert_eq. intros [= <-].
    set (s1 := touch (tick (tbl st)) s). assert (Hok1 : stream_ok (default fresh_ghost (gh st !! k)) s1)
      by (eapply stream_ok_same; done).
    destruct (account order s1 (first r) (last r)) as [s2|] eqn:Ea; simpl; [by eapply account_ok|by apply reported_ok].
Qed.

Lemma finish_accepted_inv st p order :
  is_u64 (first (p_gap p)) → is_u64 (last (p_gap p)) → dd_inv st →
  dd_inv (set_gh st (fst (finishGap (tbl st) p true order)) (p_key p)
            (add_reported (p_gap p) (ghost_at st (p_key p)))).
Proof.
  intros H1 H2 Hi. unfold finishGap. destruct (streams (tbl st) !! p_key p) as [s|] eqn:Es.
  2: { apply absent_ok; [done|apply only_at_refl|done]. }
  pose proof (Hi _ _ Es) as Hok. rewrite (ghost_at_some _ _ _ Es).
  assert (Hok1 : stream_ok (default fresh_ghost (gh st !! p_key p)) (set_claims s (nextGapClaim s) 0))
    by (eapply stream_ok_same; done).
  destruct (_ || _).
  { apply only_at_inv; [done|apply only_at_refl|]. intros s'. simpl. rewrite Es. intros [= <-]. by apply reported_ok. }
  destruct (_ || _ || _ || _).
  { apply only_at_inv; [done|apply put_only_at, only_at_refl|]. intros s'. simpl. rewrite lookup_insert_eq.
    intros [= <-]. by apply reported_ok. }
  destruct (account order _ _ _) as [s2|] eqn:Ea.
  - apply only_at_inv; [done|apply put_only_at, only_at_tick|]. intros s'. simpl. rewrite lookup_insert_eq.
    intros [= <-]. eapply stream_ok_same; [by eapply account_ok|done].
  - apply only_at_inv; [done|apply put_only_at, only_at_refl|]. intros s'. simpl. rewrite lookup_insert_eq.
    intros [= <-]. by apply reported_ok.
Qed.

(** The other operations change no accounting: at most one stream is replaced, by
    one that accounts for the same. *)
Definition quiet (d d' : dedup) : Prop :=
  ∀ k s', streams d' !! k = Some s' → ∃ s, streams d !! k = Some s ∧ same_stream s s'.

Lemma quiet_inv st d' : dd_inv st → quiet (tbl st) d' → dd_inv (mkDD d' (gh st)).
Proof.
  intros Hi Hq k s' Hs. destruct (Hq k s' Hs) as (s & Hs0 & Hsame & _).
  eapply stream_ok_same; [by apply Hi|done].
Qed.

Lemma quiet_refl d : quiet d d.
Proof. intros k s Hs. by exists s. Qed.

Lemma quiet_put d d' k s s' :
  quiet d d' → streams d !! k = Some s → same_stream s s' → quiet d (put d' k s').
Proof.
  intros Hq Hs Hsame k' s2. simpl. destruct (decide (k' = k)) as [->|Hne].
  - rewrite lookup_insert_eq. intros [= <-]. by exists s.
  - rewrite lookup_insert_ne by done. apply Hq.
Qed.

Lemma quiet_tick d d' : quiet d d' → quiet d (tick d').
Proof. done. Qed.

Lemma nextPublishable_same order s : same_stream s (fst (nextPublishableGap order s)).
Proof. unfold nextPublishableGap. simpl. apply excludeArrivals_same. Qed.

Lemma release_quiet d r order : quiet d (release d r order).
Proof.
  unfold release. destruct (streams d !! a_key r) as [s|] eqn:Es; [|apply quiet_refl].
  destruct (_ =? _); [|apply quiet_refl]. eapply quiet_put; [apply quiet_refl|done|].
  etrans; [|apply excludeArrivals_same]. done.
Qed.

Lemma CheckReplay_quiet d k q : quiet d (fst (CheckReplay d k q)).
Proof.
  unfold CheckReplay. destruct (streams d !! k) as [s|] eqn:Es; [|apply quiet_refl].
  destruct (_ && _); [|eapply quiet_put; [apply quiet_tick, quiet_refl|done|done]].
  unfold queueReplayMissing. set (s1 := touch (tick d) s).
  pose proof (replay_same (SortFunc (missing s1 ++ (single <$> elements (ahead s1))
    ++ (single <$> (fst <$> map_to_list (arrivals s1))))) s1 (u64 (written s1 + 1)) (u64 (q - 1))) as Hr.
  destruct (replay_loop _ _ _ _) as [s2 ok]. simpl in *.
  eapply quiet_put; [apply quiet_tick, quiet_refl|done|]. by etrans; [|exact Hr].
Qed.

Lemma claimGap_quiet d k src f l v : quiet d (fst (claimGap d k src f l v)).
Proof.
  unfold claimGap. destruct (streams d !! k) as [s|] eqn:Es; [|apply quiet_refl].
  destruct (_ || _ || _ || _); [apply quiet_refl|].
  set (s1 := match gapSource s with None => _ | Some _ => s end).
  assert (same_stream s s1) by (unfold s1; by destruct (gapSource s)).
  destruct (_ || _); simpl; [by eapply quiet_put; [apply quiet_refl|..]|].
  eapply quiet_put; [apply quiet_tick, quiet_refl|done|]. by etrans.
Qed.

Lemma takeNext_quiet d k order : quiet d (fst (takeNextPendingGap d k order)).
Proof.
  unfold takeNextPendingGap. destruct (streams d !! k) as [s|] eqn:Es; [|apply quiet_refl].
  destruct (negb (gap_candidate s)); [apply quiet_refl|].
  pose proof (nextPublishable_same order s) as Hn.
  destruct (nextPublishableGap order s) as [s1 [gap|]]; simpl in *;
    (eapply quiet_put; [apply quiet_refl || apply quiet_tick, quiet_refl|done|]); [by etrans|done].
Qed.

Lemma finish_failed_quiet d p order : quiet d (fst (finishGap d p false order)).
Proof.
  unfold finishGap. destruct (streams d !! p_key p) as [s|] eqn:Es; [|apply quiet_refl].
  destruct (_ || _); [apply quiet_refl|]. simpl. by eapply quiet_put; [apply quiet_refl|..].
Qed.

Lemma fold_oldest_elem (l : list (streamKey * (dedupStream * option seqRange))) acc r :
  fold_left (λ acc '(k, (s, g)),
      match g, acc with
      | Some gap, Some (_, s', _) => if used s <? used s' then Some (k, s, gap) else acc
      | Some gap, None => Some (k, s, gap)
      | None, _ => acc
      end) l acc = Some r →
  acc = Some r ∨ ∃ g, (r.1.1, (r.1.2, g)) ∈ l.
Proof.
  revert acc. induction l as [|[k [s g]] l IH]; intros acc H; simpl in H; [by left|].
  apply IH in H as [H|(g' & H)]; [|right; exists g'; by right].
  destruct g as [gap|]; [|by left].
  assert (Hnew : Some (k, s, gap) = Some r → ∃ g, (r.1.1, (r.1.2, g)) ∈ (k, (s, Some gap)) :: l).
  { intros [= <-]. exists (Some gap). by left. }
  destruct acc as [[[k1 s1] g1]|]; [destruct (used s <? used s1)|]; auto.
Qed.

Lemma takePending_quiet d order : quiet d (fst (takePendingGap d order)).
Proof.
  unfold takePendingGap. set (scanned := map_imap _ (streams d)).
  assert (Hsc : ∀ k s g, scanned !! k = Some (s, g) → ∃ s0, streams d !! k = Some s0 ∧ same_stream s0 s).
  { intros k s g H. unfold scanned in H. rewrite map_lookup_imap in H.
    destruct (streams d !! k) as [s0|]; [|done]. simpl in H. exists s0. split; [done|].
    pose proof (nextPublishable_same (order k) s0) as Hn.
    destruct (gap_candidate s0); [|by injection H as <- <-].
    assert (Hx : nextPublishableGap (order k) s0 = (s, g)) by congruence. by rewrite Hx in Hn. }
  set (d1 := mkDedup _ _ _ _ (fst <$> scanned)).
  assert (Hq : quiet d d1).
  { intros k s'. simpl. rewrite lookup_fmap. destruct (scanned !! k) as [[s g]|] eqn:E; [|done].
    intros [= <-]. by eapply Hsc. }
  destruct (fold_left _ _ None) as [[[k s] gap]|] eqn:Ef; [|done]. simpl.
  apply fold_oldest_elem in Ef as [?|(g & Hin)]; [done|]. simpl in Hin.
  apply elem_of_map_to_list in Hin. destruct (Hsc _ _ _ Hin) as (s0 & Hs0 & Hsame).
  eapply quiet_put; [by apply quiet_tick|done|]. by etrans.
Qed.

Lemma ResumeFrom_quiet d k : quiet d (fst (ResumeFrom d k)).
Proof.
  unfold ResumeFrom. destruct (streams d !! k) as [s|] eqn:Es; [|apply quiet_refl]. simpl.
  by eapply quiet_put; [apply quiet_tick, quiet_refl|..].
Qed.

Lemma dd_step_inv st st' : dd_step st st' → dd_inv st → dd_inv st'.
Proof.
  destruct 1 as [st k seq Hq|st k seq src d' r Hq Hr|st k seq src d' Hq Hr|st r order|st k seq order Hq
    |st k q Hq|st k r order H1 H2|st k|st k src f l v|st order|st k order|st p order H1 H2|st p order]; intros Hi.
  - by apply Check_inv.
  - exact (reserve_inv _ _ _ _ _ (Some r) Hq Hi Hr).
  - exact (reserve_inv _ _ _ _ _ None Hq Hi Hr).
  - apply quiet_inv; [done|apply release_quiet].
  - by apply dedup_Commit_inv.
  - apply quiet_inv; [done|apply CheckReplay_quiet].
  - by apply NoteMissing_inv.
  - apply quiet_inv; [done|apply ResumeFrom_quiet].
  - apply quiet_inv; [done|apply claimGap_quiet].
  - apply quiet_inv; [done|apply takePending_quiet].
  - apply quiet_inv; [done|apply takeNext_quiet].
  - by apply finish_accepted_inv.
  - apply quiet_inv; [done|apply finish_failed_quiet].
Qed.

Lemma dd_reachable_inv w m st : rtc dd_step (dd_init w m) st → dd_inv st.
Proof. apply rtc_invariant; [exact dd_step_inv|]. intros k s Hs. done. Qed.

(** C20: the collector never acknowledges an event it neither holds nor reported lost.
    In every interleaving of arrivals, commits, replays, loss reports, evictions and
    concurrent gap publications, every sequence number between the point where the
    stream was anchored and its watermark (what Commit returns and ResumeFrom offers
    the guest) was either committed after its sink write or lies in a range whose
    loss report the sink accepted. *)
Theorem watermark_accounted w m st k q :
  rtc dd_step (dd_init w m) st → is_u64 q → is_Some (streams (tbl st) !! k) →
  g_anchor (ghost_at st k) < q <= snd (ResumeFrom (tbl st) k) →
  q ∈ g_committed (ghost_at st k) ∨ in_ranges q (g_reported (ghost_at st k)).
Proof.
  intros Hr Hq [s Hs] H. unfold ResumeFrom in H. unfold ghost_at in *. rewrite Hs in *. simpl in H.
  exact (so_written _ _ (dd_reachable_inv _ _ _ Hr k s Hs) q Hq H).
Qed.

(** ** Events in flight *)

Definition accounted (s : dedupStream) (q : Z) : Prop :=
  q <= written s ∨ q ∈ ahead s ∨ in_ranges q (missing s).

Lemma grows_accounted ew em s s' q :
  grows ew em s s' → is_u64 q → accounted s' q → accounted s q ∨ ew q ∨ em q.
Proof.
  intros [Ga Gm Gw] Hq. unfold accounted. intros [H|[H|H]].
  - destruct (Gw q Hq H) as [|[|[|[|]]]]; auto 6.
  - destruct (Ga q H); auto.
  - destruct (Gm q H); auto.
Qed.

Lemma covers_spec s f l q n :
  coversArrival s f l = false → arrivals s !! q = Some n → ¬ (f <= q <= l).
Proof.
  unfold coversArrival, arrived. intros [_ H]%orb_false_iff Hq Hr.
  assert (Ht : existsb (λ '(seq, _), (f <=? seq) && (seq <=? l)) (map_to_list (arrivals s)) = true);
    [|congruence].
  apply existsb_exists. exists (q, n). split; [apply list_elem_of_In; by apply elem_of_map_to_list|].
  apply andb_true_iff. split; apply Z.leb_le; lia.
Qed.

Lemma check_highest s seq : 0 < highest s → 0 < highest (fst (check s seq)) ∧ anchors s seq = false.
Proof.
  intros Hh. assert (Ha : anchors s seq = false).
  { unfold anchors. destruct (Z.eqb_spec (highest s) 0); [lia|]. by rewrite andb_false_r. }
  split; [|done]. unfold check. destruct (arrivalOverflow s); [done|].
  destruct (Z.eqb_spec (highest s) 0); [lia|]. cbn [andb].
  destruct (excludePending s seq) as [s2|] eqn:E2; [|done].
  apply excludePending_same in E2 as (_ & Hh2 & _).
  destruct (if negb (highest s2 =? 0) && _ && _ then _ else _) as [s3|] eqn:E3; simpl; [|lia].
  assert (Hh3 : highest s3 = highest s2).
  { destruct (_ && _ && _); [by apply queueMissing_same in E3 as (_ & ? & _)|by simplify_eq]. }
  destruct (Z.ltb_spec (highest s3) seq); simpl; lia.
Qed.

Lemma highest_absorb s : highest (absorb s) = highest s.
Proof.
  unfold absorb. assert (Hl : ∀ n t, highest (absorb_loop n t) = highest t); [|apply Hl].
  induction n as [|n IH]; intros t; simpl; [done|]. destruct (absorb_step t) as [t'|] eqn:E; [|done].
  rewrite IH. unfold absorb_step in E. destruct (bool_decide _); [by simplify_eq|].
  by destruct (takeMissing _ _) as [[? ?]|]; simplify_eq.
Qed.

Lemma highest_account order s f l s' :
  account order s f l = Some s' → highest s <= highest s'.
Proof.
  unfold account. destruct (subtractRange _ _ _) as [rem|]; [|done].
  destruct (noteMissing s f l) as [s1|] eqn:En; [|done]. intros [= <-].
  assert (Hn : highest s1 = highest s).
  { unfold noteMissing in En. destruct (_ || _); [by simplify_eq|]. destruct (coalesce _ _ _) as [[k f2] l2].
    destruct (_ && _); [done|]. injection En as <-. by rewrite highest_absorb. }
  destruct (prunePending_same order (set_pending s1 rem)) as [_ Hp]. simpl in Hp.
  destruct (Z.ltb_spec (highest (prunePending order (set_pending s1 rem))) l); simpl; lia.
Qed.

Lemma highest_commit w order s seq : highest (fst (commit w order s seq)) = highest s.
Proof.
  unfold commit. destruct (seq <=? written s); [done|].
  set (s1 := set_ahead s _). destruct (prunePending_same order (absorb s1)) as [_ Hp].
  assert (Ha : highest (absorb s1) = highest s) by (etrans; [apply highest_absorb|done]).
  unfold trim. destruct (_ <=? _); simpl; congruence.
Qed.

(** What a step may do to a stream with an arrival of [q] in flight: it accounts for
    [q] only by committing it. *)
Record kept (q : Z) (s : dedupStream) (g : ghost) (s' : dedupStream) (g' : ghost) : Prop := {
  kp_accounted : accounted s' q → accounted s q ∨ q ∈ g_committed g';
  kp_highest : 0 < highest s';
  kp_committed : g_committed g ⊆ g_committed g'
}.

Lemma kept_same q s g s' g' :
  0 < highest s → same_stream s s' → g_committed g ⊆ g_committed g' → kept q s g s' g'.
Proof.
  intros Hh [(Ha & Hm & Hw) Hhi] Hg. split; [|lia|done]. unfold accounted. rewrite Ha, Hm, Hw. auto.
Qed.

Lemma kept_start q s g s1 s' g' : same_stream s s1 → kept q s1 g s' g' → kept q s g s' g'.
Proof.
  intros [(Ha & Hm & Hw) _] [K1 K2 K3]. split; [|done..]. unfold accounted in *.
  rewrite Ha, Hm, Hw in K1. done.
Qed.

Lemma kept_end q s g s1 s' g' : kept q s g s1 g' → same_stream s1 s' → kept q s g s' g'.
Proof.
  intros [K1 K2 K3] [(Ha & Hm & Hw) Hh]. split; [|lia|done]. unfold accounted in *. by rewrite Ha, Hm, Hw.
Qed.

Lemma kept_ghost q s g s' g1 g' :
  kept q s g s' g1 → g_committed g1 ⊆ g_committed g' → kept q s g s' g'.
Proof.
  intros [K1 K2 K3] Hg. split; [|done|set_solver]. intros H. destruct (K1 H); [by left|right; set_solver].
Qed.

Lemma check_kept q s g seq : 0 < highest s → kept q s g (fst (check s seq)) g.
Proof.
  intros Hh. destruct (check_highest s seq Hh) as [Hh' Ha]. destruct (check_same s seq) as (E1 & E2 & E3).
  rewrite Ha in E3. split; [|done..]. unfold accounted. rewrite E1, E2, E3. auto.
Qed.

Lemma commit_kept q w order s g seq :
  is_u64 q → stream_u64 s → 0 < highest s → kept q s g (fst (commit w order s seq)) (add_committed seq g).
Proof.
  intros Hq Hu Hh. destruct (commit_grows w order s seq Hu) as [_ Hg]. split; simpl.
  - intros H. destruct (grows_accounted _ _ _ _ _ Hg Hq H) as [?|[->|[]]]; [auto|right; set_solver].
  - by rewrite highest_commit.
  - set_solver.
Qed.

Lemma account_kept q n order s g r s' :
  is_u64 q → stream_u64 s → 0 < highest s → arrivals s !! q = Some n →
  is_u64 (first r) → is_u64 (last r) → coversArrival s (first r) (last r) = false →
  account order s (first r) (last r) = Some s' → kept q s g s' (add_reported r g).
Proof.
  intros Hq Hu Hh Hfl H1 H2 Hc Ha. destruct (account_grows _ _ _ _ _ Hu H1 H2 Ha) as [_ Hg]. split; simpl.
  - intros H. destruct (grows_accounted _ _ _ _ _ Hg Hq H) as [?|[[]|Hr]]; [auto|].
    exfalso. by eapply covers_spec.
  - apply highest_account in Ha. lia.
  - done.
Qed.

Lemma reserve_kept q src m s g seq :
  0 < highest s →
  kept q s g (remember_source src (fst (check (set_arrivals s (<[seq := m]> (arrivals s))) seq))) g.
Proof.
  intros Hh. set (s2 := set_arrivals s _). eapply (kept_start q s g s2); [done|].
  eapply kept_end; [by apply check_kept|]. split; [apply remember_same|].
  generalize (fst (check s2 seq)). intros t. unfold remember_source. by destruct (pending t), (gapSource t).
Qed.

Lemma anchored_committed d k seq g : g_committed g ⊆ g_committed (anchored d k seq g).
Proof. unfold anchored. by destruct (anchors _ _). Qed.

(** The shape of the operations that may account for more. *)
Lemma stream_hit d k s d' os :
  streams d !! k = Some s → stream d k = (d', os) →
  only_at k d d' ∧ os = Some (set_used s (u64 (clock d + 1))).
Proof.
  intros Hs H. split; [by apply stream_spec in H as [? _]|].
  unfold stream in H. change (streams (tick d)) with (streams d) in H. rewrite Hs in H. by injection H as _ <-.
Qed.

(** At its own key an operation maps the stream by [f]. *)
Definition maps_at (k : streamKey) (d d' : dedup) (f : dedupStream → dedupStream → Prop) : Prop :=
  only_at k d d' ∧ ∀ s s', streams d !! k = Some s → streams d' !! k = Some s' →
    ∃ s1, same_stream s s1 ∧ arrivals s1 = arrivals s ∧ f s1 s'.

Lemma maps_at_put k d d1 d' s1 s2 (f : dedupStream → dedupStream → Prop) :
  only_at k d d1 → streams d1 = streams d' → f s1 s2 →
  (∀ s, streams d !! k = Some s → same_stream s s1 ∧ arrivals s1 = arrivals s) → maps_at k d (put d' k s2) f.
Proof.
  intros Ho Hst Hf Hs. split.
  - apply put_only_at. intros k' s' Hne. rewrite <- Hst. by apply Ho.
  - intros s s' Hk. simpl. rewrite lookup_insert_eq. intros [= <-]. exists s1.
    destruct (Hs s Hk). by split_and!.
Qed.

Lemma only_at_absent k d d' (f : dedupStream → dedupStream → Prop) :
  only_at k d d' → streams d' !! k = None → maps_at k d d' f.
Proof. intros Ho Hn. split; [done|]. intros s s' _. by rewrite Hn. Qed.

Lemma Check_maps d k seq : maps_at k d (fst (Check d k seq)) (λ s s', s' = fst (check s seq)).
Proof.
  unfold Check. destruct (stream d k) as [d1 [s1|]] eqn:Es.
  - destruct (check s1 seq) as [s2 r] eqn:Ec. simpl.
    eapply maps_at_put; [by apply stream_spec in Es as [? _]|done|by rewrite Ec|].
    intros s Hs. destruct (stream_hit _ _ _ _ _ Hs Es) as [_ [= ->]]. done.
  - apply stream_spec in Es as (Ho & _ & _ & Hn). by apply only_at_absent.
Qed.

Lemma reserve_maps d k seq src :
  maps_at k d (fst (reserveArrival d k seq src))
    (λ s s', same_stream s s' ∨ ∃ n, s' = remember_source src (fst (check (set_arrivals s (<[seq := n]> (arrivals s))) seq))).
Proof.
  unfold reserveArrival. destruct (stream d k) as [d1 [s1|]] eqn:Es.
  - assert (Hs1 : ∀ s, streams d !! k = Some s → same_stream s s1 ∧ arrivals s1 = arrivals s).
    { intros s Hs. destruct (stream_hit _ _ _ _ _ Hs Es) as [_ [= ->]]. done. }
    assert (Ho : only_at k d d1) by (by apply stream_spec in Es as [? _]).
    destruct (arrivals s1 !! seq) as [n|]; [|destruct (_ <=? _)]; simpl;
      (eapply (maps_at_put k d d1); [exact Ho|done| |exact Hs1]); eauto. by left.
  - apply stream_spec in Es as (Ho & _ & _ & Hn). by apply only_at_absent.
Qed.

Lemma Commit_maps d k seq order :
  maps_at k d (fst (Commit d k seq order)) (λ s s', ∃ w, s' = fst (commit w order s seq)).
Proof.
  unfold Commit. destruct (stream d k) as [d1 [s1|]] eqn:Es.
  - destruct (commit (window d1) order s1 seq) as [s2 r] eqn:Ec. simpl.
    eapply maps_at_put; [by apply stream_spec in Es as [? _]|done|exists (window d1); by rewrite Ec|].
    intros s Hs. destruct (stream_hit _ _ _ _ _ Hs Es) as [_ [= ->]]. done.
  - apply stream_spec in Es as (Ho & _ & _ & Hn). by apply only_at_absent.
Qed.

Definition reported_from (order : list Z) (r : seqRange) (s s' : dedupStream) : Prop :=
  same_stream s s' ∨ coversArrival s (first r) (last r) = false ∧
  ∃ s2, account order s (first r) (last r) = Some s2 ∧ same_stream s2 s'.

Lemma NoteMissing_maps d k r order :
  maps_at k d (NoteMissing d k (first r) (last r) order) (reported_from order r).
Proof.
  unfold NoteMissing. destruct (streams d !! k) as [s|] eqn:Es; [|apply only_at_absent; [apply only_at_refl|done]].
  destruct (coversArrival s (first r) (last r)) eqn:Ec.
  - split; [apply only_at_refl|]. intros s0 s' Hs Hs'. rewrite Hs in Hs'. injection Hs' as <-.
    exists s0. split_and!; [done..|by left].
  - eapply (maps_at_put k d (tick d) _ (touch (tick d) s)); [apply only_at_tick|done| |].
    + destruct (account order (touch (tick d) s) (first r) (last r)) as [s2|] eqn:Ea; simpl; [right|by left].
      split; [done|]. by exists s2.
    + intros s0 Hs. rewrite Hs in Es. by injection Es as <-.
Qed.

Lemma finish_maps d p order acc :
  maps_at (p_key p) d (fst (finishGap d p acc order)) (reported_from order (p_gap p)).
Proof.
  unfold finishGap. destruct (streams d !! p_key p) as [s|] eqn:Es;
    [|apply only_at_absent; [apply only_at_refl|done]].
  assert (Hput : ∀ d' s2, streams d' = streams d → reported_from order (p_gap p) (set_claims s (nextGapClaim s) 0) s2 →
    maps_at (p_key p) d (put d' (p_key p) s2) (reported_from order (p_gap p))).
  { intros d' s2 Hd Hf. eapply (maps_at_put _ d d _ (set_claims s (nextGapClaim s) 0));
      [apply only_at_refl|by symmetry|done|].
    intros s0 Hs. rewrite Hs in Es. by injection Es as <-. }
  destruct (_ || _).
  { split; [apply only_at_refl|]. intros s0 s' Hs Hs'. simpl in Hs'. rewrite Hs in Hs'. injection Hs' as <-.
    exists s0. split_and!; [done..|by left]. }
  destruct (_ || _ || _ || _) eqn:Eg; [apply Hput; [done|by left]|].
  apply orb_false_iff in Eg as [Eg _]. apply orb_false_iff in Eg as [Eg _].
  apply orb_false_iff in Eg as [_ Ec].
  destruct (account order _ _ _) as [s2|] eqn:Ea; apply Hput; [done| |done|by left].
  right. split; [done|]. by exists s2.
Qed.

Lemma kept_at st d' k0 g0 k s s' q n (f : dedupStream → dedupStream → Prop) :
  maps_at k0 (tbl st) d' f → streams (tbl st) !! k = Some s → streams d' !! k = Some s' →
  0 < highest s → arrivals s !! q = Some n → g_committed (ghost_at st k0) ⊆ g_committed g0 →
  (∀ s1, k = k0 → same_stream s s1 → arrivals s1 = arrivals s → f s1 s' → kept q s (ghost_at st k0) s' g0) →
  kept q s (default fresh_ghost (gh st !! k)) s' (default fresh_ghost (gh (set_gh st d' k0 g0) !! k)).
Proof.
  intros [Ho Hm] Hk Hk' Hh Hfl Hg Hf. simpl. destruct (decide (k = k0)) as [->|Hne].
  - rewrite lookup_insert_eq. destruct (Hm _ _ Hk Hk') as (s1 & H1 & H2 & H3).
    rewrite <- (ghost_at_some _ _ _ Hk). by eapply Hf.
  - rewrite lookup_insert_ne by done. apply Ho in Hk'; [|done]. rewrite Hk in Hk'. injection Hk' as <-.
    by apply kept_same.
Qed.

Lemma same_stream_u64 s s' : same_stream s s' → stream_u64 s → stream_u64 s'.
Proof. intros [? _]. by apply same_account_u64. Qed.

Lemma reported_kept q n order r s s1 s' g :
  is_u64 q → stream_u64 s → 0 < highest s → arrivals s !! q = Some n → is_u64 (first r) → is_u64 (last r) →
  same_stream s s1 → arrivals s1 = arrivals s → reported_from order r s1 s' →
  kept q s g s' (add_reported r g).
Proof.
  intros Hq Hu Hh Hfl H1 H2 Hs1 Ha Hf. eapply kept_start; [exact Hs1|].
  assert (Hh1 : 0 < highest s1) by (destruct Hs1 as [_ ->]; done).
  destruct Hf as [Hf|[Hc (s2 & Hacc & Hs2)]]; [by apply kept_same|].
  assert (Hk : kept q s1 g s2 (add_reported r g)).
  { eapply account_kept; try done; [by eapply same_stream_u64|by rewrite Ha]. }
  by eapply kept_end.
Qed.

(** A step at a stream with an arrival of [q] in flight. *)
Lemma in_flight_step st st' k s s' q n :
  dd_inv st → dd_step st st' → is_u64 q →
  streams (tbl st) !! k = Some s → streams (tbl st') !! k = Some s' →
  arrivals s !! q = Some n → 0 < highest s →
  kept q s (ghost_at st k) s' (ghost_at st' k).
Proof.
  intros Hi Hs Hq Hk Hk' Hfl Hh. rewrite (ghost_at_some _ _ _ Hk), (ghost_at_some _ _ _ Hk').
  pose proof (so_u64 _ _ (Hi _ _ Hk)) as Hu.
  assert (Hquiet : ∀ d', st' = mkDD d' (gh st) → quiet (tbl st) d' →
    kept q s (default fresh_ghost (gh st !! k)) s' (default fresh_ghost (gh st' !! k))).
  { intros d' -> Hqt. destruct (Hqt _ _ Hk') as (s0 & Hs0 & Hsame).
    rewrite Hk in Hs0. injection Hs0 as <-. by apply kept_same. }
  destruct Hs as [st k0 seq Hq0|st k0 seq src d' r Hq0 Hr|st k0 seq src d' Hq0 Hr|st r order|st k0 seq order Hq0
    |st k0 q0 Hq0|st k0 r order H1 H2|st k0|st k0 src f l v|st order|st k0 order|st p order H1 H2|st p order].
  - eapply kept_at; [apply Check_maps|done..|apply anchored_committed|].
    intros s1 <- Hs1 _ ->. eapply kept_ghost; [|apply anchored_committed]. eapply kept_start; [exact Hs1|].
    apply check_kept. by rewrite (proj2 Hs1).
  - pose proof (reserve_maps (tbl st) k0 seq src) as Hm. rewrite Hr in Hm.
    eapply kept_at; [exact Hm|done..|apply anchored_committed|].
    intros s1 <- Hs1 _ Hc. eapply kept_ghost; [|apply anchored_committed]. eapply kept_start; [exact Hs1|].
    destruct Hc as [Hc|[m ->]]; [apply kept_same|apply reserve_kept]; rewrite ?(proj2 Hs1); done.
  - pose proof (reserve_maps (tbl st) k0 seq src) as Hm. rewrite Hr in Hm.
    eapply kept_at; [exact Hm|done..|]. intros s1 <- Hs1 _ Hc. eapply kept_start; [exact Hs1|].
    destruct Hc as [Hc|[m ->]]; [apply kept_same|apply reserve_kept]; rewrite ?(proj2 Hs1); done.
  - eapply Hquiet; [done|apply release_quiet].
  - eapply kept_at; [apply Commit_maps|done..|simpl; set_solver|].
    intros s1 <- Hs1 _ [w ->]. eapply kept_start; [exact Hs1|].
    apply commit_kept; [done|by eapply same_stream_u64|destruct Hs1 as [_ ->]; done].
  - eapply Hquiet; [done|apply CheckReplay_quiet].
  - eapply kept_at; [apply NoteMissing_maps|done..|]. intros s1 <- Hs1 Ha Hf. by eapply reported_kept.
  - eapply Hquiet; [done|apply ResumeFrom_quiet].
  - eapply Hquiet; [done|apply claimGap_quiet].
  - eapply Hquiet; [done|apply takePending_quiet].
  - eapply Hquiet; [done|apply takeNext_quiet].
  - eapply kept_at; [apply finish_maps|done..|]. intros s1 <- Hs1 Ha Hf. by eapply reported_kept.
  - eapply Hquiet; [done|apply finish_failed_quiet].
Qed.

(** The stream of [k] has received something and holds an arrival of [q]. *)
Definition in_flight (k : streamKey) (q : Z) (st : dd_state) : Prop :=
  ∃ s n, streams (tbl st) !! k = Some s ∧ arrivals s !! q = Some n.

(** C21: an event that has arrived and is still being written is never skipped. As long
    as a sequence stays reserved as an arrival, no concurrent loss report, replay,
    eviction or commit of another event makes the collector account for it (and so
    lets the watermark pass it): it was accounted for already when it arrived, or
    its own write was committed. *)
Theorem in_flight_not_skipped w m st st' k q s s' :
  rtc dd_step (dd_init w m) st → is_u64 q →
  streams (tbl st) !! k = Some s → is_Some (arrivals s !! q) → 0 < highest s →
  rtc (λ x y, dd_step x y ∧ in_flight k q y) st st' →
  streams (tbl st') !! k = Some s' → accounted s' q →
  accounted s q ∨ q ∈ g_committed (ghost_at st' k).
Proof.
  intros Hr Hq Hs [n Hn] Hh Hrun. pose proof (dd_reachable_inv _ _ _ Hr) as Hi. clear Hr.
  revert s n Hi Hs Hn Hh. induction Hrun as [st|st1 st2 st3 [Hstep (s2 & n2 & Hs2 & Hn2)] Hrun IH];
    intros s n Hi Hs Hn Hh Hs' Hacc.
  - left. rewrite Hs in Hs'. by injection Hs' as <-.
  - destruct (in_flight_step _ _ _ _ _ _ _ Hi Hstep Hq Hs Hs2 Hn Hh) as [K1 K2 K3].
    destruct (IH s2 n2 (dd_step_inv _ _ Hstep Hi) Hs2 Hn2 K2 Hs' Hacc) as [Ha|Hc]; [|by right].
    destruct (K1 Ha) as [|Hc]; [by left|right].
    assert (Hmono : ∀ x y sx nx, rtc (λ x y, dd_step x y ∧ in_flight k q y) x y → dd_inv x →
      streams (tbl x) !! k = Some sx → arrivals sx !! q = Some nx → 0 < highest sx →
      g_committed (ghost_at x k) ⊆ g_committed (ghost_at y k)).
    { intros x y sx nx Hxy. revert sx nx.
      induction Hxy as [|x1 x2 x3 [Hst (sy & ny & Hsy & Hny)] _ IHm]; intros sx nx Hix Hsx Hnx Hhx; [done|].
      destruct (in_flight_step _ _ _ _ _ _ _ Hix Hst Hq Hsx Hsy Hnx Hhx) as [_ Hh2 Hsub].
      etrans; [exact Hsub|]. eapply IHm; try done. by eapply dd_step_inv. }
    eapply Hmono; try done. by eapply dd_step_inv.
Qed.

(** ** Bounds *)

Record stream_bounded (w : Z) (s : dedupStream) : Prop := {
  sb_pending : (length (pending s) <= maxMissingRanges)%nat;
  sb_ahead : Z.of_nat (size (ahead s)) <= w
}.

Lemma exclude_from_length room seq l : ∀ l' c,
  exclude_from room seq l = Some (l', c) → (length l' <= length l + if room then 1 else 0)%nat.
Proof.
  induction l as [|g l IH]; intros l' c H; simpl in H; [simplify_eq; simpl; lia|].
  destruct (seq <? first g); [simplify_eq; lia|]. destruct (last g <? seq).
  - destruct (exclude_from room seq l) as [[l2 c2]|]; [|done]. simplify_eq/=. specialize (IH _ _ eq_refl). lia.
  - destruct (first g =? last g); [simplify_eq/=; lia|]. destruct (seq =? first g); [simplify_eq/=; lia|].
    destruct (seq =? last g); [simplify_eq/=; lia|]. destruct room; [|done]. simplify_eq/=. lia.
Qed.

Lemma clear_bounded w s : stream_bounded w s → stream_bounded w (clearGapSourceIfDrained s).
Proof. intros [H1 H2]. unfold clearGapSourceIfDrained. destruct (pending s) eqn:E; split; simpl; rewrite ?E; done. Qed.

Lemma excludePending_bounded w s seq s' :
  stream_bounded w s → excludePending s seq = Some s' → stream_bounded w s'.
Proof.
  intros [H1 H2] H. unfold excludePending in H.
  destruct (exclude_from _ _ _) as [[l [|]]|] eqn:E; simplify_eq; [|by split].
  apply exclude_from_length in E. apply clear_bounded. split; simpl; [|done].
  destruct (Nat.ltb_spec (length (pending s)) maxMissingRanges); lia.
Qed.

Lemma exclude_arrival_bounded w s q : stream_bounded w s → stream_bounded w (exclude_arrival s q).
Proof.
  intros Hb. unfold exclude_arrival. destruct (arrivals s !! q); [|done].
  destruct (excludePending s q) as [s'|] eqn:E; [|done]. eapply excludePending_bounded in E; [|done].
  destruct (_ =? 0); [|done]. destruct E. by split.
Qed.

Lemma excludeArrivals_bounded w order : ∀ s, stream_bounded w s → stream_bounded w (excludeArrivals order s).
Proof.
  unfold excludeArrivals. induction order as [|q order IH]; intros s Hb; simpl; [done|].
  by apply IH, exclude_arrival_bounded.
Qed.

Lemma prune_bounded w order s :
  (length (pending s) <= maxMissingRanges)%nat → Z.of_nat (size (ahead s)) <= w →
  stream_bounded w (prunePending order s).
Proof.
  intros H1 H2. unfold prunePending. apply clear_bounded, excludeArrivals_bounded. split; simpl; [|done].
  rewrite length_fmap. etrans; [apply length_filter|done].
Qed.

Lemma queue_bounded w s f l s' : stream_bounded w s → queueMissing s f l = Some s' → stream_bounded w s'.
Proof.
  intros [H1 H2] H. unfold queueMissing in H. destruct (_ || _); [simplify_eq; by split|].
  destruct (coalesce _ _ _) as [[kept f2] l2]. destruct (Nat.leb_spec maxMissingRanges (length kept)); [done|].
  injection H as <-. assert (length (SortFunc (kept ++ [mkRange f2 l2])) <= maxMissingRanges)%nat.
  { rewrite SortFunc_perm, length_app. simpl. lia. }
  destruct (pending s); by split.
Qed.

Lemma replay_bounded w acc : ∀ s next l, stream_bounded w s → stream_bounded w (fst (replay_loop s next l acc)).
Proof.
  assert (Hq : ∀ s next l, stream_bounded w s →
    stream_bounded w (fst (match queueMissing s next l with Some s => (s, true) | None => (s, false) end))).
  { intros s next l Hb. destruct (queueMissing s next l) as [s'|] eqn:E; [by eapply queue_bounded|done]. }
  induction acc as [|r acc IH]; intros s next l Hb; simpl; [by apply Hq|].
  destruct (last r <? next); [by apply IH|]. destruct (l <? first r); [by apply Hq|].
  destruct (if next <? first r then _ else _) as [s'|] eqn:E; [|done].
  assert (stream_bounded w s') by (destruct (next <? first r); [by eapply queue_bounded|by simplify_eq]).
  destruct (l <=? last r); [done|]. by apply IH.
Qed.

Lemma check_bounded w s seq : stream_bounded w s → stream_bounded w (fst (check s seq)).
Proof.
  intros Hb. unfold check. destruct (arrivalOverflow s); [done|].
  set (s1 := if (highest s =? 0) && (0 <? seq) then set_written s (seq - 1) else s).
  assert (Hb1 : stream_bounded w s1) by (unfold s1; destruct Hb; destruct (_ && _); by split).
  destruct (excludePending s1 seq) as [s2|] eqn:E2; [|done].
  eapply excludePending_bounded in E2; [|done].
  destruct (if negb (highest s2 =? 0) && _ && _ then _ else _) as [s3|] eqn:E3; [|done].
  assert (Hb3 : stream_bounded w s3) by (destruct (_ && _ && _); [by eapply queue_bounded|by simplify_eq]).
  simpl. destruct (highest s3 <? seq); [|done]. destruct Hb3. by split.
Qed.

Lemma absorb_sizes s : (size (ahead (absorb s)) <= size (ahead s))%nat ∧ pending (absorb s) = pending s.
Proof.
  unfold absorb. assert (Hl : ∀ n t, (size (ahead (absorb_loop n t)) <= size (ahead t))%nat ∧
    pending (absorb_loop n t) = pending t); [|apply Hl].
  induction n as [|n IH]; intros t; simpl; [done|]. destruct (absorb_step t) as [t'|] eqn:E; [|done].
  destruct (IH t') as [H1 H2]. unfold absorb_step in E. destruct (bool_decide _).
  - simplify_eq. simpl in *. split; [|done]. etrans; [exact H1|]. apply subseteq_size. set_solver.
  - destruct (takeMissing _ _) as [[? ?]|]; [|done]. by simplify_eq.
Qed.

Lemma trim_bounded w s :
  0 <= w → (length (pending s) <= maxMissingRanges)%nat → stream_bounded w (fst (trim w s)).
Proof.
  intros Hw Hp. unfold trim. destruct (Z.leb_spec (Z.of_nat (size (ahead s))) w) as [|Hlt]; simpl; [by split|].
  split; simpl; [done|]. set (n := size (ahead s)) in *.
  set (l := take _ (sorted_keys (ahead s))).
  assert (Hperm : sorted_keys (ahead s) ≡ₚ elements (ahead s)) by apply merge_sort_Permutation.
  assert (Hlen : length (sorted_keys (ahead s)) = n) by (by rewrite Hperm).
  assert (Hnd : NoDup l).
  { apply (NoDup_submseteq_l l (sorted_keys (ahead s))); [apply sublist_submseteq, sublist_take|].
    rewrite Hperm. apply NoDup_elements. }
  assert (Hsub : list_to_set l ⊆ ahead s).
  { intros q Hq. apply elem_of_list_to_set in Hq. apply elem_of_elements. rewrite <- Hperm.
    by eapply subseteq_take. }
  rewrite size_difference by done. rewrite size_list_to_set by done. fold n.
  unfold l. rewrite length_take, Hlen. pose proof (Z.div_pos w 4 Hw ltac:(lia)). lia.
Qed.

Lemma commit_bounded w order s seq :
  0 <= w → stream_bounded w s → stream_bounded w (fst (commit w order s seq)).
Proof.
  intros Hw [H1 H2]. unfold commit. destruct (seq <=? written s); simpl; [by split|].
  set (s1 := set_ahead s _). destruct (absorb_sizes s1) as [_ Hp].
  pose proof (trim_bounded w (prunePending order (absorb s1)) Hw) as Ht.
  destruct (prune_bounded (Z.of_nat (size (ahead (absorb s1)))) order (absorb s1)) as [Hpp _]; [by rewrite Hp|done|].
  specialize (Ht Hpp). by destruct (trim _ _).
Qed.

Lemma account_bounded w order s f l s' :
  stream_bounded w s → account order s f l = Some s' → stream_bounded w s'.
Proof.
  intros [H1 H2] H. unfold account in H. destruct (subtractRange (pending s) f l) as [rem|] eqn:Es; [|done].
  assert (Hrem : (length rem <= maxMissingRanges)%nat).
  { unfold subtractRange in Es. destruct (l <? f); [by simplify_eq|].
    destruct (Nat.ltb_spec maxMissingRanges (length (pending s ≫= subtract_one f l))); [done|]. by simplify_eq. }
  destruct (noteMissing s f l) as [s1|] eqn:En; [|done].
  assert (Hah : (size (ahead s1) <= size (ahead s))%nat).
  { unfold noteMissing in En. destruct (_ || _); [by simplify_eq|].
    destruct (coalesce _ _ _) as [[k f2] l2]. destruct (_ && _); [done|]. injection En as <-.
    etrans; [apply absorb_sizes|done]. }
  destruct (prune_bounded w order (set_pending s1 rem)) as [Hp Ha]; [done|simpl; lia|].
  destruct (_ <? _); injection H as <-; by split.
Qed.

(** *** The table *)

Record tbl_ok (w m : Z) (d : dedup) : Prop := {
  to_window : window d = w ∧ 0 <= w;
  to_max : maxStreams d = m ∧ 1 <= m;
  to_size : Z.of_nat (size (streams d)) <= m;
  to_streams k s : streams d !! k = Some s → stream_bounded w s
}.

Lemma tick_ok w m d : tbl_ok w m d → tbl_ok w m (tick d).
Proof. intros []. by split. Qed.

Lemma put_ok w m d k s : tbl_ok w m d → is_Some (streams d !! k) → stream_bounded w s → tbl_ok w m (put d k s).
Proof.
  intros [H1 H2 H3 H4] Hk Hs. split; simpl; [done|done| |].
  - by rewrite map_size_insert_Some.
  - intros k' s' [[-> ->]|[_ H]]%lookup_insert_Some; [done|by eapply H4].
Qed.

Lemma victim_elem d k : victim d = Some k → is_Some (streams d !! k).
Proof.
  unfold victim. intros H. apply fmap_Some in H as ([k' u] & H & ->).
  assert (Hf : ∀ (l : list (streamKey * dedupStream)) acc r,
    fold_left (λ acc '(k, s), if pinned s then acc
      else match acc with
           | Some (_, oldest) => if used s <? oldest then Some (k, used s) else acc
           | None => Some (k, used s)
           end) l acc = Some r → acc = Some r ∨ ∃ s, (r.1, s) ∈ l).
  { induction l as [|[k0 s0] l IH]; intros acc r Hr; simpl in Hr; [by left|].
    apply IH in Hr as [Hr|(s & Hin)]; [|right; exists s; by right].
    destruct (pinned s0); [by left|].
    assert (Hn : Some (k0, used s0) = Some r → ∃ s, (r.1, s) ∈ (k0, s0) :: l)
      by (intros [= <-]; exists s0; by left).
    destruct acc as [[k1 o1]|]; [destruct (used s0 <? o1)|]; auto. }
  apply Hf in H as [?|(s & Hin)]; [done|]. simpl in *. apply elem_of_map_to_list in Hin. by exists s.
Qed.

Lemma new_stream_bounded w id clk : 0 <= w → stream_bounded w (new_stream id clk).
Proof. intros. split; [simpl; lia|done]. Qed.

Lemma stream_table_ok w m d k d' os :
  tbl_ok w m d → stream d k = (d', os) →
  tbl_ok w m d' ∧ ∀ s, os = Some s → streams d' !! k = Some s ∧ stream_bounded w s.
Proof.
  intros Hd H. apply tick_ok in Hd. unfold stream in H.
  destruct (streams (tick d) !! k) as [s|] eqn:Es.
  { injection H as <- <-. assert (Hb : stream_bounded w (touch (tick d) s))
      by (destruct (to_streams _ _ _ Hd _ _ Es); by split).
    split; [by apply put_ok|]. intros s0 [= <-]. split; [apply lookup_insert_eq|done]. }
  destruct Hd as [[Hw Hw0] [Hm Hm1] Hsz Hst].
  destruct (if _ <=? _ then evictOldest (tick d) else Some (tick d)) as [d1|] eqn:Er.
  2: { injection H as <- <-. split; [by split|done]. }
  injection H as <- <-.
  assert (Hd1 : window d1 = w ∧ maxStreams d1 = m ∧ streams d1 ⊆ streams (tick d) ∧
                Z.of_nat (size (streams d1)) < m).
  { destruct (Z.leb_spec (maxStreams (tick d)) (Z.of_nat (size (streams (tick d))))) as [|Hlt].
    - unfold evictOldest in Er. destruct (victim (tick d)) as [v|] eqn:Ev; [|done]. injection Er as <-. simpl.
      split_and!; [done|done|apply delete_subseteq|]. apply victim_elem in Ev as [sv Hv].
      change (streams (tick d)) with (streams d) in *. rewrite map_size_delete, Hv. simpl in *.
      assert (0 < size (streams d))%nat; [|lia].
      destruct (size (streams d)) eqn:E0; [|lia]. apply map_size_empty_inv in E0. by rewrite E0 in Hv.
    - injection Er as <-. split_and!; try done. by rewrite <- Hm. }
  destruct Hd1 as (Hw1 & Hm1' & Hsub & Hlt).
  assert (Hn : streams d1 !! k = None) by (by eapply lookup_weaken_None).
  assert (Hb : stream_bounded w (new_stream (next_nonzero (nextStream d1)) (clock d1)))
    by (by apply new_stream_bounded).
  split.
  - split; simpl; [done|done|rewrite map_size_insert_None by done; lia|].
    intros k' s' [[<- <-]|[_ Hl]]%lookup_insert_Some; [done|]. eapply Hst. by eapply lookup_weaken.
  - intros s [= <-]. split; [apply lookup_insert_eq|done].
Qed.

(** Operations that go through [stream] or an existing entry. *)
Lemma via_stream w m d k (f : dedup → dedupStream → dedupStream) :
  tbl_ok w m d → (∀ d' s, window d' = w → stream_bounded w s → stream_bounded w (f d' s)) →
  tbl_ok w m (match stream d k with (d', Some s) => put d' k (f d' s) | (d', None) => d' end).
Proof.
  intros Hd Hf. destruct (stream d k) as [d' [s|]] eqn:Es; destruct (stream_table_ok _ _ _ _ _ _ Hd Es) as [Hd' Hs].
  - destruct (Hs s eq_refl) as [Hk Hb]. apply put_ok; [done|by rewrite Hk|]. apply Hf; [|done]. apply Hd'.
  - done.
Qed.

Lemma bounded_same w s s' :
  stream_bounded w s → pending s' = pending s → ahead s' = ahead s → stream_bounded w s'.
Proof. intros [H1 H2] E1 E2. split; [by rewrite E1|by rewrite E2]. Qed.

Lemma Check_table w m d k seq : tbl_ok w m d → tbl_ok w m (fst (Check d k seq)).
Proof.
  intros Hd. pose proof (via_stream w m d k (λ _ s, fst (check s seq)) Hd) as H. unfold Check.
  assert (Hf : ∀ (d' : dedup) s, window d' = w → stream_bounded w s → stream_bounded w (fst (check s seq)))
    by (intros ? ? _; apply check_bounded).
  specialize (H Hf). destruct (stream d k) as [d' [s|]]; [|done]. by destruct (check s seq).
Qed.

Lemma remember_bounded w src s : stream_bounded w s → stream_bounded w (remember_source src s).
Proof. intros Hb. apply (bounded_same _ _ _ Hb); unfold remember_source; destruct (pending s) eqn:E, (gapSource s); simpl; by rewrite ?E. Qed.

Lemma reserve_table w m d k seq src : tbl_ok w m d → tbl_ok w m (fst (reserveArrival d k seq src)).
Proof.
  intros Hd. unfold reserveArrival. destruct (stream d k) as [d' [s|]] eqn:Es;
    destruct (stream_table_ok _ _ _ _ _ _ Hd Es) as [Hd' Hs]; [|done].
  destruct (Hs s eq_refl) as [Hk Hb].
  assert (Hgo : ∀ n, tbl_ok w m (put d' k (remember_source src
    (fst (check (set_arrivals s (<[seq := n]> (arrivals s))) seq))))).
  { intros n. apply put_ok; [done|by rewrite Hk|]. apply remember_bounded, check_bounded. by apply (bounded_same _ _ _ Hb). }
  destruct (arrivals s !! seq); [apply Hgo|]. destruct (_ <=? _); [|apply Hgo].
  apply put_ok; [done|by rewrite Hk|]. by apply (bounded_same _ _ _ Hb).
Qed.

Lemma Commit_table w m d k seq order : tbl_ok w m d → tbl_ok w m (fst (Commit d k seq order)).
Proof.
  intros Hd. pose proof (via_stream w m d k (λ d' s, fst (commit (window d') order s seq)) Hd) as H.
  unfold Commit. assert (Hf : ∀ (d' : dedup) s, window d' = w → stream_bounded w s →
    stream_bounded w (fst (commit (window d') order s seq))).
  { intros d' s -> Hb. apply commit_bounded; [apply Hd|done]. }
  specialize (H Hf). destruct (stream d k) as [d' [s|]]; [|done].
  by destruct (commit (window d') order s seq).
Qed.

(** An entry of the table replaced by one within the bounds. *)
Lemma put_bounded w m d d' k s s' :
  tbl_ok w m d → d' = d ∨ d' = tick d → streams d !! k = Some s → stream_bounded w s' → tbl_ok w m (put d' k s').
Proof.
  intros Hd Hd' Hk Hb. apply put_ok; [|destruct Hd' as [->| ->]; simpl; by rewrite Hk|done].
  destruct Hd' as [->| ->]; [done|by apply tick_ok].
Qed.

Lemma nextPublishable_bounded w order s : stream_bounded w s → stream_bounded w (fst (nextPublishableGap order s)).
Proof. apply excludeArrivals_bounded. Qed.

Lemma take_table w m d order : tbl_ok w m d → tbl_ok w m (fst (takePendingGap d order)).
Proof.
  intros Hd. unfold takePendingGap. set (scanned := map_imap _ (streams d)).
  assert (Hsc : ∀ k s g, scanned !! k = Some (s, g) → stream_bounded w s).
  { intros k s g H. unfold scanned in H. rewrite map_lookup_imap in H.
    destruct (streams d !! k) as [s0|] eqn:Es; [|done]. simpl in H.
    pose proof (to_streams _ _ _ Hd _ _ Es) as Hb.
    destruct (gap_candidate s0); [|by injection H as <- <-].
    pose proof (nextPublishable_bounded w (order k) s0 Hb) as Hn.
    assert (Hx : nextPublishableGap (order k) s0 = (s, g)) by congruence. by rewrite Hx in Hn. }
  set (d1 := mkDedup _ _ _ _ (fst <$> scanned)).
  assert (Hd1 : tbl_ok w m d1).
  { destruct Hd as [H1 H2 H3 H4]. split; simpl; [done|done| |].
    - rewrite map_size_fmap. replace (size scanned) with (size (streams d)); [done|].
      rewrite <- !size_dom. f_equal. apply set_eq. intros k. rewrite !elem_of_dom. unfold scanned.
      rewrite map_lookup_imap. destruct (streams d !! k); simpl; split; intros [x Hx]; by eauto.
    - intros k s'. rewrite lookup_fmap. destruct (scanned !! k) as [[s g]|] eqn:E; [|done].
      intros [= <-]. by eapply Hsc. }
  destruct (fold_left _ _ None) as [[[k s] gap]|] eqn:Ef; [|done]. simpl.
  apply fold_oldest_elem in Ef as [?|(g & Hin)]; [done|]. simpl in Hin. apply elem_of_map_to_list in Hin.
  apply put_ok; [by apply tick_ok|simpl; rewrite lookup_fmap, Hin; by eexists|].
  by apply (bounded_same _ _ _ (Hsc _ _ _ Hin)).
Qed.

Lemma finish_table w m d p acc order : tbl_ok w m d → tbl_ok w m (fst (finishGap d p acc order)).
Proof.
  intros Hd. unfold finishGap. destruct (streams d !! p_key p) as [s|] eqn:Es; [|done].
  destruct (_ || _); [done|]. set (s1 := set_claims s (nextGapClaim s) 0).
  assert (Hb1 : stream_bounded w s1) by (by apply (bounded_same _ _ _ (to_streams _ _ _ Hd _ _ Es))).
  destruct (_ || _ || _ || _); [by eapply put_bounded; [done|by left|done|]|].
  destruct (account order s1 _ _) as [s2|] eqn:Ea; [|by eapply put_bounded; [done|by left|done|]].
  eapply put_bounded; [done|by right|done|]. by apply (bounded_same _ _ _ (account_bounded _ _ _ _ _ _ Hb1 Ea)).
Qed.

Lemma step_tbl_ok w m st st' : dd_step st st' → tbl_ok w m (tbl st) → tbl_ok w m (tbl st').
Proof.
  intros Hs Hd. pose proof (to_streams _ _ _ Hd) as Hb.
  destruct Hs as [st k seq Hq|st k seq src d' r Hq Hr|st k seq src d' Hq Hr|st r order|st k seq order Hq
    |st k q Hq|st k r order H1 H2|st k|st k src f l v|st order|st k order|st p order H1 H2|st p order];
    cbn [tbl set_gh] in *.
  - by apply Check_table.
  - pose proof (reserve_table w m (tbl st) k seq src Hd) as H. by rewrite Hr in H.
  - pose proof (reserve_table w m (tbl st) k seq src Hd) as H. by rewrite Hr in H.
  - unfold release. destruct (streams (tbl st) !! a_key r) as [s|] eqn:Es; [|done]. destruct (_ =? _); [|done].
    eapply put_bounded; [done|by left|done|]. apply excludeArrivals_bounded.
    by apply (bounded_same _ _ _ (Hb _ _ Es)).
  - by apply Commit_table.
  - unfold CheckReplay. destruct (streams (tbl st) !! k) as [s|] eqn:Es; [|done].
    set (s1 := touch (tick (tbl st)) s). assert (Hb1 : stream_bounded w s1) by (by apply (bounded_same _ _ _ (Hb _ _ Es))).
    destruct (_ && _); [|by eapply put_bounded; [done|by right|done|]].
    unfold queueReplayMissing. set (acc := SortFunc _).
    pose proof (replay_bounded w acc s1 (u64 (written s1 + 1)) (u64 (q - 1)) Hb1) as Hr.
    destruct (replay_loop _ _ _ _) as [s2 ok]. by eapply put_bounded; [done|by right|done|].
  - unfold NoteMissing. destruct (streams (tbl st) !! k) as [s|] eqn:Es; [|done].
    destruct (coversArrival _ _ _); [done|]. eapply put_bounded; [done|by right|done|].
    set (s1 := touch (tick (tbl st)) s). assert (Hb1 : stream_bounded w s1) by (by apply (bounded_same _ _ _ (Hb _ _ Es))).
    destruct (account order s1 (first r) (last r)) as [s2|] eqn:Ea; simpl; [by eapply account_bounded|done].
  - unfold ResumeFrom. destruct (streams (tbl st) !! k) as [s|] eqn:Es; [|done].
    eapply put_bounded; [done|by right|done|]. by apply (bounded_same _ _ _ (Hb _ _ Es)).
  - unfold claimGap. destruct (streams (tbl st) !! k) as [s|] eqn:Es; [|done].
    destruct (_ || _ || _ || _); [done|]. set (s1 := match gapSource s with None => _ | Some _ => s end).
    assert (Hb1 : stream_bounded w s1) by (unfold s1; destruct (gapSource s); by apply (bounded_same _ _ _ (Hb _ _ Es))).
    destruct (_ || _); simpl; [by eapply put_bounded; [done|by left|done|]|].
    eapply put_bounded; [done|by right|done|]. by apply (bounded_same _ _ _ Hb1).
  - by apply take_table.
  - unfold takeNextPendingGap. destruct (streams (tbl st) !! k) as [s|] eqn:Es; [|done].
    destruct (negb _); [done|]. pose proof (nextPublishable_bounded w order s (Hb _ _ Es)) as Hn.
    destruct (nextPublishableGap order s) as [s1 [gap|]]; simpl in *; [|by eapply put_bounded; [done|by left|done|]].
    eapply put_bounded; [done|by right|done|]. by apply (bounded_same _ _ _ Hn).
  - by apply finish_table.
  - by apply finish_table.
Qed.

(** no guest can make the collector's bookkeeping grow without bound. In every
    reachable state the table holds at most the configured number of streams, and
    each stream at most the window of out-of-order sequences and 64 pending gaps,
    whatever sequence numbers arrive. *)
Theorem dedup_bounded w m st :
  rtc dd_step (dd_init w m) st →
  Z.of_nat (size (streams (tbl st))) <= Z.max m 1 ∧
  ∀ k s, streams (tbl st) !! k = Some s →
    Z.of_nat (size (ahead s)) <= Z.max w minDedupWindow ∧
    (length (pending s) <= maxMissingRanges)%nat.
Proof.
  intros Hr. assert (Hi : tbl_ok (Z.max w minDedupWindow) (Z.max m 1) (tbl st)).
  { revert Hr. apply (rtc_invariant dd_step (λ st, tbl_ok (Z.max w minDedupWindow) (Z.max m 1) (tbl st))).
    - intros x y Hs Hx. by eapply step_tbl_ok.
    - unfold dd_init, newDedup, minDedupWindow. simpl.
      split; simpl; [destruct (Z.ltb_spec w 64); lia|destruct (Z.ltb_spec m 1); lia|rewrite map_size_empty; lia|done]. }
  destruct Hi as [_ _ Hs Hst]. split; [done|]. intros k s Hk. destruct (Hst k s Hk). done.
Qed.
End dedup.

(** ** A concrete stream

    Sequences 5 and 8 arrive and are written; the gap 6-7 is reported and accepted. *)

Definition dk : streamKey := ("cid:3", "boot").
Abbreviation dst := (dd_state (Source := string)).

Definition ds0 : dst := dd_init 64 4.
Definition ds1 : dst := set_gh ds0 (fst (Check (tbl ds0) dk 5)) dk (anchored (tbl ds0) dk 5 (ghost_at ds0 dk)).
Definition ds2 : dst := set_gh ds1 (fst (Commit (tbl ds1) dk 5 [])) dk (add_committed 5 (ghost_at ds1 dk)).
Definition ds3_table : dedup := fst (reserveArrival (tbl ds2) dk 8 "vm").
Definition ds3 : dst := set_gh ds2 ds3_table dk (anchored (tbl ds2) dk 8 (ghost_at ds2 dk)).
Definition ds4 : dst :=
  set_gh ds3 (NoteMissing (tbl ds3) dk 6 7 []) dk (add_reported (mkRange 6 7) (ghost_at ds3 dk)).
Definition ds5 : dst := set_gh ds4 (fst (Commit (tbl ds4) dk 8 [])) dk (add_committed 8 (ghost_at ds4 dk)).

Example demo_acks :
  snd (ResumeFrom (tbl ds2) dk) = 5 ∧ snd (ResumeFrom (tbl ds3) dk) = 5 ∧
  snd (ResumeFrom (tbl ds4) dk) = 7 ∧ snd (ResumeFrom (tbl ds5) dk) = 8 ∧ g_anchor (ghost_at ds5 dk) = 4.
Proof. vm_compute. done. Qed.

Lemma small_u64 q : 0 <= q < 100 → is_u64 q.
Proof. unfold is_u64, u64_mod. lia. Qed.

Lemma dd_run3 : rtc dd_step ds0 ds3.
Proof.
  eapply rtc_l; [apply (dd_check ds0 dk 5); apply small_u64; lia|].
  eapply rtc_l; [apply (dd_commit ds1 dk 5 []); apply small_u64; lia|].
  eapply rtc_l; [|apply rtc_refl].
  apply (dd_reserve ds2 dk 8 "vm" ds3_table (mkReservation dk 1 8)); [apply small_u64; lia|].
  vm_compute. reflexivity.
Qed.

Lemma ds4_step : dd_step ds3 ds4.
Proof. apply (dd_note ds3 dk (mkRange 6 7) []); apply small_u64; simpl; lia. Qed.

Lemma ds5_step : dd_step ds4 ds5.
Proof. apply (dd_commit ds4 dk 8 []); apply small_u64; lia. Qed.

Lemma dd_run5 : rtc dd_step ds0 ds5.
Proof. eapply rtc_r; [eapply rtc_r; [exact dd_run3|exact ds4_step]|exact ds5_step]. Qed.

Lemma watermark_accounted_witness :
  snd (ResumeFrom (tbl ds5) dk) = 8 ∧
  (7 ∈ g_committed (ghost_at ds5 dk) ∨ in_ranges 7 (g_reported (ghost_at ds5 dk))).
Proof.
  split; [vm_compute; reflexivity|]. apply (watermark_accounted 64 4 ds5 dk 7).
  - exact dd_run5.
  - apply small_u64. lia.
  - vm_compute. eexists. reflexivity.
  - vm_compute. done.
Defined.

Definition ds3_stream : dedupStream := stream_at (tbl ds3) dk.
Definition ds4_stream : dedupStream := stream_at (tbl ds4) dk.

Definition ds5_stream : dedupStream := stream_at (tbl ds5) dk.

(** While 8 is in flight, the gap 6-7 is reported and then 8 is committed: it is
    accounted for in the end, and only because of its own commit. *)
Lemma in_flight_not_skipped_witness :
  accounted ds3_stream 8 ∨ 8 ∈ g_committed (ghost_at ds5 dk).
Proof.
  apply (in_flight_not_skipped 64 4 ds3 ds5 dk 8 ds3_stream ds5_stream).
  - exact dd_run3.
  - apply small_u64. lia.
  - vm_compute. reflexivity.
  - vm_compute. eexists. reflexivity.
  - vm_compute. reflexivity.
  - eapply rtc_l; [split; [exact ds4_step|]; exists ds4_stream, 1; split; vm_compute; reflexivity|].
    apply rtc_once. split; [exact ds5_step|]. exists ds5_stream, 1. split; vm_compute; reflexivity.
  - vm_compute. reflexivity.
  - left. vm_compute. done.
Defined.

Lemma dedup_bounded_witness :
  size (streams (tbl ds5)) = 1%nat ∧ Z.of_nat (size (streams (tbl ds5))) <= Z.max 4 1.
Proof.
  split; [vm_compute; reflexivity|]. destruct (dedup_bounded 64 4 ds5 dd_run5) as [H _]. exact H.
Defined.
