(* ===== verification/Spool.v ===== *)
(** * The agent's disk spool

    [SauronAgent/internal/spool/spool.go]: events are appended to segment files
    ([Segment]), read back in order, deleted when the host has acknowledged them, and
    recovered after a crash.

    The operations are programs of a small state and error monad [M] over the spool's
    fields and a world: the files of the spool directory, the clock readings and the
    fate of every system call (it succeeds, it fails, or the process dies in it).  A
    Go error return is [Raise]; the state reached stays, as it does in Go.  The JSON
    codec is a parameter.  Logging is left out. *)

From S2P Require Import Prelude GoStrings Event Metrics Frame Segment.

(** ** Options and state *)

Definition defaultMaxSize : Z := 2 ^ 30.
Definition defaultSegmentSize : Z := 16 * 2 ^ 20.
Definition checkpointName : string := "checkpoint".
Definition checkpointTemp : string := "checkpoint.tmp".
Definition checkpointSize : nat := 16.
Definition checkpointMagic : list byte := [x53; x43; x4b; x50].

Record Options : Type := mkOptions {
  Dir : string;
  MaxSize : Z;
  SegmentSize : Z;
  SyncOnWrite : bool;
  SyncInterval : duration
}.

(** [w] is the name of the segment file open for appending; [metrics] is the content
    of [opts.Metrics]. *)
Record Spool : Type := mkSpool {
  opts : Options;
  segs : list segment;
  w : option string;
  lastSeq : Z;
  ackedThrough : Z;
  firstPending : Z;
  pending : Z;
  bytes : Z;
  ackedInFirst : Z;
  ackOffset : Z;
  dropped : Z;
  droppedLow : Z;
  droppedHigh : Z;
  lastSync : time;
  dirty : bool;
  closed : bool;
  metrics : option Metrics.Agent
}.

Section updates.
Context (s : Spool).
Definition set_segs x := mkSpool (opts s) x (w s) (lastSeq s) (ackedThrough s) (firstPending s) (pending s)
  (bytes s) (ackedInFirst s) (ackOffset s) (dropped s) (droppedLow s) (droppedHigh s) (lastSync s) (dirty s) (closed s) (metrics s).
Definition set_w x := mkSpool (opts s) (segs s) x (lastSeq s) (ackedThrough s) (firstPending s) (pending s)
  (bytes s) (ackedInFirst s) (ackOffset s) (dropped s) (droppedLow s) (droppedHigh s) (lastSync s) (dirty s) (closed s) (metrics s).
Definition set_lastSeq x := mkSpool (opts s) (segs s) (w s) x (ackedThrough s) (firstPending s) (pending s)
  (bytes s) (ackedInFirst s) (ackOffset s) (dropped s) (droppedLow s) (droppedHigh s) (lastSync s) (dirty s) (closed s) (metrics s).
Definition set_ackedThrough x := mkSpool (opts s) (segs s) (w s) (lastSeq s) x (firstPending s) (pending s)
  (bytes s) (ackedInFirst s) (ackOffset s) (dropped s) (droppedLow s) (droppedHigh s) (lastSync s) (dirty s) (closed s) (metrics s).
Definition set_firstPending x := mkSpool (opts s) (segs s) (w s) (lastSeq s) (ackedThrough s) x (pending s)
  (bytes s) (ackedInFirst s) (ackOffset s) (dropped s) (droppedLow s) (droppedHigh s) (lastSync s) (dirty s) (closed s) (metrics s).
Definition set_totals b p f := mkSpool (opts s) (segs s) (w s) (lastSeq s) (ackedThrough s) f p
  b (ackedInFirst s) (ackOffset s) (dropped s) (droppedLow s) (droppedHigh s) (lastSync s) (dirty s) (closed s) (metrics s).
Definition set_cursor k o := mkSpool (opts s) (segs s) (w s) (lastSeq s) (ackedThrough s) (firstPending s) (pending s)
  (bytes s) k o (dropped s) (droppedLow s) (droppedHigh s) (lastSync s) (dirty s) (closed s) (metrics s).
Definition set_dropped n l h := mkSpool (opts s) (segs s) (w s) (lastSeq s) (ackedThrough s) (firstPending s) (pending s)
  (bytes s) (ackedInFirst s) (ackOffset s) n l h (lastSync s) (dirty s) (closed s) (metrics s).
Definition set_lastSync x := mkSpool (opts s) (segs s) (w s) (lastSeq s) (ackedThrough s) (firstPending s) (pending s)
  (bytes s) (ackedInFirst s) (ackOffset s) (dropped s) (droppedLow s) (droppedHigh s) x (dirty s) (closed s) (metrics s).
Definition set_dirty x := mkSpool (opts s) (segs s) (w s) (lastSeq s) (ackedThrough s) (firstPending s) (pending s)
  (bytes s) (ackedInFirst s) (ackOffset s) (dropped s) (droppedLow s) (droppedHigh s) (lastSync s) x (closed s) (metrics s).
Definition set_closed x := mkSpool (opts s) (segs s) (w s) (lastSeq s) (ackedThrough s) (firstPending s) (pending s)
  (bytes s) (ackedInFirst s) (ackOffset s) (dropped s) (droppedLow s) (droppedHigh s) (lastSync s) (dirty s) x (metrics s).
Definition set_metrics x := mkSpool (opts s) (segs s) (w s) (lastSeq s) (ackedThrough s) (firstPending s) (pending s)
  (bytes s) (ackedInFirst s) (ackOffset s) (dropped s) (droppedLow s) (droppedHigh s) (lastSync s) (dirty s) (closed s) x.
End updates.

(** ** System calls and the monad *)

(** [CWrite], [CSeek] and [CClose] are calls on the segment open for appending,
    [CCheckpoint] reads the checkpoint file and [CWriteTemp] writes its successor. *)
Inductive call : Type :=
| CMkdir | CReadDir | COpen | CCreate | CWrite | CSeek | CSync | CClose | CRemove | CRename | CRead
| CTruncate | CCheckpoint | CWriteTemp | CCloseTemp.

(** The fate of a system call.  [Fails n] and [Dies n]: of a write, [n] bytes have
    reached the file; of any other call, [Dies 0] is a death before its effect and
    [Dies (S _)] one after it. *)
Inductive fault : Type := Fine | Fails (n : nat) | Dies (n : nat).

Abbreviation disk := (gmap string (list byte)).

(** [fd_open]: the descriptor behind [s.w] is open. A failed close closes it, too. *)
Record world : Type := mkWorld {
  files : disk;
  fd_open : bool;
  fates : list (call → fault);
  clocks : list time
}.

Inductive error : Type :=
| ErrNil | ErrNoDir | errClosed | ErrSequence | ErrEncode | ErrTooLarge | ErrIO.

Inductive out (A : Type) : Type := Ret (a : A) | Raise (e : error) | Panic | Crash.
Arguments Ret {A}.
Arguments Raise {A}.
Arguments Panic {A}.
Arguments Crash {A}.

Record st : Type := mkSt { sp : Spool; wd : world }.

Definition M (A : Type) : Type := st → st * out A.

#[global] Instance M_ret : MRet M := λ A a s, (s, Ret a).
#[global] Instance M_bind : MBind M := λ A B k m s,
  match m s with
  | (s, Ret a) => k a s
  | (s, Raise e) => (s, Raise e)
  | (s, Panic) => (s, Panic)
  | (s, Crash) => (s, Crash)
  end.

Definition get : M Spool := λ s, (s, Ret (sp s)).
Definition modify (f : Spool → Spool) : M () := λ s, (mkSt (f (sp s)) (wd s), Ret ()).
Definition raise {A} (e : error) : M A := λ s, (s, Raise e).
Definition panic {A} : M A := λ s, (s, Panic).

(** [err := m()]: the error as a value. *)
Definition try {A} (m : M A) : M (result error A) := λ s,
  match m s with
  | (s, Ret a) => (s, Ret (Ok a))
  | (s, Raise e) => (s, Ret (Err e))
  | (s, Panic) => (s, Panic)
  | (s, Crash) => (s, Crash)
  end.

(** [time.Now()]. *)
Definition Now : M time := λ s,
  match clocks (wd s) with
  | [] => (s, Ret 0)
  | t :: l => (mkSt (sp s) (mkWorld (files (wd s)) (fd_open (wd s)) (fates (wd s)) l), Ret t)
  end.

Definition fate (c : call) : M fault := λ s,
  match fates (wd s) with
  | [] => (s, Ret Fine)
  | f :: l => (mkSt (sp s) (mkWorld (files (wd s)) (fd_open (wd s)) l (clocks (wd s))), Ret (f c))
  end.

Definition read_files : M disk := λ s, (s, Ret (files (wd s))).
Definition edit (f : disk → disk) : M () := λ s,
  (mkSt (sp s) (mkWorld (f (files (wd s))) (fd_open (wd s)) (fates (wd s)) (clocks (wd s))), Ret ()).
Definition read_fd : M bool := λ s, (s, Ret (fd_open (wd s))).
Definition set_fd (b : bool) : M () := λ s,
  (mkSt (sp s) (mkWorld (files (wd s)) b (fates (wd s)) (clocks (wd s))), Ret ()).
Definition crash {A} : M A := λ s, (s, Crash).

(** A system call that changes the directory by [f]. *)
Definition syscall (c : call) (f : disk → disk) : M () :=
  x ← fate c;
  match x with
  | Fine => edit f
  | Fails _ => raise ErrIO
  | Dies O => crash
  | Dies (S _) => edit f;; crash
  end.

Definition append_to (name : string) (b : list byte) (fs : disk) : disk :=
  <[name := default [] (fs !! name) ++ b]> fs.

(** [f.Write(b)]: whether it succeeded. *)
Definition Write (c : call) (name : string) (b : list byte) : M bool :=
  x ← fate c;
  match x with
  | Fine => edit (append_to name b);; mret true
  | Fails n => edit (append_to name (take n b));; mret false
  | Dies n => edit (append_to name (take n b));; crash
  end.

(** A call on [s.w], which fails on a closed descriptor. *)
Definition on_fd {A} (m : M A) : M A := o ← read_fd; if (o : bool) then m else raise ErrIO.

(** [s.w.Write(b)] and [s.w.Close()]. *)
Definition Write_w (name : string) (b : list byte) : M bool :=
  o ← read_fd;
  if (o : bool) then Write CWrite name b else mret false.

Definition Close_w : M () := on_fd (set_fd false;; syscall CClose id).

Definition syncDir : M () := syscall COpen id;; syscall CSync id.

(** [os.Remove], a missing file being as good as a removed one. *)
Definition Remove (name : string) : M () := syscall CRemove (delete name).

(** The content of a file that is opened and read. *)
Definition ReadFile (name : string) : M (list byte) :=
  syscall COpen id;;
  syscall CRead id;;
  fs ← read_files;
  match fs !! name with Some b => mret b | None => raise ErrIO end.

(** ** Bookkeeping in memory *)

Definition last_seg (l : list segment) : option segment := l !! (length l - 1)%nat.

(** [s.active()], which panics when there is no segment. *)
Definition active : M segment :=
  s ← get;
  match last_seg (segs s) with Some sg => mret sg | None => panic end.

Definition set_active (sg : segment) (s : Spool) : Spool :=
  set_segs s (<[(length (segs s) - 1)%nat := sg]> (segs s)).

Definition firstUnacked (s : Spool) : Z :=
  if (0 <? pending s) && (0 <? firstPending s) then firstPending s else u64 (lastSeq s + 1).

Definition sum_of (f : segment → Z) (l : list segment) : Z := foldr (λ sg n, f sg + n) 0 l.

Definition recount (s : Spool) : Spool :=
  let p := sum_of count (segs s) - ackedInFirst s in
  let p := if p <? 0 then 0 else p in
  set_totals s (sum_of size (segs s)) p (if p =? 0 then 0 else firstPending s).

Definition publishMetrics (s : Spool) : Spool :=
  set_metrics s ((λ a, Metrics.set_Spool a (bytes s) (pending s)) <$> metrics s).

Definition recordLoss (n low high : Z) (s : Spool) : Spool :=
  if n <=? 0 then s
  else
    let s := set_dropped s (u64 (dropped s + n))
               (if (droppedLow s =? 0) || ((0 <? low) && (low <? droppedLow s)) then low else droppedLow s)
               (if droppedHigh s <? high then high else droppedHigh s) in
    set_metrics s (Metrics.add_EventsDropped n (metrics s)).

(** [reportNewDamage] for the segment at index [i]. *)
Definition reportNewDamage (i : nat) (stats : walkStats) (s : Spool) : Spool :=
  match segs s !! i with
  | None => s
  | Some sg =>
      if ws_skipped stats <=? reported sg then s
      else
        let newly := ws_skipped stats - reported sg in
        let sg := mkSegment (path sg) (base sg) (last sg) (count sg) (size sg) (ws_skipped stats)
                    (undecodable sg) in
        recordLoss newly (ws_gapLow stats) (ws_gapHigh stats) (set_segs s (<[i := sg]> (segs s)))
  end.

(** ** Durability and the checkpoint *)

Definition sync : M () :=
  s ← get;
  match w s with
  | Some _ =>
      if dirty s then
        on_fd (syscall CSync id);;
        modify (λ s, set_dirty s false);;
        now ← Now;
        modify (λ s, set_lastSync s now)
      else now ← Now; modify (λ s, set_lastSync s now)
  | None => now ← Now; modify (λ s, set_lastSync s now)
  end.

Definition maybeSync : M () :=
  s ← get;
  if SyncOnWrite (opts s) then sync
  else if 0 <? SyncInterval (opts s) then
    now ← Now;
    if SyncInterval (opts s) <=? Sub now (lastSync s) then sync else mret ()
  else mret ().

Definition checkpoint_bytes (seq : Z) : list byte :=
  checkpointMagic ++ be_put 8 seq ++ be_put 4 (Checksum (be_put 8 seq)).

(** What [readCheckpoint] accepts. *)
Definition parse_checkpoint (data : list byte) : option Z :=
  if negb (length data =? checkpointSize)%nat
     || negb (bool_decide (slice 0 4 data = checkpointMagic))
     || negb (Checksum (slice 4 12 data) =? be_get (slice 12 16 data))
  then None else Some (be_get (slice 4 12 data)).

Definition readCheckpoint : M (option Z) :=
  r ← try (syscall CCheckpoint id;; fs ← read_files;
           match fs !! checkpointName with Some b => mret b | None => raise ErrIO end);
  mret (match r with Ok data => parse_checkpoint data | Err _ => None end).

(** On an error the temporary file is removed, whatever comes of that. *)
Definition or_remove {A} (m : M A) : M A :=
  r ← try m;
  match r with
  | Ok a => mret a
  | Err e => try (Remove checkpointTemp);; raise e
  end.

Definition writeCheckpoint (seq : Z) : M () :=
  syscall CCreate (<[checkpointTemp := []]>);;
  ok ← Write CWriteTemp checkpointTemp (checkpoint_bytes seq);
  (if negb ok then
     try (syscall CCloseTemp id);; try (Remove checkpointTemp);; raise ErrIO
   else mret ());;
  r ← try (syscall CSync id);
  (match r with
   | Ok _ => mret ()
   | Err e => try (syscall CCloseTemp id);; try (Remove checkpointTemp);; raise e
   end);;
  or_remove (syscall CCloseTemp id);;
  or_remove (syscall CRename (λ fs,
    <[checkpointName := default [] (fs !! checkpointTemp)]> (delete checkpointTemp fs)));;
  syncDir.

(** ** Dropping segments *)

(** The loop of [dropAckedSegments]; [removed] is its local.  It takes one segment off
    per round. *)
Fixpoint drop_acked (fuel : nat) (removed : bool) : M () :=
  s ← get;
  match fuel, segs s with
  | S fuel, sg :: rest =>
      if last sg <=? ackedThrough s then
        (match rest, w s with
         | [], Some _ =>
             r ← try Close_w;
             modify (λ s, set_w s None);;
             match r with
             | Err e => raise e
             | Ok _ => modify (λ s, set_dirty s false)
             end
         | _, _ => mret ()
         end);;
        Remove (path sg);;
        modify (λ s, set_firstPending (set_cursor (set_segs s rest) 0 0)
                       (match rest with [] => 0 | sg :: _ => base sg end));;
        drop_acked fuel true
      else if removed then syncDir else mret ()
  | _, _ => if removed then syncDir else mret ()
  end.

Definition dropAckedSegments : M () := s ← get; drop_acked (length (segs s)) false.

Section spool.
(** [json.Marshal] and [json.Unmarshal] of an event, and [sequenceOf], which decodes
    only the sequence. *)
Class Json : Type := {
  Marshal : Event → option (list byte);
  Unmarshal : list byte → option Event;
  sequenceOf : list byte → option Z
}.

Context `{J : Json}.

(** [sg.walk(start, fn)] over the file of a segment: the walk's findings and the final
    state of the callback.  A read that fails midway discards both, as the callers do. *)
Definition walk_segment {A} (sg : segment) (start : Z) (fn : A → Z → list byte → Z → A * bool) (acc : A) :
    M (walkStats * A) :=
  b ← ReadFile (path sg);
  let '(stats, acc, ok) := walk sequenceOf fn b start acc in
  if (ok : bool) then mret (stats, acc) else raise ErrIO.

(** The callback of [advanceAckCursor]: the records acknowledged, where they end, and
    the first one that is not. *)
Definition ack_fn (through : Z) (acc : Z * Z * Z) (seq : Z) (_ : list byte) (endd : Z) : Z * Z * Z * bool :=
  let '(acked, off, pend) := acc in
  if through <? seq then (acked, off, seq, false) else (acked + 1, endd, pend, true).

Definition advanceAckCursor : M () :=
  s ← get;
  match segs s with
  | [] => modify (λ s, set_cursor (set_firstPending s 0) 0 0)
  | sg :: _ =>
      if ackedThrough s <? base sg then modify (λ s, set_firstPending (set_cursor s 0 0) (base sg))
      else
        x ← walk_segment sg (ackOffset s) (ack_fn (ackedThrough s)) (0, ackOffset s, 0);
        let '(stats, (acked, off, pend)) := x in
        modify (reportNewDamage 0 stats);;
        modify (λ s, set_cursor s (ackedInFirst s + acked) off);;
        modify (λ s,
          if pend =? 0 then
            set_firstPending
              (if count sg <? ackedInFirst s then set_cursor s (count sg) (ackOffset s) else s)
              (u64 (last sg + 1))
          else set_firstPending s pend)
  end.

(** The loop of [enforceMaxSize], which takes one segment off per round. *)
Fixpoint evict (fuel : nat) : M () :=
  s ← get;
  match fuel, segs s with
  | S fuel, sg :: next :: _ =>
      if MaxSize (opts s) <? bytes s then
        let lost := count sg - ackedInFirst s in
        let low := if (firstPending s =? 0) || (firstPending s <? base sg) then base sg else firstPending s in
        (if 0 <? lost then modify (recordLoss lost low (last sg)) else mret ());;
        Remove (path sg);;
        modify (λ s, recount (set_firstPending (set_cursor (set_segs s (tail (segs s))) 0 0) (base next)));;
        syncDir;;
        evict fuel
      else mret ()
  | _, _ => mret ()
  end.

Definition enforceMaxSize : M () :=
  s ← get;
  (if (MaxSize (opts s) <? bytes s) && (1 <? length (segs s))%nat then sync else mret ());;
  evict (length (segs s)).

(** ** Appending *)

(** [roll]: the new file is created only when there is none of its name (O_EXCL). *)
Definition roll (seq : Z) : M () :=
  s ← get;
  (match w s with
   | Some _ => sync;; Close_w;; modify (λ s, set_w s None)
   | None => mret ()
   end);;
  let name := segmentName seq in
  fs ← read_files;
  (match fs !! name with
   | Some _ => raise ErrIO
   | None => syscall CCreate (<[name := []]>);; set_fd true
   end);;
  modify (λ s, set_segs (set_w s (Some name)) (segs s ++ [mkSegment name seq 0 0 0 0 0]));;
  syncDir.

(** The guard before a record of [recLen] bytes is written. *)
Definition needs_roll (recLen : Z) : M bool :=
  s ← get;
  match w s with
  | None => mret true
  | Some _ =>
      sg ← active;
      mret ((0 <? count sg) && (SegmentSize (opts s) <? size sg + recLen))
  end.

(** What [Append] updates once the record is written. *)
Definition note_append (seq recLen : Z) (sg : segment) (s : Spool) : Spool :=
  let sg := mkSegment (path sg) (if count sg =? 0 then seq else base sg) seq (count sg + 1)
              (size sg + recLen) (reported sg) (undecodable sg) in
  let s := set_lastSeq (set_active sg s) seq in
  let s := if firstPending s =? 0 then set_firstPending s seq else s in
  recount (set_dirty s true).

Definition write_record (payload : list byte) : M () :=
  s ← get;
  match w s with
  | None => panic
  | Some name =>
      ok ← Write_w name (encodeRecord [] payload);
      if (ok : bool) then mret ()
      else
        (** the size of what reached the file *)
        r ← try (on_fd (syscall CSeek id));
        fs ← read_files;
        sg ← active;
        (match r with
         | Ok _ =>
             modify (λ s, publishMetrics (recount (set_active
               (mkSegment (path sg) (base sg) (last sg) (count sg)
                  (Z.of_nat (length (default [] (fs !! name)))) (reported sg) (undecodable sg)) s)))
         | Err _ => mret ()
         end);;
        raise ErrIO
  end.

Definition Append (e : option Event) : M () :=
  match e with
  | None => raise ErrNil
  | Some e =>
      s ← get;
      if closed s then raise errClosed
      else if Sequence e <=? lastSeq s then raise ErrSequence
      else
        match Marshal e with
        | None => raise ErrEncode
        | Some payload =>
            if maxRecordSize <? Z.of_nat (length payload) then raise ErrTooLarge
            else
              let recLen := Z.of_nat (recordHeaderSize + length payload) in
              b ← needs_roll recLen;
              (if (b : bool) then roll (Sequence e) else mret ());;
              write_record payload;;
              sg ← active;
              modify (note_append (Sequence e) recLen sg);;
              maybeSync;;
              enforceMaxSize;;
              modify publishMetrics
        end
  end.

(** ** Reading *)

(** The callback of [NextAfter]: the events found, and the records of this segment
    that are no events: how many, the first and the last of them. *)
Definition next_fn (from through max : Z) (acc : list Event * (Z * Z * Z)) (seq : Z) (payload : list byte)
    (_ : Z) : list Event * (Z * Z * Z) * bool :=
  let '(out, (bad, badLow, badHigh)) := acc in
  if seq <? from then (acc, true)
  else match Unmarshal payload with
       | None => ((out, (bad + 1, if badLow =? 0 then seq else badLow, seq)),
                  Z.of_nat (length out) <? max)
       | Some ev =>
           if seq <=? through then (acc, true)
           else ((out ++ [ev], (bad, badLow, badHigh)), Z.of_nat (length out) + 1 <? max)
       end.

(** Records that pass their checksum and are no events are reported once. *)
Definition note_undecodable (i : nat) (bad badLow badHigh : Z) (s : Spool) : Spool :=
  match segs s !! i with
  | None => s
  | Some sg =>
      if bad <=? undecodable sg then s
      else
        let s := recordLoss (bad - undecodable sg) badLow badHigh s in
        set_segs s (<[i := mkSegment (path sg) (base sg) (last sg) (count sg) (size sg) (reported sg) bad]> (segs s))
  end.

(** The loop over the segments, from index [i]. *)
Fixpoint next_loop (n i : nat) (from through max : Z) (out : list Event) : M (list Event) :=
  match n with
  | O => mret out
  | S n =>
      if max <=? Z.of_nat (length out) then mret out
      else
        s ← get;
        match segs s !! i with
        | None => mret out
        | Some sg =>
            if (count sg =? 0) || (last sg <? from) || (last sg <=? through)
            then next_loop n (S i) from through max out
            else
              x ← walk_segment sg (if (i =? 0)%nat then ackOffset s else 0)
                    (next_fn from through max) (out, (0, 0, 0));
              let '(stats, (out, (bad, badLow, badHigh))) := x in
              modify (reportNewDamage i stats);;
              modify (note_undecodable i bad badLow badHigh);;
              next_loop n (S i) from through max out
        end
  end.

Definition NextAfter (through max : Z) : M (list Event) :=
  s ← get;
  if closed s then raise errClosed
  else if (max <=? 0) || (pending s =? 0) || (lastSeq s <=? through) then mret []
  else next_loop (length (segs s)) 0 (firstPending s) through max [].

Definition Next (max : Z) : M (list Event) := NextAfter 0 max.

(** ** Acknowledging *)

(** The cleanup at the end of [Ack]: both steps run, and the first error is returned. *)
Definition cleanup : M () :=
  d ← try dropAckedSegments;
  c ← try advanceAckCursor;
  modify recount;;
  modify publishMetrics;;
  match d, c with
  | Err e, _ | _, Err e => raise e
  | _, _ => mret ()
  end.

Definition Ack (seq : Z) : M () :=
  s ← get;
  if closed s then raise errClosed
  else if seq =? 0 then mret ()
  else
    let seq := if lastSeq s <? seq then lastSeq s else seq in
    if seq =? 0 then mret ()
    else
      (if ackedThrough s <? seq then
         writeCheckpoint seq;;
         modify (λ s, set_ackedThrough s seq)
       else mret ());;
      cleanup.

(** ** The rest of the interface *)

Definition LastSequence : M Z := s ← get; mret (lastSeq s).
Definition FirstUnacked : M Z := s ← get; mret (firstUnacked s).
Definition PendingCount : M Z := s ← get; mret (pending s).
Definition Bytes : M Z := s ← get; mret (bytes s).

(** The loss since the last call, if any: how many events, the first and the last. *)
Definition DrainDropped : M (option (Z * Z * Z)) :=
  s ← get;
  if dropped s =? 0 then mret None
  else
    modify (λ s, set_dropped s 0 0 0);;
    mret (Some (dropped s, droppedLow s, droppedHigh s)).

Definition Sync : M () := s ← get; if closed s then raise errClosed else sync.

Definition Close : M () :=
  s ← get;
  if closed s then mret ()
  else
    modify (λ s, set_closed s true);;
    r ← try sync;
    match w s with
    | None => match r with Err e => raise e | Ok _ => mret () end
    | Some _ =>
        c ← try Close_w;
        modify (λ s, set_w s None);;
        match r, c with Err e, _ | Ok _, Err e => raise e | Ok _, Ok _ => mret () end
    end.

(** ** Recovery *)

Definition name_le (a b : string) : Prop := String.leb a b = true.
#[global] Instance name_le_dec : RelDecision name_le.
Proof. intros a b. unfold name_le. apply _. Defined.

(** [os.ReadDir]: the entries by name. *)
Definition ReadDir : M (list string) :=
  syscall CReadDir id;;
  fs ← read_files;
  mret (merge_sort name_le (elements (dom fs))).

(** [scanSegment] on the directory: the walk, then [truncateSegment] if there is a
    torn tail. *)
Definition scan_segment (name : string) (nameBase : Z) : M (segment * walkStats) :=
  b ← ReadFile name;
  let '(sg, stats, kept) := scanSegment sequenceOf name nameBase b in
  (if 0 <? ws_torn stats then
     syscall CTruncate (<[name := kept]>);; syscall COpen id;; syscall CSync id
   else mret ());;
  mret (sg, stats).

(** One round of the loop over the directory entries. *)
Definition recover_entry (name : string) : M () :=
  match parseSegmentName name with
  | None => mret ()
  | Some nameBase =>
      x ← scan_segment name nameBase;
      let '(sg, stats) := x in
      (if 0 <? ws_skipped stats
       then modify (recordLoss (ws_skipped stats) (ws_gapLow stats) (ws_gapHigh stats)) else mret ());;
      if ws_count stats =? 0 then Remove name else modify (λ s, set_segs s (segs s ++ [sg]))
  end.

Fixpoint recover_entries (l : list string) : M () :=
  match l with
  | [] => mret ()
  | name :: l => recover_entry name;; recover_entries l
  end.

Definition base_le (a b : segment) : Prop := base a <= base b.
#[global] Instance base_le_dec : RelDecision base_le.
Proof. intros a b. unfold base_le. apply _. Defined.

Definition open_active : M () :=
  s ← get;
  match last_seg (segs s) with
  | None => mret ()
  | Some sg => syscall COpen id;; set_fd true;; modify (λ s, set_w s (Some (path sg)))
  end.

(** [LastSequence] and the acknowledged position, from the segments and the checkpoint. *)
Definition load_checkpoint : M () :=
  modify (λ s, match last_seg (segs s) with Some sg => set_lastSeq s (last sg) | None => s end);;
  ck ← readCheckpoint;
  match ck with
  | Some acked =>
      modify (λ s, set_ackedThrough s acked);;
      modify (λ s, if lastSeq s <? acked then set_lastSeq s acked else s)
  | None => mret ()
  end.

Definition recover : M () :=
  entries ← ReadDir;
  recover_entries entries;;
  modify (λ s, set_segs s (merge_sort base_le (segs s)));;
  load_checkpoint;;
  dropAckedSegments;;
  advanceAckCursor;;
  modify recount;;
  open_active;;
  enforceMaxSize;;
  modify publishMetrics.

(** The defaults [Open] fills in. *)
Definition normalize_options (o : Options) : Options :=
  let m := if MaxSize o <=? 0 then defaultMaxSize else MaxSize o in
  let g := if SegmentSize o <=? 0 then defaultSegmentSize else SegmentSize o in
  let g := if m <? g then m else g in
  mkOptions (Dir o) m g (SyncOnWrite o) (SyncInterval o).

Definition fresh_spool (o : Options) (now : time) (ms : option Metrics.Agent) : Spool :=
  mkSpool o [] None 0 0 0 0 0 0 0 0 0 0 now false false ms.

(** [Open], which starts on any state: only the world counts. *)
Definition Open (o : Options) (ms : option Metrics.Agent) : M () :=
  if String.eqb (Dir o) "" then raise ErrNoDir
  else
    let o := normalize_options o in
    syscall CMkdir id;;
    now ← Now;
    modify (λ _, fresh_spool o now ms);;
    recover.
End spool.
