(* ===== verification/SpoolProofs.v ===== *)
(** * The spool never forgets an event

    The theorems about [Spool]: a program logic for its monad, the invariant that ties
    the spool's fields to the files of its directory, and what follows from it for
    histories of operations with failing system calls, crashes and restarts. *)

From S2P Require Import Prelude GoStrings Event Metrics Frame Segment Spool.

(** ** A program logic

    [hoare P m Q E C]: started where [P] holds of the spool and the files, [m] does not
    panic, and what holds when it returns is [Q], when it returns an error [E] and when
    the process dies in it [C].  System calls may fail and the process may die at any
    of them; only a segment write that fails after writing a part, and a checkpoint
    that exists and cannot be read, are left out. *)

Definition fate_ok (f : call → fault) : Prop :=
  (∀ n, f CWrite ≠ Fails (S n)) ∧ (∀ n, f CCheckpoint ≠ Fails n).

Definition fair (d : world) : Prop := Forall fate_ok (fates d).

Definition assertion : Type := Spool → disk → Prop.

Definition at_st (P : assertion) (s : st) : Prop := P (sp s) (files (wd s)).

Definition hoare {A} (P : assertion) (m : M A) (Q : A → assertion) (E C : assertion) : Prop :=
  ∀ s, fair (wd s) → at_st P s →
    fair (wd (fst (m s))) ∧
    match snd (m s) with
    | Ret a => at_st (Q a) (fst (m s))
    | Raise _ => at_st E (fst (m s))
    | Panic => False
    | Crash => at_st C (fst (m s))
    end.

Lemma h_bind {A B} P (m : M A) (k : A → M B) Q R E C :
  hoare P m Q E C → (∀ a, hoare (Q a) (k a) R E C) → hoare P (m ≫= k) R E C.
Proof.
  intros Hm Hk s Hf Hs. specialize (Hm s Hf Hs) as [Hf' Hm]. unfold mbind, M_bind.
  destruct (m s) as [s' [a|e| |]]; simpl in *; try done. by apply Hk.
Qed.

Section rules.
Context {A B : Type}.
Implicit Types (P E C : assertion).

Lemma h_pre P P' (m : M A) Q E C :
  (∀ s fs, P s fs → P' s fs) → hoare P' m Q E C → hoare P m Q E C.
Proof. intros HP H s Hf Hs. apply H; [done|]. by apply HP. Qed.

Lemma h_post P (m : M A) Q Q' E E' C C' :
  (∀ a s fs, Q' a s fs → Q a s fs) → (∀ s fs, E' s fs → E s fs) → (∀ s fs, C' s fs → C s fs) →
  hoare P m Q' E' C' → hoare P m Q E C.
Proof.
  intros HQ HE HC H s Hf Hs. specialize (H s Hf Hs) as [Hf' H]. split; [done|]. unfold at_st in *.
  destruct (snd (m s)); eauto.
Qed.

Lemma h_ret P (a : A) Q E C : (∀ s fs, P s fs → Q a s fs) → hoare P (mret a) Q E C.
Proof. intros H s Hf Hs. split; [done|]. by apply H. Qed.

Lemma h_raise P e (Q : A → assertion) E C : (∀ s fs, P s fs → E s fs) → hoare P (raise e) Q E C.
Proof. intros H s Hf Hs. split; [done|]. by apply H. Qed.

(** Two steps that are specified together. *)
Lemma h_bind2 {X} P (m : M A) (f : A → M B) (k : B → M X) Q R E C :
  hoare P (m ≫= f) Q E C → (∀ a, hoare (Q a) (k a) R E C) → hoare P (m ≫= λ a, f a ≫= k) R E C.
Proof.
  intros Hm Hk s Hf Hs. pose proof (h_bind P _ k Q R E C Hm Hk s Hf Hs) as H. revert H.
  unfold mbind, M_bind. by destruct (m s) as [s' [a|e| |]].
Qed.

(** Reading the state fixes what it is. *)
Lemma h_get P (k : Spool → M B) Q E C :
  (∀ s0, hoare (λ s fs, s = s0 ∧ P s fs) (k s0) Q E C) → hoare P (get ≫= k) Q E C.
Proof. intros H s Hf Hs. apply (H (sp s) s Hf). done. Qed.

Lemma h_files P (k : disk → M B) Q E C :
  (∀ f0, hoare (λ s fs, fs = f0 ∧ P s fs) (k f0) Q E C) → hoare P (read_files ≫= k) Q E C.
Proof. intros H s Hf Hs. apply (H (files (wd s)) s Hf). done. Qed.

Lemma h_try P (m : M A) Q E C :
  hoare P m (λ a, Q (Ok a)) (λ s fs, ∀ e, Q (Err e) s fs) C → hoare P (try m) Q E C.
Proof.
  intros Hm s Hf Hs. specialize (Hm s Hf Hs) as [Hf' Hm]. unfold try.
  destruct (m s) as [s' [a|e| |]]; simpl in *; try done. split; [done|]. apply Hm.
Qed.

(** Pure facts and existentials of the precondition. *)
Lemma h_pure (φ : Prop) P (m : M A) Q E C :
  (∀ s fs, P s fs → φ) → (φ → hoare P m Q E C) → hoare P m Q E C.
Proof. intros HP H s Hf Hs. apply H; [|done|done]. by eapply HP. Qed.

Lemma h_ex {X} (P : X → assertion) (m : M A) Q E C :
  (∀ x, hoare (P x) m Q E C) → hoare (λ s fs, ∃ x, P x s fs) m Q E C.
Proof. intros H s Hf [x Hs]. by apply (H x). Qed.
End rules.

Lemma h_modify P f (Q : () → assertion) E C :
  (∀ s fs, P s fs → Q () (f s) fs) → hoare P (modify f) Q E C.
Proof. intros H s Hf Hs. split; [done|]. by apply H. Qed.

Lemma h_modify_bind {B} P f (k : () → M B) Q E C :
  hoare (λ s fs, ∃ s1, s = f s1 ∧ P s1 fs) (k ()) Q E C → hoare P (modify f ≫= k) Q E C.
Proof. intros H s Hf Hs. apply (H (mkSt (f (sp s)) (wd s))); [done|]. by exists (sp s). Qed.

Lemma h_now P (Q : Z → assertion) E C : (∀ t s fs, P s fs → Q t s fs) → hoare P Now Q E C.
Proof.
  intros H s Hf Hs. unfold Now. destruct (clocks (wd s)) as [|t l]; simpl.
  - split; [done|]. by apply H.
  - split; [done|]. by apply H.
Qed.

Lemma h_fd {B} P (k : bool → M B) Q E C :
  (∀ b, hoare P (k b) Q E C) → hoare P (read_fd ≫= k) Q E C.
Proof. intros H s Hf Hs. by apply (H (fd_open (wd s)) s Hf). Qed.

Lemma h_set_fd P b E C : hoare P (set_fd b) (λ _, P) E C.
Proof. intros s Hf Hs. done. Qed.

Lemma fate_spec c s :
  fair (wd s) → ∃ x, snd (fate c s) = Ret x ∧ sp (fst (fate c s)) = sp s ∧
    files (wd (fst (fate c s))) = files (wd s) ∧ fair (wd (fst (fate c s))) ∧
    (c = CWrite → ∀ n, x ≠ Fails (S n)) ∧ (c = CCheckpoint → ∀ n, x ≠ Fails n).
Proof.
  unfold fate, fair. destruct (fates (wd s)) as [|f l] eqn:Ef; simpl.
  - intros _. exists Fine. rewrite Ef. split_and!; done.
  - intros [Hf Hl]%Forall_cons. exists (f c). split_and!; try done; intros ->; apply Hf.
Qed.

Lemma h_syscall c f P (Q : () → assertion) E C :
  (∀ s fs, P s fs → Q () s (f fs)) → (c = CCheckpoint ∨ ∀ s fs, P s fs → E s fs) →
  (∀ s fs, P s fs → C s fs) → (∀ s fs, P s fs → C s (f fs)) →
  hoare P (syscall c f) Q E C.
Proof.
  intros HQ HE HC HC' s Hf Hs. unfold syscall, mbind, M_bind.
  destruct (fate_spec c s Hf) as (x & Hx & Hsp & Hfs & Hf' & _ & Hck).
  destruct (fate c s) as [s' r]. simpl in *. subst r. unfold at_st in *. rewrite <- Hsp, <- Hfs in Hs.
  destruct x as [|n|[|n]]; simpl.
  - split; [done|]. by apply HQ.
  - split; [done|]. destruct HE as [HE|HE]; [by destruct (Hck HE n)|by apply HE].
  - split; [done|]. by apply HC.
  - split; [done|]. by apply HC'.
Qed.

(** A call without effect on the directory. *)
Lemma h_call c P E C :
  (∀ s fs, P s fs → E s fs) → (∀ s fs, P s fs → C s fs) → hoare P (syscall c id) (λ _, P) E C.
Proof. intros HE HC. apply h_syscall; auto. Qed.

Lemma h_on_fd {A} P (m : M A) Q E C :
  (∀ s fs, P s fs → E s fs) → hoare P m Q E C → hoare P (on_fd m) Q E C.
Proof. intros HE Hm. apply h_fd. intros []; [done|by apply h_raise]. Qed.

Lemma h_close P E C :
  (∀ s fs, P s fs → E s fs) → (∀ s fs, P s fs → C s fs) → hoare P Close_w (λ _, P) E C.
Proof.
  intros HE HC. apply h_on_fd; [done|]. eapply h_bind; [apply h_set_fd|]. intros []. by apply h_call.
Qed.

Lemma h_syncDir P E C :
  (∀ s fs, P s fs → E s fs) → (∀ s fs, P s fs → C s fs) → hoare P syncDir (λ _, P) E C.
Proof. intros HE HC. eapply h_bind; [by apply h_call|]. intros []. by apply h_call. Qed.

(** The content of a file that is there. *)
Lemma h_ReadFile name P E C :
  (∀ s fs, P s fs → E s fs) → (∀ s fs, P s fs → C s fs) →
  hoare P (ReadFile name) (λ b s fs, fs !! name = Some b ∧ P s fs) E C.
Proof.
  intros HE HC. eapply h_bind; [by apply h_call|]. intros []. eapply h_bind; [by apply h_call|]. intros [].
  apply h_files. intros f0. destruct (f0 !! name) as [b|] eqn:Eb.
  - apply h_ret. intros s fs [-> H]. done.
  - apply h_raise. intros s fs [-> H]. by apply HE.
Qed.

(** ** The invariant *)

Abbreviation item := (Z * list byte)%type.

(** What the code relies on of encoding/json: the encoding of an event carries its
    sequence number, decodes again, and is text without a NUL byte. *)
Class JsonLaws (J : Json) : Prop := {
  marshal_seq e p : is_u64 (Sequence e) → Marshal e = Some p → sequenceOf p = Some (Sequence e);
  marshal_event e p : is_u64 (Sequence e) → Marshal e = Some p →
    ∃ e', Unmarshal p = Some e' ∧ Sequence e' = Sequence e;
  marshal_text e p : Marshal e = Some p → p ≠ [] ∧ x00 ∉ p
}.

Section proofs.
Context `{J : Json}.

Definition item_ok (it : item) : Prop :=
  is_u64 it.1 ∧ ∃ e, Unmarshal it.2 = Some e ∧ Sequence e = it.1.

Definition last_of (its : list item) : Z := List.last (fst <$> its) 0.

(** A segment and the records it holds. *)
Record holds (fs : disk) (sg : segment) (its : list item) : Prop := {
  h_file : fs !! path sg = Some (bytes_of_items its);
  h_count : count sg = Z.of_nat (length its);
  h_size : size sg = Z.of_nat (length (bytes_of_items its));
  h_reported : 0 <= reported sg ∧ 0 <= undecodable sg;
  h_base : ∀ it, head its = Some it → base sg = it.1;
  h_last : last sg = last_of its;
  h_name : is_Some (parseSegmentName (path sg))
}.

(** What the history so far obliges the spool to: the events it owes, all events it
    was given, the highest sequences acknowledged, appended and attempted.  While a
    recovery has not set the cursor yet, [firstPending] is not [tracked]. *)
Record duty : Type := mkDuty {
  owed : item → Prop;
  given : item → Prop;
  acked_max : Z;
  top : Z;
  tried : Z;
  tracked : bool
}.

(** The loss accounting covers a sequence. *)
Definition covered (s : Spool) (q : Z) : Prop := droppedLow s ≠ 0 ∧ droppedLow s <= q <= droppedHigh s.

Record meets (b : duty) (s : Spool) (items : list item) (c : Z) : Prop := {
  m_owed : ∀ it, owed b it → it ∈ items ∨ it.1 <= acked_max b ∨ covered s it.1;
  m_given : ∀ it, it ∈ items → given b it;
  m_acked : c <= acked_max b;
  m_top : top b <= Z.max c (last_of items);
  m_items : appended sequenceOf 0 items;
  m_ok : Forall item_ok items
}.

(** The checkpoint file says [c]. *)
Definition checkpoint_is (fs : disk) (c : Z) : Prop :=
  (fs !! checkpointName = None ∧ c = 0) ∨ (fs !! checkpointName = Some (checkpoint_bytes c) ∧ is_u64 c).

(** A tail that a crash within a write leaves. *)
Definition torn_tail (t : list byte) : Prop :=
  ∃ q n, payload_ok q ∧ x00 ∉ q ∧ header_clean q ∧ (n < length (record q))%nat ∧ t = take n (record q).

(** The directory while no process is up: segment files by name with the records they
    hold, in order. *)
Record stored (fs : disk) (L : list (string * list item)) : Prop := {
  st_files : ∀ x, x ∈ L → ∃ t, fs !! x.1 = Some (bytes_of_items x.2 ++ t) ∧ torn_tail t;
  st_names : NoDup L.*1;
  st_parse : ∀ x, x ∈ L → is_Some (parseSegmentName x.1);
  st_all : ∀ n, is_Some (fs !! n) → is_Some (parseSegmentName n) → n ∈ L.*1
}.

Definition down (b : duty) : assertion := λ s fs,
  ∃ L c, stored fs L ∧ checkpoint_is fs c ∧ meets b s (concat L.*2) c.

(** The cursor into the first segment. *)
Definition cursor_ok (s : Spool) (itss : list (list item)) : Prop :=
  match itss with
  | [] => ackedInFirst s = 0 ∧ ackOffset s = 0
  | its :: _ => ∃ k, (k <= length its)%nat ∧ ackedInFirst s = Z.of_nat k ∧
      ackOffset s = Z.of_nat (length (bytes_of_items (take k its))) ∧
      ∀ it, it ∈ take k its → it.1 <= ackedThrough s
  end.

(** What [Next] reads. *)
Definition view (s : Spool) (itss : list (list item)) : list item :=
  drop (Z.to_nat (ackedInFirst s)) (concat itss).

Definition first_ok (s : Spool) (itss : list (list item)) : Prop :=
  view s itss ≠ [] →
  0 < firstPending s ∧ (∀ it, it ∈ view s itss → firstPending s <= it.1) ∧
  ∀ it, it ∈ take (Z.to_nat (ackedInFirst s)) (concat itss) → it.1 < firstPending s.

(** Bases bound the records from their segment on. *)
Definition bases_ok (t : Z) (sgs : list segment) (itss : list (list item)) : Prop :=
  ∀ i j sg its, sgs !! i = Some sg → itss !! j = Some its → (i <= j)%nat →
    0 < base sg <= t ∧ ∀ it, it ∈ its → base sg <= it.1.

(** The spool of a running process.  An empty segment stays behind when a record could
    not be written; its base is the sequence it was made for. *)
Record rep (b : duty) (s : Spool) (fs : disk) (itss : list (list item)) (c : Z) : Prop := {
  r_segs : Forall2 (holds fs) (segs s) itss;
  r_names : NoDup (path <$> segs s);
  r_all : ∀ n, is_Some (fs !! n) → is_Some (parseSegmentName n) → n ∈ path <$> segs s;
  r_meets : meets b s (concat itss) c;
  r_last : lastSeq s = Z.max (ackedThrough s) (last_of (concat itss)) ∧ c <= lastSeq s;
  r_ck : checkpoint_is fs c;
  r_acked : 0 <= ackedThrough s <= c;
  r_w : ∀ n, w s = Some n → ∃ sg, last_seg (segs s) = Some sg ∧ path sg = n;
  r_base : bases_ok (tried b) (segs s) itss;
  r_cursor : cursor_ok s itss;
  r_first : tracked b = true → first_ok s itss
}.

Definition totals_ok (s : Spool) : Prop :=
  bytes s = sum_of size (segs s) ∧ pending s = sum_of count (segs s) - ackedInFirst s ∧
  (pending s = 0 → firstPending s = 0).

(** [part]: the totals may be stale; [full]: they are not. *)
Definition part (b : duty) : assertion := λ s fs, ∃ itss c, rep b s fs itss c.
Definition full (b : duty) : assertion := λ s fs, part b s fs ∧ totals_ok s.

(** ** Sequences of records *)

Lemma in_take {A} (x : A) n l : x ∈ take n l → x ∈ l.
Proof. intros H. rewrite <- (take_drop n l). set_solver. Qed.

Lemma in_drop {A} (x : A) n l : x ∈ drop n l → x ∈ l.
Proof. intros H. rewrite <- (take_drop n l). set_solver. Qed.

Abbreviation appended := (appended sequenceOf).

Lemma appended_app p l k :
  appended p (l ++ k) ↔ appended p l ∧ appended (List.last (fst <$> l) p) k.
Proof.
  revert p. induction l as [|[q x] l IH]; intros p; simpl app.
  - split; [by intros H|by intros [_ H]].
  - rewrite fmap_cons, list_last_cons. cbn [Segment.appended]. rewrite IH. tauto.
Qed.

Lemma appended_weaken p p' l : p' <= p → appended p l → appended p' l.
Proof. destruct l as [|[q x] l]; simpl; [done|]. intros ? (? & ?). split; [lia|done]. Qed.

Lemma appended_gt p l it : appended p l → it ∈ l → p < it.1.
Proof.
  revert p. induction l as [|[q x] l IH]; intros p H Hit; [set_solver|]. destruct H as (H1 & H2 & H3 & H4).
  apply elem_of_cons in Hit as [->|Hit]; [done|]. specialize (IH _ H4 Hit). lia.
Qed.

Lemma appended_sorted p l : appended p l → StronglySorted Z.lt (fst <$> l).
Proof.
  revert p. induction l as [|[q y] l IH]; intros p; [constructor|]. intros (Hp & H1 & H2 & H). constructor; [by eapply IH|].
  apply Forall_forall. intros z (it & -> & Hit)%list_elem_of_fmap. by eapply appended_gt.
Qed.

Lemma appended_last_ge p l : appended p l → p <= List.last (fst <$> l) p.
Proof.
  revert p. induction l as [|[q x] l IH]; intros p H; [done|]. destruct H as (H1 & _ & _ & H4).
  rewrite fmap_cons, list_last_cons. specialize (IH _ H4). simpl. lia.
Qed.

Lemma appended_le_last p l it : appended p l → it ∈ l → it.1 <= List.last (fst <$> l) p.
Proof.
  revert p. induction l as [|[q x] l IH]; intros p H Hit; [set_solver|]. destruct H as (H1 & _ & _ & H4).
  rewrite fmap_cons, list_last_cons. apply elem_of_cons in Hit as [->|Hit].
  - by apply appended_last_ge.
  - by apply IH.
Qed.

Lemma appended_before p l k x y : appended p (l ++ k) → x ∈ l → y ∈ k → x.1 < y.1.
Proof.
  intros [Hl Hk]%appended_app Hx Hy. pose proof (appended_le_last _ _ _ Hl Hx).
  pose proof (appended_gt _ _ _ Hk Hy). lia.
Qed.

Lemma appended_suffix p l k : appended p (l ++ k) → appended p k.
Proof.
  intros [Hl Hk]%appended_app. eapply appended_weaken; [|done]. by apply appended_last_ge.
Qed.

Lemma appended_prefix p l k : appended p (l ++ k) → appended p l.
Proof. by intros [Hl _]%appended_app. Qed.

Lemma last_of_elem its : its ≠ [] → ∃ it, it ∈ its ∧ it.1 = last_of its.
Proof.
  unfold last_of. generalize 0. induction its as [|x its IH]; intros d H; [done|]. rewrite fmap_cons, list_last_cons.
  destruct its as [|y its]; [exists x; set_solver|]. destruct (IH x.1) as (it & Hit & He); [done|].
  exists it. split; [set_solver|done].
Qed.

Lemma last_of_app l k : last_of (l ++ k) = List.last (fst <$> k) (last_of l).
Proof.
  unfold last_of. generalize 0. induction l as [|x l IH]; intros d; [done|].
  rewrite <- app_comm_cons, !fmap_cons, !list_last_cons. apply IH.
Qed.

Lemma last_of_ge its it : appended 0 its → it ∈ its → it.1 <= last_of its.
Proof. apply appended_le_last. Qed.

(** A longer list that starts later has the same end. *)
Lemma last_of_suffix l k : k ≠ [] → last_of (l ++ k) = last_of k.
Proof.
  intros Hk. rewrite last_of_app. unfold last_of. destruct k as [|x k]; [done|].
  by rewrite fmap_cons, !list_last_cons.
Qed.

(** ** Walks over records *)

(** The state of a callback that may stop. *)
Fixpoint fold_walk {A} (fn : A → Z → list byte → Z → A * bool) (acc : A) (off : Z) (its : list item) : A :=
  match its with
  | [] => acc
  | (q, p) :: its =>
      let e := off + Z.of_nat (length (record p)) in
      let '(acc, cont) := fn acc q p e in if (cont : bool) then fold_walk fn acc e its else acc
  end.

Lemma walk_loop_items {A} (fn : A → Z → list byte → Z → A * bool) sz its : ∀ (x : walkState (A := A)) prev fuel,
  avail (w_in x) = bytes_of_items its → ending (w_in x) = EOF → appended prev its → 0 <= prev →
  (∀ q, w_prev x = Some q → q <= prev) → w_damage x = false →
  w_off x + Z.of_nat (length (bytes_of_items its)) <= sz → (length its < fuel)%nat →
  ∃ x', walk_loop sequenceOf fn fuel sz x = Break x' ∧ w_acc x' = fold_walk fn (w_acc x) (w_off x) its ∧
    ws_skipped (w_st x') = ws_skipped (w_st x).
Proof.
  induction its as [|[q p] its IH]; intros x prev fuel Hin He Happ Hpos Hprev Hd Hsz Hf;
    (destruct fuel as [|fuel]; [simpl in Hf; lia|]); cbn [walk_loop].
  - unfold walk_step. rewrite Hin, He. by exists x.
  - destruct Happ as (Hlt & Hp & Hseq & Happ). rewrite bytes_of_items_cons in Hin, Hsz. cbn [snd] in *.
    rewrite length_app in Hsz.
    rewrite (walk_step_whole sequenceOf fn sz x q p (bytes_of_items its)); try done; [|lia| |lia].
    2: { intros q' Hq'. specialize (Hprev q' Hq'). lia. }
    unfold accept. rewrite Hd. cbn [fold_walk].
    destruct (fn (w_acc x) q p (w_off x + Z.of_nat (length (record p)))) as [acc cont].
    destruct cont; cbn iota; [|by eexists].
    match goal with |- ∃ x', walk_loop _ _ _ _ ?y = _ ∧ _ => destruct (IH y q fuel) as (x' & Hr & Ha & Hs) end.
    + cbn [w_in avail]. rewrite Hin, <- record_length. apply drop_app_length.
    + done.
    + done.
    + lia.
    + cbn [w_prev]. intros q' [= <-]. lia.
    + done.
    + cbn [w_off]. lia.
    + simpl in Hf. lia.
    + exists x'. split_and!; [done|done|]. rewrite Hs. done.
Qed.

(** A walk from behind the records [pre]. *)
Lemma walk_items {A} (fn : A → Z → list byte → Z → A * bool) pre its acc :
  appended 0 (pre ++ its) →
  ∃ stats, walk sequenceOf fn (bytes_of_items (pre ++ its)) (Z.of_nat (length (bytes_of_items pre))) acc =
    (stats, fold_walk fn acc (Z.of_nat (length (bytes_of_items pre))) its, true) ∧ ws_skipped stats = 0.
Proof.
  intros Happ. unfold walk, walkRecords. rewrite Nat2Z.id, bytes_of_items_app, drop_app_length.
  cbn [avail]. pose proof (bytes_of_items_length its).
  edestruct (walk_loop_items fn (Z.of_nat (length (bytes_of_items pre ++ bytes_of_items its))) its)
    as (x' & Hr & Ha & Hs); [| | | | | | | |rewrite Hr; eexists; split; [by rewrite Ha|exact Hs]].
  - reflexivity.
  - reflexivity.
  - exact (appended_suffix _ _ _ Happ).
  - done.
  - done.
  - done.
  - cbn [w_off]. rewrite length_app. lia.
  - lia.
Qed.

(** ** Steps of the invariant *)

Lemma covered_same s s' q :
  droppedLow s' = droppedLow s → droppedHigh s' = droppedHigh s → covered s q → covered s' q.
Proof. unfold covered. intros -> ->. done. Qed.

Lemma meets_covered b s s' items c :
  (∀ q, covered s q → covered s' q) → meets b s items c → meets b s' items c.
Proof.
  intros Hc []. constructor; try done. intros it Hit. destruct (m_owed0 it Hit) as [|[|]]; auto.
Qed.

Lemma down_covered b s s' fs : (∀ q, covered s q → covered s' q) → down b s fs → down b s' fs.
Proof. intros Hc (L & c & H1 & H2 & H3). exists L, c. split_and!; [done..|]. by eapply meets_covered. Qed.

(** A prefix may go when its records are acknowledged or accounted as lost. *)
Lemma meets_suffix b s l k c :
  (∀ it, it ∈ l → it.1 <= acked_max b ∨ covered s it.1) → (k ≠ [] ∨ last_of l <= c) →
  meets b s (l ++ k) c → meets b s k c.
Proof.
  intros Hl Hk [Ho Hg Ha Ht Hi Hok]. constructor.
  - intros it Hit. destruct (Ho it Hit) as [Hin|Hr]; [|by right].
    apply elem_of_app in Hin as [Hin|Hin]; [|by left]. right. by apply Hl.
  - intros it Hit. apply Hg. set_solver.
  - done.
  - destruct k as [|x k]; [|by rewrite last_of_suffix in Ht]. destruct Hk as [|Hk]; [done|].
    rewrite app_nil_r in Ht. unfold last_of at 1; simpl. lia.
  - by eapply appended_suffix.
  - by apply Forall_app in Hok as [_ ?].
Qed.

Lemma text_clean : header_clean [x61].
Proof. intros i Hi. do 8 (destruct i as [|i]; [try lia; vm_compute; done|]). lia. Qed.

Lemma torn_nil : torn_tail [].
Proof.
  exists [x61], 0%nat. split_and!; [split; vm_compute; done|set_solver|apply text_clean| |done].
  rewrite record_length. unfold recordHeaderSize. lia.
Qed.

Lemma holds_name fs sg its : holds fs sg its → is_Some (parseSegmentName (path sg)).
Proof. by intros []. Qed.

Lemma holds_other fs fs' sg its : fs' !! path sg = fs !! path sg → holds fs sg its → holds fs' sg its.
Proof. intros He []. constructor; try done. by rewrite He. Qed.

Lemma all_hold_other fs fs' sgs itss :
  (∀ sg, sg ∈ sgs → fs' !! path sg = fs !! path sg) → Forall2 (holds fs) sgs itss → Forall2 (holds fs') sgs itss.
Proof.
  intros He Hs. induction Hs as [|sg its sgs itss Hh Hs IH]; constructor.
  - eapply holds_other; [|done]. apply He. set_solver.
  - apply IH. set_solver.
Qed.

Lemma zip_paths fs sgs itss :
  Forall2 (holds fs) sgs itss → (zip (path <$> sgs) itss).*1 = path <$> sgs ∧ (zip (path <$> sgs) itss).*2 = itss.
Proof.
  intros H%Forall2_length. rewrite fst_zip, snd_zip by (rewrite length_fmap; lia). done.
Qed.

Lemma rep_stored b s fs itss c : rep b s fs itss c → stored fs (zip (path <$> segs s) itss).
Proof.
  intros [Hs Hn Ha _ _ _ _ _ _ _ _]. destruct (zip_paths _ _ _ Hs) as [H1 H2].
  assert (Hin : ∀ x, x ∈ zip (path <$> segs s) itss → ∃ sg, path sg = x.1 ∧ holds fs sg x.2).
  { clear -Hs. induction Hs as [|sg its sgs itss Hh Hs IH]; intros x Hx; [set_solver|].
    apply elem_of_cons in Hx as [->|Hx]; [by exists sg|by apply IH]. }
  constructor.
  - intros x Hx. destruct (Hin x Hx) as (sg & <- & Hh). exists []. rewrite app_nil_r.
    split; [apply Hh|apply torn_nil].
  - by rewrite H1.
  - intros x Hx. destruct (Hin x Hx) as (sg & <- & Hh). by apply holds_name in Hh.
  - rewrite H1. done.
Qed.

Lemma rep_down b s fs itss c : rep b s fs itss c → down b s fs.
Proof.
  intros H. exists (zip (path <$> segs s) itss), c.
  destruct (zip_paths _ _ _ (r_segs _ _ _ _ _ H)) as [_ ->].
  split_and!; [by eapply rep_stored|apply H|apply H].
Qed.

Lemma part_down b s fs : part b s fs → down b s fs.
Proof. intros (itss & c & H). by eapply rep_down. Qed.

Lemma full_down b s fs : full b s fs → down b s fs.
Proof. intros [H _]. by apply part_down. Qed.

Lemma full_part b s fs : full b s fs → part b s fs.
Proof. by intros [H _]. Qed.

(** Fields the invariant does not look at. *)
Definition same_rep (s s' : Spool) : Prop :=
  segs s' = segs s ∧ w s' = w s ∧ lastSeq s' = lastSeq s ∧ ackedThrough s' = ackedThrough s ∧
  firstPending s' = firstPending s ∧ ackedInFirst s' = ackedInFirst s ∧ ackOffset s' = ackOffset s ∧
  droppedLow s' = droppedLow s ∧ droppedHigh s' = droppedHigh s.

Lemma rep_same b s s' fs itss c : same_rep s s' → rep b s fs itss c → rep b s' fs itss c.
Proof.
  intros (E1 & E2 & E3 & E4 & E5 & E6 & E7 & E8 & E9) [].
  constructor; unfold cursor_ok, first_ok, view in *; rewrite ?E1, ?E2, ?E3, ?E4, ?E5, ?E6, ?E7; try done.
  eapply meets_covered; [|done]. intros q. by apply covered_same.
Qed.

Lemma part_same b s s' fs : same_rep s s' → part b s fs → part b s' fs.
Proof. intros Hs (itss & c & H). exists itss, c. by eapply rep_same. Qed.

Lemma full_same b s s' fs :
  same_rep s s' → bytes s' = bytes s → pending s' = pending s → full b s fs → full b s' fs.
Proof.
  intros Hs Hb Hp [H (H1 & H2 & H3)]. split; [by eapply part_same|].
  destruct Hs as (E1 & _ & _ & _ & E5 & E6 & _). unfold totals_ok. by rewrite E1, E5, E6, Hb, Hp.
Qed.

Lemma checkpoint_other fs n x c :
  is_Some (parseSegmentName n) → checkpoint_is fs c → checkpoint_is (<[n := x]> fs) c.
Proof.
  intros Hn. unfold checkpoint_is. rewrite lookup_insert_ne; [done|]. intros ->. by destruct Hn.
Qed.

Lemma checkpoint_delete fs n c :
  is_Some (parseSegmentName n) → checkpoint_is fs c → checkpoint_is (delete n fs) c.
Proof.
  intros Hn. unfold checkpoint_is. rewrite lookup_delete_ne; [done|]. intros ->. by destruct Hn.
Qed.

Lemma last_seg_cons sg rest : rest ≠ [] → last_seg (sg :: rest) = last_seg rest.
Proof.
  intros Hr. unfold last_seg. destruct rest as [|r rest]; [done|]. simpl. by rewrite Nat.sub_0_r.
Qed.

(** The first segment goes. *)
Definition drop_first (rest : list segment) (s : Spool) : Spool :=
  set_firstPending (set_cursor (set_segs s rest) 0 0) (match rest with [] => 0 | sg :: _ => base sg end).

Lemma drop_first_rep b s fs its itss c sg rest :
  rep b s fs (its :: itss) c → segs s = sg :: rest → (rest = [] → w s = None) →
  (∀ it, it ∈ its → it.1 <= acked_max b ∨ covered s it.1) → (concat itss ≠ [] ∨ last_of its <= ackedThrough s) →
  rep b (drop_first rest s) (delete (path sg) fs) itss c.
Proof.
  intros [Hs Hn Ha Hm Hl Hc Hk Hw Hb Hcur Hf] Hsg Hrw Hgone Htop. rewrite Hsg in *.
  apply Forall2_cons in Hs as [Hh Hs]. rewrite fmap_cons in Hn, Ha. apply NoDup_cons in Hn as [Hnin Hn].
  assert (Hm' : meets b s (concat itss) c).
  { eapply meets_suffix; [done| |done]. destruct Htop; [by left|right; lia]. }
  constructor; cbn [segs w lastSeq ackedThrough drop_first set_firstPending set_cursor set_segs].
  - eapply all_hold_other; [|done]. intros sg' Hin. apply lookup_delete_ne. intros He. apply Hnin.
    rewrite He. apply list_elem_of_fmap. eauto.
  - done.
  - intros n [x Hx] Hp. apply lookup_delete_Some in Hx as [Hne Hx].
    specialize (Ha n (mk_is_Some _ _ Hx) Hp). set_solver.
  - eapply meets_covered; [|done]. done.
  - destruct Hl as [Hl1 Hl2]. split; [|done]. rewrite Hl1. cbn [concat]. destruct Htop as [Ht|Ht].
    + by rewrite last_of_suffix.
    + destruct (decide (concat itss = [])) as [E|E]; [|by rewrite last_of_suffix].
      rewrite E, app_nil_r. unfold last_of at 2. simpl. lia.
  - apply checkpoint_delete; [|done]. by eapply holds_name.
  - done.
  - intros n Hwn. destruct (Hw n Hwn) as (sg' & Hlast & Hp). destruct rest as [|r rest].
    + by rewrite Hrw in Hwn.
    + rewrite last_seg_cons in Hlast by done. by exists sg'.
  - intros i j sg' its' Hi Hj Hij. apply (Hb (S i) (S j)); [done|done|lia].
  - unfold cursor_ok. destruct itss as [|its' itss]; [done|].
    exists 0%nat. split_and!; [lia|done|done|set_solver].
  - intros _. unfold first_ok, view. cbn [ackedInFirst firstPending drop_first set_firstPending set_cursor set_segs].
    change (Z.to_nat 0) with 0%nat. rewrite drop_0, take_0. intros Hne. destruct rest as [|r rest].
    { apply Forall2_nil_inv_l in Hs as ->. done. }
    assert (Hr : ∀ j its', itss !! j = Some its' → 0 < base r <= tried b ∧ ∀ it, it ∈ its' → base r <= it.1).
    { intros j its' Hj. apply (Hb 1%nat (S j)); [done|done|lia]. }
    destruct itss as [|its' itss]; [done|]. split_and!; [by apply (Hr 0%nat its')| |set_solver].
    intros it Hit. apply list_elem_of_In, in_concat in Hit as (l & Hl' & Hit).
    apply list_elem_of_In, list_elem_of_lookup in Hl' as [j Hj]. apply list_elem_of_In in Hit.
    by apply (Hr j l).
Qed.

(** ** Syncing *)

Definition sync_stable (P : assertion) : Prop :=
  ∀ s fs, P s fs → (∀ d, P (set_dirty s d) fs) ∧ ∀ t, P (set_lastSync s t) fs.

Lemma h_sync P E C :
  sync_stable P → (∀ s fs, P s fs → E s fs) → (∀ s fs, P s fs → C s fs) → hoare P sync (λ _, P) E C.
Proof.
  intros Hst HE HC. unfold sync.
  assert (Hnow : hoare P (now ← Now; modify (λ s, set_lastSync s now)) (λ _, P) E C).
  { eapply h_bind; [by apply (h_now P (λ _, P))|]. intros t. apply h_modify. intros s fs Hs. by apply Hst. }
  apply h_get. intros s0. eapply h_pre; [intros s fs [_ Hs]; exact Hs|].
  destruct (w s0) as [nm|]; [destruct (dirty s0)|]; try done.
  eapply h_bind; [apply h_on_fd; [done|by apply h_call]|]. intros [].
  apply h_bind with (Q := λ _, P); [|by intros []]. apply h_modify. intros s fs Hs. by apply Hst.
Qed.

Lemma h_maybeSync P E C :
  sync_stable P → (∀ s fs, P s fs → E s fs) → (∀ s fs, P s fs → C s fs) →
  hoare P maybeSync (λ _, P) E C.
Proof.
  intros Hst HE HC. unfold maybeSync. apply h_get. intros s0. eapply h_pre; [intros s fs [_ Hs]; exact Hs|].
  destruct (SyncOnWrite _); [by apply h_sync|]. destruct (0 <? _); [|by apply h_ret].
  eapply h_bind; [by apply (h_now P (λ _, P))|]. intros t.
  destruct (_ <=? _); [by apply h_sync|by apply h_ret].
Qed.

Ltac same_fields := unfold same_rep; by split_and!.

Lemma part_sync b : sync_stable (part b).
Proof. intros s fs H. split; intros x; (eapply part_same; [|exact H]); same_fields. Qed.

Lemma full_sync b : sync_stable (full b).
Proof. intros s fs H. split; intros x; (eapply full_same; [| | |exact H]); done || same_fields. Qed.

(** ** Dropping acknowledged segments *)

(** What is left of the segments [itss0] after some of the first ones, all of them
    acknowledged, have gone. *)
Definition dropping (b : duty) (a : Z) (itss0 : list (list item)) : assertion := λ s fs,
  ∃ gone itss c, rep b s fs itss c ∧ itss0 = gone ++ itss ∧ ackedThrough s = a ∧
    ∀ it, it ∈ concat gone → it.1 <= a.

(** The first segment is not acknowledged entirely. *)
Definition head_live (s : Spool) : Prop :=
  ∀ sg rest, segs s = sg :: rest → ackedThrough s < last sg.

Lemma dropping_down b a itss0 s fs : dropping b a itss0 s fs → down b s fs.
Proof. intros (gone & itss & c & H & _). by eapply rep_down. Qed.

Lemma rep_no_w b s fs itss c d :
  rep b s fs itss c → rep b (set_w s None) fs itss c ∧ rep b (set_dirty (set_w s None) d) fs itss c.
Proof.
  intros H. assert (Hw : rep b (set_w s None) fs itss c).
  { destruct H. constructor; try done. eapply meets_covered; [|done]. done. }
  split; [done|]. eapply rep_same; [|done]. same_fields.
Qed.

(** The first segment [sg] is acknowledged and not open any more. *)
Definition closing (b : duty) (a : Z) (itss0 : list (list item)) (sg : segment) (rest : list segment) :
    assertion := λ s fs,
  segs s = sg :: rest ∧ (rest = [] → w s = None) ∧ last sg <= a ∧ dropping b a itss0 s fs.

Lemma closing_dropped b a itss0 sg rest s fs :
  closing b a itss0 sg rest s fs → dropping b a itss0 (drop_first rest s) (delete (path sg) fs).
Proof.
  intros (Hsg & Hw & Hlast & gone & itss & c & Hrep & He & Ha & Hgone).
  destruct itss as [|its itss].
  { pose proof (r_segs _ _ _ _ _ Hrep) as Hs. rewrite Hsg in Hs. by inversion Hs. }
  assert (Hle : ∀ it, it ∈ its → it.1 <= a).
  { intros it Hit. pose proof (r_segs _ _ _ _ _ Hrep) as Hs. rewrite Hsg in Hs.
    apply Forall2_cons in Hs as [Hh _]. rewrite (h_last _ _ _ Hh) in Hlast.
    pose proof (m_items _ _ _ _ (r_meets _ _ _ _ _ Hrep)) as Hi. simpl in Hi. apply appended_prefix in Hi.
    pose proof (last_of_ge _ _ Hi Hit). lia. }
  pose proof (r_acked _ _ _ _ _ Hrep). pose proof (m_acked _ _ _ _ (r_meets _ _ _ _ _ Hrep)).
  exists (gone ++ [its]), itss, c. split_and!; [|by rewrite <- app_assoc|done|].
  - eapply drop_first_rep; [done|done|done| |].
    + intros it Hit. left. specialize (Hle it Hit). lia.
    + right. destruct (decide (its = [])) as [->|Hne]; [unfold last_of; simpl; lia|].
      destruct (last_of_elem its Hne) as (it & Hit & <-). specialize (Hle it Hit). lia.
  - intros it. rewrite concat_app, elem_of_app. simpl. rewrite app_nil_r. intros [Hit|Hit]; [by apply Hgone|by apply Hle].
Qed.

Lemma h_remove_first b a itss0 sg rest (f : Spool → Spool) :
  (∀ s, segs s = sg :: rest → f s = drop_first rest s) →
  hoare (closing b a itss0 sg rest) (Remove (path sg);; modify f)
    (λ _ s fs, dropping b a itss0 s fs ∧ segs s = rest) (dropping b a itss0) (down b).
Proof.
  intros Hf. eapply h_bind with (Q := λ _ s fs, ∃ fs0, fs = delete (path sg) fs0 ∧ closing b a itss0 sg rest s fs0).
  - apply h_syscall.
    + intros s fs H. by exists fs.
    + right. intros s fs (_ & _ & _ & H). done.
    + intros s fs (_ & _ & _ & H). by eapply dropping_down.
    + intros s fs H. apply closing_dropped in H. apply dropping_down in H.
      eapply down_covered; [|exact H]. done.
  - intros []. apply h_modify. intros s fs (fs0 & -> & H). pose proof H as (Hsg & _). rewrite Hf by done.
    split; [|done]. by apply closing_dropped.
Qed.

Lemma h_drop_end b a itss0 P (removed : bool) :
  (∀ s fs, P s fs → dropping b a itss0 s fs ∧ head_live s) →
  hoare P (if removed then syncDir else mret ())
    (λ _ s fs, dropping b a itss0 s fs ∧ head_live s) (dropping b a itss0) (down b).
Proof.
  intros HP. eapply h_pre; [exact HP|]. destruct removed; [|by apply h_ret].
  apply h_syncDir; intros s fs [H _]; [done|by eapply dropping_down].
Qed.

Lemma h_drop_acked b a itss0 fuel : ∀ removed,
  hoare (λ s fs, dropping b a itss0 s fs ∧ (length (segs s) <= fuel)%nat) (drop_acked fuel removed)
    (λ _ s fs, dropping b a itss0 s fs ∧ head_live s) (dropping b a itss0) (down b).
Proof.
  induction fuel as [|fuel IH]; intros removed; cbn [drop_acked]; apply h_get; intros s0.
  { apply h_drop_end. intros s fs (-> & H & Hl). split; [done|]. intros sg rest Hsg. rewrite Hsg in Hl. simpl in Hl. lia. }
  destruct (segs s0) as [|sg rest] eqn:Hsg.
  { apply h_drop_end. intros s fs (-> & H & Hl). split; [done|]. intros sg rest Hsg'. by rewrite Hsg in Hsg'. }
  destruct (Z.leb_spec (last sg) (ackedThrough s0)) as [Hle|Hgt].
  2: { apply h_drop_end. intros s fs (-> & H & Hl). split; [done|]. intros sg' rest' Hsg'. rewrite Hsg in Hsg'. by simplify_eq. }
  eapply h_bind with (Q := λ _ s fs, closing b a itss0 sg rest s fs ∧ (length rest <= fuel)%nat).
  - assert (Hnoop : (rest ≠ [] ∨ w s0 = None) →
      hoare (λ s fs, s = s0 ∧ dropping b a itss0 s fs ∧ (length (segs s) <= S fuel)%nat) (mret ())
        (λ _ s fs, closing b a itss0 sg rest s fs ∧ (length rest <= fuel)%nat) (dropping b a itss0) (down b)).
    { intros Hor. apply h_ret. intros s fs (-> & H & Hl). rewrite Hsg in Hl. simpl in Hl. split; [|lia].
      pose proof H as (_ & _ & _ & _ & _ & Ha & _). split_and!; [done| |lia|done].
      intros ->. by destruct Hor. }
    destruct rest as [|r rest]; [|apply Hnoop; by left]. destruct (w s0) as [nm|] eqn:Ew; [|apply Hnoop; by right].
    eapply h_bind with (Q := λ _ s fs, s = s0 ∧ dropping b a itss0 s fs).
    { apply h_try. eapply h_pre with (P' := λ s fs, s = s0 ∧ dropping b a itss0 s fs).
      { intros s fs (-> & H & _). done. }
      apply h_close; [done|]. intros s fs [_ H]. by eapply dropping_down. }
    intros r. eapply h_bind with (Q := λ _ s fs, s = set_w s0 None ∧ dropping b a itss0 s fs).
    { apply h_modify. intros s fs [-> (gone & itss & c & Hr & H)]. split; [done|]. exists gone, itss, c.
      split; [by apply (rep_no_w b s0 fs itss c true)|done]. }
    intros []. destruct r as [u|e].
    + apply h_modify. intros s fs [-> (gone & itss & c & Hr & H)]. split; [|simpl; lia].
      assert (Ha : ackedThrough s0 = a) by apply H. split_and!; [done|done|lia|].
      exists gone, itss, c. split; [|done]. eapply rep_same; [|exact Hr]. same_fields.
    + apply h_raise. intros s fs [-> H]. done.
  - intros []. eapply h_bind2.
    + eapply h_pre with (P' := λ s fs, closing b a itss0 sg rest s fs ∧ (length rest <= fuel)%nat); [done|].
      eapply h_pure; [intros s fs [_ H]; exact H|]. intros Hl.
      eapply h_pre; [intros s fs [H _]; exact H|]. eapply h_post; [| | |apply h_remove_first].
      * intros [] s fs [H Hr]. instantiate (1 := λ _ s fs, dropping b a itss0 s fs ∧ (length (segs s) <= fuel)%nat).
        simpl. by rewrite Hr.
      * done.
      * done.
      * done.
    + intros []. apply IH.
Qed.

(** ** Walking a segment *)

Lemma h_walk_segment {A} sg start (fn : A → Z → list byte → Z → A * bool) acc P (E C : assertion) its k :
  (∀ s fs, P s fs → fs !! path sg = Some (bytes_of_items its)) →
  start = Z.of_nat (length (bytes_of_items (take k its))) → appended 0 its →
  (∀ s fs, P s fs → E s fs) → (∀ s fs, P s fs → C s fs) →
  hoare P (walk_segment sg start fn acc)
    (λ x s fs, P s fs ∧ ws_skipped x.1 = 0 ∧ x.2 = fold_walk fn acc start (drop k its)) E C.
Proof.
  intros Hfile -> Happ HE HC. eapply h_bind; [by apply h_ReadFile|]. intros bs.
  eapply h_pure; [intros s fs [Hb Hp]; rewrite (Hfile _ _ Hp) in Hb; exact Hb|]. intros [= <-].
  rewrite <- (take_drop k its) in Happ. destruct (walk_items fn _ _ acc Happ) as (stats & Hw & Hsk).
  rewrite take_drop in Hw. rewrite Hw. apply h_ret. intros s fs [_ Hp]. done.
Qed.

Lemma no_new_damage s i stats :
  (∀ sg, segs s !! i = Some sg → 0 <= reported sg) → ws_skipped stats = 0 → reportNewDamage i stats s = s.
Proof.
  intros Hr Hs. unfold reportNewDamage. destruct (segs s !! i) as [sg|] eqn:E; [|done].
  specialize (Hr sg eq_refl). rewrite Hs. destruct (Z.leb_spec 0 (reported sg)); [done|lia].
Qed.

(** ** The acknowledgement cursor *)

Lemma fold_ack through its : ∀ n off,
  ∃ j, (j <= length its)%nat ∧
    fold_walk (ack_fn through) (n, off, 0) off its =
      (n + Z.of_nat j, off + Z.of_nat (length (bytes_of_items (take j its))),
       match drop j its with [] => 0 | it :: _ => it.1 end) ∧
    (∀ it, it ∈ take j its → it.1 <= through) ∧ ∀ it, head (drop j its) = Some it → through < it.1.
Proof.
  induction its as [|[q p] its IH]; intros n off.
  - exists 0%nat. simpl. split_and!; [done| |set_solver|done]. by rewrite !Z.add_0_r.
  - cbn [fold_walk ack_fn]. destruct (Z.ltb_spec through q) as [Hlt|Hge].
    + exists 0%nat. split_and!; [lia| |set_solver|intros it [= <-]; done].
      cbn [drop take]. by rewrite !Z.add_0_r.
    + destruct (IH (n + 1) (off + Z.of_nat (length (record p)))) as (j & Hj & He & Hle & Hhd).
      exists (S j). split_and!; [simpl; lia| | |done].
      * rewrite He. cbn [take drop]. rewrite bytes_of_items_cons, length_app. cbn [snd].
        f_equal. f_equal; lia.
      * intros it. cbn [take]. rewrite elem_of_cons. intros [->|Hit]; [done|by apply Hle].
Qed.

Lemma rep_cursor b s s' fs itss c :
  rep b s fs itss c → segs s' = segs s → w s' = w s → lastSeq s' = lastSeq s →
  ackedThrough s' = ackedThrough s → droppedLow s' = droppedLow s → droppedHigh s' = droppedHigh s →
  cursor_ok s' itss → (tracked b = true → first_ok s' itss) → rep b s' fs itss c.
Proof.
  intros [] E1 E2 E3 E4 E8 E9 Hc Hf. constructor; rewrite ?E1, ?E2, ?E3, ?E4; try done.
  eapply meets_covered; [|done]. intros q. by apply covered_same.
Qed.

(** The duty once the cursor is set. *)
Definition firm (b : duty) : duty := mkDuty (owed b) (given b) (acked_max b) (top b) (tried b) true.

Lemma firm_id b : tracked b = true → firm b = b.
Proof. destruct b. simpl. by intros ->. Qed.

Lemma meets_firm b s items c : meets (firm b) s items c ↔ meets b s items c.
Proof. split; intros []; by constructor. Qed.

Lemma rep_firm b s fs itss c : rep b s fs itss c → first_ok s itss → rep (firm b) s fs itss c.
Proof.
  intros [H1 H2 H3 H4 H5 H6 H7 H8 H9 H10 H11] Hf. constructor; try done. by apply (proj2 (meets_firm b s _ c)).
Qed.

Lemma down_firm b s fs : down (firm b) s fs → down b s fs.
Proof. intros (Lx & c & H1 & H2 & H3). exists Lx, c. split_and!; [done|done|]. by apply (proj1 (meets_firm b s _ c)). Qed.

Lemma rep_set_cursor b s s' fs itss c :
  rep b s fs itss c → segs s' = segs s → w s' = w s → lastSeq s' = lastSeq s →
  ackedThrough s' = ackedThrough s → droppedLow s' = droppedLow s → droppedHigh s' = droppedHigh s →
  cursor_ok s' itss → first_ok s' itss → rep (firm b) s' fs itss c.
Proof. intros H H1 H2 H3 H4 H5 H6 H7 H8. apply rep_firm; [|exact H8]. by apply (rep_cursor b s). Qed.

(** Nothing that [Next] reads is acknowledged. *)
Definition exact (s : Spool) (itss : list (list item)) : Prop :=
  ∀ it, it ∈ view s itss → ackedThrough s < it.1.

Definition advanced (b : duty) (a : Z) (itss0 : list (list item)) (live : bool) : assertion := λ s fs,
  ∃ gone itss c, rep b s fs itss c ∧ itss0 = gone ++ itss ∧ ackedThrough s = a ∧
    (∀ it, it ∈ concat gone → it.1 <= a) ∧ (live = true → exact s itss).

Lemma advanced_dropping b a itss0 live s fs : advanced b a itss0 live s fs → dropping b a itss0 s fs.
Proof. intros (gone & itss & c & H1 & H2 & H3 & H4 & _). by exists gone, itss, c. Qed.

(** The cursor at zero. *)
Lemma cursor_zero s itss : ackedInFirst s = 0 → ackOffset s = 0 → cursor_ok s itss.
Proof.
  intros Hk Ho. destruct itss as [|its itss]; [done|]. exists 0%nat. split_and!; [lia|done|done|set_solver].
Qed.

Lemma rep_bases b s fs itss c sg rest it :
  rep b s fs itss c → segs s = sg :: rest → it ∈ concat itss → 0 < base sg ∧ base sg <= it.1.
Proof.
  intros H Hsg Hit. apply list_elem_of_In, in_concat in Hit as (l & Hl & Hit).
  apply list_elem_of_In, list_elem_of_lookup in Hl as [j Hj]. apply list_elem_of_In in Hit.
  destruct (r_base _ _ _ _ _ H 0%nat j sg l) as [Hb Hle]; [by rewrite Hsg|done|lia|].
  split; [lia|by apply Hle].
Qed.

Lemma advance_to_base b s fs itss c sg rest :
  rep b s fs itss c → segs s = sg :: rest → ackedThrough s < base sg →
  let s' := set_firstPending (set_cursor s 0 0) (base sg) in rep (firm b) s' fs itss c ∧ exact s' itss.
Proof.
  intros H Hsg Hlt s'. split.
  - eapply rep_set_cursor; try done; [by apply cursor_zero|].
    unfold first_ok, view. change (Z.to_nat (ackedInFirst s')) with 0%nat. rewrite drop_0, take_0. intros Hne.
    destruct (concat itss) as [|it0 its0] eqn:Ec; [done|].
    assert (Hb : ∀ it, it ∈ concat itss → 0 < base sg ∧ base sg <= it.1) by (intros it; by eapply rep_bases).
    rewrite Ec in Hb. cbn [firstPending s' set_firstPending]. split_and!; [apply (Hb it0); set_solver| |set_solver].
    intros it Hit. by apply Hb.
  - intros it. unfold view. change (Z.to_nat (ackedInFirst s')) with 0%nat. rewrite drop_0. intros Hit.
    change (ackedThrough s') with (ackedThrough s). destruct (rep_bases _ _ _ _ _ _ _ _ H Hsg Hit). lia.
Qed.

Lemma rep_head b s fs itss c sg rest :
  rep b s fs itss c → segs s = sg :: rest →
  ∃ its itss', itss = its :: itss' ∧ holds fs sg its ∧ appended 0 its ∧
    ∃ k, (k <= length its)%nat ∧ ackedInFirst s = Z.of_nat k ∧
      ackOffset s = Z.of_nat (length (bytes_of_items (take k its))) ∧
      ∀ it, it ∈ take k its → it.1 <= ackedThrough s.
Proof.
  intros H Hsg. pose proof (r_segs _ _ _ _ _ H) as Hs. rewrite Hsg in Hs.
  destruct itss as [|its itss]; [by inversion Hs|]. apply Forall2_cons in Hs as [Hh _].
  exists its, itss. split_and!; [done|done| |exact (r_cursor _ _ _ _ _ H)].
  pose proof (m_items _ _ _ _ (r_meets _ _ _ _ _ H)) as Hi. simpl in Hi. by eapply appended_prefix.
Qed.

(** The cursor moved over [j] more records of the first segment. *)
Definition move_cursor (s : Spool) (j : nat) (its : list item) (k : nat) (fp : Z) : Spool :=
  set_firstPending
    (set_cursor s (ackedInFirst s + Z.of_nat j)
       (ackOffset s + Z.of_nat (length (bytes_of_items (take j (drop k its)))))) fp.

Lemma move_cursor_rep b s fs its itss c k j fp :
  rep b s fs (its :: itss) c → (k + j <= length its)%nat → ackedInFirst s = Z.of_nat k →
  ackOffset s = Z.of_nat (length (bytes_of_items (take k its))) →
  (∀ it, it ∈ take k its → it.1 <= ackedThrough s) →
  (∀ it, it ∈ take j (drop k its) → it.1 <= ackedThrough s) →
  (∀ it, it ∈ take (k + j) its → drop (k + j) its ++ concat itss ≠ [] → it.1 < fp) →
  (∀ it, it ∈ drop (k + j) its ++ concat itss → 0 < fp <= it.1) →
  rep (firm b) (move_cursor s j its k fp) fs (its :: itss) c ∧
  view (move_cursor s j its k fp) (its :: itss) = drop (k + j) its ++ concat itss.
Proof.
  intros H Hkj Hk Ho Hle Hle' Hbefore Hafter.
  assert (Hn : Z.to_nat (ackedInFirst (move_cursor s j its k fp)) = (k + j)%nat).
  { cbn [ackedInFirst move_cursor set_firstPending set_cursor]. lia. }
  assert (Hv : view (move_cursor s j its k fp) (its :: itss) = drop (k + j) its ++ concat itss).
  { unfold view. rewrite Hn. cbn [concat]. by rewrite drop_app_le by lia. }
  split; [|done]. eapply rep_set_cursor; try done.
  - exists (k + j)%nat. cbn [ackedInFirst ackOffset ackedThrough move_cursor set_firstPending set_cursor].
    split_and!; [done|lia| |].
    + rewrite <- take_take_drop, bytes_of_items_app, length_app, Ho. lia.
    + intros it. rewrite <- take_take_drop, elem_of_app. intros [Hit|Hit]; [by apply Hle|by apply Hle'].
  - unfold first_ok. rewrite Hv, Hn. cbn [concat]. rewrite take_app_le by lia. intros Hne.
    cbn [firstPending move_cursor set_firstPending].
    destruct (drop (k + j) its ++ concat itss) as [|it0 l] eqn:E; [done|].
    split_and!; [apply (Hafter it0); set_solver| |].
    + intros it Hit. by apply Hafter.
    + intros it Hit. by apply Hbefore.
Qed.

(** All the records of the first segment are acknowledged. *)
Lemma move_cursor_end b s fs its itss c sg rest k :
  rep b s fs (its :: itss) c → segs s = sg :: rest → (k <= length its)%nat → ackedInFirst s = Z.of_nat k →
  ackOffset s = Z.of_nat (length (bytes_of_items (take k its))) →
  (∀ it, it ∈ its → it.1 <= ackedThrough s) →
  rep (firm b) (move_cursor s (length its - k) its k (u64 (last sg + 1))) fs (its :: itss) c ∧ ¬ head_live s.
Proof.
  intros H Hsg Hk Hak Ho Hle. pose proof (r_segs _ _ _ _ _ H) as Hs. rewrite Hsg in Hs.
  apply Forall2_cons in Hs as [Hh _]. pose proof (m_items _ _ _ _ (r_meets _ _ _ _ _ H)) as Hi.
  pose proof (m_ok _ _ _ _ (r_meets _ _ _ _ _ H)) as Hok. cbn [concat] in Hi, Hok.
  pose proof (proj1 (appended_app _ _ _) Hi) as [Hi1 Hi2].
  rewrite (h_last _ _ _ Hh).
  assert (Hkj : (k + (length its - k) = length its)%nat) by lia.
  assert (Hu : ∀ it, it ∈ concat itss → u64 (last_of its + 1) = last_of its + 1 ∧ last_of its < it.1 ∧ 0 <= last_of its).
  { intros it Hit. pose proof (appended_gt _ _ _ Hi2 Hit) as Hgt. fold (last_of its) in Hgt.
    rewrite Forall_app in Hok. destruct Hok as [_ Hok]. rewrite Forall_forall in Hok.
    pose proof (appended_last_ge _ _ Hi1 : 0 <= last_of its).
    destruct (Hok it Hit) as [[Hu1 Hu2] _]. split_and!; [|done|done]. apply u64_small. split; lia. }
  split.
  - apply move_cursor_rep; try done; [lia| | | |].
    + intros it Hit. apply Hle. by eapply in_take.
    + intros it Hit. apply Hle. by eapply in_drop, in_take.
    + rewrite Hkj, drop_ge, app_nil_l by lia. intros it Hit Hne. apply in_take in Hit.
      destruct (concat itss) as [|it0 l] eqn:E; [done|]. destruct (Hu it0) as (Hu1 & Hu2 & Hu3); [set_solver|].
      rewrite Hu1. pose proof (last_of_ge _ _ Hi1 Hit). lia.
    + rewrite Hkj, drop_ge, app_nil_l by lia. intros it Hit. destruct (Hu it Hit) as (Hu1 & Hu2 & Hu3). lia.
  - intros Hlive. specialize (Hlive sg rest Hsg). rewrite (h_last _ _ _ Hh) in Hlive.
    destruct (decide (its = [])) as [->|Hne].
    + pose proof (r_acked _ _ _ _ _ H). unfold last_of in Hlive. simpl in Hlive. lia.
    + destruct (last_of_elem its Hne) as (it & Hit & He). specialize (Hle it Hit). lia.
Qed.

(** The first record that is not acknowledged is in the first segment. *)
Lemma move_cursor_mid b s fs its itss c k j it0 l :
  rep b s fs (its :: itss) c → (k <= length its)%nat → ackedInFirst s = Z.of_nat k →
  ackOffset s = Z.of_nat (length (bytes_of_items (take k its))) →
  (∀ it, it ∈ take k its → it.1 <= ackedThrough s) →
  (∀ it, it ∈ take j (drop k its) → it.1 <= ackedThrough s) →
  drop j (drop k its) = it0 :: l → ackedThrough s < it0.1 →
  rep (firm b) (move_cursor s j its k it0.1) fs (its :: itss) c ∧ exact (move_cursor s j its k it0.1) (its :: itss).
Proof.
  intros H Hk Hak Ho Hle Hle' Hdrop Hgt. rewrite drop_drop in Hdrop.
  assert (Hlen : (k + j <= length its)%nat).
  { apply (f_equal length) in Hdrop. rewrite length_drop in Hdrop. simpl in Hdrop. lia. }
  pose proof (m_items _ _ _ _ (r_meets _ _ _ _ _ H)) as Hi. cbn [concat] in Hi.
  rewrite <- (take_drop (k + j) its), <- app_assoc, Hdrop in Hi.
  pose proof (proj1 (appended_app _ _ _) Hi) as [Hi1 Hi2].
  pose proof (r_acked _ _ _ _ _ H) as Hpos.
  assert (Hge : ∀ it, it ∈ drop (k + j) its ++ concat itss → it0.1 <= it.1).
  { rewrite Hdrop. intros it. rewrite <- app_comm_cons, elem_of_cons. intros [->|Hit]; [lia|].
    destruct it0 as [q0 p0]. destruct Hi2 as (_ & _ & _ & Hi2). pose proof (appended_gt _ _ _ Hi2 Hit). simpl. lia. }
  destruct (move_cursor_rep b s fs its itss c k j it0.1 H Hlen Hak Ho Hle Hle') as [Hrep Hv].
  - intros it Hit _. eapply appended_before; [exact Hi|done|set_solver].
  - intros it Hit. specialize (Hge it Hit). lia.
  - split; [done|]. intros it Hit. rewrite Hv in Hit. specialize (Hge it Hit).
    change (ackedThrough (move_cursor s j its k it0.1)) with (ackedThrough s). lia.
Qed.

Lemma h_advance b a itss0 live :
  hoare (λ s fs, dropping b a itss0 s fs ∧ (live = true → head_live s)) advanceAckCursor
    (λ _, advanced (firm b) a itss0 live) (dropping b a itss0) (down b).
Proof.
  unfold advanceAckCursor. apply h_get. intros s0. destruct (segs s0) as [|sg rest] eqn:Hsg.
  { apply h_modify. intros s fs (-> & (gone & itss & c & H & Hd & Ha & Hg) & _). exists gone, itss, c.
    pose proof (r_segs _ _ _ _ _ H) as Hs. rewrite Hsg in Hs. apply Forall2_nil_inv_l in Hs as ->.
    split_and!; [|done|done|done|].
    - eapply rep_set_cursor; try done.
    - intros _ it Hit. unfold view in Hit. simpl in Hit. set_solver. }
  destruct (Z.ltb_spec (ackedThrough s0) (base sg)) as [Hlt|Hge].
  { apply h_modify. intros s fs (-> & (gone & itss & c & H & Hd & Ha & Hg) & _). exists gone, itss, c.
    destruct (advance_to_base _ _ _ _ _ _ _ H Hsg Hlt). split_and!; done. }
  eapply h_pre; [|apply (h_ex (λ (x : list (list item) * list item * list (list item) * Z * nat) s fs,
    let '(gone, its, itss, c, k) := x in
    (s = s0 ∧ fs !! path sg = Some (bytes_of_items its)) ∧
    (itss0 = gone ++ its :: itss ∧ ackedThrough s = a ∧ (∀ it, it ∈ concat gone → it.1 <= a)) ∧
    rep b s fs (its :: itss) c ∧ count sg = Z.of_nat (length its) ∧ 0 <= reported sg ∧
    (appended 0 its ∧ (k <= length its)%nat ∧ ackedInFirst s0 = Z.of_nat k ∧
     ackOffset s0 = Z.of_nat (length (bytes_of_items (take k its))) ∧
     (∀ it, it ∈ take k its → it.1 <= ackedThrough s0) ∧ (live = true → head_live s0))))].
  { intros s fs (-> & (gone & itss & c & H & -> & Ha & Hg) & Hlive).
    destruct (rep_head _ _ _ _ _ _ _ H Hsg) as (its & itss' & -> & Hh & Hi & k & Hk & Hak & Ho & Hle).
    exists (gone, its, itss', c, k). split_and!; try done; apply Hh. }
  intros [[[[gone its] itss] c] k].
  eapply h_pure; [intros s fs (_ & _ & _ & _ & _ & H); exact H|]. intros (Hi & Hk & Hak & Ho & Hle & Hlive).
  destruct (fold_ack (ackedThrough s0) (drop k its) 0 (ackOffset s0)) as (j & Hj & Hfold & Hjle & Hhd).
  rewrite length_drop in Hj.
  eapply h_bind; [eapply (h_walk_segment sg (ackOffset s0) _ _ _ _ _ its k); try done|].
  { intros s fs ((_ & H) & _). exact H. }
  { intros s fs (_ & (H1 & H2 & H3) & Hr & _). exists gone, (its :: itss), c. done. }
  { intros s fs (_ & _ & Hr & _). by eapply rep_down. }
  intros [stats [[acked off] pend]]. cbn [fst snd]. rewrite Hfold.
  eapply h_pure; [intros s fs (_ & H1 & H2); exact (conj H1 H2)|]. intros [Hsk [= -> -> ->]].
  set (fp := match drop j (drop k its) with [] => u64 (last sg + 1) | it :: _ => it.1 end).
  assert (Hmid : ∀ s fs, s = s0 → rep b s fs (its :: itss) c → count sg = Z.of_nat (length its) →
    rep (firm b) (move_cursor s0 j its k fp) fs (its :: itss) c ∧
    (head_live s0 → exact (move_cursor s0 j its k fp) (its :: itss))).
  { intros s fs -> Hrep Hcnt. unfold fp. destruct (drop j (drop k its)) as [|it0 l] eqn:E.
    - assert (j = (length its - k)%nat) as ->.
      { apply (f_equal length) in E. rewrite !length_drop in E. simpl in E. lia. }
      destruct (move_cursor_end b s0 fs its itss c sg rest k) as [H1 H2]; try done.
      { intros it. rewrite <- (take_drop k its), elem_of_app. intros [Hit|Hit]; [by apply Hle|].
        apply Hjle. by rewrite take_ge by (rewrite length_drop; lia). }
    - destruct (move_cursor_mid b s0 fs its itss c k j it0 l) as [H1 H2]; try done.
      by apply Hhd. }
  apply h_modify_bind, h_modify_bind, h_modify.
  intros s fs (s2 & -> & s1 & -> & (((-> & _) & (Hd & Ha & Hg) & Hrep & Hcnt & Hrp & _) & _)).
  destruct (Hmid s0 fs eq_refl Hrep Hcnt) as [Hr Hex]. rewrite no_new_damage.
  2: { rewrite Hsg. intros sg' [= <-]. done. }
  2: { done. }
  match goal with |- advanced _ _ _ _ ?s' _ => assert (s' = move_cursor s0 j its k fp) as -> end.
  { unfold move_cursor, fp. destruct (drop j (drop k its)) as [|it0 l] eqn:E.
    - cbn [ackedInFirst set_cursor]. rewrite Hak, Hcnt. rewrite Z.eqb_refl.
      destruct (Z.ltb_spec (Z.of_nat (length its)) (Z.of_nat k + (0 + Z.of_nat j))); [lia|].
      unfold set_cursor, set_firstPending. simpl. done.
    - assert (Hnz : it0.1 <> 0).
      { pose proof (r_acked _ _ _ _ _ Hrep). specialize (Hhd it0 eq_refl). lia. }
      apply Z.eqb_neq in Hnz. rewrite Hnz. done. }
  exists gone, (its :: itss), c. split_and!; try done. auto.
Qed.

(** ** The checkpoint *)

Lemma h_Write c name bs P (Q : bool → assertion) E C :
  (∀ s fs, P s fs → Q true s (append_to name bs fs)) →
  (∀ n s fs, (c = CWrite → n = 0%nat) → P s fs → Q false s (append_to name (take n bs) fs)) →
  (∀ n s fs, P s fs → C s (append_to name (take n bs) fs)) →
  hoare P (Write c name bs) Q E C.
Proof.
  intros HQ HF HC s Hf Hs. unfold Write, mbind, M_bind.
  destruct (fate_spec c s Hf) as (x & Hx & Hsp & Hfs & Hf' & Hw & _).
  destruct (fate c s) as [s' r]. simpl in *. subst r. unfold at_st in *. rewrite <- Hsp, <- Hfs in Hs.
  destruct x as [|n|n]; simpl.
  - split; [done|]. by apply HQ.
  - split; [done|]. apply HF; [|done]. intros ->. destruct n; [done|]. by destruct (Hw eq_refl n).
  - split; [done|]. by apply HC.
Qed.

Lemma meets_checkpoint b s items c c' :
  meets b s items c → c' <= acked_max b → top b <= Z.max c' (last_of items) → meets b s items c'.
Proof. intros [] H1 H2. by constructor. Qed.

Lemma rep_disk b s fs fs' itss c c' :
  rep b s fs itss c → (∀ n, is_Some (parseSegmentName n) → fs' !! n = fs !! n) → checkpoint_is fs' c' →
  ackedThrough s <= c' <= lastSeq s → c' <= acked_max b → rep b s fs' itss c'.
Proof.
  intros [Hs Hn Ha Hm Hl Hc Hk Hw Hb Hcur Hf] Hfs Hck Hle Hmax. constructor; try done.
  - eapply Forall2_impl; [exact Hs|]. intros sg its Hh. eapply holds_other; [|done]. apply Hfs. by eapply holds_name.
  - intros n Hin Hp. apply Ha; [|done]. by rewrite <- Hfs.
  - eapply meets_checkpoint; [done|done|]. pose proof (m_top _ _ _ _ Hm). lia.
  - lia.
  - lia.
Qed.

(** The spool before and after the checkpoint: nothing else changes. *)
Definition at_checkpoint (b : duty) (s0 : Spool) (itss : list (list item)) (c : Z) : assertion := λ s fs,
  s = s0 ∧ rep b s fs itss c.

Lemma at_checkpoint_temp b s0 itss c s fs x :
  at_checkpoint b s0 itss c s fs →
  at_checkpoint b s0 itss c s (<[checkpointTemp := x]> fs) ∧ at_checkpoint b s0 itss c s (delete checkpointTemp fs).
Proof.
  intros [-> H]. pose proof (r_acked _ _ _ _ _ H). pose proof (r_last _ _ _ _ _ H).
  pose proof (m_acked _ _ _ _ (r_meets _ _ _ _ _ H)). pose proof (r_ck _ _ _ _ _ H) as Hck.
  unfold checkpoint_is in Hck.
  split; (split; [done|]); (eapply rep_disk; [exact H| | |lia|lia]).
  - intros n [? Hn]. apply lookup_insert_ne. intros <-. done.
  - unfold checkpoint_is. by rewrite lookup_insert_ne.
  - intros n [? Hn]. apply lookup_delete_ne. intros <-. done.
  - unfold checkpoint_is. by rewrite lookup_delete_ne.
Qed.

Lemma at_checkpoint_down b s0 itss c s fs : at_checkpoint b s0 itss c s fs → down b s fs.
Proof. intros [-> H]. by eapply rep_down. Qed.

Lemma h_discard b s0 itss c {A} e (Q : A → assertion) (E : assertion) :
  (∀ s fs, at_checkpoint b s0 itss c s fs → E s fs) →
  hoare (at_checkpoint b s0 itss c) (try (Remove checkpointTemp);; raise e) Q E (down b).
Proof.
  intros HE. eapply h_bind with (Q := λ _, at_checkpoint b s0 itss c); [|intros r; by apply h_raise].
  apply h_try. apply h_syscall.
  - intros s fs H. by apply (at_checkpoint_temp b s0 itss c s fs []).
  - right. done.
  - apply at_checkpoint_down.
  - intros s fs H. eapply at_checkpoint_down. by apply (at_checkpoint_temp b s0 itss c s fs []).
Qed.

Lemma rep_seq_range b s fs itss c : rep b s fs itss c → is_u64 (lastSeq s).
Proof.
  intros H. destruct (r_last _ _ _ _ _ H) as [Hl _]. rewrite Hl. pose proof (r_acked _ _ _ _ _ H) as Ha.
  assert (is_u64 c) as Hc by (destruct (r_ck _ _ _ _ _ H) as [[_ ->]|[_ ?]]; [split; [lia|done]|done]).
  assert (is_u64 (last_of (concat itss))) as Hu.
  { destruct (decide (concat itss = [])) as [->|Hne]; [done|]. destruct (last_of_elem _ Hne) as (it & Hit & <-).
    pose proof (m_ok _ _ _ _ (r_meets _ _ _ _ _ H)) as Hok. rewrite Forall_forall in Hok. by apply Hok. }
  unfold is_u64 in *. lia.
Qed.

Lemma h_writeCheckpoint b s0 itss c seq :
  ackedThrough s0 < seq <= lastSeq s0 → seq <= acked_max b →
  hoare (at_checkpoint b s0 itss c) (writeCheckpoint seq)
    (λ _, at_checkpoint b s0 itss seq) (λ s fs, ∃ c, at_checkpoint b s0 itss c s fs) (down b).
Proof.
  intros Hseq Hmax. unfold writeCheckpoint. set (P := at_checkpoint b s0 itss c). set (E := λ s fs, ∃ c, _).
  assert (HE : ∀ s fs, P s fs → E s fs) by (intros s fs H; by exists c).
  assert (HC : ∀ s fs, P s fs → down b s fs) by (apply at_checkpoint_down).
  assert (Htmp : ∀ x s fs, P s fs → P s (<[checkpointTemp := x]> fs)).
  { intros x s fs H. by apply (at_checkpoint_temp b s0 itss c s fs x). }
  set (W := λ x s fs, P s fs ∧ fs !! checkpointTemp = Some x).
  assert (HWE : ∀ x s fs, W x s fs → E s fs) by (intros x s fs [H _]; by apply HE).
  assert (HWC : ∀ x s fs, W x s fs → down b s fs) by (intros x s fs [H _]; by apply HC).
  eapply h_bind with (Q := λ _, W []).
  { apply h_syscall; [|right; done|done|].
    - intros s fs H. split; [by apply Htmp|apply lookup_insert_eq].
    - intros s fs H. by apply HC, Htmp. }
  intros []. eapply h_bind with (Q := λ ok s fs, P s fs ∧ (ok = true → W (checkpoint_bytes seq) s fs)).
  { apply h_Write.
    - intros s fs [H Ht]. unfold append_to. rewrite Ht. split; [by apply Htmp|].
      intros _. split; [by apply Htmp|apply lookup_insert_eq].
    - intros n s fs _ [H Ht]. unfold append_to. split; [by apply Htmp|done].
    - intros n s fs [H Ht]. by apply HC, Htmp. }
  intros ok. eapply h_bind with (Q := λ _, W (checkpoint_bytes seq)).
  { destruct ok; simpl.
    - apply h_ret. intros s fs [_ H]. by apply H.
    - eapply h_pre; [intros s fs [H _]; exact H|].
      eapply h_bind with (Q := λ _, P); [apply h_try, h_call; auto|]. intros r. by apply h_discard. }
  intros []. eapply h_bind with (Q := λ _, W (checkpoint_bytes seq)).
  { apply h_try, h_call; [done|]. apply HWC. }
  intros r. eapply h_bind with (Q := λ _, W (checkpoint_bytes seq)).
  { destruct r; [by apply h_ret|]. eapply h_pre; [intros s fs [H _]; exact H|].
    eapply h_bind with (Q := λ _, P); [apply h_try, h_call; auto|]. intros r'. by apply h_discard. }
  intros []. eapply h_bind with (Q := λ _, W (checkpoint_bytes seq)).
  { unfold or_remove. eapply h_bind with (Q := λ _, W (checkpoint_bytes seq));
      [apply h_try, h_call; [done|apply HWC]|].
    intros [u|e]; [by apply h_ret|]. eapply h_pre; [intros s fs [H _]; exact H|]. by apply h_discard. }
  intros []. set (R := at_checkpoint b s0 itss seq).
  assert (Hren : ∀ s fs, W (checkpoint_bytes seq) s fs →
    R s (<[checkpointName := default [] (fs !! checkpointTemp)]> (delete checkpointTemp fs))).
  { intros s fs [[-> H] Ht]. rewrite Ht. split; [done|]. eapply rep_disk; [exact H| | |lia|lia].
    - intros n [? Hn]. rewrite lookup_insert_ne, lookup_delete_ne; [done| |]; by intros <-.
    - right. rewrite lookup_insert_eq. split; [done|]. pose proof (rep_seq_range _ _ _ _ _ H).
      pose proof (r_acked _ _ _ _ _ H). unfold is_u64 in *. lia. }
  eapply h_bind with (Q := λ _, R).
  { unfold or_remove. eapply h_bind with (Q := λ r s fs, match r with Ok _ => R s fs | Err _ => P s fs end).
    - apply h_try, h_syscall; [done|right|apply HWC|].
      + intros s fs [H _] e. exact H.
      + intros s fs H. apply Hren in H. by eapply at_checkpoint_down.
    - intros [u|e]; [by apply h_ret|by apply h_discard]. }
  intros []. apply h_syncDir; [|apply at_checkpoint_down]. intros s fs H. by exists seq.
Qed.

(** ** Totals *)

Lemma sum_of_app f l k : sum_of f (l ++ k) = sum_of f l + sum_of f k.
Proof. unfold sum_of. induction l as [|sg l IH]; simpl; [lia|]. lia. Qed.

Lemma sum_counts fs sgs itss : Forall2 (holds fs) sgs itss → sum_of count sgs = Z.of_nat (length (concat itss)).
Proof.
  unfold sum_of. induction 1 as [|sg its sgs itss Hh _ IH]; [done|]. simpl.
  rewrite IH, (h_count _ _ _ Hh), length_app. lia.
Qed.

Lemma cursor_range b s fs itss c :
  rep b s fs itss c → 0 <= ackedInFirst s <= Z.of_nat (length (concat itss)).
Proof.
  intros H. pose proof (r_cursor _ _ _ _ _ H) as Hc. destruct itss as [|its itss]; simpl in Hc.
  - destruct Hc as [-> _]. done.
  - destruct Hc as (k & Hk & -> & _). simpl. rewrite length_app. lia.
Qed.

(** [recount] makes the totals right and keeps what the invariant says. *)
Lemma recount_rep b s fs itss c :
  rep b s fs itss c →
  rep b (recount s) fs itss c ∧ totals_ok (recount s) ∧
  pending (recount s) = Z.of_nat (length (view s itss)) ∧ view (recount s) itss = view s itss.
Proof.
  intros H. pose proof (cursor_range _ _ _ _ _ H) as Hr. pose proof (sum_counts _ _ _ (r_segs _ _ _ _ _ H)) as Hsum.
  assert (Hv : Z.of_nat (length (view s itss)) = sum_of count (segs s) - ackedInFirst s).
  { unfold view. rewrite length_drop, Hsum. lia. }
  assert (Hp : pending (recount s) = Z.of_nat (length (view s itss))).
  { unfold recount. cbn [pending set_totals]. destruct (Z.ltb_spec (sum_of count (segs s) - ackedInFirst s) 0); lia. }
  split_and!; [|split_and!|done|done].
  - eapply rep_cursor; try done; [exact (r_cursor _ _ _ _ _ H)|]. intros Htr Hne.
    change (view (recount s) itss) with (view s itss) in *.
    assert (Hfp : firstPending (recount s) = firstPending s).
    { assert (Hpos : pending (recount s) ≠ 0). { rewrite Hp. destruct (view s itss); [done|]. simpl. lia. }
      revert Hpos. unfold recount. cbn [pending firstPending set_totals]. by intros ->%Z.eqb_neq. }
    rewrite Hfp. exact (r_first _ _ _ _ _ H Htr Hne).
  - done.
  - rewrite Hp. cbn [segs ackedInFirst recount set_totals]. lia.
  - unfold recount. cbn [pending firstPending set_totals]. by intros ->.
Qed.

Lemma dropping_recount b a itss0 s fs :
  dropping b a itss0 s fs → dropping b a itss0 (recount s) fs ∧ totals_ok (recount s).
Proof.
  intros (gone & itss & c & H & Hd). destruct (recount_rep _ _ _ _ _ H) as (Hr & Ht & _).
  split; [|done]. by exists gone, itss, c.
Qed.

Lemma publish_same s : same_rep s (publishMetrics s).
Proof. same_fields. Qed.

Lemma dropping_same b a itss0 s s' fs : same_rep s s' → dropping b a itss0 s fs → dropping b a itss0 s' fs.
Proof.
  intros Hs (gone & itss & c & H & Hd & Ha & Hg). exists gone, itss, c.
  split_and!; [by eapply rep_same|done| |done]. destruct Hs as (_ & _ & _ & -> & _). done.
Qed.

(** ** Acknowledging *)

(** After a cleanup: whether or not it succeeded, only acknowledged records are gone;
    when it did, none is left to be read. *)
Definition cleaned (b : duty) (a : Z) (itss0 : list (list item)) (ok : bool) : assertion := λ s fs,
  ∃ gone itss c, rep b s fs itss c ∧ itss0 = gone ++ itss ∧ ackedThrough s = a ∧
    (∀ it, it ∈ concat gone → it.1 <= a) ∧ totals_ok s ∧ (ok = true → exact s itss).

Lemma cleaned_full b a itss0 ok s fs : cleaned b a itss0 ok s fs → full b s fs.
Proof. intros (gone & itss & c & H & _ & _ & _ & Ht & _). split; [by exists itss, c|done]. Qed.

Lemma h_cleanup b a itss0 :
  tracked b = true →
  hoare (dropping b a itss0) cleanup (λ _, cleaned b a itss0 true) (cleaned b a itss0 false) (down b).
Proof.
  intros Htr. unfold cleanup.
  eapply h_bind with (Q := λ d s fs, dropping b a itss0 s fs ∧ (match d with Ok _ => head_live s | Err _ => True end)).
  { apply h_try. unfold dropAckedSegments. apply h_get. intros s0. eapply h_pre; [|eapply h_post; [| | |apply h_drop_acked]].
    - intros s fs [-> H]. split; [exact H|]. done.
    - intros [] s fs H. exact H.
    - intros s fs H e. done.
    - done. }
  intros d. set (live := match d with Ok _ => true | Err _ => false end).
  eapply h_bind with (Q := λ c s fs, dropping b a itss0 s fs ∧
    match c with Ok _ => advanced b a itss0 live s fs | Err _ => True end).
  { apply h_try. eapply h_pre; [|eapply h_post; [| | |apply (h_advance b a itss0 live)]]; rewrite ?(firm_id b Htr).
    - intros s fs [H Hd]. split; [done|]. by destruct d.
    - intros [] s fs H. split; [by eapply advanced_dropping|done].
    - intros s fs H e. done.
    - done. }
  intros c. set (ok := match c with Ok _ => live | Err _ => false end).
  apply h_modify_bind, h_modify_bind.
  eapply h_pre with (P' := cleaned b a itss0 ok).
  { intros s fs (s2 & -> & s1 & -> & Hd & Hadv).
    assert (H : ∃ gone itss c, rep b s1 fs itss c ∧ itss0 = gone ++ itss ∧ ackedThrough s1 = a ∧
      (∀ it, it ∈ concat gone → it.1 <= a) ∧ (ok = true → exact s1 itss)).
    { unfold ok. destruct c as [u|e]; [exact Hadv|]. destruct Hd as (gone & itss & c' & H1 & H2 & H3 & H4).
      exists gone, itss, c'. done. }
    destruct H as (gone & itss & c' & H1 & H2 & H3 & H4 & H5). exists gone, itss, c'.
    destruct (recount_rep _ _ _ _ _ H1) as (Hr & Ht & _ & _).
    split_and!; try done. eapply rep_same; [|exact Hr]. apply publish_same. }
  assert (Hweak : ∀ s fs, cleaned b a itss0 ok s fs → cleaned b a itss0 false s fs).
  { intros s fs (gone & itss & c' & H1 & H2 & H3 & H4 & H5 & _). by exists gone, itss, c'. }
  unfold ok, live in *. destruct d, c; (by apply h_ret) || (by apply h_raise).
Qed.

Lemma rep_acked b s fs itss seq :
  rep b s fs itss seq → ackedThrough s < seq → rep b (set_ackedThrough s seq) fs itss seq.
Proof.
  intros [Hs Hn Ha Hm Hl Hc Hk Hw Hb Hcur Hf] Hlt. constructor; try done.
  - eapply meets_covered; [|done]. done.
  - cbn [lastSeq ackedThrough set_ackedThrough]. lia.
  - cbn [ackedThrough set_ackedThrough]. lia.
  - destruct itss as [|its itss]; [done|]. destruct Hcur as (k & H1 & H2 & H3 & H4).
    exists k. split_and!; [done..|]. intros it Hit. specialize (H4 it Hit). cbn [ackedThrough set_ackedThrough]. lia.
Qed.

Lemma rep_dropping b s fs itss c : rep b s fs itss c → dropping b (ackedThrough s) itss s fs.
Proof. intros H. exists [], itss, c. split_and!; [done|done|done|set_solver]. Qed.

(** [Ack] on the spool [s0] that holds [itss0]. *)
Lemma h_Ack b s0 itss0 seq :
  tracked b = true → 0 <= seq <= acked_max b →
  hoare (λ s fs, s = s0 ∧ (∃ c, rep b s fs itss0 c) ∧ totals_ok s) (Ack seq)
    (λ _ s fs, (s = s0 ∧ Z.min seq (lastSeq s0) = 0 ∧ full b s fs) ∨
               cleaned b (Z.max (ackedThrough s0) (Z.min seq (lastSeq s0))) itss0 true s fs)
    (full b) (down b).
Proof.
  intros Htr Hseq. unfold Ack. apply h_get. intros s1.
  eapply h_pre with (P' := λ s fs, (s = s0 ∧ s1 = s0) ∧ full b s fs ∧ ∃ c, rep b s fs itss0 c).
  { intros s fs (-> & -> & (c & H) & Ht). split; [done|]. split; [|by exists c]. split; [by exists itss0, c|done]. }
  eapply h_pure; [intros s fs ((-> & H) & [_ Ht] & _); exact (conj H Ht)|]. intros [-> Htot].
  destruct (closed s0); [apply h_raise; intros s fs (_ & H & _); exact H|].
  destruct (Z.eqb_spec seq 0) as [->|Hnz].
  { apply h_ret. intros s fs ((-> & _) & H & c & Hr). left. split_and!; [done| |done].
    pose proof (rep_seq_range _ _ _ _ _ Hr) as [? _]. lia. }
  replace (if lastSeq s0 <? seq then lastSeq s0 else seq) with (Z.min seq (lastSeq s0)).
  2: { destruct (Z.ltb_spec (lastSeq s0) seq); lia. }
  set (q := Z.min seq (lastSeq s0)). destruct (Z.eqb_spec q 0) as [Hz|Hqz].
  { apply h_ret. intros s fs ((-> & _) & H & _). by left. }
  set (a := Z.max (ackedThrough s0) q).
  eapply h_bind with (Q := λ _, dropping b a itss0).
  - destruct (Z.ltb_spec (ackedThrough s0) q) as [Hlt|Hge].
    + eapply h_pre; [|apply (h_ex (λ c, at_checkpoint b s0 itss0 c))].
      { intros s fs ((-> & _) & _ & c & Hr). exists c. done. }
      intros c. eapply h_bind with (Q := λ _, at_checkpoint b s0 itss0 q).
      * eapply h_post; [| | |apply (h_writeCheckpoint b s0 itss0 c q); lia].
        -- done.
        -- intros s fs (c' & -> & H). split; [by exists itss0, c'|done].
        -- done.
      * intros []. apply h_modify. intros s fs [-> H]. apply rep_acked in H; [|done].
        apply rep_dropping in H. cbn [ackedThrough set_ackedThrough] in H. unfold a. by rewrite Z.max_r by lia.
    + apply h_ret. intros s fs ((-> & _) & _ & c & Hr). unfold a. rewrite Z.max_l by lia. by eapply rep_dropping.
  - intros []. eapply h_post; [| | |by apply h_cleanup].
    + intros [] s fs H. by right.
    + intros s fs H. by eapply cleaned_full.
    + done.
Qed.

(** ** Evicting the oldest segments *)

Lemma recordLoss_covers n low high s q :
  0 < low → covered s q ∨ (0 < n ∧ low <= q <= high) → covered (recordLoss n low high s) q.
Proof.
  intros Hlow H. unfold recordLoss. destruct (Z.leb_spec n 0) as [Hn|Hn].
  { destruct H as [H|[? _]]; [done|lia]. }
  unfold covered in *. cbn [droppedLow droppedHigh set_metrics set_dropped].
  destruct (Z.eqb_spec (droppedLow s) 0) as [Hz|Hz], (Z.ltb_spec 0 low), (Z.ltb_spec low (droppedLow s)),
    (Z.ltb_spec (droppedHigh s) high); simpl; lia.
Qed.

Lemma rep_recordLoss b s fs itss c n low high :
  0 < low → rep b s fs itss c → rep b (recordLoss n low high s) fs itss c.
Proof.
  intros Hlow [Hs Hn Ha Hm Hl Hc Hk Hw Hb Hcur Hf].
  assert (Hsame : segs (recordLoss n low high s) = segs s ∧ w (recordLoss n low high s) = w s ∧
    lastSeq (recordLoss n low high s) = lastSeq s ∧ ackedThrough (recordLoss n low high s) = ackedThrough s ∧
    firstPending (recordLoss n low high s) = firstPending s ∧ ackedInFirst (recordLoss n low high s) = ackedInFirst s ∧
    ackOffset (recordLoss n low high s) = ackOffset s).
  { unfold recordLoss. destruct (n <=? 0); done. }
  destruct Hsame as (E1 & E2 & E3 & E4 & E5 & E6 & E7).
  constructor; unfold cursor_ok, first_ok, view in *; rewrite ?E1, ?E2, ?E3, ?E4, ?E5, ?E6, ?E7; try done.
  eapply meets_covered; [|done]. intros q Hq. apply recordLoss_covers; auto.
Qed.

(** The last segment holds the newest record. *)
Definition ends_live (itss : list (list item)) : Prop := ∀ l its, itss = l ++ [its] → its ≠ [].

Lemma ends_live_tail its itss : ends_live (its :: itss) → ends_live itss.
Proof. intros H l x ->. by apply (H (its :: l) x). Qed.

Lemma ends_live_concat its itss : ends_live (its :: itss) → concat (its :: itss) ≠ [].
Proof.
  intros H. destruct (exists_last (l := its :: itss)) as (l & x & E); [done|]. rewrite E, concat_app. simpl.
  rewrite app_nil_r. specialize (H l x E). intros [_ Hx]%app_nil. done.
Qed.

Definition evicting (b : duty) : assertion := λ s fs,
  ∃ itss c, rep b s fs itss c ∧ ends_live itss ∧ totals_ok s.

Lemma evicting_full b s fs : evicting b s fs → full b s fs.
Proof. intros (itss & c & H & _ & Ht). split; [by exists itss, c|done]. Qed.

Lemma evicting_down b s fs : evicting b s fs → down b s fs.
Proof. intros H. by apply full_down, evicting_full. Qed.

(** The first segment, its loss accounted for. *)
Definition condemned (b : duty) (sg : segment) (rest : list segment) : assertion := λ s fs,
  ∃ its itss c, rep b s fs (its :: itss) c ∧ ends_live (its :: itss) ∧ segs s = sg :: rest ∧ rest ≠ [] ∧
    (∀ it, it ∈ its → it.1 <= acked_max b ∨ covered s it.1) ∧ totals_ok s.

Lemma evict_loss b s fs sg next rest :
  tracked b = true → evicting b s fs → segs s = sg :: next :: rest →
  let lost := count sg - ackedInFirst s in
  let low := if (firstPending s =? 0) || (firstPending s <? base sg) then base sg else firstPending s in
  condemned b sg (next :: rest) (if 0 <? lost then recordLoss lost low (last sg) s else s) fs ∧ 0 < low.
Proof.
  intros Htr (itss & c & H & He & Ht) Hsg lost low.
  destruct (rep_head _ _ _ _ _ _ _ H Hsg) as (its & itss' & -> & Hh & Hi & k & Hk & Hak & Ho & Hle).
  destruct (r_base _ _ _ _ _ H 0%nat 0%nat sg its) as [Hb Hbi]; [by rewrite Hsg|done|lia|].
  pose proof (r_acked _ _ _ _ _ H) as Ha. pose proof (m_acked _ _ _ _ (r_meets _ _ _ _ _ H)) as Hc.
  assert (Hview : view s (its :: itss') = drop k its ++ concat itss').
  { unfold view. rewrite Hak, Nat2Z.id. simpl. by rewrite drop_app_le. }
  assert (Hlow : 0 < low).
  { unfold low. destruct (Z.eqb_spec (firstPending s) 0), (Z.ltb_spec (firstPending s) (base sg)); simpl; try lia. }
  assert (Hcov : ∀ it, it ∈ drop k its → 0 < lost ∧ low <= it.1 <= last sg).
  { intros it Hit. pose proof (last_of_ge _ _ Hi (in_drop _ _ _ Hit)) as Hl. rewrite <- (h_last _ _ _ Hh) in Hl.
    assert (Hin : it ∈ view s (its :: itss')) by (rewrite Hview; set_solver).
    destruct (r_first _ _ _ _ _ H Htr) as (Hf1 & Hf2 & _). { intros E. rewrite E in Hin. set_solver. }
    specialize (Hf2 it Hin). specialize (Hbi it (in_drop _ _ _ Hit)). split_and!; [| |done].
    - unfold lost. rewrite (h_count _ _ _ Hh), Hak. assert (k ≠ length its); [|lia].
      intros ->. rewrite drop_ge in Hit by lia. set_solver.
    - unfold low. destruct (_ || _); lia. }
  split; [|done]. destruct (Z.ltb_spec 0 lost) as [Hl|Hl].
  - exists its, itss', c. split_and!; [by apply rep_recordLoss|done| |done| |].
    + unfold recordLoss. by destruct (lost <=? 0).
    + intros it. rewrite <- (take_drop k its), elem_of_app. intros [Hit|Hit].
      * left. specialize (Hle it Hit). lia.
      * right. apply recordLoss_covers; [done|]. right. by apply Hcov.
    + unfold recordLoss. by destruct (lost <=? 0).
  - exists its, itss', c. split_and!; [done|done|done|done| |done].
    intros it. rewrite <- (take_drop k its), elem_of_app. intros [Hit|Hit].
    + left. specialize (Hle it Hit). lia.
    + destruct (Hcov it Hit). lia.
Qed.

Lemma condemned_gone b sg rest s fs :
  condemned b sg rest s fs → evicting b (recount (drop_first rest s)) (delete (path sg) fs).
Proof.
  intros (its & itss & c & H & He & Hsg & Hne & Hgone & _).
  assert (Hrest : itss ≠ []).
  { pose proof (r_segs _ _ _ _ _ H) as Hs. rewrite Hsg in Hs. apply Forall2_cons in Hs as [_ Hs].
    intros ->. by apply Forall2_nil_inv_r in Hs. }
  assert (Hr : rep b (drop_first rest s) (delete (path sg) fs) itss c).
  { eapply drop_first_rep; [exact H|done|done|done|]. left. apply ends_live_tail in He.
    destruct itss as [|x itss]; [done|]. by apply ends_live_concat. }
  destruct (recount_rep _ _ _ _ _ Hr) as (Hr' & Ht & _). exists itss, c.
  split_and!; [done|by eapply ends_live_tail|done].
Qed.

Lemma condemned_down b sg rest s fs : condemned b sg rest s fs → down b s fs.
Proof. intros (its & itss & c & H & _). by eapply rep_down. Qed.

Definition bounded (s : Spool) : Prop := bytes s <= MaxSize (opts s) ∨ (length (segs s) <= 1)%nat.

Lemma h_evict b fuel :
  tracked b = true →
  hoare (λ s fs, evicting b s fs ∧ (length (segs s) <= fuel)%nat) (evict fuel)
    (λ _ s fs, evicting b s fs ∧ bounded s) (evicting b) (down b).
Proof.
  intros Htr. induction fuel as [|fuel IH]; cbn [evict]; apply h_get; intros s0.
  { apply h_ret. intros s fs (-> & H & Hl). split; [done|]. right. lia. }
  destruct (segs s0) as [|sg [|next rest]] eqn:Hsg.
  { apply h_ret. intros s fs (-> & H & Hl). split; [done|]. right. rewrite Hsg. simpl. lia. }
  { apply h_ret. intros s fs (-> & H & Hl). split; [done|]. right. rewrite Hsg. simpl. lia. }
  destruct (Z.ltb_spec (MaxSize (opts s0)) (bytes s0)) as [Hbig|Hfit].
  2: { apply h_ret. intros s fs (-> & H & Hl). split; [done|]. by left. }
  set (lost := count sg - ackedInFirst s0).
  set (low := if (firstPending s0 =? 0) || (firstPending s0 <? base sg) then base sg else firstPending s0).
  eapply h_bind with (Q := λ _ s fs, condemned b sg (next :: rest) s fs ∧ (length (next :: rest) <= fuel)%nat).
  { destruct (0 <? lost) eqn:El; [apply h_modify|apply h_ret]; intros s fs (-> & H & Hl); rewrite Hsg in Hl;
      destruct (evict_loss b s0 fs sg next rest Htr H Hsg) as [Hc _]; fold lost low in Hc; rewrite El in Hc;
      (split; [exact Hc|simpl in *; lia]). }
  intros [].
  eapply h_bind with (Q := λ _ s fs, ∃ fs0, fs = delete (path sg) fs0 ∧ condemned b sg (next :: rest) s fs0 ∧
    (length (next :: rest) <= fuel)%nat).
  { apply h_syscall.
    - intros s fs [H Hl]. by exists fs.
    - right. intros s fs [(its & itss & c & H & He & _ & _ & _ & Ht) _]. by exists (its :: itss), c.
    - intros s fs [H _]. by eapply condemned_down.
    - intros s fs [H _]. apply condemned_gone, evicting_down in H. eapply down_covered; [|exact H]. done. }
  intros []. apply h_modify_bind.
  eapply h_pre with (P' := λ s fs, evicting b s fs ∧ (length (segs s) <= fuel)%nat).
  { intros s fs (s1 & -> & fs0 & -> & H & Hl). pose proof H as (its & itss & c & _ & _ & Hs & _).
    rewrite Hs. split; [|done]. by apply condemned_gone in H. }
  eapply h_bind with (Q := λ _ s fs, evicting b s fs ∧ (length (segs s) <= fuel)%nat); [|intros []; exact IH].
  apply h_syncDir; intros s fs [H _]; [done|by apply evicting_down].
Qed.

Lemma evicting_sync b : sync_stable (evicting b).
Proof.
  intros s fs (itss & c & H & He & Ht). split; intros x; exists itss, c; (split_and!; [|done|done]);
    (eapply rep_same; [|exact H]); same_fields.
Qed.

Lemma h_enforceMaxSize b :
  tracked b = true →
  hoare (evicting b) enforceMaxSize (λ _ s fs, evicting b s fs ∧ bounded s) (evicting b) (down b).
Proof.
  intros Htr. unfold enforceMaxSize. apply h_get. intros s0.
  eapply h_bind with (Q := λ _ s fs, evicting b s fs ∧ segs s = segs s0).
  { destruct (_ && _).
    - eapply h_pre; [|apply (h_sync (λ s fs, evicting b s fs ∧ segs s = segs s0))].
      + intros s fs [-> H]. done.
      + intros s fs [H Hs]. destruct (evicting_sync b s fs H) as [H1 H2]. split; intros x; (split; [|exact Hs]); auto.
      + by intros s fs [H _].
      + intros s fs [H _]. by apply evicting_down.
    - apply h_ret. intros s fs [-> H]. done. }
  intros []. eapply h_pre; [|by apply h_evict]. intros s fs [H ->]. split; [done|]. lia.
Qed.

(** ** Appending *)

Lemma last_seg_app l sg : last_seg (l ++ [sg]) = Some sg.
Proof.
  unfold last_seg. rewrite length_app. simpl. replace (length l + 1 - 1)%nat with (length l) by lia.
  by rewrite lookup_app_r, Nat.sub_diag by lia.
Qed.

Lemma last_seg_inv l sg : last_seg l = Some sg → ∃ l', l = l' ++ [sg].
Proof.
  intros H. destruct (decide (l = [])) as [->|Hne]; [done|]. destruct (exists_last Hne) as (l' & x & ->).
  rewrite last_seg_app in H. exists l'. by simplify_eq.
Qed.

Lemma set_last l (sg sg' : segment) : <[(length (l ++ [sg]) - 1)%nat := sg']> (l ++ [sg]) = l ++ [sg'].
Proof.
  rewrite length_app. simpl. replace (length l + 1 - 1)%nat with (length l + 0)%nat by lia.
  by rewrite insert_app_r.
Qed.

(** The active segment and what it holds. *)
Lemma rep_active b s fs itss c n :
  rep b s fs itss c → w s = Some n →
  ∃ sl sg l its, segs s = sl ++ [sg] ∧ itss = l ++ [its] ∧ path sg = n ∧ holds fs sg its ∧
    Forall2 (holds fs) sl l ∧ n ∉ path <$> sl.
Proof.
  intros H Hw. destruct (r_w _ _ _ _ _ H n Hw) as (sg & Hl & Hp). destruct (last_seg_inv _ _ Hl) as [sl Hsg].
  pose proof (r_segs _ _ _ _ _ H) as Hs. rewrite Hsg in Hs. apply Forall2_app_inv_l in Hs as (l & r & Hs & Hr & ->).
  apply Forall2_cons_inv_l in Hr as (its & r' & Hh & Hr & ->). apply Forall2_nil_inv_l in Hr as ->.
  exists sl, sg, l, its. split_and!; try done. pose proof (r_names _ _ _ _ _ H) as Hn.
  rewrite Hsg, fmap_app in Hn. apply NoDup_app in Hn as (_ & Hn & _). intros Hin. apply (Hn n Hin). simpl. set_solver.
Qed.

Lemma rep_new_segment b s fs itss c seq :
  rep b s fs itss c → fs !! segmentName seq = None → is_u64 seq → 0 < seq <= tried b →
  rep b (set_segs (set_w s (Some (segmentName seq))) (segs s ++ [mkSegment (segmentName seq) seq 0 0 0 0 0]))
    (<[segmentName seq := []]> fs) (itss ++ [[]]) c.
Proof.
  intros [Hs Hn Ha Hm Hl Hc Hk Hw Hb Hcur Hf] Hfresh Hu Htry.
  assert (Hname : is_Some (parseSegmentName (segmentName seq))) by (rewrite parse_segmentName; done).
  assert (Hnew : segmentName seq ∉ path <$> segs s).
  { intros Hin. apply list_elem_of_fmap in Hin as (sg & Hp & Hin). apply list_elem_of_lookup in Hin as [i Hi].
    destruct (Forall2_lookup_l _ _ _ _ _ Hs Hi) as (its & _ & Hh). rewrite Hp, (h_file _ _ _ Hh) in Hfresh. done. }
  assert (Hcat : concat (itss ++ [[]]) = concat itss) by (rewrite concat_app; simpl; by rewrite app_nil_r).
  constructor; cbn [segs w lastSeq ackedThrough set_segs set_w]; rewrite ?Hcat; try done.
  - apply Forall2_app.
    + eapply all_hold_other; [|done]. intros sg Hin. apply lookup_insert_ne. intros He. apply Hnew. rewrite He. apply list_elem_of_fmap. eauto.
    + constructor; [|done]. constructor; cbn [path count size reported undecodable base last]; try done.
      apply lookup_insert_eq.
  - rewrite fmap_app. apply NoDup_app. split_and!; [done| |apply NoDup_singleton]. intros x Hx.
    simpl. intros ->%list_elem_of_singleton. done.
  - intros n [x Hx] Hp. rewrite fmap_app, elem_of_app. apply lookup_insert_Some in Hx as [[<- _]|[_ Hx]].
    + right. simpl. set_solver.
    + left. apply Ha; [by eexists|done].
  - eapply meets_covered; [|done]. done.
  - by apply checkpoint_other.
  - intros n [= <-]. eexists. split; [apply last_seg_app|done].
  - intros i j sg its Hi Hj Hij. apply lookup_app_Some in Hj as [Hj|[_ Hj]].
    + pose proof (Forall2_length _ _ _ Hs) as Hlen. apply lookup_lt_Some in Hj as Hlt.
      rewrite lookup_app_l in Hi by lia. by apply (Hb i j).
    + apply list_lookup_singleton_Some in Hj as [_ <-]. split; [|set_solver].
      apply lookup_app_Some in Hi as [Hi|[_ Hi]].
      * destruct (Forall2_lookup_l _ _ _ _ _ Hs Hi) as (its' & Hi' & _). by apply (Hb i i sg its').
      * apply list_lookup_singleton_Some in Hi as [_ <-]. simpl. lia.
  - destruct itss as [|its itss]; [|done]. apply cursor_zero; apply Hcur.
  - unfold first_ok, view in *. by rewrite Hcat.
Qed.

Lemma full_new_segment b s fs seq :
  full b s fs → fs !! segmentName seq = None → is_u64 seq → 0 < seq <= tried b →
  full b (set_segs (set_w s (Some (segmentName seq))) (segs s ++ [mkSegment (segmentName seq) seq 0 0 0 0 0]))
    (<[segmentName seq := []]> fs).
Proof.
  intros [(itss & c & H) (Ht1 & Ht2 & Ht3)] Hf Hu Htry. split.
  - exists (itss ++ [[]]), c. by apply rep_new_segment.
  - unfold totals_ok. cbn [bytes pending segs ackedInFirst firstPending set_segs set_w].
    rewrite !sum_of_app. simpl. rewrite Ht1, Ht2. split_and!; [lia|lia|]. intros Hz. apply Ht3. lia.
Qed.

Lemma full_no_w b s fs : full b s fs → full b (set_w s None) fs.
Proof.
  intros [(itss & c & H) Ht]. split; [|done]. exists itss, c. by apply (rep_no_w b s fs itss c true).
Qed.

(** A file is open for appending. *)
Definition ready (b : duty) (l : Z) : assertion := λ s fs, full b s fs ∧ is_Some (w s) ∧ lastSeq s = l.

Lemma h_roll b l seq :
  is_u64 seq → 0 < seq <= tried b →
  hoare (λ s fs, full b s fs ∧ lastSeq s = l) (roll seq) (λ _, ready b l) (full b) (down b).
Proof.
  intros Hu Htry. unfold roll. apply h_get. intros s0.
  eapply h_bind with (Q := λ _ s fs, full b s fs ∧ lastSeq s = l).
  { eapply h_pre; [intros s fs [_ H]; exact H|]. destruct (w s0) as [nm|]; [|by apply h_ret].
    eapply h_bind with (Q := λ _ s fs, full b s fs ∧ lastSeq s = l).
    { apply h_sync.
      - intros s fs [H Hl]. destruct (full_sync b s fs H). split; intros x; (split; [|exact Hl]); auto.
      - by intros s fs [H _].
      - intros s fs [H _]. by apply full_down. }
    intros []. eapply h_bind; [apply h_close|].
    { by intros s fs [H _]. }
    { intros s fs [H _]. by apply full_down. }
    intros []. apply h_modify. intros s fs [H Hl]. split; [by apply full_no_w|done]. }
  intros []. apply h_files. intros f0. destruct (f0 !! segmentName seq) as [x|] eqn:Ef.
  { eapply h_bind; [apply h_raise; intros s fs (_ & H & _); exact H|]. intros a.
    instantiate (1 := λ _ _ _, False). intros s Hf []. }
  set (created := λ (s : Spool) (fs : disk), ∃ fs0, fs = <[segmentName seq := []]> fs0 ∧
    fs0 !! segmentName seq = None ∧ full b s fs0 ∧ lastSeq s = l).
  eapply h_bind with (Q := λ _, created).
  { eapply h_bind with (Q := λ _, created); [|intros []; apply h_set_fd]. apply h_syscall.
    - intros s fs (-> & H & Hl). by exists f0.
    - right. by intros s fs (_ & H & _).
    - intros s fs (_ & H & _). by apply full_down.
    - intros s fs (-> & H & Hl). pose proof (full_new_segment b s f0 seq H Ef Hu Htry) as H'.
      apply full_down in H'. eapply down_covered; [|exact H']. done. }
  intros []. eapply h_bind with (Q := λ _, ready b l).
  { apply h_modify. intros s fs (fs0 & -> & Hn & H & Hl). split_and!; [by apply full_new_segment|done|done]. }
  intros []. apply h_syncDir.
  - by intros s fs [H _].
  - intros s fs [H _]. by apply full_down.
Qed.

(** The duty after the event [it] has been accepted. *)
Definition accept_event (b : duty) (it : item) : duty :=
  mkDuty (λ x, owed b x ∨ x = it) (given b) (acked_max b) (Z.max (top b) it.1) (tried b) (tracked b).

Lemma meets_accept b s items c it :
  meets b s items c → last_of items < it.1 → item_ok it → payload_ok it.2 → sequenceOf it.2 = Some it.1 →
  0 < it.1 → given b it → meets (accept_event b it) s (items ++ [it]) c.
Proof.
  intros [Ho Hg Ha Ht Hi Hok] Hlast Hit Hp Hseq Hpos Hgiv. destruct it as [q p]. constructor; simpl in *.
  - intros x [Hx| ->]; [|left; set_solver]. destruct (Ho x Hx) as [|[|]]; auto. left. set_solver.
  - intros x. rewrite elem_of_app. intros [Hx| ->%list_elem_of_singleton]; [by apply Hg|done].
  - done.
  - rewrite last_of_suffix by done. unfold last_of at 1. simpl. lia.
  - apply appended_app. split; [done|]. split_and!; done.
  - apply Forall_app. split; [done|]. by apply Forall_singleton.
Qed.

Lemma meets_weaken b b' s items c :
  (∀ it, owed b' it → owed b it) → given b' = given b → acked_max b' = acked_max b → top b' <= top b →
  meets b s items c → meets b' s items c.
Proof.
  intros Ho Hg Ha Ht [H1 H2 H3 H4 H5 H6]. constructor; rewrite ?Hg, ?Ha; try done; [|lia].
  intros it Hit. apply H1. by apply Ho.
Qed.

Lemma full_accept b it s fs : full (accept_event b it) s fs → full b s fs.
Proof.
  intros [(itss & c & H) Ht]. split; [|done]. exists itss, c. destruct H. constructor; try done.
  eapply meets_weaken; [| | | |done]; simpl; auto. lia.
Qed.

Lemma down_accept b it s fs : down (accept_event b it) s fs → down b s fs.
Proof.
  intros (L & c & H1 & H2 & H3). exists L, c. split_and!; [done|done|].
  eapply meets_weaken; [| | | |done]; simpl; auto. lia.
Qed.

(** What an event must be to be appended. *)
Record fresh_item (b : duty) (l : Z) (it : item) : Prop := {
  f_ok : item_ok it;
  f_payload : payload_ok it.2;
  f_seq : sequenceOf it.2 = Some it.1;
  f_pos : 0 < it.1;
  f_new : l < it.1;
  f_given : given b it;
  f_tried : tried b = it.1;
  f_tracked : tracked b = true;
  f_text : x00 ∉ it.2;
  f_clean : header_clean it.2
}.

Lemma last_of_bound b s fs itss c it :
  rep b s fs itss c → it ∈ concat itss → it.1 <= lastSeq s.
Proof.
  intros H Hit. destruct (r_last _ _ _ _ _ H) as [-> _].
  pose proof (last_of_ge _ _ (m_items _ _ _ _ (r_meets _ _ _ _ _ H)) Hit). lia.
Qed.

(** The segment [sg] with one more record. *)
Definition grown (sg : segment) (it : item) : segment :=
  mkSegment (path sg) (if count sg =? 0 then it.1 else base sg) it.1 (count sg + 1)
    (size sg + Z.of_nat (recordHeaderSize + length it.2)) (reported sg) (undecodable sg).

Lemma holds_grown fs sg its it :
  holds fs sg its → holds (append_to (path sg) (record it.2) fs) (grown sg it) (its ++ [it]).
Proof.
  intros [Hf Hc Hs Hr Hb Hl Hn]. constructor; cbn [path count size reported undecodable base last grown]; try done.
  - unfold append_to. rewrite Hf, lookup_insert_eq, bytes_of_items_app, bytes_of_items_cons. simpl (bytes_of_items []).
    by rewrite (app_nil_r (record _)).
  - rewrite Hc, length_app. simpl. lia.
  - rewrite Hs, bytes_of_items_app, bytes_of_items_cons, !length_app, record_length. simpl. lia.
  - intros x Hx. destruct its as [|y its]; simpl in *.
    + rewrite Hc. simpl. by simplify_eq.
    + rewrite Hc. simpl. destruct (Z.eqb_spec (Z.of_nat (S (length its))) 0); [lia|]. by apply Hb.
  - by rewrite last_of_suffix.
Qed.

Lemma bases_grown sl sg l its it :
  length sl = length l → count sg = Z.of_nat (length its) → bases_ok it.1 (sl ++ [sg]) (l ++ [its]) →
  bases_ok it.1 (sl ++ [grown sg it]) (l ++ [its ++ [it]]).
Proof.
  intros Hlen Hcount Hb i j sg' x Hi Hj Hij.
  assert (Hbase : 0 < base sg' <= it.1 ∧ ∀ y, y ∈ x → y ≠ it → base sg' <= y.1).
  2: { destruct Hbase as [Hb1 Hb2]. split; [done|].
       intros y Hy. destruct (decide (y = it)) as [->|Hne]; [lia|by apply Hb2]. }
  assert (Hold : ∃ x', (l ++ [its]) !! j = Some x' ∧ ∀ y, y ∈ x → y ≠ it → y ∈ x').
  { apply lookup_app_Some in Hj as [Hj|[Hge Hj]].
    - exists x. split; [by apply lookup_app_l_Some|done].
    - apply list_lookup_singleton_Some in Hj as [Hz <-]. exists its.
      split; [rewrite lookup_app_r by done; by rewrite Hz|]. set_solver. }
  destruct Hold as (x' & Hx' & Hsub). apply lookup_app_Some in Hi as [Hi|[Hge Hi]].
  - destruct (Hb i j sg' x') as [H1 H2]; [by apply lookup_app_l_Some|done|done|]. eauto.
  - apply list_lookup_singleton_Some in Hi as [Hz <-]. destruct (Hb i j sg x') as [H1 H2];
      [rewrite lookup_app_r by done; by rewrite Hz|done|done|].
    cbn [base grown]. destruct (Z.eqb_spec (count sg) 0) as [Hz0|Hnz]; [|eauto].
    split; [lia|]. intros y Hy Hne. specialize (Hsub y Hy Hne).
    assert (j = i) as -> by (apply lookup_lt_Some in Hj; rewrite length_app in Hj; simpl in Hj; lia).
    rewrite lookup_app_r in Hx' by lia. rewrite <- Hlen, Hz in Hx'. simplify_eq/=.
    destruct x'; [set_solver|simpl in Hcount; lia].
Qed.

(** The spool before [recount] at the end of [note_append]. *)
Definition appended_spool (s : Spool) (sl : list segment) (sg : segment) (it : item) : Spool :=
  let s := set_lastSeq (set_segs s (sl ++ [grown sg it])) it.1 in
  set_dirty (if firstPending s =? 0 then set_firstPending s it.1 else s) true.

Lemma rep_append b s fs l its c sl sg it :
  rep b s fs (l ++ [its]) c → totals_ok s → segs s = sl ++ [sg] → fresh_item b (lastSeq s) it →
  rep (accept_event b it) (appended_spool s sl sg it) (append_to (path sg) (record it.2) fs)
    (l ++ [its ++ [it]]) c.
Proof.
  intros H Ht Hsg [F1 F2 F3 F4 F5 F6 F7 F10 F8 F9].
  pose proof (λ x, last_of_bound b s fs (l ++ [its]) c x H) as Hbound.
  pose proof H as [Hs Hn Ha Hm Hl Hc Hk Hw Hb Hcur Hf]. rewrite Hsg in Hs, Hn, Ha, Hw, Hb.
  apply Forall2_app_inv_l in Hs as (l' & r & Hs & Hr & Heq). apply Forall2_cons_inv_l in Hr as (its' & r' & Hh & Hr & ->).
  apply Forall2_nil_inv_l in Hr as ->. apply app_inj_tail in Heq as [<- <-].
  assert (Hcat : concat (l ++ [its ++ [it]]) = concat (l ++ [its]) ++ [it]).
  { rewrite !concat_app. simpl. by rewrite !app_nil_r, app_assoc. }
  assert (Hnin : path sg ∉ path <$> sl).
  { rewrite fmap_app in Hn. apply NoDup_app in Hn as (_ & Hn & _). intros Hin. apply (Hn _ Hin). simpl. set_solver. }
  assert (Hpath : path <$> (sl ++ [grown sg it]) = path <$> (sl ++ [sg])) by (by rewrite !fmap_app).
  assert (Hsegs : segs (appended_spool s sl sg it) = sl ++ [grown sg it]).
  { unfold appended_spool. cbn [firstPending set_lastSeq set_segs]. by destruct (firstPending s =? 0). }
  assert (Hfields : lastSeq (appended_spool s sl sg it) = it.1 ∧ w (appended_spool s sl sg it) = w s ∧
    ackedThrough (appended_spool s sl sg it) = ackedThrough s ∧ ackedInFirst (appended_spool s sl sg it) = ackedInFirst s ∧
    ackOffset (appended_spool s sl sg it) = ackOffset s ∧ droppedLow (appended_spool s sl sg it) = droppedLow s ∧
    droppedHigh (appended_spool s sl sg it) = droppedHigh s ∧
    firstPending (appended_spool s sl sg it) = if firstPending s =? 0 then it.1 else firstPending s).
  { unfold appended_spool. cbn [firstPending set_lastSeq set_segs]. by destruct (firstPending s =? 0). }
  destruct Hfields as (E1 & E2 & E3 & E4 & E5 & E6 & E7 & E8). destruct Hl as [Hl1 Hl2].
  constructor; rewrite ?Hsegs, ?Hpath, ?Hcat, ?E1, ?E2, ?E3; try done.
  - apply Forall2_app; [|constructor; [by apply holds_grown|done]].
    eapply all_hold_other; [|done]. intros sg' Hin. apply lookup_insert_ne. intros He. apply Hnin. rewrite He.
    apply list_elem_of_fmap. eauto.
  - intros n [x Hx] Hp. unfold append_to in Hx. apply lookup_insert_Some in Hx as [[<- _]|[_ Hx]].
    + rewrite fmap_app, elem_of_app. right. simpl. set_solver.
    + apply Ha; [by eexists|done].
  - eapply meets_covered with (s := s); [intros q; by apply covered_same|]. apply meets_accept; try done. lia.
  - rewrite last_of_suffix by done. unfold last_of. simpl. lia.
  - apply checkpoint_other; [|done]. by eapply holds_name.
  - intros n Hwn. destruct (Hw n Hwn) as (sg' & Hl' & Hp). rewrite last_seg_app in Hl'. injection Hl' as <-.
    exists (grown sg it). split; [apply last_seg_app|done].
  - cbn [tried accept_event]. rewrite F7 in *. apply bases_grown; [by eapply Forall2_length|apply Hh|done].
  - destruct l as [|x l]; simpl app in *.
    + destruct Hcur as (k & H1 & H2 & H3 & H4). exists k. rewrite length_app, E3, E4, E5, take_app_le by lia.
      split_and!; [lia|done..].
    + unfold cursor_ok in *. by rewrite E3, E4, E5.
  - specialize (Hf F10). unfold first_ok, view in *. rewrite Hcat, E4, E8. intros _ _.
    pose proof (cursor_range _ _ _ _ _ H) as Hr. rewrite drop_app_le, take_app_le by lia.
    assert (Hpre : ∀ y, y ∈ take (Z.to_nat (ackedInFirst s)) (concat (l ++ [its])) → y.1 < it.1).
    { intros y Hy%in_take. specialize (Hbound y Hy). lia. }
    destruct (Z.eqb_spec (firstPending s) 0) as [Hz|Hnz].
    + assert (Hempty : drop (Z.to_nat (ackedInFirst s)) (concat (l ++ [its])) = []).
      { destruct (drop _ _) as [|y v] eqn:E; [done|]. destruct Hf as (Hf & _); [done|]. lia. }
      rewrite Hempty. split_and!; [done| |done]. intros y Hy%list_elem_of_singleton. subst y. lia.
    + assert (Hne : drop (Z.to_nat (ackedInFirst s)) (concat (l ++ [its])) ≠ []).
      { intros E. apply Hnz. apply Ht. rewrite (proj1 (proj2 Ht)). apply (f_equal length) in E.
        rewrite length_drop in E. simpl in E. rewrite (sum_counts _ _ _ (r_segs _ _ _ _ _ H)). lia. }
      destruct (Hf Hne) as (Hf1 & Hf2 & Hf3). split_and!; [done| |done].
      intros y. rewrite elem_of_app. intros [Hy|Hy%list_elem_of_singleton]; [by apply Hf2|]. subst y.
      destruct (drop _ _) as [|z v] eqn:E; [done|]. specialize (Hf2 z). 
      assert (Hz : z ∈ concat (l ++ [its])) by (eapply (in_drop _ (Z.to_nat (ackedInFirst s))); rewrite E; set_solver).
      specialize (Hbound z Hz). specialize (Hf2 ltac:(set_solver)). lia.
Qed.

(** A write that the process did not survive leaves a torn tail. *)
Lemma stored_torn fs L x t :
  stored fs L → x ∈ L → torn_tail t → stored (<[x.1 := bytes_of_items x.2 ++ t]> fs) L.
Proof.
  intros [H1 H2 H3 H4] Hx Ht. constructor; try done.
  - intros y Hy. destruct (decide (y.1 = x.1)) as [He|Hne].
    + assert (y = x) as ->.
      { apply list_elem_of_lookup in Hy as [i Hi], Hx as [j Hj].
        assert (i = j) as ->; [|congruence].
        eapply NoDup_lookup; [exact H2|by rewrite list_lookup_fmap, Hi|rewrite list_lookup_fmap, Hj; simpl; by rewrite He]. }
      exists t. by rewrite lookup_insert_eq.
    + rewrite lookup_insert_ne by done. by apply H1.
  - intros n [y Hy] Hp. apply lookup_insert_Some in Hy as [[<- _]|[_ Hy]].
    + apply list_elem_of_fmap. by exists x.
    + apply H4; [by eexists|done].
Qed.

Lemma zip_last {A B} (l : list A) (k : list B) x y : length l = length k → (x, y) ∈ zip (l ++ [x]) (k ++ [y]).
Proof.
  revert k. induction l as [|a l IH]; intros [|b k] H; simplify_eq/=; [set_solver|].
  apply elem_of_cons. right. by apply IH.
Qed.

Lemma torn_down b s fs l its c sl sg it n :
  rep b s fs (l ++ [its]) c → totals_ok s → segs s = sl ++ [sg] → fresh_item b (lastSeq s) it →
  down b s (append_to (path sg) (take n (record it.2)) fs).
Proof.
  intros H Ht Hsg Hf. destruct (decide (n < length (record it.2))%nat) as [Hlt|Hge].
  - pose proof (rep_stored _ _ _ _ _ H) as Hst. pose proof (r_segs _ _ _ _ _ H) as Hs.
    destruct (zip_paths _ _ _ Hs) as [_ Hz]. exists (zip (path <$> segs s) (l ++ [its])), c.
    assert (Hlen : length (path <$> sl) = length l).
    { pose proof (Forall2_length _ _ _ Hs) as Hlen. rewrite Hsg, !length_app in Hlen. rewrite length_fmap. simpl in Hlen. lia. }
    assert (Hh : holds fs sg its).
    { rewrite Hsg in Hs. apply Forall2_app_inv in Hs as [_ Hs]; [by inversion Hs|by rewrite length_fmap in Hlen]. }
    rewrite Hz. split_and!; [| |apply H].
    + unfold append_to. rewrite (h_file _ _ _ Hh). simpl.
      apply (stored_torn fs _ (path sg, its)); [done| |].
      * rewrite Hsg, fmap_app. by apply zip_last.
      * exists it.2, n. destruct Hf. split_and!; done.
    + apply checkpoint_other; [by eapply holds_name|apply H].
  - rewrite take_ge by lia. pose proof (rep_append _ _ _ _ _ _ _ _ _ H Ht Hsg Hf) as Hr.
    apply rep_down, down_accept in Hr. eapply down_covered; [|exact Hr].
    intros q. unfold appended_spool. cbn [firstPending set_lastSeq set_segs]. by destruct (firstPending s =? 0).
Qed.

(** The record is in the file, the spool's fields do not say so yet. *)
Definition written (b : duty) (it : item) : assertion := λ s fs,
  ∃ sl sg l its c fs0, rep b s fs0 (l ++ [its]) c ∧ totals_ok s ∧ segs s = sl ++ [sg] ∧
    fs = append_to (path sg) (record it.2) fs0 ∧ fresh_item b (lastSeq s) it.

Lemma set_size_id sg z :
  size sg = z → mkSegment (path sg) (base sg) (last sg) (count sg) z (reported sg) (undecodable sg) = sg.
Proof. intros <-. by destruct sg. Qed.

Lemma full_recount b s fs : part b s fs → full b (publishMetrics (recount s)) fs.
Proof.
  intros (itss & c & H). destruct (recount_rep _ _ _ _ _ H) as (Hr & Ht & _).
  eapply full_same; [apply publish_same|done|done|]. split; [by exists itss, c|done].
Qed.

Lemma h_write_record b l it :
  fresh_item b l it →
  hoare (ready b l) (write_record it.2) (λ _, written b it) (full b) (down b).
Proof.
  intros Hf. unfold write_record. apply h_get. intros s0.
  destruct (w s0) as [name|] eqn:Ew.
  2: { eapply h_pure; [intros s fs (-> & _ & Hw & _); exact Hw|]. rewrite Ew. by intros [x Hx]. }
  eapply h_pre; [|apply (h_ex (λ (x : list segment * segment * list (list item) * list item * Z) s fs,
    let '(sl, sg, l', its, c) := x in
    s = s0 ∧ rep b s fs (l' ++ [its]) c ∧ totals_ok s ∧ segs s = sl ++ [sg] ∧ path sg = name ∧
    holds fs sg its ∧ lastSeq s = l))].
  { intros s fs (-> & [(itss & c & H) Ht] & _ & Hl).
    destruct (rep_active _ _ _ _ _ _ H Ew) as (sl & sg & l' & its & H1 & -> & H2 & H3 & _).
    by exists (sl, sg, l', its, c). }
  intros [[[[sl sg] l'] its] c]. set (P := λ s fs, _ ∧ _).
  assert (Hfull : ∀ s fs, P s fs → full b s fs).
  { intros s fs (_ & H & Ht & _). split; [by exists (l' ++ [its]), c|done]. }
  eapply h_bind with (Q := λ (ok : bool) s fs, if ok then written b it s fs else P s fs).
  { apply h_fd. intros [].
    - apply h_Write.
      + intros s fs (Hs & H & Ht & Hsg & Hp & Hh & Hl). exists sl, sg, l', its, c, fs. subst name.
        rewrite Hl. by split_and!.
      + intros n s fs Hn (Hs & H & Ht & Hsg & Hp & Hh & Hl). rewrite (Hn eq_refl). simpl. unfold append_to.
        subst name. rewrite (h_file _ _ _ Hh), app_nil_r, insert_id by apply Hh. by split_and!.
      + intros n s fs (Hs & H & Ht & Hsg & Hp & Hh & Hl). subst name. eapply torn_down; try done. by rewrite Hl.
    - by apply h_ret. }
  intros [].
  - by apply h_ret.
  - eapply h_bind with (Q := λ _, P).
    { apply h_try. apply h_on_fd; [done|]. apply h_call; [done|]. intros s fs H. by apply full_down, Hfull. }
    intros r. apply h_files. intros f0. unfold active. eapply h_bind with (Q := λ sg' s fs, P s fs ∧ fs = f0 ∧ sg' = sg).
    { apply h_get. intros s1. eapply h_pure; [intros s fs (-> & _ & _ & _ & _ & H & _); exact H|].
      intros Hsg. rewrite Hsg, last_seg_app. apply h_ret. intros s fs (_ & -> & H). done. }
    intros sg'. eapply h_bind with (Q := λ _, full b).
    { destruct r as [u|e]; [|apply h_ret; intros s fs (H & _); by apply Hfull].
      apply h_modify. intros s fs ((Hs & H & Ht & Hsg & Hp & Hh & Hl) & -> & ->). subst name.
      rewrite (h_file _ _ _ Hh). simpl. rewrite set_size_id by apply Hh. unfold set_active.
      rewrite Hsg, set_last, <- Hsg. apply full_recount. exists (l' ++ [its]), c.
      eapply rep_same; [|exact H]. same_fields. }
    intros []. by apply h_raise.
Qed.

Lemma h_active b l :
  hoare (ready b l) active (λ sg s fs, ready b l s fs) (full b) (down b).
Proof.
  unfold active. apply h_get. intros s0.
  apply (h_pure (is_Some (last_seg (segs s0)))).
  { intros s fs (-> & [(itss & c & H) _] & [n Hw] & _). by destruct (r_w _ _ _ _ _ H n Hw) as (sg & -> & _). }
  intros [sg ->]. apply h_ret. by intros s fs [_ H].
Qed.

Lemma h_needs_roll b l recLen :
  hoare (λ s fs, full b s fs ∧ lastSeq s = l) (needs_roll recLen)
    (λ (r : bool) s fs, if r then full b s fs ∧ lastSeq s = l else ready b l s fs) (full b) (down b).
Proof.
  unfold needs_roll. apply h_get. intros s0. destruct (w s0) as [n|] eqn:Ew.
  - eapply h_bind; [eapply h_pre; [|apply (h_active b l)]|].
    + intros s fs (-> & H & Hl). split_and!; [done|by rewrite Ew|done].
    + intros sg. apply h_ret. intros s fs H. destruct (_ && _); [|done]. by destruct H as (H1 & _ & H2).
  - apply h_ret. by intros s fs [_ H].
Qed.

Lemma note_append_written b it s fs :
  written b it s fs →
  ∃ sg, last_seg (segs s) = Some sg ∧
    evicting (accept_event b it) (note_append it.1 (Z.of_nat (recordHeaderSize + length it.2)) sg s) fs.
Proof.
  intros (sl & sg & l & its & c & fs0 & H & Ht & Hsg & -> & Hf). exists sg.
  split; [rewrite Hsg; apply last_seg_app|].
  pose proof (rep_append _ _ _ _ _ _ _ _ _ H Ht Hsg Hf) as Hr.
  assert (He : note_append it.1 (Z.of_nat (recordHeaderSize + length it.2)) sg s = recount (appended_spool s sl sg it)).
  { unfold note_append, appended_spool, set_active. rewrite Hsg, set_last. done. }
  rewrite He. destruct (recount_rep _ _ _ _ _ Hr) as (Hr' & Ht' & _).
  exists (l ++ [its ++ [it]]), c. split_and!; [done| |done].
  intros l' x [_ <-]%app_inj_tail. by intros []%app_eq_nil.
Qed.

Lemma evicting_publish b s fs : evicting b s fs → evicting b (publishMetrics s) fs.
Proof.
  intros (itss & c & H & He & Ht). exists itss, c. split_and!; [|done|done]. eapply rep_same; [apply publish_same|done].
Qed.

Context `{L : !JsonLaws J}.

(** [Append] of an event that encodes to [p]: when it succeeds the event is owed. *)
Lemma h_Append b e p :
  Marshal e = Some p → is_u64 (Sequence e) → given b (Sequence e, p) → tried b = Sequence e → tracked b = true → header_clean p →
  hoare (full b) (Append (Some e))
    (λ _ s fs, evicting (accept_event b (Sequence e, p)) s fs ∧ bounded s) (full b) (down b).
Proof.
  intros Hm Hu Hg Htry Htr Hcl. unfold Append. apply h_get. intros s0.
  destruct (closed s0); [apply h_raise; by intros ? ? [_ ?]|].
  destruct (Z.leb_spec (Sequence e) (lastSeq s0)) as [|Hnew]; [apply h_raise; by intros ? ? [_ ?]|].
  rewrite Hm. destruct (Z.ltb_spec maxRecordSize (Z.of_nat (length p))) as [|Hsize]; [apply h_raise; by intros ? ? [_ ?]|].
  set (it := (Sequence e, p)). set (b' := accept_event b it).
  eapply h_pure; [intros s fs [-> [(itss & c & H) _]]; exact (rep_seq_range _ _ _ _ _ H)|]. intros [Hl0 _].
  assert (Hf : fresh_item b (lastSeq s0) it).
  { destruct (marshal_text e p Hm) as [Hne Htext]. destruct (marshal_event e p Hu Hm) as (e' & He' & Hs').
    constructor; simpl; try done; [|split; [|done]|by apply marshal_seq|lia].
    - split; [done|]. by exists e'.
    - destruct p; [done|simpl; lia]. }
  eapply h_bind; [eapply h_pre; [|apply (h_needs_roll b (lastSeq s0))]|].
  { by intros s fs [-> H]. }
  intros r. eapply h_bind with (Q := λ _, ready b (lastSeq s0)).
  { destruct r; [|by apply h_ret]. apply h_roll; [done|lia]. }
  intros []. eapply h_bind; [by apply (h_write_record b (lastSeq s0) it)|].
  intros []. eapply h_bind with (Q := λ sg s fs, last_seg (segs s) = Some sg ∧ written b it s fs).
  { unfold active. apply h_get. intros s1.
    apply (h_pure (is_Some (last_seg (segs s1)))).
    { intros s fs [-> H]. by destruct (note_append_written _ _ _ _ H) as (sg & -> & _). }
    intros [sg Hsg].
    rewrite Hsg. apply h_ret. by intros s fs [-> H]. }
  intros sg. eapply h_bind with (Q := λ _, evicting b').
  { apply h_modify. intros s fs [Hsg H]. destruct (note_append_written _ _ _ _ H) as (sg' & Hsg' & He).
    assert (sg' = sg) as -> by congruence. done. }
  assert (Hweak : ∀ s fs, evicting b' s fs → full b s fs) by (intros s fs H; by eapply full_accept, evicting_full).
  assert (Hdown : ∀ s fs, evicting b' s fs → down b s fs) by (intros s fs H; by apply full_down, Hweak).
  intros []. eapply h_bind; [apply h_maybeSync; [apply evicting_sync|done|done]|].
  intros []. eapply h_bind; [eapply h_post; [| | |by apply h_enforceMaxSize]|].
  { intros a s fs H. exact H. }
  { done. }
  { intros s fs H. by eapply down_accept. }
  intros []. apply h_modify. intros s fs [H Hb]. split; [by apply evicting_publish|done].
Qed.

(** ** Reading *)

(** A computation that only reads: it changes neither the spool nor the files, and when
    it returns it returns [a]; without faults it does return. *)
Definition reads {A} (m : M A) (s : st) (a : A) : Prop :=
  ∃ s' r, m s = (s', r) ∧ sp s' = sp s ∧ files (wd s') = files (wd s) ∧ (fair (wd s) → fair (wd s')) ∧
    (r = Ret a ∨ (∃ e, r = Raise e) ∨ r = Crash) ∧ (fates (wd s) = [] → s' = s ∧ r = Ret a).

Lemma reads_ret {A} (a : A) s : reads (mret a) s a.
Proof. exists s, (Ret a). split_and!; auto. Qed.

Lemma reads_bind {A B} (m : M A) (k : A → M B) s a b :
  reads m s a → (∀ s', sp s' = sp s → files (wd s') = files (wd s) → reads (k a) s' b) → reads (m ≫= k) s b.
Proof.
  intros (s1 & r & Hm & H1 & H2 & H3 & Hr & H4) Hk. unfold reads, mbind, M_bind. rewrite Hm.
  destruct Hr as [->|[[e ->]| ->]].
  - destruct (Hk s1 H1 H2) as (s2 & r2 & -> & K1 & K2 & K3 & Kr & K4). exists s2, r2.
    split_and!; [done|congruence|congruence|auto|done|]. intros Hc. destruct (H4 Hc) as [-> _]. auto.
  - exists s1, (Raise e). split_and!; eauto. intros Hc. by destruct (H4 Hc).
  - exists s1, Crash. split_and!; eauto. intros Hc. by destruct (H4 Hc).
Qed.

Lemma reads_call c s : reads (syscall c id) s ().
Proof.
  unfold reads, syscall, mbind, M_bind, fate, fair. destruct s as [s [fs fd [|f l] cl]]; simpl.
  - eexists _, _. split_and!; [done|done|done|done|by left|done].
  - destruct (f c) as [|n|[|n]]; simpl; (eexists _, _; split_and!; [done|done|done| |eauto|done]);
      by intros [_ H]%Forall_cons.
Qed.

Lemma reads_file name s bs : files (wd s) !! name = Some bs → reads (ReadFile name) s bs.
Proof.
  intros Hb. unfold ReadFile. eapply reads_bind; [apply reads_call|]. intros s1 _ E1.
  eapply reads_bind; [apply reads_call|]. intros s2 _ E2.
  eapply (reads_bind _ _ _ (files (wd s2))); [by eexists _, _; split_and!; eauto|].
  intros s3 _ E3. rewrite E2, E1, Hb. apply reads_ret.
Qed.

Lemma reads_walk {A} sg start (fn : A → Z → list byte → Z → A * bool) acc s its k :
  files (wd s) !! path sg = Some (bytes_of_items its) →
  start = Z.of_nat (length (bytes_of_items (take k its))) → appended 0 its →
  ∃ stats, ws_skipped stats = 0 ∧
    reads (walk_segment sg start fn acc) s (stats, fold_walk fn acc start (drop k its)).
Proof.
  intros Hf -> Happ. rewrite <- (take_drop k its) in Happ. destruct (walk_items fn _ _ acc Happ) as (stats & Hw & Hsk).
  rewrite take_drop in Hw. exists stats. split; [done|]. eapply reads_bind; [by apply reads_file|].
  intros s' _ _. rewrite Hw. apply reads_ret.
Qed.

Definition decode (it : item) : Event := default zero_event (Unmarshal it.2).

Lemma fold_next from through max its : ∀ out off,
  Forall item_ok its → Z.of_nat (length out) < max →
  fold_walk (next_fn from through max) (out, (0, 0, 0)) off its =
  (take (Z.to_nat max) (out ++ (decode <$> filter (λ it, from <= it.1 ∧ through < it.1) its)), (0, 0, 0)).
Proof.
  induction its as [|[q p] its IH]; intros out off Hok Hlen; cbn [fold_walk].
  - simpl. rewrite app_nil_r, take_ge by lia. done.
  - apply Forall_cons in Hok as [[_ (e & He & _)] Hok]. simpl in He. unfold next_fn at 1. rewrite He.
    destruct (Z.ltb_spec q from) as [Hlt|Hge].
    { rewrite IH, filter_cons_False by (done || simpl; lia). done. }
    destruct (Z.leb_spec q through) as [Hle|Hgt].
    { rewrite IH, filter_cons_False by (done || simpl; lia). done. }
    rewrite filter_cons_True by (simpl; lia). rewrite fmap_cons.
    replace (decode (q, p)) with e by (unfold decode; simpl; by rewrite He).
    destruct (Z.ltb_spec (Z.of_nat (length out) + 1) max) as [Hc|Hc].
    + rewrite IH; [|done|rewrite length_app; simpl; lia]. by rewrite <- app_assoc.
    + assert (Hx : ∀ X, take (Z.to_nat max) (out ++ e :: X) = out ++ [e]).
      { intros X. replace (out ++ e :: X) with ((out ++ [e]) ++ X) by (by rewrite <- app_assoc).
        rewrite take_app_le, take_ge by (rewrite length_app; simpl; lia). done. }
      by rewrite Hx.
Qed.

Lemma no_undecodable s i lo hi :
  (∀ sg, segs s !! i = Some sg → 0 <= undecodable sg) → note_undecodable i 0 lo hi s = s.
Proof.
  intros Hr. unfold note_undecodable. destruct (segs s !! i) as [sg|] eqn:E; [|done].
  specialize (Hr sg eq_refl). destruct (Z.leb_spec 0 (undecodable sg)); [done|lia].
Qed.

Lemma reads_modify_id f s : f (sp s) = sp s → reads (modify f) s ().
Proof. intros He. unfold reads, modify. rewrite He. destruct s. eexists _, _. split_and!; eauto. Qed.

Lemma reads_get s : reads get s (sp s).
Proof. exists s, (Ret (sp s)). split_and!; auto. Qed.

Lemma appended_concat_elem itss j its : appended 0 (concat itss) → itss !! j = Some its → appended 0 its.
Proof.
  intros Ha Hj. apply list_elem_of_split_length in Hj as (l & k & -> & _).
  rewrite concat_app in Ha. simpl in Ha. by apply appended_suffix, appended_prefix in Ha.
Qed.

(** The records before the cursor are below [from], so that skipping them changes
    nothing. *)
Lemma filter_drop (P : item → Prop) `{!∀ x, Decision (P x)} k its :
  (∀ it, it ∈ take k its → ¬ P it) → filter P (drop k its) = filter P its.
Proof. intros Hn. rewrite <- (take_drop k its) at 2. by rewrite filter_app, (filter_none P (take k its)). Qed.

Lemma reads_next_loop b c itss from through max n : ∀ i out s,
  rep b (sp s) (files (wd s)) itss c → (length itss <= i + n)%nat → Z.of_nat (length out) <= max →
  (∀ it, it ∈ take (Z.to_nat (ackedInFirst (sp s))) (concat itss) → it.1 < from) →
  reads (next_loop n i from through max out) s
    (take (Z.to_nat max) (out ++ (decode <$> filter (λ it, from <= it.1 ∧ through < it.1) (concat (drop i itss))))).
Proof.
  induction n as [|n IH]; intros i out s Hrep Hn Hlen Hpre; cbn [next_loop].
  { rewrite drop_ge by lia. simpl. rewrite app_nil_r, take_ge by lia. apply reads_ret. }
  destruct (Z.leb_spec max (Z.of_nat (length out))) as [Hfull|Hroom].
  { rewrite take_app_le, take_ge by lia. apply reads_ret. }
  eapply reads_bind; [apply reads_get|]. intros s1 Hsp Hfs. pose proof (r_segs _ _ _ _ _ Hrep) as Hs.
  destruct (segs (sp s) !! i) as [sg|] eqn:Hsg.
  2: { apply lookup_ge_None in Hsg. apply Forall2_length in Hs. rewrite drop_ge by lia. simpl.
       rewrite app_nil_r, take_ge by lia. apply reads_ret. }
  destruct (Forall2_lookup_l _ _ _ _ _ Hs Hsg) as (its & Hits & Hh).
  assert (Happ : appended 0 its).
  { eapply appended_concat_elem; [exact (m_items _ _ _ _ (r_meets _ _ _ _ _ Hrep))|exact Hits]. }
  assert (Hok : Forall item_ok its).
  { pose proof (m_ok _ _ _ _ (r_meets _ _ _ _ _ Hrep)) as Hok. apply list_elem_of_split_length in Hits as (l & k & -> & _).
    rewrite concat_app, Forall_app in Hok. simpl in Hok. rewrite Forall_app in Hok. tauto. }
  rewrite (drop_S itss its i Hits). cbn [concat]. rewrite filter_app, fmap_app, app_assoc.
  assert (IH' : ∀ out', Z.of_nat (length out') <= max →
    reads (next_loop n (S i) from through max out') s1
      (take (Z.to_nat max) (out' ++ (decode <$> filter (λ it, from <= it.1 ∧ through < it.1) (concat (drop (S i) itss)))))).
  { intros out' Ho. apply IH; rewrite ?Hsp, ?Hfs; [done|lia|done|done]. }
  destruct (_ || _ || _) eqn:Hskip.
  - rewrite (filter_none _ its), fmap_nil, app_nil_r; [by apply IH'|].
    intros it Hit [H1 H2]. pose proof (last_of_ge _ _ Happ Hit) as Hle. rewrite <- (h_last _ _ _ Hh) in Hle.
    rewrite !orb_true_iff, Z.eqb_eq, Z.ltb_lt, Z.leb_le, (h_count _ _ _ Hh) in Hskip.
    destruct its; [set_solver|]. simpl in Hskip. lia.
  - set (k := if (i =? 0)%nat then Z.to_nat (ackedInFirst (sp s)) else 0%nat).
    assert (Hk : (if (i =? 0)%nat then ackOffset (sp s) else 0) = Z.of_nat (length (bytes_of_items (take k its))) ∧
      ∀ it, it ∈ take k its → it.1 < from).
    { unfold k. destruct (Nat.eqb_spec i 0) as [->|]; [|split; [done|set_solver]].
      pose proof (r_cursor _ _ _ _ _ Hrep) as Hcur. destruct itss as [|its' itss]; [done|]. simpl in Hits. simplify_eq.
      destruct Hcur as (k' & Hk' & Hak & Ho & _). rewrite Hak, Nat2Z.id in *. split; [done|].
      intros it Hit. apply Hpre. simpl. by rewrite take_app_le. }
    destruct Hk as [Hstart Hbelow].
    destruct (reads_walk sg (if (i =? 0)%nat then ackOffset (sp s) else 0) (next_fn from through max) (out, (0, 0, 0)) s1 its k) as (stats & Hsk & Hwalk);
      [rewrite Hfs; apply Hh|exact Hstart|done|].
    eapply reads_bind; [exact Hwalk|]. intros s2 Hsp2 Hfs2. rewrite fold_next; [|by apply Forall_drop|done].
    rewrite filter_drop by (intros it Hit [H1 H2]; specialize (Hbelow it Hit); lia).
    assert (Hrs : 0 <= reported sg ∧ 0 <= undecodable sg) by apply Hh.
    eapply reads_bind; [apply reads_modify_id, no_new_damage; [|done]|].
    { rewrite Hsp2, Hsp, Hsg. intros sg' [= <-]. apply Hrs. }
    intros s3 Hsp3 Hfs3. eapply reads_bind; [apply reads_modify_id, no_undecodable|].
    { rewrite Hsp3, Hsp2, Hsp, Hsg. intros sg' [= <-]. apply Hrs. }
    intros s4 Hsp4 Hfs4. set (got := out ++ _).
    replace (take (Z.to_nat max) (got ++ _)) with
      (take (Z.to_nat max) (take (Z.to_nat max) got ++ (decode <$> filter (λ it, from <= it.1 ∧ through < it.1) (concat (drop (S i) itss))))).
    + apply IH; rewrite ?Hsp4, ?Hsp3, ?Hsp2, ?Hsp, ?Hfs4, ?Hfs3, ?Hfs2, ?Hfs; [done|lia| |done].
      rewrite length_take. lia.
    + rewrite !take_app, take_take, Nat.min_id, length_take. f_equal.
      destruct (decide (Z.to_nat max <= length got)%nat); [|f_equal; lia].
      by replace (Z.to_nat max - _)%nat with 0%nat by lia; replace (Z.to_nat max - _)%nat with 0%nat by lia.
Qed.

Lemma reads_NextAfter b c itss s through max :
  tracked b = true → rep b (sp s) (files (wd s)) itss c → totals_ok (sp s) → closed (sp s) = false →
  reads (NextAfter through max) s
    (take (Z.to_nat max) (decode <$> filter (λ it, through < it.1) (view (sp s) itss))).
Proof.
  intros Htr H Ht Hcl. unfold NextAfter. eapply reads_bind; [apply reads_get|]. intros s1 Hsp Hfs.
  rewrite Hcl. destruct (Z.leb_spec max 0) as [Hm|Hm].
  { simpl. replace (Z.to_nat max) with 0%nat by lia. apply reads_ret. }
  assert (Hlen : pending (sp s) = Z.of_nat (length (view (sp s) itss))).
  { destruct Ht as (_ & -> & _). rewrite (sum_counts _ _ _ (r_segs _ _ _ _ _ H)).
    pose proof (cursor_range _ _ _ _ _ H). unfold view. rewrite length_drop. lia. }
  destruct (Z.eqb_spec (pending (sp s)) 0) as [Hp|Hp].
  { simpl. destruct (view (sp s) itss); [|simpl in Hlen; lia]. rewrite filter_nil, fmap_nil, take_nil. apply reads_ret. }
  destruct (Z.leb_spec (lastSeq (sp s)) through) as [Hl|Hl].
  { simpl. rewrite filter_none, fmap_nil, take_nil; [apply reads_ret|]. intros it Hit%in_drop.
    pose proof (last_of_bound _ _ _ _ _ _ H Hit). lia. }
  simpl. destruct (r_first _ _ _ _ _ H Htr) as (Hf1 & Hf2 & Hf3).
  { intros E. rewrite E in Hlen. done. }
  assert (Hfil : filter (λ it, through < it.1) (view (sp s) itss) =
    filter (λ it, firstPending (sp s) <= it.1 ∧ through < it.1) (concat itss)).
  { rewrite <- (filter_drop (λ it, firstPending (sp s) <= it.1 ∧ through < it.1) (Z.to_nat (ackedInFirst (sp s))) (concat itss)).
    - unfold view. apply filter_same. intros it Hit. specialize (Hf2 it Hit). split; [by split|by intros [_ ?]].
    - intros it Hit [H1 _]. specialize (Hf3 it Hit). lia. }
  rewrite Hfil. pose proof (reads_next_loop b c itss (firstPending (sp s)) through max (length (segs (sp s))) 0 [] s1) as Hr.
  rewrite Hsp, Hfs, app_nil_l, drop_0 in Hr. apply Hr; [done| |simpl; lia|done].
  rewrite (Forall2_length _ _ _ (r_segs _ _ _ _ _ H)). lia.
Qed.

(** A computation that only reads keeps every invariant. *)
Lemma reads_hoare {A} (m : M A) (P : assertion) (Q : A → assertion) E C :
  (∀ s, at_st P s → ∃ a, reads m s a ∧ at_st (Q a) s) →
  (∀ s fs, P s fs → E s fs) → (∀ s fs, P s fs → C s fs) → hoare P m Q E C.
Proof.
  intros Hm HE HC s Hf Hs. destruct (Hm s Hs) as (a & (s' & r & Hr & H1 & H2 & H3 & Hc & _) & HQ).
  rewrite Hr. simpl. split; [auto|]. unfold at_st in *. rewrite H1, H2.
  destruct Hc as [->|[[e ->]| ->]]; [done|by apply HE|by apply HC].
Qed.

(** ** Recovery *)

(** What the scan makes of a segment file. *)
Definition seg_of (x : string * list item) : segment :=
  scanned x.1 (default 0 (parseSegmentName x.1)) x.2.

Lemma seg_of_path x : path (seg_of x) = x.1.
Proof. destruct x as [n [|[q p] its]]; done. Qed.

Lemma seg_of_holds fs x :
  x.2 ≠ [] → fs !! x.1 = Some (bytes_of_items x.2) → is_Some (parseSegmentName x.1) → holds fs (seg_of x) x.2.
Proof.
  destruct x as [n [|[q p] its]]; [done|]. intros _ Hf Hn. constructor; cbn [seg_of scanned path base last count size reported undecodable fst snd] in *; try done.
  - by intros it [= <-].
  - unfold last_of. by rewrite fmap_cons, list_last_cons.
Qed.

(** The spool that [Open] starts from. *)
Definition blank (s : Spool) : Prop :=
  w s = None ∧ lastSeq s = 0 ∧ ackedThrough s = 0 ∧ ackedInFirst s = 0 ∧ ackOffset s = 0 ∧
  droppedLow s = 0 ∧ droppedHigh s = 0.

(** Of the segment files [Lx] those in [A] have been read; the names of the others are
    still among the entries [todo]. *)
Definition recovering (b : duty) (todo : list string) : assertion := λ s fs,
  ∃ Lx A T c, stored fs Lx ∧ checkpoint_is fs c ∧ meets b s (concat Lx.*2) c ∧ blank s ∧ Lx ≡ₚ A ++ T ∧
    segs s = seg_of <$> A ∧ (∀ x, x ∈ T → x.1 ∈ todo) ∧
    ∀ x, x ∈ A → x.1 ∉ todo ∧ x.2 ≠ [] ∧ fs !! x.1 = Some (bytes_of_items x.2).

Lemma recovering_down b todo s fs : recovering b todo s fs → down b s fs.
Proof. intros (Lx & A & T & c & H1 & H2 & H3 & _). by exists Lx, c. Qed.

(** The entry [name] holds the records [its], and its file is clean. *)
Definition entry_read (b : duty) (name : string) (todo : list string) (its : list item) (clean : bool) :
    assertion := λ s fs,
  ∃ Lx A T c, stored fs Lx ∧ checkpoint_is fs c ∧ meets b s (concat Lx.*2) c ∧ blank s ∧
    Lx ≡ₚ A ++ (name, its) :: T ∧ segs s = seg_of <$> A ∧ (∀ x, x ∈ T → x.1 ∈ todo) ∧
    (∀ x, x ∈ A → x.1 ∉ name :: todo ∧ x.2 ≠ [] ∧ fs !! x.1 = Some (bytes_of_items x.2)) ∧
    ∃ t, torn_tail t ∧ fs !! name = Some (bytes_of_items its ++ t) ∧ (clean = true → t = []).

Lemma entry_read_down b name todo its clean s fs : entry_read b name todo its clean s fs → down b s fs.
Proof. intros (Lx & A & T & c & H1 & H2 & H3 & _). by exists Lx, c. Qed.

Lemma names_distinct (Lx A T : list (string * list item)) x :
  NoDup Lx.*1 → Lx ≡ₚ A ++ x :: T → x.1 ∉ A.*1 ∧ x.1 ∉ T.*1.
Proof.
  intros Hn Hp. apply (fmap_Permutation fst) in Hp. rewrite Hp, fmap_app, fmap_cons in Hn.
  apply NoDup_app in Hn as (_ & H1 & H2). apply NoDup_cons in H2 as [H2 _]. split; [|done].
  intros Hin. apply (H1 _ Hin). set_solver.
Qed.

(** The file of an entry of the directory that names a segment. *)
Lemma entry_open b name todo nb s fs bs :
  recovering b (name :: todo) s fs → parseSegmentName name = Some nb → fs !! name = Some bs →
  ∃ its, entry_read b name todo its false s fs ∧ appended 0 its.
Proof.
  intros (Lx & A & T & c & Hst & Hck & Hm & Hb & Hp & Hsg & HT & HA) Hparse Hf.
  assert (Hin : name ∈ Lx.*1) by (apply (st_all _ _ Hst); eauto).
  apply list_elem_of_fmap in Hin as ([n its] & -> & Hin). cbn [fst] in *.
  assert (HinT : (n, its) ∈ T).
  { rewrite Hp, elem_of_app in Hin. destruct Hin as [Hin|Hin]; [|done]. destruct (HA _ Hin) as [Hni _]. set_solver. }
  apply list_elem_of_split in HinT as (T1 & T2 & ->). exists its. split.
  - exists Lx, A, (T1 ++ T2), c.
    assert (Hp' : Lx ≡ₚ A ++ (n, its) :: T1 ++ T2) by (rewrite Hp, Permutation_middle; done).
    split_and!; try done.
    + intros x Hx. pose proof (names_distinct _ _ _ _ (st_names _ _ Hst) Hp') as [_ Hd].
      assert (Hx' : x.1 ∈ n :: todo) by (apply HT; set_solver). apply elem_of_cons in Hx' as [He|]; [|done].
      destruct Hd. simpl. rewrite <- He. apply list_elem_of_fmap. by exists x.
    + destruct (st_files _ _ Hst (n, its) Hin) as (t & Ht1 & Ht2). by exists t.
  - apply list_elem_of_lookup in Hin as [i Hi].
    eapply (appended_concat_elem Lx.*2 i); [apply Hm|]. by rewrite list_lookup_fmap, Hi.
Qed.

(** Truncating the torn tail. *)
Lemma entry_truncate b name todo its s fs :
  entry_read b name todo its false s fs → entry_read b name todo its true s (<[name := bytes_of_items its]> fs).
Proof.
  intros (Lx & A & T & c & Hst & Hck & Hm & Hb & Hp & Hsg & HT & HA & t & Ht & Hf & _).
  assert (Hin : (name, its) ∈ Lx) by (rewrite Hp; set_solver). exists Lx, A, T, c. split_and!; try done.
  - pose proof (stored_torn fs Lx (name, its) [] Hst Hin torn_nil) as Hst'. by rewrite app_nil_r in Hst'.
  - apply checkpoint_other; [|done]. by apply (st_parse _ _ Hst (name, its)).
  - intros x Hx. destruct (HA x Hx) as (H1 & H2 & H3). split_and!; [done|done|].
    rewrite lookup_insert_ne; [done|]. intros ->. set_solver.
  - exists []. rewrite app_nil_r, lookup_insert_eq. split_and!; [apply torn_nil|done|done].
Qed.

Lemma entry_read_dirty b name todo its s fs :
  entry_read b name todo its true s fs → entry_read b name todo its false s fs.
Proof.
  intros (Lx & A & T & c & H1 & H2 & H3 & H4 & H5 & H6 & H7 & H8 & t & Ht & Hf & _).
  exists Lx, A, T, c. split_and!; try done. by exists t.
Qed.

Lemma h_scan b name todo nb :
  parseSegmentName name = Some nb →
  hoare (recovering b (name :: todo)) (scan_segment name nb)
    (λ x s fs, ∃ its, entry_read b name todo its true s fs ∧ x.1 = scanned name nb its ∧
       ws_skipped x.2 = 0 ∧ ws_count x.2 = Z.of_nat (length its)) (down b) (down b).
Proof.
  intros Hn. unfold scan_segment. eapply h_bind; [apply h_ReadFile; apply recovering_down|]. intros bs.
  eapply h_pre; [|apply (h_ex (λ (x : list item * list byte) s fs,
    let '(its, t) := x in entry_read b name todo its false s fs ∧
      (appended 0 its ∧ bs = bytes_of_items its ++ t ∧ torn_tail t) ∧ (t = [] → entry_read b name todo its true s fs)))].
  { intros s fs [Hb H]. destruct (entry_open _ _ _ _ _ _ _ H Hn Hb) as (its & He & Hi).
    pose proof He as (Lx & A & T & c & H1 & H2 & H3 & H4 & H5 & H6 & H7 & H8 & t & Ht & Hf & _).
    exists (its, t). split_and!; try done; [congruence|]. intros Hz. exists Lx, A, T, c. split_and!; try done. by exists t. }
  intros [its t]. eapply h_pure; [intros s fs (_ & H & _); exact H|]. intros (Hi & -> & q & n & Hq & Hz & Hcl & Hlen & ->).
  rewrite scan_torn by (done || by apply text_no_start). cbn [ws_torn].
  eapply h_bind with (Q := λ _, entry_read b name todo its true).
  { destruct (Z.ltb_spec 0 (Z.of_nat n)) as [Hpos|Hnil].
    - eapply h_bind with (Q := λ _, entry_read b name todo its true).
      { apply h_syscall.
        - intros s fs [H _]. by apply entry_truncate.
        - right. intros s fs [H _]. by eapply entry_read_down.
        - intros s fs [H _]. by eapply entry_read_down.
        - intros s fs [H _]. by eapply entry_read_down, entry_truncate. }
      intros []. eapply h_bind; [apply h_call; apply entry_read_down|]. intros [].
      apply h_call; apply entry_read_down.
    - apply h_ret. intros s fs (_ & _ & H). apply H. by replace n with 0%nat by lia. }
  intros []. apply h_ret. intros s fs H. by exists its.
Qed.

(** A file that holds no record is removed. *)
Lemma entry_removed b name todo s fs :
  entry_read b name todo [] true s fs → name ∉ todo → recovering b todo s (delete name fs).
Proof.
  intros (Lx & A & T & c & Hst & Hck & Hm & Hb & Hp & Hsg & HT & HA & _) Hnt.
  assert (Hin : (name, []) ∈ Lx) by (rewrite Hp; set_solver).
  pose proof (names_distinct _ _ _ _ (st_names _ _ Hst) Hp) as [Hd1 Hd2]. simpl in Hd1, Hd2.
  apply list_elem_of_split in Hin as (l1 & l2 & ->).
  assert (Hp' : l1 ++ l2 ≡ₚ A ++ T).
  { apply (Permutation_cons_inv (a := (name, []))). by rewrite !Permutation_middle. }
  assert (Hcat : concat (l1 ++ (name, []) :: l2).*2 = concat (l1 ++ l2).*2).
  { rewrite !fmap_app, !concat_app. done. }
  assert (Hne : ∀ x, x ∈ l1 ++ l2 → x.1 ≠ name).
  { intros x Hx He. rewrite Hp', elem_of_app in Hx. destruct Hx as [Hx|Hx]; [destruct Hd1|destruct Hd2];
      rewrite <- He; apply list_elem_of_fmap; by exists x. }
  exists (l1 ++ l2), A, T, c. rewrite Hcat in Hm. split_and!; try done.
  - destruct Hst as [H1 H2 H3 H4]. constructor.
    + intros x Hx. rewrite lookup_delete_ne by (by apply not_eq_sym, Hne). apply H1. set_solver.
    + rewrite fmap_app, fmap_cons in H2. rewrite fmap_app.
      rewrite <- Permutation_middle in H2. by apply NoDup_cons in H2 as [_ H2].
    + intros x Hx. apply H3. set_solver.
    + intros n [y Hy] Hn. apply lookup_delete_Some in Hy as [Hny Hy].
      specialize (H4 n (mk_is_Some _ _ Hy) Hn). rewrite fmap_app, fmap_cons in H4. rewrite fmap_app. set_solver.
  - apply checkpoint_delete; [|done]. apply (st_parse _ _ Hst (name, [])). set_solver.
  - intros x Hx. destruct (HA x Hx) as (H1 & H2 & H3). split_and!; [set_solver|done|].
    rewrite lookup_delete_ne; [done|]. intros ->. set_solver.
Qed.

Lemma entry_taken b name todo nb its s fs :
  entry_read b name todo its true s fs → its ≠ [] → name ∉ todo → parseSegmentName name = Some nb →
  recovering b todo (set_segs s (segs s ++ [scanned name nb its])) fs.
Proof.
  intros (Lx & A & T & c & Hst & Hck & Hm & Hb & Hp & Hsg & HT & HA & t & Ht & Hf & Hcl) Hne Hnt Hn.
  rewrite (Hcl eq_refl), app_nil_r in Hf.
  exists Lx, (A ++ [(name, its)]), T, c. split_and!; try done.
  - eapply meets_covered; [|done]. done.
  - by rewrite <- app_assoc.
  - cbn [segs set_segs]. rewrite Hsg, fmap_app. f_equal. simpl. unfold seg_of. simpl. by rewrite Hn.
  - intros x. rewrite elem_of_app. intros [Hx|Hx%list_elem_of_singleton].
    + destruct (HA x Hx) as (H1 & H2 & H3). split_and!; [set_solver|done|done].
    + subst x. done.
Qed.

Lemma h_recover_entry b name todo :
  name ∉ todo →
  hoare (recovering b (name :: todo)) (recover_entry name) (λ _, recovering b todo) (down b) (down b).
Proof.
  intros Hnt. unfold recover_entry. destruct (parseSegmentName name) as [nb|] eqn:Hn.
  2: { apply h_ret. intros s fs (Lx & A & T & c & Hst & Hck & Hm & Hb & Hp & Hsg & HT & HA).
       exists Lx, A, T, c. split_and!; try done.
       - intros x Hx. specialize (HT x Hx). apply elem_of_cons in HT as [He|]; [|done].
         destruct (st_parse _ _ Hst x) as [? Hx']; [rewrite Hp; set_solver|]. rewrite He, Hn in Hx'. done.
       - intros x Hx. destruct (HA x Hx) as (H1 & H2 & H3). split_and!; [set_solver|done|done]. }
  eapply h_bind; [by apply h_scan|]. intros [sg stats]. apply h_ex. intros its.
  eapply h_pure; [intros s fs (_ & H); exact H|]. cbn [fst snd]. intros (-> & Hsk & Hc). rewrite Hsk.
  eapply h_bind with (Q := λ _, entry_read b name todo its true); [apply h_ret; by intros s fs [H _]|].
  intros []. rewrite Hc. destruct (Z.eqb_spec (Z.of_nat (length its)) 0) as [Hz|Hz].
  - assert (its = []) as -> by (destruct its; [done|simpl in Hz; lia]). apply h_syscall.
    + intros s fs H. by apply entry_removed in H.
    + right. apply entry_read_down.
    + apply entry_read_down.
    + intros s fs H. apply entry_removed in H; [|done]. by eapply recovering_down.
  - apply h_modify. intros s fs H. eapply entry_taken; [done| |done|done]. intros ->. done.
Qed.

Lemma h_recover_entries b todo :
  NoDup todo → hoare (recovering b todo) (recover_entries todo) (λ _, recovering b []) (down b) (down b).
Proof.
  induction todo as [|name todo IH]; intros Hn; cbn [recover_entries]; [by apply h_ret|].
  apply NoDup_cons in Hn as [Hnt Hn]. eapply h_bind; [by apply h_recover_entry|]. intros []. by apply IH.
Qed.

(** The recovered segments in order. *)
Definition base_lt (x y : segment) : Prop := base x < base y.

Lemma seg_bases Lx : ∀ p,
  appended p (concat Lx.*2) → (∀ x, x ∈ Lx → x.2 ≠ []) →
  StronglySorted base_lt (seg_of <$> Lx) ∧ Forall (λ sg, p < base sg) (seg_of <$> Lx).
Proof.
  induction Lx as [|[n its] Lx IH]; intros p Ha Hne; [split; constructor|].
  destruct its as [|[q pl] its]; [by destruct (Hne (n, []) ltac:(set_solver))|].
  cbn [fmap list_fmap concat snd] in Ha. pose proof Ha as [Ha1 Ha2]%appended_app.
  destruct (IH _ Ha2) as [H1 H2]; [set_solver|].
  assert (Hq : q <= List.last (fst <$> (q, pl) :: its) p).
  { rewrite fmap_cons, list_last_cons. apply appended_last_ge. apply Ha1. }
  assert (Hpq : p < q) by apply Ha1. rewrite fmap_cons. split; constructor; try done.
  - eapply Forall_impl; [exact H2|]. intros sg Hsg. unfold base_lt. simpl in *. lia.
  - eapply Forall_impl; [exact H2|]. intros sg Hsg. simpl in *. lia.
Qed.

Lemma sorted_le l : StronglySorted base_lt l → StronglySorted base_le l.
Proof.
  induction 1 as [|sg l _ IH Hf]; constructor; [done|]. eapply Forall_impl; [exact Hf|].
  unfold base_lt, base_le. intros x Hx. lia.
Qed.

Lemma sorted_inj l x y : StronglySorted base_lt l → x ∈ l → y ∈ l → base x = base y → x = y.
Proof.
  induction 1 as [|sg l _ IH Hf]; [set_solver|]. rewrite Forall_forall in Hf. unfold base_lt in Hf.
  rewrite !elem_of_cons. intros [->|Hx] [->|Hy] He; [done| | |by apply IH].
  - specialize (Hf y Hy). lia.
  - specialize (Hf x Hx). lia.
Qed.

#[local] Instance base_le_trans : Transitive base_le.
Proof. intros x y z. unfold base_le. lia. Qed.

#[local] Instance base_le_total : Total base_le.
Proof. intros x y. unfold base_le. lia. Qed.

(** All segments are read and in order. *)
Definition in_order (b : duty) : assertion := λ s fs,
  ∃ Lx c, stored fs Lx ∧ checkpoint_is fs c ∧ meets b s (concat Lx.*2) c ∧ blank s ∧ segs s = seg_of <$> Lx ∧
    ∀ x, x ∈ Lx → x.2 ≠ [] ∧ fs !! x.1 = Some (bytes_of_items x.2).

Lemma recovering_sorted b s fs :
  recovering b [] s fs → in_order b (set_segs s (merge_sort base_le (segs s))) fs.
Proof.
  intros (Lx & A & T & c & Hst & Hck & Hm & Hb & Hp & Hsg & HT & HA).
  assert (T = []) as -> by (destruct T as [|x T]; [done|]; specialize (HT x ltac:(set_solver)); set_solver).
  rewrite app_nil_r in Hp. exists Lx, c.
  assert (Hall : ∀ x, x ∈ Lx → x.2 ≠ [] ∧ fs !! x.1 = Some (bytes_of_items x.2)).
  { intros x Hx. rewrite Hp in Hx. by apply HA. }
  split_and!; try done.
  - eapply meets_covered; [|done]. done.
  - cbn [segs set_segs]. destruct (seg_bases Lx 0) as [Hs _]; [apply Hm|intros x Hx; by apply Hall|].
    eapply StronglySorted_unique_strong; [|apply StronglySorted_merge_sort; apply _|by apply sorted_le|].
    + intros x y Hx Hy H1 H2. unfold base_le in *. apply (sorted_inj _ x y Hs); [|done|lia].
      rewrite merge_sort_Permutation, Hsg, <- Hp in Hx. done.
    + by rewrite merge_sort_Permutation, Hsg, Hp.
Qed.

Lemma checkpoint_roundtrip c : is_u64 c → parse_checkpoint (checkpoint_bytes c) = Some c.
Proof.
  intros Hc. unfold parse_checkpoint.
  assert (H1 : slice 0 4 (checkpoint_bytes c) = checkpointMagic).
  { unfold checkpoint_bytes. by apply (slice_app_at []). }
  assert (H2 : slice 4 12 (checkpoint_bytes c) = be_put 8 c).
  { unfold checkpoint_bytes. apply slice_app_at; [done|]. by rewrite be_put_length. }
  assert (H3 : slice 12 16 (checkpoint_bytes c) = be_put 4 (Checksum (be_put 8 c))).
  { unfold checkpoint_bytes. rewrite app_assoc, <- (app_nil_r (be_put 4 _)).
    apply slice_app_at; rewrite ?length_app, !be_put_length; done. }
  assert (Hl : length (checkpoint_bytes c) = checkpointSize).
  { unfold checkpoint_bytes. by rewrite !length_app, !be_put_length. }
  rewrite Hl, Nat.eqb_refl, H1, H2, H3, bool_decide_true by done.
  pose proof (Checksum_range (be_put 8 c)). rewrite be_get_put_small by (simpl; lia). rewrite Z.eqb_refl. simpl.
  f_equal. apply be_get_put_small. unfold is_u64, u64_mod in Hc. simpl. lia.
Qed.

Lemma h_readCheckpoint P E C c :
  (∀ s fs, P s fs → checkpoint_is fs c ∧ C s fs) →
  hoare P readCheckpoint (λ r s fs, P s fs ∧ (r = Some c ∨ (r = None ∧ c = 0))) E C.
Proof.
  intros HP. unfold readCheckpoint.
  eapply h_bind with (Q := λ r s fs, P s fs ∧ (match r with Ok d => parse_checkpoint d = Some c | Err _ => c = 0 end)).
  - apply h_try. eapply h_bind with (Q := λ _, P).
    + apply h_syscall; [done|by left| |]; intros s fs H; by apply HP.
    + intros []. apply h_files. intros f0. destruct (f0 !! checkpointName) as [bs|] eqn:Eb.
      * apply h_ret. intros s fs [-> H]. split; [done|]. destruct (HP _ _ H) as [[[He _]|[He Hu]] _]; [congruence|].
        rewrite Eb in He. injection He as ->. by apply checkpoint_roundtrip.
      * apply h_raise. intros s fs [-> H] e. split; [done|]. destruct (HP _ _ H) as [[[_ He]|[He Hu]] _]; [done|congruence].
  - intros r. apply h_ret. intros s fs [H Hr]. split; [done|]. destruct r; auto.
Qed.

(** The duty while the cursor is not set. *)
Definition loose (b : duty) : duty := mkDuty (owed b) (given b) (acked_max b) (top b) (tried b) false.

Lemma firm_loose b : tracked b = true → firm (loose b) = b.
Proof. destruct b. simpl. by intros ->. Qed.

(** The spool with the segments [Lx] and the checkpoint [c]. *)
Lemma in_order_rep b s fs Lx c s' :
  stored fs Lx → checkpoint_is fs c → meets b s (concat Lx.*2) c → blank s → segs s = seg_of <$> Lx →
  (∀ x, x ∈ Lx → x.2 ≠ [] ∧ fs !! x.1 = Some (bytes_of_items x.2)) → (∀ it, given b it → it.1 <= tried b) →
  segs s' = segs s → w s' = None → lastSeq s' = Z.max c (last_of (concat Lx.*2)) → ackedThrough s' = c →
  ackedInFirst s' = 0 → ackOffset s' = 0 →
  rep (loose b) s' fs Lx.*2 c.
Proof.
  intros Hst Hck Hm (_ & _ & _ & _ & _ & Hd1 & Hd2) Hsg Hall Htry E1 E2 E3 E4 E5 E6.
  destruct (seg_bases Lx 0) as [Hs Hpos]; [apply Hm|intros x Hx; by apply Hall|].
  assert (Hpath : path <$> segs s' = Lx.*1).
  { rewrite E1, Hsg, <- list_fmap_compose. apply list_fmap_ext. intros i x _. apply seg_of_path. }
  assert (Hc : 0 <= c) by (destruct Hck as [[_ ->]|[_ [? _]]]; lia).
  constructor; rewrite ?Hpath.
  - rewrite E1, Hsg. apply Forall2_fmap. apply Forall_Forall2_diag. apply Forall_forall. intros x Hx.
    destruct (Hall x Hx). apply seg_of_holds; [done|done|]. by apply (st_parse _ _ Hst).
  - apply Hst.
  - apply Hst.
  - eapply meets_covered with (s := s); [intros q [? _]; done|]. by destruct Hm.
  - rewrite E3, E4. lia.
  - done.
  - lia.
  - intros n Hn. congruence.
  - intros i j sg its Hi Hj Hij. rewrite E1, Hsg in Hi. apply list_lookup_fmap_Some in Hi as (x & -> & Hx).
    apply list_lookup_fmap_Some in Hj as (y & -> & Hy).
    assert (Hb : ∀ it, it ∈ y.2 → base (seg_of x) <= it.1).
    { intros it Hit. pose proof (m_items _ _ _ _ Hm) as Ha. apply list_elem_of_split_length in Hx as (l1 & l2 & HL & Hlen). subst Lx i.
      destruct x as [n [|[q pl] its]]; [by destruct (Hall (n, []) ltac:(set_solver))|]. simpl.
      rewrite fmap_app, concat_app in Ha. apply appended_suffix in Ha. cbn [fmap list_fmap concat snd app] in Ha.
      destruct Ha as (_ & _ & _ & Ha). rewrite lookup_app_r in Hy by lia.
      destruct (j - length l1)%nat as [|k]; simpl in Hy.
      - simplify_eq. simpl in Hit. apply elem_of_cons in Hit as [->|Hit]; [done|].
        apply appended_prefix in Ha. pose proof (appended_gt _ _ _ Ha Hit). lia.
      - apply appended_suffix in Ha. assert (Hin : it ∈ concat l2.*2).
        { apply list_elem_of_In, in_concat. exists y.2. rewrite <- !list_elem_of_In. split; [|done].
          apply list_elem_of_fmap. exists y. split; [done|]. by eapply list_elem_of_lookup_2. }
        pose proof (appended_gt _ _ _ Ha Hin). lia. }
    split; [|done]. assert (Hxin : x ∈ Lx) by (by eapply list_elem_of_lookup_2).
    rewrite Forall_forall in Hpos. split; [apply Hpos, list_elem_of_fmap; eauto|].
    destruct (Hall x Hxin) as [Hne _]. destruct x as [n [|[q pl] its]]; [done|]. simpl.
    apply (Htry (q, pl)), (m_given _ _ _ _ Hm). apply list_elem_of_In, in_concat. exists ((q, pl) :: its).
    split; [|by left]. apply list_elem_of_In, list_elem_of_fmap. by exists (n, (q, pl) :: its).
  - by apply cursor_zero.
  - done.
Qed.

Lemma last_seg_fmap Lx x : last_seg (seg_of <$> Lx ++ [x]) = Some (seg_of x).
Proof. rewrite fmap_app. apply last_seg_app. Qed.

Lemma last_in_order Lx :
  (∀ x, x ∈ Lx → x.2 ≠ []) →
  match last_seg (seg_of <$> Lx) with Some sg => last sg | None => 0 end = last_of (concat Lx.*2).
Proof.
  intros Hne. destruct (decide (Lx = [])) as [->|Hn]; [done|]. destruct (exists_last Hn) as (l & x & ->).
  rewrite last_seg_fmap. assert (Hx : x.2 ≠ []) by (apply Hne; set_solver).
  rewrite fmap_app, concat_app. simpl. rewrite app_nil_r, last_of_suffix by done.
  destruct x as [n [|[q pl] its]]; [done|]. simpl. unfold last_of. by rewrite fmap_cons, list_last_cons.
Qed.

Lemma rep_set_w b s fs itss c sg :
  rep b s fs itss c → last_seg (segs s) = Some sg → rep b (set_w s (Some (path sg))) fs itss c.
Proof.
  intros [] Hl. constructor; try done; [by eapply meets_covered; [|done]|]. intros n [= <-]. by exists sg.
Qed.

Lemma ends_live_suffix gone itss : (∀ its, its ∈ gone ++ itss → its ≠ []) → ends_live itss.
Proof. intros H l its ->. apply H. set_solver. Qed.

Lemma dropping_ends b a itss0 s fs :
  dropping b a itss0 s fs → (∀ its, its ∈ itss0 → its ≠ []) → ∃ itss c, rep b s fs itss c ∧ ends_live itss.
Proof.
  intros (gone & itss & c & H & -> & _) Hne. exists itss, c. split; [done|]. by eapply ends_live_suffix.
Qed.

(** From the segments in order to the spool before the cleanup. *)
Lemma h_load_checkpoint b :
  (∀ it, given b it → it.1 <= tried b) →
  hoare (in_order b) load_checkpoint
    (λ _ s fs, ∃ a itss0, dropping (loose b) a itss0 s fs ∧ ∀ its, its ∈ itss0 → its ≠ []) (down b) (down b).
Proof.
  intros Htry. unfold load_checkpoint.
  eapply h_pre; [|apply (h_ex (λ (x : list (string * list item) * Z * Spool) s fs,
    let '(Lx, c, s1) := x in s = s1 ∧ stored fs Lx ∧ checkpoint_is fs c ∧ meets b s (concat Lx.*2) c ∧ blank s ∧
      segs s = seg_of <$> Lx ∧ ∀ x, x ∈ Lx → x.2 ≠ [] ∧ fs !! x.1 = Some (bytes_of_items x.2)))].
  { intros s fs (Lx & c & H). by exists (Lx, c, s). }
  intros [[Lx c] s1]. apply h_modify_bind. set (P := λ s fs, ∃ s1, _ ∧ _).
  assert (HP : ∀ s fs, P s fs → checkpoint_is fs c ∧ down b s fs).
  { intros s fs (s0 & -> & -> & Hst & Hck & Hm & _). split; [done|]. exists Lx, c. split_and!; [done|done|].
    eapply meets_covered; [|exact Hm]. intros q Hq. by destruct (last_seg (segs s1)). }
  assert (Hend : ∀ s fs, P s fs → ∀ s', segs s' = segs s → w s' = w s → lastSeq s' = Z.max c (lastSeq s) →
    ackedThrough s' = c → ackedInFirst s' = ackedInFirst s → ackOffset s' = ackOffset s →
    ∃ a itss0, dropping (loose b) a itss0 s' fs ∧ ∀ its, its ∈ itss0 → its ≠ []).
  { intros s fs (s0 & -> & -> & Hst & Hck & Hm & Hb & Hsg & Hall) s' E1 E2 E3 E4 E5 E6.
    assert (Hlast : match last_seg (segs s1) with Some sg => last sg | None => 0 end = last_of (concat Lx.*2)).
    { rewrite Hsg. apply last_in_order. intros x Hx. by apply Hall. }
    exists c, Lx.*2. split.
    2: { intros its Hin. apply list_elem_of_fmap in Hin as (x & -> & Hx). by apply Hall. }
    assert (Hr : rep (loose b) s' fs Lx.*2 c).
    2: { apply rep_dropping in Hr. by rewrite E4 in Hr. }
    pose proof Hb as (B1 & B2 & B3 & B4 & B5 & B6 & B7).
    apply (in_order_rep b s1 fs Lx c s'); try done.
    - rewrite E1. by destruct (last_seg (segs s1)).
    - rewrite E2. by destruct (last_seg (segs s1)).
    - rewrite E3, <- Hlast. destruct (last_seg (segs s1)); [done|]. by rewrite B2.
    - rewrite E5. by destruct (last_seg (segs s1)).
    - rewrite E6. by destruct (last_seg (segs s1)). }
  eapply h_bind; [apply (h_readCheckpoint P _ _ c); exact HP|]. intros ck.
  eapply h_pure; [intros s fs [_ H]; exact H|]. intros [->|[-> Hz]].
  - apply h_modify_bind, h_modify. intros s fs (s0 & -> & H & _). apply (Hend s0 fs H); cbn [lastSeq set_ackedThrough];
      destruct (Z.ltb_spec (lastSeq s0) c); cbn [lastSeq set_lastSeq set_ackedThrough]; (done || lia).
  - apply h_ret. intros s fs [H _]. pose proof H as (s0 & -> & -> & _ & _ & _ & Hb & _).
    pose proof Hb as (B1 & B2 & B3 & B4 & B5 & B6 & B7). eapply (Hend _ fs H); try done; rewrite Hz.
    + destruct (last_seg (segs s1)) as [sg|] eqn:E; cbn [lastSeq set_lastSeq]; [|lia].
      destruct H as (s2 & _ & -> & _ & _ & Hm & _ & Hsg & Hall).
      pose proof (last_in_order Lx (λ x Hx, proj1 (Hall x Hx))) as Hl. rewrite <- Hsg, E in Hl. rewrite Hl.
      pose proof (appended_last_ge _ _ (m_items _ _ _ _ Hm)) as Hge. fold (last_of (concat Lx.*2)) in Hge. lia.
    + by destruct (last_seg (segs s1)).
Qed.

Lemma h_open_active b :
  hoare (evicting b) open_active (λ _, evicting b) (down b) (down b).
Proof.
  unfold open_active. apply h_get. intros s0. eapply h_pre; [|apply (h_pure True); [done|intros _]].
  { intros s fs H. exact H. }
  destruct (last_seg (segs s0)) as [sg|] eqn:E; [|apply h_ret; by intros s fs [_ H]].
  eapply h_bind; [apply h_call; intros s fs [_ H]; by apply evicting_down|]. intros [].
  eapply h_bind; [apply h_set_fd|]. intros []. apply h_modify.
  intros s fs (-> & itss & c & H & He & Ht). exists itss, c. split_and!; [by eapply rep_set_w|done|done].
Qed.

Lemma h_recover b :
  tracked b = true → (∀ it, given b it → it.1 <= tried b) →
  hoare (λ s fs, down b s fs ∧ blank s ∧ segs s = []) recover (λ _ s fs, evicting b s fs ∧ bounded s) (down b) (down b).
Proof.
  intros Htr Htry. unfold recover, ReadDir.
  eapply h_bind with (Q := λ l s fs, NoDup l ∧ recovering b l s fs).
  { eapply h_bind; [apply h_call; by intros s fs [H _]|]. intros []. apply h_files. intros f0. apply h_ret.
    intros s fs (-> & (Lx & c & Hst & Hck & Hm) & Hb & Hs). split.
    - rewrite merge_sort_Permutation. apply NoDup_elements.
    - exists Lx, [], Lx, c. split_and!; try done; [|set_solver].
      intros x Hx. rewrite merge_sort_Permutation. apply elem_of_elements, elem_of_dom.
      destruct (st_files _ _ Hst x Hx) as (t & Ht & _). by rewrite Ht. }
  intros entries. eapply h_pure; [intros s fs [H _]; exact H|]. intros Hnd.
  eapply h_bind; [eapply h_pre; [|by apply h_recover_entries]; by intros s fs [_ H]|]. intros [].
  eapply h_bind with (Q := λ _, in_order b).
  { apply h_modify. intros s fs H. by apply recovering_sorted. }
  intros []. eapply h_bind; [by apply h_load_checkpoint|]. intros [].
  apply h_ex. intros a. apply h_ex. intros itss0. eapply h_pure; [intros s fs [_ H]; exact H|]. intros Hne.
  assert (Hdown : ∀ s fs, down (loose b) s fs → down b s fs).
  { intros s fs H. rewrite <- (firm_loose b Htr). destruct H as (Lx & c & H1 & H2 & H3). exists Lx, c.
    split_and!; [done|done|]. by apply (proj2 (meets_firm (loose b) s _ c)). }
  eapply h_bind with (Q := λ _, dropping (loose b) a itss0).
  { unfold dropAckedSegments. apply h_get. intros s0. eapply h_pre; [|eapply h_post; [| | |apply h_drop_acked]].
    - intros s fs [-> [H _]]. split; [exact H|]. done.
    - by intros u s fs [H _].
    - intros s fs H. by eapply Hdown, dropping_down.
    - done. }
  intros []. eapply h_bind with (Q := λ _, advanced b a itss0 false).
  { eapply h_pre; [|eapply h_post; [| | |apply (h_advance (loose b) a itss0 false)]].
    - intros s fs H. split; [exact H|done].
    - intros u s fs H. by rewrite (firm_loose b Htr) in H.
    - intros s fs H. by eapply Hdown, dropping_down.
    - done. }
  intros []. eapply h_bind with (Q := λ _, evicting b).
  { apply h_modify. intros s fs H%advanced_dropping. destruct (dropping_ends _ _ _ _ _ H Hne) as (itss & c & Hr & He).
    destruct (recount_rep _ _ _ _ _ Hr) as (Hr' & Ht & _). by exists itss, c. }
  intros []. eapply h_bind; [apply h_open_active|].
  intros []. eapply h_bind; [eapply h_post; [| | |by apply h_enforceMaxSize]; [done|apply evicting_down|done]|].
  intros []. apply h_modify. intros s fs [H Hb]. split; [by apply evicting_publish|done].
Qed.

(** [Open], whatever the process before it left in memory. *)
Lemma h_Open b o ms :
  tracked b = true → (∀ it, given b it → it.1 <= tried b) →
  hoare (λ s fs, ∀ s', down b s' fs) (Open o ms) (λ _ s fs, evicting b s fs ∧ bounded s) (down b) (down b).
Proof.
  intros Htr Htry. unfold Open. destruct (String.eqb _ _); [by apply h_raise|].
  eapply h_bind; [apply h_call; by intros s fs H|]. intros [].
  eapply h_bind; [apply h_now; intros t s fs H; exact H|]. intros t.
  apply h_modify_bind. eapply h_pre; [|by apply h_recover].
  intros s fs (s1 & -> & H). split_and!; [apply H|done|done].
Qed.

(** ** The rest of the interface *)

(** The duty once the losses in the range [low..high] are reported. *)
Definition excuse (b : duty) (low high : Z) : duty :=
  mkDuty (λ it, owed b it ∧ ¬ (low ≠ 0 ∧ low <= it.1 <= high)) (given b) (acked_max b) (top b) (tried b) (tracked b).

Lemma meets_excuse b s s' items c :
  meets b s items c → meets (excuse b (droppedLow s) (droppedHigh s)) s' items c.
Proof.
  intros [Ho H2 H3 H4 H5 H6]. constructor; try done. intros it [Hit Hn].
  destruct (Ho it Hit) as [|[|]]; auto. by destruct Hn.
Qed.

Lemma down_excuse b s s' fs : down b s fs → down (excuse b (droppedLow s) (droppedHigh s)) s' fs.
Proof. intros (Lx & c & H1 & H2 & H3). exists Lx, c. split_and!; [done|done|]. by eapply meets_excuse. Qed.

Lemma full_excuse b s fs n :
  full b s fs → full (excuse b (droppedLow s) (droppedHigh s)) (set_dropped s n 0 0) fs.
Proof.
  intros [(itss & c & H) Ht]. split; [|done]. exists itss, c. destruct H. constructor; try done.
  by eapply meets_excuse.
Qed.

Lemma h_Sync b : hoare (full b) Sync (λ _, full b) (full b) (down b).
Proof.
  unfold Sync. apply h_get. intros s0. destruct (closed s0); [apply h_raise; by intros s fs [_ H]|].
  eapply h_pre; [|apply h_sync; [apply full_sync|done|apply full_down]]. by intros s fs [_ H].
Qed.

Lemma full_closed b s fs x : full b s fs → full b (set_closed s x) fs.
Proof. intros H. eapply full_same; [| | |exact H]; done || same_fields. Qed.

Lemma h_Close b : hoare (full b) Close (λ _, full b) (full b) (down b).
Proof.
  unfold Close. apply h_get. intros s0. destruct (closed s0); [apply h_ret; by intros s fs [_ H]|].
  eapply h_bind with (Q := λ _, full b); [apply h_modify; intros s fs [_ H]; by apply full_closed|]. intros [].
  eapply h_bind with (Q := λ _, full b).
  { apply h_try. eapply h_post; [| | |apply (h_sync (full b) (full b) (down b))];
      [done|done|done|apply full_sync|done|apply full_down]. }
  intros r. destruct (w s0) as [name|]; [|destruct r; [by apply h_ret|by apply h_raise]].
  eapply h_bind with (Q := λ _, full b).
  { apply h_try. eapply h_post; [| | |apply (h_close (full b) (full b) (down b))]; try done. apply full_down. }
  intros c. eapply h_bind with (Q := λ _, full b); [apply h_modify; intros s1 fs1 H; by apply full_no_w|].
  intros []. destruct r, c; (by apply h_ret) || (by apply h_raise).
Qed.
End proofs.
