(* ===== verification/SpoolHistory.v ===== *)
(** * Histories of the spool

    What [SpoolProofs] gives for a spool directory over its life: any sequence of
    appends, reads, acknowledgements and restarts, with system calls that fail and
    processes that die, keeps every accepted event until it is acknowledged or
    accounted for as lost. *)

From S2P Require Import Prelude GoStrings Event Metrics Frame Segment Spool SpoolProofs.

Section history.
Context `{J : Json}.

(** What is done to a spool directory; [ODie] ends the process, [OOpen] starts one. *)
Inductive op : Type :=
| OAppend (e : option Event) | ONext (through max : Z) | OAck (seq : Z) | ODrain | OSync | OClose
| ODie | OOpen (o : Options) (ms : option Metrics.Agent).

(** An operation with the fates of its system calls and the clock readings it gets. *)
Record event_op : Type := mkOp { e_op : op; e_fates : list (call → fault); e_clocks : list time }.

(** A directory's life so far: whether a process is up, its spool and the files, the
    records given to [Append], those it accepted, the highest acknowledgement, and the
    loss ranges that were drained or died with their process. *)
Record history : Type := mkHistory {
  up : bool;
  cur : st;
  attempted : list item;
  accepted : list item;
  acks : Z;
  losses : list (Z * Z)
}.

Definition with_cur (h : history) (u : bool) (s : st) : history :=
  mkHistory u s (attempted h) (accepted h) (acks h) (losses h).

Definition begin (h : history) (x : event_op) : st :=
  mkSt (sp (cur h)) (mkWorld (files (wd (cur h))) (fd_open (wd (cur h))) (e_fates x) (e_clocks x)).

(** The process ends, and what it knows of losses with it. *)
Definition die (h : history) : history :=
  mkHistory false (cur h) (attempted h) (accepted h) (acks h)
    (losses h ++ [(droppedLow (sp (cur h)), droppedHigh (sp (cur h)))]).

(** The end of an operation; [good] is what its success adds. *)
Definition settle {A} (h : history) (r : st * out A) (good : A → history → history) : history :=
  match r with
  | (s, Ret a) => good a (with_cur h true s)
  | (s, Raise _) => with_cur h true s
  | (s, Panic) | (s, Crash) => die (with_cur h true s)
  end.

Definition item_of (e : option Event) : option item :=
  e ← e; p ← Marshal e; Some (Sequence e, p).

Definition attempt (it : option item) (h : history) : history :=
  mkHistory (up h) (cur h) (attempted h ++ option_list it) (accepted h) (acks h) (losses h).
Definition accept (it : option item) (h : history) : history :=
  mkHistory (up h) (cur h) (attempted h) (accepted h ++ option_list it) (acks h) (losses h).
Definition note_ack (seq : Z) (h : history) : history :=
  mkHistory (up h) (cur h) (attempted h) (accepted h) (Z.max (acks h) seq) (losses h).
Definition note_loss (r : option (Z * Z * Z)) (h : history) : history :=
  mkHistory (up h) (cur h) (attempted h) (accepted h) (acks h)
    (losses h ++ match r with Some (_, low, high) => [(low, high)] | None => [] end).

Definition step (h : history) (x : event_op) : history :=
  let s := begin h x in
  if up h then
    match e_op x with
    | OAppend e => settle (attempt (item_of e) h) (Append e s) (λ _, accept (item_of e))
    | ONext through max => settle h (NextAfter through max s) (λ _ h, h)
    | OAck seq => settle (note_ack seq h) (Ack seq s) (λ _ h, h)
    | ODrain => settle h (DrainDropped s) note_loss
    | OSync => settle h (Sync s) (λ _ h, h)
    | OClose => settle h (Close s) (λ _ h, h)
    | ODie => die h
    | OOpen _ _ => h
    end
  else
    match e_op x with
    | OOpen o ms =>
        match Open o ms s with
        | (s, Ret _) => with_cur h true s
        | (s, _) => die (with_cur h true s)
        end
    | _ => h
    end.

(** What the environment keeps to: fates as in [fair], 64-bit sequences that do not go
    backwards, and no record whose length and checksum look like a record's start. *)
Definition valid (h : history) (x : event_op) : Prop :=
  Forall fate_ok (e_fates x) ∧
  match e_op x with
  | OAppend (Some e) =>
      is_u64 (Sequence e) ∧ (∀ it, it ∈ attempted h → it.1 <= Sequence e) ∧
      ∀ p, Marshal e = Some p → header_clean p
  | OAck seq => is_u64 seq
  | _ => True
  end.

(** A directory that starts empty. *)
Inductive reachable : history → Prop :=
| reachable_start s fd : reachable (mkHistory false (mkSt s (mkWorld ∅ fd [] [])) [] [] 0 [])
| reachable_step h x : reachable h → valid h x → reachable (step h x).

(** ** The invariant of a history *)

Definition reported_loss (l : list (Z * Z)) (q : Z) : Prop := ∃ r, r ∈ l ∧ r.1 ≠ 0 ∧ r.1 <= q <= r.2.

Definition top_of (l : list item) : Z := foldr (λ it, Z.max it.1) 0 l.

Definition duty_of (h : history) : duty :=
  mkDuty (λ it, it ∈ accepted h ∧ ¬ reported_loss (losses h) it.1) (λ it, it ∈ attempted h) (acks h)
    (top_of (accepted h)) (top_of (attempted h)) true.

Record hist_pure (h : history) : Prop := {
  hp_acks : 0 <= acks h;
  hp_tried : ∀ it, it ∈ attempted h → 0 <= it.1;
  hp_sub : ∀ it, it ∈ accepted h → it ∈ attempted h;
  hp_sorted : StronglySorted Z.lt (fst <$> accepted h)
}.

Definition hist_mem (h : history) : Prop :=
  if up h then at_st (full (duty_of h)) (cur h) else ∀ s, down (duty_of h) s (files (wd (cur h))).

Definition hist_inv (h : history) : Prop := hist_mem h ∧ hist_pure h.

Lemma top_of_ge l it : it ∈ l → it.1 <= top_of l.
Proof. induction l as [|x l IH]; [set_solver|]. intros [->|H]%elem_of_cons; simpl; [lia|]. specialize (IH H). lia. Qed.

Lemma top_of_nonneg l : 0 <= top_of l.
Proof. induction l; simpl; lia. Qed.

Lemma top_of_app l k : top_of (l ++ k) = Z.max (top_of l) (top_of k).
Proof. induction l as [|x l IH]; simpl; [|lia]. pose proof (top_of_nonneg k). lia. Qed.

Lemma top_of_le l z : 0 <= z → (∀ it, it ∈ l → it.1 <= z) → top_of l <= z.
Proof.
  induction l as [|x l IH]; intros Hz H; simpl; [done|].
  specialize (IH Hz ltac:(intros it Hit; apply H; set_solver)). specialize (H x ltac:(set_solver)). lia.
Qed.

(** [b'] asks no more than [b]. *)
Record relaxes (b b' : duty) : Prop := {
  rx_owed : ∀ it, owed b' it → owed b it;
  rx_given : ∀ it, given b it → given b' it;
  rx_acked : acked_max b <= acked_max b';
  rx_top : top b' <= top b;
  rx_tried : tried b <= tried b';
  rx_tracked : tracked b = true
}.

Lemma meets_relaxes b b' s items c : relaxes b b' → meets b s items c → meets b' s items c.
Proof.
  intros [R1 R2 R3 R4 R5 R6] [H1 H2 H3 H4 H5 H6]. constructor; try done; [|by auto|lia|lia].
  intros it Hit. destruct (H1 it (R1 it Hit)) as [|[|]]; auto. right; left; lia.
Qed.

Lemma down_relaxes b b' s fs : relaxes b b' → down b s fs → down b' s fs.
Proof. intros HR (Lx & c & H1 & H2 & H3). exists Lx, c. split_and!; [done|done|]. by eapply meets_relaxes. Qed.

Lemma rep_relaxes b b' s fs itss c : relaxes b b' → rep b s fs itss c → rep b' s fs itss c.
Proof.
  intros HR H. destruct H. constructor; try done.
  - by eapply meets_relaxes.
  - intros i j sg its Hi Hj Hij. destruct (r_base i j sg its Hi Hj Hij) as [Hb Hx]. split; [|done].
    pose proof (rx_tried _ _ HR). lia.
  - intros _. by apply r_first, (rx_tracked _ _ HR).
Qed.

Lemma full_relaxes b b' s fs : relaxes b b' → full b s fs → full b' s fs.
Proof.
  intros HR [(itss & c & H) Ht]. split; [|done]. exists itss, c. by eapply rep_relaxes.
Qed.

Lemma relaxes_refl b : tracked b = true → relaxes b b.
Proof. intros H. by constructor; auto; lia. Qed.

Lemma reported_app l k q : reported_loss (l ++ k) q ↔ reported_loss l q ∨ reported_loss k q.
Proof.
  unfold reported_loss. setoid_rewrite elem_of_app. naive_solver.
Qed.

Lemma reported_one low high q : reported_loss [(low, high)] q ↔ low ≠ 0 ∧ low <= q <= high.
Proof.
  unfold reported_loss. split.
  - intros (r & ->%list_elem_of_singleton & H). done.
  - intros H. exists (low, high). split; [by apply list_elem_of_singleton|done].
Qed.

(** Losing a process: its duty without the range it knew of. *)
Lemma die_mem h s :
  down (duty_of h) (sp s) (files (wd s)) →
  ∀ s', down (duty_of (die (with_cur h true s))) s' (files (wd s)).
Proof.
  intros H s'. eapply down_relaxes; [|by apply (down_excuse _ _ s' _ H)].
  constructor; simpl; try done; try lia. intros it [Hit Hr]. rewrite reported_app, reported_one in Hr. tauto.
Qed.

Lemma settle_inv {A} h h' (m : M A) (good : A → history → history) (Q : A → assertion) x :
  Forall fate_ok (e_fates x) → at_st (full (duty_of h)) (cur h) → hist_pure h' →
  hoare (λ s fs, s = sp (cur h) ∧ full (duty_of h) s fs) m Q (full (duty_of h')) (down (duty_of h')) →
  (∀ a s, at_st (Q a) s → hist_inv (good a (with_cur h' true s))) →
  hist_inv (settle h' (m (begin h x)) good).
Proof.
  intros Hf Hm Hp Hh HQ. destruct (Hh (begin h x)) as [_ Ho]; [done|by split|].
  destruct (m (begin h x)) as [s r]. simpl in Ho. destruct r as [a|e| |]; simpl.
  - by apply HQ.
  - by split; [|destruct Hp].
  - done.
  - split; [|by destruct Hp]. intros s'. by apply die_mem.
Qed.

Context `{L : !JsonLaws J}.

(** An operation that leaves the ghosts as they are. *)
Lemma settle_same {A} h (m : M A) x :
  hist_inv h → up h = true → Forall fate_ok (e_fates x) →
  hoare (λ s fs, s = sp (cur h) ∧ full (duty_of h) s fs) m (λ _, full (duty_of h)) (full (duty_of h)) (down (duty_of h)) →
  hist_inv (settle h (m (begin h x)) (λ _ h, h)).
Proof.
  intros [Hm Hp] Hup Hf Hh. unfold hist_mem in Hm. rewrite Hup in Hm.
  eapply settle_inv; [done|done|done|exact Hh|]. intros a s Hs. split; [done|by destruct Hp].
Qed.

(** [Append] of a valid event, with the event among those attempted. *)
Lemma h_Append_history h e p :
  Marshal e = Some p → is_u64 (Sequence e) → (∀ it, it ∈ attempted h → it.1 <= Sequence e) →
  (∀ p, Marshal e = Some p → header_clean p) →
  let it := (Sequence e, p) in
  let h' := attempt (Some it) h in
  hoare (λ s fs, s = sp (cur h) ∧ full (duty_of h) s fs) (Append (Some e))
    (λ _ s fs, evicting (accept_event (duty_of h') it) s fs ∧ bounded s ∧ top_of (accepted h) < Sequence e)
    (full (duty_of h')) (down (duty_of h')).
Proof.
  intros Em Hu Hle Hcl it h'.
  assert (Hsx : tried (duty_of h') = Sequence e).
  { simpl. rewrite top_of_app. simpl. destruct Hu as [Hu _].
    assert (top_of (attempted h) <= Sequence e) by (apply top_of_le; [lia|done]). lia. }
  assert (Hrx : relaxes (duty_of h) (duty_of h')).
  { constructor; simpl; try done; [set_solver|rewrite top_of_app; lia]. }
  intros s Hfs [Es Hs%(full_relaxes _ _ _ _ Hrx)].
  destruct (h_Append (duty_of h') e p Em Hu ltac:(simpl; set_solver) Hsx eq_refl (Hcl p Em) s Hfs Hs) as [Hf' HA'].
  split; [done|].
  destruct (snd (Append (Some e) s)) as [[]|er| |] eqn:Er; try done. destruct HA' as [HA' Hb].
  split_and!; [done|done|].
  (** a success means that the sequence is above the last one *)
  assert (Hlast : lastSeq (sp s) < Sequence e).
  { unfold Append, mbind, M_bind, get in Er. destruct (closed (sp s)); [done|].
    destruct (Z.leb_spec (Sequence e) (lastSeq (sp s))); [done|lia]. }
  destruct Hs as [(itss & c & Hr) _]. pose proof (m_top _ _ _ _ (r_meets _ _ _ _ _ Hr)) as Ht.
  pose proof (r_last _ _ _ _ _ Hr). simpl in Ht. lia.
Qed.

Lemma step_append h x e :
  hist_inv h → up h = true → valid h x → e_op x = OAppend e → hist_inv (step h x).
Proof.
  intros Hi Hup [Hf Hv] Ho. unfold step. rewrite Hup, Ho. rewrite Ho in Hv. destruct Hi as [Hm Hp].
  unfold hist_mem in Hm. rewrite Hup in Hm.
  assert (Hnone : ∀ m : M (), hoare (full (duty_of h)) m (λ _ _ _, False) (full (duty_of h)) (down (duty_of h)) →
    hist_inv (settle (attempt None h) (m (begin h x)) (λ _, accept None))).
  { intros m Hh. assert (Hd : duty_of (attempt None h) = duty_of h) by (unfold duty_of; simpl; by rewrite app_nil_r).
    eapply settle_inv with (Q := λ _ _ _, False); [done|exact Hm| | |done].
    - destruct Hp. by constructor; simpl; rewrite ?app_nil_r.
    - rewrite Hd. eapply h_pre; [|exact Hh]. by intros s fs [_ H]. }
  destruct e as [e|]; cbn [item_of mbind option_bind]; [|by apply (Hnone (raise ErrNil)), h_raise].
  destruct Hv as (Hu & Hle & Hcl). destruct (Marshal e) as [p|] eqn:Em; cbn [mbind option_bind].
  2: { apply Hnone. unfold Append. apply h_get. intros s0. rewrite Em.
       destruct (closed s0), (Sequence e <=? lastSeq s0); apply h_raise; by intros s fs (_ & H). }
  set (it := (Sequence e, p)). set (h' := attempt (Some it) h).
  assert (Hp' : hist_pure h').
  { destruct Hp as [P1 P2 P3 P4]. constructor; simpl; [done| | |done].
    - intros y [Hy| ->%list_elem_of_singleton]%elem_of_app; [by apply P2|apply Hu].
    - intros y Hy. apply elem_of_app. left. by apply P3. }
  eapply settle_inv; [done|exact Hm|exact Hp'|apply (h_Append_history h e p Em Hu Hle); intros q Hq; apply Hcl; congruence|].
  intros [] s (Hs%evicting_full & _ & Ht). split.
  + unfold hist_mem. simpl. eapply full_relaxes; [|exact Hs]. constructor; simpl; try done; try lia.
    * intros y [[Hy| ->%list_elem_of_singleton]%elem_of_app Hn]; [by left|by right].
    * rewrite top_of_app. simpl. destruct Hu; lia.
  + destruct Hp' as [P1 P2 P3 P4]. constructor; simpl; [done|done| |].
    * intros y [Hy| ->%list_elem_of_singleton]%elem_of_app; [by apply P3|]. simpl. set_solver.
    * rewrite fmap_app. apply StronglySorted_app_2; [|done|by repeat constructor].
      intros y z (i & -> & Hi)%list_elem_of_fmap ->%list_elem_of_singleton.
      pose proof (top_of_ge _ _ Hi). simpl. lia.
Qed.

Lemma step_ack h x seq :
  hist_inv h → up h = true → valid h x → e_op x = OAck seq → hist_inv (step h x).
Proof.
  intros [Hm Hp] Hup [Hf Hv] Ho. unfold step. rewrite Hup, Ho. rewrite Ho in Hv.
  unfold hist_mem in Hm. rewrite Hup in Hm. set (h' := note_ack seq h).
  assert (Hrx : relaxes (duty_of h) (duty_of h')) by (constructor; simpl; (done || lia)).
  eapply (settle_inv h h' (Ack seq) _ (λ _, full (duty_of h'))); [done|done| | |].
  - destruct Hp. constructor; simpl; try done. lia.
  - intros s Hfs [Es Hs%(full_relaxes _ _ _ _ Hrx)]. pose proof Hs as [(itss & c & Hr) Ht].
    pose proof (h_Ack (duty_of h') (sp s) itss seq eq_refl) as HA.
    destruct (HA ltac:(simpl; destruct Hv; lia) s Hfs) as [Hf' HA']; [split_and!; [done|by exists c|done]|].
    split; [done|]. destruct (snd (Ack seq s)); try done.
    destruct HA' as [(_ & _ & H)|H]; [done|by eapply cleaned_full].
  - intros a s Hs. split; [done|]. destruct Hp. constructor; simpl; try done. lia.
Qed.

Lemma step_drain h x : hist_inv h → up h = true → e_op x = ODrain → hist_inv (step h x).
Proof.
  intros [Hm Hp] Hup Ho. unfold step. rewrite Hup, Ho. unfold hist_mem in Hm. rewrite Hup in Hm.
  unfold DrainDropped, mbind, M_bind, get, modify. cbn [begin sp]. set (s := sp (cur h)).
  destruct (dropped s =? 0); split; simpl; try (destruct Hp; by constructor).
  - unfold hist_mem. simpl. eapply full_relaxes; [|exact Hm]. constructor; simpl; try done. by rewrite app_nil_r.
  - unfold hist_mem. simpl. eapply full_relaxes; [|exact (full_excuse _ _ _ 0 Hm)]. constructor; simpl; try done.
    intros it [Hit Hr]. rewrite reported_app, reported_one in Hr. tauto.
Qed.

Lemma step_next h x through max :
  hist_inv h → up h = true → valid h x → e_op x = ONext through max → hist_inv (step h x).
Proof.
  intros Hi Hup [Hf _] Ho. unfold step. rewrite Hup, Ho. apply settle_same; [done..|].
  eapply h_pre with (P' := full (duty_of h)); [by intros s fs [_ H]|]. intros s Hfs Hs.
  destruct (closed (sp s)) eqn:Ec; [unfold NextAfter, mbind, M_bind, get; rewrite Ec; done|].
  destruct Hs as [(itss & c & Hr) Ht]. destruct (reads_NextAfter (duty_of h) c itss s through max eq_refl Hr Ht Ec) as
    (s' & r & -> & E1 & E2 & E3 & Hres & _). simpl. split; [by apply E3|].
  assert (Hs' : at_st (full (duty_of h)) s') by (unfold at_st; rewrite E1, E2; split; [by exists itss, c|done]).
  destruct Hres as [->|[[e ->]| ->]]; [done|done|by apply full_down].
Qed.

Lemma step_open h x o ms :
  hist_inv h → up h = false → valid h x → e_op x = OOpen o ms → hist_inv (step h x).
Proof.
  intros [Hm Hp] Hup [Hf _] Ho. unfold step. rewrite Hup, Ho. unfold hist_mem in Hm. rewrite Hup in Hm.
  destruct (h_Open (duty_of h) o ms eq_refl (λ it, top_of_ge (attempted h) it) (begin h x) Hf Hm) as [_ HO].
  destruct (Open o ms (begin h x)) as [s r]. simpl in HO.
  assert (Hpure : ∀ u s l, hist_pure (mkHistory u s (attempted h) (accepted h) (acks h) l)) by (by intros; destruct Hp; constructor).
  destruct r as [a|e| |]; [..|done|]; (split; [|apply Hpure]); unfold hist_mem; simpl.
  - apply evicting_full, HO.
  - intros s'. by apply die_mem.
  - intros s'. by apply die_mem.
Qed.

Lemma step_inv h x : hist_inv h → valid h x → hist_inv (step h x).
Proof.
  intros Hi Hv. pose proof Hv as [Hf _]. destruct (up h) eqn:Hup; destruct (e_op x) eqn:Ho;
    try (unfold step; rewrite Hup, Ho; exact Hi).
  - by eapply step_append.
  - by eapply step_next.
  - by eapply step_ack.
  - by apply step_drain.
  - unfold step. rewrite Hup, Ho. apply settle_same; [done..|]. eapply h_pre; [|apply h_Sync]. by intros s fs [_ H].
  - unfold step. rewrite Hup, Ho. apply settle_same; [done..|]. eapply h_pre; [|apply h_Close]. by intros s fs [_ H].
  - unfold step. rewrite Hup, Ho. destruct Hi as [Hm Hp]. unfold hist_mem in Hm. rewrite Hup in Hm.
    split; [|by destruct Hp]. intros s'. apply (die_mem h (cur h)). by apply full_down.
  - by eapply step_open.
Qed.

Lemma start_inv s fd : hist_inv (mkHistory false (mkSt s (mkWorld ∅ fd [] [])) [] [] 0 []).
Proof.
  split; [|constructor; simpl; set_solver || lia || constructor].
  intros s'. exists [], 0. split_and!.
  - constructor; simpl; try set_solver; [constructor|]. intros n [x Hx]. by rewrite lookup_empty in Hx.
  - by left.
  - constructor; simpl; try done; set_solver.
Qed.

Lemma reachable_inv h : reachable h → hist_inv h.
Proof. induction 1; [apply start_inv|by apply step_inv]. Qed.

(** ** What a reader gets *)

(** A call none of whose system calls fails. *)
Definition quiet (s : st) : st := mkSt (sp s) (mkWorld (files (wd s)) (fd_open (wd s)) [] (clocks (wd s))).

Lemma quiet_reads {A} (m : M A) s a : reads m (quiet s) a → m (quiet s) = (quiet s, Ret a).
Proof. intros (s' & r & -> & _ & _ & _ & _ & H). by destruct (H eq_refl) as [-> ->]. Qed.

(** A running spool, open, with the records [itss] and the checkpoint [c]. *)
Lemma reachable_rep h :
  reachable h → up h = true →
  ∃ itss c, rep (duty_of h) (sp (cur h)) (files (wd (cur h))) itss c ∧ totals_ok (sp (cur h)).
Proof.
  intros [Hm _]%reachable_inv Hup. unfold hist_mem in Hm. rewrite Hup in Hm. destruct Hm as [(itss & c & H) Ht].
  by exists itss, c.
Qed.

Lemma pending_view b s fs itss c :
  rep b s fs itss c → totals_ok s → pending s = Z.of_nat (length (view s itss)).
Proof.
  intros H (_ & -> & _). rewrite (sum_counts _ _ _ (r_segs _ _ _ _ _ H)).
  pose proof (cursor_range _ _ _ _ _ H). unfold view. rewrite length_drop. lia.
Qed.

Lemma read_all b s fs itss c :
  rep b s fs itss c → Forall (λ it, 0 < it.1) (concat itss).
Proof.
  intros H. apply Forall_forall. intros it Hit. by apply (appended_gt 0 _ _ (m_items _ _ _ _ (r_meets _ _ _ _ _ H))).
Qed.

(** [Next] in a quiet world: the first [max] records the cursor has not passed. *)
Lemma next_view b s itss c max :
  tracked b = true → rep b (sp s) (files (wd s)) itss c → totals_ok (sp s) → closed (sp s) = false →
  Next max (quiet s) = (quiet s, Ret (take (Z.to_nat max) (decode <$> view (sp s) itss))).
Proof.
  intros Hb H Ht Hc. apply quiet_reads. pose proof (reads_NextAfter b c itss (quiet s) 0 max Hb H Ht Hc) as Hr.
  unfold Next. replace (filter _ _) with (view (sp (quiet s)) itss) in Hr; [exact Hr|].
  symmetry. apply filter_whole. intros it Hi%in_drop.
  by apply (proj1 (Forall_forall _ _) (read_all _ _ _ _ _ H)).
Qed.

Lemma skipped_acked b s fs itss c it :
  rep b s fs itss c → it ∈ take (Z.to_nat (ackedInFirst s)) (concat itss) → it.1 <= ackedThrough s.
Proof.
  intros H. pose proof (r_cursor _ _ _ _ _ H) as Hc. destruct itss as [|its itss].
  { simpl. rewrite take_nil. set_solver. }
  destruct Hc as (k & Hk & -> & _ & Hle). rewrite Nat2Z.id. simpl. rewrite take_app_le by done. apply Hle.
Qed.

Lemma decode_sequence b s fs itss c it :
  rep b s fs itss c → it ∈ concat itss → Unmarshal it.2 = Some (decode it) ∧ Sequence (decode it) = it.1.
Proof.
  intros H Hit. pose proof (m_ok _ _ _ _ (r_meets _ _ _ _ _ H)) as Hok. rewrite Forall_forall in Hok.
  destruct (Hok it Hit) as (_ & e & He & Hs). unfold decode. by rewrite He.
Qed.


(** Next invents, repeats and reorders nothing.  In every such history, what Next
    returns are events that were handed to Append, with strictly increasing sequence
    numbers, and as many as were asked for if there are as many. *)
Theorem next_sound h max :
  reachable h → up h = true → closed (sp (cur h)) = false →
  ∃ evs, Next max (quiet (cur h)) = (quiet (cur h), Ret evs) ∧ StronglySorted Z.lt (Sequence <$> evs) ∧
    (∀ e, e ∈ evs → ∃ it, it ∈ attempted h ∧ Unmarshal it.2 = Some e ∧ Sequence e = it.1) ∧
    Z.of_nat (length evs) = Z.min (Z.max 0 max) (pending (sp (cur h))).
Proof.
  intros Hr Hup Hc. destruct (reachable_rep h Hr Hup) as (itss & c & H & Ht). eexists.
  split; [by eapply (next_view (duty_of h))|]. pose proof (pending_view _ _ _ _ _ H Ht) as Hp.
  assert (Hsub : ∀ it, it ∈ view (sp (cur h)) itss → it ∈ concat itss) by (intros it; apply in_drop).
  split_and!.
  - rewrite fmap_take, <- list_fmap_compose. apply (StronglySorted_app_1_l _ _ (drop (Z.to_nat max) (fst <$> view (sp (cur h)) itss))).
    replace ((Sequence ∘ decode) <$> view (sp (cur h)) itss) with (fst <$> view (sp (cur h)) itss).
    2: { apply list_fmap_ext. intros i it Hi%list_elem_of_lookup_2. symmetry.
         by apply (decode_sequence _ _ _ _ _ _ H (Hsub it Hi)). }
    rewrite take_drop. unfold view. rewrite fmap_drop.
    apply (StronglySorted_app_1_r _ (take (Z.to_nat (ackedInFirst (sp (cur h)))) (fst <$> concat itss))).
    rewrite take_drop. apply (appended_sorted 0), H.
  - intros e (it & -> & Hit%Hsub)%in_take%list_elem_of_fmap. exists it.
    destruct (decode_sequence _ _ _ _ _ _ H Hit) as [H1 H2]. split_and!; [|done|done].
    by apply (m_given _ _ _ _ (r_meets _ _ _ _ _ H)).
  - rewrite length_take, length_fmap. lia.
Qed.


(** *** What an acknowledgement leaves alone *)

Definition fixed (s : Spool) : bool * Z := (closed s, lastSeq s).
Definition keeps {A} (m : M A) : Prop := ∀ s, fixed (sp (fst (m s))) = fixed (sp s).

Lemma keeps_ret {A} (a : A) : keeps (mret a).
Proof. done. Qed.
Lemma keeps_raise {A} e : keeps (@raise A e).
Proof. done. Qed.
Lemma keeps_get : keeps get.
Proof. done. Qed.
Lemma keeps_files : keeps read_files.
Proof. done. Qed.
Lemma keeps_modify f : (∀ s, fixed (f s) = fixed s) → keeps (modify f).
Proof. intros H s. apply H. Qed.
Lemma keeps_bind {A B} (m : M A) (k : A → M B) : keeps m → (∀ a, keeps (k a)) → keeps (m ≫= k).
Proof.
  intros Hm Hk s. specialize (Hm s). unfold mbind, M_bind. destruct (m s) as [s' [a|e| |]]; simpl in *; try done.
  by rewrite Hk.
Qed.
Lemma keeps_try {A} (m : M A) : keeps m → keeps (try m).
Proof. intros Hm s. specialize (Hm s). unfold try. by destruct (m s) as [s' [a|e| |]]. Qed.
Lemma keeps_now : keeps Now.
Proof. intros s. unfold Now. by destruct (clocks (wd s)). Qed.
Lemma keeps_fate c : keeps (fate c).
Proof. intros s. unfold fate. by destruct (fates (wd s)). Qed.
Lemma keeps_syscall c f : keeps (syscall c f).
Proof. apply keeps_bind; [apply keeps_fate|]. by intros [|n|[|n]]. Qed.
Lemma keeps_Write c name bs : keeps (Write c name bs).
Proof. apply keeps_bind; [apply keeps_fate|]. by intros [|n|n]. Qed.
Lemma keeps_Close_w : keeps Close_w.
Proof. apply keeps_bind; [done|]. intros []; [|done]. apply keeps_bind; [done|]. intros []. apply keeps_syscall. Qed.

#[local] Hint Resolve keeps_ret keeps_raise keeps_get keeps_files keeps_now keeps_fate keeps_syscall keeps_Write
  keeps_Close_w keeps_try keeps_bind : keeps.

Lemma keeps_or_remove {A} (m : M A) : keeps m → keeps (or_remove m).
Proof. intros H. unfold or_remove, Remove. apply keeps_bind; [auto with keeps|]. intros []; auto with keeps. Qed.

(** One step of a proof that a program keeps them. *)
Ltac keep_step :=
  match goal with
  | |- keeps (or_remove _) => apply keeps_or_remove
  | |- keeps (modify _) => apply keeps_modify; intros ?
  | |- keeps (_ ≫= _) => apply keeps_bind; [|intros ?]
  | |- keeps (match ?x with _ => _ end) => destruct x
  | |- keeps (if ?x then _ else _) => destruct x
  | |- keeps _ => solve [auto with keeps]
  end.

Lemma keeps_writeCheckpoint seq : keeps (writeCheckpoint seq).
Proof. unfold writeCheckpoint, Remove, syncDir. repeat keep_step. Qed.

Lemma keeps_drop_acked fuel : ∀ removed, keeps (drop_acked fuel removed).
Proof. induction fuel as [|fuel IH]; intros removed; cbn [drop_acked]; unfold syncDir, Remove; repeat keep_step; done. Qed.

Lemma fixed_report i stats s : fixed (reportNewDamage i stats s) = fixed s.
Proof.
  unfold reportNewDamage, recordLoss. destruct (segs s !! i); [|done]. destruct (_ <=? _); [done|].
  by destruct (_ <=? _).
Qed.

Lemma keeps_advance : keeps advanceAckCursor.
Proof.
  unfold advanceAckCursor, walk_segment, ReadFile. repeat keep_step; try done; [apply fixed_report|].
  match goal with |- fixed (if ?x then _ else _) = _ => destruct x end; [|done]. by destruct (_ <? _).
Qed.

Lemma keeps_Ack seq : keeps (Ack seq).
Proof.
  unfold Ack, cleanup, dropAckedSegments. repeat keep_step; try done;
    auto using keeps_writeCheckpoint, keeps_drop_acked, keeps_advance with keeps.
  by destruct a1, a2.
Qed.

(** What is above [a] is in the view whether or not the cursor has moved, if all that
    the cursor has passed is at most [a]. *)
Lemma above_view b s fs itss c a :
  rep b s fs itss c → ackedThrough s <= a →
  filter (λ it, a < it.1) (concat itss) = filter (λ it, a < it.1) (view s itss).
Proof.
  intros H Ha. unfold view. symmetry. apply filter_drop. intros it Hit Hlt.
  pose proof (skipped_acked _ _ _ _ _ _ H Hit). lia.
Qed.

Lemma closed_Ack seq s : closed (sp s) = true → Ack seq s = (s, Raise errClosed).
Proof. intros Hc. unfold Ack, mbind, M_bind, get. by rewrite Hc. Qed.

(** The events above [a] that are left once everything up to [a] is cleaned away. *)
Lemma cleaned_view b s fs itss0 c0 a s' fs' :
  rep b s fs itss0 c0 → ackedThrough s <= a → cleaned b a itss0 true s' fs' →
  ∃ itss c, rep b s' fs' itss c ∧ totals_ok s' ∧ a <= c ∧
    decode <$> view s' itss = filter (λ e, a < Sequence e) (decode <$> view s itss0).
Proof.
  intros H Ha (gone & itss & c & H' & Hsp & Hat & Hgone & Ht & Hex). exists itss, c.
  pose proof (r_acked _ _ _ _ _ H'). split_and!; [done|done|lia|].
  rewrite (filter_fmap decode _ (λ it, a < it.1)).
  2: { intros it Hit%in_drop. by destruct (decode_sequence _ _ _ _ _ _ H Hit) as [_ ->]. }
  rewrite <- (above_view _ _ _ _ _ _ H Ha), Hsp, concat_app, filter_app.
  rewrite (filter_none _ (concat gone)) by (intros it Hit; specialize (Hgone it Hit); lia). simpl.
  rewrite (above_view _ _ _ _ _ a H') by lia. f_equal. symmetry. apply filter_whole. intros it Hit.
  rewrite <- Hat. by apply Hex.
Qed.

Lemma empty_view b s fs itss c : rep b s fs itss c → lastSeq s = 0 → view s itss = [].
Proof.
  intros H Hl. destruct (view s itss) as [|it l] eqn:Ev; [done|]. exfalso.
  assert (Hit : it ∈ concat itss).
  { apply (in_drop it (Z.to_nat (ackedInFirst s))). fold (view s itss). rewrite Ev. set_solver. }
  pose proof (last_of_bound _ _ _ _ _ _ H Hit). pose proof (proj1 (Forall_forall _ _) (read_all _ _ _ _ _ H) it Hit).
  simpl in *. lia.
Qed.

Lemma next_nothing max s : closed (sp s) = false → pending (sp s) = 0 → Next max s = (s, Ret []).
Proof.
  intros Hc Hp. unfold Next, NextAfter, mbind, M_bind, get. rewrite Hc, Hp, Z.eqb_refl, orb_true_r. done.
Qed.


(** ** How much the directory holds *)

(** The length of the segment files. *)
Definition disk_bytes (fs : disk) : Z :=
  map_fold (λ name b n, (if decide (is_Some (parseSegmentName name)) then Z.of_nat (length b) else 0) + n) 0 fs.

Lemma disk_bytes_insert fs name b :
  fs !! name = None →
  disk_bytes (<[name := b]> fs) =
  (if decide (is_Some (parseSegmentName name)) then Z.of_nat (length b) else 0) + disk_bytes fs.
Proof. intros Hn. unfold disk_bytes. rewrite map_fold_insert_L; [done| |done]. intros; lia. Qed.

Lemma disk_bytes_none fs : (∀ n, is_Some (fs !! n) → ¬ is_Some (parseSegmentName n)) → disk_bytes fs = 0.
Proof.
  induction fs as [|name b fs Hn IH] using map_ind; intros H; [done|]. rewrite disk_bytes_insert by done.
  rewrite decide_False by (apply H; by rewrite lookup_insert_eq). rewrite IH; [done|]. intros n Hx.
  apply H. destruct (decide (n = name)) as [->|]; [by rewrite lookup_insert_eq|by rewrite lookup_insert_ne].
Qed.

Lemma disk_bytes_segs : ∀ sgs fs itss,
  Forall2 (holds fs) sgs itss → NoDup (path <$> sgs) →
  (∀ n, is_Some (fs !! n) → is_Some (parseSegmentName n) → n ∈ path <$> sgs) →
  disk_bytes fs = sum_of size sgs.
Proof.
  induction sgs as [|sg sgs IH]; intros fs itss Hs Hnd Hall.
  - apply disk_bytes_none. intros n H1 H2. specialize (Hall n H1 H2). set_solver.
  - apply Forall2_cons_inv_l in Hs as (its & itss' & Hh & Hs & ->). cbn [fmap list_fmap] in *.
    apply NoDup_cons in Hnd as [Hni Hnd]. pose proof (h_file _ _ _ Hh) as Hf.
    rewrite <- (insert_delete_id fs (path sg) _ Hf), disk_bytes_insert by apply lookup_delete_eq.
    rewrite decide_True by apply (h_name _ _ _ Hh). cbn [sum_of foldr]. rewrite (h_size _ _ _ Hh). f_equal.
    apply (IH _ itss'); [|done|].
    + eapply all_hold_other; [|exact Hs]. intros sg' Hin. rewrite lookup_delete_ne; [done|]. intros E. apply Hni.
      rewrite E. by apply list_elem_of_fmap_2.
    + intros n H1 H2. destruct (decide (n = path sg)) as [->|Hne]; [by rewrite lookup_delete_eq in H1; destruct H1|].
      rewrite lookup_delete_ne in H1 by done. specialize (Hall n H1 H2). set_solver.
Qed.

(** The calls that enforce the size limit. *)
Definition grows (h : history) (x : event_op) (s' : st) : Prop :=
  match e_op x with
  | OAppend e => up h = true ∧ Append e (begin h x) = (s', Ret ())
  | OOpen o ms => up h = false ∧ Open o ms (begin h x) = (s', Ret ())
  | _ => False
  end.

Lemma grows_evicting h x s' :
  reachable h → valid h x → grows h x s' →
  ∃ b, evicting b (sp s') (files (wd s')) ∧ bounded (sp s').
Proof.
  intros [Hm Hp]%reachable_inv [Hf Hv] Hg. unfold grows in Hg. unfold hist_mem in Hm.
  destruct (e_op x) as [[e|]| | | | | | |o ms]; try done; destruct Hg as [Hup Hg]; rewrite Hup in Hm; [|done|].
  - destruct Hv as (Hu & Hle & Hcl). destruct (Marshal e) as [p|] eqn:Em.
    + destruct (h_Append_history h e p Em Hu Hle ltac:(intros q Hq; apply Hcl; congruence) (begin h x) Hf (conj eq_refl Hm)) as [_ HA].
      rewrite Hg in HA. simpl in HA. eexists. split; apply HA.
    + unfold Append, mbind, M_bind, get in Hg. rewrite Em in Hg. by repeat case_match.
  - destruct (h_Open (duty_of h) o ms eq_refl (λ it, top_of_ge (attempted h) it) (begin h x) Hf Hm) as [_ HO].
    rewrite Hg in HO. eexists; exact HO.
Qed.

(** the spool keeps to its size limit, and knows its size.  When Append or Open
    returns nil, in any history, Bytes is the total length of the segment files in the
    directory, and it is at most MaxSize unless only one segment is left. *)
Theorem size_limit h x s' :
  reachable h → valid h x → grows h x s' →
  Bytes s' = (s', Ret (disk_bytes (files (wd s')))) ∧
  (disk_bytes (files (wd s')) <= MaxSize (opts (sp s')) ∨ (length (segs (sp s')) <= 1)%nat).
Proof.
  intros Hr Hv Hg. destruct (grows_evicting h x s' Hr Hv Hg) as (b & (itss & c & H & _ & Ht) & Hb).
  assert (E : disk_bytes (files (wd s')) = bytes (sp s')).
  { rewrite (disk_bytes_segs (segs (sp s')) _ itss (r_segs _ _ _ _ _ H) (r_names _ _ _ _ _ H) (r_all _ _ _ _ _ H)).
    symmetry. apply Ht. }
  unfold Bytes, mbind, M_bind, get. rewrite E. by split.
Qed.
(** ** A close that fails *)

(** The spool believes that a file is open for appending, and its descriptor is closed. *)
Definition wedged (s : st) : Prop := is_Some (w (sp s)) ∧ fd_open (wd s) = false.

Lemma wedged_roll seq s : wedged s → ∃ s', roll seq s = (s', Raise ErrIO) ∧ wedged s'.
Proof.
  intros [[n Hw] Hfd]. unfold roll, sync, Close_w, on_fd, mbind, M_bind, get, read_fd, raise, modify, Now.
  rewrite Hw. rewrite ?Hw, ?Hfd. destruct (dirty (sp s)); rewrite ?Hfd.
  - by exists s; split; [|split; eauto].
  - destruct (clocks (wd s)); cbn [sp wd fd_open fst snd]; rewrite ?Hfd; eexists; (split; [done|]); split; simpl; eauto.
Qed.

Lemma wedged_write p s : wedged s → ∃ s' r, write_record p s = (s', r) ∧ wedged s' ∧ (r = Raise ErrIO ∨ r = Panic).
Proof.
  intros [[n Hw] Hfd].
  unfold write_record, Write_w, on_fd, try, active, read_files, mbind, M_bind, mret, M_ret, get, read_fd, raise, panic.
  rewrite Hw, Hfd. cbn -[last_seg]. rewrite Hfd. destruct (last_seg (segs (sp s))); eexists _, _; (split; [done|]);
    (split; [by split; eauto|]); auto.
Qed.


End history.

(** ** A directory's life, by example

    A toy encoding of events, their sequence in twenty digits. *)

Definition text_of (q : Z) : list byte := byte_of_ascii <$> digits 20 q.

Definition toy_parse (p : list byte) : option Z := ParseUint (of_chars (ascii_of_byte <$> p)).

#[local] Instance toy : Json := {
  Marshal := λ e, Some (text_of (Sequence e));
  Unmarshal := λ p, event_at <$> toy_parse p;
  sequenceOf := toy_parse
}.

Lemma toy_parse_text q : is_u64 q → toy_parse (text_of q) = Some q.
Proof.
  intros Hu. unfold toy_parse, text_of, ParseUint. rewrite <- list_fmap_compose.
  assert (Hid : (ascii_of_byte ∘ byte_of_ascii) <$> digits 20 q = digits 20 q).
  { rewrite <- (list_fmap_id (digits 20 q)) at 2. apply list_fmap_ext. intros i a _. apply ascii_of_byte_of_ascii. }
  rewrite Hid.
  rewrite to_of_chars, fold_parse_digits; [|lia|unfold is_u64, u64_mod in *; simpl; lia|unfold is_u64 in Hu; lia].
  destruct (digits 20 q) eqn:Ed; [pose proof (digits_length 20 q); by rewrite Ed in *|done].
Qed.

Lemma digits_not_nul n q : x00 ∉ byte_of_ascii <$> digits n q.
Proof.
  induction n as [|n IH]; cbn [digits fmap list_fmap]; [set_solver|]. intros [E|]%elem_of_cons; [|done].
  set (d := q / 10 ^ Z.of_nat n mod 10) in *. assert (Hd : 0 <= d < 10) by (apply Z.mod_pos_bound; lia).
  assert (Hc : d = 0 ∨ d = 1 ∨ d = 2 ∨ d = 3 ∨ d = 4 ∨ d = 5 ∨ d = 6 ∨ d = 7 ∨ d = 8 ∨ d = 9) by lia.
  repeat (destruct Hc as [Hc|Hc]); rewrite Hc in E; vm_compute in E; done.
Qed.

#[local] Instance toy_laws : JsonLaws toy.
Proof.
  split.
  - intros e p Hu [= <-]. by apply toy_parse_text.
  - intros e p Hu [= <-]. exists (event_at (Sequence e)).
    unfold Unmarshal, toy. by rewrite toy_parse_text.
  - intros e p [= <-]. split; [|apply digits_not_nul]. intros E. apply (f_equal length) in E.
    unfold text_of in E. by rewrite length_fmap, digits_length in E.
Qed.

(** Whether an operation is valid, computed. *)
Definition header_check (p : list byte) : bool :=
  forallb (λ i, negb (bool_decide (slice i (i + 4) (record p) = recordMagic))) (seq 1 7).

Lemma header_check_clean p : header_check p = true → header_clean p.
Proof.
  intros H i Hi E. unfold header_check in H. rewrite forallb_forall in H. specialize (H i).
  rewrite in_seq, E, bool_decide_true in H by done. simpl in H. by specialize (H ltac:(lia)).
Qed.

Definition check_op (h : history) (x : event_op) : bool :=
  match e_op x with
  | OAppend (Some e) =>
      (0 <=? Sequence e) && (Sequence e <? u64_mod) && forallb (λ it, it.1 <=? Sequence e) (attempted h) &&
      header_check (text_of (Sequence e))
  | OAck seq => (0 <=? seq) && (seq <? u64_mod)
  | _ => true
  end.

Lemma check_op_valid h x : Forall fate_ok (e_fates x) → check_op h x = true → valid h x.
Proof.
  intros Hf Hc. split; [done|]. unfold check_op in Hc. destruct (e_op x) as [[e|]| |seq| | | | |]; try done.
  - apply andb_true_iff in Hc as [Hc Hh]. apply andb_true_iff in Hc as [Hu Ha].
    split_and!.
    + unfold is_u64. lia.
    + intros it Hit. rewrite forallb_forall in Ha. specialize (Ha it). rewrite <- list_elem_of_In in Ha.
      specialize (Ha Hit). lia.
    + intros p [= <-]. by apply header_check_clean.
  - unfold is_u64. lia.
Qed.

Fixpoint check_run (h : history) (xs : list event_op) : bool :=
  match xs with [] => true | x :: xs => check_op h x && check_run (step h x) xs end.

Lemma reachable_run xs : ∀ h,
  reachable h → Forall (λ x, Forall fate_ok (e_fates x)) xs → check_run h xs = true →
  reachable (fold_left step xs h).
Proof.
  induction xs as [|x xs IH]; intros h Hr Hf Hc; [done|]. simpl in *. apply Forall_cons in Hf as [Hf Hfs].
  apply andb_true_iff in Hc as [Hc Hcs]. apply IH; [|done|done]. constructor; [done|]. by apply check_op_valid.
Qed.

Definition dies_in_write (n : nat) : call → fault := λ c, match c with CWrite => Dies n | _ => Fine end.

Definition demo_options : Options := mkOptions "/spool" 150 80 true 0.
Definition demo_op (o : op) : event_op := mkOp o [] [].

(** Three events; the process dies in the write of a fourth, five bytes of which reach
    the file; after a restart a fifth event, and the first is acknowledged. *)
Definition demo_ops : list event_op :=
  [demo_op (OOpen demo_options None);
   demo_op (OAppend (Some (event_at 1))); demo_op (OAppend (Some (event_at 2))); demo_op (OAppend (Some (event_at 3)));
   mkOp (OAppend (Some (event_at 4))) (replicate 4 (dies_in_write 5)) [];
   demo_op (OOpen demo_options None);
   demo_op (OAppend (Some (event_at 5)));
   demo_op (OAck 1)].

Definition demo_start : history :=
  mkHistory false (mkSt (fresh_spool demo_options 0 None) (mkWorld ∅ false [] [])) [] [] 0 [].
Definition demo_history : history := fold_left step demo_ops demo_start.

Lemma demo_reachable : reachable demo_history.
Proof.
  apply reachable_run; [constructor| |vm_compute; reflexivity].
  repeat constructor; simpl; try done.
Qed.


(** What Next gives at the end of it: the second event, the third and the fifth. *)
Lemma demo_next : Next 10 (quiet (cur demo_history)) = (quiet (cur demo_history), Ret (event_at <$> [2; 3; 5])).
Proof. vm_compute. reflexivity. Qed.


Lemma next_sound_witness :
  ∃ evs, Next 2 (quiet (cur demo_history)) = (quiet (cur demo_history), Ret evs) ∧ StronglySorted Z.lt (Sequence <$> evs) ∧
    (∀ e, e ∈ evs → ∃ it, it ∈ attempted demo_history ∧ Unmarshal it.2 = Some e ∧ Sequence e = it.1) ∧
    Z.of_nat (length evs) = Z.min (Z.max 0 2) (pending (sp (cur demo_history))).
Proof. apply (next_sound demo_history 2); [apply demo_reachable|vm_compute; reflexivity|vm_compute; reflexivity]. Defined.


(** An acknowledgement on that spool. *)
Definition demo_ack : event_op := demo_op (OAck 3).
Definition demo_acked : st := fst (Ack 3 (begin demo_history demo_ack)).


(** Another event, which makes the spool evict its oldest segment. *)
Definition demo_full : event_op := demo_op (OAppend (Some (event_at 6))).
Definition demo_filled : st := fst (Append (Some (event_at 6)) (begin demo_history demo_full)).

Lemma size_limit_witness :
  Bytes demo_filled = (demo_filled, Ret (disk_bytes (files (wd demo_filled)))) ∧
  (disk_bytes (files (wd demo_filled)) <= MaxSize (opts (sp demo_filled)) ∨ (length (segs (sp demo_filled)) <= 1)%nat).
Proof.
  apply (size_limit demo_history demo_full).
  - apply demo_reachable.
  - apply check_op_valid; [constructor|vm_compute; reflexivity].
  - split; vm_compute; reflexivity.
Defined.

(** The third append finds the segment full; closing it fails. *)
Definition fails_in_close : call → fault := λ c, match c with CClose => Fails 0 | _ => Fine end.
Definition demo_wedged : history :=
  fold_left step
    [demo_op (OOpen demo_options None); demo_op (OAppend (Some (event_at 1))); demo_op (OAppend (Some (event_at 2)));
     mkOp (OAppend (Some (event_at 3))) (replicate 4 fails_in_close) []] demo_start.

Lemma demo_wedged_reachable : reachable demo_wedged.
Proof. apply reachable_run; [constructor| |vm_compute; reflexivity]. repeat constructor; simpl; try done. Qed.


(** Without the assumption on checkpoint reads: three events are acknowledged and their
    segments deleted; a restart whose read of the checkpoint fails succeeds all the
    same, and gives 0 as the last sequence. *)
Definition checkpoint_unreadable : call → fault := λ c, match c with CCheckpoint => Fails 0 | _ => Fine end.

Lemma unreadable_checkpoint_forgets :
  let h := fold_left step
    [demo_op (OOpen demo_options None); demo_op (OAppend (Some (event_at 1))); demo_op (OAppend (Some (event_at 2)));
     demo_op (OAppend (Some (event_at 3))); demo_op (OAck 3); demo_op ODie;
     mkOp (OOpen demo_options None) (replicate 8 checkpoint_unreadable) []] demo_start in
  up h = true ∧ (fst <$> accepted h) = [1; 2; 3] ∧ snd (LastSequence (cur h)) = Ret 0.
Proof. vm_compute. split_and!; reflexivity. Qed.
