(* ===== verification/Threads.v ===== *)
(** * Goroutines over shared state

    A goroutine is a program of atomic actions on a shared state: a critical section
    of a mutex, one operation on an atomic variable, one call that another goroutine
    cannot observe half done.  Between two actions of a goroutine any others may run.
    [ensures] is a rely/guarantee logic for such programs. *)

From S2P Require Import Prelude.

(** [Act f k]: one atomic action, then [k] of its result.  An action that gives [None]
    ends the whole process. *)
Inductive prog (S A : Type) : Type :=
| Done (a : A)
| Act {X : Type} (f : S → option (S * X)) (k : X → prog S A).
Arguments Done {S A}.
Arguments Act {S A X}.

Fixpoint pbind {S A B} (p : prog S A) (c : A → prog S B) : prog S B :=
  match p with
  | Done a => c a
  | Act f k => Act f (λ x, pbind (k x) c)
  end.

#[global] Instance prog_ret S : MRet (prog S) := λ A a, Done a.
#[global] Instance prog_bind S : MBind (prog S) := λ A B k p, pbind p k.

(** An action that reads, one that writes, and one that does both. *)
Definition read {S X} (f : S → X) : prog S X := Act (λ s, Some (s, f s)) Done.
Definition write {S} (f : S → S) : prog S () := Act (λ s, Some (f s, ())) Done.
Definition both {S X} (f : S → S * X) : prog S X := Act (λ s, Some (f s)) Done.

(** The program with nothing else running. *)
Fixpoint solo {S A} (p : prog S A) (s : S) : option (S * A) :=
  match p with
  | Done a => Some (s, a)
  | Act f k => match f s with None => None | Some (s, x) => solo (k x) s end
  end.

(** One atomic action of a goroutine: the state and what is left of it. *)
Definition advance {S A} (p : prog S A) (s : S) : option (S * prog S A) :=
  match p with
  | Done _ => None
  | Act f k => match f s with None => None | Some (s, x) => Some (s, k x) end
  end.

Lemma solo_bind {S A B} (p : prog S A) (c : A → prog S B) : ∀ s,
  solo (p ≫= c) s = match solo p s with None => None | Some (s, a) => solo (c a) s end.
Proof. induction p as [a|X f k IH]; intros s; [done|]. simpl. destruct (f s) as [[s' x]|]; [apply IH|done]. Qed.

(** ** Rely and guarantee *)

Section rg.
Context {S : Type} (R G : S → S → Prop) `{!PreOrder R}.

(** From [s] on, with others acting within [R] at any time: every action is within [G],
    and [Q] holds of the result. *)
Fixpoint ensures {A} (Q : A → S → Prop) (p : prog S A) (s : S) : Prop :=
  match p with
  | Done a => ∀ s', R s s' → Q a s'
  | Act f k => ∀ s', R s s' → match f s' with None => True | Some (s'', x) => G s' s'' ∧ ensures Q (k x) s'' end
  end.

Lemma ensures_rely {A} (Q : A → S → Prop) p s s' : ensures Q p s → R s s' → ensures Q p s'.
Proof. destruct p as [a|X f k]; simpl; intros H HR s1 H1; apply H; by etrans. Qed.

Lemma ensures_bind {A B} (Q : B → S → Prop) (p : prog S A) (c : A → prog S B) : ∀ s,
  ensures (λ a s, ensures Q (c a) s) p s → ensures Q (p ≫= c) s.
Proof.
  induction p as [a|X f k IH]; intros s H; simpl in *.
  - apply H. reflexivity.
  - intros s' HR. specialize (H s' HR). destruct (f s') as [[s'' x]|]; [|done]. destruct H as [HG H].
    split; [done|]. by apply IH.
Qed.

Lemma ensures_weaken {A} (Q Q' : A → S → Prop) (p : prog S A) : ∀ s,
  ensures Q' p s → (∀ a s, Q' a s → Q a s) → ensures Q p s.
Proof.
  induction p as [a|X f k IH]; intros s H HQ; simpl in *.
  - intros s' HR. by apply HQ, H.
  - intros s' HR. specialize (H s' HR). destruct (f s') as [[s'' x]|]; [|done]. destruct H as [HG H].
    split; [done|]. by apply IH.
Qed.

(** An action of a program that is safe, seen from outside. *)
Lemma ensures_advance {A} (Q : A → S → Prop) p s s' p' :
  ensures Q p s → advance p s = Some (s', p') → G s s' ∧ ensures Q p' s'.
Proof.
  destruct p as [a|X f k]; simpl; [done|]. intros H. specialize (H s ltac:(reflexivity)).
  destruct (f s) as [[s'' x]|]; [|done]. by intros [= <- <-].
Qed.

Lemma ensures_done {A} (Q : A → S → Prop) a s : ensures Q (Done a) s → Q a s.
Proof. intros H. apply H. reflexivity. Qed.

(** A solo run is one of the runs. *)
Lemma ensures_solo {A} (Q : A → S → Prop) p : ∀ s s' a, ensures Q p s → solo p s = Some (s', a) → Q a s'.
Proof.
  induction p as [a|X f k IH]; intros s s' a' H; simpl in *.
  - intros [= <- <-]. apply H. reflexivity.
  - specialize (H s ltac:(reflexivity)). destruct (f s) as [[s'' x]|]; [|done]. apply IH, H.
Qed.
End rg.
