(* ===== verification/Backlog.v ===== *)
(** * The sender's backlog

    [SauronAgent/internal/agent/sender.go]: the interface [backlog], and the bounded
    list of events that stands in for the spool when none is configured.  [BacklogLaws]
    is what an implementation promises to the sender. *)

From S2P Require Import Prelude GoStrings Event Metrics Spool.

(** A call that takes the backlog's mutex is one function on its state.  The outcome of
    a call is that of [Spool]: a result, an error, or the end of the process. *)
Class Backlog (B : Type) : Type := {
  bl_Reserve : B → option B;                          (** [None]: no room, the caller waits *)
  bl_Release : B → B;
  bl_Append : option Event → B → B * out ();
  bl_NextAfter : Z → Z → B → B * out (list Event);
  bl_Ack : Z → B → B * out ();
  bl_FirstUnacked : B → Z;
  bl_LastSequence : B → Z;
  bl_PendingCount : B → Z;
  bl_Bytes : B → Z;
  bl_discard : option (Z → B → B);                    (** only of a [*memBacklog] *)
  bl_DrainDropped : B → B * option (Z * Z * Z)        (** the spool's, for the loss poller *)
}.

(** ** What the sender relies on *)

(** [held]: the sequences that are held and not acknowledged.  [lost]: those that the
    loss accounting covers.  [floor]: the position up to which an acknowledgement may
    already be at work. *)
Class BacklogLaws (B : Type) `{Backlog B} : Type := {
  bl_ok : B → Prop;
  held : B → list Z;
  lost : B → Z → Prop;
  floor : B → Z;
  appendable : B → Event → Prop;

  held_sorted b : bl_ok b → StronglySorted Z.lt (held b);
  held_range b q : bl_ok b → q ∈ held b → 0 < q <= bl_LastSequence b;
  held_pending b : bl_ok b → bl_PendingCount b = Z.of_nat (length (held b));
  held_first b q : bl_ok b → q ∈ held b → bl_FirstUnacked b <= q;
  floor_range b : bl_ok b → is_u64 (floor b);
  last_range b : bl_ok b → 0 <= bl_LastSequence b;

  reserve_law b b' : bl_ok b → bl_Reserve b = Some b' →
    bl_ok b' ∧ held b' = held b ∧ (∀ q, lost b q → lost b' q) ∧ floor b' = floor b ∧
    bl_LastSequence b' = bl_LastSequence b;
  release_law b : bl_ok b →
    bl_ok (bl_Release b) ∧ held (bl_Release b) = held b ∧ (∀ q, lost b q → lost (bl_Release b) q) ∧
    floor (bl_Release b) = floor b ∧ bl_LastSequence (bl_Release b) = bl_LastSequence b;

  append_law b e b' r : bl_ok b → appendable b e → bl_Append (Some e) b = (b', r) →
    match r with
    | Panic => False
    | Crash => True
    | Ret _ | Raise _ =>
        bl_ok b' ∧ (∀ q, lost b q → lost b' q ∨ q <= floor b) ∧ floor b' <= floor b ∧
        (∀ q, q ∈ held b → q ∈ held b' ∨ q <= floor b ∨ lost b' q) ∧
        bl_LastSequence b <= bl_LastSequence b' ∧
        (r = Ret () → bl_LastSequence b < Sequence e <= bl_LastSequence b' ∧ (Sequence e ∈ held b' ∨ lost b' (Sequence e)))
    end;

  next_law b through max b' r : bl_ok b → bl_NextAfter through max b = (b', r) →
    match r with
    | Panic => False
    | Crash => True
    | Ret _ | Raise _ =>
        bl_ok b' ∧ held b' = held b ∧ (∀ q, lost b q → lost b' q) ∧ floor b' = floor b ∧
        bl_LastSequence b' = bl_LastSequence b ∧
        match r with
        | Ret l => Sequence <$> l = take (Z.to_nat max) (filter (λ q, through < q) (held b))
        | _ => True
        end
    end;

  ack_law b seq b' r : bl_ok b → is_u64 seq → bl_Ack seq b = (b', r) →
    match r with
    | Panic => False
    | Crash => True
    | Ret _ | Raise _ =>
        bl_ok b' ∧ (∀ q, lost b q → lost b' q ∨ q <= Z.max (floor b) seq) ∧ floor b' <= Z.max (floor b) seq ∧
        (∀ q, q ∈ held b → q ∈ held b' ∨ q <= Z.max (floor b) seq ∨ lost b' q) ∧
        bl_LastSequence b' = bl_LastSequence b
    end;

  discard_law f b seq : bl_discard = Some f → bl_ok b →
    bl_ok (f seq b) ∧ (∀ q, lost b q → lost (f seq b) q) ∧ floor (f seq b) = floor b ∧
    (∀ q, q ∈ held b → q ∈ held (f seq b) ∨ q = seq) ∧
    bl_LastSequence (f seq b) = bl_LastSequence b;

  drain_law b b' r : bl_ok b → bl_DrainDropped b = (b', r) →
    bl_ok b' ∧ held b' = held b ∧ floor b' = floor b ∧ bl_LastSequence b' = bl_LastSequence b ∧
    ∀ q, lost b q → lost b' q ∨ ∃ n low high, r = Some (n, low, high) ∧ low <= q <= high
}.

(** ** The in-memory backlog *)

(** [slots]: how many tokens are in the channel, and its capacity. *)
Record memBacklog : Type := mkMemBacklog {
  slots : nat;
  slots_cap : nat;
  events : list Event;
  mb_lastSeq : Z
}.

Definition newMemBacklog (maxUnacked : Z) : memBacklog :=
  let maxUnacked := if maxUnacked <=? 0 then 1 else maxUnacked in
  mkMemBacklog 0 (Z.to_nat maxUnacked) [] 0.

(** [Reserve]: sending to the channel, which waits when it is full. *)
Definition mb_Reserve (b : memBacklog) : option memBacklog :=
  if (slots b <? slots_cap b)%nat then Some (mkMemBacklog (S (slots b)) (slots_cap b) (events b) (mb_lastSeq b))
  else None.

(** [Release]: receiving from it, if there is a token. *)
Definition mb_Release (b : memBacklog) : memBacklog :=
  mkMemBacklog (pred (slots b)) (slots_cap b) (events b) (mb_lastSeq b).

Definition mb_Append (e : option Event) (b : memBacklog) : memBacklog * out () :=
  match e with
  | None => (b, Raise ErrNil)
  | Some e =>
      if Sequence e <=? mb_lastSeq b then (b, Raise ErrSequence)
      else (mkMemBacklog (slots b) (slots_cap b) (events b ++ [e]) (Sequence e), Ret ())
  end.

(** [sort.Search]: a binary search for the first index at which [f] holds. *)
Fixpoint search_loop (fuel : nat) (f : nat → bool) (i j : nat) : nat :=
  match fuel with
  | O => i
  | S fuel =>
      if (i <? j)%nat then
        let h := ((i + j) / 2)%nat in
        if f h then search_loop fuel f i h else search_loop fuel f (S h) j
      else i
  end.

Definition Search (n : nat) (f : nat → bool) : nat := search_loop (S n) f 0 n.

Definition seq_at (l : list Event) (i : nat) : Z := from_option Sequence 0 (l !! i).

Definition mb_NextAfter (through max : Z) (b : memBacklog) : memBacklog * out (list Event) :=
  if max <=? 0 then (b, Ret [])
  else
    let n := length (events b) in
    let start := Search n (λ i, through <? seq_at (events b) i) in
    let max := if Z.of_nat (n - start) <? max then Z.of_nat (n - start) else max in
    (b, Ret (take (Z.to_nat max) (drop start (events b)))).

Definition mb_Next (max : Z) (b : memBacklog) : memBacklog * out (list Event) := mb_NextAfter 0 max b.

Definition mb_discard (seq : Z) (b : memBacklog) : memBacklog :=
  let i := Search (length (events b)) (λ i, seq <=? seq_at (events b) i) in
  if (i <? length (events b))%nat && (seq_at (events b) i =? seq)
  then mb_Release (mkMemBacklog (slots b) (slots_cap b) (take i (events b) ++ drop (S i) (events b)) (mb_lastSeq b))
  else b.

(** The count of [Ack]: the events at the front through [seq]. *)
Fixpoint count_acked (seq : Z) (l : list Event) : nat :=
  match l with
  | e :: l => if Sequence e <=? seq then S (count_acked seq l) else O
  | [] => O
  end.

(** [Ack] gives the slots back one by one once it has released the mutex; a caller that
    waits for one meanwhile goes on waiting. *)
Definition mb_Ack (seq : Z) (b : memBacklog) : memBacklog * out () :=
  let n := count_acked seq (events b) in
  (Nat.iter n mb_Release (mkMemBacklog (slots b) (slots_cap b) (drop n (events b)) (mb_lastSeq b)), Ret ()).

Definition mb_FirstUnacked (b : memBacklog) : Z :=
  match events b with e :: _ => Sequence e | [] => u64 (mb_lastSeq b + 1) end.

Definition mb_LastSequence (b : memBacklog) : Z := mb_lastSeq b.
Definition mb_PendingCount (b : memBacklog) : Z := Z.of_nat (length (events b)).
Definition mb_Bytes (b : memBacklog) : Z := 0.

#[global] Instance mem_Backlog : Backlog memBacklog := {
  bl_Reserve := mb_Reserve; bl_Release := mb_Release; bl_Append := mb_Append; bl_NextAfter := mb_NextAfter;
  bl_Ack := mb_Ack; bl_FirstUnacked := mb_FirstUnacked; bl_LastSequence := mb_LastSequence;
  bl_PendingCount := mb_PendingCount; bl_Bytes := mb_Bytes; bl_discard := Some mb_discard;
  bl_DrainDropped := λ b, (b, None)
}.

(** *** The binary search *)

Lemma search_loop_spec f n fuel : ∀ i j,
  (∀ a b, (a <= b < n)%nat → f a = true → f b = true) →
  (i <= j <= n)%nat → (j - i < fuel)%nat → (∀ k, (k < i)%nat → f k = false) → (∀ k, (j <= k < n)%nat → f k = true) →
  let r := search_loop fuel f i j in
  (r <= n)%nat ∧ (∀ k, (k < r)%nat → f k = false) ∧ ∀ k, (r <= k < n)%nat → f k = true.
Proof.
  induction fuel as [|fuel IH]; intros i j Hm Hij Hfuel Hlo Hhi; [lia|]. cbn [search_loop].
  destruct (Nat.ltb_spec i j) as [Hlt|Hge].
  - set (h := ((i + j) / 2)%nat).
    assert (Hh : (i <= h < j)%nat).
    { unfold h. split; [apply Nat.div_le_lower_bound; lia|apply Nat.Div0.div_lt_upper_bound; lia]. }
    destruct (f h) eqn:Eh; apply IH; auto; try lia.
    + intros k Hk. destruct (decide (j <= k)%nat); [apply Hhi; lia|]. eapply (Hm h); [lia|done].
    + intros k Hk. destruct (decide (k < i)%nat); [by apply Hlo|]. destruct (f k) eqn:Ek; [|done].
      rewrite (Hm k h) in Eh; [done|lia|done].
  - assert (i = j) as -> by lia. split_and!; [lia|done|done].
Qed.

(** [sort.Search] finds the first index at which a monotone predicate holds. *)
Lemma Search_spec n f :
  (∀ a b, (a <= b < n)%nat → f a = true → f b = true) →
  (Search n f <= n)%nat ∧ (∀ k, (k < Search n f)%nat → f k = false) ∧ ∀ k, (Search n f <= k < n)%nat → f k = true.
Proof. intros Hm. apply (search_loop_spec f n); try done; lia. Qed.

Definition sorted_events (l : list Event) : Prop := StronglySorted Z.lt (Sequence <$> l).

Lemma seq_at_mono l i j : sorted_events l → (i <= j < length l)%nat → seq_at l i <= seq_at l j.
Proof.
  intros Hs Hij. destruct (decide (i = j)) as [->|]; [lia|]. apply Z.lt_le_incl. revert i j Hij n.
  induction l as [|e l IH]; intros i j Hij Hne; [simpl in Hij; lia|].
  unfold sorted_events in Hs. rewrite fmap_cons in Hs. apply StronglySorted_inv in Hs as [Hs Hf].
  destruct j as [|j]; [lia|]. destruct i as [|i].
  - unfold seq_at. simpl. rewrite Forall_forall in Hf. apply Hf.
    destruct (lookup_lt_is_Some_2 l j) as [x Hx]; [simpl in Hij; lia|]. rewrite Hx. simpl.
    by apply list_elem_of_fmap_2, (list_elem_of_lookup_2 _ j).
  - simpl in Hij. apply (IH Hs i j); lia.
Qed.

Lemma seq_at_search l (f : Z → bool) :
  sorted_events l → (∀ x y, x <= y → f x = true → f y = true) →
  let r := Search (length l) (λ i, f (seq_at l i)) in
  (r <= length l)%nat ∧ (∀ e, e ∈ take r l → f (Sequence e) = false) ∧ ∀ e, e ∈ drop r l → f (Sequence e) = true.
Proof.
  intros Hs Hf r. destruct (Search_spec (length l) (λ i, f (seq_at l i))) as (H1 & H2 & H3).
  { intros a b Hab. apply Hf. by apply seq_at_mono. }
  fold r in H1, H2, H3. split_and!; [done| |].
  - intros e He. apply list_elem_of_lookup in He as [k Hk]. apply lookup_take_Some in Hk as [Hk Hlt].
    specialize (H2 k Hlt). simpl in H2. unfold seq_at in H2. by rewrite Hk in H2.
  - intros e He. apply list_elem_of_lookup in He as [k Hk]. rewrite lookup_drop in Hk.
    specialize (H3 (r + k)%nat ltac:(apply lookup_lt_Some in Hk; lia)). unfold seq_at in H3. by rewrite Hk in H3.
Qed.

(** *** The in-memory backlog keeps the laws *)

Record mb_ok (b : memBacklog) : Prop := {
  mb_sorted : sorted_events (events b);
  mb_range : ∀ e, e ∈ events b → 0 < Sequence e <= mb_lastSeq b;
  mb_last : 0 <= mb_lastSeq b
}.

Definition mb_held (b : memBacklog) : list Z := Sequence <$> events b.

Lemma newMemBacklog_ok n : mb_ok (newMemBacklog n).
Proof. constructor; simpl; [constructor|set_solver|done]. Qed.

Lemma sorted_sublist l k : sublist l k → sorted_events k → sorted_events l.
Proof.
  unfold sorted_events. induction 1 as [|x l k H IH|x l k H IH]; rewrite ?fmap_cons; intros Hs; [done| |].
  - apply StronglySorted_inv in Hs as [Hs Hf]. constructor; [by apply IH|].
    rewrite Forall_forall in *. intros q (e & -> & He)%list_elem_of_fmap. apply Hf, list_elem_of_fmap_2.
    by eapply elem_of_sublist.
  - apply StronglySorted_inv in Hs as [Hs _]. by apply IH.
Qed.

Lemma mb_ok_sublist b n l :
  mb_ok b → sublist l (events b) → mb_ok (mkMemBacklog n (slots_cap b) l (mb_lastSeq b)).
Proof.
  intros [H1 H2 H3] Hl. constructor; simpl; [by eapply sorted_sublist| |done].
  intros e He. apply H2. by eapply elem_of_sublist.
Qed.

Lemma iter_release n b :
  Nat.iter n mb_Release b = mkMemBacklog (slots b - n) (slots_cap b) (events b) (mb_lastSeq b).
Proof.
  induction n as [|n IH]; cbn [Nat.iter nat_rect]; [by destruct b; simpl; rewrite Nat.sub_0_r|].
  unfold Nat.iter in IH. rewrite IH. unfold mb_Release. simpl. f_equal. lia.
Qed.

Lemma count_acked_take seq l e : e ∈ take (count_acked seq l) l → Sequence e <= seq.
Proof.
  induction l as [|x l IH]; cbn [count_acked]; [set_solver|]. destruct (Z.leb_spec (Sequence x) seq); simpl; set_solver.
Qed.

Lemma mb_next_reads through max b :
  mb_ok b →
  mb_NextAfter through max b =
  (b, Ret (take (Z.to_nat max) (drop (Search (length (events b)) (λ i, through <? seq_at (events b) i)) (events b)))).
Proof.
  intros Hb. unfold mb_NextAfter. destruct (Z.leb_spec max 0); [by replace (Z.to_nat max) with 0%nat by lia|].
  set (i := Search _ _). do 2 f_equal. destruct (Z.ltb_spec (Z.of_nat (length (events b) - i)) max); [|done].
  rewrite !take_ge; rewrite ?length_drop; try lia. done.
Qed.

Lemma search_filter through l :
  sorted_events l →
  Sequence <$> drop (Search (length l) (λ i, through <? seq_at l i)) l = filter (λ q, through < q) (Sequence <$> l).
Proof.
  intros Hs. destruct (seq_at_search l (λ q, through <? q) Hs) as (_ & H1 & H2); [intros; lia|].
  set (i := Search _ _) in *. rewrite <- (take_drop i l) at 2. rewrite fmap_app, filter_app.
  rewrite filter_none, app_nil_l, filter_whole; [done| |].
  - intros q (e & -> & He)%list_elem_of_fmap. specialize (H2 e He). lia.
  - intros q (e & -> & He)%list_elem_of_fmap. specialize (H1 e He). lia.
Qed.

Lemma discard_search seq b :
  mb_ok b → ∀ e, e ∈ events b → e ∈ events (mb_discard seq b) ∨ Sequence e = seq.
Proof.
  intros [Hs _ _] e He. unfold mb_discard. set (i := Search _ _). destruct (_ && _) eqn:E; [|by left].
  apply andb_true_iff in E as [_ Ei]. simpl.
  rewrite <- (take_drop i (events b)), elem_of_app in He. destruct He as [He|He]; [left; set_solver|].
  apply list_elem_of_lookup in He as [k Hk]. rewrite lookup_drop in Hk. destruct k as [|k].
  - right. rewrite Nat.add_0_r in Hk. unfold seq_at in Ei. rewrite Hk in Ei. simpl in Ei. lia.
  - left. apply elem_of_app. right. apply (list_elem_of_lookup_2 _ k). by rewrite lookup_drop, Nat.add_succ_comm.
Qed.

#[global] Instance mem_BacklogLaws : BacklogLaws memBacklog.
Proof.
  refine {| bl_ok := mb_ok; held := mb_held; lost := λ _ _, False; floor := λ _, 0;
            appendable := λ _ e, is_u64 (Sequence e) |}; simpl.
  - by intros b [].
  - intros b q Hb (e & -> & He)%list_elem_of_fmap. by apply Hb.
  - intros b _. unfold mb_PendingCount, mb_held. by rewrite length_fmap.
  - intros b q [Hs _ _] Hq. unfold mb_FirstUnacked, mb_held, sorted_events in *. destruct (events b) as [|e l]; [set_solver|].
    rewrite fmap_cons in *. apply StronglySorted_inv in Hs as [_ Hf]. rewrite Forall_forall in Hf.
    apply elem_of_cons in Hq as [->|Hq]; [lia|]. specialize (Hf q Hq). lia.
  - done.
  - by intros b [].
  - intros b b' Hb. unfold mb_Reserve. destruct (_ <? _)%nat; [|done]. intros [= <-]. split_and!; try done.
    by apply mb_ok_sublist.
  - intros b Hb. split_and!; try done. by apply mb_ok_sublist.
  - intros b e b' r [H1 H2 H3] He. unfold mb_Append. destruct (Z.leb_spec (Sequence e) (mb_lastSeq b)); intros [= <- <-].
    { split_and!; try done; auto; lia. }
    unfold mb_held, mb_LastSequence. simpl. rewrite fmap_app. split_and!; try done; [|set_solver|lia|].
    + constructor; simpl; [| |lia].
      * unfold sorted_events. rewrite fmap_app. apply StronglySorted_app_2; [|done|by repeat constructor].
        intros x y (e' & -> & He')%list_elem_of_fmap ->%list_elem_of_singleton. specialize (H2 e' He'). lia.
      * intros e' [He'| ->%list_elem_of_singleton]%elem_of_app; [specialize (H2 e' He')|]; lia.
    + intros _. split; [lia|]. left. set_solver.
  - intros b through max b' r Hb. rewrite mb_next_reads by done. intros [= <- <-].
    split_and!; try done. rewrite fmap_take. f_equal. apply search_filter, Hb.
  - intros b seq b' r Hb Hu. unfold mb_Ack. rewrite iter_release. intros [= <- <-]. simpl.
    split_and!; try done; [apply mb_ok_sublist; [done|apply sublist_drop]|lia|].
    intros q (e & -> & He)%list_elem_of_fmap. unfold mb_held. simpl.
    rewrite <- (take_drop (count_acked seq (events b)) (events b)), elem_of_app in He.
    destruct He as [He|He]; [right; left; apply count_acked_take in He; lia|left; by apply list_elem_of_fmap_2].
  - intros f b seq [= <-] Hb. split_and!; try done.
    + unfold mb_discard. set (i := Search _ _). destruct (_ && _); [|done]. unfold mb_Release. simpl.
      apply (mb_ok_sublist b _ _ Hb). rewrite <- (take_drop i (events b)) at 3. apply sublist_app; [done|].
      replace (S i) with (i + 1)%nat by lia. rewrite <- drop_drop. apply sublist_drop.
    + intros q (e & -> & He)%list_elem_of_fmap. destruct (discard_search seq b Hb e He) as [H| <-]; [|by right].
      left. by apply list_elem_of_fmap_2.
    + unfold mb_discard. by destruct (_ && _).
  - by intros b b' r Hb [= <- <-].
Defined.
