(* ===== verification/SpoolBacklog.v ===== *)
(** * The disk spool as the sender's backlog

    [spoolBacklog] of [SauronAgent/internal/agent/sender.go] over [Spool]: the spool
    keeps the laws that the sender relies on. *)

From S2P Require Import Prelude GoStrings Event Metrics Frame Segment Spool SpoolProofs SpoolHistory Backlog.

Section spool_backlog.
Context `{J : Json} `{L : !JsonLaws J}.

(** [DrainDropped] makes no system call. *)
Definition sb_DrainDropped (s : st) : st * option (Z * Z * Z) :=
  match DrainDropped s with (s, Ret r) => (s, r) | (s, _) => (s, None) end.

(** [spoolBacklog]: [Reserve] never waits, the rest is the spool's. *)
#[global] Instance spool_Backlog : Backlog st := {
  bl_Reserve := Some;
  bl_Release := id;
  bl_Append := Append;
  bl_NextAfter := NextAfter;
  bl_Ack := Ack;
  bl_FirstUnacked := λ s, firstUnacked (sp s);
  bl_LastSequence := λ s, lastSeq (sp s);
  bl_PendingCount := λ s, pending (sp s);
  bl_Bytes := λ s, Spool.bytes (sp s);
  bl_discard := None;
  bl_DrainDropped := sb_DrainDropped
}.

Definition sb_ok (s : st) : Prop := fair (wd s) ∧ ∃ b, tracked b = true ∧ at_st (full b) s.

(** What a read of the whole spool would give. *)
Definition sb_held (s : st) : list Z :=
  match snd (Next (pending (sp s)) (quiet (mkSt (set_closed (sp s) false) (wd s)))) with
  | Ret l => Sequence <$> l
  | _ => []
  end.

Definition sb_lost (s : st) (q : Z) : Prop := covered (sp s) q.

(** The position of the checkpoint file. *)
Definition sb_floor (s : st) : Z :=
  match files (wd s) !! checkpointName with Some data => default 0 (parse_checkpoint data) | None => 0 end.

(** An event that can be stored: its sequence is not below the file that a failed
    append has left behind, and its record does not look like another's start. *)
Definition sb_appendable (s : st) (e : Event) : Prop :=
  is_u64 (Sequence e) ∧ (∀ sg, sg ∈ segs (sp s) → base sg <= Sequence e) ∧
  ∀ p, Marshal e = Some p → header_clean p.

Lemma held_view b s itss c :
  tracked b = true → rep b (sp s) (files (wd s)) itss c → totals_ok (sp s) → sb_held s = fst <$> view (sp s) itss.
Proof.
  intros Htr H Ht. unfold sb_held. set (s1 := mkSt (set_closed (sp s) false) (wd s)).
  assert (H1 : rep b (sp s1) (files (wd s1)) itss c) by (eapply rep_same; [|exact H]; by split_and!).
  rewrite (next_view b s1 itss c _ Htr H1 Ht eq_refl). simpl.
  rewrite (pending_view _ _ _ _ _ H Ht), Nat2Z.id.
  assert (Hv : view (set_closed (sp s) false) itss = view (sp s) itss) by done. rewrite Hv.
  rewrite take_ge by (by rewrite length_fmap). rewrite <- list_fmap_compose. apply list_fmap_ext.
  intros i it Hi%list_elem_of_lookup_2%in_drop. by apply (decode_sequence _ _ _ _ _ _ H Hi).
Qed.

Lemma floor_is s c : checkpoint_is (files (wd s)) c → sb_floor s = c.
Proof.
  intros [[E ->]|[E Hu]]; unfold sb_floor; rewrite E; [done|]. by rewrite checkpoint_roundtrip.
Qed.

(** The duty to keep what is there now, and to keep accounting for what is lost: no
    record is empty, so an empty one that is owed can only be accounted for. *)
Definition keep_duty (s : Spool) (items : list item) (new : list item) (a t : Z) : duty :=
  mkDuty (λ it, it ∈ items ∨ (it.2 = [] ∧ covered s it.1)) (λ it, it ∈ items ∨ it ∈ new) a (lastSeq s) t true.

Lemma rep_keep b s fs itss c new a t :
  rep b s fs itss c → tracked b = true → c <= a → (∀ sg, sg ∈ segs s → base sg <= t) →
  rep (keep_duty s (concat itss) new a t) s fs itss c.
Proof.
  intros [H1 H2 H3 [M1 M2 M3 M4 M5 M6] [H5 H5'] H6 H7 H8 H9 H10 H11] Htr Ha Hb. constructor; try done.
  - constructor; simpl; auto; [|lia]. intros it [Hit|[_ Hit]]; auto.
  - intros i j sg its Hi Hj Hij. destruct (H9 i j sg its Hi Hj Hij) as [[Hp _] Hx]. split; [|done].
    split; [done|]. apply Hb. by eapply list_elem_of_lookup_2.
  - intros _. by apply H11.
Qed.

Lemma no_empty_record b s fs itss c q : rep b s fs itss c → (q, []) ∉ concat itss.
Proof.
  intros H Hin. pose proof (m_items _ _ _ _ (r_meets _ _ _ _ _ H)) as Ha.
  apply list_elem_of_split in Hin as (l1 & l2 & E). rewrite E in Ha. apply appended_app in Ha as [_ Ha].
  destruct Ha as (_ & [Hp _] & _). simpl in Hp. lia.
Qed.

(** What is kept from a state to one that met that duty. *)
Lemma kept s b itss c new a t s' :
  rep b (sp s) (files (wd s)) itss c → tracked b = true → totals_ok (sp s) → c <= a → fair (wd s') →
  at_st (full (keep_duty (sp s) (concat itss) new a t)) s' →
  sb_ok s' ∧ (∀ q, sb_lost s q → sb_lost s' q ∨ q <= a) ∧ sb_floor s' <= a ∧ (∀ q, q ∈ sb_held s → q ∈ sb_held s' ∨ q <= a ∨ sb_lost s' q) ∧
  lastSeq (sp s) <= lastSeq (sp s').
Proof.
  intros H Htr Ht Hca Hf Hs. set (b1 := keep_duty _ _ _ _ _) in *. pose proof Hs as [(itss' & c' & H') Ht'].
  pose proof (m_acked _ _ _ _ (r_meets _ _ _ _ _ H')) as Hc'. pose proof (r_acked _ _ _ _ _ H') as Hk'.
  pose proof (m_top _ _ _ _ (r_meets _ _ _ _ _ H')) as Htop. pose proof (r_last _ _ _ _ _ H') as Hl'. simpl in *.
  split_and!.
  - split; [done|]. by exists b1.
  - intros q Hq. destruct (m_owed _ _ _ _ (r_meets _ _ _ _ _ H') (q, [])) as [Hin|[Hle|Hcov]]; auto.
    + by right.
    + exfalso. by eapply no_empty_record.
  - rewrite (floor_is s' c'); [done|apply H'].
  - rewrite (held_view b s itss c Htr H Ht), (held_view b1 s' itss' c' eq_refl H' Ht').
    intros q (it & -> & Hit%in_drop)%list_elem_of_fmap.
    destruct (m_owed _ _ _ _ (r_meets _ _ _ _ _ H') it (or_introl Hit)) as [Hin|[Hle|Hcov]]; [|by auto|by auto].
    rewrite <- (take_drop (Z.to_nat (ackedInFirst (sp s'))) (concat itss')), elem_of_app in Hin.
    destruct Hin as [Hin|Hin]; [|left; by apply list_elem_of_fmap_2].
    right; left. pose proof (skipped_acked _ _ _ _ _ _ H' Hin). lia.
  - lia.
Qed.

Lemma segs_base b s fs itss c sg : rep b s fs itss c → sg ∈ segs s → base sg <= tried b.
Proof.
  intros H Hsg. apply list_elem_of_lookup in Hsg as [i Hi]. pose proof (r_segs _ _ _ _ _ H) as Hs.
  destruct (Forall2_lookup_l _ _ _ _ _ Hs Hi) as (its & Hits & _).
  by destruct (r_base _ _ _ _ _ H i i sg its Hi Hits) as [[_ Hb] _].
Qed.

(** [Append], by its specification under that duty. *)
Lemma sb_append s e s' r :
  sb_ok s → sb_appendable s e → Append (Some e) s = (s', r) →
  match r with
  | Panic => False
  | Crash => True
  | Ret _ | Raise _ =>
      sb_ok s' ∧ (∀ q, sb_lost s q → sb_lost s' q ∨ q <= sb_floor s) ∧ sb_floor s' <= sb_floor s ∧
      (∀ q, q ∈ sb_held s → q ∈ sb_held s' ∨ q <= sb_floor s ∨ sb_lost s' q) ∧
      lastSeq (sp s) <= lastSeq (sp s') ∧
      (r = Ret () → lastSeq (sp s) < Sequence e <= lastSeq (sp s') ∧ (Sequence e ∈ sb_held s' ∨ sb_lost s' (Sequence e)))
  end.
Proof.
  intros (Hf & b & Htr & (itss & c & H) & Ht) (Hu & Hbase & Hcl) Hr.
  rewrite (floor_is s c) by apply H. destruct (Marshal e) as [p|] eqn:Em.
  2: { assert (Hraise : s' = s ∧ ∃ er, r = Raise er).
       { unfold Append, mbind, M_bind, get, raise in Hr. rewrite Em in Hr. repeat case_match; simplify_eq; eauto. }
       destruct Hraise as [-> [er ->]]. rewrite (floor_is s c) by apply H.
       split_and!; try lia; try done; auto. split; [done|]. exists b. split; [done|]. split; [by exists itss, c|done]. }
  set (it := (Sequence e, p)). set (b1 := keep_duty (sp s) (concat itss) [it] c (Sequence e)).
  assert (H1 : rep b1 (sp s) (files (wd s)) itss c) by (apply (rep_keep b); [done|done|lia|done]).
  assert (Hgiv : given b1 it) by (right; set_solver).
  destruct (h_Append b1 e p Em Hu Hgiv eq_refl eq_refl (Hcl p eq_refl) s Hf) as [Hf' HA].
  { split; [by exists itss, c|done]. }
  rewrite Hr in Hf', HA. simpl in Hf', HA. destruct r as [[]|er| |]; try done.
  - destruct HA as [HA%evicting_full _]. pose proof (full_accept _ _ _ _ HA) as HA1.
    destruct (kept s b itss c [it] c (Sequence e) s' H Htr Ht ltac:(lia) Hf' HA1) as (K1 & K2 & K3 & K4 & K5).
    split_and!; auto. intros _. assert (Hlast : lastSeq (sp s) < Sequence e).
    { unfold Append, mbind, M_bind, get in Hr. destruct (closed (sp s)); [done|].
      destruct (Z.leb_spec (Sequence e) (lastSeq (sp s))); [done|lia]. }
    pose proof HA as [(itss' & c' & H') Ht']. pose proof (m_top _ _ _ _ (r_meets _ _ _ _ _ H')) as Htop.
    pose proof (r_last _ _ _ _ _ H') as Hl'. simpl in Htop. split; [lia|].
    pose proof (m_acked _ _ _ _ (r_meets _ _ _ _ _ H')) as Hc'. pose proof (r_acked _ _ _ _ _ H') as Hk'.
    pose proof (r_last _ _ _ _ _ H) as [_ Hcl']. simpl in Hc'.
    destruct (m_owed _ _ _ _ (r_meets _ _ _ _ _ H') it) as [Hin|[Hle|Hcov]]; [by right| | |by right].
    + left. rewrite (held_view (accept_event b1 it) s' itss' c' eq_refl H' Ht'). apply (list_elem_of_fmap_2 fst _ it). unfold view.
      rewrite <- (take_drop (Z.to_nat (ackedInFirst (sp s'))) (concat itss')), elem_of_app in Hin.
      destruct Hin as [Hin|Hin]; [|done]. pose proof (skipped_acked _ _ _ _ _ _ H' Hin). simpl in *. lia.
    + simpl in Hle. lia.
  - destruct (kept s b itss c [it] c (Sequence e) s' H Htr Ht ltac:(lia) Hf' HA) as (K1 & K2 & K3 & K4 & K5).
    split_and!; auto. done.
Qed.

Lemma sb_ack s seq s' r :
  sb_ok s → is_u64 seq → Ack seq s = (s', r) →
  match r with
  | Panic => False
  | Crash => True
  | Ret _ | Raise _ =>
      sb_ok s' ∧ (∀ q, sb_lost s q → sb_lost s' q ∨ q <= Z.max (sb_floor s) seq) ∧
      sb_floor s' <= Z.max (sb_floor s) seq ∧
      (∀ q, q ∈ sb_held s → q ∈ sb_held s' ∨ q <= Z.max (sb_floor s) seq ∨ sb_lost s' q) ∧
      lastSeq (sp s') = lastSeq (sp s)
  end.
Proof.
  intros (Hf & b & Htr & (itss & c & H) & Ht) Hu Hr. rewrite (floor_is s c) by apply H.
  set (a := Z.max c seq). set (b1 := keep_duty (sp s) (concat itss) [] a (tried b)).
  assert (H1 : rep b1 (sp s) (files (wd s)) itss c).
  { apply (rep_keep b); [done|done|lia|]. intros sg Hsg. by eapply segs_base. }
  pose proof (keeps_Ack seq s) as Hk. rewrite Hr in Hk. injection Hk as _ Hk.
  destruct (h_Ack b1 (sp s) itss seq eq_refl) with (s := s) as [Hf' HA]; [simpl; destruct Hu; lia|done| |].
  { split_and!; [done|by exists c|done]. }
  rewrite Hr in Hf', HA. simpl in Hf', HA.
  assert (HK : at_st (full b1) s' → sb_ok s' ∧ (∀ q, sb_lost s q → sb_lost s' q ∨ q <= a) ∧ sb_floor s' <= a ∧
    (∀ q, q ∈ sb_held s → q ∈ sb_held s' ∨ q <= a ∨ sb_lost s' q) ∧ lastSeq (sp s') = lastSeq (sp s)).
  { intros HF. destruct (kept s b itss c [] a (tried b) s' H Htr Ht ltac:(lia) Hf' HF) as (K1 & K2 & K3 & K4 & K5).
    by split_and!. }
  destruct r as [[]|er| |]; [..|done|done]; apply HK; [|done].
  destruct HA as [(_ & _ & HF)|HF]; [done|by eapply cleaned_full].
Qed.

Lemma sb_next s through max s' r :
  sb_ok s → NextAfter through max s = (s', r) →
  match r with
  | Panic => False
  | Crash => True
  | Ret _ | Raise _ =>
      sb_ok s' ∧ sb_held s' = sb_held s ∧ (∀ q, sb_lost s q → sb_lost s' q) ∧ sb_floor s' = sb_floor s ∧
      lastSeq (sp s') = lastSeq (sp s) ∧
      match r with
      | Ret l => Sequence <$> l = take (Z.to_nat max) (filter (λ q, through < q) (sb_held s))
      | _ => True
      end
  end.
Proof.
  intros (Hf & b & Htr & (itss & c & H) & Ht) Hr. destruct (closed (sp s)) eqn:Ec.
  { unfold NextAfter, mbind, M_bind, get, raise in Hr. rewrite Ec in Hr. simplify_eq.
    split_and!; auto. split; [done|]. exists b. split; [done|]. split; [by exists itss, c|done]. }
  destruct (reads_NextAfter b c itss s through max Htr H Ht Ec) as (s1 & r1 & Hr1 & E1 & E2 & E3 & Hres & _).
  rewrite Hr in Hr1. injection Hr1 as <- <-.
  assert (Hs : sb_ok s' ∧ sb_held s' = sb_held s ∧ (∀ q, sb_lost s q → sb_lost s' q) ∧ sb_floor s' = sb_floor s ∧
    lastSeq (sp s') = lastSeq (sp s)).
  { assert (H' : rep b (sp s') (files (wd s')) itss c) by (by rewrite E1, E2).
    assert (Ht' : totals_ok (sp s')) by (by rewrite E1). split_and!.
    - split; [by apply E3|]. exists b. split; [done|]. split; [by exists itss, c|done].
    - by rewrite (held_view b s' itss c), (held_view b s itss c), E1.
    - intros q. unfold sb_lost. by rewrite E1.
    - unfold sb_floor. by rewrite E2.
    - by rewrite E1. }
  destruct Hs as (S1 & S2 & S3 & S4 & S5). destruct Hres as [->|[[e ->]| ->]]; [|by split_and!|done].
  split_and!; auto. rewrite (held_view b s itss c Htr H Ht), fmap_take, <- list_fmap_compose.
  rewrite (filter_fmap fst _ (λ it, through < it.1)) by done. f_equal. apply list_fmap_ext.
  intros i it Hi%list_elem_of_lookup_2. apply list_elem_of_filter in Hi as [_ Hi%in_drop].
  by apply (decode_sequence _ _ _ _ _ _ H Hi).
Qed.

Lemma sb_drain s s' r :
  sb_ok s → sb_DrainDropped s = (s', r) →
  sb_ok s' ∧ sb_held s' = sb_held s ∧ sb_floor s' = sb_floor s ∧ lastSeq (sp s') = lastSeq (sp s) ∧
  ∀ q, sb_lost s q → sb_lost s' q ∨ ∃ n low high, r = Some (n, low, high) ∧ low <= q <= high.
Proof.
  intros Hok. pose proof Hok as (Hf & b & Htr & (itss & c & H) & Ht).
  unfold sb_DrainDropped, DrainDropped, mbind, M_bind, get, modify.
  destruct (dropped (sp s) =? 0); [intros [= <- <-]; by split_and!; auto|].
  intros [= <- <-]. set (s1 := mkSt _ _).
  set (b1 := excuse b (droppedLow (sp s)) (droppedHigh (sp s))).
  assert (Hfull : full b1 (sp s1) (files (wd s1))) by (apply full_excuse; split; [by exists itss, c|done]).
  assert (Hr1 : rep b1 (sp s1) (files (wd s1)) itss c).
  { destruct H. constructor; try done. by eapply meets_excuse. }
  split_and!; try done.
  - split; [done|]. by exists b1.
  - by rewrite (held_view b1 s1 itss c Htr Hr1 Ht), (held_view b s itss c Htr H Ht).
  - intros q [Hnz Hq]. right. by eexists _, _, _.
Qed.

#[global] Instance spool_BacklogLaws : BacklogLaws st.
Proof.
  refine {| bl_ok := sb_ok; held := sb_held; lost := sb_lost; floor := sb_floor; appendable := sb_appendable |}; simpl.
  - intros s (Hf & b & Htr & (itss & c & H) & Ht). rewrite (held_view b s itss c Htr H Ht). unfold view.
    rewrite fmap_drop. apply (StronglySorted_app_1_r _ (take (Z.to_nat (ackedInFirst (sp s))) (fst <$> concat itss))).
    rewrite take_drop. apply (appended_sorted 0), H.
  - intros s q (Hf & b & Htr & (itss & c & H) & Ht). rewrite (held_view b s itss c Htr H Ht).
    intros (it & -> & Hit%in_drop)%list_elem_of_fmap. split; [|by eapply last_of_bound].
    by apply (proj1 (Forall_forall _ _) (read_all _ _ _ _ _ H)).
  - intros s (Hf & b & Htr & (itss & c & H) & Ht). rewrite (held_view b s itss c Htr H Ht), length_fmap.
    by apply (pending_view _ _ _ _ _ H Ht).
  - intros s q (Hf & b & Htr & (itss & c & H) & Ht). rewrite (held_view b s itss c Htr H Ht).
    intros (it & -> & Hit)%list_elem_of_fmap. unfold firstUnacked.
    assert (Hne : view (sp s) itss ≠ []) by (intros E; rewrite E in Hit; set_solver).
    destruct (r_first _ _ _ _ _ H Htr Hne) as (F1 & F2 & _).
    rewrite (proj2 (Z.ltb_lt 0 (firstPending (sp s)))) by done.
    rewrite (proj2 (Z.ltb_lt 0 (pending (sp s)))); [by apply F2|].
    rewrite (pending_view _ _ _ _ _ H Ht). destruct (view (sp s) itss); [done|simpl; lia].
  - intros s (Hf & b & Htr & (itss & c & H) & Ht). rewrite (floor_is s c) by apply H.
    destruct (r_ck _ _ _ _ _ H) as [[_ ->]|[_ Hu]]; done.
  - intros s (Hf & b & Htr & (itss & c & H) & Ht). by destruct (rep_seq_range _ _ _ _ _ H).
  - by intros s s' Hs [= <-].
  - by intros s Hs.
  - apply sb_append.
  - apply sb_next.
  - apply sb_ack.
  - done.
  - apply sb_drain.
Defined.
End spool_backlog.
