(* ===== verification/Messages.v ===== *)
(** * The messages of the agent protocol

    [SauronAgent/internal/protocol/message.go]: the payloads of the frames of [Frame],
    with their JSON encoding as a parameter. *)

From S2P Require Import Prelude Event.

Record Hello : Type := mkHello {
  h_ProtocolVersion : Z;
  AgentVersion : string;
  Hostname : string;
  h_BootID : string;
  MachineID : string;
  Kernel : string;
  FirstSequence : Z
}.

Record Ready : Type := mkReady {
  r_ProtocolVersion : Z;
  HostVersion : string;
  SessionID : string;
  ResumeFrom : Z;
  MaxPayloadSize : Z
}.

Record EventMessage : Type := mkEventMessage { em_Event : option Event }.

Record Ack : Type := mkAck { a_Sequence : Z }.

Record Ping : Type := mkPing {
  UptimeSeconds : Z;
  EventsReceived : Z;
  p_EventsSent : Z;
  EventsSpooled : Z;
  p_EventsDropped : Z;
  AuditEnabled : bool;
  p_QueueDepth : Z;
  p_SpoolBytes : Z
}.

Record Pong : Type := mkPong { EchoUptime : Z; UnixNano : Z }.

Inductive ErrorCode : Type :=
| ErrCodeBadFrame | ErrCodeBadPayload | ErrCodeBadSequence | ErrCodeUnexpectedType
| ErrCodeUnauthorized | ErrCodeInternal | ErrCodeOverloaded | ErrCodeOther (s : string).

Record ErrorMessage : Type := mkErrorMessage { Code : ErrorCode; Message : string; Fatal : bool }.

Record Shutdown : Type := mkShutdown { Reason : string; sd_LastSequence : Z }.

(** [json.Marshal] of the messages the agent sends. *)
Class MessageJson : Type := {
  json_hello : Hello → option (list byte);
  json_event : EventMessage → option (list byte);
  json_ping : Ping → option (list byte);
  json_error : ErrorMessage → option (list byte);
  json_shutdown : Shutdown → option (list byte)
}.
