(* ===== verification/Sender.v ===== *)
(** * The agent's sender

    [SauronAgent/internal/agent/sender.go]: the pump that moves events from the queue
    into the backlog, and the session that delivers them to the host collector, as
    goroutines ([Threads]) over the shared fields of the sender.

    What the environment decides is an input: the frames that arrive, the outcome of
    each write to the socket ([writes]) and the clock ([clocks]).  The last four fields
    record what has happened and are read by no operation: the sequences the backlog
    accepted, the highest position the host stated, the sequences the payload limit
    refused and the loss ranges handed to the loss poller. *)

From S2P Require Import Prelude GoStrings Event InternalEvents Metrics Sequencer Messages Frame Spool Threads Backlog.

Section sender.
Context {B : Type} `{HB : Backlog B} `{HJ : MessageJson}.

Definition maxSendBatch : Z := 256.
Definition idleWait : duration := 1000000000.
Definition flushPoll : duration := 20000000.
Definition maxShutdownFlush : duration := 5000000000.
Definition oversizedEventReason : string := "event exceeds the maximum payload size and cannot be delivered".

Record identity : Type := mkIdentity {
  id_Hostname : string; id_MachineID : string; id_BootID : string; id_Kernel : string; id_Version : string
}.

(** Errors that end a session: one of the protocol package, wrapped or not, a fatal
    error message of the host, the sender being closed, and the rest by what they say. *)
Inductive serr : Type :=
| SProtocol (e : Frame.error)
| errHostFatal (em : ErrorMessage)
| errSenderClosed
| SOther (what : string).

(** What the sender uses of its configuration and of its other options; [Error] is the
    text of an error, which goes into reports and decides nothing. *)
Record config : Type := mkConfig {
  MaxUnacked : Z;
  AckTimeout : duration;
  cfg_MaxPayloadSize : Z;
  HeartbeatInterval : duration;
  HeartbeatTimeout : duration;
  cfg_id : identity;
  dialer : string;
  auditEnabled : bool;
  has_resume : bool;
  started : time;
  Error : serr → string
}.

Context (cfg : config).

(** A connection: the codec, whether the socket is closed, and the messages written. *)
Record connection : Type := mkConnection {
  codec : Frame.Conn;
  nc_closed : bool;
  sent_log : list (MessageType * Z)
}.

(** [conns]: all connections so far, [conn] the index of the current one.  [ctx_done] and
    [sctx_done]: the contexts of the agent and of the session are cancelled.  [numbering]:
    the next sequence of the agent.  [queued]: the events in the queue.  [emitted]: the
    events given to [emit]. *)
Record sender : Type := mkSender {
  backlog : B;
  metrics : Metrics.Agent;
  wake : bool;
  ackedThrough : Z;
  highestSent : Z;
  hostAhead : Z;
  lastPong : Z;
  oversized : gset Z;
  oversizedPrunedThrough : Z;
  failed : Z;
  failedLow : Z;
  failedHigh : Z;
  pumpDone : bool;
  conns : list connection;
  conn : option nat;
  closed : bool;
  fail : option serr;
  ctx_done : bool;
  sctx_done : bool;
  numbering : Z;
  queued : Z;
  emitted : list Event;
  writes : list (bool * option nat);
  clocks : list time;
  accepted : list Z;
  host : Z;
  refused : gset Z;
  drained : list (Z * Z)
}.

Section updates.
Context (s : sender).
Definition set_backlog x := mkSender x (metrics s) (wake s) (ackedThrough s) (highestSent s) (hostAhead s)
  (lastPong s) (oversized s) (oversizedPrunedThrough s) (failed s) (failedLow s) (failedHigh s) (pumpDone s)
  (conns s) (conn s) (closed s) (fail s) (ctx_done s) (sctx_done s) (numbering s) (queued s) (emitted s)
  (writes s) (clocks s) (accepted s) (host s) (refused s) (drained s).
Definition set_metrics x := mkSender (backlog s) x (wake s) (ackedThrough s) (highestSent s) (hostAhead s)
  (lastPong s) (oversized s) (oversizedPrunedThrough s) (failed s) (failedLow s) (failedHigh s) (pumpDone s)
  (conns s) (conn s) (closed s) (fail s) (ctx_done s) (sctx_done s) (numbering s) (queued s) (emitted s)
  (writes s) (clocks s) (accepted s) (host s) (refused s) (drained s).
Definition set_wake x := mkSender (backlog s) (metrics s) x (ackedThrough s) (highestSent s) (hostAhead s)
  (lastPong s) (oversized s) (oversizedPrunedThrough s) (failed s) (failedLow s) (failedHigh s) (pumpDone s)
  (conns s) (conn s) (closed s) (fail s) (ctx_done s) (sctx_done s) (numbering s) (queued s) (emitted s)
  (writes s) (clocks s) (accepted s) (host s) (refused s) (drained s).
Definition set_ackedThrough x := mkSender (backlog s) (metrics s) (wake s) x (highestSent s) (hostAhead s)
  (lastPong s) (oversized s) (oversizedPrunedThrough s) (failed s) (failedLow s) (failedHigh s) (pumpDone s)
  (conns s) (conn s) (closed s) (fail s) (ctx_done s) (sctx_done s) (numbering s) (queued s) (emitted s)
  (writes s) (clocks s) (accepted s) (host s) (refused s) (drained s).
Definition set_highestSent x := mkSender (backlog s) (metrics s) (wake s) (ackedThrough s) x (hostAhead s)
  (lastPong s) (oversized s) (oversizedPrunedThrough s) (failed s) (failedLow s) (failedHigh s) (pumpDone s)
  (conns s) (conn s) (closed s) (fail s) (ctx_done s) (sctx_done s) (numbering s) (queued s) (emitted s)
  (writes s) (clocks s) (accepted s) (host s) (refused s) (drained s).
Definition set_hostAhead x := mkSender (backlog s) (metrics s) (wake s) (ackedThrough s) (highestSent s) x
  (lastPong s) (oversized s) (oversizedPrunedThrough s) (failed s) (failedLow s) (failedHigh s) (pumpDone s)
  (conns s) (conn s) (closed s) (fail s) (ctx_done s) (sctx_done s) (numbering s) (queued s) (emitted s)
  (writes s) (clocks s) (accepted s) (host s) (refused s) (drained s).
Definition set_lastPong x := mkSender (backlog s) (metrics s) (wake s) (ackedThrough s) (highestSent s)
  (hostAhead s) x (oversized s) (oversizedPrunedThrough s) (failed s) (failedLow s) (failedHigh s) (pumpDone s)
  (conns s) (conn s) (closed s) (fail s) (ctx_done s) (sctx_done s) (numbering s) (queued s) (emitted s)
  (writes s) (clocks s) (accepted s) (host s) (refused s) (drained s).
Definition set_pumpDone x := mkSender (backlog s) (metrics s) (wake s) (ackedThrough s) (highestSent s)
  (hostAhead s) (lastPong s) (oversized s) (oversizedPrunedThrough s) (failed s) (failedLow s) (failedHigh s) x
  (conns s) (conn s) (closed s) (fail s) (ctx_done s) (sctx_done s) (numbering s) (queued s) (emitted s)
  (writes s) (clocks s) (accepted s) (host s) (refused s) (drained s).
Definition set_conns x := mkSender (backlog s) (metrics s) (wake s) (ackedThrough s) (highestSent s)
  (hostAhead s) (lastPong s) (oversized s) (oversizedPrunedThrough s) (failed s) (failedLow s) (failedHigh s)
  (pumpDone s) x (conn s) (closed s) (fail s) (ctx_done s) (sctx_done s) (numbering s) (queued s) (emitted s)
  (writes s) (clocks s) (accepted s) (host s) (refused s) (drained s).
Definition set_conn x := mkSender (backlog s) (metrics s) (wake s) (ackedThrough s) (highestSent s) (hostAhead s)
  (lastPong s) (oversized s) (oversizedPrunedThrough s) (failed s) (failedLow s) (failedHigh s) (pumpDone s)
  (conns s) x (closed s) (fail s) (ctx_done s) (sctx_done s) (numbering s) (queued s) (emitted s) (writes s)
  (clocks s) (accepted s) (host s) (refused s) (drained s).
Definition set_closed x := mkSender (backlog s) (metrics s) (wake s) (ackedThrough s) (highestSent s)
  (hostAhead s) (lastPong s) (oversized s) (oversizedPrunedThrough s) (failed s) (failedLow s) (failedHigh s)
  (pumpDone s) (conns s) (conn s) x (fail s) (ctx_done s) (sctx_done s) (numbering s) (queued s) (emitted s)
  (writes s) (clocks s) (accepted s) (host s) (refused s) (drained s).
Definition set_fail x := mkSender (backlog s) (metrics s) (wake s) (ackedThrough s) (highestSent s) (hostAhead s)
  (lastPong s) (oversized s) (oversizedPrunedThrough s) (failed s) (failedLow s) (failedHigh s) (pumpDone s)
  (conns s) (conn s) (closed s) x (ctx_done s) (sctx_done s) (numbering s) (queued s) (emitted s) (writes s)
  (clocks s) (accepted s) (host s) (refused s) (drained s).
Definition set_ctx_done x := mkSender (backlog s) (metrics s) (wake s) (ackedThrough s) (highestSent s)
  (hostAhead s) (lastPong s) (oversized s) (oversizedPrunedThrough s) (failed s) (failedLow s) (failedHigh s)
  (pumpDone s) (conns s) (conn s) (closed s) (fail s) x (sctx_done s) (numbering s) (queued s) (emitted s)
  (writes s) (clocks s) (accepted s) (host s) (refused s) (drained s).
Definition set_sctx_done x := mkSender (backlog s) (metrics s) (wake s) (ackedThrough s) (highestSent s)
  (hostAhead s) (lastPong s) (oversized s) (oversizedPrunedThrough s) (failed s) (failedLow s) (failedHigh s)
  (pumpDone s) (conns s) (conn s) (closed s) (fail s) (ctx_done s) x (numbering s) (queued s) (emitted s)
  (writes s) (clocks s) (accepted s) (host s) (refused s) (drained s).
Definition set_numbering x := mkSender (backlog s) (metrics s) (wake s) (ackedThrough s) (highestSent s)
  (hostAhead s) (lastPong s) (oversized s) (oversizedPrunedThrough s) (failed s) (failedLow s) (failedHigh s)
  (pumpDone s) (conns s) (conn s) (closed s) (fail s) (ctx_done s) (sctx_done s) x (queued s) (emitted s)
  (writes s) (clocks s) (accepted s) (host s) (refused s) (drained s).
Definition set_queued x := mkSender (backlog s) (metrics s) (wake s) (ackedThrough s) (highestSent s)
  (hostAhead s) (lastPong s) (oversized s) (oversizedPrunedThrough s) (failed s) (failedLow s) (failedHigh s)
  (pumpDone s) (conns s) (conn s) (closed s) (fail s) (ctx_done s) (sctx_done s) (numbering s) x (emitted s)
  (writes s) (clocks s) (accepted s) (host s) (refused s) (drained s).
Definition set_emitted x := mkSender (backlog s) (metrics s) (wake s) (ackedThrough s) (highestSent s)
  (hostAhead s) (lastPong s) (oversized s) (oversizedPrunedThrough s) (failed s) (failedLow s) (failedHigh s)
  (pumpDone s) (conns s) (conn s) (closed s) (fail s) (ctx_done s) (sctx_done s) (numbering s) (queued s) x
  (writes s) (clocks s) (accepted s) (host s) (refused s) (drained s).
Definition set_clocks x := mkSender (backlog s) (metrics s) (wake s) (ackedThrough s) (highestSent s)
  (hostAhead s) (lastPong s) (oversized s) (oversizedPrunedThrough s) (failed s) (failedLow s) (failedHigh s)
  (pumpDone s) (conns s) (conn s) (closed s) (fail s) (ctx_done s) (sctx_done s) (numbering s) (queued s)
  (emitted s) (writes s) x (accepted s) (host s) (refused s) (drained s).
Definition set_host x := mkSender (backlog s) (metrics s) (wake s) (ackedThrough s) (highestSent s) (hostAhead s)
  (lastPong s) (oversized s) (oversizedPrunedThrough s) (failed s) (failedLow s) (failedHigh s) (pumpDone s)
  (conns s) (conn s) (closed s) (fail s) (ctx_done s) (sctx_done s) (numbering s) (queued s) (emitted s)
  (writes s) (clocks s) (accepted s) x (refused s) (drained s).
Definition set_oversized x p := mkSender (backlog s) (metrics s) (wake s) (ackedThrough s) (highestSent s)
  (hostAhead s) (lastPong s) x p (failed s) (failedLow s) (failedHigh s) (pumpDone s) (conns s) (conn s)
  (closed s) (fail s) (ctx_done s) (sctx_done s) (numbering s) (queued s) (emitted s) (writes s) (clocks s)
  (accepted s) (host s) (refused s) (drained s).
Definition set_failed n l h := mkSender (backlog s) (metrics s) (wake s) (ackedThrough s) (highestSent s)
  (hostAhead s) (lastPong s) (oversized s) (oversizedPrunedThrough s) n l h (pumpDone s) (conns s) (conn s)
  (closed s) (fail s) (ctx_done s) (sctx_done s) (numbering s) (queued s) (emitted s) (writes s) (clocks s)
  (accepted s) (host s) (refused s) (drained s).
Definition set_sent c x r := mkSender (backlog s) (metrics s) (wake s) (ackedThrough s) (highestSent s)
  (hostAhead s) (lastPong s) (oversized s) (oversizedPrunedThrough s) (failed s) (failedLow s) (failedHigh s)
  (pumpDone s) c (conn s) (closed s) (fail s) (ctx_done s) (sctx_done s) (numbering s) (queued s) (emitted s) x
  (clocks s) (accepted s) (host s) r (drained s).
Definition set_accepted b x := mkSender b (metrics s) (wake s) (ackedThrough s) (highestSent s) (hostAhead s)
  (lastPong s) (oversized s) (oversizedPrunedThrough s) (failed s) (failedLow s) (failedHigh s) (pumpDone s)
  (conns s) (conn s) (closed s) (fail s) (ctx_done s) (sctx_done s) (numbering s) (queued s) (emitted s)
  (writes s) (clocks s) x (host s) (refused s) (drained s).
Definition set_drained b x := mkSender b (metrics s) (wake s) (ackedThrough s) (highestSent s) (hostAhead s)
  (lastPong s) (oversized s) (oversizedPrunedThrough s) (failed s) (failedLow s) (failedHigh s) (pumpDone s)
  (conns s) (conn s) (closed s) (fail s) (ctx_done s) (sctx_done s) (numbering s) (queued s) (emitted s)
  (writes s) (clocks s) (accepted s) (host s) (refused s) x.
End updates.

(** ** Small steps *)

Abbreviation P := (prog sender).

(** [time.Now()]. *)
Definition Now : P time := both (λ s, match clocks s with [] => (s, 0) | t :: l => (set_clocks s l, t) end).

Definition count (f : Z → Metrics.Agent → Metrics.Agent) (n : Z) : P () := write (λ s, set_metrics s (f n (metrics s))).

Definition emit (e : Event) : P () := write (λ s, set_emitted s (emitted s ++ [e])).

Definition signal : P () := write (λ s, set_wake s true).

(** [conn.Send], which holds the connection's mutex. *)
Definition Send (c : nat) (t : MessageType) (seq : Z) (payload : option (list byte)) : P (option Frame.error) :=
  both (λ s,
    match conns s !! c with
    | None => (s, Some DeadlineFailed)
    | Some cn =>
        let '(ok, failure) := default (true, None) (head (writes s)) in
        let '(codec, err) := Frame.Send (codec cn) t seq payload (ok && negb (nc_closed cn)) failure in
        let log := match err with None => sent_log cn ++ [(t, seq)] | Some _ => sent_log cn end in
        let refused :=
          if (t =? MsgEvent) && bool_decide (err = Some ErrPayloadTooLarge) then refused s ∪ {[seq]} else refused s in
        (set_sent s (<[c := mkConnection codec (nc_closed cn) log]> (conns s)) (tail (writes s)) refused, err)
    end).

(** [conn.Close()]. *)
Definition close_conn (c : nat) : P () :=
  write (λ s, match conns s !! c with
              | Some cn => set_conns s (<[c := mkConnection (codec cn) true (sent_log cn)]> (conns s))
              | None => s
              end).

(** Calls of the backlog.  A panic or a death in one is the end of the process. *)
Definition call_backlog {A} (f : B → B * out A) : P (result () A) :=
  Act (λ s, match f (backlog s) with
            | (b, Ret a) => Some (set_backlog s b, Ok a)
            | (b, Raise _) => Some (set_backlog s b, Err ())
            | (_, Panic) | (_, Crash) => None
            end) Done.

Definition ask {A} (f : B → A) : P A := read (λ s, f (backlog s)).

(** [for { cur := v.Load(); if seq <= cur || v.CompareAndSwap(cur, seq) { break } }];
    whether the value was stored.  One goroutine at a time stores to these variables, so
    that the first round is the last. *)
Fixpoint raise_to (rounds : nat) (load : sender → Z) (store : sender → Z → sender) (seq : Z) : P bool :=
  match rounds with
  | O => mret false
  | S rounds =>
      cur ← read load;
      if seq <=? cur then mret false
      else
        ok ← both (λ s, if load s =? cur then (store s seq, true) else (s, false));
        if (ok : bool) then mret true else raise_to rounds load store seq
  end.

(** ** Oversized events *)

Definition pruneOversized (through : Z) : P () :=
  write (λ s, if through <=? oversizedPrunedThrough s then s
              else set_oversized s (filter (λ q, through < q) (oversized s)) through).

Definition isOversized (seq : Z) : P bool := read (λ s, bool_decide (seq ∈ oversized s)).

Definition releaseOversized (seq : Z) : P () :=
  match bl_discard with
  | Some discard =>
      write (λ s, set_backlog s (discard seq (backlog s)));;
      write (λ s, set_oversized s (oversized s ∖ {[seq]}) (oversizedPrunedThrough s))
  | None => mret ()
  end.

(** [e.Fields["reason"] == oversizedEventReason] *)
Definition is_loss_report (e : Event) : bool :=
  String.eqb (Type_ e) TypeProtocolViolation &&
  match default ∅ (Fields e) !! "reason" with
  | Some (AnyString r) => String.eqb r oversizedEventReason
  | _ => false
  end.

Definition reportOversized (e : Event) : P () :=
  already ← both (λ s, (set_oversized s (oversized s ∪ {[Sequence e]}) (oversizedPrunedThrough s),
                        bool_decide (Sequence e ∈ oversized s)));
  if (already : bool) then mret ()
  else
    count count_EventsDropped 1;;
    if is_loss_report e then mret ()
    else
      now ← Now;
      emit (NewInternal now TypeProtocolViolation SeverityCritical
              {[ "reason" := AnyString oversizedEventReason; "events_dropped" := AnyInt 1;
                 "first_missing_sequence" := AnyInt (Sequence e); "last_missing_sequence" := AnyInt (Sequence e);
                 "event_type" := AnyString (Type_ e) ]}).

(** ** Acknowledgements *)

(** [s.resume(seq)]: [Agent.resumeNumbering], which holds the agent's submit mutex. *)
Definition resume (seq : Z) : P () :=
  write (λ s, set_numbering s (fst (adv_run 3 (numbering s) (advanceTo (u64 (seq + 1)))))).

Definition adoptHostPosition (seq : Z) : P () :=
  last ← ask bl_LastSequence;
  if seq <=? last then mret ()
  else
    raised ← raise_to 2 hostAhead set_hostAhead seq;
    if (raised : bool) && has_resume cfg && (seq <? u64_mod - 1) then resume seq else mret ().

(** An error of the backlog is logged. *)
Definition ack_backlog (seq : Z) : P () := call_backlog (bl_Ack seq);; mret ().

Definition applyAck (seq : Z) : P () :=
  if seq =? 0 then mret ()
  else
    adoptHostPosition seq;;
    ack_backlog seq;;
    raise_to 2 ackedThrough set_ackedThrough seq;;
    pruneOversized seq.

Definition reconcile : P () :=
  first ← ask bl_FirstUnacked;
  (if 0 <? first then pruneOversized (first - 1) else mret ());;
  through ← read ackedThrough;
  if through =? 0 then mret ()
  else
    pending ← ask bl_PendingCount;
    if (pending =? 0) || (through <? first) then mret () else ack_backlog through.

Definition unsent (sentThrough : Z) : P bool :=
  pending ← ask bl_PendingCount;
  if 0 <? pending then last ← ask bl_LastSequence; mret (sentThrough <? last) else mret false.

(** The acknowledged prefix of the in-flight list. *)
Fixpoint covered_prefix (through : Z) (l : list Z) : nat :=
  match l with
  | q :: l => if q <=? through then S (covered_prefix through l) else O
  | [] => O
  end.

Definition trimInflight (inflight : list Z) (through : Z) : list Z * Z :=
  if (through =? 0) || bool_decide (inflight = []) then (inflight, 0)
  else
    let n := covered_prefix through inflight in
    (drop n inflight, Z.of_nat n).

(** ** Sending *)

(** What [dispatch] leaves in its two pointers, and its result. *)
Definition dispatched : Type := list Z * Z * result serr Z.

(** The counters of an event that was sent. *)
Definition note_sent (seq : Z) : P () :=
  count count_EventsSent 1;;
  highest ← read highestSent;
  if seq <=? highest then count count_EventsResent 1 else write (λ s, set_highestSent s seq).

(** The loop over the events read. *)
Fixpoint dispatch_loop (c : nat) (acked : Z) (events : list Event) (inflight : list Z) (sentThrough sent : Z) :
    P dispatched :=
  match events with
  | [] => mret (inflight, sentThrough, Ok sent)
  | e :: events =>
      let seq := Sequence e in
      if seq <=? sentThrough then dispatch_loop c acked events inflight sentThrough sent
      else if seq <=? acked then dispatch_loop c acked events inflight seq sent
      else
        over ← isOversized seq;
        if (over : bool) then releaseOversized seq;; dispatch_loop c acked events inflight seq sent
        else
          err ← Send c MsgEvent seq (json_event (mkEventMessage (Some e)));
          match err with
          | Some ErrPayloadTooLarge =>
              reportOversized e;;
              releaseOversized seq;;
              dispatch_loop c acked events inflight seq sent
          | Some err => mret (inflight, sentThrough, Err (SProtocol err))
          | None =>
              note_sent seq;;
              let inflight := inflight ++ [seq] in
              if MaxUnacked cfg <=? Z.of_nat (length inflight)
              then mret (inflight, seq, Ok (sent + 1))
              else dispatch_loop c acked events inflight seq (sent + 1)
          end
  end.

Definition dispatch (c : nat) (inflight : list Z) (sentThrough : Z) : P dispatched :=
  let room := MaxUnacked cfg - Z.of_nat (length inflight) in
  if room <=? 0 then mret (inflight, sentThrough, Ok 0)
  else
    let room := if maxSendBatch <? room then maxSendBatch else room in
    more ← unsent sentThrough;
    if negb more then mret (inflight, sentThrough, Ok 0)
    else
      r ← call_backlog (bl_NextAfter sentThrough room);
      match r with
      | Err _ => mret (inflight, sentThrough, Err (SOther "reading the backlog"))
      | Ok events =>
          acked ← read ackedThrough;
          dispatch_loop c acked events inflight sentThrough 0
      end.

(** Where the send loop is: at its top, in the shutdown flush, or returned. *)
Inductive phase : Type :=
| Looping (inflight : list Z) (sentThrough : Z) (lastProgress : time)
| Flushing (deadline : time) (inflight : list Z) (sentThrough : Z)
| Ended (err : option serr).

Definition flushTimeout : duration :=
  if (AckTimeout cfg <=? 0) || (maxShutdownFlush <? AckTimeout cfg) then maxShutdownFlush else AckTimeout cfg.

(** The start of [flush]: the wait for the pump has no effect. *)
Definition flush (inflight : list Z) (sentThrough : Z) : P phase :=
  now ← Now;
  mret (Flushing (now + flushTimeout) inflight sentThrough).

(** How a [select] that several channels make ready goes on. *)
Inductive choice : Type := PickCtx | PickSession | PickWake | PickTimer.
#[export] Instance choice_eq_dec : EqDecision choice.
Proof. solve_decision. Defined.

(** The [select] at the end of a round: a channel that is not ready leaves the timer. *)
Definition wait_round (pick : choice) (inflight : list Z) (sentThrough : Z) (lastProgress : time) : P phase :=
  r ← both (λ s,
    match pick with
    | PickCtx => (s, if ctx_done s then 1 else 0)
    | PickSession => (s, if sctx_done s then 2 else 0)
    | PickWake => (set_wake s false, 0)
    | PickTimer => (s, 0)
    end);
  if r =? 1 then flush inflight sentThrough
  else if r =? 2 then mret (Ended None)
  else mret (Looping inflight sentThrough lastProgress).

(** One round of [sendLoop]. *)
Definition send_round (pick pick' : choice) (c : nat) (inflight : list Z) (sentThrough : Z) (lastProgress : time) :
    P phase :=
  d ← read (λ s, (ctx_done s, sctx_done s));
  let '(ctx, sctx) := d in
  if ctx && (negb sctx || bool_decide (pick = PickCtx)) then flush inflight sentThrough
  else if (sctx : bool) then mret (Ended None)
  else
    reconcile;;
    through ← read ackedThrough;
    let '(inflight, n) := trimInflight inflight through in
    lastProgress ← (if 0 <? n then count count_EventsAcknowledged n;; Now else mret lastProgress);
    late ← (if (0 <? Z.of_nat (length inflight)) && (0 <? AckTimeout cfg)
            then now ← Now; mret (AckTimeout cfg - Sub now lastProgress <=? 0) else mret false);
    if (late : bool) then mret (Ended (Some (SOther "events unacknowledged")))
    else
      x ← dispatch c inflight sentThrough;
      let '(inflight, sentThrough', r) := x in
      match r with
      | Err e => mret (Ended (Some e))
      | Ok sent =>
          if (0 <? sent) || (sentThrough <? sentThrough') then mret (Looping inflight sentThrough' lastProgress)
          else wait_round pick' inflight sentThrough' lastProgress
      end.

(** The end of [flush]: SHUTDOWN is sent either way. *)
Definition say_goodbye (c : nat) : P phase :=
  highest ← read highestSent;
  Send c MsgShutdown 0 (json_shutdown (mkShutdown "agent shutting down" highest));;
  mret (Ended None).

(** One round of the loop of [flush]. *)
Definition flush_round (pick : choice) (c : nat) (deadline : time) (inflight : list Z) (sentThrough : Z) : P phase :=
  now ← Now;
  sctx ← read sctx_done;
  if (deadline <=? now) || sctx then say_goodbye c
  else
    reconcile;;
    through ← read ackedThrough;
    let '(inflight, _) := trimInflight inflight through in
    x ← dispatch c inflight sentThrough;
    let '(inflight, sentThrough', r) := x in
    match r with
    | Err e => mret (Ended (Some e))
    | Ok sent =>
        if (0 <? sent) || (sentThrough <? sentThrough') then mret (Flushing deadline inflight sentThrough')
        else
          more ← (if bool_decide (inflight = []) then unsent sentThrough' else mret true);
          if (more : bool)
          then write (λ s, if bool_decide (pick = PickWake) then set_wake s false else s);;
               mret (Flushing deadline inflight sentThrough')
          else say_goodbye c
    end.

(** ** Receiving *)

(** What [conn.Receive] and [DecodePayload] give: a failed read, a payload that does not
    decode, or a message. *)
Inductive inbound : Type :=
| InFailed (e : Frame.error)
| InMalformed (e : Frame.error)
| InAck (a : Messages.Ack)
| InPong (p : Pong)
| InError (em : ErrorMessage)
| InShutdown (sd : Shutdown)
| InOther (t : MessageType).

(** The host states a position. *)
Definition note_host (seq : Z) : P () := write (λ s, set_host s (Z.max (host s) seq)).

Definition sendError (c : nat) (code : ErrorCode) (msg : string) : P () :=
  Send c MsgError 0 (json_error (mkErrorMessage code msg true));; mret ().

(** One round of [recvLoop]: the error it returns, if it does. *)
Definition recv_round (c : nat) (f : inbound) : P (option serr) :=
  match f with
  | InFailed e | InMalformed e => mret (Some (SProtocol e))
  | InAck a =>
      note_host (a_Sequence a);;
      applyAck (a_Sequence a);;
      signal;;
      mret None
  | InPong _ => now ← Now; write (λ s, set_lastPong s now);; mret None
  | InError em => mret (if Fatal em then Some (errHostFatal em) else None)
  | InShutdown _ => mret (Some (SOther "the host collector closed the session"))
  | InOther _ =>
      sendError c ErrCodeUnexpectedType "not a message the host may send";;
      mret (Some (SProtocol ErrBadType))
  end.

(** [setFail] of [session]: the first error before the session is over. *)
Definition setFail (err : option serr) : P () :=
  match err with
  | None => mret ()
  | Some _ =>
      over ← read sctx_done;
      if (over : bool) then mret ()
      else
        write (λ s, match fail s with None => set_fail s err | Some _ => s end);;
        write (λ s, set_sctx_done s true)
  end.

Definition ping : P Ping :=
  m ← read metrics;
  bytes ← ask bl_Bytes;
  now ← Now;
  pending ← ask bl_PendingCount;
  depth ← read queued;
  mret (mkPing (Sub now (started cfg) / 1000000000) (EventsCreated m) (EventsSent m) (u64 pending) (EventsDropped m)
          (auditEnabled cfg) (u64 depth) (if bytes <? 0 then 0 else bytes)).

(** One tick of [heartbeatLoop]. *)
Definition heartbeat_round (c : nat) : P (option serr) :=
  p ← ping;
  err ← Send c MsgPing 0 (json_ping p);
  match err with
  | Some e => mret (Some (SProtocol e))
  | None =>
      if 0 <? HeartbeatTimeout cfg then
        last ← read lastPong;
        now ← Now;
        mret (if HeartbeatTimeout cfg <? Sub now last then Some (SOther "no PONG from the host") else None)
      else mret None
  end.

(** ** The pump *)

Definition recordAppendFailure (e : Event) : P () :=
  count count_EventsDropped 1;;
  write (λ s, set_failed s (u64 (failed s + 1))
    (if (failedLow s =? 0) || (Sequence e <? failedLow s) then Sequence e else failedLow s)
    (if failedHigh s <? Sequence e then Sequence e else failedHigh s)).

Definition drainAppendFailures : P (option (Z * Z * Z)) :=
  both (λ s, if failed s =? 0 then (s, None)
             else (set_failed s 0 0 0, Some (failed s, failedLow s, failedHigh s))).

(** [backlog.Append(e)], with what it accepted. *)
Definition append_backlog (e : Event) : P bool :=
  Act (λ s, match bl_Append (Some e) (backlog s) with
            | (b, Ret _) => Some (set_accepted s b (accepted s ++ [Sequence e]), true)
            | (b, Raise _) => Some (set_backlog s b, false)
            | (_, Panic) | (_, Crash) => None
            end) Done.

(** The pump with the event it got from the queue. *)
Definition pump_event (e : Event) : P () :=
  ok ← append_backlog e;
  if (ok : bool) then signal
  else
    write (λ s, set_backlog s (bl_Release (backlog s)));;
    recordAppendFailure e.

(** The pump that gives up waiting for room. *)
Definition pump_stop : P () :=
  n ← read queued;
  (if 0 <? n then count count_EventsDropped n else mret ());;
  write (λ s, set_pumpDone s true).

(** ** Connections *)

Definition adoptConn (c : nat) : P bool :=
  both (λ s, if closed s then (s, false) else (set_conn s (Some c), true)).

Definition dropConn (c : nat) : P () :=
  write (λ s, if bool_decide (conn s = Some c) then set_conn s None else s);;
  close_conn c.

(** [close], in its two critical sections. *)
Definition close : P () :=
  c ← both (λ s, (set_conn (set_closed s true) None, conn s));
  match c with None => mret () | Some c => close_conn c end.

Definition payloadLimit (n : Z) : Z :=
  if n <=? 0 then DefaultMaxPayloadSize
  else if MaxPayloadCeiling <? n then MaxPayloadCeiling
  else n.

(** [protocol.NewConn] over the socket of a successful dial. *)
Definition new_conn (limit : Z) : P nat :=
  both (λ s, (set_conns s (conns s ++ [mkConnection (NewConn limit) false []]), length (conns s))).

(** The codec built again over the same socket, for a smaller limit. *)
Definition rebuild_conn (c : nat) (limit : Z) : P () :=
  write (λ s, match conns s !! c with
              | Some cn => set_conns s (<[c := mkConnection (mkConn (NewEncoder limit) false (wire (codec cn)))
                                                 (nc_closed cn) (sent_log cn)]> (conns s))
              | None => s
              end).

(** The answer to HELLO. *)
Inductive reply : Type :=
| ReplyFailed (e : Frame.error)
| ReplyReady (r : Ready)
| ReplyError (em : ErrorMessage)
| ReplyOther (t : MessageType).

Definition hello (first : Z) : Hello :=
  mkHello Frame.Version (id_Version (cfg_id cfg)) (id_Hostname (cfg_id cfg)) (id_BootID (cfg_id cfg))
    (id_MachineID (cfg_id cfg)) (id_Kernel (cfg_id cfg)) first.

(** [connect]: the connection and READY, or why there is none. *)
Definition connect (dial : bool) (r : reply) : P (result serr (nat * Ready)) :=
  if negb dial then mret (Err (SOther "dial"))
  else
    let limit := payloadLimit (cfg_MaxPayloadSize cfg) in
    c ← new_conn limit;
    ok ← adoptConn c;
    if negb ok then close_conn c;; mret (Err errSenderClosed)
    else
      first ← ask bl_FirstUnacked;
      err ← Send c MsgHello 0 (json_hello (hello first));
      match err with
      | Some e => dropConn c;; mret (Err (SProtocol e))
      | None =>
          match r with
          | ReplyFailed e => dropConn c;; mret (Err (SProtocol e))
          | ReplyError em => dropConn c;; mret (Err (errHostFatal em))
          | ReplyOther _ => dropConn c;; mret (Err (SProtocol ErrBadType))
          | ReplyReady ready =>
              if negb (r_ProtocolVersion ready =? Frame.Version)
              then dropConn c;; mret (Err (SProtocol ErrBadVersion))
              else if (0 <? MaxPayloadSize ready) && (MaxPayloadSize ready <? limit) then
                rebuild_conn c (MaxPayloadSize ready);;
                ok ← adoptConn c;
                if negb ok then close_conn c;; mret (Err errSenderClosed) else mret (Ok (c, ready))
              else mret (Ok (c, ready))
          end
      end.

(** [reportFailure]: whether the host was at fault. *)
Definition protocol_violation (e : option serr) : bool :=
  match e with Some (SProtocol e) => IsProtocolError (Some e) | _ => false end.

Definition error_text (e : option serr) : string :=
  match e with None => "connection closed by the host" | Some e => Error cfg e end.

Definition reportFailure (e : option serr) (attempt : Z) : P bool :=
  count count_SendErrors 1;;
  (if protocol_violation e then
     now ← Now;
     emit (NewInternal now TypeProtocolViolation ""
             {[ "reason" := AnyString (error_text e); "peer" := AnyString (dialer cfg) ]})
   else mret ());;
  now ← Now;
  emit (NewTransportDisconnected now (error_text e) attempt);;
  mret (protocol_violation e || match e with Some (errHostFatal _) => true | _ => false end).

(** The start of [session]: what READY says of the host's position is an acknowledgement.
    The context of the session is new. *)
Definition start_session (ready : Ready) : P phase :=
  note_host (ResumeFrom ready);;
  (if 0 <? ResumeFrom ready then applyAck (ResumeFrom ready) else mret ());;
  now ← Now;
  write (λ s, set_lastPong s now);;
  write (λ s, set_fail (set_sctx_done s false) None);;
  now ← Now;
  mret (Looping [] 0 now).

(** The end of [session]: the context is cancelled and the connection closed. *)
Definition end_session (c : nat) : P () := write (λ s, set_sctx_done s true);; close_conn c.

(** ** The goroutines together *)

(** What the goroutine of [run] does next. *)
Inductive next_step : Type :=
| Dial (everConnected : bool)
| Begin (c : nat) (ready : Ready)
| Spawn (c : nat) (ph : phase)
| Round (c : nat) (ph : phase)
| Finish (c : nat) (err : option serr)
| Stopped.

Definition is_closed_error (e : serr) : bool := match e with errSenderClosed => true | _ => false end.

(** [run] from the top of its loop to the session; [attempt] comes from the backoff. *)
Definition run_dial (everConnected dial : bool) (r : reply) (attempt : Z) : P next_step :=
  stop ← read ctx_done;
  if (stop : bool) then mret Stopped
  else
    x ← connect dial r;
    match x with
    | Err e =>
        stop ← read ctx_done;
        if (stop : bool) || is_closed_error e then mret Stopped
        else reportFailure (Some e) attempt;; mret (Dial everConnected)
    | Ok (c, ready) =>
        (if everConnected then count count_VSOCKReconnects 1 else mret ());;
        now ← Now;
        emit (NewTransportConnected now (dialer cfg) attempt);;
        mret (Begin c ready)
    end.

(** [run] after the session. *)
Definition run_finish (c : nat) (err : option serr) (attempt : Z) : P next_step :=
  f ← read fail;
  dropConn c;;
  stop ← read ctx_done;
  if (stop : bool) then mret Stopped
  else reportFailure (match err with Some _ => err | None => f end) attempt;; mret (Dial true).

(** Where the pump is: waiting for room, waiting for an event, or gone. *)
Inductive pump_step : Type := PumpReserve | PumpGet | PumpEnd.

Record system : Type := mkSystem {
  shared : sender;
  main : P next_step;
  recv : option (nat * P (option serr));
  beat : option (nat * P (option serr));
  pump : P pump_step;
  closer : P ()
}.

Definition newSender (b : B) (m : Metrics.Agent) (next : Z) : sender :=
  mkSender b m false 0 0 0 0 ∅ 0 0 0 0 false [] None false None false false next 0 [] [] [] [] 0 ∅ [].

(** The next program of [run]'s goroutine, for the inputs of the environment. *)
Definition main_next (n : next_step) (pick pick' : choice) (dial : bool) (r : reply) (attempt : Z) : option (P next_step) :=
  match n with
  | Dial everConnected => Some (run_dial everConnected dial r attempt)
  | Begin c ready => Some (ph ← start_session ready; mret (Spawn c ph))
  | Round c (Looping inflight sentThrough lastProgress) =>
      Some (ph ← send_round pick pick' c inflight sentThrough lastProgress; mret (Round c ph))
  | Round c (Flushing deadline inflight sentThrough) =>
      Some (ph ← flush_round pick c deadline inflight sentThrough; mret (Round c ph))
  | Round c (Ended err) => Some (end_session c;; mret (Finish c err))
  | Spawn _ _ | Finish _ _ | Stopped => None
  end.

Context `{HL : !BacklogLaws B}.

(** The process at its start: what the backlog holds counts as accepted, and what its
    checkpoint says as stated by the host. *)
Definition start (b : B) (m : Metrics.Agent) (next : Z) : system :=
  mkSystem (set_host (set_accepted (newSender b m next) b (held b)) (floor b))
    (Done (Dial false)) None None (Done PumpReserve) (Done ()).

(** A READY or an ACK carries a [uint64]. *)
Definition reply_ok (r : reply) : Prop := match r with ReplyReady r => is_u64 (ResumeFrom r) | _ => True end.
Definition inbound_ok (f : inbound) : Prop := match f with InAck a => is_u64 (a_Sequence a) | _ => True end.

(** One step of the process.  [queue.Get] and the [Append] of what it gave are one step:
    nothing else sees the event in between. *)
Inductive sys_step : system → system → Prop :=
| sys_main s m r b p k s' m' :
    advance m s = Some (s', m') → sys_step (mkSystem s m r b p k) (mkSystem s' m' r b p k)
| sys_next s n r b p k pick pick' dial rep attempt m' :
    main_next n pick pick' dial rep attempt = Some m' → reply_ok rep →
    sys_step (mkSystem s (Done n) r b p k) (mkSystem s m' r b p k)
| sys_spawn s c ph p k :
    sys_step (mkSystem s (Done (Spawn c ph)) None None p k)
      (mkSystem s (Done (Round c ph)) (Some (c, Done None)) (Some (c, Done None)) p k)
| sys_finish s c err p k attempt :
    sys_step (mkSystem s (Done (Finish c err)) None None p k)
      (mkSystem s (run_finish c err attempt) None None p k)
| sys_recv s m c q b p k s' q' :
    advance q s = Some (s', q') →
    sys_step (mkSystem s m (Some (c, q)) b p k) (mkSystem s' m (Some (c, q')) b p k)
| sys_frame s m c b p k f :
    inbound_ok f →
    sys_step (mkSystem s m (Some (c, Done None)) b p k)
      (mkSystem s m (Some (c, (e ← recv_round c f; setFail e;; mret e))) b p k)
| sys_recv_end s m c e b p k :
    sys_step (mkSystem s m (Some (c, Done (Some e))) b p k) (mkSystem s m None b p k)
| sys_beat s m r c q p k s' q' :
    advance q s = Some (s', q') →
    sys_step (mkSystem s m r (Some (c, q)) p k) (mkSystem s' m r (Some (c, q')) p k)
| sys_tick s m r c p k :
    0 < HeartbeatInterval cfg →
    sys_step (mkSystem s m r (Some (c, Done None)) p k)
      (mkSystem s m r (Some (c, (e ← heartbeat_round c; setFail e;; mret e))) p k)
| sys_beat_end s m r c e p k :
    sctx_done s = true ∨ e ≠ None ∨ HeartbeatInterval cfg <= 0 →
    sys_step (mkSystem s m r (Some (c, Done e)) p k) (mkSystem s m r None p k)
| sys_pump s m r b p k s' p' :
    advance p s = Some (s', p') → sys_step (mkSystem s m r b p k) (mkSystem s' m r b p' k)
| sys_reserve s m r b k bl :
    bl_Reserve (backlog s) = Some bl →
    sys_step (mkSystem s m r b (Done PumpReserve) k) (mkSystem (set_backlog s bl) m r b (Done PumpGet) k)
| sys_no_room s m r b k :
    ctx_done s = true →
    sys_step (mkSystem s m r b (Done PumpReserve) k) (mkSystem s m r b (pump_stop;; mret PumpEnd) k)
| sys_get s m r b k e s' p' :
    appendable (backlog s) e → advance (pump_event e;; mret PumpReserve) s = Some (s', p') →
    sys_step (mkSystem s m r b (Done PumpGet) k) (mkSystem s' m r b p' k)
| sys_queue_closed s m r b k :
    sys_step (mkSystem s m r b (Done PumpGet) k) (mkSystem (set_pumpDone s true) m r b (Done PumpEnd) k)
| sys_closer s m r b p k s' k' :
    advance k s = Some (s', k') → sys_step (mkSystem s m r b p k) (mkSystem s' m r b p k')
| sys_close s m r b p :
    sys_step (mkSystem s m r b p (Done ())) (mkSystem s m r b p close)
| sys_cancel s m r b p k :
    sys_step (mkSystem s m r b p k) (mkSystem (set_ctx_done s true) m r b p k)
| sys_drain s m r b p k bl l :
    bl_DrainDropped (backlog s) = (bl, l) →
    sys_step (mkSystem s m r b p k)
      (mkSystem (set_drained s bl (drained s ++ match l with Some (_, lo, hi) => [(lo, hi)] | None => [] end)) m r b p k)
| sys_drain_failures s m r b p k s' l :
    solo drainAppendFailures s = Some (s', l) →
    sys_step (mkSystem s m r b p k) (mkSystem s' m r b p k)
| sys_submit s m r b p k n q :
    sys_step (mkSystem s m r b p k) (mkSystem (set_queued (set_numbering s n) q) m r b p k)
| sys_io s m r b p k w t :
    sys_step (mkSystem s m r b p k) (mkSystem (set_clocks (set_sent s (conns s) w (refused s)) t) m r b p k).
End sender.
