(* ===== verification/SenderProofs.v ===== *)
(** * The sender delivers everything, in order, or says why not

    The theorems about [Sender], for any backlog that keeps the laws of [Backlog] and
    any interleaving of the goroutines. *)

From S2P Require Import Prelude GoStrings Event InternalEvents Metrics Sequencer Messages Frame Spool Threads Backlog Sender.

Section proofs.
Context {B : Type} `{HB : Backlog B} `{HL : !BacklogLaws B} `{HJ : MessageJson} (cfg : config).

Abbreviation sender := (Sender.sender (B := B)).
Implicit Types s : sender.

(** ** The invariant of the shared state *)

Definition in_ranges (l : list (Z * Z)) (q : Z) : Prop := ∃ r, r ∈ l ∧ r.1 <= q <= r.2.

(** Why a sequence need not be delivered: the host holds it, it is accounted for as
    lost, or no frame can carry it. *)
Definition excused (s : sender) (q : Z) : Prop :=
  q <= host s ∨ lost (backlog s) q ∨ in_ranges (drained s) q ∨ q ∈ refused s.

(** The sequences of the EVENT frames of a connection. *)
Definition sent_of (cn : connection) : list Z := snd <$> filter (λ x, x.1 = MsgEvent) (sent_log cn).

Record conn_ok (s : sender) (snt : list Z) : Prop := {
  co_sorted : StronglySorted Z.lt snt;
  co_noskip : ∀ q' q, q' ∈ snt → q ∈ accepted s → q < q' → q ∈ snt ∨ excused s q;
  co_last : ∀ q, q ∈ snt → q <= bl_LastSequence (backlog s);
  co_window : Z.of_nat (length (filter (λ q, host s < q) snt)) <= Z.max 0 (MaxUnacked cfg)
}.

Record sinv (s : sender) : Prop := {
  si_ok : bl_ok (backlog s);
  si_acked : 0 <= ackedThrough s <= host s;
  si_host : is_u64 (host s);
  si_floor : floor (backlog s) <= host s;
  si_accepted : ∀ q, q ∈ accepted s → q ∈ held (backlog s) ∨ excused s q;
  si_last : ∀ q, q ∈ accepted s → q <= bl_LastSequence (backlog s);
  si_over : ∀ q, q ∈ oversized s → q ∈ refused s;
  si_conns : ∀ c cn, conns s !! c = Some cn → conn_ok s (sent_of cn)
}.

(** How the shared state may change. *)
Record grows (s s' : sender) : Prop := {
  g_host : host s <= host s';
  g_excused : ∀ q, excused s q → excused s' q;
  g_refused : ∀ q, q ∈ refused s → q ∈ refused s';
  g_last : bl_LastSequence (backlog s) <= bl_LastSequence (backlog s');
  g_accepted : ∀ q, q ∈ accepted s' → q ∈ accepted s ∨ bl_LastSequence (backlog s) < q
}.

Definition evolves (s s' : sender) : Prop := sinv s → sinv s' ∧ grows s s'.

(** The EVENT frames of every connection are the same. *)
Definition same_sent (s s' : sender) : Prop :=
  ∀ c cn, conns s !! c = Some cn → ∃ cn', conns s' !! c = Some cn' ∧ sent_of cn' = sent_of cn.

#[global] Instance grows_preorder : PreOrder grows.
Proof.
  split.
  - intros s. constructor; auto; lia.
  - intros s1 s2 s3 [A1 A2 A3 A4 A5] [B1 B2 B3 B4 B5]. constructor; auto; [lia|lia|].
    intros q Hq. destruct (B5 q Hq) as [H|H]; [by apply A5|right; lia].
Qed.

#[global] Instance evolves_preorder : PreOrder evolves.
Proof.
  split.
  - intros s H. by split.
  - intros s1 s2 s3 H12 H23 H. destruct (H12 H) as [H2 G2]. destruct (H23 H2) as [H3 G3]. split; [done|by etrans].
Qed.

#[global] Instance same_sent_preorder : PreOrder same_sent.
Proof.
  split.
  - intros s c cn H. by exists cn.
  - intros s1 s2 s3 H12 H23 c cn H. destruct (H12 c cn H) as (cn2 & H2 & E2). destruct (H23 c cn2 H2) as (cn3 & H3 & E3).
    exists cn3. split; [done|congruence].
Qed.

Lemma conn_ok_grows s s' snt : sinv s → grows s s' → conn_ok s snt → conn_ok s' snt.
Proof.
  intros Hi [G1 G2 G3 G4 G5] [C1 C2 C3 C4]. constructor; [done| | |].
  - intros q' q Hq' Hq Hlt. destruct (G5 q Hq) as [Ha|Hl]; [|specialize (C3 q' Hq'); lia].
    destruct (C2 q' q Hq' Ha Hlt); auto.
  - intros q Hq. specialize (C3 q Hq). lia.
  - etrans; [|exact C4]. apply Nat2Z.inj_le, submseteq_length, filter_impl_submseteq. intros q Hq. lia.
Qed.

(** *** Changes that touch none of it *)

Definition same_core (s s' : sender) : Prop :=
  backlog s' = backlog s ∧ ackedThrough s' = ackedThrough s ∧ host s' = host s ∧ accepted s' = accepted s ∧
  refused s' = refused s ∧ drained s' = drained s.

Lemma same_core_excused s s' q : same_core s s' → excused s q → excused s' q.
Proof. intros (E1 & E2 & E3 & E4 & E5 & E6). unfold excused. by rewrite E1, E3, E5, E6. Qed.

Lemma same_core_grows s s' : same_core s s' → grows s s'.
Proof.
  intros H. pose proof H as (E1 & E2 & E3 & E4 & E5 & E6). constructor; rewrite ?E1, ?E2, ?E3, ?E4, ?E5; auto; try lia.
  intros q. by apply same_core_excused.
Qed.

Lemma core_evolves s s' :
  same_core s s' → same_sent s s' → (∀ c cn', conns s' !! c = Some cn' → sent_of cn' = [] ∨ ∃ cn, conns s !! c = Some cn ∧ sent_of cn' = sent_of cn) →
  (∀ q, q ∈ oversized s' → q ∈ oversized s ∨ q ∈ refused s) → evolves s s'.
Proof.
  intros H Hs Hback Ho Hi. pose proof (same_core_grows _ _ H) as Hg. split; [|done].
  pose proof H as (E1 & E2 & E3 & E4 & E5 & E6). pose proof Hi as [I1 I2 I3 I4 I5 I6 I7 I8].
  constructor; rewrite ?E1, ?E2, ?E3, ?E4, ?E5; auto.
  - intros q Hq. destruct (I5 q Hq); auto. right. by eapply same_core_excused.
  - intros q Hq. destruct (Ho q Hq); auto.
  - intros c cn' Hc. destruct (Hback c cn' Hc) as [->|(cn & Hcn & ->)].
    + constructor; [constructor|set_solver|set_solver|]. rewrite filter_nil. simpl. lia.
    + eapply conn_ok_grows; [done|done|]. by eapply I8.
Qed.

(** A change outside the core and the connections. *)
Lemma write_evolves s s' :
  same_core s s' → conns s' = conns s → (∀ q, q ∈ oversized s' → q ∈ oversized s ∨ q ∈ refused s) →
  evolves s s' ∧ same_sent s s'.
Proof.
  intros H Hc Ho. assert (Hs : same_sent s s') by (intros c cn Hcn; exists cn; by rewrite Hc). split; [|done].
  apply core_evolves; auto. rewrite Hc. intros c cn Hcn. right. by exists cn.
Qed.

(** *** Changes of the backlog *)

Lemma backlog_evolves s b k :
  bl_ok b → (∀ q, lost (backlog s) q → lost b q ∨ q <= k) → floor b <= k → k <= host s →
  (∀ q, q ∈ held (backlog s) → q ∈ held b ∨ q <= k ∨ lost b q ∨ q ∈ refused s) →
  bl_LastSequence (backlog s) <= bl_LastSequence b →
  evolves s (set_backlog s b) ∧ same_sent s (set_backlog s b).
Proof.
  intros Hok Hlost Hfl Hk Hheld Hlast. assert (Hs : same_sent s (set_backlog s b)) by (intros c cn Hcn; by exists cn).
  split; [|done]. intros Hi. pose proof Hi as [I1 I2 I3 I4 I5 I6 I7 I8].
  assert (Hex : ∀ q, excused s q → excused (set_backlog s b) q).
  { intros q [H|[H|[H|H]]]; unfold excused; simpl; auto. destruct (Hlost q H); auto. left. lia. }
  assert (Hg : grows s (set_backlog s b)) by (constructor; simpl; auto; lia).
  split; [|done]. constructor; simpl; auto; [lia| | |].
  - intros q Hq. destruct (I5 q Hq) as [H|H]; [|by auto]. destruct (Hheld q H) as [|[H1|[H1|H1]]]; auto; right; unfold excused; simpl; auto.
    left. lia.
  - intros q Hq. specialize (I6 q Hq). lia.
  - intros c cn Hc. eapply conn_ok_grows; [done|done|]. by eapply I8.
Qed.

(** ** Programs that change none of it *)

Definition quiet_change (s s' : sender) : Prop := evolves s s' ∧ same_sent s s'.

#[global] Instance quiet_preorder : PreOrder quiet_change.
Proof. split; [by intros s; split|]. intros s1 s2 s3 [A1 A2] [B1 B2]. split; by etrans. Qed.

(** Every action is quiet, wherever it happens. *)
Fixpoint quiet_prog {A} (p : prog sender A) : Prop :=
  match p with
  | Done _ => True
  | Act f k => ∀ s, sinv s → match f s with None => True | Some (s', x) => quiet_change s s' ∧ quiet_prog (k x) end
  end.

Lemma quiet_bind {A C} (p : prog sender A) (k : A → prog sender C) :
  quiet_prog p → (∀ a, quiet_prog (k a)) → quiet_prog (p ≫= k).
Proof.
  intros Hp Hk. induction p as [a|X f c IH]; [apply Hk|]. intros s Hs. specialize (Hp s Hs). simpl.
  destruct (f s) as [[s' x]|]; [|done]. destruct Hp as [Hq Hp]. split; [done|]. by apply IH.
Qed.

Lemma quiet_ret {A} (a : A) : quiet_prog (mret a).
Proof. done. Qed.

Lemma quiet_read {X} (f : sender → X) : quiet_prog (read f).
Proof. intros s Hs. done. Qed.

(** Changes outside the core. *)
Definition harmless (s s' : sender) : Prop :=
  same_core s s' ∧ conns s' = conns s ∧ ∀ q, q ∈ oversized s' → q ∈ oversized s.

Lemma harmless_quiet s s' : harmless s s' → quiet_change s s'.
Proof. intros (H1 & H2 & H3). apply write_evolves; auto. Qed.

Lemma quiet_write f : (∀ s, harmless s (f s)) → quiet_prog (write f).
Proof. intros H s Hs. split; [apply harmless_quiet, H|done]. Qed.

Lemma quiet_both {X} (f : sender → sender * X) : (∀ s, harmless s (f s).1) → quiet_prog (both f).
Proof. intros H s Hs. specialize (H s). simpl. destruct (f s) as [s' x]. split; [by apply harmless_quiet|done]. Qed.

Lemma quiet_ask {X} (f : B → X) : quiet_prog (ask f).
Proof. apply quiet_read. Qed.

Ltac harmless := unfold harmless, same_core; split_and!; done || (intros; done).

Lemma quiet_Now : quiet_prog Now.
Proof. apply quiet_both. intros s. destruct (clocks s); harmless. Qed.

Lemma quiet_count f n : quiet_prog (count f n).
Proof. apply quiet_write. intros s. harmless. Qed.

Lemma quiet_emit e : quiet_prog (emit e).
Proof. apply quiet_write. intros s. harmless. Qed.

Lemma quiet_signal : quiet_prog signal.
Proof. apply quiet_write. intros s. harmless. Qed.

Lemma quiet_prune through : quiet_prog (pruneOversized through).
Proof.
  apply quiet_write. intros s. destruct (through <=? oversizedPrunedThrough s); [harmless|].
  unfold harmless, same_core. split_and!; try done. intros q. simpl. by intros [_ H]%elem_of_filter.
Qed.

#[local] Hint Resolve quiet_ret quiet_read quiet_ask quiet_Now quiet_count quiet_emit quiet_signal quiet_prune : quiet.

(** One step towards [quiet_prog]. *)
Ltac quiet_step :=
  match goal with
  | |- quiet_prog (_ ≫= _) => apply quiet_bind; [|intros ?]
  | |- quiet_prog (match ?x with _ => _ end) => destruct x
  | |- quiet_prog (write _) => apply quiet_write; intros ?
  | |- quiet_prog (both _) => apply quiet_both; intros ?
  | |- quiet_prog _ => solve [auto with quiet]
  end.
Ltac quiet := repeat quiet_step; try (repeat case_match; harmless).

Lemma quiet_raise_hostAhead n seq : quiet_prog (raise_to n hostAhead set_hostAhead seq).
Proof. induction n as [|n IH]; cbn [raise_to]; quiet. Qed.

Lemma quiet_unsent q : quiet_prog (unsent q).
Proof. unfold unsent. quiet. Qed.

Lemma quiet_note_sent q : quiet_prog (note_sent q).
Proof. unfold note_sent. quiet. Qed.

Lemma quiet_adopt seq : quiet_prog (adoptHostPosition cfg seq).
Proof. unfold adoptHostPosition, resume. quiet; auto using quiet_raise_hostAhead. Qed.

Lemma quiet_setFail e : quiet_prog (setFail e).
Proof. unfold setFail. quiet. Qed.

Lemma quiet_ping : quiet_prog (ping cfg).
Proof. unfold ping. quiet. Qed.

Lemma quiet_flush l q : quiet_prog (flush cfg l q).
Proof. unfold flush. quiet. Qed.

Lemma quiet_wait pick l q t : quiet_prog (wait_round cfg pick l q t).
Proof. unfold wait_round. quiet; auto using quiet_flush. Qed.

Lemma quiet_reportFailure e n : quiet_prog (reportFailure cfg e n).
Proof. unfold reportFailure. quiet. Qed.

(** *** Connections *)

(** Connections that come, go or carry other frames than EVENT. *)
Lemma conns_quiet s s' :
  same_core s s' → oversized s' = oversized s →
  (∀ c cn, conns s !! c = Some cn → ∃ cn', conns s' !! c = Some cn' ∧ sent_of cn' = sent_of cn) →
  (∀ c cn', conns s' !! c = Some cn' → sent_of cn' = [] ∨ ∃ cn, conns s !! c = Some cn ∧ sent_of cn' = sent_of cn) →
  quiet_change s s'.
Proof. intros H1 H2 H3 H4. split; [|done]. apply core_evolves; auto. rewrite H2. auto. Qed.

Lemma insert_conn s s' c cn cn' :
  same_core s s' → oversized s' = oversized s → conns s !! c = Some cn → conns s' = <[c := cn']> (conns s) →
  sent_of cn' = sent_of cn → quiet_change s s'.
Proof.
  intros H1 H2 Hc Hs' He. assert (Hlt : (c < length (conns s))%nat) by (by eapply lookup_lt_Some).
  apply conns_quiet; try done; rewrite Hs'; intros d dn Hd; destruct (decide (d = c)) as [->|Hne].
  - rewrite list_lookup_insert_eq by done. exists cn'. split; [done|]. congruence.
  - rewrite list_lookup_insert_ne by done. by exists dn.
  - rewrite list_lookup_insert_eq in Hd by done. simplify_eq. right. by exists cn.
  - rewrite list_lookup_insert_ne in Hd by done. right. by exists dn.
Qed.

Lemma quiet_Send c t seq payload : t ≠ MsgEvent → quiet_prog (Send c t seq payload).
Proof.
  intros Ht s Hs. simpl. destruct (conns s !! c) as [cn|] eqn:Ec; [|by split].
  destruct (default (true, None) (head (writes s))) as [ok fl]. destruct (Frame.Send _ _ _ _ _ _) as [cd err].
  split; [|done]. rewrite (proj2 (Z.eqb_neq t MsgEvent)) by done. simpl.
  eapply insert_conn; [|done|exact Ec|done|]; [done|]. unfold sent_of. simpl. destruct err; [done|].
  rewrite filter_app, (filter_cons_False _ (t, seq)) by done. by rewrite filter_nil, app_nil_r.
Qed.

Lemma quiet_close_conn c : quiet_prog (close_conn c).
Proof.
  intros s Hs. simpl. split; [|done]. destruct (conns s !! c) as [cn|] eqn:Ec; [|done].
  by eapply insert_conn; [|done|exact Ec|done|].
Qed.

Lemma quiet_rebuild c l : quiet_prog (rebuild_conn c l).
Proof.
  intros s Hs. simpl. split; [|done]. destruct (conns s !! c) as [cn|] eqn:Ec; [|done].
  by eapply insert_conn; [|done|exact Ec|done|].
Qed.

Lemma quiet_new_conn l : quiet_prog (new_conn l).
Proof.
  intros s Hs. simpl. split; [|done]. apply conns_quiet; try done; simpl.
  - intros c cn Hc. exists cn. split; [|done]. by rewrite lookup_app_l by (by eapply lookup_lt_Some).
  - intros c cn Hc. apply lookup_app_Some in Hc as [Hc|[_ Hc]]; [right; by exists cn|].
    apply list_lookup_singleton_Some in Hc as [_ <-]. by left.
Qed.

Lemma quiet_adoptConn c : quiet_prog (adoptConn c).
Proof. unfold adoptConn. quiet. Qed.

#[local] Hint Resolve quiet_raise_hostAhead quiet_unsent quiet_note_sent quiet_adopt quiet_setFail quiet_ping
  quiet_flush quiet_wait quiet_reportFailure quiet_close_conn quiet_rebuild quiet_new_conn quiet_adoptConn : quiet.

Lemma quiet_dropConn c : quiet_prog (dropConn c).
Proof. unfold dropConn. quiet. Qed.

Lemma quiet_close : quiet_prog close.
Proof. unfold close. quiet. Qed.

#[local] Hint Resolve quiet_dropConn quiet_close : quiet.

Lemma quiet_connect dial r : quiet_prog (connect cfg dial r).
Proof. unfold connect. quiet; by apply quiet_Send. Qed.

Lemma quiet_run_dial ever dial r n : quiet_prog (run_dial cfg ever dial r n).
Proof. unfold run_dial. quiet. apply quiet_connect. Qed.

Lemma quiet_run_finish c e n : quiet_prog (run_finish cfg c e n).
Proof. unfold run_finish. quiet. Qed.

Lemma quiet_end_session c : quiet_prog (end_session c).
Proof. unfold end_session. quiet. Qed.

Lemma quiet_goodbye c : quiet_prog (say_goodbye c).
Proof. unfold say_goodbye. quiet. by apply quiet_Send. Qed.

Lemma quiet_heartbeat c : quiet_prog (heartbeat_round cfg c).
Proof. unfold heartbeat_round. quiet. by apply quiet_Send. Qed.

(** ** A logic for the rest

    [R]: what other goroutines may do; [G]: what this one may.  Both allow quiet changes
    and keep the invariant. *)

Class Roles (R G : sender → sender → Prop) : Prop := {
  HRp :: PreOrder R;
  HR s s' : R s s' → evolves s s';
  HRq s s' : quiet_change s s' → R s s';
  HG s s' : G s s' → evolves s s';
  HGq s s' : quiet_change s s' → G s s'
}.

Section logic.
Context {R G : sender → sender → Prop} `{HRG : !Roles R G}.

Definition stable (P : sender → Prop) : Prop := ∀ s s', sinv s → P s → R s s' → P s'.

Definition triple {A} (P : sender → Prop) (p : prog sender A) (Q : A → sender → Prop) : Prop :=
  ∀ s, sinv s → P s → ensures R G (λ a s, sinv s ∧ Q a s) p s.

Lemma t_ret {A} P (a : A) Q : stable P → (∀ s, sinv s → P s → Q a s) → triple P (mret a) Q.
Proof.
  intros HP HQ s Hs Hp s' Hr. destruct (HR _ _ Hr Hs) as [Hs' _]. split; [done|]. apply HQ; [done|]. exact (HP s s' Hs Hp Hr).
Qed.

Lemma t_bind {A C} P (p : prog sender A) (k : A → prog sender C) Q Q' :
  triple P p Q → (∀ a, triple (Q a) (k a) Q') → triple P (p ≫= k) Q'.
Proof.
  intros Hp Hk s Hs HP. apply (ensures_bind R G). eapply (ensures_weaken R G); [by apply Hp|].
  intros a s' [Hs' HQ]. by apply Hk.
Qed.

Lemma t_pre {A} P P' (p : prog sender A) Q : (∀ s, sinv s → P s → P' s) → triple P' p Q → triple P p Q.
Proof. intros H Ht s Hs HP. apply Ht; auto. Qed.

Lemma t_post {A} P (p : prog sender A) Q Q' : triple P p Q' → (∀ a s, sinv s → Q' a s → Q a s) → triple P p Q.
Proof. intros Ht H s Hs HP. eapply (ensures_weaken R G); [by apply Ht|]. intros a s' [Hs' HQ]. split; auto. Qed.

Lemma t_pure {A} (φ : Prop) P (p : prog sender A) Q : (∀ s, sinv s → P s → φ) → (φ → triple P p Q) → triple P p Q.
Proof. intros H Ht s Hs HP. by apply Ht; [eapply H|..]. Qed.

(** One action. *)
Lemma t_act {A X} P (f : sender → option (sender * X)) (Q : X → sender → Prop) (k : X → prog sender A) Q' :
  stable P →
  (∀ s s' x, sinv s → P s → f s = Some (s', x) → G s s' ∧ Q x s') →
  (∀ x, triple (Q x) (k x) Q') → triple P (Act f k) Q'.
Proof.
  intros HP Hf Hk s Hs Hp s' Hr. destruct (HR _ _ Hr Hs) as [Hs' _]. destruct (f s') as [[s'' x]|] eqn:E; [|done].
  destruct (Hf s' s'' x Hs' (HP _ _ Hs Hp Hr) E) as [Hg HQ]. split; [done|]. apply Hk; [|done].
  by destruct (HG _ _ Hg Hs').
Qed.

Lemma t_read {X} P (f : sender → X) Q :
  stable P → (∀ x, stable (Q x)) → (∀ s, sinv s → P s → Q (f s) s) → triple P (read f) Q.
Proof.
  intros HP HQ Hf. eapply (t_act P _ Q); [done| |].
  - intros s s' x Hs Hp [= <- <-]. split; [by apply HGq|by apply Hf].
  - intros x. apply (t_ret (Q x)); auto.
Qed.

Lemma stable_quiet P s s' : stable P → sinv s → P s → quiet_change s s' → P s'.
Proof. intros HP Hs Hp Hq. exact (HP s s' Hs Hp (HRq _ _ Hq)). Qed.

Lemma t_quiet {A} P (p : prog sender A) : stable P → quiet_prog p → triple P p (λ _, P).
Proof.
  intros HP. induction p as [a|X f k IH]; intros Hq s Hs Hp s' Hr; destruct (HR _ _ Hr Hs) as [Hs' _];
    pose proof (HP s s' Hs Hp Hr) as Hp'; [done|].
  specialize (Hq s' Hs'). destruct (f s') as [[s'' x]|]; [|done]. destruct Hq as [Hq Hk]. split; [by apply HGq|].
  apply IH; [done| |by eapply stable_quiet]. by destruct Hq as [He _]; destruct (He Hs').
Qed.

Lemma stable_and P Q : stable P → stable Q → stable (λ s, P s ∧ Q s).
Proof. intros HP HQ s s' Hs [H1 H2] Hr. split; [exact (HP s s' Hs H1 Hr)|exact (HQ s s' Hs H2 Hr)]. Qed.

Lemma stable_const (φ : Prop) : stable (λ _, φ).
Proof. by intros s s' _ H _. Qed.

(** The host has stated at least [q]. *)
Lemma stable_host q : stable (λ s, q <= host s).
Proof. intros s s' Hs Hq Hr. destruct (HR _ _ Hr Hs) as [_ Hg]. pose proof (g_host _ _ Hg). lia. Qed.

Lemma stable_refused q : stable (λ s, q ∈ refused s).
Proof. intros s s' Hs Hq Hr. destruct (HR _ _ Hr Hs) as [_ Hg]. by apply (g_refused _ _ Hg). Qed.

(** *** Acknowledging *)

Lemma t_ack P seq : stable P → is_u64 seq → (∀ s, sinv s → P s → seq <= host s) → triple P (ack_backlog seq) (λ _, P).
Proof.
  intros HP Hu Hle. unfold ack_backlog, call_backlog. eapply (t_act P _ (λ _, P)); [done| |intros x; apply t_ret; auto].
  intros s s' x Hs Hp Hf. destruct (bl_Ack seq (backlog s)) as [b r] eqn:Ea.
  pose proof (ack_law _ _ _ _ (si_ok _ Hs) Hu Ea) as Hl. specialize (Hle s Hs Hp).
  assert (Hq : quiet_change s (set_backlog s b) → quiet_change s s' → G s s' ∧ P s').
  { intros _ Hq. split; [by apply HGq|]. by eapply stable_quiet. }
  assert (HQ : match r with Ret _ | Raise _ => quiet_change s (set_backlog s b) | _ => True end).
  { destruct r; try done; destruct Hl as (L1 & L2 & L3 & L4 & L5); pose proof (si_floor _ Hs);
      apply (backlog_evolves s b (Z.max (floor (backlog s)) seq)); auto; try lia;
      intros q Hh; destruct (L4 q Hh) as [|[|]]; auto. }
  destruct r; simplify_eq; auto.
Qed.

Lemma set_acked_quiet s seq : sinv s → 0 <= seq <= host s → quiet_change s (set_ackedThrough s seq).
Proof.
  intros Hs Hle. split; [|intros c cn Hc; by exists cn]. intros _. pose proof Hs as [I1 I2 I3 I4 I5 I6 I7 I8]. split.
  - constructor; simpl; auto. intros c cn Hc. destruct (I8 c cn Hc). by constructor.
  - constructor; simpl; auto; lia.
Qed.

Lemma t_raise_acked P n seq :
  stable P → 0 <= seq → (∀ s, sinv s → P s → seq <= host s) →
  triple P (raise_to n ackedThrough set_ackedThrough seq) (λ _, P).
Proof.
  intros HP Hz Hle. induction n as [|n IH]; cbn [raise_to]; [apply t_ret; auto|].
  eapply t_bind; [apply (t_quiet P); [done|apply quiet_read]|]. intros cur.
  destruct (seq <=? cur); [apply t_ret; auto|]. eapply (t_bind _ _ _ (λ _, P)).
  - eapply (t_act P _ (λ _, P)); [done| |intros x; apply t_ret; auto].
    intros s s' x Hs Hp Hf. destruct (ackedThrough s =? cur); simplify_eq; [|split; [by apply HGq|done]].
    assert (Hq : quiet_change s (set_ackedThrough s seq)) by (apply set_acked_quiet; [done|]; specialize (Hle s Hs Hp); lia).
    split; [by apply HGq|by eapply stable_quiet].
  - intros []; [apply t_ret; auto|exact IH].
Qed.

Lemma t_applyAck P seq :
  stable P → is_u64 seq → (∀ s, sinv s → P s → seq <= host s) → triple P (applyAck cfg seq) (λ _, P).
Proof.
  intros HP Hu Hle. unfold applyAck. destruct (seq =? 0); [apply t_ret; auto|].
  eapply t_bind; [apply (t_quiet P); [done|apply quiet_adopt]|]. intros [].
  eapply t_bind; [by apply t_ack|]. intros [].
  eapply t_bind; [apply t_raise_acked; [done|apply Hu|done]|]. intros ok.
  apply (t_quiet P); [done|apply quiet_prune].
Qed.

Lemma stable_acked_host P : stable P → stable (λ s, P s ∧ 0 <= ackedThrough s <= host s).
Proof.
  intros HP s s' Hs [Hp _] Hr. split; [exact (HP s s' Hs Hp Hr)|]. destruct (HR _ _ Hr Hs) as [Hs' _]. apply (si_acked _ Hs').
Qed.

(** A position that was loaded stays below the host's. *)
Lemma t_load_acked P :
  stable P → triple P (read ackedThrough) (λ a s, P s ∧ is_u64 a ∧ a <= host s).
Proof.
  intros HP. apply t_read; [done| |].
  - intros a. apply stable_and; [done|]. apply stable_and; [apply stable_const|apply stable_host].
  - intros s Hs Hp. pose proof (si_acked _ Hs). pose proof (si_host _ Hs) as [? ?]. split_and!; try done; [split|]; lia.
Qed.

Lemma t_reconcile P : stable P → triple P reconcile (λ _, P).
Proof.
  intros HP. unfold reconcile. eapply t_bind; [apply (t_quiet P); [done|apply quiet_ask]|]. intros first.
  eapply t_bind; [apply (t_quiet P); [done|destruct (0 <? first); [apply quiet_prune|apply quiet_ret]]|]. intros u.
  eapply t_bind; [by apply t_load_acked|]. intros through.
  assert (Hst : stable (λ s, P s ∧ is_u64 through ∧ through <= host s)).
  { apply stable_and; [done|]. apply stable_and; [apply stable_const|apply stable_host]. }
  destruct (through =? 0); [apply t_ret; [done|]; by intros s _ [H _]|].
  eapply t_bind; [apply (t_quiet _ _ Hst); apply quiet_ask|]. intros pend.
  destruct (_ || _); [apply t_ret; [done|]; by intros s _ [H _]|].
  eapply t_pure; [intros s _ (_ & H & _); exact H|]. intros Hu.
  eapply t_post; [apply t_ack; [exact Hst|done|]; by intros s _ (_ & _ & H)|]. by intros a s _ [H _].
Qed.

(** *** Oversized events *)

Lemma discard_quiet s f seq :
  bl_discard = Some f → sinv s → seq ∈ refused s → quiet_change s (set_backlog s (f seq (backlog s))).
Proof.
  intros Hd Hs Hr. destruct (discard_law f (backlog s) seq Hd (si_ok _ Hs)) as (L1 & L2 & L3 & L4 & L5).
  apply (backlog_evolves s _ (floor (backlog s))); auto; try lia; [apply (si_floor _ Hs)|].
  intros q Hq. destruct (L4 q Hq) as [| ->]; auto.
Qed.

Lemma t_release P seq :
  stable P → (∀ s, sinv s → P s → seq ∈ refused s) → triple P (releaseOversized seq) (λ _, P).
Proof.
  intros HP Hr. unfold releaseOversized. destruct bl_discard as [f|] eqn:Ed; [|apply t_ret; auto].
  eapply (t_bind _ _ _ (λ _, P)).
  - eapply (t_act P _ (λ _, P)); [done| |intros x; apply t_ret; auto].
    intros s s' x Hs Hp [= <- <-]. pose proof (discard_quiet s f seq Ed Hs (Hr s Hs Hp)) as Hq.
    split; [by apply HGq|]. exact (stable_quiet _ _ _ HP Hs Hp Hq).
  - intros u. apply (t_quiet P); [done|]. apply quiet_write. intros s. unfold harmless, same_core.
    split_and!; try done. simpl. set_solver.
Qed.

Lemma t_report P e :
  stable P → (∀ s, sinv s → P s → Sequence e ∈ refused s) → triple P (reportOversized e) (λ _, P).
Proof.
  intros HP Hr. unfold reportOversized. eapply (t_bind _ _ _ (λ _, P)).
  - eapply (t_act P _ (λ _, P)); [done| |intros x; apply t_ret; auto].
    intros s s' x Hs Hp [= <- <-].
    assert (Hq : quiet_change s (set_oversized s (oversized s ∪ {[Sequence e]}) (oversizedPrunedThrough s))).
    { apply write_evolves; try done. simpl. intros q. specialize (Hr s Hs Hp). set_solver. }
    split; [by apply HGq|]. exact (stable_quiet _ _ _ HP Hs Hp Hq).
  - intros already. apply (t_quiet P); [done|]. quiet.
Qed.
End logic.

(** ** The goroutine that sends

    Others change nothing of the EVENT frames. *)

Lemma quiet_evolves s s' : quiet_change s s' → evolves s s'.
Proof. by intros []. Qed.

#[local] Instance sender_roles : Roles quiet_change evolves.
Proof. split; auto using quiet_evolves. apply _. Qed.
#[local] Instance other_roles : Roles evolves quiet_change.
Proof. split; auto using quiet_evolves. apply _. Qed.

Abbreviation sends := (triple (R := quiet_change) (G := evolves)).
Abbreviation others := (triple (R := evolves) (G := quiet_change)).

(** At the top of the loop on connection [c]. *)
Record at_loop (c : nat) (inflight : list Z) (sentThrough : Z) (s : sender) : Prop := {
  al_conn : ∃ cn, conns s !! c = Some cn ∧ (∀ q, q ∈ sent_of cn → q <= sentThrough) ∧
    (∀ q, q ∈ sent_of cn → q ∈ inflight ∨ q <= host s) ∧
    ∀ q, q ∈ accepted s → q <= sentThrough → q ∈ sent_of cn ∨ excused s q;
  al_range : 0 <= sentThrough <= bl_LastSequence (backlog s)
}.

Lemma at_loop_stable c inflight q : stable (R := quiet_change) (at_loop c inflight q).
Proof.
  intros s s' Hs [(cn & H1 & H2 & H3 & H4) H5] [He Hsent]. destruct (He Hs) as [Hs' [G1 G2 G3 G4 G5]].
  destruct (Hsent c cn H1) as (cn' & H1' & E). constructor; [|lia]. exists cn'. rewrite E. split_and!; auto.
  - intros x Hx. destruct (H3 x Hx); [auto|right; lia].
  - intros x Hx Hle. destruct (G5 x Hx) as [Ha|Ha]; [|lia]. destruct (H4 x Ha Hle); auto.
Qed.

(** The events [l] read from the backlog cover what was accepted above [sentThrough]. *)
Definition batch (c : nat) (acked : Z) (l : list Event) (inflight : list Z) (sentThrough : Z) (s : sender) : Prop :=
  at_loop c inflight sentThrough s ∧ acked <= host s ∧ (∀ e, e ∈ l → Sequence e <= bl_LastSequence (backlog s)) ∧
  ∀ q, q ∈ accepted s → sentThrough < q → q ∈ Sequence <$> l ∨ (∀ e, e ∈ l → Sequence e < q) ∨ excused s q.

Lemma batch_stable c acked l inflight q : stable (R := quiet_change) (batch c acked l inflight q).
Proof.
  intros s s' Hs (H1 & H2 & H3 & H4) Hq. pose proof (at_loop_stable _ _ _ _ _ Hs H1 Hq) as H1'.
  destruct Hq as [He _]. destruct (He Hs) as [Hs' [G1 G2 G3 G4 G5]]. split_and!; [done|lia| |].
  - intros e Hin. specialize (H3 e Hin). lia.
  - intros x Hx Hlt. destruct (G5 x Hx) as [Ha|Ha].
    + destruct (H4 x Ha Hlt) as [|[|]]; auto.
    + right; left. intros e Hin. specialize (H3 e Hin). lia.
Qed.

Definition covers (l : list Event) (q : Z) (s : sender) : Prop :=
  ∀ x, x ∈ accepted s → q < x → x ∈ Sequence <$> l ∨ (∀ e, e ∈ l → Sequence e < x) ∨ excused s x.

(** Going past the first event of a batch: it is excused, or has been sent. *)
Lemma batch_next c acked e l inflight q s cn :
  StronglySorted Z.lt (Sequence <$> e :: l) → 0 <= q < Sequence e → acked <= host s →
  (∀ e', e' ∈ e :: l → Sequence e' <= bl_LastSequence (backlog s)) → covers (e :: l) q s →
  conns s !! c = Some cn → (∀ x, x ∈ accepted s → x <= q → x ∈ sent_of cn ∨ excused s x) →
  (∀ x, x ∈ sent_of cn → x <= Sequence e) → (∀ x, x ∈ sent_of cn → x ∈ inflight ∨ x <= host s) →
  (Sequence e ∈ sent_of cn ∨ excused s (Sequence e)) →
  batch c acked l inflight (Sequence e) s.
Proof.
  intros Hso Hlt H2 H3 H4 Hc A4 Hle Hin He.
  rewrite fmap_cons in Hso. apply StronglySorted_inv in Hso as [_ Hf]. rewrite Forall_forall in Hf.
  split_and!; [|done|intros x Hx; apply H3; set_solver|].
  - constructor; [|specialize (H3 e ltac:(set_solver)); lia]. exists cn. split_and!; auto.
    intros x Hx Hxe. destruct (decide (x <= q)) as [Hxq|Hxq]; [by apply A4|].
    destruct (H4 x Hx ltac:(lia)) as [Hl|[Hl|Hl]]; auto.
    + rewrite fmap_cons in Hl. apply elem_of_cons in Hl as [->|Hl]; [done|]. specialize (Hf x Hl). lia.
    + specialize (Hl e ltac:(set_solver)). lia.
  - intros x Hx Hlx. destruct (H4 x Hx ltac:(lia)) as [Hl|[Hl|Hl]]; auto.
    + rewrite fmap_cons in Hl. apply elem_of_cons in Hl as [->|Hl]; [lia|auto].
    + right; left. intros e' He'. apply Hl. set_solver.
Qed.

(** The first event is stepped over, being excused. *)
Lemma batch_skip c acked e l inflight q s :
  StronglySorted Z.lt (Sequence <$> e :: l) → batch c acked (e :: l) inflight q s → q < Sequence e →
  excused s (Sequence e) → batch c acked l inflight (Sequence e) s.
Proof.
  intros Hso ([(cn & A1 & A2 & A3 & A4) A5] & H2 & H3 & H4) Hlt He.
  apply (batch_next c acked e l inflight q s cn); auto; [lia|]. intros x Hx. specialize (A2 x Hx). lia.
Qed.

(** *** An EVENT frame *)

Lemma sorted_NoDup (l : list Z) : StronglySorted Z.lt l → NoDup l.
Proof.
  induction 1 as [|x l Hs IH Hf]; constructor; [|done]. intros Hx. rewrite Forall_forall in Hf. specialize (Hf x Hx). lia.
Qed.

Lemma sent_of_event cd nc log seq cn :
  sent_log cn = log → sent_of (mkConnection cd nc (log ++ [(MsgEvent, seq)])) = sent_of cn ++ [seq].
Proof. intros <-. unfold sent_of. simpl. by rewrite filter_app, fmap_app. Qed.

Lemma sent_conn_ok c acked e l inflight q s cn s' :
  sinv s → batch c acked (e :: l) inflight q s → q < Sequence e → StronglySorted Z.lt (Sequence <$> e :: l) →
  Z.of_nat (length inflight) < MaxUnacked cfg → conns s !! c = Some cn → same_core s s' →
  conn_ok s' (sent_of cn ++ [Sequence e]).
Proof.
  intros Hs ([(cn0 & A1 & A2 & A3 & A4) A5] & H2 & H3 & H4) Hlt Hso Hlen Hc Hcore. assert (cn0 = cn) as -> by congruence.
  destruct (si_conns _ Hs c cn Hc) as [C1 C2 C3 C4]. pose proof Hcore as (E1 & E2 & E3 & E4 & E5 & E6).
  rewrite fmap_cons in Hso. apply StronglySorted_inv in Hso as [_ Hf]. rewrite Forall_forall in Hf.
  assert (Hsorted : StronglySorted Z.lt (sent_of cn ++ [Sequence e])).
  { apply StronglySorted_app_2; [|done|by repeat constructor]. intros x y Hx ->%list_elem_of_singleton.
    specialize (A2 x Hx). lia. }
  constructor; [done| | |]; rewrite ?E1, ?E3, ?E4.
  - intros q' x Hq' Hx Hlx. apply elem_of_app in Hq' as [Hq'| ->%list_elem_of_singleton].
    + destruct (C2 q' x Hq' Hx Hlx) as [|H]; [left; set_solver|right; by eapply same_core_excused].
    + destruct (decide (x <= q)) as [Hxq|Hxq].
      * destruct (A4 x Hx Hxq) as [|H]; [left; set_solver|right; by eapply same_core_excused].
      * destruct (H4 x Hx ltac:(lia)) as [Hl|[Hl|Hl]]; [| |right; by eapply same_core_excused].
        -- rewrite fmap_cons in Hl. apply elem_of_cons in Hl as [->|Hl]; [lia|]. specialize (Hf x Hl). lia.
        -- specialize (Hl e ltac:(set_solver)). lia.
  - intros x [Hx| ->%list_elem_of_singleton]%elem_of_app; [by apply C3|apply H3; set_solver].
  - assert (Hsub : filter (λ x, host s < x) (sent_of cn ++ [Sequence e]) ⊆+ inflight ++ [Sequence e]).
    { apply NoDup_submseteq.
      - apply NoDup_filter. by apply sorted_NoDup.
      - intros x Hx. apply list_elem_of_filter in Hx as [Hh Hx]. rewrite elem_of_app in *.
        destruct Hx as [Hx|Hx]; [|by right]. destruct (A3 x Hx); [by left|lia]. }
    apply submseteq_length in Hsub. rewrite length_app in Hsub. simpl in Hsub. lia.
Qed.

(** What sending an event comes to. *)
Definition after_send (c : nat) (acked : Z) (e : Event) (l : list Event) (inflight : list Z) (q : Z)
    (err : option Frame.error) (s : sender) : Prop :=
  match err with
  | None => batch c acked l (inflight ++ [Sequence e]) (Sequence e) s
  | Some ErrPayloadTooLarge => batch c acked (e :: l) inflight q s ∧ Sequence e ∈ refused s
  | Some _ => at_loop c inflight q s
  end.

Lemma after_send_stable c acked e l inflight q err : stable (R := quiet_change) (after_send c acked e l inflight q err).
Proof.
  destruct err as [[]|]; try apply at_loop_stable; [|apply batch_stable].
  apply stable_and; [apply batch_stable|]. by apply (stable_refused (G := evolves)).
Qed.

Lemma send_event_evolves c acked e l inflight q s cn cd ws :
  sinv s → batch c acked (e :: l) inflight q s → q < Sequence e → StronglySorted Z.lt (Sequence <$> e :: l) →
  Z.of_nat (length inflight) < MaxUnacked cfg → conns s !! c = Some cn →
  let s' := set_sent s (<[c := mkConnection cd (nc_closed cn) (sent_log cn ++ [(MsgEvent, Sequence e)])]> (conns s)) ws (refused s) in
  evolves s s' ∧ batch c acked l (inflight ++ [Sequence e]) (Sequence e) s'.
Proof.
  intros Hs Hb Hlt Hso Hlen Hc s'. assert (Hcore : same_core s s') by done.
  assert (Hlook : (c < length (conns s))%nat) by (by eapply lookup_lt_Some).
  pose proof (same_core_grows _ _ Hcore) as Hg. set (cn' := mkConnection _ _ _) in s'.
  assert (Hsent : sent_of cn' = sent_of cn ++ [Sequence e]) by (by apply sent_of_event).
  split.
  - intros _. split; [|done]. pose proof Hs as [I1 I2 I3 I4 I5 I6 I7 I8]. constructor; auto.
    intros d dn Hd. simpl in Hd. destruct (decide (d = c)) as [->|Hne].
    + rewrite list_lookup_insert_eq in Hd by done. simplify_eq. rewrite Hsent. by eapply sent_conn_ok.
    + rewrite list_lookup_insert_ne in Hd by done. eapply conn_ok_grows; [done|done|]. by eapply I8.
  - destruct Hb as ([(cn0 & A1 & A2 & A3 & A4) A5] & H2 & H3 & H4). assert (cn0 = cn) as -> by congruence.
    apply (batch_next c acked e l _ q s' cn'); auto; try lia.
    + simpl. by rewrite list_lookup_insert_eq.
    + intros x Hx Hxq. rewrite Hsent. destruct (A4 x Hx Hxq) as [|H]; [left; set_solver|by right].
    + rewrite Hsent. intros x [Hx| ->%list_elem_of_singleton]%elem_of_app; [specialize (A2 x Hx)|]; lia.
    + rewrite Hsent. intros x [Hx| ->%list_elem_of_singleton]%elem_of_app; [|left; set_solver].
      destruct (A3 x Hx); [left; set_solver|by right].
    + rewrite Hsent. left. set_solver.
Qed.

(** A frame that did not go out. *)
Lemma send_error_quiet s c cn cd ws (r : gset Z) :
  conns s !! c = Some cn → (∀ q, q ∈ refused s → q ∈ r) →
  quiet_change s (set_sent s (<[c := mkConnection cd (nc_closed cn) (sent_log cn)]> (conns s)) ws r).
Proof.
  intros Hc Hr. set (s' := set_sent _ _ _ _). assert (Hlt : (c < length (conns s))%nat) by (by eapply lookup_lt_Some).
  assert (Hback : ∀ d dn, conns s' !! d = Some dn → ∃ dn0, conns s !! d = Some dn0 ∧ sent_of dn = sent_of dn0).
  { intros d dn Hd. simpl in Hd. destruct (decide (d = c)) as [->|Hne].
    - rewrite list_lookup_insert_eq in Hd by done. simplify_eq. by exists cn.
    - rewrite list_lookup_insert_ne in Hd by done. by exists dn. }
  assert (Hex : ∀ q, excused s q → excused s' q).
  { intros q [H|[H|[H|H]]]; unfold excused; simpl; auto. }
  assert (Hg : grows s s') by (constructor; simpl; auto; lia).
  split.
  - intros Hs. split; [|done]. pose proof Hs as [I1 I2 I3 I4 I5 I6 I7 I8]. constructor; auto.
    + intros q Hq. destruct (I5 q Hq); auto.
    + intros d dn Hd. destruct (Hback d dn Hd) as (dn0 & Hd0 & ->). eapply conn_ok_grows; [done|done|]. by eapply I8.
  - intros d dn Hd. simpl. destruct (decide (d = c)) as [->|Hne].
    + rewrite list_lookup_insert_eq by done. eexists. split; [done|]. unfold sent_of. simpl. congruence.
    + rewrite list_lookup_insert_ne by done. by exists dn.
Qed.

Lemma t_send_event c acked e l inflight q payload :
  q < Sequence e → StronglySorted Z.lt (Sequence <$> e :: l) → Z.of_nat (length inflight) < MaxUnacked cfg →
  sends (batch c acked (e :: l) inflight q) (Send c MsgEvent (Sequence e) payload) (after_send c acked e l inflight q).
Proof.
  intros Hlt Hso Hlen. unfold Send, both.
  eapply t_act; [apply batch_stable| |intros err; apply t_ret; [apply after_send_stable|done]].
  intros s s' err Hs Hb Hf. destruct (conns s !! c) as [cn|] eqn:Ec.
  2: { destruct Hb as ([(cn & A1 & _) _] & _). congruence. }
  destruct (default (true, None) (head (writes s))) as [ok fl].
  destruct (Frame.Send (codec cn) MsgEvent (Sequence e) payload (ok && negb (nc_closed cn)) fl) as [cd er].
  injection Hf as <- <-. destruct er as [er|].
  - match goal with |- context [set_sent s _ _ ?x] => set (r := x) end.
    assert (Hq : quiet_change s (set_sent s (<[c := mkConnection cd (nc_closed cn) (sent_log cn)]> (conns s)) (tail (writes s)) r)).
    { apply send_error_quiet; [done|]. intros x Hx. unfold r. case_bool_decide; set_solver. }
    split; [by apply quiet_evolves|]. set (s' := set_sent _ _ _ _) in *.
    assert (Hb' : batch c acked (e :: l) inflight q s') by (exact (batch_stable _ _ _ _ _ _ _ Hs Hb Hq)).
    unfold after_send. destruct er; try apply Hb'. split; [done|]. unfold s', r. simpl. set_solver.
  - rewrite bool_decide_false by done. by apply (send_event_evolves c acked e l inflight q s cn).
Qed.

(** *** The dispatch loop *)

Lemma take_in {A} (x : A) n l : x ∈ take n l → x ∈ l.
Proof. intros H. eapply elem_of_sublist; [exact H|apply sublist_take]. Qed.

Lemma next_sorted q n l : StronglySorted Z.lt l → StronglySorted Z.lt (take n (filter (λ x, q < x) l)).
Proof.
  intros Hs. apply (StronglySorted_app_1_l _ _ (drop n (filter (λ x, q < x) l))). rewrite take_drop.
  induction Hs as [|x l Hs IH Hf]; [constructor|]. rewrite filter_cons. case_decide; [|done]. constructor; [done|].
  rewrite Forall_forall in *. intros y Hy. apply list_elem_of_filter in Hy as [_ Hy]. by apply Hf.
Qed.

(** The first [n] of a sorted list hold a member or end below it. *)
Lemma next_prefix q l n x :
  StronglySorted Z.lt l → x ∈ l → q < x →
  x ∈ take n (filter (λ x, q < x) l) ∨ ∀ y, y ∈ take n (filter (λ x, q < x) l) → y < x.
Proof.
  intros Hs Hx Hq. assert (Hin : x ∈ filter (λ x, q < x) l) by (by apply list_elem_of_filter).
  pose proof (next_sorted q (length (filter (λ x, q < x) l)) l Hs) as Hso. rewrite take_ge in Hso by done.
  rewrite <- (take_drop n (filter (λ x, q < x) l)) in Hin, Hso. apply elem_of_app in Hin as [|Hd]; [by left|right].
  intros y Hy. by eapply StronglySorted_app_1_elem_of.
Qed.

Lemma excused_host s q k : q <= k → k <= host s → excused s q.
Proof. intros. left. lia. Qed.

Definition loop_end (c : nat) (r : dispatched) (s : sender) : Prop :=
  at_loop c r.1.1 r.1.2 s ∧ Z.of_nat (length r.1.1) <= Z.max 0 (MaxUnacked cfg).

Lemma loop_end_stable c r : stable (R := quiet_change) (loop_end c r).
Proof. apply stable_and; [apply at_loop_stable|apply stable_const]. Qed.

Lemma t_dispatch_loop c acked l : ∀ inflight q n,
  StronglySorted Z.lt (Sequence <$> l) → Z.of_nat (length inflight) < MaxUnacked cfg →
  sends (batch c acked l inflight q) (dispatch_loop cfg c acked l inflight q n) (loop_end c).
Proof.
  induction l as [|e l IH]; intros inflight q n Hso Hlen; cbn [dispatch_loop].
  { apply t_ret; [apply batch_stable|]. intros s Hs [H _]. split; [done|simpl; lia]. }
  pose proof Hso as Hso'. rewrite fmap_cons in Hso'. apply StronglySorted_inv in Hso' as [Htail _].
  destruct (Z.leb_spec (Sequence e) q) as [Hle|Hgt].
  { eapply t_pre; [|by apply IH]. intros s Hs (H1 & H2 & H3 & H4). split_and!; [done|done|intros; apply H3; set_solver|].
    intros x Hx Hqx. destruct (H4 x Hx Hqx) as [Hl|[Hl|]]; auto.
    - rewrite fmap_cons in Hl. apply elem_of_cons in Hl as [->|]; [lia|auto].
    - right; left. intros; apply Hl. set_solver. }
  destruct (Z.leb_spec (Sequence e) acked) as [Hle|Hna].
  { eapply t_pre; [|by apply IH]. intros s Hs Hb. eapply batch_skip; [done|exact Hb|done|].
    eapply excused_host; [exact Hle|apply Hb]. }
  eapply t_bind with (Q := λ over s, batch c acked (e :: l) inflight q s ∧ (over = true → Sequence e ∈ refused s)).
  { apply t_read; [apply batch_stable| |].
    - intros over. destruct over; [|intros s s' Hs [Hb _] Hq; split; [exact (batch_stable _ _ _ _ _ _ _ Hs Hb Hq)|done]].
      intros s s' Hs [Hb Hr] Hq. split; [exact (batch_stable _ _ _ _ _ _ _ Hs Hb Hq)|]. intros _.
      exact (stable_refused (R := quiet_change) (G := evolves) _ s s' Hs (Hr eq_refl) Hq).
    - intros s Hs Hb. split; [done|]. intros Ho%bool_decide_eq_true. by apply (si_over _ Hs). }
  assert (Hskip : ∀ m, sends (λ s, batch c acked (e :: l) inflight q s ∧ Sequence e ∈ refused s)
    (releaseOversized (Sequence e);; dispatch_loop cfg c acked l inflight (Sequence e) m) (loop_end c)).
  { intros m. assert (Hst : stable (R := quiet_change) (λ s, batch c acked (e :: l) inflight q s ∧ Sequence e ∈ refused s)).
    { apply stable_and; [apply batch_stable|by apply (stable_refused (G := evolves))]. }
    eapply t_bind; [apply t_release; [exact Hst|by intros s _ [_ H]]|]. intros u.
    eapply t_pre; [|by apply IH]. intros s Hs [Hb Hr]. eapply batch_skip; [done|exact Hb|done|]. by right; right; right. }
  intros []; [eapply t_pre; [|apply Hskip]; intros s Hs [Hb Hr]; split; [done|by apply Hr]|].
  eapply t_pre; [intros s Hs [Hb _]; exact Hb|].
  eapply t_bind; [by apply t_send_event|]. intros err. destruct err as [er|].
  - assert (Hother : sends (at_loop c inflight q) (mret (inflight, q, Err (SProtocol er))) (loop_end c)).
    { apply t_ret; [apply at_loop_stable|]. intros s Hs H. split; [done|simpl; lia]. }
    destruct er; try exact Hother.
    eapply t_bind; [apply t_report; [apply (after_send_stable c acked e l inflight q (Some ErrPayloadTooLarge))|by intros s _ [_ H]]|].
    intros u. apply Hskip.
  - eapply t_bind; [apply t_quiet; [apply (after_send_stable c acked e l inflight q None)|apply quiet_note_sent]|]. intros u.
    simpl after_send. destruct (Z.leb_spec (MaxUnacked cfg) (Z.of_nat (length (inflight ++ [Sequence e])))) as [Hfull|Hroom].
    + apply t_ret; [apply batch_stable|]. intros s Hs [H _]. split; [done|]. cbn [fst snd]. rewrite length_app in *. simpl in *. lia.
    + by apply IH.
Qed.

Lemma t_dispatch c inflight q :
  Z.of_nat (length inflight) <= Z.max 0 (MaxUnacked cfg) →
  sends (at_loop c inflight q) (dispatch cfg c inflight q) (loop_end c).
Proof.
  intros Hlen. pose proof (at_loop_stable c inflight q) as Hst.
  assert (Hret : ∀ r, sends (at_loop c inflight q) (mret (inflight, q, r)) (loop_end c)).
  { intros r. apply t_ret; [done|]. intros s Hs H. split; [done|simpl; lia]. }
  unfold dispatch. destruct (Z.leb_spec (MaxUnacked cfg - Z.of_nat (length inflight)) 0) as [|Hroom]; [apply Hret|].
  set (room := if _ <? _ then _ else _).
  eapply t_bind; [apply t_quiet; [exact Hst|apply quiet_unsent]|]. intros more. destruct (negb more); [apply Hret|].
  eapply t_bind with (Q := λ r s, match r with
    | Ok l => batch c 0 l inflight q s ∧ StronglySorted Z.lt (Sequence <$> l)
    | Err _ => at_loop c inflight q s end).
  { unfold call_backlog. eapply t_act with (Q := λ (r : result () (list Event)) s, match r with
      | Ok l => batch c 0 l inflight q s ∧ StronglySorted Z.lt (Sequence <$> l)
      | Err _ => at_loop c inflight q s end); [done| |].
    2: { intros r. apply t_ret; [|done]. destruct r; [apply stable_and; [apply batch_stable|apply stable_const]|done]. }
    intros s s' r Hs Hl Hf. destruct (bl_NextAfter q room (backlog s)) as [b o] eqn:En.
    pose proof (next_law _ _ _ _ _ (si_ok _ Hs) En) as Hlaw.
    assert (Hq : match o with Ret _ | Raise _ => quiet_change s (set_backlog s b) | _ => True end).
    { destruct o; try done; destruct Hlaw as (L1 & L2 & L3 & L4 & L5 & _); pose proof (si_floor _ Hs);
        apply (backlog_evolves s b (floor (backlog s))); auto; try lia; rewrite L2; auto. }
    destruct o as [l|er| |]; simplify_eq; (split; [by apply quiet_evolves|]); pose proof (Hst s _ Hs Hl Hq) as Hl'; [|done].
    destruct Hlaw as (L1 & L2 & L3 & L4 & L5 & Hseq). split; [|rewrite Hseq; apply next_sorted, (held_sorted _ (si_ok _ Hs))].
    split_and!; [done|apply (si_host _ Hs)| |].
    - intros e He. apply (list_elem_of_fmap_2 Sequence) in He. rewrite Hseq in He.
      apply take_in, list_elem_of_filter in He as [_ He]. apply (held_range b); [exact L1|by rewrite L2].
    - intros x Hx Hqx. simpl in Hx. destruct (si_accepted _ Hs x Hx) as [Hh|Hex].
      + rewrite Hseq. destruct (next_prefix q (held (backlog s)) (Z.to_nat room) x) as [H|H]; auto.
        { apply (held_sorted _ (si_ok _ Hs)). }
        right; left. intros e He. apply H. rewrite <- Hseq. by apply list_elem_of_fmap_2.
      + right; right. destruct Hq as [He _]. destruct (He Hs) as [_ Hg]. by apply (g_excused _ _ Hg). }
  intros [l|u]; [|apply Hret]. eapply t_pure; [intros s _ [_ H]; exact H|]. intros Hso.
  eapply t_bind; [eapply t_pre; [|apply (t_load_acked (batch c 0 l inflight q)), batch_stable]; by intros s _ [H _]|].
  intros acked. eapply t_pre; [|apply t_dispatch_loop; [done|lia]].
  intros s Hs ((H1 & H2 & H3 & H4) & _ & Ha). by split_and!.
Qed.

(** *** Rounds *)

Lemma covered_prefix_le through l q : q ∈ take (covered_prefix through l) l → q <= through.
Proof. induction l as [|x l IH]; cbn [covered_prefix]; [set_solver|]. destruct (Z.leb_spec x through); simpl; set_solver. Qed.

Lemma trim_at_loop c inflight q through s :
  at_loop c inflight q s → through <= host s → at_loop c (trimInflight inflight through).1 q s.
Proof.
  intros [(cn & H1 & H2 & H3 & H4) H5] Hh. unfold trimInflight. destruct (_ || _); [constructor; [|done]; by exists cn|].
  constructor; [|done]. exists cn. split_and!; auto. simpl. intros x Hx. destruct (H3 x Hx) as [Hin|]; [|auto].
  rewrite <- (take_drop (covered_prefix through inflight) inflight), elem_of_app in Hin.
  destruct Hin as [Hin%covered_prefix_le|]; [right; lia|auto].
Qed.

Lemma trim_length inflight through :
  (length (trimInflight inflight through).1 <= length inflight)%nat.
Proof. unfold trimInflight. destruct (_ || _); [done|]. simpl. rewrite length_drop. lia. Qed.

(** The state between rounds. *)
Definition in_phase (c : nat) (ph : phase) (s : sender) : Prop :=
  match ph with
  | Looping inflight q _ | Flushing _ inflight q =>
      at_loop c inflight q s ∧ Z.of_nat (length inflight) <= Z.max 0 (MaxUnacked cfg)
  | Ended _ => True
  end.

Lemma in_phase_stable c ph : stable (R := quiet_change) (in_phase c ph).
Proof. destruct ph; try (apply stable_and; [apply at_loop_stable|apply stable_const]). apply stable_const. Qed.

(** The loop with its bound on what is in flight. *)
Definition looping (c : nat) (inflight : list Z) (q : Z) (s : sender) : Prop :=
  at_loop c inflight q s ∧ Z.of_nat (length inflight) <= Z.max 0 (MaxUnacked cfg).

Lemma looping_stable c inflight q : stable (R := quiet_change) (looping c inflight q).
Proof. apply stable_and; [apply at_loop_stable|apply stable_const]. Qed.

Lemma t_end c inflight q e : sends (looping c inflight q) (mret (Ended e)) (in_phase c).
Proof. by apply t_ret; [apply looping_stable|]. Qed.

Lemma t_flush c inflight q : sends (looping c inflight q) (flush cfg inflight q) (in_phase c).
Proof.
  eapply t_bind; [apply t_quiet; [apply looping_stable|apply quiet_Now]|]. intros now.
  by apply t_ret; [apply looping_stable|].
Qed.

Lemma t_wait c pick inflight q t : sends (looping c inflight q) (wait_round cfg pick inflight q t) (in_phase c).
Proof.
  eapply t_bind; [apply t_quiet; [apply looping_stable|quiet]|]. intros r.
  destruct (r =? 1); [apply t_flush|]. destruct (r =? 2); [apply t_end|]. by apply t_ret; [apply looping_stable|].
Qed.

Lemma t_goodbye c P : stable (R := quiet_change) P → sends P (say_goodbye c) (in_phase c).
Proof.
  intros HP. unfold say_goodbye. eapply t_bind; [apply t_quiet; [exact HP|apply quiet_read]|]. intros h.
  eapply t_bind; [apply t_quiet; [exact HP|by apply quiet_Send]|]. intros e. by apply t_ret.
Qed.

(** The start of a round: the acknowledged part of what is in flight goes. *)
Lemma t_trimmed c inflight q through inflight' n {A} (p : prog sender A) Q :
  trimInflight inflight through = (inflight', n) → sends (looping c inflight' q) p Q →
  sends (λ s, looping c inflight q s ∧ is_u64 through ∧ through <= host s) p Q.
Proof.
  intros Et Hk. eapply t_pre; [|apply Hk]. intros s Hs ([Hl Hlen] & _ & Hh).
  pose proof (trim_at_loop c inflight q through s Hl Hh) as Hl'. pose proof (trim_length inflight through) as Hlen'.
  rewrite Et in Hl', Hlen'. simpl in *. split; [done|lia].
Qed.

Lemma t_dispatch_looping c inflight q :
  sends (looping c inflight q) (dispatch cfg c inflight q) (λ x, looping c x.1.1 x.1.2).
Proof.
  eapply t_pure; [intros s _ [_ H]; exact H|]. intros Hlen. eapply t_pre; [|by apply t_dispatch]. by intros s _ [H _].
Qed.

Lemma t_send_round c pick pick' inflight q t :
  sends (in_phase c (Looping inflight q t)) (send_round cfg pick pick' c inflight q t) (in_phase c).
Proof.
  change (in_phase c (Looping inflight q t)) with (looping c inflight q).
  unfold send_round. eapply t_bind; [apply t_quiet; [apply looping_stable|apply quiet_read]|]. intros [ctx sctx].
  destruct (_ && _); [apply t_flush|]. destruct sctx; [apply t_end|].
  eapply t_bind; [apply t_reconcile, looping_stable|]. intros u.
  eapply t_bind; [apply t_load_acked, looping_stable|]. intros through.
  destruct (trimInflight inflight through) as [inflight' n] eqn:Et. apply (t_trimmed _ _ _ _ _ _ _ _ Et).
  eapply t_bind; [apply t_quiet; [apply looping_stable|quiet]|]. intros progress.
  eapply t_bind; [apply t_quiet; [apply looping_stable|quiet]|]. intros late.
  destruct late; [apply t_end|]. eapply t_bind; [apply t_dispatch_looping|]. intros [[inflight2 q2] r]. cbn [fst snd].
  destruct r as [sent|e]; [|apply t_end].
  destruct (_ || _); [|apply t_wait]. by apply t_ret; [apply looping_stable|].
Qed.

Lemma t_flush_round c pick d inflight q :
  sends (in_phase c (Flushing d inflight q)) (flush_round cfg pick c d inflight q) (in_phase c).
Proof.
  change (in_phase c (Flushing d inflight q)) with (looping c inflight q).
  unfold flush_round. eapply t_bind; [apply t_quiet; [apply looping_stable|apply quiet_Now]|]. intros now.
  eapply t_bind; [apply t_quiet; [apply looping_stable|apply quiet_read]|]. intros sctx.
  destruct (_ || _); [apply t_goodbye, looping_stable|].
  eapply t_bind; [apply t_reconcile, looping_stable|]. intros u.
  eapply t_bind; [apply t_load_acked, looping_stable|]. intros through.
  destruct (trimInflight inflight through) as [inflight' n] eqn:Et. apply (t_trimmed _ _ _ _ _ _ _ _ Et).
  eapply t_bind; [apply t_dispatch_looping|]. intros [[inflight2 q2] r]. cbn [fst snd].
  destruct r as [sent|e]; [|apply t_end]. destruct (_ || _); [by apply t_ret; [apply looping_stable|]|].
  eapply t_bind; [apply t_quiet; [apply looping_stable|destruct (bool_decide _); [apply quiet_unsent|apply quiet_ret]]|].
  intros more. destruct more; [|apply t_goodbye, looping_stable].
  eapply t_bind; [apply t_quiet; [apply looping_stable|quiet]|]. intros u'. by apply t_ret; [apply looping_stable|].
Qed.

(** *** A new session *)

(** A connection on which no event has been sent. *)
Definition fresh_conn (c : nat) (s : sender) : Prop := ∃ cn, conns s !! c = Some cn ∧ sent_of cn = [].

Lemma fresh_conn_stable c : stable (R := quiet_change) (fresh_conn c).
Proof.
  intros s s' Hs (cn & Hc & E) [_ Hq]. destruct (Hq c cn Hc) as (cn' & Hc' & E'). exists cn'. split; [done|congruence].
Qed.

Lemma t_new_conn l : sends (λ _, True) (new_conn l) fresh_conn.
Proof.
  unfold new_conn, both. eapply t_act with (Q := fresh_conn); [apply stable_const| |intros c; apply t_ret; [apply fresh_conn_stable|done]].
  intros s s' c Hs _ [= <- <-]. split; [|eexists; split; [apply list_lookup_middle; done|done]].
  apply quiet_evolves. exact (proj1 (quiet_new_conn l s Hs)).
Qed.

Lemma t_connect dial r :
  reply_ok r → sends (λ _, True) (connect cfg dial r)
    (λ x s, match x with Ok (c, ready) => fresh_conn c s ∧ is_u64 (ResumeFrom ready) | Err _ => True end).
Proof.
  intros Hr. unfold connect. destruct (negb dial); [by apply t_ret; [apply stable_const|]|].
  eapply t_bind; [apply t_new_conn|]. intros c. pose proof (fresh_conn_stable c) as Hst.
  set (Q := λ (x : result serr (nat * Ready)) s, match x with Ok (c, ready) => _ | Err _ => True end).
  assert (Hfail : ∀ p e, quiet_prog p → sends (fresh_conn c) (p ≫= λ _ : (), mret (Err e)) Q).
  { intros p e Hp. eapply t_bind; [by apply t_quiet|]. intros u. by apply t_ret. }
  eapply t_bind; [apply t_quiet; [done|apply quiet_adoptConn]|]. intros ok.
  destruct (negb ok); [apply Hfail, quiet_close_conn|].
  eapply t_bind; [apply t_quiet; [done|apply quiet_ask]|]. intros first.
  eapply t_bind; [apply t_quiet; [done|by apply quiet_Send]|]. intros err.
  destruct err as [e|]; [apply Hfail, quiet_dropConn|]. destruct r as [e|ready|em|t]; try apply Hfail, quiet_dropConn.
  destruct (negb _); [apply Hfail, quiet_dropConn|].
  assert (Hok : sends (fresh_conn c) (mret (Ok (c, ready))) Q) by (by apply t_ret).
  destruct (_ && _); [|done]. eapply t_bind; [apply t_quiet; [done|apply quiet_rebuild]|]. intros u.
  eapply t_bind; [apply t_quiet; [done|apply quiet_adoptConn]|]. intros ok'.
  destruct (negb ok'); [apply Hfail, quiet_close_conn|done].
Qed.

Lemma host_quiet s seq : is_u64 seq → quiet_change s (set_host s (Z.max (host s) seq)).
Proof.
  intros Hu. split; [|intros c cn Hc; by exists cn]. intros Hs. set (s' := set_host _ _).
  assert (Hex : ∀ q, excused s q → excused s' q).
  { intros q [H|[H|[H|H]]]; unfold excused; simpl; auto. left. lia. }
  assert (Hg : grows s s') by (constructor; simpl; auto; lia). split; [|done].
  pose proof Hs as [I1 I2 I3 I4 I5 I6 I7 I8]. constructor; simpl; auto; [lia| |lia| |].
  - unfold is_u64 in *. lia.
  - intros q Hq. destruct (I5 q Hq); auto.
  - intros c cn Hc. eapply conn_ok_grows; [done|done|]. by eapply I8.
Qed.

Section ack.
Context {R G : sender → sender → Prop} `{HRG : !Roles R G}.

(** A position that the host states, and what the agent makes of it. *)
Lemma t_note_host P seq :
  stable (R := R) P → is_u64 seq → triple (R := R) (G := G) P (note_host seq) (λ _ s, P s ∧ seq <= host s).
Proof.
  intros HP Hu. unfold note_host, write.
  assert (Hst : stable (R := R) (λ s, P s ∧ seq <= host s)) by (apply stable_and; [done|by apply (stable_host (G := G))]).
  eapply t_act with (Q := λ _ s, P s ∧ seq <= host s); [done| |intros u; apply t_ret; auto].
  intros s s' x Hs Hp [= <- <-]. pose proof (host_quiet s seq Hu) as Hq. split; [by apply HGq|].
  split; [exact (stable_quiet (G := G) _ _ _ HP Hs Hp Hq)|simpl; lia].
Qed.

Lemma t_host_says P seq :
  stable (R := R) P → is_u64 seq → triple (R := R) (G := G) P (note_host seq;; applyAck cfg seq) (λ _, P).
Proof.
  intros HP Hu. eapply t_bind; [by apply t_note_host|]. intros u.
  eapply t_post; [apply (t_applyAck (λ s, P s ∧ seq <= host s)); [|done|by intros s _ [_ H]]|by intros a s _ [H _]].
  apply stable_and; [done|by apply (stable_host (G := G))].
Qed.
End ack.

Lemma t_start_session c ready :
  is_u64 (ResumeFrom ready) → sends (fresh_conn c) (start_session cfg ready) (in_phase c).
Proof.
  intros Hu. pose proof (fresh_conn_stable c) as Hst. unfold start_session.
  eapply t_bind; [by apply t_note_host|]. intros u.
  assert (Hst2 : stable (R := quiet_change) (λ s, fresh_conn c s ∧ ResumeFrom ready <= host s)).
  { apply stable_and; [done|by apply (stable_host (G := evolves))]. }
  eapply t_bind with (Q := λ _, fresh_conn c).
  { destruct (0 <? _); [|apply t_ret; [done|by intros s _ [H _]]].
    eapply t_post; [apply (t_applyAck _ _ Hst2 Hu); by intros s _ [_ H]|by intros a s _ [H _]]. }
  intros u2. eapply t_bind; [apply t_quiet; [done|apply quiet_Now]|]. intros now.
  eapply t_bind; [apply t_quiet; [done|quiet]|]. intros u3.
  eapply t_bind; [apply t_quiet; [done|quiet]|]. intros u4.
  eapply t_bind; [apply t_quiet; [done|apply quiet_Now]|]. intros now2.
  apply t_ret; [done|]. intros s Hs (cn & Hc & E). split; [|simpl; lia]. constructor.
  - exists cn. rewrite E. split_and!; [done|set_solver|set_solver|]. intros q Hq Hle. right. left.
    pose proof (si_host _ Hs) as [? _]. lia.
  - pose proof (last_range _ (si_ok _ Hs)). lia.
Qed.

(** ** The other goroutines *)

Lemma t_recv c f : inbound_ok f → others (λ _, True) (recv_round cfg c f) (λ _ _, True).
Proof.
  intros Hf. assert (Hst : stable (R := evolves) (λ _, True)) by apply stable_const.
  assert (Hq : ∀ p : prog sender (option serr), quiet_prog p → others (λ _, True) p (λ _ _, True)) by (intros p; by apply t_quiet).
  destruct f as [e|e|a|p|em|sd|t]; cbn [recv_round]; try (apply Hq; done).
  - assert (Hb : others (λ _, True) (note_host (a_Sequence a);; applyAck cfg (a_Sequence a)) (λ _ _, True)) by (by apply t_host_says).
    intros s Hs _. pose proof (t_bind _ _ (λ _ : (), signal;; mret (None : option serr)) _ (λ _ _, True) Hb) as Ht.
    apply Ht; [|done|done]. intros u. apply (Hq (signal;; mret None)). apply quiet_bind; [apply quiet_signal|done].
  - apply Hq. apply quiet_bind; [apply quiet_Now|]. intros now. apply quiet_bind; [|done]. quiet.
  - apply Hq. unfold sendError. apply quiet_bind; [|done]. apply quiet_bind; [by apply quiet_Send|done].
Qed.

Lemma append_quiet e s s' ok :
  sinv s → appendable (backlog s) e → advance (append_backlog e) s = Some (s', ok) → quiet_change s s'.
Proof.
  intros Hs He Hf. simpl in Hf. destruct (bl_Append (Some e) (backlog s)) as [b r] eqn:Ea.
  pose proof (append_law _ _ _ _ (si_ok _ Hs) He Ea) as Hl. pose proof (si_floor _ Hs) as Hfl.
  assert (Hq : match r with Ret _ | Raise _ => quiet_change s (set_backlog s b) | _ => True end).
  { destruct r; try done; destruct Hl as (L1 & L2 & L3 & L4 & L5 & L6);
      apply (backlog_evolves s b (floor (backlog s))); auto; intros q Hq; destruct (L4 q Hq) as [|[|]]; auto. }
  destruct r as [[]|er| |]; simplify_eq; [|done]. destruct Hl as (L1 & L2 & L3 & L4 & L5 & L6).
  destruct (L6 eq_refl) as [L7 L8]. set (s' := set_accepted _ _ _). split; [|intros c cn Hc; by exists cn]. intros _.
  destruct Hq as [Hq _]. destruct (Hq Hs) as [Hs1 [G1 G2 G3 G4 G5]].
  assert (Hg : grows s s').
  { constructor; auto. intros q [Hq'| ->%list_elem_of_singleton]%elem_of_app; [by left|right; lia]. }
  split; [|done]. pose proof Hs as [I1 I2 I3 I4 I5 I6 I7 I8]. destruct Hs1 as [J1 J2 J3 J4 J5 J6 J7 J8].
  constructor; simpl; auto.
  - intros q [Hq'| ->%list_elem_of_singleton]%elem_of_app; [by apply J5|]. destruct L8; [by left|right; right; by left].
  - intros q [Hq'| ->%list_elem_of_singleton]%elem_of_app; [by apply J6|lia].
  - intros c cn Hc. eapply conn_ok_grows; [exact Hs|exact Hg|]. by eapply I8.
Qed.

(** ** The process *)

Abbreviation system := (Sender.system (B := B)).

(** What the goroutine of [run] knows where it stands. *)
Definition main_knows (n : next_step) (s : sender) : Prop :=
  match n with
  | Begin c ready => fresh_conn c s ∧ is_u64 (ResumeFrom ready)
  | Spawn c ph | Round c ph => in_phase c ph s
  | Dial _ | Finish _ _ | Stopped => True
  end.

Definition safe_main (p : prog sender next_step) (s : sender) : Prop :=
  ensures quiet_change evolves (λ n s, sinv s ∧ main_knows n s) p s.
Definition safe {A} (p : prog sender A) (s : sender) : Prop :=
  ensures evolves quiet_change (λ _ s, sinv s ∧ True) p s.

Record sys_inv (y : system) : Prop := {
  y_inv : sinv (shared y);
  y_main : safe_main (main y) (shared y);
  y_recv : ∀ c p, recv y = Some (c, p) → safe p (shared y);
  y_beat : ∀ c p, beat y = Some (c, p) → safe p (shared y);
  y_pump : safe (pump y) (shared y);
  y_closer : safe (closer y) (shared y)
}.

Lemma quiet_safe {A} (p : prog sender A) s : sinv s → quiet_prog p → safe p s.
Proof. intros Hs Hp. by apply (t_quiet (λ _, True) p); [apply stable_const|..]. Qed.

Lemma safe_then {A C} (p : prog sender A) (k : A → prog sender C) s :
  safe p s → (∀ a, quiet_prog (k a)) → safe (p ≫= k) s.
Proof.
  intros Hp Hk. apply (ensures_bind evolves quiet_change). eapply (ensures_weaken evolves quiet_change); [exact Hp|].
  intros a s' [Hs' _]. by apply quiet_safe.
Qed.

(** A quiet change by anyone but the goroutine of [run]. *)
Lemma quiet_sys y s' :
  sys_inv y → quiet_change (shared y) s' →
  sinv s' ∧ safe_main (main y) s' ∧ (∀ c p, recv y = Some (c, p) → safe p s') ∧ (∀ c p, beat y = Some (c, p) → safe p s') ∧
  safe (pump y) s' ∧ safe (closer y) s'.
Proof.
  intros [H1 H2 H3 H4 H5 H6] Hq. pose proof Hq as [He _]. destruct (He H1) as [Hs' _].
  split_and!; [done|by eapply (ensures_rely quiet_change evolves)| | | |].
  - intros c p Hp. eapply (ensures_rely evolves quiet_change); [by eapply H3|done].
  - intros c p Hp. eapply (ensures_rely evolves quiet_change); [by eapply H4|done].
  - by eapply (ensures_rely evolves quiet_change).
  - by eapply (ensures_rely evolves quiet_change).
Qed.

Lemma main_sys y s' p' :
  sys_inv y → evolves (shared y) s' → safe_main p' s' →
  sys_inv (mkSystem s' p' (recv y) (beat y) (pump y) (closer y)).
Proof.
  intros [H1 H2 H3 H4 H5 H6] He Hm. destruct (He H1) as [Hs' _]. constructor; simpl; [done|done| | | |].
  - intros c p Hp. eapply (ensures_rely evolves quiet_change); [by eapply H3|done].
  - intros c p Hp. eapply (ensures_rely evolves quiet_change); [by eapply H4|done].
  - by eapply (ensures_rely evolves quiet_change).
  - by eapply (ensures_rely evolves quiet_change).
Qed.

Lemma t_run_dial ever dial r n : reply_ok r → sends (λ _, True) (run_dial cfg ever dial r n) main_knows.
Proof.
  intros Hr. assert (Hst : stable (R := quiet_change) (λ _, True)) by apply stable_const.
  assert (Hret : ∀ m, (∀ s, main_knows m s) → sends (λ _, True) (mret m) main_knows) by (intros m Hm; by apply t_ret).
  unfold run_dial. eapply t_bind; [apply t_quiet; [exact Hst|apply quiet_read]|]. intros stop.
  destruct stop; [by apply Hret|]. eapply t_bind; [by apply t_connect|]. intros [[c ready]|e].
  - set (P := λ s, fresh_conn c s ∧ is_u64 (ResumeFrom ready)).
    assert (HP : stable (R := quiet_change) P) by (apply stable_and; [apply fresh_conn_stable|apply stable_const]).
    eapply t_bind; [apply t_quiet; [exact HP|destruct ever; [apply quiet_count|apply quiet_ret]]|]. intros u.
    eapply t_bind; [apply t_quiet; [exact HP|apply quiet_Now]|]. intros now.
    eapply t_bind; [apply t_quiet; [exact HP|apply quiet_emit]|]. intros u2. by apply t_ret.
  - eapply t_bind; [apply t_quiet; [exact Hst|apply quiet_read]|]. intros stop. destruct (_ || _); [by apply Hret|].
    eapply t_bind; [apply t_quiet; [exact Hst|apply quiet_reportFailure]|]. intros m. by apply Hret.
Qed.

Lemma t_run_finish c e n : sends (λ _, True) (run_finish cfg c e n) main_knows.
Proof.
  assert (Hst : stable (R := quiet_change) (λ _, True)) by apply stable_const.
  unfold run_finish. eapply t_bind; [apply t_quiet; [exact Hst|apply quiet_read]|]. intros f.
  eapply t_bind; [apply t_quiet; [exact Hst|apply quiet_dropConn]|]. intros u.
  eapply t_bind; [apply t_quiet; [exact Hst|apply quiet_read]|]. intros stop. destruct stop; [by apply t_ret|].
  eapply t_bind; [apply t_quiet; [exact Hst|apply quiet_reportFailure]|]. intros m. by apply t_ret.
Qed.

Lemma main_next_safe n pick pick' dial r attempt p s :
  main_next cfg n pick pick' dial r attempt = Some p → reply_ok r → sinv s → main_knows n s → safe_main p s.
Proof.
  intros Hn Hr Hs Hk. destruct n as [ever|c ready|c ph|c ph|c e|]; try done; [injection Hn as <-|injection Hn as <-|destruct ph; injection Hn as <-].
  - by apply t_run_dial.
  - destruct Hk as [Hf Hu].
    refine (t_bind (fresh_conn c) (start_session cfg ready) (λ ph, mret (Spawn c ph)) (in_phase c) main_knows _ _ s Hs Hf);
      [by apply t_start_session|]. intros ph. by apply t_ret; [apply in_phase_stable|].
  - refine (t_bind _ (send_round cfg pick pick' c _ _ _) (λ ph, mret (Round c ph)) (in_phase c) main_knows (t_send_round _ _ _ _ _ _) _ s Hs Hk).
    intros ph. by apply t_ret; [apply in_phase_stable|].
  - refine (t_bind _ (flush_round cfg pick c _ _ _) (λ ph, mret (Round c ph)) (in_phase c) main_knows (t_flush_round _ _ _ _ _) _ s Hs Hk).
    intros ph. by apply t_ret; [apply in_phase_stable|].
  - refine (t_bind (λ _, True) (end_session c) (λ _, mret (Finish c err)) (λ _ _, True) main_knows _ _ s Hs I).
    + apply t_quiet; [apply stable_const|apply quiet_end_session].
    + intros u. by apply t_ret; [apply stable_const|].
Qed.

Lemma drain_quiet s b l :
  sinv s → bl_DrainDropped (backlog s) = (b, l) →
  quiet_change s (set_drained s b (drained s ++ match l with Some (_, lo, hi) => [(lo, hi)] | None => [] end)).
Proof.
  intros Hs Hd. destruct (drain_law _ _ _ (si_ok _ Hs) Hd) as (L1 & L2 & L3 & L4 & L5). set (s' := set_drained _ _ _).
  assert (Hex : ∀ q, excused s q → excused s' q).
  { intros q [H|[H|[H|H]]]; unfold excused; simpl; auto.
    - destruct (L5 q H) as [|(n & lo & hi & -> & Hq)]; auto. right; right; left. exists (lo, hi). split; [set_solver|done].
    - destruct H as (r & Hr & Hq). right; right; left. exists r. split; [set_solver|done]. }
  assert (Hg : grows s s') by (constructor; simpl; auto; rewrite ?L4; auto; lia).
  split; [|intros c cn Hc; by exists cn]. intros _. split; [|done]. pose proof Hs as [I1 I2 I3 I4 I5 I6 I7 I8].
  constructor; simpl; auto; [by rewrite L3| |by rewrite L4|].
  - intros q Hq. rewrite L2. destruct (I5 q Hq); auto.
  - intros c cn Hc. eapply conn_ok_grows; [exact Hs|exact Hg|]. by eapply I8.
Qed.

Lemma reserve_quiet s b : sinv s → bl_Reserve (backlog s) = Some b → quiet_change s (set_backlog s b).
Proof.
  intros Hs Hr. destruct (reserve_law _ _ (si_ok _ Hs) Hr) as (L1 & L2 & L3 & L4 & L5). pose proof (si_floor _ Hs).
  apply (backlog_evolves s b (floor (backlog s))); auto; try lia. rewrite L2. auto.
Qed.

Lemma quiet_release_write : quiet_prog (write (λ s : sender, set_backlog s (bl_Release (backlog s)))).
Proof.
  intros s Hs. split; [|done]. destruct (release_law _ (si_ok _ Hs)) as (L1 & L2 & L3 & L4 & L5). pose proof (si_floor _ Hs).
  apply (backlog_evolves s _ (floor (backlog s))); auto; try lia. rewrite L2. auto.
Qed.

Lemma pump_event_safe e s s' p :
  sinv s → appendable (backlog s) e → advance (pump_event e;; mret PumpReserve) s = Some (s', p) →
  quiet_change s s' ∧ safe p s'.
Proof.
  intros Hs He Ha. assert (Hstep : ∃ ok, advance (append_backlog e) s = Some (s', Done ok) ∧
    p = ((if ok : bool then signal else write (λ s, set_backlog s (bl_Release (backlog s)));; recordAppendFailure e);; mret PumpReserve)).
  { simpl in Ha |- *. destruct (bl_Append (Some e) (backlog s)) as [b [[]|er| |]]; simplify_eq; eexists; by split. }
  destruct Hstep as (ok & Hadv & ->). pose proof (append_quiet e s s' (Done ok) Hs He Hadv) as Hq. split; [done|].
  destruct Hq as [Hev _]. destruct (Hev Hs) as [Hs' _]. apply quiet_safe; [done|].
  apply quiet_bind; [|done]. destruct ok; [apply quiet_signal|].
  apply quiet_bind; [apply quiet_release_write|]. intros u. unfold recordAppendFailure. quiet.
Qed.

Lemma safe_done {A} (a : A) s : sinv s → safe (Done a) s.
Proof. intros Hs. by apply quiet_safe. Qed.

Lemma recv_safe c f s : sinv s → inbound_ok f → safe (e ← recv_round cfg c f; setFail e;; mret e) s.
Proof.
  intros Hs Hf. refine (safe_then (recv_round cfg c f) (λ e, setFail e;; mret e) s (t_recv c f Hf s Hs I) _).
  intros e. apply quiet_bind; [apply quiet_setFail|done].
Qed.

Lemma beat_safe c s : sinv s → safe (e ← heartbeat_round cfg c; setFail e;; mret e) s.
Proof.
  intros Hs. apply quiet_safe; [done|]. apply quiet_bind; [apply quiet_heartbeat|]. intros e.
  apply quiet_bind; [apply quiet_setFail|done].
Qed.

Lemma quiet_pump_stop : quiet_prog (pump_stop;; mret PumpEnd).
Proof. apply quiet_bind; [|done]. unfold pump_stop. quiet. Qed.

(** The state changes, and all goroutines stay where they are. *)
Lemma sys_quiet_env s m r b p k s' :
  sys_inv (mkSystem s m r b p k) → quiet_change s s' → sys_inv (mkSystem s' m r b p k).
Proof. intros Hy Hq. destruct (quiet_sys _ s' Hy Hq) as (S1 & S2 & S3 & S4 & S5 & S6). by constructor. Qed.

(** One goroutine acts. *)
Ltac acts Hy Hsafe Hadv :=
  let Hq := fresh "Hq" in let Hs := fresh "Hs" in let Hnew := fresh "Hnew" in
  destruct (ensures_advance evolves quiet_change _ _ _ _ _ Hsafe Hadv) as [Hq Hnew];
  pose proof (sys_quiet_env _ _ _ _ _ _ _ Hy Hq) as [];
  constructor; simpl in *; try done; by intros ? ? [= <- <-].

Lemma sys_step_inv y y' : sys_step cfg y y' → sys_inv y → sys_inv y'.
Proof.
  intros Hst Hy. pose proof Hy as [Hs Hm Hr Hb Hp Hk].
  inversion Hst; subst; simpl in *.
  - destruct (ensures_advance quiet_change evolves _ _ _ _ _ Hm H) as [He Hm']. by apply (main_sys _ s' m' Hy).
  - apply (main_sys _ s m' Hy); [done|]. destruct (ensures_done quiet_change evolves _ _ _ Hm). by eapply main_next_safe.
  - constructor; simpl; try done; intros d q [= <- <-]; by apply safe_done.
  - apply (main_sys _ s (run_finish cfg c err attempt) Hy); [done|]. by apply t_run_finish.
  - acts Hy (Hr c q eq_refl) H.
  - constructor; simpl; try done. intros d x [= <- <-]. by apply recv_safe.
  - by constructor.
  - acts Hy (Hb c q eq_refl) H.
  - constructor; simpl; try done. intros d x [= <- <-]. by apply beat_safe.
  - by constructor.
  - acts Hy Hp H.
  - destruct (sys_quiet_env _ _ _ _ _ _ _ Hy (reserve_quiet s bl Hs H)). constructor; done || by apply safe_done.
  - constructor; try done. exact (quiet_safe _ _ Hs quiet_pump_stop).
  - destruct (pump_event_safe e s s' p' Hs H H0) as [Hq Hp']. destruct (sys_quiet_env _ _ _ _ _ _ _ Hy Hq). by constructor.
  - assert (Hq : quiet_change s (set_pumpDone s true)) by (apply harmless_quiet; harmless).
    destruct (sys_quiet_env _ _ _ _ _ _ _ Hy Hq). constructor; done || by apply safe_done.
  - acts Hy Hk H.
  - constructor; done || (apply quiet_safe; [done|apply quiet_close]).
  - apply (sys_quiet_env _ _ _ _ _ _ _ Hy), harmless_quiet. harmless.
  - apply (sys_quiet_env _ _ _ _ _ _ _ Hy). by apply drain_quiet.
  - apply (sys_quiet_env _ _ _ _ _ _ _ Hy), harmless_quiet. destruct (failed s =? 0); simplify_eq; harmless.
  - apply (sys_quiet_env _ _ _ _ _ _ _ Hy), harmless_quiet. harmless.
  - apply (sys_quiet_env _ _ _ _ _ _ _ Hy), harmless_quiet. harmless.
Qed.
End proofs.
