(* ===== verification/SenderHistory.v ===== *)
(** * What the sender promises

    The runs of the sender's goroutines from the start of the process, over any backlog
    that keeps [BacklogLaws]: what becomes of the events the pump accepted, the order on
    each connection, and the window of unacknowledged events.  The witnesses run the
    in-memory backlog. *)

From S2P Require Import Prelude GoStrings Event InternalEvents Metrics Sequencer Messages Frame Spool Threads Backlog Sender SenderProofs.

Section history.
Context {B : Type} `{HB : Backlog B} `{HL : !BacklogLaws B} `{HJ : MessageJson} (cfg : config).

Abbreviation system := (Sender.system (B := B)).
Abbreviation sender := (Sender.sender (B := B)).

(** The states of a process that starts with backlog [b]. *)
Definition reaches (b : B) (m : Metrics.Agent) (next : Z) (y : system) : Prop := rtc (sys_step cfg) (start b m next) y.

Lemma start_sys_inv b m next : bl_ok b → sys_inv cfg (start b m next).
Proof.
  intros Hb. pose proof (floor_range _ Hb) as Hf. assert (Hs : sinv cfg (shared (start b m next))).
  { unfold is_u64 in Hf. constructor; simpl; auto; try lia.
    - intros q Hq. by apply (held_range b q Hb Hq).
    - intros c cn Hc. by rewrite lookup_nil in Hc. }
  constructor; simpl; try done; [|by apply safe_done..].
  intros s' [He _]. split; [|done]. by apply He.
Qed.

Lemma reaches_inv b m next y : bl_ok b → reaches b m next y → sys_inv cfg y.
Proof.
  intros Hb. unfold reaches. pose proof (start_sys_inv b m next Hb) as H0. revert H0. generalize (start b m next) as y0.
  intros y0 H0 Hr. induction Hr as [|y1 y2 y3 H12 _ IH]; [done|]. apply IH. by eapply sys_step_inv.
Qed.

(** C1: No event is lost in the sender: in every state that the goroutines reach, each
    sequence that the backlog accepted (or held at the start) is still held for
    delivery, or it is at or below a position that the host has stated, or it is in the
    loss accounting (still in the backlog or handed to the loss poller), or the payload
    limit refused it. *)
Theorem accepted_held_or_excused b m next y q :
  bl_ok b → reaches b m next y → q ∈ accepted (shared y) →
  q ∈ held (backlog (shared y)) ∨
  q <= host (shared y) ∨ lost (backlog (shared y)) q ∨ in_ranges (drained (shared y)) q ∨ q ∈ refused (shared y).
Proof. intros Hb Hr Hq. exact (si_accepted _ _ (y_inv _ _ (reaches_inv _ _ _ _ Hb Hr)) q Hq). Qed.

(** C5: The EVENT frames of a connection are in strictly increasing order of sequence,
    and nothing is skipped: a sequence the backlog accepted that is below one sent on
    the connection was itself sent on it, or the host has stated a position at or above it, or it is in
    the loss accounting, or the payload limit refused it. *)
Theorem sent_in_order b m next y c cn :
  bl_ok b → reaches b m next y → conns (shared y) !! c = Some cn →
  StronglySorted Z.lt (sent_of cn) ∧
  ∀ q q', q' ∈ sent_of cn → q ∈ accepted (shared y) → q < q' → q ∈ sent_of cn ∨ excused (shared y) q.
Proof.
  intros Hb Hr Hc. destruct (si_conns _ _ (y_inv _ _ (reaches_inv _ _ _ _ Hb Hr)) c cn Hc) as [H1 H2 _ _]. split; [done|].
  intros q q' Hq'. by apply H2.
Qed.

(** C16: The window: on no connection are more than [MaxUnacked] events sent that are
    above every position the host has stated. *)
Theorem window_bound b m next y c cn :
  bl_ok b → reaches b m next y → conns (shared y) !! c = Some cn →
  Z.of_nat (length (filter (λ q, host (shared y) < q) (sent_of cn))) <= Z.max 0 (MaxUnacked cfg).
Proof. intros Hb Hr Hc. exact (co_window _ _ _ (si_conns _ _ (y_inv _ _ (reaches_inv _ _ _ _ Hb Hr)) c cn Hc)). Qed.

(** ** A dispatch with nothing else running *)

Section alone.
Context (c : nat) (acked : Z).

Definition healthy (cn : connection) : Prop := torn (codec cn) = false ∧ nc_closed cn = false.

(** The frame of an event, and that there is one. *)
Definition frame_of (enc : Encoder) (e : Event) : list byte :=
  match WriteMessage enc MsgEvent (Sequence e) (json_event (mkEventMessage (Some e))) with Ok b => b | Err _ => [] end.

Definition fits (enc : Encoder) (e : Event) : Prop :=
  WriteMessage enc MsgEvent (Sequence e) (json_event (mkEventMessage (Some e))) = Ok (frame_of enc e).

(** What is still to be sent of a batch. *)
Definition sendable (over : gset Z) (l : list Event) : list Event :=
  filter (λ e, acked < Sequence e ∧ Sequence e ∉ over) l.

Lemma release_alone seq (s : sender) :
  ∃ s', solo (releaseOversized seq) s = Some (s', ()) ∧ conns s' = conns s ∧ writes s' = writes s ∧
        ∀ q, q ≠ seq → q ∈ oversized s' ↔ q ∈ oversized s.
Proof. unfold releaseOversized. destruct bl_discard; eexists; split_and!; try done. simpl. set_solver. Qed.

Lemma note_alone seq (s : sender) :
  ∃ s', solo (note_sent seq) s = Some (s', ()) ∧ conns s' = conns s ∧ writes s' = writes s ∧ oversized s' = oversized s.
Proof. unfold note_sent, count. simpl. destruct (seq <=? highestSent s); by eexists. Qed.

Lemma send_alone e (s : sender) cn :
  conns s !! c = Some cn → healthy cn → writes s = [] → fits (c_enc (codec cn)) e →
  ∃ s' cn', solo (Send c MsgEvent (Sequence e) (json_event (mkEventMessage (Some e)))) s = Some (s', None) ∧
    conns s' !! c = Some cn' ∧ writes s' = [] ∧ oversized s' = oversized s ∧ healthy cn' ∧
    c_enc (codec cn') = c_enc (codec cn) ∧ sent_of cn' = sent_of cn ++ [Sequence e] ∧
    wire (codec cn') = wire (codec cn) ++ frame_of (c_enc (codec cn)) e.
Proof.
  intros Hc [H1 H2] Hw Hf. set (cd := mkConn (c_enc (codec cn)) false (wire (codec cn) ++ frame_of (c_enc (codec cn)) e)).
  set (cn' := mkConnection cd false (sent_log cn ++ [(MsgEvent, Sequence e)])).
  assert (Hs : Frame.Send (codec cn) MsgEvent (Sequence e) (json_event (mkEventMessage (Some e))) true None = (cd, None)).
  { unfold Frame.Send. rewrite H1. cbn [negb]. unfold fits in Hf. by rewrite Hf. }
  exists (set_sent s (<[c := cn']> (conns s)) [] (refused s)), cn'. unfold Send. cbn [both solo]. rewrite Hc, Hw, H2.
  cbn [head default andb negb]. rewrite Hs. rewrite bool_decide_false by done. split_and!; try done.
  - simpl. apply list_lookup_insert_eq. by eapply lookup_lt_Some.
  - by apply sent_of_event.
Qed.

(** The first of a batch that is not sent, and the first that is. *)
Lemma sendable_skip over over' e l :
  (acked < Sequence e → Sequence e ∈ over) → (∀ x, x ∈ l → Sequence x ∈ over' ↔ Sequence x ∈ over) →
  sendable over (e :: l) = sendable over' l.
Proof.
  intros He Hl. unfold sendable. rewrite filter_cons_False by naive_solver. apply filter_same. intros x Hx. by rewrite (Hl x Hx).
Qed.

Lemma sendable_first over over' e l :
  acked < Sequence e → Sequence e ∉ over → over' = over → sendable over (e :: l) = e :: sendable over' l.
Proof. intros He Ho ->. unfold sendable. by rewrite filter_cons_True. Qed.

Definition loop_result (s : sender) (cn : connection) (l : list Event) (inflight : list Z) (q n : Z)
    (r : option (sender * dispatched)) : Prop :=
  let out := sendable (oversized s) l in
  ∃ s' cn',
    r = Some (s', (inflight ++ (Sequence <$> out), default q (last (Sequence <$> l)), Ok (n + Z.of_nat (length out)))) ∧
    conns s' !! c = Some cn' ∧ sent_of cn' = sent_of cn ++ (Sequence <$> out) ∧
    wire (codec cn') = wire (codec cn) ++ concat (frame_of (c_enc (codec cn)) <$> out).

Lemma last_step (q q' : Z) l : default q (last (q' :: l)) = default q' (last l).
Proof. rewrite last_cons. by destruct (last l). Qed.

(** A batch without its first event, which is stepped over. *)
Lemma loop_skip s s' cn e l inflight q n r :
  (acked < Sequence e → Sequence e ∈ oversized s) → (∀ x, x ∈ l → Sequence x ∈ oversized s' ↔ Sequence x ∈ oversized s) →
  loop_result s' cn l inflight (Sequence e) n r → loop_result s cn (e :: l) inflight q n r.
Proof.
  intros He Hl (s2 & cn2 & H1 & H2 & H3 & H4). exists s2, cn2.
  rewrite (sendable_skip _ (oversized s') e l He Hl), fmap_cons, last_step. by rewrite H1.
Qed.

Lemma loop_alone l : ∀ inflight q n s cn,
  conns s !! c = Some cn → healthy cn → writes s = [] → StronglySorted Z.lt (Sequence <$> l) →
  (∀ e, e ∈ l → q < Sequence e) → (∀ e, e ∈ sendable (oversized s) l → fits (c_enc (codec cn)) e) →
  Z.of_nat (length inflight + length l) <= MaxUnacked cfg →
  loop_result s cn l inflight q n (solo (dispatch_loop cfg c acked l inflight q n) s).
Proof.
  induction l as [|e l IH]; intros inflight q n s cn Hc Hh Hw Hso Hq Hfit Hlen.
  { exists s, cn. simpl. rewrite !app_nil_r, Z.add_0_r. by split_and!. }
  rewrite fmap_cons in Hso. apply StronglySorted_inv in Hso as [Hso Hf]. rewrite Forall_forall in Hf.
  assert (Hl : ∀ x, x ∈ l → Sequence e < Sequence x) by (intros x Hx; by apply Hf, list_elem_of_fmap_2).
  cbn [dispatch_loop]. destruct (Z.leb_spec (Sequence e) q); [specialize (Hq e ltac:(set_solver)); lia|].
  destruct (Z.leb_spec (Sequence e) acked) as [Ha|Ha].
  { apply (loop_skip s s); [lia|done|]. apply IH; auto; [|simpl in Hlen; lia].
    intros x Hx. apply Hfit. rewrite (sendable_skip _ (oversized s)); [done|lia|done]. }
  rewrite solo_bind. cbn [isOversized read solo]. case_bool_decide as Ho.
  - rewrite solo_bind. destruct (release_alone (Sequence e) s) as (s1 & -> & H1 & H2 & H3).
    assert (Hl1 : ∀ x, x ∈ l → Sequence x ∈ oversized s1 ↔ Sequence x ∈ oversized s) by (intros x Hx; apply H3; specialize (Hl x Hx); lia).
    apply (loop_skip s s1); [done|done|]. apply IH; rewrite ?H1, ?H2; auto; [|simpl in Hlen; lia].
    intros x Hx. apply Hfit. by rewrite (sendable_skip _ (oversized s1)).
  - rewrite solo_bind. destruct (send_alone e s cn Hc Hh Hw) as (s1 & cn1 & -> & C1 & W1 & O1 & Hh1 & E1 & S1 & R1).
    { apply Hfit. rewrite (sendable_first _ (oversized s)); [set_solver|done..]. }
    rewrite solo_bind. destruct (note_alone (Sequence e) s1) as (s2 & -> & C2 & W2 & O2).
    cbv zeta. match goal with |- loop_result _ _ _ _ _ _ ?x => set (r := x) end.
    assert (Hrest : loop_result s2 cn1 l (inflight ++ [Sequence e]) (Sequence e) (n + 1) r).
    { unfold r. rewrite length_app. simpl in Hlen |- *. destruct (Z.leb_spec (MaxUnacked cfg) (Z.of_nat (length inflight + 1))).
      - destruct l; [|simpl in Hlen; lia]. exists s2, cn1. simpl. rewrite !app_nil_r, Z.add_0_r, C2. by split_and!.
      - apply IH; rewrite ?C2, ?W2, ?E1, ?length_app; auto; [|simpl; lia]. intros x Hx. apply Hfit.
        rewrite (sendable_first _ (oversized s2)) by (rewrite ?O2; done). set_solver. }
    destruct Hrest as (s3 & cn3 & -> & H2 & H3 & H4). exists s3, cn3.
    rewrite (sendable_first _ (oversized s2)) by (rewrite ?O2; done). rewrite !fmap_cons, last_step, H3, H4, S1, R1, E1.
    simpl. rewrite <- !app_assoc. split_and!; try done. do 3 f_equal. f_equal. lia.
Qed.
End alone.

(** C17: One dispatch, with nothing else running and a connection that works: the batch
    that [NextAfter] gives is written to the socket in order, frame after frame, but for
    the events that are already acknowledged or known to be too large; they go to the
    end of the in-flight list, and the position moves to the end of the batch. *)
Theorem dispatch_sends_batch c s cn inflight sentThrough room b evs :
  bl_ok (backlog s) → conns s !! c = Some cn → healthy cn → writes s = [] →
  room = Z.min maxSendBatch (MaxUnacked cfg - Z.of_nat (length inflight)) → 0 < room →
  bl_NextAfter sentThrough room (backlog s) = (b, Ret evs) → evs ≠ [] →
  let out := sendable (ackedThrough s) (oversized s) evs in
  (∀ e, e ∈ out → fits (c_enc (codec cn)) e) →
  ∃ s' cn',
    solo (dispatch cfg c inflight sentThrough) s =
      Some (s', (inflight ++ (Sequence <$> out), default sentThrough (last (Sequence <$> evs)), Ok (Z.of_nat (length out)))) ∧
    sentThrough < default sentThrough (last (Sequence <$> evs)) ∧
    conns s' !! c = Some cn' ∧ sent_of cn' = sent_of cn ++ (Sequence <$> out) ∧
    wire (codec cn') = wire (codec cn) ++ concat (frame_of (c_enc (codec cn)) <$> out).
Proof.
  intros Hb Hc Hh Hw Hroom Hpos Hnext Hne out Hfit.
  destruct (next_law _ _ _ _ _ Hb Hnext) as (L1 & L2 & L3 & L4 & L5 & Hseq).
  assert (Hin : ∀ q, q ∈ Sequence <$> evs → sentThrough < q ∧ q ∈ held (backlog s)).
  { intros q Hq. rewrite Hseq in Hq. apply take_in, list_elem_of_filter in Hq. done. }
  assert (Hsorted : StronglySorted Z.lt (Sequence <$> evs)) by (rewrite Hseq; by apply next_sorted, held_sorted).
  assert (Hlast : ∃ q0, last (Sequence <$> evs) = Some q0).
  { destruct (last (Sequence <$> evs)) as [q0|] eqn:El; [by exists q0|]. apply last_None, fmap_nil_inv in El. done. }
  destruct Hlast as [q0 Hlast]. destruct (Hin q0) as [Hlt Hheld]; [by apply last_Some_elem_of|].
  assert (Hun : solo (unsent sentThrough) s = Some (s, true)).
  { unfold unsent, ask. cbn. rewrite (held_pending _ Hb). destruct (held_range _ _ Hb Hheld).
    destruct (held (backlog s)); [set_solver|]. simpl. destruct (Z.ltb_spec sentThrough (bl_LastSequence (backlog s))); [done|lia]. }
  unfold dispatch. destruct (Z.leb_spec (MaxUnacked cfg - Z.of_nat (length inflight)) 0); [lia|].
  replace (if maxSendBatch <? MaxUnacked cfg - Z.of_nat (length inflight) then maxSendBatch else MaxUnacked cfg - Z.of_nat (length inflight))
    with room by (subst room; destruct (Z.ltb_spec maxSendBatch (MaxUnacked cfg - Z.of_nat (length inflight))); lia).
  rewrite solo_bind, Hun. cbn [negb]. rewrite solo_bind. unfold call_backlog. cbn [solo]. rewrite Hnext.
  rewrite solo_bind. cbn [read solo]. set (s1 := set_backlog s b).
  assert (Hlen : Z.of_nat (length evs) <= room).
  { rewrite <- (length_fmap Sequence evs), Hseq, length_take. lia. }
  destruct (loop_alone c (ackedThrough s1) evs inflight sentThrough 0 s1 cn Hc Hh Hw Hsorted) as (s' & cn' & H1 & H2 & H3 & H4).
  - intros e He. by apply Hin, list_elem_of_fmap_2.
  - exact Hfit.
  - lia.
  - exists s', cn'. split_and!; try done. by rewrite Hlast.
Qed.

(** ** Schedules *)

(** A step of [sys_step] with what the environment chooses. *)
Inductive move : Type :=
| MMain | MRecv | MBeat | MPump | MCloser
| MNext (pick pick' : choice) (dial : bool) (rep : reply) (attempt : Z)
| MSpawn | MFinish (attempt : Z)
| MFrame (f : inbound) | MTick
| MReserve | MGet (e : Event).

Definition move_ok (mv : move) : Prop :=
  match mv with
  | MNext _ _ _ rep _ => reply_ok rep
  | MFrame f => inbound_ok f
  | MGet e => ∀ b, appendable b e
  | MTick => 0 < HeartbeatInterval cfg
  | _ => True
  end.

Definition exec (mv : move) (y : system) : option system :=
  let '(mkSystem s m r b p k) := y in
  match mv with
  | MMain => match advance m s with Some (s, m) => Some (mkSystem s m r b p k) | None => None end
  | MPump => match advance p s with Some (s, p) => Some (mkSystem s m r b p k) | None => None end
  | MCloser => match advance k s with Some (s, k) => Some (mkSystem s m r b p k) | None => None end
  | MRecv =>
      match r with
      | Some (c, q) => match advance q s with Some (s, q) => Some (mkSystem s m (Some (c, q)) b p k) | None => None end
      | None => None
      end
  | MBeat =>
      match b with
      | Some (c, q) => match advance q s with Some (s, q) => Some (mkSystem s m r (Some (c, q)) p k) | None => None end
      | None => None
      end
  | MNext pick pick' dial rep attempt =>
      match m with
      | Done n => match main_next cfg n pick pick' dial rep attempt with Some m => Some (mkSystem s m r b p k) | None => None end
      | _ => None
      end
  | MSpawn =>
      match m, r, b with
      | Done (Spawn c ph), None, None =>
          Some (mkSystem s (Done (Round c ph)) (Some (c, Done None)) (Some (c, Done None)) p k)
      | _, _, _ => None
      end
  | MFinish attempt =>
      match m, r, b with
      | Done (Finish c err), None, None => Some (mkSystem s (run_finish cfg c err attempt) None None p k)
      | _, _, _ => None
      end
  | MFrame f =>
      match r with
      | Some (c, Done None) => Some (mkSystem s m (Some (c, (e ← recv_round cfg c f; setFail e;; mret e))) b p k)
      | _ => None
      end
  | MTick =>
      match b with
      | Some (c, Done None) => Some (mkSystem s m r (Some (c, (e ← heartbeat_round cfg c; setFail e;; mret e))) p k)
      | _ => None
      end
  | MReserve =>
      match p, bl_Reserve (backlog s) with
      | Done PumpReserve, Some bl => Some (mkSystem (set_backlog s bl) m r b (Done PumpGet) k)
      | _, _ => None
      end
  | MGet e =>
      match p with
      | Done PumpGet =>
          match advance (pump_event e;; mret PumpReserve) s with Some (s, p) => Some (mkSystem s m r b p k) | None => None end
      | _ => None
      end
  end.

Fixpoint exec_all (l : list move) (y : system) : option system :=
  match l with
  | [] => Some y
  | mv :: l => match exec mv y with Some y => exec_all l y | None => None end
  end.

Lemma exec_step mv y y' : move_ok mv → exec mv y = Some y' → sys_step cfg y y'.
Proof.
  intros Hok He. destruct y as [s m r b p k], mv; unfold exec in He; repeat case_match; simplify_eq; by econstructor.
Qed.

Lemma exec_all_reaches l b m next y :
  Forall move_ok l → exec_all l (start b m next) = Some y → reaches b m next y.
Proof.
  unfold reaches. generalize (start b m next) as y0. induction l as [|mv l IH]; intros y0 Hl He; simpl in He; [by simplify_eq|].
  inversion Hl; subst. destruct (exec mv y0) as [y1|] eqn:E; [|done]. eapply rtc_l; [by eapply exec_step|by apply IH].
Qed.
End history.

(** ** A run over the in-memory backlog *)

(** Each message is one byte long, but the event with sequence 2, which no frame can
    carry. *)
Definition demo_bytes (n : nat) : option (list byte) := Some (replicate n x41).

#[local] Instance demo_json : MessageJson := {
  json_hello := λ _, demo_bytes 1;
  json_event := λ m, demo_bytes (if bool_decide (from_option Sequence 0 (em_Event m) = 2) then 101 else 1);
  json_ping := λ _, demo_bytes 1;
  json_error := λ _, demo_bytes 1;
  json_shutdown := λ _, demo_bytes 1
}.

Definition demo_config : config :=
  mkConfig 2 0 100 0 0 (mkIdentity "vm" "m" "b" "k" "1") "vsock" false true 0 (λ _, "error").

Definition demo_pump (q : Z) : list move := [MReserve; MGet (event_at q); MPump].
Definition demo_round : move := MNext PickTimer PickTimer true (ReplyFailed DeadlineFailed) 0.
Definition demo_ready : Ready := mkReady Frame.Version "h" "s" 0 0.

(** The host accepts the connection; the sender sends 1, finds 2 too large, sends 3, and
    has its window full until the host acknowledges 1; then it sends 4. *)
Definition demo_moves : list move :=
  demo_pump 1 ++ demo_pump 2 ++ demo_pump 3 ++
  [MNext PickTimer PickTimer true (ReplyReady demo_ready) 1] ++ replicate 7 MMain ++
  [demo_round] ++ replicate 5 MMain ++ [MSpawn; demo_round] ++ replicate 22 MMain ++ demo_pump 4 ++
  [demo_round] ++ replicate 14 MMain ++
  [MFrame (InAck (mkAck 1))] ++ replicate 7 MRecv ++
  [demo_round] ++ replicate 17 MMain.

Definition demo_backlog : memBacklog := newMemBacklog 3.
Definition demo_final : Sender.system :=
  let y := start demo_backlog zero_agent 1 in default y (exec_all demo_config demo_moves y).

Lemma demo_reaches : reaches demo_config demo_backlog zero_agent 1 demo_final.
Proof.
  apply exec_all_reaches with demo_moves.
  - repeat first [apply Forall_nil_2 | apply Forall_cons_2]; simpl; try done; unfold is_u64; simpl; lia.
  - assert (H : is_Some (exec_all demo_config demo_moves (start demo_backlog zero_agent 1))).
    { apply not_eq_None_Some. intros E. apply (f_equal (λ o, match o with Some _ => true | None => false end)) in E.
      vm_compute in E. done. }
    destruct H as [y H]. unfold demo_final. by rewrite H.
Qed.

(** What the run has come to. *)
Example demo_outcome :
  sent_of <$> conns (shared demo_final) = [[1; 3; 4]] ∧ host (shared demo_final) = 1 ∧
  held (backlog (shared demo_final)) = [3; 4] ∧ accepted (shared demo_final) = [1; 2; 3; 4] ∧
  elements (refused (shared demo_final)) = [2].
Proof. vm_compute. done. Qed.

Lemma accepted_held_or_excused_witness :
  2 ∈ held (backlog (shared demo_final)) ∨
  2 <= host (shared demo_final) ∨ lost (backlog (shared demo_final)) 2 ∨ in_ranges (drained (shared demo_final)) 2 ∨
  2 ∈ refused (shared demo_final).
Proof.
  apply (accepted_held_or_excused demo_config demo_backlog zero_agent 1 demo_final 2).
  - apply newMemBacklog_ok.
  - apply demo_reaches.
  - apply (bool_decide_unpack (2 ∈ accepted (shared demo_final))). vm_compute. exact I.
Defined.

Definition demo_conn : connection := mkConnection (NewConn 100) false [].
Definition demo_first : connection := default demo_conn (conns (shared demo_final) !! 0%nat).

Lemma demo_first_conn : conns (shared demo_final) !! 0%nat = Some demo_first.
Proof. vm_compute. reflexivity. Qed.

Lemma sent_in_order_witness :
  StronglySorted Z.lt (sent_of demo_first) ∧
  ∀ q q', q' ∈ sent_of demo_first → q ∈ accepted (shared demo_final) → q < q' →
    q ∈ sent_of demo_first ∨ excused (shared demo_final) q.
Proof.
  apply (sent_in_order demo_config demo_backlog zero_agent 1 demo_final 0 demo_first).
  - apply newMemBacklog_ok.
  - apply demo_reaches.
  - apply demo_first_conn.
Defined.

Lemma window_bound_witness :
  Z.of_nat (length (filter (λ q, host (shared demo_final) < q) (sent_of demo_first))) <= 2.
Proof.
  apply (window_bound demo_config demo_backlog zero_agent 1 demo_final 0 demo_first).
  - apply newMemBacklog_ok.
  - apply demo_reaches.
  - apply demo_first_conn.
Defined.

(** A sender that holds 1, 2 and 3, has one connection and knows that 2 is too large. *)
Definition demo_queue : memBacklog := mkMemBacklog 3 3 (event_at <$> [1; 2; 3]) 3.
Definition demo_sender : Sender.sender :=
  set_oversized (set_conns (newSender demo_queue zero_agent 4) [demo_conn]) {[2]} 0.
Definition demo_wide : config :=
  mkConfig 8 0 100 0 0 (mkIdentity "vm" "m" "b" "k" "1") "vsock" false true 0 (λ _, "error").

Lemma dispatch_sends_batch_witness :
  ∃ s' cn',
    solo (dispatch demo_wide 0 [] 0) demo_sender = Some (s', ([1; 3], 3, Ok 2)) ∧ 0 < 3 ∧
    conns s' !! 0%nat = Some cn' ∧ sent_of cn' = [1; 3] ∧
    wire (codec cn') = concat (frame_of (NewEncoder 100) <$> (event_at <$> [1; 3])).
Proof.
  destruct (dispatch_sends_batch demo_wide 0 demo_sender demo_conn [] 0 8 demo_queue (event_at <$> [1; 2; 3]))
    as (s' & cn' & H1 & H2 & H3 & H4 & H5).
  - constructor; [repeat constructor|set_solver by lia|done].
  - reflexivity.
  - done.
  - reflexivity.
  - reflexivity.
  - lia.
  - vm_compute. reflexivity.
  - done.
  - assert (E : sendable (ackedThrough demo_sender) (oversized demo_sender) (event_at <$> [1; 2; 3]) = event_at <$> [1; 3])
      by (vm_compute; reflexivity).
    rewrite E. intros e He. apply list_elem_of_fmap in He as (q & -> & Hq).
    apply elem_of_cons in Hq as [->|Hq%list_elem_of_singleton]; [vm_compute; reflexivity|subst q; vm_compute; reflexivity].
  - exists s', cn'. split_and!; [exact H1|done|exact H3|exact H4|exact H5].
Defined.
