(* ===== verification/AuditRecords.v ===== *)
(** * Audit records and their types

    [SauronAgent/internal/audit/records.go], [records_gen.go] and [group.go]: the record
    types of the kernel with their names, parsed records, and groups of records. *)

From S2P Require Import Prelude GoStrings GoText.

(** A [uint16]. *)
Abbreviation RecordType := Z (only parsing).

Definition TypeGet : RecordType := 1000.
Definition TypeFirstUserMsg : RecordType := 1100.
Definition TypeLastUserMsg : RecordType := 1199.
Definition TypeExecve : RecordType := 1309.
Definition TypeEoe : RecordType := 1320.
Definition TypeFirstKernAnomMsg : RecordType := 1700.
Definition TypeLastKernAnomMsg : RecordType := 1799.
Definition TypeFirstUserMsg2 : RecordType := 2100.
Definition TypeLastUserMsg2 : RecordType := 2999.

Definition type_names : list (Z * string) :=
  [
    (1000, "GET"); (1001, "SET"); (1002, "LIST"); (1003, "ADD"); (1004, "DEL"); (1005, "USER");
    (1006, "LOGIN"); (1007, "WATCH_INS"); (1008, "WATCH_REM"); (1009, "WATCH_LIST"); (1010, "SIGNAL_INFO");
    (1011, "ADD_RULE"); (1012, "DEL_RULE"); (1013, "LIST_RULES"); (1014, "TRIM"); (1015, "MAKE_EQUIV");
    (1016, "TTY_GET"); (1017, "TTY_SET"); (1018, "SET_FEATURE"); (1019, "GET_FEATURE"); (1107, "USER_AVC");
    (1124, "USER_TTY"); (1200, "DAEMON_START"); (1201, "DAEMON_END"); (1202, "DAEMON_ABORT");
    (1203, "DAEMON_CONFIG"); (1300, "SYSCALL"); (1302, "PATH"); (1303, "IPC"); (1304, "SOCKETCALL");
    (1305, "CONFIG_CHANGE"); (1306, "SOCKADDR"); (1307, "CWD"); (1309, "EXECVE"); (1311, "IPC_SET_PERM");
    (1312, "MQ_OPEN"); (1313, "MQ_SENDRECV"); (1314, "MQ_NOTIFY"); (1315, "MQ_GETSETATTR");
    (1316, "KERNEL_OTHER"); (1317, "FD_PAIR"); (1318, "OBJ_PID"); (1319, "TTY"); (1320, "EOE");
    (1321, "BPRM_FCAPS"); (1322, "CAPSET"); (1323, "MMAP"); (1324, "NETFILTER_PKT"); (1325, "NETFILTER_CFG");
    (1326, "SECCOMP"); (1327, "PROCTITLE"); (1328, "FEATURE_CHANGE"); (1329, "REPLACE");
    (1330, "KERN_MODULE"); (1331, "FANOTIFY"); (1332, "TIME_INJOFFSET"); (1333, "TIME_ADJNTPVAL");
    (1334, "BPF"); (1335, "EVENT_LISTENER"); (1336, "URINGOP"); (1337, "OPENAT2"); (1338, "DM_CTRL");
    (1339, "DM_EVENT"); (1400, "AVC"); (1401, "SELINUX_ERR"); (1402, "AVC_PATH"); (1403, "MAC_POLICY_LOAD");
    (1404, "MAC_STATUS"); (1405, "MAC_CONFIG_CHANGE"); (1406, "MAC_UNLBL_ALLOW"); (1407, "MAC_CIPSOV4_ADD");
    (1408, "MAC_CIPSOV4_DEL"); (1409, "MAC_MAP_ADD"); (1410, "MAC_MAP_DEL"); (1411, "MAC_IPSEC_ADDSA");
    (1412, "MAC_IPSEC_DELSA"); (1413, "MAC_IPSEC_ADDSPD"); (1414, "MAC_IPSEC_DELSPD");
    (1415, "MAC_IPSEC_EVENT"); (1416, "MAC_UNLBL_STCADD"); (1417, "MAC_UNLBL_STCDEL");
    (1418, "MAC_CALIPSO_ADD"); (1419, "MAC_CALIPSO_DEL"); (1420, "MAC_TASK_CONTEXTS");
    (1421, "MAC_OBJ_CONTEXTS"); (1700, "ANOM_PROMISCUOUS"); (1701, "ANOM_ABEND"); (1702, "ANOM_LINK");
    (1703, "ANOM_CREAT"); (1800, "INTEGRITY_DATA"); (1801, "INTEGRITY_METADATA"); (1802, "INTEGRITY_STATUS");
    (1803, "INTEGRITY_HASH"); (1804, "INTEGRITY_PCR"); (1805, "INTEGRITY_RULE");
    (1806, "INTEGRITY_EVM_XATTR"); (1807, "INTEGRITY_POLICY_RULE"); (2000, "KERNEL"); (1100, "USER_AUTH");
    (1101, "USER_ACCT"); (1102, "USER_MGMT"); (1103, "CRED_ACQ"); (1104, "CRED_DISP"); (1105, "USER_START");
    (1106, "USER_END"); (1108, "USER_CHAUTHTOK"); (1109, "USER_ERR"); (1110, "CRED_REFR");
    (1111, "USYS_CONFIG"); (1112, "USER_LOGIN"); (1113, "USER_LOGOUT"); (1114, "ADD_USER");
    (1115, "DEL_USER"); (1116, "ADD_GROUP"); (1117, "DEL_GROUP"); (1118, "DAC_CHECK"); (1119, "CHGRP_ID");
    (1120, "TEST"); (1121, "TRUSTED_APP"); (1122, "USER_SELINUX_ERR"); (1123, "USER_CMD");
    (1125, "CHUSER_ID"); (1126, "ROLE_ASSIGN"); (1127, "ROLE_REMOVE"); (2100, "ANOM_LOGIN_FAILURES");
    (2101, "ANOM_LOGIN_TIME"); (2102, "ANOM_LOGIN_SESSIONS"); (2103, "ANOM_LOGIN_ACCT");
    (2104, "ANOM_LOGIN_LOCATION"); (2105, "ANOM_MAX_DAC"); (2106, "ANOM_MAX_MAC"); (2107, "ANOM_AMTU_FAIL");
    (2108, "ANOM_RBAC_FAIL"); (2109, "ANOM_RBAC_INTEGRITY_FAIL"); (2110, "ANOM_CRYPTO_FAIL");
    (2111, "ANOM_ACCESS_FS"); (2112, "ANOM_EXEC"); (2113, "ANOM_MK_EXEC"); (2114, "ANOM_ADD_ACCT");
    (2115, "ANOM_DEL_ACCT"); (2116, "ANOM_MOD_ACCT"); (2117, "ANOM_ROOT_TRANS"); (2118, "ANOM_LOGIN_SERVICE");
    (2119, "ANOM_LOGIN_ROOT"); (2120, "ANOM_ORIGIN_FAILURES"); (2121, "ANOM_SESSION");
    (2400, "CRYPTO_TEST_USER"); (2401, "CRYPTO_PARAM_CHANGE_USER"); (2402, "CRYPTO_LOGIN");
    (2403, "CRYPTO_LOGOUT"); (2404, "CRYPTO_KEY_USER"); (2405, "CRYPTO_FAILURE_USER");
    (2406, "CRYPTO_REPLAY_USER"); (2407, "CRYPTO_SESSION"); (2408, "CRYPTO_IKE_SA");
    (2409, "CRYPTO_IPSEC_SA"); (2500, "VIRT_CONTROL"); (2501, "VIRT_RESOURCE"); (2502, "VIRT_MACHINE_ID");
    (2503, "VIRT_INTEGRITY_CHECK"); (2504, "VIRT_CREATE"); (2505, "VIRT_DESTROY"); (2506, "VIRT_MIGRATE_IN");
    (2507, "VIRT_MIGRATE_OUT")
  ].

Definition recordTypeNames : gmap Z string := list_to_map type_names.

Definition RecordTypeName (t : RecordType) : string :=
  match recordTypeNames !! t with
  | Some name => name
  | None => of_chars (to_chars "UNKNOWN[" ++ itoa (t mod 2 ^ 16) ++ to_chars "]")
  end.

(** Built by going through [recordTypeNames]. *)
Definition recordTypesByName : gmap string Z := list_to_map (prod_swap <$> map_to_list recordTypeNames).

Definition RecordTypeByName (name : string) : option RecordType := recordTypesByName !! name.

Definition IsUserMessage (t : RecordType) : bool :=
  ((TypeFirstUserMsg <=? t) && (t <=? TypeLastUserMsg)) || ((TypeFirstUserMsg2 <=? t) && (t <=? TypeLastUserMsg2)).

Definition IsKernelAnomaly (t : RecordType) : bool := (TypeFirstKernAnomMsg <=? t) && (t <=? TypeLastKernAnomMsg).

Definition IsControl (t : RecordType) : bool := (TypeGet <=? t) && (t <? TypeFirstUserMsg).

(** ** Records *)

Record RawMessage : Type := mkRawMessage { msg_Type : RecordType; msg_Data : string; msg_Received : time }.

Record AuditRecord : Type := mkRecord {
  rec_Type : RecordType;
  rec_TypeName : string;
  rec_Timestamp : time;
  rec_Serial : Z;
  rec_AuditID : string;
  rec_Fields : gmap string string;
  rec_Raw : string
}.

Definition set_fields (r : AuditRecord) (f : gmap string string) : AuditRecord :=
  mkRecord (rec_Type r) (rec_TypeName r) (rec_Timestamp r) (rec_Serial r) (rec_AuditID r) f (rec_Raw r).

(** ** Groups *)

Record Group : Type := mkGroup {
  g_AuditID : string;
  g_Serial : Z;
  g_Timestamp : time;
  g_Records : list AuditRecord;
  g_Complete : bool
}.

Section group.
Context (g : Group).

Definition First (t : RecordType) : option AuditRecord :=
  head (filter (λ r, rec_Type r = t) (g_Records g)).

Definition All (t : RecordType) : list AuditRecord := filter (λ r, rec_Type r = t) (g_Records g).

Definition Has (t : RecordType) : bool := match First t with Some _ => true | None => false end.

Definition Types : list string := rec_TypeName <$> g_Records g.

Definition RawLines : list string := rec_Raw <$> g_Records g.

(** The first record of [l] that has the key. *)
Fixpoint first_field (key : string) (l : list AuditRecord) : option string :=
  match l with
  | [] => None
  | r :: l => match rec_Fields r !! key with Some v => Some v | None => first_field key l end
  end.

(** [Field]: the preferred types in order, then any record. *)
Fixpoint Field (key : string) (prefer : list RecordType) : option string :=
  match prefer with
  | [] => first_field key (g_Records g)
  | t :: prefer => match first_field key (All t) with Some v => Some v | None => Field key prefer end
  end.
End group.

(** ** The names are unambiguous *)

Lemma names_distinct_check :
  bool_decide (NoDup (snd <$> type_names)) && bool_decide (NoDup (fst <$> type_names)) = true.
Proof. vm_compute. done. Qed.

Lemma known_by_name t name : recordTypeNames !! t = Some name → RecordTypeByName name = Some t.
Proof.
  pose proof names_distinct_check as [H1%bool_decide_eq_true H2%bool_decide_eq_true]%andb_true_iff.
  intros Ht. unfold RecordTypeByName, recordTypesByName. apply elem_of_list_to_map_1.
  - rewrite <- list_fmap_compose. assert (Hp : map_to_list recordTypeNames ≡ₚ type_names) by (by apply map_to_list_to_map).
    change (fst ∘ prod_swap) with (@snd Z string). by rewrite Hp.
  - apply list_elem_of_fmap. exists (t, name). split; [done|]. by apply elem_of_map_to_list.
Qed.

Definition plain (c : ascii) : bool := in_range 65 90 c || in_range 48 57 c || (code c =? 95).

Lemma names_plain_check :
  forallb (λ p, forallb plain (to_chars (snd p)) && negb (has_prefix (to_chars "UNKNOWN[") (to_chars (snd p)))) type_names = true.
Proof. vm_compute. done. Qed.

Lemma known_name t name : recordTypeNames !! t = Some name → (t, name) ∈ type_names.
Proof. apply elem_of_list_to_map_2. Qed.
