(* ===== verification/AuditParser.v ===== *)
(** * The parser of audit records

    [SauronAgent/internal/audit/parser.go]: from the text the kernel sends, or from a
    line of audit.log, to a record with its fields.

    A position in the text is the rest of the text from there.  The scan for fields
    takes as much fuel as there are characters; [scan_fuel] shows that this is enough.
    An error is its kind, without the text. *)

From S2P Require Import Prelude GoStrings GoText AuditRecords.

Definition maxRecordLength : Z := Z.shiftl 1 20.
Definition maxFields : Z := 8192.
Definition maxExecveIndex : Z := 65535.

Definition hexStringFields : gset string :=
  list_to_set ["acct"; "cmd"; "comm"; "cwd"; "data"; "dir"; "exe"; "file"; "key"; "msg"; "name"; "path"; "proctitle"].

Inductive parse_error : Type :=
| EmptyBody | EmptyRecord | NotAudit | TooLong | TruncatedID | BadEventID | TooManyFields | TooManyFragments.

Definition space : ascii := " ".
Definition tab : ascii := "009".
Definition quote : ascii := "034".
Definition apostrophe : ascii := "039".
Definition blanks : chars := [space; tab].
Definition is_blank (c : ascii) : bool := bool_decide (c ∈ blanks).

(** [strings.Trim(s, " \t\r\n\x00")] *)
Definition record_frame : chars := [space; tab; "013"; "010"; "000"]%char.
Definition trimRecord (s : chars) : chars := trim_both record_frame s.

(** ** Numbers in names *)

Definition isDigits (s : chars) (min max : Z) : bool :=
  negb ((Z.of_nat (length s) <? min) || (max <? Z.of_nat (length s))) && forallb (in_range 48 57) s.

Definition resolveTypeName (name : chars) : RecordType :=
  match RecordTypeByName (of_chars name) with
  | Some t => t
  | None =>
      match cut_prefix (to_chars "UNKNOWN[") name with
      | Some inner =>
          match CutSuffix (of_chars inner) "]" with
          | Some digits => default 0 (parse_below (2 ^ 16) (to_chars digits))
          | None => 0
          end
      | None => 0
      end
  end.

Definition parseEventID (id : chars) : option (time * Z) :=
  match cut_at "." id with
  | None => None
  | Some (secs, rest) =>
      match cut_at ":" rest with
      | None => None
      | Some (msecs, serial) =>
          if isDigits secs 1 19 && isDigits msecs 1 3 && isDigits serial 1 20 then
            match parse_below (2 ^ 63) secs, parse_below (2 ^ 31) msecs, parse_uint serial with
            | Some sec, Some msec, Some ser => Some (Unix sec (msec * 1000000), ser)
            | _, _, _ => None
            end
          else None
      end
  end.

(** ** Values *)

Definition isKeyByte (c : ascii) : bool :=
  in_range 97 122 c || in_range 65 90 c || in_range 48 57 c ||
  ((code c =? 95) || (code c =? 45) || (code c =? 91) || (code c =? 93)).

Definition isHexDigit (c : ascii) : bool := in_range 48 57 c || in_range 97 102 c || in_range 65 70 c.

Definition decodeHex (s : chars) : option chars :=
  if (length s =? 0)%nat || negb (Nat.even (length s)) then None
  else if forallb isHexDigit s then hex_decode s else None.

Definition isExecveArgKey (key : chars) : bool :=
  if (length key <? 2)%nat then false
  else match key with
       | c :: rest => Ascii.eqb c "a" && isDigits rest 1 5
       | [] => false
       end.

Definition isHexEncodedField (typ : RecordType) (key : chars) : bool :=
  if bool_decide (of_chars key ∈ hexStringFields) then true
  else (typ =? TypeExecve) && isExecveArgKey key.

Definition decodeValue (typ : RecordType) (key value : chars) (quoted : bool) : chars :=
  if quoted || negb (isHexEncodedField typ key) then value else default value (decodeHex value).

(** [a<arg>[<fragment>]] *)
Definition parseExecveFragmentKey (key : chars) : option (Z * Z) :=
  if (length key <? 5)%nat then None
  else match key, rev key with
       | c :: _, d :: _ =>
           if negb (Ascii.eqb c "a" && Ascii.eqb d "]") then None
           else
             match cut_at "[" (take (length key - 2) (drop 1 key)) with
             | None => None
             | Some (arg, frag) =>
                 if negb (isDigits arg 1 5 && isDigits frag 1 5) then None
                 else
                   match parse_uint arg, parse_uint frag with
                   | Some a, Some f => if (maxExecveIndex <? a) || (maxExecveIndex <? f) then None else Some (a, f)
                   | _, _ => None
                   end
             end
       | _, _ => None
       end.

(** The value at the start of [s], whether it was quoted, and what follows. *)
Definition scanValue (s : chars) : chars * bool * chars :=
  match s with
  | [] => ([], false, [])
  | c :: s' =>
      if Ascii.eqb c quote || Ascii.eqb c apostrophe then
        match cut_at c s' with
        | None => (s', true, [])
        | Some (value, next) => (value, true, next)
        end
      else let '(value, next) := span (λ c, negb (is_blank c)) s in (value, false, next)
  end.

(** ** Fields *)

Abbreviation fields := (gmap string string).
Abbreviation fragments := (gmap Z (gmap Z string)).

Definition set_if_absent (key : string) (value : string) (f : fields) : fields :=
  match f !! key with Some _ => f | None => <[key := value]> f end.

Definition arg_name (i : Z) : chars := "a"%char :: itoa i.

Definition joinFragments (parts : gmap Z string) : string :=
  of_chars (concat ((λ i, to_chars (default "" (parts !! i))) <$> merge_sort Z.le (elements (dom parts)))).

(** The arguments put together, unless the whole argument was there too. *)
Definition add_argument (p : Z * gmap Z string) (f : fields) : fields :=
  set_if_absent (of_chars (arg_name p.1)) (joinFragments p.2) f.

Definition add_fragments (frags : fragments) (f : fields) : fields := foldr add_argument f (map_to_list frags).

(** One key and the value after it, in the loop of [parseFields]. *)
Definition put_field (typ : RecordType) (nested : bool) (key value : chars) (quoted : bool)
    (f : fields) (frags : fragments) (count : Z) : result parse_error (fields * fragments * Z) :=
  if maxFields <=? Z.of_nat (size f) then Err TooManyFields
  else
    let fragment := if typ =? TypeExecve then parseExecveFragmentKey key else None in
    let decodeKey := match fragment with Some (arg, _) => arg_name arg | None => key end in
    let value := of_chars (decodeValue typ decodeKey value quoted) in
    match fragment, nested with
    | Some (arg, frag), false =>
        if maxFields <=? count then Err TooManyFragments
        else Ok (f, <[arg := <[frag := value]> (default ∅ (frags !! arg))]> frags, count + 1)
    | _, true => Ok (set_if_absent (of_chars key) value f, frags, count)
    | _, false => Ok (<[of_chars key := value]> f, frags, count)
    end.

Fixpoint scan (fuel : nat) (typ : RecordType) (nested : bool) (s : chars) (f : fields) (frags : fragments) (count : Z) :
    result parse_error fields :=
  match fuel with
  | O => Ok (add_fragments frags f)
  | S fuel =>
      match s with
      | [] => Ok (add_fragments frags f)
      | c :: s' =>
          if is_blank c then scan fuel typ nested s' f frags count
          else
            let '(key, rest) := span isKeyByte s in
            match key, rest with
            | _ :: _, "="%char :: rest =>
                let '(value, quoted, next) := scanValue rest in
                let? p := put_field typ nested key value quoted f frags count in
                let '(f, frags, count) := p in
                scan fuel typ nested next f frags count
            | _, _ => scan fuel typ nested (snd (span (λ c, negb (is_blank c)) rest)) f frags count
            end
      end
  end.

Definition parseFields (typ : RecordType) (f : fields) (s : chars) (nested : bool) : result parse_error fields :=
  scan (S (length s)) typ nested s f ∅ 0.

Definition parseSELinuxPrefix (f : fields) (s : chars) : fields :=
  match cut_prefix (to_chars "avc:") s with
  | None => f
  | Some rest =>
      let '(res, rest) := cut_before space (trim_set blanks rest) in
      match res with
      | [] => f
      | _ =>
          let f := set_if_absent "seresult" (of_chars res) f in
          match cut_prefix ["{"%char] (trim_set blanks rest) with
          | None => f
          | Some inner =>
              match cut_at "}" inner with
              | None => f
              | Some (perms, _) => set_if_absent "seperms" (of_chars (join [space] (fields_of perms []))) f
              end
          end
      end
  end.

(** ** Records *)

Definition raw_text (name body : chars) : chars := to_chars "type=" ++ name ++ to_chars " msg=" ++ body.

(** The event id at the start of the body, if there is one, and the rest. *)
Definition event_id (body : chars) : result parse_error (option (chars * time * Z) * chars) :=
  match cut_prefix (to_chars "audit(") body with
  | None => Ok (None, body)
  | Some after =>
      match cut_at ")" after with
      | None => Err TruncatedID
      | Some (id, rest) =>
          match parseEventID id with
          | None => Err BadEventID
          | Some (ts, serial) => Ok (Some (id, ts, serial), default rest (cut_prefix [":"%char] rest))
          end
      end
  end.

(** The fields of the body: the outer ones, then those in [msg='...']. *)
Definition outer_fields (typ : RecordType) (rest : chars) : result parse_error fields :=
  let rest := trim_set blanks rest in
  parseFields typ (parseSELinuxPrefix ∅ rest) rest false.

Definition nested_fields (typ : RecordType) (f : fields) : result parse_error fields :=
  match f !! "msg" with
  | Some nested =>
      if contains "=" nested
      then parseFields typ (parseSELinuxPrefix f (to_chars nested)) (to_chars nested) true
      else Ok f
  | None => Ok f
  end.

Definition parse (typ : RecordType) (name body : chars) (received : time) : result parse_error AuditRecord :=
  if maxRecordLength <? Z.of_nat (length body) then Err TooLong
  else
    let? p := event_id body in
    let '(id, rest) := p in
    let? outer := outer_fields typ rest in
    let? f := nested_fields typ outer in
    let raw := of_chars (raw_text name body) in
    Ok match id with
       | Some (id, ts, serial) => mkRecord typ (of_chars name) ts serial (of_chars id) f raw
       | None => mkRecord typ (of_chars name) received 0 "" f raw
       end.

Definition ParseRecord (msg : RawMessage) : result parse_error AuditRecord :=
  let body := trimRecord (to_chars (msg_Data msg)) in
  match body with
  | [] => Err EmptyBody
  | _ => parse (msg_Type msg) (to_chars (RecordTypeName (msg_Type msg))) body (msg_Received msg)
  end.

Definition ParseLine (line : string) : result parse_error AuditRecord :=
  let s := trimRecord (to_chars line) in
  match s with
  | [] => Err EmptyRecord
  | _ =>
      let '(typ, name, s) :=
        match cut_prefix (to_chars "type=") s with
        | Some rest =>
            let '(name, s) := cut_before space rest in
            let s := trim_set blanks s in
            (resolveTypeName name, name, default s (cut_prefix (to_chars "msg=") s))
        | None => (0, [], s)
        end in
      match name with
      | [] => if has_prefix (to_chars "audit(") s
              then parse typ (to_chars (RecordTypeName typ)) s zero_time
              else Err NotAudit
      | _ => parse typ name s zero_time
      end
  end.
