(* ===== verification/AuditParserProofs.v ===== *)
(** * The parser of audit records is faithful to the kernel

    What the kernel writes is what comes out, the text of a user program cannot change
    a field of the kernel, a record survives the way through its text, and a record
    cannot make the parser keep more than a bounded number of fields. *)

From S2P Require Import Prelude GoStrings GoText AuditRecords AuditParser.

(** ** The scan *)

Lemma scanValue_length s : (length (snd (scanValue s)) <= length s)%nat.
Proof.
  unfold scanValue. destruct s as [|c s]; [done|]. destruct (_ || _).
  - destruct (cut_at c s) as [[a b]|] eqn:E; simpl; [|lia]. apply cut_at_inv in E as [-> _]. rewrite length_app. simpl. lia.
  - pose proof (span_length (λ c, negb (is_blank c)) (c :: s)). by destruct (span _ _).
Qed.

(** What is left after one round of the scan is shorter. *)
Lemma key_step c s key rest :
  span isKeyByte (c :: s) = (key, rest) → is_blank c = false →
  (length (snd (span (λ c, negb (is_blank c)) rest)) <= length s)%nat ∧
  (key ≠ [] → (length rest <= length s)%nat).
Proof.
  intros E Hb. pose proof (span_app isKeyByte (c :: s)) as H. rewrite E in H. destruct H as [H _].
  apply (f_equal length) in H as Hl. rewrite length_app in Hl. simpl in Hl.
  destruct key as [|k key]; simpl in *; [|split; [|intros _; lia]].
  - subst rest. split; [|done]. pose proof (span_length (λ c, negb (is_blank c)) s) as Hs.
    cbn [span]. rewrite Hb. cbn [negb]. destruct (span (λ c, negb (is_blank c)) s) as [a b]. simpl in *. lia.
  - pose proof (span_length (λ c, negb (is_blank c)) rest). lia.
Qed.

Lemma scan_fuel typ nested : ∀ n1 n2 s f frags k,
  (length s < n1)%nat → (length s < n2)%nat → scan n1 typ nested s f frags k = scan n2 typ nested s f frags k.
Proof.
  induction n1 as [|n1 IH]; intros n2 s f frags k H1 H2; [lia|]. destruct n2 as [|n2]; [lia|]. cbn [scan].
  destruct s as [|c s]; [done|]. simpl in H1, H2. destruct (is_blank c) eqn:Eb; [apply IH; lia|].
  destruct (span isKeyByte (c :: s)) as [key rest] eqn:Es. destruct (key_step _ _ _ _ Es Eb) as [Hskip Hkey].
  assert (Hs : scan n1 typ nested (snd (span (λ c, negb (is_blank c)) rest)) f frags k =
               scan n2 typ nested (snd (span (λ c, negb (is_blank c)) rest)) f frags k) by (apply IH; lia).
  destruct key as [|x key]; [exact Hs|]. destruct rest as [|e rest]; [exact Hs|]. specialize (Hkey ltac:(done)).
  assert (Hv : ∀ p, res_bind p (λ '(f, frags, k), scan n1 typ nested (snd (scanValue rest)) f frags k) =
               res_bind p (λ '(f, frags, k), scan n2 typ nested (snd (scanValue rest)) f frags k)).
  { intros [[[f' fr'] k']|]; simpl; [|done]. pose proof (scanValue_length rest). simpl in Hkey. apply IH; lia. }
  destruct (scanValue rest) as [[v q] next]. destruct e as [[] [] [] [] [] [] [] []]; first [exact Hs|apply Hv].
Qed.

(** ** What nested fields may do *)

Lemma set_if_absent_extends key v (f : fields) : f ⊆ set_if_absent key v f.
Proof. unfold set_if_absent. destruct (f !! key) eqn:E; [done|]. by apply insert_subseteq. Qed.

Lemma add_fragments_extends frags f : f ⊆ add_fragments frags f.
Proof.
  unfold add_fragments. induction (map_to_list frags) as [|p l IH]; simpl; [done|].
  etrans; [exact IH|]. apply set_if_absent_extends.
Qed.

Lemma selinux_extends f s : f ⊆ parseSELinuxPrefix f s.
Proof.
  unfold parseSELinuxPrefix. destruct (cut_prefix _ s); [|done]. destruct (cut_before _ _) as [[|c res] rest]; [done|].
  destruct (cut_prefix _ _); [|apply set_if_absent_extends]. destruct (cut_at _ _) as [[]|]; [|apply set_if_absent_extends].
  etrans; apply set_if_absent_extends.
Qed.

(** One key and value of a nested text: only a key that is not there yet is added. *)
Lemma put_nested_extends typ key v q f frags k f' frags' k' :
  put_field typ true key v q f frags k = Ok (f', frags', k') → f ⊆ f'.
Proof.
  unfold put_field. destruct (_ <=? _); [done|]. destruct (if typ =? TypeExecve then parseExecveFragmentKey key else None) as [[a b]|]; intros [= <- _ _]; apply set_if_absent_extends.
Qed.

Lemma scan_nested_extends typ n : ∀ s f frags k f', scan n typ true s f frags k = Ok f' → f ⊆ f'.
Proof.
  induction n as [|n IH]; intros s f frags k f'; cbn [scan].
  - intros [= <-]. apply add_fragments_extends.
  - destruct s as [|c s]; [intros [= <-]; apply add_fragments_extends|].
    destruct (is_blank c); [apply IH|]. destruct (span isKeyByte (c :: s)) as [[|x key] rest]; [apply IH|].
    destruct rest as [|e rest]; [apply IH|]. destruct (scanValue rest) as [[v q] next].
    destruct e as [[] [] [] [] [] [] [] []]; try apply IH.
    rewrite res_bind_ok. intros ([[f1 fr1] k1] & Hp & H). apply put_nested_extends in Hp. etrans; [exact Hp|]. by eapply IH.
Qed.

Lemma nested_extends typ f f' : nested_fields typ f = Ok f' → f ⊆ f'.
Proof.
  unfold nested_fields. destruct (f !! "msg") as [m|]; [|by intros [= ->]]. destruct (contains _ m); [|by intros [= ->]].
  intros H%scan_nested_extends. etrans; [apply selinux_extends|exact H].
Qed.

(** ** Fields as they are written *)

Inductive style : Type := Bare | Quoted | Wrapped.

Record item : Type := mkItem { it_key : chars; it_style : style; it_text : chars }.

Definition show_value (st : style) (v : chars) : chars :=
  match st with Bare => v | Quoted => quote :: v ++ [quote] | Wrapped => apostrophe :: v ++ [apostrophe] end.

Definition show (it : item) : chars := it_key it ++ "="%char :: show_value (it_style it) (it_text it).

Fixpoint show_all (l : list item) : chars :=
  match l with
  | [] => []
  | [it] => show it
  | it :: l => show it ++ space :: show_all l
  end.

Definition is_quoted (st : style) : bool := match st with Bare => false | _ => true end.

Definition text_ok (st : style) (v : chars) : Prop :=
  match st with
  | Bare => Forall (λ c, is_blank c = false) v ∧ match v with [] => True | c :: _ => c ≠ quote ∧ c ≠ apostrophe end
  | Quoted => quote ∉ v
  | Wrapped => apostrophe ∉ v
  end.

Definition key_ok (key : chars) : Prop := key ≠ [] ∧ Forall (λ c, isKeyByte c = true) key.

Definition item_ok (it : item) : Prop := key_ok (it_key it) ∧ text_ok (it_style it) (it_text it).

(** The end of the text, or a blank. *)
Definition at_end (s : chars) : Prop := match s with [] => True | c :: _ => is_blank c = true end.

Lemma key_not_blank c : isKeyByte c = true → is_blank c = false.
Proof.
  intros H. unfold is_blank. apply bool_decide_eq_false. intros Hc.
  assert (Hn : c = space ∨ c = tab) by (unfold blanks in Hc; set_solver). destruct Hn as [-> | ->]; by vm_compute in H.
Qed.

Lemma scanValue_shown st v rest :
  text_ok st v → at_end rest → scanValue (show_value st v ++ rest) = (v, is_quoted st, rest).
Proof.
  intros Hv Hr. destruct st; simpl in Hv; cbn [show_value is_quoted].
  - destruct Hv as [Hb Hq]. destruct v as [|c v]; cbn [app].
    + destruct rest as [|c rest]; [done|]. assert (Hc : c = space ∨ c = tab).
      { unfold at_end, is_blank in Hr. apply bool_decide_eq_true in Hr. unfold blanks in Hr. set_solver. }
      unfold scanValue. cbn [span]. rewrite Hr. by destruct Hc as [-> | ->].
    + destruct Hq as [Hq1 Hq2]. destruct (Ascii.eqb_spec c quote); [done|]. destruct (Ascii.eqb_spec c apostrophe); [done|].
      pose proof (λ H, span_all (λ c, negb (is_blank c)) (c :: v) rest H) as Hspan. cbn [app] in Hspan.
      unfold scanValue. rewrite (proj2 (Ascii.eqb_neq _ _) n), (proj2 (Ascii.eqb_neq _ _) n0). cbn [orb]. rewrite Hspan; [done| |by destruct rest; simpl in *; [|rewrite Hr]].
      rewrite Forall_forall in *. intros x Hx. by rewrite Hb.
  - simpl. rewrite <- app_assoc. simpl. by rewrite cut_at_app.
  - simpl. rewrite <- app_assoc. simpl. by rewrite cut_at_app.
Qed.

Lemma scan_item typ nested n it rest f frags k :
  item_ok it → at_end rest →
  scan (S n) typ nested (show it ++ rest) f frags k =
  res_bind (put_field typ nested (it_key it) (it_text it) (is_quoted (it_style it)) f frags k)
    (λ '(f, frags, k), scan n typ nested rest f frags k).
Proof.
  intros [[Hne Hk] Hv] Hr. unfold show. rewrite <- app_assoc. destruct (it_key it) as [|c key] eqn:E; [done|]. cbn [app scan].
  pose proof Hk as Hk0. apply Forall_inv in Hk0. rewrite (key_not_blank c Hk0).
  pose proof (span_all isKeyByte (c :: key) ("="%char :: show_value (it_style it) (it_text it) ++ rest) Hk eq_refl) as Es.
  cbn [app] in Es. rewrite Es. by rewrite scanValue_shown.
Qed.

Lemma scan_space typ nested n s f frags k : scan (S n) typ nested (space :: s) f frags k = scan n typ nested s f frags k.
Proof. reflexivity. Qed.

(** The fragment that a key names, if any. *)
Definition fragment_of (typ : RecordType) (key : chars) : option (Z * Z) :=
  if typ =? TypeExecve then parseExecveFragmentKey key else None.

Definition stored (typ : RecordType) (it : item) : string :=
  of_chars (decodeValue typ (match fragment_of typ (it_key it) with Some (arg, _) => arg_name arg | None => it_key it end)
              (it_text it) (is_quoted (it_style it))).

(** What the scan makes of an item. *)
Definition store (typ : RecordType) (p : fields * fragments) (it : item) : fields * fragments :=
  match fragment_of typ (it_key it) with
  | Some (arg, frag) => (p.1, <[arg := <[frag := stored typ it]> (default ∅ (p.2 !! arg))]> p.2)
  | None => (<[of_chars (it_key it) := stored typ it]> p.1, p.2)
  end.

Lemma put_store typ it f frags k :
  Z.of_nat (size f) < maxFields → k < maxFields →
  ∃ k', put_field typ false (it_key it) (it_text it) (is_quoted (it_style it)) f frags k =
        Ok (store typ (f, frags) it, k') ∧ k' <= k + 1.
Proof.
  intros Hf Hk. unfold put_field, store, stored, fragment_of. destruct (Z.leb_spec maxFields (Z.of_nat (size f))); [lia|].
  destruct (if typ =? TypeExecve then _ else None) as [[a b]|]; simpl.
  - destruct (Z.leb_spec maxFields k); [lia|]. eexists. split; [done|lia].
  - eexists. split; [done|lia].
Qed.

Lemma store_size typ p it : (size (store typ p it).1 <= S (size p.1))%nat.
Proof.
  unfold store. destruct (fragment_of typ (it_key it)) as [[a b]|]; simpl; [lia|].
  rewrite map_size_insert. destruct (p.1 !! of_chars (it_key it)); simpl; lia.
Qed.

Lemma show_length it : (0 < length (show it))%nat.
Proof. unfold show. rewrite length_app. simpl. lia. Qed.

Lemma show_all_cons it l : l ≠ [] → show_all (it :: l) = show it ++ space :: show_all l.
Proof. by destruct l. Qed.

Lemma scan_all typ l : ∀ n f frags k,
  (length (show_all l) < n)%nat → Forall item_ok l →
  Z.of_nat (size f) + Z.of_nat (length l) <= maxFields → k + Z.of_nat (length l) <= maxFields →
  scan n typ false (show_all l) f frags k =
  Ok (let p := foldl (store typ) (f, frags) l in add_fragments p.2 p.1).
Proof.
  induction l as [|it l IH]; intros n f frags k Hn Hl Hf Hk.
  { destruct n; [simpl in Hn; lia|]. done. }
  inversion Hl as [|? ? Hit Hl']; subst. cbn [length] in *. pose proof (show_length it).
  destruct (put_store typ it f frags k ltac:(lia) ltac:(lia)) as (k' & Hp & Hk').
  pose proof (store_size typ (f, frags) it) as Hsz. simpl in Hsz.
  assert (Hrest : ∀ m, (length (show_all l) < m)%nat →
    scan m typ false (show_all l) (store typ (f, frags) it).1 (store typ (f, frags) it).2 k' =
    Ok (let p := foldl (store typ) (f, frags) (it :: l) in add_fragments p.2 p.1)).
  { intros m Hm. rewrite (IH m) by (done || lia). cbn [foldl]. by rewrite <- surjective_pairing. }
  destruct (decide (l = [])) as [->|Hne].
  - destruct n as [|n]; [lia|]. cbn [show_all] in *. rewrite <- (app_nil_r (show it)), (scan_item typ false n it []) by done.
    rewrite Hp. simpl. rewrite (surjective_pairing (store typ (f, frags) it)). apply (Hrest n). simpl. lia.
  - rewrite show_all_cons in Hn |- * by done. rewrite length_app in Hn. cbn [length] in Hn. destruct n as [|n]; [lia|].
    rewrite scan_item by done. rewrite Hp. cbn [res_bind]. rewrite (surjective_pairing (store typ (f, frags) it)).
    destruct n as [|n]; [lia|]. rewrite scan_space. apply Hrest. lia.
Qed.

(** ** The encoding of the kernel

    [audit_log_untrustedstring] of the kernel, as the comments of the parser describe it:
    a text is quoted, or written in hexadecimal when it has a quote, a space or a byte
    that is not printable. *)

Definition hex_digit (z : Z) : ascii := char_of (if z <? 10 then 48 + z else 55 + z).
Definition hex_of (c : ascii) : chars := [hex_digit (code c / 16); hex_digit (code c mod 16)].
Definition hex_encode (v : chars) : chars := concat (hex_of <$> v).

Definition needs_hex (c : ascii) : bool := (code c =? 34) || (code c <? 33) || (126 <? code c).

(** A field of a record: text that a process may have chosen, or a word of the kernel. *)
Inductive kernel_field : Type :=
| Text (key v : chars)
| Word (key v : chars).

Definition kf_key (k : kernel_field) : chars := match k with Text key _ | Word key _ => key end.
Definition kf_value (k : kernel_field) : chars := match k with Text _ v | Word _ v => v end.

Definition kernel_item (k : kernel_field) : item :=
  match k with
  | Text key v => if existsb needs_hex v then mkItem key Bare (hex_encode v) else mkItem key Quoted v
  | Word key v => mkItem key Bare v
  end.

(** All 256 characters. *)
Definition all_chars : chars := (λ n, ascii_of_nat n) <$> seq 0 256.

Lemma char_in_all c : c ∈ all_chars.
Proof.
  apply list_elem_of_fmap. exists (nat_of_ascii c). split; [by rewrite ascii_nat_embedding|].
  apply elem_of_seq. pose proof (nat_ascii_bounded c). lia.
Qed.

Lemma for_all_chars (P : ascii → bool) : forallb P all_chars = true → ∀ c, P c = true.
Proof. intros H c. rewrite forallb_forall in H. apply H, list_elem_of_In, char_in_all. Qed.

Lemma hex_digit_roundtrip c :
  (hex_value (hex_digit (code c / 16)), hex_value (hex_digit (code c mod 16)), char_of (code c / 16 * 16 + code c mod 16)) =
  (Some (code c / 16), Some (code c mod 16), c).
Proof.
  pose proof (for_all_chars (λ c, bool_decide
    ((hex_value (hex_digit (code c / 16)), hex_value (hex_digit (code c mod 16)), char_of (code c / 16 * 16 + code c mod 16)) =
     (Some (code c / 16), Some (code c mod 16), c)))) as H.
  specialize (H ltac:(vm_compute; reflexivity) c). by apply bool_decide_eq_true in H.
Qed.

Lemma hex_decode_encode v : hex_decode (hex_encode v) = Some v.
Proof.
  induction v as [|c v IH]; [done|]. change (hex_encode (c :: v)) with (hex_of c ++ hex_encode v).
  injection (hex_digit_roundtrip c) as H1 H2 H3. cbn [hex_of app hex_decode]. by rewrite H1, H2, IH, H3.
Qed.

Lemma hex_encode_length v : length (hex_encode v) = (2 * length v)%nat.
Proof.
  induction v as [|c v IH]; [done|]. change (hex_encode (c :: v)) with (hex_of c ++ hex_encode v).
  rewrite length_app, IH. simpl. lia.
Qed.

Lemma hex_encode_digits v : Forall (λ c, isHexDigit c = true ∧ is_blank c = false ∧ c ≠ quote ∧ c ≠ apostrophe ∧ c ∉ record_frame) (hex_encode v).
Proof.
  set (good := λ c, isHexDigit c && negb (is_blank c) && negb (Ascii.eqb c quote) && negb (Ascii.eqb c apostrophe) && negb (bool_decide (c ∈ record_frame))).
  assert (Hg : ∀ c, good (hex_digit (code c / 16)) && good (hex_digit (code c mod 16)) = true).
  { apply for_all_chars. vm_compute. reflexivity. }
  assert (Hgood : Forall (λ c, good c = true) (hex_encode v)).
  { induction v as [|c v IH]; [constructor|]. specialize (Hg c). apply andb_true_iff in Hg as [H1 H2].
    change (hex_encode (c :: v)) with (hex_of c ++ hex_encode v). by repeat constructor. }
  eapply Forall_impl; [exact Hgood|]. intros c Hc. unfold good in Hc. rewrite !andb_true_iff, !negb_true_iff in Hc.
  destruct Hc as ((((H1 & H2) & H3) & H4) & H5). apply Ascii.eqb_neq in H3, H4. apply bool_decide_eq_false in H5. done.
Qed.

Lemma decodeHex_encode v : v ≠ [] → decodeHex (hex_encode v) = Some v.
Proof.
  intros Hv. unfold decodeHex. rewrite hex_encode_length. destruct v as [|c v]; [done|].
  rewrite (proj2 (Nat.eqb_neq _ _)) by (simpl; lia). replace (Nat.even (2 * length (c :: v))) with true.
  2: { symmetry. apply Nat.even_spec. by exists (length (c :: v)). }
  cbn [negb orb]. replace (forallb isHexDigit (hex_encode (c :: v))) with true; [apply hex_decode_encode|].
  symmetry. apply forallb_forall. intros x Hx%list_elem_of_In. pose proof (hex_encode_digits (c :: v)) as H.
  rewrite Forall_forall in H. by apply H.
Qed.

(** What the kernel may put into a record of type [typ]. *)
Definition field_ok (typ : RecordType) (k : kernel_field) : Prop :=
  key_ok (kf_key k) ∧ fragment_of typ (kf_key k) = None ∧ of_chars (kf_key k) ≠ "msg" ∧
  match k with
  | Text key v => isHexEncodedField typ key = true
  | Word key v => isHexEncodedField typ key = false ∧ text_ok Bare v ∧ Forall (λ c, c ∉ record_frame) v
  end.

Lemma kernel_item_key k : it_key (kernel_item k) = kf_key k.
Proof. destruct k as [key v|]; simpl; [by destruct (existsb _ _)|done]. Qed.

Lemma kernel_text_ok key v : text_ok (it_style (kernel_item (Text key v))) (it_text (kernel_item (Text key v))).
Proof.
  simpl. destruct (existsb needs_hex v) eqn:E; simpl.
  - pose proof (hex_encode_digits v) as H. split; [eapply Forall_impl; [exact H|by intros x (_ & Hx & _)]|].
    destruct (hex_encode v); [done|]. apply Forall_inv in H as (_ & _ & ? & ? & _). done.
  - intros Hq. assert (existsb needs_hex v = true); [|congruence]. apply existsb_exists. exists quote.
    split; [by apply list_elem_of_In|done].
Qed.

Lemma kernel_item_ok typ k : field_ok typ k → item_ok (kernel_item k).
Proof.
  intros (H1 & _ & _ & H4). split; [by rewrite kernel_item_key|].
  destruct k as [key v|key v]; [apply kernel_text_ok|by destruct H4 as (_ & ? & _)].
Qed.

(** The text of the kernel, decoded as a text. *)
Lemma kernel_text_decoded typ key v :
  isHexEncodedField typ key = true →
  decodeValue typ key (it_text (kernel_item (Text key v))) (is_quoted (it_style (kernel_item (Text key v)))) = v.
Proof.
  intros Hk. unfold decodeValue. simpl. destruct (existsb needs_hex v) eqn:E; [|done]. simpl. rewrite Hk. simpl.
  rewrite decodeHex_encode; [done|]. by intros ->.
Qed.

Lemma kernel_item_stored typ k : field_ok typ k → stored typ (kernel_item k) = of_chars (kf_value k).
Proof.
  intros (_ & H2 & _ & H4). unfold stored. rewrite kernel_item_key, H2. f_equal.
  destruct k as [key v|key v]; [by apply kernel_text_decoded|]. destruct H4 as (H4 & _). unfold decodeValue. simpl. by rewrite H4.
Qed.

(** The fields of the kernel come out as they went in. *)
Definition field_map (l : list kernel_field) : fields :=
  list_to_map ((λ k, (of_chars (kf_key k), of_chars (kf_value k))) <$> l).

Lemma foldl_store typ l : ∀ f : fields,
  Forall (field_ok typ) l → NoDup (of_chars ∘ kf_key <$> l) → (∀ k, k ∈ l → f !! of_chars (kf_key k) = None) →
  foldl (store typ) (f, ∅) (kernel_item <$> l) = (field_map l ∪ f, ∅).
Proof.
  unfold field_map. induction l as [|k l IH]; intros f Hl Hnd Hf; simpl.
  - by rewrite map_empty_union.
  - inversion Hl as [|? ? Hk Hl']; subst. inversion Hnd as [|? ? Hnin Hnd']; subst.
    unfold store at 2. rewrite kernel_item_key. pose proof Hk as (_ & H2 & _). rewrite H2, (kernel_item_stored typ k Hk). simpl.
    rewrite IH; [|done|done|].
    + f_equal. rewrite <- insert_union_l. symmetry. apply insert_union_r. apply not_elem_of_list_to_map. intros Hc. apply Hnin.
      rewrite <- list_fmap_compose in Hc. exact Hc.
    + intros k' Hk'. rewrite lookup_insert_ne; [apply Hf; set_solver|]. intros E. apply Hnin.
      apply list_elem_of_fmap. by exists k'.
Qed.

(** ** Event ids *)

Definition id_text (sec msec serial : Z) : chars := itoa sec ++ "."%char :: digits 3 msec ++ ":"%char :: itoa serial.

Definition id_ok (sec msec serial : Z) : Prop := 0 <= sec < 2 ^ 63 ∧ 0 <= msec < 1000 ∧ is_u64 serial.

Lemma isDigits_digits n z (lo hi : Z) : lo <= Z.of_nat n <= hi → isDigits (digits n z) lo hi = true.
Proof.
  intros Hn. unfold isDigits. rewrite digits_length. destruct (Z.ltb_spec (Z.of_nat n) lo); [lia|].
  destruct (Z.ltb_spec hi (Z.of_nat n)); [lia|]. simpl. apply forallb_forall. intros c Hc%list_elem_of_In. by eapply digits_range.
Qed.

Lemma isDigits_itoa n (hi : Z) z : 0 <= z < 10 ^ Z.of_nat n → (1 <= n)%nat → hi = Z.of_nat n → isDigits (itoa z) 1 hi = true.
Proof.
  intros Hz Hn ->. apply isDigits_digits. pose proof (width_short n z Hz Hn). split; [|lia].
  assert (1 <= width 19 z)%nat; [|lia]. generalize 19%nat as m. induction m as [|m IH]; cbn [width]; [lia|]. destruct (_ <? _); lia.
Qed.

Lemma parse_below_some bound l z : parse_uint l = Some z → z < bound → parse_below bound l = Some z.
Proof. intros H Hz. unfold parse_below. rewrite H. by destruct (Z.ltb_spec z bound); [|lia]. Qed.

Lemma parseEventID_text sec msec serial :
  id_ok sec msec serial → parseEventID (id_text sec msec serial) = Some (Unix sec (msec * 1000000), serial).
Proof.
  intros (Hs & Hm & Hn). unfold parseEventID, id_text. unfold itoa at 1. rewrite cut_at_app by (by apply not_in_digits).
  rewrite cut_at_app by (by apply not_in_digits). fold (itoa sec).
  assert (Hu : is_u64 sec ∧ is_u64 msec) by (unfold is_u64, u64_mod; lia). destruct Hu.
  rewrite (isDigits_itoa 19 19 sec), (isDigits_digits 3 msec), (isDigits_itoa 20 20 serial) by (unfold is_u64, u64_mod in *; simpl; lia).
  rewrite (parse_below_some _ _ sec), (parse_below_some _ _ msec), parse_itoa; try done; try lia.
  - apply parse_digits; [lia|simpl; lia|done].
  - by apply parse_itoa.
Qed.

Lemma id_text_no_paren sec msec serial : ")"%char ∉ id_text sec msec serial.
Proof.
  unfold id_text, itoa. pose proof (not_in_digits ")" (width 19 sec) sec eq_refl). pose proof (not_in_digits ")" 3 msec eq_refl).
  pose proof (not_in_digits ")" (width 19 serial) serial eq_refl). rewrite not_elem_of_app, not_elem_of_cons, not_elem_of_app, not_elem_of_cons.
  split_and!; done.
Qed.

(** ** A record of the kernel *)

Definition record_body (sec msec serial : Z) (l : list item) : chars :=
  to_chars "audit(" ++ id_text sec msec serial ++ ")"%char :: ":"%char :: space :: show_all l.

Definition kernel_body (sec msec serial : Z) (l : list kernel_field) : chars :=
  record_body sec msec serial (kernel_item <$> l).

Lemma event_id_body sec msec serial l :
  id_ok sec msec serial →
  event_id (record_body sec msec serial l) =
  Ok (Some (id_text sec msec serial, Unix sec (msec * 1000000), serial), space :: show_all l).
Proof.
  intros Hid. unfold event_id, record_body. rewrite cut_prefix_app, cut_at_app by apply id_text_no_paren.
  rewrite parseEventID_text by done. done.
Qed.

Lemma show_all_head l : l ≠ [] → Forall item_ok l → ∃ c s, show_all l = c :: s ∧ isKeyByte c = true ∧ cut_prefix (to_chars "avc:") (show_all l) = None.
Proof.
  intros Hne Hl. destruct l as [|it l]; [done|]. apply Forall_inv in Hl as [[Hk Hkb] _].
  assert (Hs : ∃ t, show_all (it :: l) = it_key it ++ "="%char :: t).
  { destruct (decide (l = [])) as [->|Hn]; [by eexists|]. rewrite show_all_cons by done. unfold show. rewrite <- app_assoc. by eexists. }
  destruct Hs as [t ->]. destruct (it_key it) as [|c key]; [done|]. exists c, (key ++ "="%char :: t). split_and!; [done|by apply Forall_inv in Hkb|].
  unfold cut_prefix. destruct (has_prefix _ _) eqn:E; [|done]. exfalso. apply has_prefix_spec in E as [r E]. simpl in E.
  destruct key as [|c2 [|c3 [|c4 key]]]; simplify_eq/=.
  inversion Hkb as [|? ? _ H2]; subst. inversion H2 as [|? ? _ H3]; subst. inversion H3 as [|? ? _ H4]; subst. by inversion H4.
Qed.

Lemma outer_fields_items typ l :
  l ≠ [] → Forall item_ok l → Z.of_nat (length l) <= maxFields →
  outer_fields typ (space :: show_all l) = Ok (let p := foldl (store typ) (∅, ∅) l in add_fragments p.2 p.1).
Proof.
  intros Hne Hok Hlen. unfold outer_fields. destruct (show_all_head l) as (c & s & Es & Hc & Havc); [done|done|].
  replace (trim_set blanks (space :: show_all l)) with (show_all l).
  2: { rewrite Es. unfold trim_set. cbn [span]. apply key_not_blank in Hc. unfold is_blank in Hc. rewrite Hc. done. }
  unfold parseSELinuxPrefix. rewrite Havc. unfold parseFields. apply scan_all; [lia|done|rewrite map_size_empty; lia|lia].
Qed.

Lemma kernel_items_ok typ l : Forall (field_ok typ) l → Forall item_ok (kernel_item <$> l).
Proof. intros Hl. apply Forall_fmap. eapply Forall_impl; [exact Hl|]. intros k. apply kernel_item_ok. Qed.

Lemma outer_fields_kernel typ l :
  l ≠ [] → Forall (field_ok typ) l → NoDup (of_chars ∘ kf_key <$> l) → Z.of_nat (length l) <= maxFields →
  outer_fields typ (space :: show_all (kernel_item <$> l)) = Ok (field_map l).
Proof.
  intros Hne Hl Hnd Hlen. rewrite outer_fields_items; [|by destruct l|by eapply kernel_items_ok|by rewrite length_fmap].
  rewrite (foldl_store typ l ∅) by done. simpl. by rewrite map_union_empty.
Qed.

(** No character at which a record is trimmed is in a field. *)
Definition unframed (c : ascii) : Prop := c ∉ record_frame.

Lemma unframed_check (P : ascii → bool) :
  forallb (λ c, negb (P c) || negb (bool_decide (c ∈ record_frame))) all_chars = true → ∀ c, P c = true → unframed c.
Proof.
  intros H c Hc. pose proof (for_all_chars _ H c) as H'. simpl in H'. rewrite Hc in H'. simpl in H'.
  by apply negb_true_iff, bool_decide_eq_false in H'.
Qed.

Lemma show_unframed typ k : field_ok typ k → Forall unframed (show (kernel_item k)).
Proof.
  intros Hk. pose proof Hk as ([_ Hkey] & _ & _ & H4). unfold show. rewrite kernel_item_key. apply Forall_app_2.
  { eapply Forall_impl; [exact Hkey|]. apply unframed_check. vm_compute. reflexivity. }
  constructor; [by apply (unframed_check (λ c, Ascii.eqb c "=")); [vm_compute|]|].
  destruct k as [key v|key v]; simpl in *; [|by destruct H4 as (_ & _ & ?)].
  destruct (existsb needs_hex v) eqn:E; simpl.
  - eapply Forall_impl; [apply hex_encode_digits|]. by intros c (_ & _ & _ & _ & Hc).
  - assert (Hq : unframed quote) by (by apply (unframed_check (λ c, Ascii.eqb c quote)); [vm_compute|]).
    constructor; [done|]. apply Forall_app_2; [|by repeat constructor]. apply Forall_forall. intros c Hc.
    apply (unframed_check (λ c, negb (needs_hex c))); [vm_compute; reflexivity|]. apply negb_true_iff.
    destruct (needs_hex c) eqn:Ec; [|done]. assert (existsb needs_hex v = true); [|congruence].
    apply existsb_exists. exists c. split; [by apply list_elem_of_In|done].
Qed.

(** The last character of the fields is that of the last field. *)
Lemma last_shown l it : ∃ a, show_all (l ++ [it]) = a ++ show it.
Proof.
  induction l as [|k l [a IH]]; [by exists []|]. cbn [app]. rewrite show_all_cons by (by destruct l). rewrite IH.
  exists (show k ++ space :: a). by rewrite <- app_assoc.
Qed.

Lemma body_trimmed sec msec serial l it a c :
  show it = a ++ [c] → unframed c → trimRecord (record_body sec msec serial (l ++ [it])) = record_body sec msec serial (l ++ [it]).
Proof.
  intros Hs Hc. apply trim_both_id.
  - simpl. vm_compute. intros H. repeat (inversion H; subst; clear H; rename select (_ ∈ _) into H).
  - assert (Hb : ∃ a, record_body sec msec serial (l ++ [it]) = a ++ [c]).
    { destruct (last_shown l it) as [a2 Ha]. unfold record_body. rewrite Ha, Hs.
      exists (to_chars "audit(" ++ id_text sec msec serial ++ [")"; ":"; space]%char ++ a2 ++ a). by rewrite <- !app_assoc. }
    destruct Hb as [a2 ->]. by rewrite rev_app_distr.
Qed.

Lemma kernel_body_trimmed typ sec msec serial l :
  l ≠ [] → Forall (field_ok typ) l → trimRecord (kernel_body sec msec serial l) = kernel_body sec msec serial l.
Proof.
  intros Hne Hl. destruct (exists_last Hne) as (l' & k & ->). unfold kernel_body. rewrite fmap_app. cbn [fmap list_fmap].
  apply Forall_app in Hl as [_ Hk%Forall_inv]. pose proof (show_unframed typ k Hk) as Hu. pose proof (show_length (kernel_item k)) as Hs.
  destruct (exists_last (l := show (kernel_item k))) as (a & c & E); [intros E; rewrite E in Hs; simpl in Hs; lia|].
  apply (body_trimmed _ _ _ _ _ a c E). rewrite E in Hu. apply Forall_app in Hu as [_ Hc%Forall_inv]. done.
Qed.

Lemma kernel_parse typ sec msec serial l received :
  id_ok sec msec serial → l ≠ [] → Forall (field_ok typ) l → NoDup (of_chars ∘ kf_key <$> l) →
  Z.of_nat (length l) <= maxFields → Z.of_nat (length (kernel_body sec msec serial l)) <= maxRecordLength →
  parse typ (to_chars (RecordTypeName typ)) (kernel_body sec msec serial l) received =
  Ok (mkRecord typ (RecordTypeName typ) (Unix sec (msec * 1000000)) serial (of_chars (id_text sec msec serial)) (field_map l)
        (of_chars (raw_text (to_chars (RecordTypeName typ)) (kernel_body sec msec serial l)))).
Proof.
  intros Hid Hne Hl Hnd Hlen Hmax. unfold parse. destruct (Z.ltb_spec maxRecordLength (Z.of_nat (length (kernel_body sec msec serial l)))); [lia|].
  unfold kernel_body at 1. rewrite event_id_body by done. cbn [res_bind]. rewrite outer_fields_kernel by done. cbn [res_bind].
  unfold nested_fields. replace (field_map l !! "msg") with (@None string); [by rewrite of_to_chars|].
  symmetry. apply not_elem_of_list_to_map. rewrite <- list_fmap_compose. intros (k & Ek & Hk)%list_elem_of_fmap.
  rewrite Forall_forall in Hl. destruct (Hl k Hk) as (_ & _ & Hmsg & _). by apply Hmsg.
Qed.

Lemma parse_body typ body received :
  trimRecord body = body → body ≠ [] →
  ParseRecord (mkRawMessage typ (of_chars body) received) = parse typ (to_chars (RecordTypeName typ)) body received.
Proof.
  intros Ht Hne. unfold ParseRecord. cbn [msg_Data msg_Type msg_Received]. rewrite to_of_chars, Ht. by destruct body.
Qed.

(** C31: What the kernel writes is what comes out.  For a record with an event id and
    fields whose texts are quoted, or in hexadecimal when they have a quote, a space or
    an unprintable byte, ParseRecord returns the type, the id, the time and the serial
    of the record, exactly the fields with their original bytes, and the text itself. *)
Theorem kernel_record_roundtrip typ sec msec serial l received :
  id_ok sec msec serial → l ≠ [] → Forall (field_ok typ) l → NoDup (of_chars ∘ kf_key <$> l) →
  Z.of_nat (length l) <= maxFields →
  let body := kernel_body sec msec serial l in
  Z.of_nat (length body) <= maxRecordLength →
  ParseRecord (mkRawMessage typ (of_chars body) received) =
  Ok (mkRecord typ (RecordTypeName typ) (Unix sec (msec * 1000000)) serial (of_chars (id_text sec msec serial)) (field_map l)
        (of_chars (raw_text (to_chars (RecordTypeName typ)) body))).
Proof.
  intros Hid Hne Hl Hnd Hlen body Hmax. rewrite parse_body; [by apply kernel_parse|by apply (kernel_body_trimmed typ)|done].
Qed.

(** ** The text of a program *)

(** The fields of a record that parses include those outside [msg='...']. *)
Lemma parse_outer typ name body received r :
  parse typ name body received = Ok r →
  ∃ id rest outer, event_id body = Ok (id, rest) ∧ outer_fields typ rest = Ok outer ∧ outer ⊆ rec_Fields r ∧
    rec_AuditID r = match id with Some (id, _, _) => of_chars id | None => "" end.
Proof.
  unfold parse. destruct (_ <? _); [done|]. rewrite res_bind_ok. intros ([id rest] & Hid & H).
  rewrite res_bind_ok in H. destruct H as (outer & Ho & H). rewrite res_bind_ok in H. destruct H as (f & Hf%nested_extends & H).
  exists id, rest, outer. split_and!; try done; destruct id as [[[i ts] ser]|]; by injection H as <-.
Qed.

(** A record whose last field is [msg='...'], which a user program has composed. *)
Definition user_body (sec msec serial : Z) (l : list kernel_field) (text : chars) : chars :=
  record_body sec msec serial ((kernel_item <$> l) ++ [mkItem (to_chars "msg") Wrapped text]).


(** ** Through the text and back *)

Lemma name_plain name t : recordTypeNames !! t = Some name →
  forallb plain (to_chars name) = true ∧ has_prefix (to_chars "UNKNOWN[") (to_chars name) = false.
Proof.
  intros H%known_name. pose proof names_plain_check as Hc. rewrite forallb_forall in Hc. specialize (Hc _ (proj1 (list_elem_of_In _ _) H)).
  simpl in Hc. by rewrite andb_true_iff, negb_true_iff in Hc.
Qed.

Lemma name_resolves t : 0 <= t < 2 ^ 16 → resolveTypeName (to_chars (RecordTypeName t)) = t.
Proof.
  intros Ht. unfold resolveTypeName, RecordTypeName. rewrite of_to_chars. destruct (recordTypeNames !! t) as [name|] eqn:E.
  { by rewrite (known_by_name t name E). }
  rewrite to_of_chars. set (inner := itoa (t mod 2 ^ 16) ++ to_chars "]"). destruct (RecordTypeByName _) as [t'|] eqn:E'.
  - exfalso. unfold RecordTypeByName, recordTypesByName in E'. apply elem_of_list_to_map_2, list_elem_of_fmap in E' as ([t2 n2] & Heq & H2).
    apply elem_of_map_to_list, name_plain in H2 as [_ H2]. apply (f_equal fst) in Heq. change (of_chars (to_chars "UNKNOWN[" ++ inner) = n2) in Heq.
    rewrite <- Heq, to_of_chars in H2. by rewrite (proj2 (has_prefix_spec _ _)) in H2 by eauto.
  - rewrite cut_prefix_app. rewrite (proj2 (CutSuffix_spec _ _ (of_chars (itoa (t mod 2 ^ 16))))).
    + rewrite to_of_chars, Z.mod_small by done. simpl. rewrite (parse_below_some _ _ t); [done| |lia]. apply parse_itoa. unfold is_u64, u64_mod. lia.
    + apply to_chars_inj. by rewrite to_chars_app, !to_of_chars.
Qed.

Lemma name_no_space t : space ∉ to_chars (RecordTypeName t) ∧ to_chars (RecordTypeName t) ≠ [].
Proof.
  unfold RecordTypeName. destruct (recordTypeNames !! t) as [name|] eqn:E.
  - pose proof (known_name t name E) as Hn. apply name_plain in E as [Hp _]. split.
    + intros Hs. rewrite forallb_forall in Hp. by specialize (Hp space (proj1 (list_elem_of_In _ _) Hs)).
    + assert (Hall : forallb (λ p, negb (String.eqb (snd p) "")) type_names = true) by (vm_compute; reflexivity).
      rewrite forallb_forall in Hall. specialize (Hall _ (proj1 (list_elem_of_In _ _) Hn)). intros He. by destruct name.
  - rewrite to_of_chars. split; [|done]. rewrite !not_elem_of_app. split_and!; [|by apply not_in_digits|].
    + apply (bool_decide_unpack _). vm_compute. exact I.
    + apply (bool_decide_unpack _). vm_compute. exact I.
Qed.

Lemma raw_trimmed name body c s :
  rev body = c :: s → unframed c → trimRecord (raw_text name body) = raw_text name body.
Proof.
  intros Hr Hc. apply trim_both_id; [apply (bool_decide_unpack (_ ∉ _)); vm_compute; exact I|].
  unfold raw_text. rewrite !rev_app_distr, Hr. done.
Qed.

Lemma parse_received typ name body received r :
  parse typ name body received = Ok r → rec_AuditID r ≠ "" → parse typ name body zero_time = Ok r.
Proof.
  unfold parse. destruct (_ <? _); [done|]. destruct (event_id body) as [[[[[i ts] ser]|] rest]|]; simpl; [done| |done].
  destruct (outer_fields typ rest) as [o|]; [|done]. simpl. destruct (nested_fields typ o); [|done]. simpl. by intros [= <-].
Qed.

Lemma line_of_raw name body c s :
  rev body = c :: s → unframed c → space ∉ name → name ≠ [] →
  ParseLine (of_chars (raw_text name body)) = parse (resolveTypeName name) name body zero_time.
Proof.
  intros Hrev Hc Hsp Hne. unfold ParseLine. rewrite to_of_chars, (raw_trimmed name body c s Hrev Hc).
  assert (Hcut : cut_before space (name ++ to_chars " msg=" ++ body) = (name, to_chars "msg=" ++ body)).
  { unfold cut_before. change (to_chars " msg=") with (space :: to_chars "msg="). cbn [app]. by rewrite cut_at_app. }
  assert (Hm : trim_set blanks (to_chars "msg=" ++ body) = to_chars "msg=" ++ body).
  { apply trim_set_id. apply (bool_decide_unpack (_ ∉ _)). vm_compute. exact I. }
  unfold raw_text. rewrite cut_prefix_app, Hcut, Hm, cut_prefix_app. by destruct name.
Qed.

Lemma parse_raw typ name body received r : parse typ name body received = Ok r → rec_Raw r = of_chars (raw_text name body).
Proof.
  unfold parse. destruct (_ <? _); [done|]. rewrite res_bind_ok. intros ([id rest] & _ & H). rewrite res_bind_ok in H.
  destruct H as (o & _ & H). rewrite res_bind_ok in H. destruct H as (f & _ & H). destruct id as [[[i ts] ser]|]; by injection H as <-.
Qed.

(** A record survives the way through its text: the text that ParseRecord preserves
    of a record with an event id, parsed as a line of audit.log, gives the same record,
    its numeric type included, also for types that have no name. *)
Theorem raw_reparses msg r :
  0 <= msg_Type msg < 2 ^ 16 → ParseRecord msg = Ok r → rec_AuditID r ≠ "" → ParseLine (rec_Raw r) = Ok r.
Proof.
  intros Ht Hp Hid. unfold ParseRecord in Hp. set (body := trimRecord (to_chars (msg_Data msg))) in *.
  set (name := to_chars (RecordTypeName (msg_Type msg))) in *.
  destruct (trim_both_ends record_frame (to_chars (msg_Data msg))) as [_ Hend]. fold (trimRecord (to_chars (msg_Data msg))) in Hend. fold body in Hend.
  assert (Hb : ∃ c s, rev body = c :: s ∧ unframed c).
  { destruct (rev body) as [|c s] eqn:E; [|by exists c, s]. apply (f_equal (@rev ascii)) in E. rewrite rev_involutive in E. by rewrite E in Hp. }
  destruct Hb as (c & s & Hrev & Hc).
  assert (Hparse : parse (msg_Type msg) name body (msg_Received msg) = Ok r) by (by destruct body).
  pose proof (parse_raw _ _ _ _ _ Hparse) as Hraw.
  destruct (name_no_space (msg_Type msg)) as [Hsp Hne]. fold name in Hsp, Hne.
  rewrite Hraw, (line_of_raw name body c s) by done. unfold name at 1. rewrite name_resolves by done.
  by eapply parse_received.
Qed.

(** ** Bounds *)

Lemma absent_size key v (f : fields) : (size (set_if_absent key v f) <= S (size f))%nat.
Proof. unfold set_if_absent. destruct (f !! key) eqn:E; [lia|]. rewrite map_size_insert, E. lia. Qed.

Lemma fragments_size frags f : (size (add_fragments frags f) <= size f + size frags)%nat.
Proof.
  unfold add_fragments. rewrite <- (length_map_to_list frags). induction (map_to_list frags) as [|p l IH]; simpl; [lia|].
  pose proof (absent_size (of_chars (arg_name p.1)) (joinFragments p.2) (foldr add_argument f l)). unfold add_argument at 1. lia.
Qed.

Lemma selinux_size f s : (size (parseSELinuxPrefix f s) <= size f + 2)%nat.
Proof.
  unfold parseSELinuxPrefix. destruct (cut_prefix _ s); [|lia]. destruct (cut_before _ _) as [[|c res] rest]; [lia|].
  pose proof (absent_size "seresult" (of_chars (c :: res)) f). destruct (cut_prefix _ _); [|lia]. destruct (cut_at _ _) as [[p q]|]; [|lia].
  etrans; [apply absent_size|]. lia.
Qed.

Lemma put_size typ nested key v q f frags k f' frags' k' :
  put_field typ nested key v q f frags k = Ok (f', frags', k') →
  Z.of_nat (size f') <= Z.max maxFields (Z.of_nat (size f)) ∧
  (Z.of_nat (size frags) <= k <= maxFields → Z.of_nat (size frags') <= k' <= maxFields) ∧ (nested = true → frags' = frags).
Proof.
  unfold put_field. destruct (Z.leb_spec maxFields (Z.of_nat (size f))) as [|Hf]; [done|].
  assert (Ha : ∀ x, (size (set_if_absent (of_chars key) x f) <= S (size f))%nat) by (intros x; apply absent_size).
  assert (Hi : ∀ x, (size (<[of_chars key := x]> f) <= S (size f))%nat)
    by (intros x; rewrite map_size_insert; destruct (f !! of_chars key); simpl; lia).
  match goal with |- context [decodeValue typ ?d v q] => set (w := of_chars (decodeValue typ d v q)) end. specialize (Ha w). specialize (Hi w).
  destruct (if typ =? TypeExecve then _ else _) as [[a b]|], nested; intros H; simplify_eq/=; try (split_and!; [lia|done|done]).
  destruct (Z.leb_spec maxFields k); simplify_eq. split_and!; [lia| |done]. intros Hk. rewrite map_size_insert.
  destruct (frags !! a); simpl; lia.
Qed.

Lemma scan_size typ nested n : ∀ s f frags k f',
  scan n typ nested s f frags k = Ok f' → Z.of_nat (size frags) <= k <= maxFields → (nested = true → frags = ∅) →
  Z.of_nat (size f') <= Z.max maxFields (Z.of_nat (size f)) + (if nested then 0 else maxFields).
Proof.
  assert (Hend : ∀ f frags k, Z.of_nat (size frags) <= k <= maxFields → (nested = true → frags = ∅) →
    Z.of_nat (size (add_fragments frags f)) <= Z.max maxFields (Z.of_nat (size f)) + (if nested then 0 else maxFields)).
  { intros f frags k Hk Hn. pose proof (fragments_size frags f). destruct nested; [rewrite Hn in * by done; rewrite map_size_empty in *|]; lia. }
  induction n as [|n IH]; intros s f frags k f'; cbn [scan].
  - intros [= <-]. apply Hend.
  - destruct s as [|c s]; [intros [= <-]; apply Hend|]. destruct (is_blank c); [apply IH|].
    destruct (span isKeyByte (c :: s)) as [[|x key] rest]; [apply IH|]. destruct rest as [|e rest]; [apply IH|].
    destruct (scanValue rest) as [[v q] next]. destruct e as [[] [] [] [] [] [] [] []]; try apply IH.
    rewrite res_bind_ok. intros ([[f1 fr1] k1] & Hp & H) Hk Hn. apply put_size in Hp as (P1 & P2 & P3).
    specialize (IH _ _ _ _ _ H (P2 Hk)). assert (nested = true → fr1 = ∅) by (intros ->; rewrite P3 by done; by apply Hn).
    specialize (IH ltac:(done)). lia.
Qed.

(** A record cannot make the parser keep an unbounded number of fields: whatever its
    text, a record that parses has at most twice [maxFields] fields, the parts of split
    arguments included, and the two of an SELinux prefix. *)
Theorem fields_bounded typ name body received r :
  parse typ name body received = Ok r → Z.of_nat (size (rec_Fields r)) <= 2 * maxFields + 2.
Proof.
  assert (Hempty : (size (∅ : fragments) = 0)%nat) by apply map_size_empty.
  unfold parse. destruct (_ <? _); [done|]. rewrite res_bind_ok. intros ([id rest] & _ & H). rewrite res_bind_ok in H.
  destruct H as (o & Ho & H). rewrite res_bind_ok in H. destruct H as (f & Hf & H).
  assert (Hr : rec_Fields r = f) by (destruct id as [[[i ts] ser]|]; by injection H as <-). rewrite Hr. clear H Hr.
  assert (Hout : Z.of_nat (size o) <= 2 * maxFields).
  { unfold outer_fields, parseFields in Ho. apply scan_size in Ho; [|rewrite Hempty; unfold maxFields; lia|done].
    pose proof (selinux_size ∅ (trim_set blanks rest)) as Hs. rewrite map_size_empty in Hs. unfold maxFields in *. lia. }
  unfold nested_fields in Hf. destruct (o !! "msg") as [m|]; [|injection Hf as <-; lia]. destruct (contains "=" m); [|injection Hf as <-; lia].
  unfold parseFields in Hf. apply scan_size in Hf; [|rewrite Hempty; unfold maxFields; lia|done].
  pose proof (selinux_size o (to_chars m)). unfold maxFields in *. lia.
Qed.

(** ** Split arguments *)

Definition fragment_key (arg i : Z) : chars := arg_name arg ++ "["%char :: itoa i ++ ["]"%char].

Definition index_ok (i : Z) : Prop := 0 <= i <= maxExecveIndex.

Lemma index_u64 i : index_ok i → is_u64 i.
Proof. unfold index_ok, maxExecveIndex, is_u64, u64_mod. lia. Qed.

Lemma index_digits i : index_ok i → isDigits (itoa i) 1 5 = true.
Proof. intros Hi. apply (isDigits_itoa 5); [unfold index_ok, maxExecveIndex in Hi; simpl; lia|lia|done]. Qed.

Lemma itoa_length i : (1 <= length (itoa i))%nat.
Proof.
  unfold itoa. rewrite digits_length. generalize 19%nat as m. induction m as [|m IH]; cbn [width]; [lia|]. destruct (_ <? _); lia.
Qed.

Lemma parse_fragment_key arg i : index_ok arg → index_ok i → parseExecveFragmentKey (fragment_key arg i) = Some (arg, i).
Proof.
  intros Ha Hi. unfold parseExecveFragmentKey, fragment_key, arg_name. cbn [app].
  assert (Hrev : rev ("a"%char :: itoa arg ++ "["%char :: itoa i ++ ["]"%char]) = "]"%char :: rev ("a"%char :: itoa arg ++ "["%char :: itoa i)).
  { replace ("a"%char :: itoa arg ++ "["%char :: itoa i ++ ["]"%char]) with (("a"%char :: itoa arg ++ "["%char :: itoa i) ++ ["]"%char])
      by (cbn [app]; by rewrite <- app_assoc). by rewrite rev_app_distr. }
  rewrite Hrev. pose proof (itoa_length arg). pose proof (itoa_length i). set (key := "a"%char :: _) at 1.
  assert (Hlen : length key = (length (itoa arg) + length (itoa i) + 3)%nat).
  { unfold key. cbn [length]. rewrite length_app. cbn [length]. rewrite length_app. simpl. lia. }
  destruct (Nat.ltb_spec (length key) 5) as [|_]; [lia|]. cbn [negb andb Ascii.eqb Bool.eqb].
  replace (length ("a"%char :: itoa arg ++ "["%char :: itoa i ++ ["]"%char]) - 2)%nat with (length (itoa arg ++ "["%char :: itoa i))
    by (fold key; rewrite length_app; cbn [length]; lia).
  replace (drop 1 ("a"%char :: itoa arg ++ "["%char :: itoa i ++ ["]"%char])) with ((itoa arg ++ "["%char :: itoa i) ++ ["]"%char])
    by (cbn [drop]; by rewrite <- app_assoc).
  rewrite take_app_length, cut_at_app by (by apply not_in_digits). rewrite !index_digits, !parse_itoa by (done || by apply index_u64).
  unfold index_ok in *. cbn [negb andb]. destruct (Z.ltb_spec maxExecveIndex arg), (Z.ltb_spec maxExecveIndex i); try lia. done.
Qed.

Definition part_item (arg : Z) (p : Z * chars) : item := kernel_item (Text (fragment_key arg p.1) p.2).

Lemma part_ok arg p : index_ok arg → index_ok p.1 → item_ok (part_item arg p).
Proof.
  intros Ha Hi. assert (Hk : key_ok (fragment_key arg p.1)).
  { split; [done|]. unfold fragment_key, arg_name. assert (Hd : ∀ z, Forall (λ c, isKeyByte c = true) (itoa z)).
    { intros z. apply Forall_forall. intros c Hc%digits_range. unfold isKeyByte. rewrite Hc. by rewrite orb_true_r. }
    repeat first [apply Forall_cons_2; [reflexivity|]|apply Forall_app_2|apply Hd]. apply Forall_nil_2. }
  split; [unfold part_item; by rewrite kernel_item_key|apply kernel_text_ok].
Qed.

Lemma part_stored arg p f frags :
  index_ok arg → index_ok p.1 →
  store TypeExecve (f, frags) (part_item arg p) = (f, <[arg := <[p.1 := of_chars p.2]> (default ∅ (frags !! arg))]> frags).
Proof.
  intros Ha Hi. assert (Hf : fragment_of TypeExecve (it_key (part_item arg p)) = Some (arg, p.1)).
  { unfold part_item. rewrite kernel_item_key. by apply parse_fragment_key. }
  unfold store. rewrite Hf. unfold stored. rewrite Hf. cbn [fst snd]. do 4 f_equal.
  assert (Hhex : isHexEncodedField TypeExecve (arg_name arg) = true).
  { unfold isHexEncodedField. case_bool_decide; [done|]. unfold isExecveArgKey, arg_name. pose proof (itoa_length arg).
    destruct (Nat.ltb_spec (length ("a"%char :: itoa arg)) 2); [simpl in *; lia|]. rewrite index_digits by done. done. }
  rewrite <- (kernel_text_decoded TypeExecve (arg_name arg) p.2 Hhex) at 1. unfold part_item, kernel_item. by destruct (existsb needs_hex p.2).
Qed.

Lemma parts_stored arg ps : ∀ parts : gmap Z string,
  index_ok arg → Forall (λ p, index_ok p.1) ps →
  foldl (store TypeExecve) (∅, {[ arg := parts ]}) (part_item arg <$> ps) =
  (∅, {[ arg := foldl (λ m p, <[p.1 := of_chars p.2]> m) parts ps ]}).
Proof.
  induction ps as [|p ps IH]; intros parts Ha Hps; [done|]. inversion Hps; subst. cbn [fmap list_fmap foldl].
  rewrite part_stored by done. rewrite lookup_singleton_eq, insert_singleton_eq. by apply IH.
Qed.

Lemma foldl_insert_lookup ps : ∀ (m : gmap Z string) i,
  NoDup (fst <$> ps) →
  foldl (λ m p, <[p.1 := of_chars p.2]> m) m ps !! i =
  match (list_to_map ps : gmap Z chars) !! i with Some v => Some (of_chars v) | None => m !! i end.
Proof.
  induction ps as [|[j v] ps IH]; intros m i Hnd; simpl; [by rewrite lookup_empty|]. inversion Hnd as [|? ? Hj Hnd']; subst.
  rewrite IH by done. destruct (decide (i = j)) as [->|Hne].
  - rewrite lookup_insert_eq. apply not_elem_of_list_to_map in Hj. by rewrite Hj, lookup_insert_eq.
  - by rewrite !lookup_insert_ne.
Qed.

Definition by_index (p q : Z * chars) : Prop := p.1 < q.1.

Lemma joined ps qs (parts : gmap Z string) :
  ps ≡ₚ qs → StronglySorted by_index qs →
  parts = foldl (λ m p, <[p.1 := of_chars p.2]> m) ∅ ps → NoDup (fst <$> ps) →
  joinFragments parts = of_chars (concat (snd <$> qs)).
Proof.
  intros Hp Hs Hparts Hnd. assert (Hlook : ∀ i, parts !! i = of_chars <$> (list_to_map ps : gmap Z chars) !! i).
  { intros i. rewrite Hparts, foldl_insert_lookup by done. by destruct (list_to_map ps !! i). }
  assert (Hdom : merge_sort Z.le (elements (dom parts)) = fst <$> qs).
  { apply (Sorted_unique Z.le).
    - apply Sorted_merge_sort. intros x y. lia.
    - apply StronglySorted_Sorted. clear -Hs. induction Hs as [|p qs Hs IH Hf]; simpl; constructor; [done|].
      apply Forall_fmap. eapply Forall_impl; [exact Hf|]. unfold by_index. intros q Hq. simpl. lia.
    - rewrite merge_sort_Permutation. apply NoDup_Permutation.
      + apply NoDup_elements.
      + by rewrite <- Hp.
      + intros i. rewrite elem_of_elements, elem_of_dom, Hlook, fmap_is_Some, <- Hp. split.
        * intros [v Hv]. apply list_elem_of_fmap. exists (i, v). split; [done|by apply elem_of_list_to_map_2].
        * intros ([j v] & -> & Hj)%list_elem_of_fmap. exists v. by apply elem_of_list_to_map_1. }
  unfold joinFragments. rewrite Hdom. f_equal. rewrite <- list_fmap_compose. f_equal. apply list_fmap_ext. intros n [i v] Hi. simpl.
  rewrite Hlook, (elem_of_list_to_map_1 ps i v); [simpl; apply to_of_chars|done|]. rewrite Hp. by eapply list_elem_of_lookup_2.
Qed.

(** An argument of EXECVE that the kernel has split is put together again: from the
    parts, each quoted or in hexadecimal, in whatever order they come, the record has one
    field, the argument, with the bytes of the parts in the order of their indices. *)
Theorem split_argument arg ps qs :
  index_ok arg → ps ≠ [] → Forall (λ p, index_ok p.1) ps → ps ≡ₚ qs → StronglySorted by_index qs →
  Z.of_nat (length ps) <= maxFields →
  outer_fields TypeExecve (space :: show_all (part_item arg <$> ps)) =
  Ok {[ of_chars (arg_name arg) := of_chars (concat (snd <$> qs)) ]}.
Proof.
  intros Ha Hne Hps Hp Hs Hlen.
  assert (Hnd : NoDup (fst <$> ps)).
  { rewrite Hp. clear -Hs. induction Hs as [|p qs Hs IH Hf]; simpl; constructor; [|done].
    intros (q & Hq & Hin)%list_elem_of_fmap. rewrite Forall_forall in Hf. specialize (Hf q Hin). unfold by_index in Hf. lia. }
  rewrite outer_fields_items; [|by destruct ps|apply Forall_fmap; eapply Forall_impl; [exact Hps|]; intros p; by apply part_ok|by rewrite length_fmap].
  assert (Hfold : foldl (store TypeExecve) (∅, ∅) (part_item arg <$> ps) = (∅, {[ arg := foldl (λ m p, <[p.1 := of_chars p.2]> m) ∅ ps ]})).
  { destruct ps as [|p ps]; [done|]. inversion Hps; subst. cbn [fmap list_fmap foldl]. rewrite part_stored by done.
    rewrite lookup_empty. cbn [default]. rewrite insert_empty. by apply parts_stored. }
  rewrite Hfold. cbn [fst snd]. unfold add_fragments. rewrite map_to_list_singleton. cbn [foldr]. unfold add_argument, set_if_absent. cbn [fst snd].
  rewrite lookup_empty, insert_empty. do 2 f_equal. by eapply joined.
Qed.

(** ** Concrete records *)

(** A path with a space, a name, and a number. *)
Definition demo_fields : list kernel_field :=
  [Word (to_chars "uid") (to_chars "1000"); Text (to_chars "exe") (to_chars "/bin/a b"); Text (to_chars "comm") (to_chars "cat")].
Definition demo_type : RecordType := 1300.

Lemma demo_id_ok : id_ok 1700000000 123 42.
Proof. unfold id_ok, is_u64, u64_mod. lia. Qed.

Ltac decide_by_computing := apply (bool_decide_unpack _); vm_compute; exact I.

Lemma demo_fields_ok : Forall (field_ok demo_type) demo_fields.
Proof.
  repeat apply Forall_cons_2; [..|apply Forall_nil_2]; unfold field_ok, key_ok, text_ok; cbn [kf_key];
    repeat match goal with |- _ ∧ _ => split end; try decide_by_computing; vm_compute; reflexivity.
Qed.

Lemma demo_fields_distinct : NoDup (of_chars ∘ kf_key <$> demo_fields).
Proof. decide_by_computing. Qed.

Definition demo_body : chars := kernel_body 1700000000 123 42 demo_fields.

Example demo_text :
  of_chars demo_body = of_chars (to_chars "audit(1700000000.123:42): uid=1000 exe=2F62696E2F612062 comm=" ++ quote :: to_chars "cat" ++ [quote]).
Proof. vm_compute. reflexivity. Qed.

Lemma kernel_record_roundtrip_witness :
  ParseRecord (mkRawMessage demo_type (of_chars demo_body) 7) =
  Ok (mkRecord demo_type "SYSCALL" (Unix 1700000000 123000000) 42 "1700000000.123:42"
        {[ "uid" := "1000"; "exe" := "/bin/a b"; "comm" := "cat" ]} (of_chars (raw_text (to_chars "SYSCALL") demo_body))).
Proof.
  apply (kernel_record_roundtrip demo_type 1700000000 123 42 demo_fields 7).
  - apply demo_id_ok.
  - done.
  - apply demo_fields_ok.
  - apply demo_fields_distinct.
  - vm_compute. congruence.
  - vm_compute. congruence.
Defined.

(** A program that claims to be root inside its message. *)
Definition demo_claim : chars := to_chars "op=login uid=0 res=success".
Definition demo_user_record : AuditRecord :=
  match ParseRecord (mkRawMessage demo_type (of_chars (user_body 1700000000 123 42 demo_fields demo_claim)) 7) with
  | Ok r => r
  | Err _ => mkRecord 0 "" 0 0 "" ∅ ""
  end.


Lemma raw_reparses_witness : ParseLine (rec_Raw demo_user_record) = Ok demo_user_record.
Proof.
  apply (raw_reparses (mkRawMessage demo_type (of_chars (user_body 1700000000 123 42 demo_fields demo_claim)) 7)).
  - vm_compute. split; congruence.
  - vm_compute. reflexivity.
  - vm_compute. congruence.
Defined.

Lemma fields_bounded_witness : Z.of_nat (size (rec_Fields demo_user_record)) <= 2 * maxFields + 2.
Proof.
  apply (fields_bounded demo_type (to_chars "SYSCALL") (user_body 1700000000 123 42 demo_fields demo_claim) 7).
  vm_compute. reflexivity.
Defined.

(** Three parts of [/tmp/a b c], the last one first. *)
Definition demo_parts : list (Z * chars) := [(2, to_chars " c"); (0, to_chars "/tmp"); (1, to_chars "/a b")].

Lemma split_argument_witness :
  outer_fields TypeExecve (space :: show_all (part_item 1 <$> demo_parts)) = Ok {[ "a1" := "/tmp/a b c" ]}.
Proof.
  apply (split_argument 1 demo_parts [(0, to_chars "/tmp"); (1, to_chars "/a b"); (2, to_chars " c")]).
  - unfold index_ok, maxExecveIndex. lia.
  - done.
  - unfold demo_parts, index_ok, maxExecveIndex. repeat constructor; simpl; lia.
  - unfold demo_parts. apply (Permutation_cons_append [(0, to_chars "/tmp"); (1, to_chars "/a b")]).
  - unfold by_index. repeat constructor.
  - vm_compute. congruence.
Defined.
