(* ===== verification/Correlator.v ===== *)
(** * The correlator of audit records

    [SauronAgent/internal/audit/correlate.go]: records that share an audit id become one
    group.  The open groups are a linked list, oldest first, with an index by audit id;
    an element of the list is named by a number.

    [Run] is a machine: the environment chooses what happens next (a record arrives, the
    ticker fires, a group is taken from the channel, the context is cancelled, the grace
    period ends).  Three fields record what has happened and are read by no operation:
    the records received, the groups closed and the groups given up. *)

From S2P Require Import Prelude GoStrings GoText Metrics AuditRecords.

Definition defaultCorrelationTimeout : duration := 2 * Second.
Definition defaultMaxPendingEvents : Z := 4096.

Record pendingGroup : Type := mkPending { pg_group : Group; pg_first : time }.

Record Correlator : Type := mkCorrelator {
  c_timeout : duration;
  maxPending : Z;
  c_metrics : Metrics.Agent;
  pending : gmap string nat;
  order : list (nat * pendingGroup);
  fresh_el : nat
}.

Definition set_open (c : Correlator) (p : gmap string nat) (o : list (nat * pendingGroup)) (n : nat) : Correlator :=
  mkCorrelator (c_timeout c) (maxPending c) (c_metrics c) p o n.
Definition set_c_metrics (c : Correlator) (m : Metrics.Agent) : Correlator :=
  mkCorrelator (c_timeout c) (maxPending c) m (pending c) (order c) (fresh_el c).

Definition NewCorrelator (timeout : duration) (max : Z) (m : option Metrics.Agent) : Correlator :=
  mkCorrelator (if timeout <=? 0 then defaultCorrelationTimeout else timeout)
    (if max <=? 0 then defaultMaxPendingEvents else max) (default zero_agent m) ∅ [] 0.

(** [remove]: the index forgets the audit id of the group, the list its element. *)
Definition remove (el : nat * pendingGroup) (c : Correlator) : Correlator :=
  set_open c (delete (g_AuditID (pg_group el.2)) (pending c)) (filter (λ x, x.1 ≠ el.1) (order c)) (fresh_el c).

(** [pg.group.Records = append(...)] and [pg.group.Complete = true], through the element. *)
Definition update_el (el : nat) (f : Group → Group) (c : Correlator) : Correlator :=
  set_open c (pending c)
    ((λ x, if bool_decide (x.1 = el) then (x.1, mkPending (f (pg_group x.2)) (pg_first x.2)) else x) <$> order c) (fresh_el c).

Definition add_record (r : AuditRecord) (g : Group) : Group :=
  mkGroup (g_AuditID g) (g_Serial g) (g_Timestamp g) (g_Records g ++ [r]) (g_Complete g).
Definition complete (g : Group) : Group := mkGroup (g_AuditID g) (g_Serial g) (g_Timestamp g) (g_Records g) true.

Definition element (el : nat) (c : Correlator) : option (nat * pendingGroup) := head (filter (λ x, x.1 = el) (order c)).

(** The loop that forces groups out; one unit of fuel for each open group. *)
Fixpoint evict_oldest (fuel : nat) (c : Correlator) (closed : list Group) : Correlator * list Group :=
  match fuel with
  | O => (c, closed)
  | S fuel =>
      if maxPending c <? Z.of_nat (size (pending c)) then
        match order c with
        | [] => (c, closed)
        | front :: _ => evict_oldest fuel (remove front c) (closed ++ [pg_group front.2])
        end
      else (c, closed)
  end.

(** The element of the audit id of [r], made if there is none. *)
Definition open_group (r : AuditRecord) (now : time) (c : Correlator) : Correlator * nat :=
  match pending c !! rec_AuditID r with
  | Some el => (c, el)
  | None =>
      let el := fresh_el c in
      let pg := mkPending (mkGroup (rec_AuditID r) (rec_Serial r) (rec_Timestamp r) [] false) now in
      (set_open c (<[rec_AuditID r := el]> (pending c)) (order c ++ [(el, pg)]) (S el), el)
  end.

Definition Add (r : option AuditRecord) (now : time) (c : Correlator) : Correlator * list Group :=
  match r with
  | None => (c, [])
  | Some r =>
      if String.eqb (rec_AuditID r) "" then (c, [mkGroup "" (rec_Serial r) (rec_Timestamp r) [r] false])
      else
        let '(c, el) := open_group r now c in
        let c := update_el el (add_record r) c in
        let '(c, closed) :=
          if rec_Type r =? TypeEoe then
            let c := update_el el complete c in
            match element el c with
            | Some pg => (remove pg c, [pg_group pg.2])
            | None => (c, [])
            end
          else (c, []) in
        evict_oldest (S (length (order c))) c closed
  end.

(** The loops of [Expire] and [Flush] over the elements of the list. *)
Fixpoint expire_loop (now : time) (els : list (nat * pendingGroup)) (c : Correlator) (out : list Group) : Correlator * list Group :=
  match els with
  | [] => (c, out)
  | el :: els =>
      if c_timeout c <=? Sub now (pg_first el.2) then expire_loop now els (remove el c) (out ++ [pg_group el.2])
      else expire_loop now els c out
  end.

Definition Expire (now : time) (c : Correlator) : Correlator * list Group := expire_loop now (order c) c [].

Fixpoint flush_loop (els : list (nat * pendingGroup)) (c : Correlator) (out : list Group) : Correlator * list Group :=
  match els with
  | [] => (c, out)
  | el :: els => flush_loop els (remove el c) (out ++ [pg_group el.2])
  end.

Definition Flush (c : Correlator) : Correlator * list Group := flush_loop (order c) c [].

Definition Pending (c : Correlator) : Z := Z.of_nat (size (pending c)).

(** ** Run *)

(** In the [select], in [send] with what is left (and whether the producer is finished),
    in [drain], and after the return. *)
Inductive run_phase : Type :=
| Selecting
| Sending (left : list Group) (finished : bool)
| Draining (left : list Group)
| Returned.

Record run : Type := mkRun {
  r_cor : Correlator;
  inbox : list (option AuditRecord);
  in_closed : bool;
  cancelled : bool;
  r_phase : run_phase;
  delivered : list Group;
  received : list AuditRecord;
  closed_groups : list Group;
  given_up : list Group
}.

Inductive run_event : Type :=
| Produce (r : option AuditRecord) | CloseInput | Cancel
| SelectDone | SelectRecord (now : time) | SelectTick (now : time)
| Deliver | Interrupt | GraceOver | Continue.

Definition with_phase (x : run) (c : Correlator) (ph : run_phase) (closed : list Group) : run :=
  mkRun c (inbox x) (in_closed x) (cancelled x) ph (delivered x) (received x) (closed_groups x ++ closed) (given_up x).

Definition run_step (e : run_event) (x : run) : option run :=
  let c := r_cor x in
  match e, r_phase x with
  | Produce r, _ =>
      if in_closed x then None
      else Some (mkRun c (inbox x ++ [r]) false (cancelled x) (r_phase x) (delivered x) (received x) (closed_groups x) (given_up x))
  | CloseInput, _ => Some (mkRun c (inbox x) true (cancelled x) (r_phase x) (delivered x) (received x) (closed_groups x) (given_up x))
  | Cancel, _ => Some (mkRun c (inbox x) (in_closed x) true (r_phase x) (delivered x) (received x) (closed_groups x) (given_up x))
  | SelectDone, Selecting =>
      if cancelled x then let '(c, gs) := Flush c in Some (with_phase x c (Draining gs) gs) else None
  | SelectRecord now, Selecting =>
      match inbox x with
      | r :: rest =>
          let '(c, gs) := Add r now c in
          Some (mkRun c rest (in_closed x) (cancelled x) (Sending gs false) (delivered x)
                  (received x ++ match r with Some r => [r] | None => [] end) (closed_groups x ++ gs) (given_up x))
      | [] => if in_closed x then let '(c, gs) := Flush c in Some (with_phase x c (Sending gs true) gs) else None
      end
  | SelectTick now, Selecting => let '(c, gs) := Expire now c in Some (with_phase x c (Sending gs false) gs)
  | Deliver, Sending (g :: gs) finished =>
      Some (mkRun c (inbox x) (in_closed x) (cancelled x) (Sending gs finished) (delivered x ++ [g]) (received x) (closed_groups x) (given_up x))
  | Deliver, Draining (g :: gs) =>
      Some (mkRun c (inbox x) (in_closed x) (cancelled x) (Draining gs) (delivered x ++ [g]) (received x) (closed_groups x) (given_up x))
  | Interrupt, Sending (g :: gs) finished =>
      if cancelled x then
        if finished then Some (with_phase x c (Draining (g :: gs)) [])
        else let '(c, rest) := Flush c in Some (with_phase x c (Draining ((g :: gs) ++ rest)) rest)
      else None
  | GraceOver, Draining (g :: gs) =>
      let n := Z.of_nat (length (g :: gs)) in
      Some (mkRun (set_c_metrics c (count_EventsDropped n (c_metrics c))) (inbox x) (in_closed x) (cancelled x) Returned (delivered x)
              (received x) (closed_groups x) (g :: gs))
  | Continue, Sending [] true => Some (with_phase x c (Draining []) [])
  | Continue, Sending [] false => Some (with_phase x c Selecting [])
  | Continue, Draining [] => Some (with_phase x c Returned [])
  | _, _ => None
  end.

Definition run_start (c : Correlator) : run := mkRun c [] false false Selecting [] [] [] [].

Fixpoint run_all (es : list run_event) (x : run) : option run :=
  match es with
  | [] => Some x
  | e :: es => match run_step e x with Some x => run_all es x | None => None end
  end.
