(* ===== verification/CorrelatorProofs.v ===== *)
(** * The correlator neither loses, mixes nor reorders records

    The theorems about [Correlator]: what becomes of every record it received, in every
    order of events, and the bounds on how many groups are open and for how long. *)

From S2P Require Import Prelude GoStrings GoText Metrics AuditRecords Correlator.

Definition aid (x : nat * pendingGroup) : string := g_AuditID (pg_group x.2).

(** The records of the groups of one audit id, in order. *)
Definition records_of (id : string) (gs : list Group) : list AuditRecord :=
  concat (g_Records <$> filter (λ g, g_AuditID g = id) gs).

Definition open_groups (c : Correlator) : list Group := pg_group ∘ snd <$> order c.

(** A group as the correlator makes it: its records are all of its audit id. *)
Record group_ok (g : Group) : Prop := {
  go_records : g_Records g ≠ [];
  go_same : ∀ r, r ∈ g_Records g → rec_AuditID r = g_AuditID g
}.

Record cor_ok (c : Correlator) : Prop := {
  co_els : NoDup (fst <$> order c);
  co_ids : NoDup (aid <$> order c);
  co_fresh : ∀ x, x ∈ order c → (x.1 < fresh_el c)%nat;
  co_index : ∀ id el, pending c !! id = Some el ↔ ∃ pg, (el, pg) ∈ order c ∧ g_AuditID (pg_group pg) = id;
  co_groups : ∀ x, x ∈ order c → group_ok (pg_group x.2) ∧ aid x ≠ "";
  co_max : 0 < maxPending c
}.

Lemma records_app id a b : records_of id (a ++ b) = records_of id a ++ records_of id b.
Proof. unfold records_of. by rewrite filter_app, fmap_app, concat_app. Qed.

Lemma records_cons id g gs : records_of id (g :: gs) = records_of id [g] ++ records_of id gs.
Proof. apply (records_app id [g]). Qed.

Lemma records_none id gs : (∀ g, g ∈ gs → g_AuditID g ≠ id) → records_of id gs = [].
Proof. intros H. unfold records_of. by rewrite filter_none. Qed.

Lemma records_one id g : records_of id [g] = if bool_decide (g_AuditID g = id) then g_Records g else [].
Proof. unfold records_of. rewrite filter_cons. case_bool_decide; case_decide; try done. simpl. by rewrite app_nil_r. Qed.

(** ** The list and its index *)

Lemma filter_el (l1 l2 : list (nat * pendingGroup)) x :
  NoDup (fst <$> l1 ++ x :: l2) → filter (λ y, y.1 ≠ x.1) (l1 ++ x :: l2) = l1 ++ l2.
Proof.
  rewrite fmap_app, fmap_cons. intros (_ & H1 & H2)%NoDup_app. apply NoDup_cons in H2 as [H2 _].
  rewrite filter_app, filter_cons_False by (intros H; by apply H).
  rewrite !filter_whole; [done| |]; intros y Hy E; [apply H2|apply (H1 x.1); [|set_solver]]; rewrite <- E; by apply list_elem_of_fmap_2.
Qed.

Lemma NoDup_without {A B} (f : A → B) l1 x l2 : NoDup (f <$> l1 ++ x :: l2) → NoDup (f <$> l1 ++ l2).
Proof.
  rewrite !fmap_app, fmap_cons. intros (H1 & H2 & H3)%NoDup_app. apply NoDup_cons in H3 as [_ H3].
  apply NoDup_app. split_and!; [done| |done]. intros y Hy Hy2. apply (H2 y Hy). set_solver.
Qed.

Lemma mem_mid {A} (x y : A) l1 l2 : x ∈ l1 ++ y :: l2 ↔ x ∈ l1 ++ l2 ∨ x = y.
Proof. set_solver. Qed.

Lemma pending_size c : cor_ok c → size (pending c) = length (order c).
Proof.
  intros H. assert (Hp : map_to_list (pending c) ≡ₚ (λ x, (aid x, x.1)) <$> order c).
  { apply NoDup_Permutation.
    - apply NoDup_map_to_list.
    - apply (NoDup_fmap_1 fst). rewrite <- list_fmap_compose. apply H.
    - intros [id el]. rewrite elem_of_map_to_list, (co_index _ H), list_elem_of_fmap. split.
      + intros (pg & Hin & <-). by exists (el, pg).
      + intros ([el' pg] & [= -> ->] & Hin). by exists pg. }
  rewrite <- length_map_to_list, Hp, length_fmap. done.
Qed.

Lemma remove_ok c x :
  cor_ok c → x ∈ order c →
  cor_ok (remove x c) ∧ (∀ id, records_of id (open_groups c) = records_of id [pg_group x.2] ++ records_of id (open_groups (remove x c))) ∧
  length (order c) = S (length (order (remove x c))) ∧ ∀ y, y ∈ order (remove x c) ↔ y ∈ order c ∧ y.1 ≠ x.1.
Proof.
  intros H Hx. apply list_elem_of_split in Hx as (l1 & l2 & E). pose proof H as [H1 H2 H3 H4 H5 H6].
  assert (Ef : filter (λ y, y.1 ≠ x.1) (order c) = l1 ++ l2) by (rewrite E in *; by apply filter_el).
  assert (Hsub : sublist (l1 ++ l2) (order c)) by (rewrite E; apply sublist_app; [done|by apply sublist_cons]).
  assert (Hother : ∀ y, y ∈ l1 ++ l2 → aid y ≠ aid x).
  { intros y Hy Ey. rewrite E, fmap_app, fmap_cons in H2. apply NoDup_app in H2 as (_ & H2a & H2b). apply NoDup_cons in H2b as [H2b _].
    apply elem_of_app in Hy as [Hy|Hy]; [apply (H2a (aid x)); [|set_solver]|apply H2b]; rewrite <- Ey; by apply list_elem_of_fmap_2. }
  assert (Hmem : ∀ y, y ∈ order (remove x c) ↔ y ∈ order c ∧ y.1 ≠ x.1).
  { intros y. unfold remove. simpl. rewrite list_elem_of_filter. tauto. }
  split_and!; [|intros id|unfold remove; simpl; rewrite Ef, E, !length_app; simpl; lia|done].
  - constructor; unfold remove; simpl; rewrite ?Ef.
    + by apply (NoDup_without fst l1 x l2); rewrite <- E.
    + by apply (NoDup_without aid l1 x l2); rewrite <- E.
    + intros y Hy. apply H3. by eapply elem_of_sublist.
    + intros id el. destruct (decide (id = aid x)) as [->|Hne].
      * fold (aid x). rewrite lookup_delete_eq. split; [done|]. intros (pg & Hin & Eid). by destruct (Hother _ Hin).
      * fold (aid x). rewrite lookup_delete_ne by done. rewrite H4. split; intros (pg & Hin & <-); exists pg; split; try done.
        -- rewrite E in Hin. apply elem_of_app in Hin as [Hin|[Hin|Hin]%elem_of_cons]; [set_solver|subst x; by destruct Hne|set_solver].
        -- by eapply elem_of_sublist.
    + intros y Hy. apply H5. by eapply elem_of_sublist.
    + done.
  - unfold open_groups, remove. simpl. rewrite Ef, E, !fmap_app, fmap_cons. cbn [compose].
    change ((pg_group ∘ snd) x) with (pg_group x.2).
    rewrite !records_app, records_cons.
    destruct (decide (g_AuditID (pg_group x.2) = id)) as [Eid|Hne].
    + assert (Hnone : ∀ l, (∀ y, y ∈ l → y ∈ l1 ++ l2) → records_of id (pg_group ∘ snd <$> l) = []).
      { intros l Hl. apply records_none. intros g (y & -> & Hy)%list_elem_of_fmap. rewrite <- Eid. by apply Hother, Hl. }
      rewrite !(Hnone l1), !(Hnone l2) by set_solver. simpl. by rewrite ?app_nil_r.
    + rewrite (records_none id [_]); [done|]. intros g ->%list_elem_of_singleton. done.
Qed.

(** ** What an operation gives out *)

(** From [c] with the records [ins] to [c'] with the groups [gs] closed: for every audit id
    the records stay in their order, first those given out, then those still open. *)
Record emits (c : Correlator) (ins : list AuditRecord) (c' : Correlator) (gs : list Group) : Prop := {
  em_ok : cor_ok c';
  em_records : ∀ id, records_of id (open_groups c) ++ filter (λ r, rec_AuditID r = id) ins =
                     records_of id gs ++ records_of id (open_groups c');
  em_groups : ∀ g, g ∈ gs → group_ok g;
  em_same : maxPending c' = maxPending c ∧ c_timeout c' = c_timeout c ∧ c_metrics c' = c_metrics c
}.

Lemma emits_trans c ins c1 g1 c2 g2 : emits c ins c1 g1 → emits c1 [] c2 g2 → emits c ins c2 (g1 ++ g2).
Proof.
  intros [A1 A2 A3 (S1 & S2 & S3)] [B1 B2 B3 (S4 & S5 & S6)]. constructor; [done| |set_solver|split_and!; congruence].
  intros id. specialize (B2 id). rewrite filter_nil, app_nil_r in B2. by rewrite A2, B2, records_app, app_assoc.
Qed.

Lemma emits_nothing c : cor_ok c → emits c [] c [].
Proof. intros H. constructor; try done; [|set_solver]. intros id. by rewrite filter_nil, app_nil_r. Qed.

Lemma remove_emits c x : cor_ok c → x ∈ order c → emits c [] (remove x c) [pg_group x.2].
Proof.
  intros H Hx. destruct (remove_ok c x H Hx) as (R1 & R2 & _). constructor; [done| | |done].
  - intros id. by rewrite filter_nil, app_nil_r, R2.
  - intros g ->%list_elem_of_singleton. by apply (co_groups _ H).
Qed.

(** *** Changing a group in place *)

Definition touch (f : Group → Group) (pg : pendingGroup) : pendingGroup := mkPending (f (pg_group pg)) (pg_first pg).

Lemma update_split c el pg l1 l2 f :
  NoDup (fst <$> l1 ++ (el, pg) :: l2) → order c = l1 ++ (el, pg) :: l2 →
  order (update_el el f c) = l1 ++ (el, touch f pg) :: l2.
Proof.
  rewrite fmap_app, fmap_cons. intros (_ & H1 & H2)%NoDup_app E. apply NoDup_cons in H2 as [H2 _]. unfold update_el. simpl. rewrite E, fmap_app, fmap_cons.
  assert (Hid : ∀ l : list (nat * pendingGroup), (∀ y, y ∈ l → y.1 ≠ el) →
    (λ x : nat * pendingGroup, if bool_decide (x.1 = el) then (x.1, mkPending (f (pg_group x.2)) (pg_first x.2)) else x) <$> l = l).
  { intros l Hl. rewrite <- (list_fmap_id l) at 2. apply list_fmap_ext. intros i x Hx%list_elem_of_lookup_2. by rewrite bool_decide_false by (by apply Hl). }
  rewrite (Hid l1), (Hid l2).
  - simpl. by rewrite bool_decide_true.
  - intros y Hy Ey. apply H2. simpl. rewrite <- Ey. by apply list_elem_of_fmap_2.
  - intros y Hy Ey. apply (H1 y.1); [by apply list_elem_of_fmap_2|rewrite Ey; set_solver].
Qed.

(** A group changes and keeps its audit id. *)
Lemma update_ok c el pg l1 l2 f :
  cor_ok c → order c = l1 ++ (el, pg) :: l2 → g_AuditID (f (pg_group pg)) = g_AuditID (pg_group pg) → group_ok (f (pg_group pg)) →
  cor_ok (update_el el f c) ∧ order (update_el el f c) = l1 ++ (el, touch f pg) :: l2.
Proof.
  intros H E Hid Hg. pose proof H as [H1 H2 H3 H4 H5 H6]. rewrite E in H1.
  pose proof (update_split c el pg l1 l2 f H1 E) as Eo. split; [|done].
  assert (Hin : ∀ e p, (e, p) ∈ order (update_el el f c) → ∃ p', (e, p') ∈ order c ∧ g_AuditID (pg_group p') = g_AuditID (pg_group p)).
  { intros e p. rewrite Eo, E, mem_mid. intros [?|[= -> ->]]; [exists p|exists pg]; rewrite mem_mid; auto. }
  assert (Hout : ∀ e p, (e, p) ∈ order c → ∃ p', (e, p') ∈ order (update_el el f c) ∧ g_AuditID (pg_group p') = g_AuditID (pg_group p)).
  { intros e p. rewrite Eo, E, mem_mid. intros [?|[= -> ->]]; [exists p|exists (touch f pg)]; rewrite mem_mid; auto. }
  constructor.
  - rewrite Eo. rewrite fmap_app, fmap_cons in *. exact H1.
  - rewrite Eo. rewrite E in H2. rewrite fmap_app, fmap_cons in *.
    assert (Ha : aid (el, touch f pg) = aid (el, pg)) by exact Hid. by rewrite Ha.
  - intros [e p] He. destruct (Hin e p He) as (p' & Hp & _). apply (H3 (e, p') Hp).
  - intros id e. simpl pending. rewrite H4. split; intros (p & Hp & <-).
    + destruct (Hout e p Hp) as (p' & ? & ?). by exists p'.
    + destruct (Hin e p Hp) as (p' & ? & ?). by exists p'.
  - intros [e p] He. destruct (Hin e p He) as (p' & Hp & Ep). split; [|destruct (H5 _ Hp) as [_ Hne]; unfold aid in *; simpl in *; congruence].
    rewrite Eo, mem_mid in He. destruct He as [He|[= -> ->]]; [|done]. apply (H5 (e, p)). rewrite E, mem_mid. auto.
  - done.
Qed.

(** The records of one audit id when the group of an element changes. *)
Lemma records_split id c el pg l1 l2 :
  cor_ok c → order c = l1 ++ (el, pg) :: l2 →
  records_of id (open_groups c) = if bool_decide (g_AuditID (pg_group pg) = id) then g_Records (pg_group pg)
                                  else records_of id (pg_group ∘ snd <$> l1 ++ l2).
Proof.
  intros H E. destruct (remove_ok c (el, pg) H) as (_ & Hr & _); [rewrite E; set_solver|]. rewrite Hr, records_one. cbn [snd].
  assert (Er : order (remove (el, pg) c) = l1 ++ l2).
  { unfold remove. simpl. rewrite E. apply (filter_el l1 l2 (el, pg)). rewrite <- E. apply H. }
  unfold open_groups. rewrite Er. case_bool_decide as Eid; [|done]. rewrite records_none; [by rewrite app_nil_r|].
  intros g (y & -> & Hy)%list_elem_of_fmap Ey. pose proof (co_ids _ H) as Hnd. rewrite E, fmap_app, fmap_cons in Hnd.
  apply NoDup_app in Hnd as (_ & N1 & N2). apply NoDup_cons in N2 as [N2 _]. assert (Hxy : aid (el, pg) = aid y) by (unfold aid; simpl in *; congruence).
  apply elem_of_app in Hy as [Hy|Hy].
  - apply (N1 (aid y)); [by apply list_elem_of_fmap_2|]. rewrite Hxy. set_solver.
  - apply N2. rewrite Hxy. by apply list_elem_of_fmap_2.
Qed.

(** *** The operations *)

(** A record is filed under its audit id. *)
Lemma file_record r now c :
  cor_ok c → rec_AuditID r ≠ "" →
  let p := open_group r now c in
  let c' := update_el p.2 (add_record r) p.1 in
  emits c [r] c' [] ∧ ∃ pg l1 l2, order c' = l1 ++ (p.2, pg) :: l2 ∧ (length (order c') <= S (length (order c)))%nat ∧
    r ∈ g_Records (pg_group pg).
Proof.
  intros H Hne. pose proof H as [H1 H2 H3 H4 H5 H6]. unfold open_group. destruct (pending c !! rec_AuditID r) as [el|] eqn:Ep.
  - apply H4 in Ep as (pg & Hin & Hid). apply list_elem_of_split in Hin as (l1 & l2 & E). cbn [fst snd].
    assert (Hg : group_ok (add_record r (pg_group pg))).
    { destruct (H5 (el, pg)) as [[G1 G2] _]; [rewrite E; set_solver|]. constructor; simpl; [by destruct (g_Records _)|].
      intros x [Hx| ->%list_elem_of_singleton]%elem_of_app; [by apply G2|by rewrite Hid]. }
    destruct (update_ok c el pg l1 l2 (add_record r) H E eq_refl Hg) as [Hok Eo]. split.
    + constructor; [done| |set_solver|done]. intros id. rewrite (records_split id c el pg l1 l2 H E), (records_split id _ _ _ _ _ Hok Eo). simpl. rewrite Hid.
      rewrite filter_cons. case_bool_decide; case_decide; try done. by rewrite app_nil_r.
    + exists (touch (add_record r) pg), l1, l2. rewrite Eo, E, !length_app. simpl. split_and!; [done|lia|set_solver].
  - cbn [fst snd]. set (el := fresh_el c). set (pg0 := mkPending (mkGroup (rec_AuditID r) (rec_Serial r) (rec_Timestamp r) [] false) now).
    set (c0 := set_open c _ _ _).
    assert (Hnew : el ∉ fst <$> order c) by (intros (x & Ex & Hx)%list_elem_of_fmap; specialize (H3 x Hx); unfold el in *; lia).
    assert (Hnid : rec_AuditID r ∉ aid <$> order c).
    { intros ([e p] & Hid & Hx)%list_elem_of_fmap. assert (Hc : pending c !! rec_AuditID r = Some e) by (apply H4; exists p; split; [done|by rewrite Hid]).
      congruence. }
    assert (Hd : NoDup (fst <$> order c ++ [(el, pg0)])).
    { rewrite fmap_app. apply NoDup_app. split_and!; [done|set_solver|by apply NoDup_singleton]. }
    pose proof (update_split c0 el pg0 (order c) [] (add_record r) Hd eq_refl) as Eo.
    assert (Hok : cor_ok (update_el el (add_record r) c0)).
    { constructor; rewrite ?Eo.
      - rewrite fmap_app in *. exact Hd.
      - rewrite fmap_app. apply NoDup_app. split_and!; [done| |by apply NoDup_singleton]. intros x Hx. unfold aid at 1. simpl. set_solver.
      - intros x Hx. apply elem_of_app in Hx as [Hx| ->%list_elem_of_singleton]; simpl; [specialize (H3 x Hx); unfold el; lia|unfold el; lia].
      - intros id e. simpl. destruct (decide (id = rec_AuditID r)) as [->|Hn].
        + rewrite lookup_insert_eq. split.
          * intros [= <-]. eexists. split; [apply elem_of_app; right; by apply list_elem_of_singleton|done].
          * intros (p & [Hp|[= -> ->]%list_elem_of_singleton]%elem_of_app & Hid); [|done]. destruct Hnid. rewrite <- Hid.
            apply (list_elem_of_fmap_2 aid _ _ Hp).
        + rewrite lookup_insert_ne by done. rewrite H4. split; intros (p & Hp & Hid); exists p; (split; [|done]); [set_solver|].
          apply elem_of_app in Hp as [Hp|[= -> ->]%list_elem_of_singleton]; [done|]. by destruct Hn.
      - intros x Hx. apply elem_of_app in Hx as [Hx| ->%list_elem_of_singleton]; [by apply H5|]. split; [|done].
        constructor; simpl; [done|]. by intros y ->%list_elem_of_singleton.
      - done. }
    split.
    + constructor; [done| |set_solver|done]. intros id. unfold open_groups at 2. rewrite Eo, fmap_app, records_app, (records_none id []) by set_solver.
      cbn [app]. f_equal. change (pg_group ∘ snd <$> [(el, touch (add_record r) pg0)]) with [add_record r (pg_group pg0)]. rewrite records_one. simpl.
      rewrite filter_cons. case_bool_decide; case_decide; done.
    + exists (touch (add_record r) pg0), (order c), []. rewrite Eo, length_app. simpl. split_and!; [done|lia|set_solver].
Qed.

Lemma evict_emits fuel : ∀ c ins c0 closed,
  emits c0 ins c closed → (length (order c) <= fuel)%nat →
  let p := evict_oldest fuel c closed in
  emits c0 ins p.1 p.2 ∧ Z.of_nat (size (pending p.1)) <= maxPending p.1.
Proof.
  induction fuel as [|fuel IH]; intros c ins c0 closed He Hf; cbn [evict_oldest]; pose proof (em_ok _ _ _ _ He) as H.
  - split; [done|]. cbn [fst]. rewrite (pending_size c H). pose proof (co_max _ H). lia.
  - destruct (Z.ltb_spec (maxPending c) (Z.of_nat (size (pending c)))) as [Hgt|Hle]; [|split; [done|simpl; lia]].
    destruct (order c) as [|x l] eqn:Eo.
    { rewrite (pending_size c H), Eo in Hgt. pose proof (co_max _ H). simpl in Hgt. lia. }
    assert (Hx : x ∈ order c) by (rewrite Eo; set_solver). destruct (remove_ok c x H Hx) as (_ & _ & Hl & _).
    apply IH; [|rewrite Eo in Hl; simpl in *; lia]. eapply emits_trans; [exact He|]. by apply remove_emits.
Qed.

Lemma Add_emits r now c c' gs :
  cor_ok c → Add r now c = (c', gs) →
  emits c (match r with Some r => [r] | None => [] end) c' gs ∧
  (Z.of_nat (size (pending c)) <= maxPending c → Z.of_nat (size (pending c')) <= maxPending c').
Proof.
  intros H. unfold Add. destruct r as [r|]; [|intros [= <- <-]; split; [by apply emits_nothing|done]].
  destruct (String.eqb_spec (rec_AuditID r) "") as [Hid|Hid].
  { intros [= <- <-]. split; [|done]. constructor; try done.
    - intros id. rewrite records_one. simpl. rewrite filter_cons. destruct (decide (id = "")) as [->|Hn].
      + rewrite decide_True, bool_decide_true by done. simpl. rewrite (records_none ""); [done|].
        intros g (x & -> & Hx)%list_elem_of_fmap. by apply (co_groups _ H).
      + rewrite decide_False, bool_decide_false by congruence. by rewrite app_nil_r.
    - intros g ->%list_elem_of_singleton. constructor; simpl; [done|]. by intros x ->%list_elem_of_singleton. }
  destruct (file_record r now c H Hid) as (He & pg & l1 & l2 & Eo & Hlen & Hr). destruct (open_group r now c) as [c1 el]. cbn [fst snd] in *.
  set (c2 := update_el el (add_record r) c1) in *. pose proof (em_ok _ _ _ _ He) as H2.
  assert (Hmid : ∃ c3 closed, (if rec_Type r =? TypeEoe then
            match element el (update_el el complete c2) with
            | Some pg => (remove pg (update_el el complete c2), [pg_group pg.2])
            | None => (update_el el complete c2, [])
            end
          else (c2, [])) = (c3, closed) ∧ emits c [r] c3 closed).
  { destruct (rec_Type r =? TypeEoe); [|by exists c2, []].
    assert (Hg : group_ok (pg_group pg)) by (apply (co_groups _ H2 (el, pg)); rewrite Eo; set_solver).
    destruct (update_ok c2 el pg l1 l2 complete H2 Eo eq_refl) as [H3 Eo3]; [destruct Hg; by constructor|]. set (c3 := update_el el complete c2) in *.
    assert (Hel : element el c3 = Some (el, touch complete pg)).
    { unfold element. rewrite Eo3, filter_app, filter_cons_True by done. rewrite filter_none; [done|]. intros y Hy Ey.
      pose proof (co_els _ H3) as Hnd. rewrite Eo3, fmap_app, fmap_cons in Hnd. apply NoDup_app in Hnd as (_ & N & _). apply (N y.1); [by apply list_elem_of_fmap_2|].
      rewrite Ey. set_solver. }
    rewrite Hel. eexists _, _. split; [done|]. assert (He3 : emits c [r] c3 []).
    { destruct He as [E1 E2 E3 E4]. constructor; [done| |set_solver|done]. intros id. rewrite E2. f_equal.
      rewrite (records_split id c2 el pg l1 l2 H2 Eo), (records_split id c3 _ _ l1 l2 H3 Eo3). done. }
    apply (emits_trans _ _ _ [] _ _ He3). apply (remove_emits c3 (el, touch complete pg) H3). rewrite Eo3. set_solver. }
  destruct Hmid as (c3 & closed & Em & He3). cbv zeta. fold c2. rewrite Em. intros Hev. destruct (evict_emits (S (length (order c3))) c3 [r] c closed He3) as [Hem Hsz]; [lia|].
  rewrite Hev in Hem, Hsz. done.
Qed.

Lemma expire_emits now els : ∀ c c0 out,
  emits c0 [] c out → NoDup (fst <$> els) → (∀ x, x ∈ els → x ∈ order c) →
  let p := expire_loop now els c out in
  emits c0 [] p.1 p.2 ∧
  (∀ x, x ∈ order p.1 ↔ x ∈ order c ∧ (x ∈ els → Sub now (pg_first x.2) < c_timeout c)).
Proof.
  induction els as [|x els IH]; intros c c0 out He Hnd Hin; cbn [expire_loop].
  - split; [done|]. set_solver.
  - inversion Hnd as [|? ? Hx Hnd']; subst. destruct (Z.leb_spec (c_timeout c) (Sub now (pg_first x.2))) as [Hexp|Hfresh].
    + pose proof (em_ok _ _ _ _ He) as H. assert (Hxo : x ∈ order c) by (apply Hin; set_solver).
      destruct (remove_ok c x H Hxo) as (_ & _ & _ & Hmem).
      destruct (IH (remove x c) c0 (out ++ [pg_group x.2])) as [H1 H2]; [eapply emits_trans; [exact He|by apply remove_emits]|done| |].
      { intros y Hy. apply Hmem. split; [apply Hin; set_solver|]. intros E. apply Hx. rewrite <- E. by apply list_elem_of_fmap_2. }
      split; [done|]. intros y. rewrite H2, Hmem. simpl. split.
      * intros [[Hy Hne] Ht]. split; [done|]. intros [->|Hy']%elem_of_cons; [done|by apply Ht].
      * intros [Hy Ht]. split; [split; [done|]|intros Hy'; apply Ht; set_solver]. intros E. assert (y = x) as ->; [|specialize (Ht ltac:(set_solver)); lia].
        pose proof (co_els _ H) as Hnde. apply list_elem_of_lookup in Hy as [i Hi]. apply list_elem_of_lookup in Hxo as [j Hj].
        assert (i = j) as ->; [|congruence]. eapply (NoDup_lookup _ _ _ y.1 Hnde); rewrite list_lookup_fmap, ?Hi, ?Hj; simpl; congruence.
    + destruct (IH c c0 out He Hnd') as [H1 H2]; [set_solver|]. split; [done|]. intros y. rewrite H2. split; intros [Hy Ht]; split; try done.
      * intros [->|Hy']%elem_of_cons; [done|by apply Ht].
      * intros Hy'. apply Ht. set_solver.
Qed.

Lemma Expire_emits now c c' gs :
  cor_ok c → Expire now c = (c', gs) →
  emits c [] c' gs ∧ ∀ x, x ∈ order c' ↔ x ∈ order c ∧ Sub now (pg_first x.2) < c_timeout c.
Proof.
  intros H He. unfold Expire in He. destruct (expire_emits now (order c) c c [] (emits_nothing c H) (co_els _ H)) as [H1 H2]; [done|].
  rewrite He in H1, H2. split; [done|]. intros x. rewrite H2. simpl. tauto.
Qed.

Lemma flush_emits els : ∀ c c0 out,
  emits c0 [] c out → order c = els →
  let p := flush_loop els c out in emits c0 [] p.1 p.2 ∧ order p.1 = [].
Proof.
  induction els as [|x els IH]; intros c c0 out He Ho; cbn [flush_loop]; [done|].
  pose proof (em_ok _ _ _ _ He) as H. assert (Hx : x ∈ order c) by (rewrite Ho; set_solver).
  apply IH; [eapply emits_trans; [exact He|by apply remove_emits]|].
  unfold remove. simpl. rewrite Ho. apply (filter_el [] els x). rewrite <- Ho. apply H.
Qed.

Lemma Flush_emits c c' gs : cor_ok c → Flush c = (c', gs) → emits c [] c' gs ∧ order c' = [].
Proof.
  intros H He. unfold Flush in He. destruct (flush_emits (order c) c c [] (emits_nothing c H) eq_refl) as [H1 H2].
  by rewrite He in H1, H2.
Qed.

(** ** Run *)

Definition left_over (ph : run_phase) : list Group :=
  match ph with Sending gs _ | Draining gs => gs | Selecting | Returned => [] end.

(** Nothing is open once the correlator was flushed for the last time. *)
Definition flushed (ph : run_phase) : bool :=
  match ph with Sending _ finished => finished | Draining _ | Returned => true | Selecting => false end.

Record run_inv (c0 : Correlator) (x : run) : Prop := {
  ri_ok : cor_ok (r_cor x);
  ri_records : ∀ id, filter (λ r, rec_AuditID r = id) (received x) =
                     records_of id (closed_groups x) ++ records_of id (open_groups (r_cor x));
  ri_closed : closed_groups x = delivered x ++ left_over (r_phase x) ++ given_up x;
  ri_groups : ∀ g, g ∈ closed_groups x → group_ok g;
  ri_flushed : flushed (r_phase x) = true → order (r_cor x) = [];
  ri_given_up : given_up x = [] ∨ r_phase x = Returned;
  ri_metrics : EventsDropped (c_metrics (r_cor x)) =
    match given_up x with [] => EventsDropped (c_metrics c0) | _ => u64 (EventsDropped (c_metrics c0) + Z.of_nat (length (given_up x))) end;
  ri_bound : Z.of_nat (size (pending (r_cor x))) <= maxPending (r_cor x) ∧ maxPending (r_cor x) = maxPending c0
}.

(** An operation of the correlator inside the loop, whose groups are to be sent. *)
Lemma run_op c0 x r c gs ph box :
  run_inv c0 x → emits (r_cor x) r c gs → left_over (r_phase x) = [] → given_up x = [] →
  left_over ph = gs → (flushed ph = true → order c = []) → Z.of_nat (size (pending c)) <= maxPending c →
  run_inv c0 (mkRun c box (in_closed x) (cancelled x) ph (delivered x) (received x ++ r) (closed_groups x ++ gs) (given_up x)).
Proof.
  intros [I1 I2 I3 I4 I5 I6 I7 [I8 I9]] [E1 E2 E3 (E4 & E5 & E6)] Hl Hg Hph Hf Hb. constructor; simpl; auto.
  - intros id. by rewrite filter_app, I2, <- app_assoc, E2, records_app, app_assoc.
  - rewrite I3, Hl, Hg, Hph, !app_nil_r. done.
  - intros g [Hg'|Hg']%elem_of_app; auto.
  - by rewrite E6.
  - split; [done|congruence].
Qed.

Lemma shrink_bound c c' ins gs : cor_ok c → emits c ins c' gs → (length (order c') <= length (order c))%nat →
  Z.of_nat (size (pending c)) <= maxPending c → Z.of_nat (size (pending c')) <= maxPending c'.
Proof.
  intros H [E1 _ _ (E4 & _)] Hl Hb. rewrite (pending_size c H) in Hb. rewrite (pending_size c' E1), E4. lia.
Qed.

Lemma Expire_shorter now c : (length (order (Expire now c).1) <= length (order c))%nat.
Proof.
  unfold Expire. assert (H : ∀ els c out, (length (order (expire_loop now els c out).1) <= length (order c))%nat); [|apply H].
  induction els as [|x els IH]; intros c1 out; cbn [expire_loop]; [simpl; lia|]. destruct (_ <=? _); [|apply IH].
  etrans; [apply IH|]. unfold remove. simpl. apply length_filter.
Qed.

Lemma run_step_inv c0 e x y : run_inv c0 x → run_step e x = Some y → run_inv c0 y.
Proof.
  intros H Hs. pose proof H as [I1 I2 I3 I4 I5 I6 I7 [I8 I9]]. unfold run_step in Hs.
  destruct e, (r_phase x) as [|[|g gs] fin|[|g gs]|] eqn:Ep; try discriminate;
    try (destruct (in_closed x); [discriminate|]; injection Hs as <-; constructor; simpl; rewrite ?Ep; by auto);
    try (injection Hs as <-; constructor; simpl; rewrite ?Ep; by auto).
  - destruct (cancelled x); [|done]. destruct (Flush (r_cor x)) as [c gs] eqn:Ef. injection Hs as <-.
    destruct (Flush_emits _ _ _ I1 Ef) as [He Ho]. destruct I6 as [I6|]; [|congruence].
    unfold with_phase. rewrite <- (app_nil_r (received x)).
    apply (run_op c0 x [] c gs); auto; [by rewrite Ep|]. eapply shrink_bound; [exact I1|exact He|rewrite Ho; simpl; lia|done].
  - destruct (inbox x) as [|r box].
    + destruct (in_closed x) eqn:Ei; [|done]. destruct (Flush (r_cor x)) as [c gs] eqn:Ef. injection Hs as <-.
      destruct (Flush_emits _ _ _ I1 Ef) as [He Ho]. destruct I6 as [I6|]; [|congruence].
      unfold with_phase. rewrite <- (app_nil_r (received x)).
      apply (run_op c0 x [] c gs); auto; [by rewrite Ep|]. eapply shrink_bound; [exact I1|exact He|rewrite Ho; simpl; lia|done].
    + destruct (Add r now (r_cor x)) as [c gs] eqn:Ea. injection Hs as <-. destruct (Add_emits _ _ _ _ _ I1 Ea) as [He Hb].
      destruct I6 as [I6|]; [|congruence]. apply run_op; auto; [by rewrite Ep|done].
  - destruct (Expire now (r_cor x)) as [c gs] eqn:Ex. injection Hs as <-. destruct (Expire_emits _ _ _ _ I1 Ex) as [He _].
    destruct I6 as [I6|]; [|congruence]. unfold with_phase. rewrite <- (app_nil_r (received x)).
    apply (run_op c0 x [] c gs); auto; [by rewrite Ep|done|]. eapply shrink_bound; [exact I1|exact He| |done].
    pose proof (Expire_shorter now (r_cor x)) as Hl. by rewrite Ex in Hl.
  - injection Hs as <-. destruct I6 as [I6|]; [|congruence]. constructor; simpl; auto. by rewrite I3, <- !app_assoc.
  - injection Hs as <-. destruct I6 as [I6|]; [|congruence]. constructor; simpl; auto. by rewrite I3, <- !app_assoc.
  - destruct (cancelled x); [|done]. destruct I6 as [I6|]; [|congruence]. destruct fin.
    + injection Hs as <-. unfold with_phase. constructor; simpl; rewrite ?app_nil_r; auto.
    + destruct (Flush (r_cor x)) as [c rest] eqn:Ef. injection Hs as <-. destruct (Flush_emits _ _ _ I1 Ef) as [He Ho].
      pose proof (shrink_bound _ _ _ _ I1 He ltac:(rewrite Ho; simpl; lia) I8) as Hb. destruct He as [E1 E2 E3 (E4 & E5 & E6)].
      unfold with_phase. constructor; simpl; auto.
      * intros id. specialize (E2 id). rewrite filter_nil, app_nil_r in E2. by rewrite I2, records_app, <- app_assoc, E2.
      * rewrite I3, I6. simpl. by rewrite !app_nil_r, <- app_assoc.
      * intros g' [Hg|Hg]%elem_of_app; auto.
      * by rewrite E6.
      * split; [done|congruence].
  - injection Hs as <-. destruct I6 as [I6|]; [|congruence]. constructor; simpl; auto.
    + destruct I1. by constructor.
    + rewrite I3, I6. simpl. by rewrite app_nil_r.
    + by rewrite I7, I6.
  - destruct fin; injection Hs as <-; unfold with_phase; constructor; simpl in *; rewrite ?app_nil_r; auto; naive_solver.
  - injection Hs as <-; unfold with_phase; constructor; simpl in *; rewrite ?app_nil_r; auto.
Qed.

Lemma run_all_inv c0 es : ∀ x y, run_inv c0 x → run_all es x = Some y → run_inv c0 y.
Proof.
  induction es as [|e es IH]; intros x y H; simpl; [by intros [= <-]|]. destruct (run_step e x) as [x1|] eqn:E; [|done].
  apply IH. by eapply run_step_inv.
Qed.

Definition new_run (timeout : duration) (max : Z) (m : option Metrics.Agent) : run := run_start (NewCorrelator timeout max m).

Lemma new_run_inv timeout max m : run_inv (NewCorrelator timeout max m) (new_run timeout max m).
Proof.
  assert (Hm : 0 < maxPending (NewCorrelator timeout max m)).
  { unfold NewCorrelator, defaultMaxPendingEvents. simpl. destruct (Z.leb_spec max 0); lia. }
  constructor; simpl; auto; try set_solver.
  - constructor; try done; try apply NoDup_nil_2; try (intros x Hx; by apply elem_of_nil in Hx).
    intros id el. cbn [pending NewCorrelator order]. rewrite lookup_empty. split; [done|]. by intros (pg & Hp%elem_of_nil & _).
  - rewrite map_size_empty. simpl in Hm. lia.
Qed.

(** C14: No record is lost, mixed up or reordered in the correlator.  In every order of
    events, for every audit id, the records received with that id are, in their order,
    the records of the groups of that id that were delivered, are being delivered or were
    given up, followed by those still open; a delivered group has records of its own
    audit id only.  When Run has returned nothing is open, and the groups given up in the
    grace period are counted as dropped. *)
Theorem no_record_lost timeout max m es x :
  run_all es (new_run timeout max m) = Some x →
  (∀ id, filter (λ r, rec_AuditID r = id) (received x) =
         records_of id (delivered x ++ left_over (r_phase x) ++ given_up x) ++ records_of id (open_groups (r_cor x))) ∧
  (∀ g, g ∈ delivered x → group_ok g) ∧
  (r_phase x = Returned → open_groups (r_cor x) = [] ∧
   (given_up x ≠ [] → EventsDropped (c_metrics (r_cor x)) =
      u64 (EventsDropped (default zero_agent m) + Z.of_nat (length (given_up x))))).
Proof.
  intros H. destruct (run_all_inv _ _ _ _ (new_run_inv timeout max m) H) as [I1 I2 I3 I4 I5 I6 I7 _]. split_and!.
  - intros id. by rewrite I2, I3.
  - intros g Hg. apply I4. rewrite I3. set_solver.
  - intros Hr. unfold open_groups. rewrite I5 by (by rewrite Hr). split; [done|]. intros Hne. rewrite I7. by destruct (given_up x).
Qed.

(** The correlator is bounded: however many records with distinct audit ids arrive
    and are never closed, it never holds more open groups than its limit between two
    operations, whatever the order of events. *)
Theorem open_groups_bounded timeout max m es x :
  run_all es (new_run timeout max m) = Some x → Pending (r_cor x) <= if max <=? 0 then defaultMaxPendingEvents else max.
Proof.
  intros H. destruct (run_all_inv _ _ _ _ (new_run_inv timeout max m) H) as [_ _ _ _ _ _ _ [I8 I9]]. unfold Pending. rewrite I9 in I8. done.
Qed.

(** No group waits longer than its timeout for a tick: when Expire at [now] returns,
    exactly the groups whose first record is younger than the timeout are still open, and
    the others have been given out, oldest first. *)
Theorem expire_exact timeout max m es x now :
  run_all es (new_run timeout max m) = Some x →
  let p := Expire now (r_cor x) in
  (∀ el, el ∈ order p.1 ↔ el ∈ order (r_cor x) ∧ Sub now (pg_first el.2) < c_timeout (r_cor x)) ∧
  p.2 = pg_group ∘ snd <$> filter (λ el, c_timeout (r_cor x) <= Sub now (pg_first el.2)) (order (r_cor x)).
Proof.
  intros H. destruct (run_all_inv _ _ _ _ (new_run_inv timeout max m) H) as [I1 _ _ _ _ _ _ _]. cbv zeta.
  destruct (Expire now (r_cor x)) as [c gs] eqn:E. destruct (Expire_emits _ _ _ _ I1 E) as [_ Hx]. split; [done|]. simpl.
  assert (Hl : ∀ els c out, (expire_loop now els c out).2 = out ++ (pg_group ∘ snd <$> filter (λ el, c_timeout c <= Sub now (pg_first el.2)) els)).
  { induction els as [|y els IH]; intros c1 out; cbn [expire_loop]; [by rewrite filter_nil, app_nil_r|]. rewrite filter_cons.
    destruct (Z.leb_spec (c_timeout c1) (Sub now (pg_first y.2))); [rewrite decide_True by done|rewrite decide_False by lia]; rewrite IH; [|done].
    rewrite <- app_assoc. done. }
  specialize (Hl (order (r_cor x)) (r_cor x) []). unfold Expire in E. rewrite E in Hl. exact Hl.
Qed.

(** ** A run *)

Definition demo_record (typ : RecordType) (id : string) (serial : Z) : AuditRecord := mkRecord typ "" 0 serial id ∅ "".

(** Two groups that interleave, one closed by its marker and one by the shutdown. *)
Definition demo_events : list run_event :=
  [Produce (Some (demo_record 1300 "1.0:1" 1)); Produce (Some (demo_record 1300 "1.0:2" 2)); Produce (Some (demo_record TypeEoe "1.0:1" 1));
   SelectRecord 10; Continue; SelectRecord 11; Continue; SelectRecord 12; Deliver; Continue; Cancel; SelectDone; GraceOver].

Definition demo_run : run := default (new_run 5 0 None) (run_all demo_events (new_run 5 0 None)).

Lemma no_record_lost_witness :
  (∀ id, filter (λ r, rec_AuditID r = id) (received demo_run) =
         records_of id (delivered demo_run ++ left_over (r_phase demo_run) ++ given_up demo_run) ++ records_of id (open_groups (r_cor demo_run))) ∧
  (∀ g, g ∈ delivered demo_run → group_ok g) ∧
  (r_phase demo_run = Returned → open_groups (r_cor demo_run) = [] ∧
   (given_up demo_run ≠ [] → EventsDropped (c_metrics (r_cor demo_run)) = u64 (0 + Z.of_nat (length (given_up demo_run))))).
Proof. apply (no_record_lost 5 0 None demo_events demo_run). vm_compute. reflexivity. Defined.

Lemma open_groups_bounded_witness : Pending (r_cor demo_run) <= 4096.
Proof. apply (open_groups_bounded 5 0 None demo_events demo_run). vm_compute. reflexivity. Defined.

(** The same run when both groups are open. *)
Definition demo_half : run := default (new_run 5 0 None) (run_all (take 7 demo_events) (new_run 5 0 None)).

Lemma expire_exact_witness :
  length (order (r_cor demo_half)) = 2%nat ∧
  (∀ el, el ∈ order (Expire 15 (r_cor demo_half)).1 ↔ el ∈ order (r_cor demo_half) ∧ Sub 15 (pg_first el.2) < c_timeout (r_cor demo_half)) ∧
  (Expire 15 (r_cor demo_half)).2 =
  pg_group ∘ snd <$> filter (λ el, c_timeout (r_cor demo_half) <= Sub 15 (pg_first el.2)) (order (r_cor demo_half)).
Proof.
  split; [vm_compute; reflexivity|].
  apply (expire_exact 5 0 None (take 7 demo_events) demo_half 15). vm_compute. reflexivity.
Defined.

(** A record that is in the input channel when the context is cancelled: Run returns, the
    record is neither delivered nor counted. *)
Example cancel_drops_input :
  let r := demo_record 1300 "1.0:1" 1 in
  match run_all [Produce (Some r); Cancel; SelectDone; Continue] (new_run 5 0 None) with
  | Some x => (r_phase x, inbox x, delivered x, given_up x, EventsDropped (c_metrics (r_cor x))) = (Returned, [Some r], [], [], 0)
  | None => False
  end.
Proof. vm_compute. reflexivity. Qed.

