(* ===== verification/Pipeline.v ===== *)
(** * The entrance to the event stream

    [SauronAgent/internal/agent/agent.go]: what [New] and [Run] wire together.  Several
    goroutines (the normalizer, the callbacks of the listener, the sender's reports about
    itself, the loss poller) hand events to [submit], which numbers them and puts them
    into the queue the sender's pump reads.

    The state is what they share: the sequencer, the queue and [streamClosed].  Four
    ghost fields that no operation reads record the history: the events submitted, those
    the pump took, the overflow ranges drained from the queue, and what was written to
    the log about a loss.  What the spool and the sender have lost is an input here; the
    files [Spool] and [Sender] model where it comes from. *)

From S2P Require Import Prelude Event Metrics Sequencer Queue Threads InternalEvents AuditRecords.

Definition overflow : Type := Z * Z * Z.

(** The lines of the log that stand for an event which cannot be delivered. *)
Inductive log_line : Type :=
| LossNotReported (r : overflow)
| ProducedAfterClose (e : Event).

Record pipeline : Type := mkPipeline {
  p_seq : sequencer;
  p_queue : Queue;
  streamClosed : bool;
  issued : list Event;
  taken : list Event;
  drained : list overflow;
  log : list log_line
}.

Definition with_queue (s : pipeline) (q : Queue) : pipeline :=
  mkPipeline (p_seq s) q (streamClosed s) (issued s) (taken s) (drained s) (log s).
Definition add_log (l : log_line) (s : pipeline) : pipeline :=
  mkPipeline (p_seq s) (p_queue s) (streamClosed s) (issued s) (taken s) (drained s) (log s ++ [l]).

(** The counters are shared with the queue, which holds the pointer. *)
Definition with_metrics (f : Agent → Agent) (q : Queue) : Queue :=
  mkQueue (buf q) (Queue.head q) (Queue.n q) (closed q) (notify q) (waiters q) (dropped q) (firstMissing q) (lastMissing q) (f <$> metrics q).

Notation P := (prog pipeline).

(** The critical section of [submitMu] in [submit]; the result is the event as numbered
    and whether the stream was closed. *)
Definition submit_locked (e : Event) (s : pipeline) : pipeline * (Event * bool) :=
  let '(sq, e', _) := assign (p_seq s) (Some e) in
  let e := default e e' in
  let q := with_metrics (count_EventsCreated 1) (p_queue s) in
  let '(q, _) := Put q (Some e) in
  (mkPipeline sq q (streamClosed s) (issued s ++ [e]) (taken s) (drained s) (log s), (e, streamClosed s)).

Definition submit (e : option Event) : P () :=
  match e with
  | None => mret ()
  | Some e =>
      p ← both (submit_locked e);
      if p.2 : bool then write (add_log (ProducedAfterClose p.1)) else mret ()
  end.

(** [submitMu] is held, and nothing else writes the counter: the compare-and-swap loop
    runs undisturbed and ends within three rounds. *)
Definition resumeNumbering (hostThrough : Z) : P () :=
  write (λ s,
    let '(n, _) := adv_run 3 (next (p_seq s)) (advanceTo (u64 (hostThrough + 1))) in
    mkPipeline (mkSequencer n (bootID (p_seq s))) (p_queue s) (streamClosed s) (issued s) (taken s) (drained s) (log s)).

(** [a.queue.Len() >= a.queue.Cap()] *)
Definition queue_full : P bool := read (λ s, bool_decide (Cap (p_queue s) ≤ Len (p_queue s))%nat).

Definition reportLoss (e : Event) (r : overflow) : P () :=
  full ← queue_full;
  if full : bool then write (add_log (LossNotReported r)) else submit (Some e).

Definition drain_overflow : P (option overflow) :=
  both (λ s, let '(q, r) := DrainOverflow (p_queue s) in
             (mkPipeline (p_seq s) q (streamClosed s) (issued s) (taken s) (drained s ++ option_list r) (log s), r)).

Definition spool_error_fields (r : overflow) : gmap string any :=
  let '(dropped, first, last) := r in
  {[ "events_dropped" := AnyInt dropped; "first_missing_sequence" := AnyInt first;
     "last_missing_sequence" := AnyInt last; "reason" := AnyString "the spool refused the event" ]}.

(** What [drainLosses] finds outside the queue: the clock at each report, what
    [spool.DrainDropped] returns ([None] also without a spool) and what
    [send.drainAppendFailures] returns. *)
Record loss_inputs : Type := mkLossInputs {
  li_now1 : time; li_now2 : time; li_now3 : time;
  li_spool : option overflow;
  li_append : option overflow
}.

Definition report_if (r : option overflow) (mk : overflow → Event) : P () :=
  match r with Some r => reportLoss (mk r) r | None => mret () end.

Definition drainLosses (final : bool) (i : loss_inputs) : P () :=
  full ← queue_full;
  if negb final && full then mret ()
  else
    r ← drain_overflow;
    report_if r (λ '(d, f, l), NewQueueOverflow (li_now1 i) d f l);;
    report_if (li_spool i) (λ '(d, f, l), NewSpoolFull (li_now2 i) d f l);;
    report_if (li_append i) (λ r, NewInternal (li_now3 i) TypeSpoolError "" (spool_error_fields r)).

(** [event.NewInternal(event.TypeAgentStopping, ...)]: the fields are read one by one,
    the uptime and what the spool still holds are inputs. *)
Definition stopping_event (now : time) (uptime remaining : Z) : P Event :=
  m ← read (λ s, default zero_agent (metrics (p_queue s)));
  depth ← read (λ s, Len (p_queue s));
  last ← read (λ s, u64 (peek (p_seq s) - 1));
  mret (NewInternal now TypeAgentStopping ""
          {[ "uptime_seconds" := AnyInt uptime; "events_created" := AnyInt (EventsCreated m);
             "events_sent" := AnyInt (EventsSent m); "events_dropped" := AnyInt (EventsDropped m);
             "queue_depth" := AnyInt (Z.of_nat depth); "last_sequence" := AnyInt last;
             "spool_remaining" := AnyInt remaining ]}).

Definition close_stream : P () :=
  write (λ s, mkPipeline (p_seq s) (p_queue s) true (issued s) (taken s) (drained s) (log s));;
  write (λ s, with_queue s (Close (p_queue s))).

(** The last branch of [pollLosses], after the context is done and collection is. *)
Definition poll_final (i : loss_inputs) (now : time) (uptime remaining : Z) : P () :=
  drainLosses true i;;
  e ← stopping_event now uptime remaining;
  submit (Some e);;
  close_stream.

(** The callbacks of [listenerOptions]. *)
Definition OnParseError (now : time) (raw : RawMessage) (err : string) : P () :=
  submit (Some (NewParseFailure now (msg_Data raw) err)).
Definition OnKernelLoss (now : time) (lost : Z) : P () := submit (Some (NewKernelRecordsLost now lost)).

(** [excludedTypes]: unknown names are left out. *)
Definition excludedTypes (names : list string) : list Z := omap RecordTypeByName names.

(** ** The start *)

(** The first number: above what the spool holds, or 1 without a spool. *)
Definition start_number (lastSequence : option Z) : Z :=
  match lastSequence with Some n => u64 (n + 1) | None => 1 end.

Definition new_pipeline (capacity : Z) (boot : string) (lastSequence : option Z) : pipeline :=
  mkPipeline (newSequencer (start_number lastSequence) boot) (New capacity (Some zero_agent)) false [] [] [] [].

(** [Run] submits this event before it starts any stage. *)
Definition started_event (now : time) (version hostname kernel : string) (audit spool : bool) (s : pipeline) : Event :=
  NewInternal now TypeAgentStarted ""
    {[ "agent_version" := AnyString version; "hostname" := AnyString hostname; "kernel" := AnyString kernel;
       "audit_enabled" := AnyBool audit; "spool_enabled" := AnyBool spool;
       "first_sequence" := AnyInt (peek (p_seq s)) ]}.

(** ** The goroutines *)

(** A system: the shared state and what each goroutine still has to do. *)
Record agent : Type := mkAgentState { shared : pipeline; threads : gmap nat (P ()) }.

(** What a goroutine does: hand in an event, lift the numbering to a position of the
    host, drain the losses on a tick, drain them a last time and close the stream, or
    close the queue ([Agent.Close] and the deferred call in [Run]). *)
Inductive request : Type :=
| Submit (e : Event)
| ParseError (now : time) (raw : RawMessage) (err : string)
| KernelLoss (now : time) (lost : Z)
| Resume (hostThrough : Z)
| Tick (i : loss_inputs)
| Final (i : loss_inputs) (now : time) (uptime remaining : Z)
| CloseQueue.

Definition program (r : request) : P () :=
  match r with
  | Submit e => submit (Some e)
  | ParseError now raw err => OnParseError now raw err
  | KernelLoss now lost => OnKernelLoss now lost
  | Resume h => resumeNumbering h
  | Tick i => drainLosses false i
  | Final i now up rem => poll_final i now up rem
  | CloseQueue => write (λ s, with_queue s (Close (p_queue s)))
  end.

(** An event comes to [submit] without a number. *)
Definition unnumbered (r : request) : bool :=
  match r with Submit e => Sequence e =? 0 | _ => true end.

(** The pump takes an event from the queue. *)
Definition pump_take (s : pipeline) : pipeline :=
  let '(q, (e, _)) := TryGet (p_queue s) in
  mkPipeline (p_seq s) q (streamClosed s) (issued s) (taken s ++ option_list e) (drained s) (log s).

(** What happens next: a goroutine starts, a goroutine does its next action, the pump
    takes an event. *)
Inductive agent_event : Type := Spawn (t : nat) (r : request) | Run (t : nat) | Pump.

(** The last number is never issued: a step needs room above the counter. *)
Definition agent_do (ev : agent_event) (x : agent) : option agent :=
  match ev with
  | Spawn t r =>
      if unnumbered r && negb (bool_decide (is_Some (threads x !! t)))
      then Some (mkAgentState (shared x) (<[t := program r]> (threads x))) else None
  | Run t =>
      if next (p_seq (shared x)) + 1 <? u64_mod then
        match threads x !! t with
        | Some p => match advance p (shared x) with
                    | Some (s, p) => Some (mkAgentState s (<[t := p]> (threads x)))
                    | None => None
                    end
        | None => None
        end
      else None
  | Pump => Some (mkAgentState (pump_take (shared x)) (threads x))
  end.

Fixpoint agent_run (evs : list agent_event) (x : agent) : option agent :=
  match evs with
  | [] => Some x
  | ev :: evs => match agent_do ev x with Some x => agent_run evs x | None => None end
  end.

Definition agent_start (capacity : Z) (boot : string) (lastSequence : option Z) : agent :=
  mkAgentState (new_pipeline capacity boot lastSequence) ∅.
