(* ===== verification/PipelineProofs.v ===== *)
(** * Order and accounting of the event stream

    In every interleaving of the goroutines of [Pipeline]: the pump takes events in the
    order of their numbers, and every event that was given a number is taken, queued, or
    covered by a loss that was reported to the host or written to the log. *)

From S2P Require Import Prelude Event Metrics Sequencer Queue Threads InternalEvents AuditRecords Pipeline.

(** ** The invariant *)

(** The numbers of a list of events. *)
Notation numbers l := (Sequence <$> l).

(** [a] is the queue's contents, [lost] what its accounting stands for, [ls] what the
    ranges drained so far stand for. *)
Record pipe_inv (start : Z) (s : pipeline) (a : fifo.t) (lost : list Event) (ls : list (list Event)) : Prop := {
  pi_sim : sim (p_queue s) (a, lost);
  pi_drained : Forall2 (λ l r, fifo.report l (Some r)) ls (drained s);
  pi_all : issued s ≡ₚ taken s ++ fifo.items a ++ lost ++ concat ls;
  pi_sub : sublist (taken s ++ fifo.items a) (issued s);
  pi_sorted : StronglySorted Z.lt (numbers (issued s));
  pi_range : Forall (λ e, start <= Sequence e < next (p_seq s)) (issued s);
  pi_next : 0 < start <= next (p_seq s) ∧ next (p_seq s) < u64_mod;
  pi_count : Z.of_nat (length (issued s)) < next (p_seq s)
}.

Definition pipe_ok (start : Z) (s : pipeline) : Prop := ∃ a lost ls, pipe_inv start s a lost ls.

(** What changes only the log or the flag. *)
Lemma pipe_ok_upd start s s' :
  p_seq s' = p_seq s → p_queue s' = p_queue s → issued s' = issued s → taken s' = taken s → drained s' = drained s →
  pipe_ok start s → pipe_ok start s'.
Proof.
  intros E1 E2 E3 E4 E5 (a & lost & ls & [H1 H2 H3 H4 H5 H6 H7 H8]). exists a, lost, ls. constructor; rewrite ?E1, ?E2, ?E3, ?E4, ?E5; done.
Qed.

Lemma sorted_snoc l x : StronglySorted Z.lt l → Forall (λ y, y < x) l → StronglySorted Z.lt (l ++ [x]).
Proof.
  induction 1 as [|y l Hs IH Hy]; intros Hx; simpl; [repeat constructor|]. inversion Hx; subst.
  constructor; [by apply IH|]. apply Forall_app. split; [done|by repeat constructor].
Qed.

Lemma pipe_sorted_sublist l k : sublist l k → StronglySorted Z.lt k → StronglySorted Z.lt l.
Proof.
  induction 1 as [|x l k Hs IH|x l k Hs IH]; intros H; inversion H; subst; [done| |by apply IH].
  constructor; [by apply IH|]. apply Forall_forall. intros y Hy. rewrite Forall_forall in H3. apply H3.
  by eapply elem_of_sublist.
Qed.

Lemma sublist_numbers l k : sublist l k → sublist (numbers l) (numbers k).
Proof. by induction 1; constructor. Qed.

Lemma with_metrics_sim f q x : sim q x → sim (with_metrics f q) x.
Proof.
  intros (H1 & H2 & H3). split_and!; [by apply (repr_upd q)|by apply (acct_upd q)|done].
Qed.

(** ** Submitting *)

Lemma assign_new sq e : Sequence e = 0 → 0 < next sq → next sq + 1 < u64_mod →
  ∃ e', assign sq (Some e) = (mkSequencer (next sq + 1) (bootID sq), Some e', next sq) ∧
    Sequence e' = next sq ∧ Type_ e' = Type_ e ∧ Fields e' = Fields e.
Proof.
  intros He Hn Hlt. unfold assign. rewrite He. simpl.
  rewrite (u64_small (next sq + 1)), (u64_small (next sq + 1 - 1)) by (unfold is_u64; lia).
  replace (next sq + 1 - 1) with (next sq) by lia. destruct (String.eqb _ _); eexists; split_and!; done.
Qed.

(** What the abstract queue does with an event keeps every event somewhere. *)
Lemma put_keeps a e : (0 < fifo.capacity a)%nat →
  let p := fifo.put a e in
  fifo.items a ++ [e] ≡ₚ fifo.items p.1 ++ p.2 ∧ sublist (fifo.items p.1) (fifo.items a ++ [e]).
Proof.
  intros Hc. cbv zeta. unfold fifo.put. destruct (fifo.is_closed a); simpl; [split; [done|by apply sublist_inserts_r]|].
  destruct (Nat.eqb_spec (length (fifo.items a)) (fifo.capacity a)) as [E|E]; simpl; [|by rewrite app_nil_r].
  destruct (fifo.items a) as [|x xs] eqn:Ex; simpl in *; [lia|]. split; [|by apply sublist_cons].
  solve_Permutation.
Qed.

Lemma submit_ok start e s s' e' c : Sequence e = 0 → next (p_seq s) + 1 < u64_mod → pipe_ok start s →
  submit_locked e s = (s', (e', c)) →
  pipe_ok start s' ∧ issued s' = issued s ++ [e'] ∧ log s' = log s ∧ drained s' = drained s ∧
  Type_ e' = Type_ e ∧ Fields e' = Fields e.
Proof.
  intros He Hlt (a & lost & ls & [H1 H2 H3 H4 H5 H6 H7 H8]) E. unfold submit_locked in E.
  destruct (assign_new (p_seq s) e He) as (e1 & Ha & Hq & Ht & Hf); [lia|done|]. rewrite Ha in E. simpl in E.
  set (q := with_metrics _ _) in E. assert (Hsim : sim q (a, lost)) by by apply with_metrics_sim.
  assert (Hpos : (0 <= Sequence e1)%Z) by lia.
  assert (Hb : (Z.of_nat (length lost) + 1 < u64_mod)%Z).
  { pose proof (Permutation_length H3) as Hlen. rewrite !length_app in Hlen. lia. }
  pose proof (Put_repr q a e1 (proj1 Hsim)) as [Hr _]. pose proof (Put_acct q a e1 lost Hsim Hpos Hb) as Hacct.
  pose proof (put_items_pos a e1 (proj2 (proj2 Hsim)) Hpos) as Hip.
  pose proof (put_keeps a e1 (repr_pos _ _ (proj1 Hsim))) as [Hk1 Hk2].
  destruct (Put q (Some e1)) as [q' d]. injection E as <- <- <-. simpl in *. split; [|done].
  exists (fifo.put a e1).1, (lost ++ (fifo.put a e1).2), ls. constructor; simpl; try done.
  - rewrite H3. rewrite <- !app_assoc. f_equiv. rewrite (assoc (++) (fifo.items a)).
    transitivity ((fifo.items a ++ [e1]) ++ lost ++ concat ls); [solve_Permutation|]. rewrite Hk1. solve_Permutation.
  - etrans; [apply sublist_app; [reflexivity|exact Hk2]|]. rewrite app_assoc. apply sublist_app; [done|reflexivity].
  - rewrite fmap_app. apply sorted_snoc; [done|]. rewrite Hq. apply Forall_fmap. eapply Forall_impl; [exact H6|]. simpl. lia.
  - apply Forall_app. split; [eapply Forall_impl; [exact H6|]; simpl; lia|repeat constructor; lia].
  - lia.
  - rewrite length_app. simpl. lia.
Qed.

(** ** The other actions *)

Lemma adv_run_max n t : (adv_run 3 n (advanceTo t)).1 = Z.max n (if t =? 0 then 1 else t).
Proof.
  unfold advanceTo. set (u := if t =? 0 then 1 else t). simpl. destruct (Z.leb_spec u n); simpl; [lia|].
  rewrite Z.eqb_refl. simpl. lia.
Qed.

Lemma drain_ok start s q r : pipe_ok start s → DrainOverflow (p_queue s) = (q, r) →
  pipe_ok start (mkPipeline (p_seq s) q (streamClosed s) (issued s) (taken s) (drained s ++ option_list r) (log s)).
Proof.
  intros (a & lost & ls & [(Hr & Ha & Hp) H2 H3 H4 H5 H6 H7 H8]) E. simpl in *. unfold DrainOverflow in E.
  destruct (Z.eqb_spec (dropped (p_queue s)) 0) as [E0|E0]; injection E as <- <-.
  - exists a, lost, ls. constructor; simpl; rewrite ?app_nil_r; done.
  - exists a, [], (ls ++ [lost]). constructor; simpl; try done.
    + split_and!; simpl; [by apply (repr_upd (p_queue s))| |done]. split; simpl; try done; by left.
    + apply Forall2_app; [done|]. destruct Ha as [Hc Hl Hh _]. constructor; [|constructor]. split_and!; try done. intros ->. by simpl in Hc.
    + rewrite H3, concat_app. simpl. rewrite app_nil_r. solve_Permutation.
Qed.

Lemma close_ok start s : pipe_ok start s → pipe_ok start (with_queue s (Close (p_queue s))).
Proof.
  intros (a & lost & ls & [(Hr & Ha & Hp) H2 H3 H4 H5 H6 H7 H8]). exists (fifo.close a), lost, ls. constructor; simpl; try done.
  split_and!; simpl; [by apply Close_repr| |done]. eapply acct_upd; [..|exact Ha]; unfold Close; by destruct (closed _).
Qed.

Lemma pump_ok start s : pipe_ok start s → pipe_ok start (pump_take s).
Proof.
  intros (a & lost & ls & [(Hr & Ha & Hp) H2 H3 H4 H5 H6 H7 H8]). unfold pump_take, TryGet.
  pose proof (popLocked_repr _ _ Hr) as [Hr' Hd]. unfold fifo.pop in *. simpl in *.
  assert (Hacct : acct (popLocked (p_queue s)).1 lost).
  { eapply acct_upd; [..|exact Ha]; unfold popLocked; by destruct (_ =? _)%nat. }
  destruct (popLocked (p_queue s)) as [q [e ok]]. simpl in *. injection Hd as -> _.
  destruct (fifo.items a) as [|x xs] eqn:Ei; simpl in *.
  - exists a, lost, ls. constructor; simpl; rewrite ?Ei, ?app_nil_r; try done; [split_and!; simpl; rewrite ?Ei; done|by rewrite app_nil_r in H4].
  - exists (fifo.mk xs (fifo.capacity a) (fifo.is_closed a)), lost, ls. constructor; simpl; rewrite <- ?app_assoc; simpl; try done.
    split_and!; simpl; [done|done|by inversion Hp].
Qed.

Lemma resume_ok start s h : pipe_ok start s →
  let n := (adv_run 3 (next (p_seq s)) (advanceTo (u64 (h + 1)))).1 in
  pipe_ok start (mkPipeline (mkSequencer n (bootID (p_seq s))) (p_queue s) (streamClosed s) (issued s) (taken s) (drained s) (log s)).
Proof.
  intros (a & lost & ls & [H1 H2 H3 H4 H5 H6 H7 H8]). cbv zeta. rewrite adv_run_max. pose proof (u64_range (h + 1)) as Hu. unfold is_u64 in Hu.
  set (t := if _ =? 0 then 1 else _). assert (Ht : t < u64_mod) by (unfold t; destruct (_ =? 0); [done|lia]).
  exists a, lost, ls. constructor; simpl; try done; try lia. eapply Forall_impl; [exact H6|]. simpl. lia.
Qed.

Lemma new_ok capacity boot last :
  pipe_ok (next (p_seq (new_pipeline capacity boot last))) (new_pipeline capacity boot last).
Proof.
  destruct (New_repr capacity (Some zero_agent)) as (cap & Hr & _). exists (fifo.mk [] cap false), [], [].
  assert (Hs : 0 <= start_number last < u64_mod) by (destruct last; [apply u64_range|done]).
  constructor; simpl; try done; try (destruct (Z.eqb_spec (start_number last) 0); simpl; lia || done); [|constructor].
  split_and!; simpl; [done| |done]. split; simpl; try done; by left.
Qed.

#[local] Arguments adv_run : simpl never.

(** ** Programs *)

(** The history only grows. *)
Definition grows (s s' : pipeline) : Prop :=
  issued s ⊆ issued s' ∧ log s ⊆ log s' ∧ drained s ⊆ drained s'.

#[export] Instance grows_preorder : PreOrder grows.
Proof. split; [by intros s|]. intros s1 s2 s3 (H1 & H2 & H3) (H4 & H5 & H6). repeat split; by etrans. Qed.

(** The loss [r] was reported in the stream, or it is in the log. *)
Definition is_report (r : overflow) (e : Event) : Prop :=
  Type_ e = TypeQueueOverflow ∧ Fields e = Some (loss_fields r.1.1 r.1.2 r.2).
Definition reported (r : overflow) (s : pipeline) : Prop :=
  (∃ e, e ∈ issued s ∧ is_report r e) ∨ LossNotReported r ∈ log s.

Lemma reported_grows r s s' : reported r s → grows s s' → reported r s'.
Proof. intros [(e & He & Hr)|Hl] (H1 & H2 & _); [left; exists e; split; [by apply H1|done]|right; by apply H2]. Qed.

Section programs.
Context (start : Z).

(** A step of any goroutine. *)
Definition within (s s' : pipeline) : Prop :=
  grows s s' ∧ (pipe_ok start s → next (p_seq s) + 1 < u64_mod → pipe_ok start s').

(** Every action of the goroutine keeps the invariant, and a range it drains it goes on
    to report, whatever the others do in between. *)
Fixpoint sound (p : P ()) : Prop :=
  match p with
  | Done _ => True
  | Act f k =>
      ∀ s, match f s with
           | None => True
           | Some (s', x) =>
               within s s' ∧ sound (k x) ∧
               ∀ r, r ∈ drained s' → r ∈ drained s ∨ ensures grows grows (λ _, reported r) (k x) s'
           end
  end.

(** The programs that drain nothing. *)
Fixpoint quiet (p : P ()) : Prop :=
  match p with
  | Done _ => True
  | Act f k => ∀ s, match f s with None => True | Some (s', x) => within s s' ∧ drained s' = drained s ∧ quiet (k x) end
  end.

Lemma quiet_sound p : quiet p → sound p.
Proof.
  induction p as [[]|X f k IH]; [done|]. intros H s. specialize (H s). destruct (f s) as [[s' x]|]; [|done]. destruct H as (H1 & H2 & H3).
  split_and!; [done|by apply IH|]. intros r. rewrite H2. by left.
Qed.

Lemma pipe_quiet_bind (p c : P ()) : quiet p → quiet c → quiet (p ;; c).
Proof.
  intros Hp Hc. induction p as [[]|X f k IH]; [done|]. intros s. specialize (Hp s). destruct (f s) as [[s' x]|]; [|done].
  destruct Hp as (H1 & H2 & H3). split_and!; [done|done|by apply IH].
Qed.

(** What is reported stays reported through a quiet program. *)
Lemma ensures_quiet (c : P ()) r s : quiet c → reported r s → ensures grows grows (λ _, reported r) c s.
Proof.
  intros Hc. revert s. induction c as [[]|Y g h IH]; intros s Hrep; [intros s2 Hg; by eapply reported_grows|].
  intros s2 Hg. specialize (Hc s2). destruct (g s2) as [[s3 y]|]; [|done]. destruct Hc as ([Hg' _] & _ & Hq).
  split; [done|]. apply IH; [done|]. eapply reported_grows; [|exact Hg']. by eapply reported_grows.
Qed.

Lemma sound_bind (p c : P ()) : quiet c → sound p → sound (p ;; c).
Proof.
  intros Hc Hp. induction p as [[]|X f k IH]; [by apply quiet_sound|]. intros s. specialize (Hp s). destruct (f s) as [[s' x]|]; [|done].
  destruct Hp as (H1 & H2 & H3). split_and!; [done|by apply IH|]. intros r Hr. destruct (H3 r Hr) as [?|He]; [by left|right].
  apply ensures_bind; [apply _|]. eapply ensures_weaken; [exact He|]. intros [] s1 Hrep. by apply ensures_quiet.
Qed.

(** ** The stages *)

Lemma pipe_grows_same s s' : issued s ⊆ issued s' → log s' = log s → drained s' = drained s → grows s s'.
Proof. intros H1 H2 H3. unfold grows. by rewrite H2, H3. Qed.

Lemma add_log_grows l s : grows s (add_log l s).
Proof. unfold grows. simpl. set_solver. Qed.

Lemma add_log_within l s : within s (add_log l s).
Proof. split; [apply add_log_grows|]. intros H _. by eapply pipe_ok_upd; [..|exact H]. Qed.

Lemma submit_within e s s' p : Sequence e = 0 → submit_locked e s = (s', p) →
  grows s s' ∧ (pipe_ok start s → next (p_seq s) + 1 < u64_mod → pipe_ok start s') ∧ drained s' = drained s ∧ log s' = log s.
Proof.
  intros He E. destruct p as [e' c]. split.
  - unfold submit_locked in E. destruct (assign _ _) as [[sq e1] n]. destruct (Put _ _) as [q d]. injection E as <- <- <-.
    apply pipe_grows_same; simpl; set_solver.
  - split_and!; [intros Hok Hlt; by edestruct (submit_ok start e s s' e' c)|..];
      unfold submit_locked in E; destruct (assign _ _) as [[sq e1] n]; destruct (Put _ _) as [q d]; by injection E as <- <- <-.
Qed.

Lemma submit_quiet e : Sequence e = 0 → quiet (submit (Some e)).
Proof.
  intros He s. destruct (submit_locked e s) as [s' [e' c]] eqn:E. destruct (submit_within e s s' _ He E) as (H1 & H2 & H3 & H4).
  split_and!; [by split|done|]. destruct c; [|done]. intros s1. simpl. split_and!; [apply add_log_within|done|done].
Qed.

Lemma reportLoss_quiet e r : Sequence e = 0 → quiet (reportLoss e r).
Proof.
  intros He s. simpl. split_and!; [split; [reflexivity|done]|done|]. destruct (bool_decide _); [|by apply submit_quiet].
  intros s1. simpl. split_and!; [apply add_log_within|done|done].
Qed.

Lemma report_if_quiet r mk : (∀ r, Sequence (mk r) = 0) → quiet (report_if r mk).
Proof. intros H. destruct r as [r|]; [by apply reportLoss_quiet|done]. Qed.

Lemma internal_unnumbered now typ sev f : Sequence (NewInternal now typ sev f) = 0.
Proof. apply NewInternal_fields. Qed.

Lemma submit_appends e s s' e' c : submit_locked e s = (s', (e', c)) →
  e' ∈ issued s' ∧ Type_ e' = Type_ e ∧ Fields e' = Fields e.
Proof.
  unfold submit_locked, assign. destruct (Sequence e =? 0); simpl; destruct (Put _ _) as [q n]; intros [= <- <- <-]; simpl;
    (split; [apply elem_of_app; right; by apply list_elem_of_singleton|]); by destruct (String.eqb _ _).
Qed.

Lemma overflow_is_report now d f l e : Type_ e = Type_ (NewQueueOverflow now d f l) →
  Fields e = Fields (NewQueueOverflow now d f l) → is_report (d, f, l) e.
Proof.
  unfold NewQueueOverflow. pose proof (NewInternal_fields now TypeQueueOverflow SeverityCritical (loss_fields d f l)) as (Hf & Hn & Ht & _).
  intros E1 E2. split; [by rewrite E1|]. rewrite E2. simpl. destruct (Fields (NewInternal _ _ _ _)) as [m|]; [by rewrite <- Hf|].
  by destruct (insert_non_empty (<[fieldFirstMissing := AnyInt f]> {[fieldLastMissing := AnyInt l]} : gmap string any) fieldEventsDropped (AnyInt d) (proj1 Hn eq_refl)).
Qed.

(** A report that is submitted is in the stream. *)
Lemma reportLoss_reports now d f l s :
  ensures grows grows (λ _, reported (d, f, l)) (reportLoss (NewQueueOverflow now d f l) (d, f, l)) s.
Proof.
  intros s1 _. split; [reflexivity|]. assert (He : Sequence (NewQueueOverflow now d f l) = 0) by apply internal_unnumbered.
  pose proof (overflow_is_report now d f l) as Hrep. revert He Hrep. generalize (NewQueueOverflow now d f l). intros e He Hrep.
  destruct (bool_decide _).
  - intros s2 _. split; [apply add_log_grows|]. intros s3 Hg. eapply reported_grows; [|exact Hg].
    right. apply elem_of_app. right. by apply list_elem_of_singleton.
  - intros s2 _. destruct (submit_locked e s2) as [s3 [e' c]] eqn:E. destruct (submit_appends _ _ _ _ _ E) as (Hin & Ht & Hf).
    assert (Hr : reported (d, f, l) s3) by (left; exists e'; auto).
    destruct (submit_within e s2 s3 _ He E) as (Hg & _). split; [done|].
    destruct c; [|intros s4 Hg4; by eapply reported_grows].
    intros s4 Hg4. split; [apply add_log_grows|]. intros s5 Hg5. eapply reported_grows; [|exact Hg5].
    eapply reported_grows; [by eapply reported_grows|]. apply add_log_grows.
Qed.

Lemma drain_sound now (c : P ()) : quiet c →
  sound (r ← drain_overflow; report_if r (λ '(d, f, l), NewQueueOverflow now d f l);; c).
Proof.
  intros Hc s. simpl. destruct (DrainOverflow (p_queue s)) as [q r] eqn:E. simpl. split_and!.
  - split; [unfold grows; simpl; set_solver|]. intros Hok _. by apply drain_ok.
  - apply sound_bind; [done|]. apply quiet_sound, report_if_quiet. intros [[d f] l]. apply internal_unnumbered.
  - intros x. rewrite elem_of_app. intros [?|Hx]; [by left|right]. destruct r as [[[d f] l]|]; [|by apply elem_of_nil in Hx].
    apply list_elem_of_singleton in Hx as ->. cbn [report_if]. apply ensures_bind; [apply _|].
    eapply ensures_weaken; [apply reportLoss_reports|]. intros [] s1 Hrep. by apply ensures_quiet.
Qed.

Lemma drainLosses_sound final i : sound (drainLosses final i).
Proof.
  intros s. simpl. split_and!; [split; [reflexivity|done]| |by left]. destruct (negb final && _); [done|].
  apply drain_sound, pipe_quiet_bind; apply report_if_quiet.
  - intros [[d f] l]. apply internal_unnumbered.
  - intros r. apply internal_unnumbered.
Qed.

Lemma close_quiet : quiet (write (λ s, with_queue s (Close (p_queue s)))).
Proof. intros s. simpl. split_and!; [split; [by apply pipe_grows_same|]|done|done]. intros H _. by apply close_ok. Qed.

Lemma program_sound r : unnumbered r = true → sound (program r).
Proof.
  destruct r as [e|now raw err|now lost|h|i|i now up rem|]; intros He; cbn [program].
  - apply quiet_sound, submit_quiet. by apply Z.eqb_eq.
  - apply quiet_sound, submit_quiet. unfold NewParseFailure. cbv zeta. apply internal_unnumbered.
  - apply quiet_sound, submit_quiet. unfold NewKernelRecordsLost. apply internal_unnumbered.
  - apply quiet_sound. intros s. simpl. destruct (adv_run 3 _ _) as [n pc] eqn:E. split_and!; [split; [by apply pipe_grows_same|]|done|done].
    intros H _. pose proof (resume_ok start s h H) as Hr. cbv zeta in Hr. by rewrite E in Hr.
  - apply drainLosses_sound.
  - apply sound_bind; [|apply drainLosses_sound]. intros s. split_and!; [split; [reflexivity|done]|done|]. intros s1. split_and!; [split; [reflexivity|done]|done|].
    intros s2. split_and!; [split; [reflexivity|done]|done|].
    apply (pipe_quiet_bind (submit _)); [apply submit_quiet, internal_unnumbered|]. intros s3. simpl. split_and!; [split; [by apply pipe_grows_same|]|done|apply close_quiet].
    intros H _. by eapply pipe_ok_upd; [..|exact H].
  - apply quiet_sound, close_quiet.
Qed.
End programs.

(** ** All interleavings *)

(** Every goroutine is sound, and a range that is drained and not yet reported has a
    goroutine that is going to report it. *)
Record agent_inv (start : Z) (x : agent) : Prop := {
  ai_pipe : pipe_ok start (shared x);
  ai_sound : map_Forall (λ _, sound start) (threads x);
  ai_owed : ∀ r, r ∈ drained (shared x) → reported r (shared x) ∨
    ∃ t p, threads x !! t = Some p ∧ ensures grows grows (λ _, reported r) p (shared x)
}.

Lemma agent_do_inv start ev x y : agent_do ev x = Some y → agent_inv start x → agent_inv start y.
Proof.
  intros E [H1 H2 H3]. destruct x as [s ts], ev as [t r|t|]; simpl in *.
  - destruct (unnumbered r) eqn:Hu; [|done]. simpl in E. case_bool_decide as Ht; [done|]. injection E as <-. rewrite <- eq_None_not_Some in Ht.
    constructor; simpl; [done|apply map_Forall_insert_2; [by apply program_sound|done]|]. intros r' Hr.
    destruct (H3 r' Hr) as [?|(t' & p' & Ht' & He)]; [by left|right]. exists t', p'. split; [|done]. by rewrite lookup_insert_ne by congruence.
  - destruct (Z.ltb_spec (next (p_seq s) + 1) u64_mod) as [Hlt|]; [|done]. destruct (ts !! t) as [p|] eqn:Ht; [|done].
    destruct (advance p s) as [[s' p']|] eqn:Hp; [|done]. injection E as <-.
    pose proof (H2 t p Ht) as Hs. destruct p as [[]|X f k]; [done|]. simpl in Hp. specialize (Hs s).
    destruct (f s) as [[s1 v]|] eqn:Ef; [|done]. injection Hp as <- <-. destruct Hs as ([Hg Hok] & Hk & Hd).
    constructor; simpl; [by apply Hok|apply map_Forall_insert_2; done|]. intros r Hr. destruct (Hd r Hr) as [Hr'|He].
    + destruct (H3 r Hr') as [Hrep|(t' & p' & Ht' & He)]; [left; by eapply reported_grows|right]. destruct (decide (t' = t)) as [->|Hne].
      * exists t, (k v). rewrite lookup_insert_eq. split; [done|]. rewrite Ht in Ht'. injection Ht' as <-.
        specialize (He s ltac:(reflexivity)). simpl in He. rewrite Ef in He. apply He.
      * exists t', p'. rewrite lookup_insert_ne by done. split; [done|]. by eapply ensures_rely; [apply _|..].
    + right. exists t, (k v). by rewrite lookup_insert_eq.
  - injection E as <-. assert (Hsame : issued (pump_take s) = issued s ∧ log (pump_take s) = log s ∧ drained (pump_take s) = drained s).
    { unfold pump_take. destruct (TryGet _) as [q [e b]]. done. }
    destruct Hsame as (E1 & E2 & E3). constructor; simpl; [by apply pump_ok|done|]. intros r. rewrite E3. intros Hr.
    assert (Hg : grows s (pump_take s)) by (apply pipe_grows_same; [by rewrite E1|done|done]).
    destruct (H3 r Hr) as [Hrep|(t' & p' & Ht' & He)]; [left; by eapply reported_grows|right]. exists t', p'. split; [done|].
    by eapply ensures_rely; [apply _|..].
Qed.

Lemma agent_run_inv start evs : ∀ x y, agent_run evs x = Some y → agent_inv start x → agent_inv start y.
Proof.
  induction evs as [|ev evs IH]; intros x y; simpl; [by intros [= ->]|]. destruct (agent_do ev x) as [x'|] eqn:E; [|done].
  intros H Hi. eapply IH; [done|]. by eapply agent_do_inv.
Qed.

Lemma agent_reach_inv capacity boot last evs x : agent_run evs (agent_start capacity boot last) = Some x →
  agent_inv (next (p_seq (new_pipeline capacity boot last))) x.
Proof.
  intros H. eapply agent_run_inv; [exact H|]. constructor; simpl; [apply new_ok|done|]. intros r Hr. by apply elem_of_nil in Hr.
Qed.


(** The numbers of a report bound the events it stands for. *)
Lemma report_covers lost d f l e : fifo.report lost (Some (d, f, l)) → e ∈ lost → Sequence e ≠ 0 → f <= Sequence e <= l.
Proof.
  intros (_ & _ & Hlo & Hhi) He Hn. assert (Hs : Sequence e ∈ fifo.seqs lost).
  { unfold fifo.seqs. apply list_elem_of_filter. split; [done|]. by apply list_elem_of_fmap_2. }
  unfold fifo.is_low, fifo.is_high in *.
  destruct Hlo as [[_ E]|[_ Hlo]]; [rewrite E in Hs; by apply elem_of_nil in Hs|].
  destruct Hhi as [[_ E]|[_ Hhi]]; [rewrite E in Hs; by apply elem_of_nil in Hs|]. eauto.
Qed.

(** The events that a list of reports counts. *)
Definition counted (rs : list overflow) : Z := foldr (λ r n, r.1.1 + n) 0 rs.

Lemma counted_length ls rs : Forall2 (λ l r, fifo.report l (Some r)) ls rs → Z.of_nat (length (concat ls)) = counted rs.
Proof.
  induction 1 as [|l [[d f] h] ls rs Hr _ IH]; [done|]. destruct Hr as (_ & -> & _). simpl. rewrite length_app. lia.
Qed.


(** ** A report of a loss causes none *)

(** The queue of [s'] is the one of [s] with [es] behind, at most [n] of them, and nothing
    else has happened to it. *)
Definition extends (n : nat) (s s' : pipeline) : Prop :=
  ∃ a es, repr (p_queue s) a ∧ repr (p_queue s') (fifo.mk (fifo.items a ++ es) (fifo.capacity a) false) ∧
    (length es ≤ n)%nat ∧ dropped (p_queue s') = dropped (p_queue s) ∧ taken s' = taken s ∧ drained s' = drained s ∧ streamClosed s' = streamClosed s.

Lemma extends_trans n m s1 s2 s3 : extends n s1 s2 → extends m s2 s3 → extends (n + m) s1 s3.
Proof.
  intros (a & es & H1 & H2 & H3 & H4 & H5 & H6 & H7) (a' & es' & G1 & G2 & G3 & G4 & G5 & G6 & G7). exists a, (es ++ es').
  assert (Ea : fifo.items a' = fifo.items a ++ es).
  { apply (inj (fmap Some)). rewrite <- (repr_items _ _ G1). by rewrite (repr_items _ _ H2). }
  assert (Ec : fifo.capacity a' = fifo.capacity a) by (rewrite <- (repr_cap _ _ G1), (repr_cap _ _ H2); done).
  rewrite Ea, Ec, <- app_assoc in G2. split_and!; try done; [|congruence..]. rewrite length_app. lia.
Qed.

Lemma submit_room e s a : repr (p_queue s) a → fifo.is_closed a = false → (Len (p_queue s) < Cap (p_queue s))%nat →
  extends 1 s (submit_locked e s).1.
Proof.
  intros Hr Hc Hroom. unfold submit_locked, assign. set (p := if Sequence e =? 0 then _ else _). destruct p as [sq e1].
  set (e2 := if String.eqb _ _ then _ else _). simpl. set (q := with_metrics _ _).
  assert (Hr' : repr q a) by by apply (repr_upd (p_queue s)). destruct (Put_repr q a e2 Hr') as [Hp _].
  assert (Hd : dropped (Put q (Some e2)).1 = dropped (p_queue s)).
  { unfold Put. rewrite (repr_closed _ _ Hr'), Hc. unfold Len, Cap in Hroom. rewrite (proj2 (Nat.eqb_neq (Queue.n q) (length (buf q)))) by (simpl; lia).
    unfold wakeLocked. simpl. by destruct (_ =? _)%nat. }
  unfold fifo.put in Hp. rewrite Hc, (proj2 (Nat.eqb_neq _ _)) in Hp.
  2:{ rewrite (repr_items_length _ _ Hr), <- (repr_cap _ _ Hr). unfold Len, Cap in Hroom. lia. }
  destruct (Put q (Some e2)) as [q' d]. simpl in *. exists a, [e2]. done.
Qed.

Lemma extends_refl s a : repr (p_queue s) a → fifo.is_closed a = false → extends 0 s s.
Proof. intros Hr Hc. exists a, []. rewrite app_nil_r. destruct a as [it cap []]; [done|]. done. Qed.

Lemma extends_open n s s' : extends n s s' → ∃ a, repr (p_queue s') a ∧ fifo.is_closed a = false.
Proof. intros (a & es & _ & Hr & _). eauto. Qed.

Lemma report_if_extends r mk s a : repr (p_queue s) a → fifo.is_closed a = false → streamClosed s = false →
  ∃ s', solo (report_if r mk) s = Some (s', ()) ∧ extends 1 s s'.
Proof.
  intros Hr Hc Hs. pose proof (extends_refl s a Hr Hc) as (b & es & Hb).
  destruct r as [r|]; simpl.
  2:{ exists s. split; [done|]. exists b, es. intuition lia. }
  case_bool_decide as Hf; simpl.
  - eexists. split; [done|]. exists b, es. simpl. intuition lia.
  - pose proof (submit_room (mk r) s a Hr Hc ltac:(lia)) as He. unfold submit_locked in *.
    destruct (assign _ _) as [[sq e1] n]. destruct (Put _ _) as [q d]. simpl in *. rewrite Hs in *. simpl. eexists. split; [done|exact He].
Qed.

(** Reporting a loss causes no loss.  With room in the queue, an undisturbed tick of
    the loss poller drains the queue's accounting and puts at most three reports behind
    the events that wait, none of which it drops; with a full queue it does nothing, and
    the accounting is kept for a later tick. *)
Theorem report_causes_no_loss capacity boot last evs x i :
  agent_run evs (agent_start capacity boot last) = Some x →
  closed (p_queue (shared x)) = false → streamClosed (shared x) = false →
  ∃ s' es, solo (drainLosses false i) (shared x) = Some (s', ()) ∧
    contents (p_queue s') = contents (p_queue (shared x)) ++ (Some <$> es) ∧ taken s' = taken (shared x) ∧
    if bool_decide (Cap (p_queue (shared x)) ≤ Len (p_queue (shared x)))%nat then s' = shared x
    else (length es ≤ 3)%nat ∧ dropped (p_queue s') = 0 ∧
         drained s' = drained (shared x) ++ option_list (DrainOverflow (p_queue (shared x))).2.
Proof.
  intros H%agent_reach_inv Hc Hs. destruct H as [(a & lost & ls & [(Hr & _) _ _ _ _ _ _ _]) _ _]. simpl in Hr.
  assert (Hca : fifo.is_closed a = false) by by rewrite <- (repr_closed _ _ Hr). remember (shared x) as s eqn:Es. clear Es x.
  unfold drainLosses. rewrite solo_bind. simpl. case_bool_decide as Hfull; simpl.
  { exists s, []. by rewrite app_nil_r. }
  destruct (DrainOverflow (p_queue s)) as [q r] eqn:E. simpl.
  set (s0 := mkPipeline _ _ _ _ _ _ _). assert (Hr0 : repr (p_queue s0) a ∧ dropped (p_queue s0) = 0).
  { unfold DrainOverflow in E. destruct (Z.eqb_spec (dropped (p_queue s)) 0); injection E as <- <-; [done|]. split; [by apply (repr_upd (p_queue s))|done]. }
  destruct Hr0 as [Hr0 Hd0].
  destruct (report_if_extends r (λ '(d, f, l), NewQueueOverflow (li_now1 i) d f l) s0 a Hr0 Hca Hs) as (s1 & E1 & X1).
  destruct (extends_open _ _ _ X1) as (a1 & Hr1 & Hc1). assert (Hs1 : streamClosed s1 = false) by (destruct X1 as (? & ? & _ & _ & _ & _ & _ & _ & Es); by rewrite Es).
  destruct (report_if_extends (li_spool i) (λ '(d, f, l), NewSpoolFull (li_now2 i) d f l) s1 a1 Hr1 Hc1 Hs1) as (s2 & E2 & X2).
  destruct (extends_open _ _ _ X2) as (a2 & Hr2 & Hc2). assert (Hs2 : streamClosed s2 = false) by (destruct X2 as (? & ? & _ & _ & _ & _ & _ & _ & Es); by rewrite Es).
  destruct (report_if_extends (li_append i) (λ r, NewInternal (li_now3 i) TypeSpoolError "" (spool_error_fields r)) s2 a2 Hr2 Hc2 Hs2) as (s3 & E3 & X3).
  exists s3. rewrite solo_bind, E1, solo_bind, E2. pose proof (extends_trans _ _ _ _ _ (extends_trans _ _ _ _ _ X1 X2) X3) as (b & es & Hb & Hb' & Hl & Hd & Ht & Hdr & _).
  exists es. split_and!; [done| |by rewrite Ht|done|by rewrite Hd|by rewrite Hdr].
  rewrite (repr_items _ _ Hb'), (repr_items _ _ Hr). simpl. rewrite fmap_app. f_equal. by rewrite <- (repr_items _ _ Hb), (repr_items _ _ Hr0).
Qed.

(** ** A run *)

(** Two goroutines submit into a queue of two slots while the pump takes one event; a
    third event overflows it and a tick reports the loss. *)
Definition sample_inputs : loss_inputs := mkLossInputs 1 2 3 None None.
Definition sample_evs : list agent_event :=
  [Spawn 0 (Submit zero_event); Spawn 1 (KernelLoss 5 1); Run 1; Run 0; Pump;
   Spawn 2 (Submit zero_event); Run 2; Spawn 3 (Submit zero_event); Run 3; Pump; Spawn 4 (Tick sample_inputs);
   Run 4; Run 4; Run 4; Run 4].
Definition sample_run : agent := default (agent_start 2 "b" (Some 41)) (agent_run sample_evs (agent_start 2 "b" (Some 41))).

Example sample_runs : agent_run sample_evs (agent_start 2 "b" (Some 41)) = Some sample_run ∧
  (Sequence <$> taken (shared sample_run)) = [42; 44] ∧ drained (shared sample_run) = [(1, 43, 43)] ∧
  omap (fmap Sequence) (contents (p_queue (shared sample_run))) = [45; 46] ∧ log (shared sample_run) = [].
Proof. unfold sample_run. destruct (agent_run sample_evs _) as [x|] eqn:E; [|by vm_compute in E]. simpl. split; [done|]. vm_compute in E. injection E as <-. done. Qed.



Lemma report_causes_no_loss_witness : ∃ s' es, solo (drainLosses false sample_inputs) (shared sample_run) = Some (s', ()) ∧
    contents (p_queue s') = contents (p_queue (shared sample_run)) ++ (Some <$> es).
Proof.
  destruct (report_causes_no_loss 2 "b" (Some 41) sample_evs sample_run sample_inputs) as (s' & es & H1 & H2 & _); [apply sample_runs|vm_compute; reflexivity..|].
  exists s', es. split; assumption.
Defined.

(** The last report of the run can cost an event nobody hears of: with a full queue the
    stopping event drops the oldest one after the last accounting was drained. *)
Definition full_evs : list agent_event :=
  [Spawn 0 (Submit zero_event); Run 0; Spawn 1 (Final sample_inputs 9 0 0);
   Run 1; Run 1; Run 1; Run 1; Run 1; Run 1; Run 1; Run 1].

Example stopping_event_drops_silently : ∃ x, agent_run full_evs (agent_start 1 "b" None) = Some x ∧
  map_Forall (λ _ p, p = Done ()) (threads x) ∧ streamClosed (shared x) = true ∧
  (Sequence <$> issued (shared x)) = [1; 2] ∧ taken (shared x) = [] ∧
  omap (fmap Sequence) (contents (p_queue (shared x))) = [2] ∧ drained (shared x) = [] ∧ log (shared x) = [].
Proof.
  destruct (agent_run full_evs (agent_start 1 "b" None)) as [x|] eqn:E; [|by vm_compute in E]. exists x. split; [done|].
  vm_compute in E. injection E as <-. simpl. split_and!; try done. apply map_Forall_to_list. vm_compute. repeat constructor.
Qed.
