(* ===== verification/Normalize.v ===== *)
(** * From audit records to events

    [SauronAgent/internal/event/normalize.go]: a group of audit records becomes one
    event.  The normalizer is a record that the extraction steps change one after the
    other; the maps of records are finite maps, so the order in which the code goes
    through them is no part of the result. *)

From S2P Require Import Prelude GoStrings GoText GoMisc Event InternalEvents AuditRecords.

(** ** Record types and categories *)

Definition TypeSet : RecordType := 1001.
Definition TypeLogin : RecordType := 1006.
Definition TypeAddRule : RecordType := 1011.
Definition TypeDelRule : RecordType := 1012.
Definition TypeUserAvc : RecordType := 1107.
Definition TypeDaemonStart : RecordType := 1200.
Definition TypeDaemonEnd : RecordType := 1201.
Definition TypeDaemonAbort : RecordType := 1202.
Definition TypeDaemonConfig : RecordType := 1203.
Definition TypeSyscall : RecordType := 1300.
Definition TypePath : RecordType := 1302.
Definition TypeConfigChange : RecordType := 1305.
Definition TypeCwd : RecordType := 1307.
Definition TypeBprmFcaps : RecordType := 1321.
Definition TypeCapset : RecordType := 1322.
Definition TypeNetfilterCfg : RecordType := 1325.
Definition TypeSeccomp : RecordType := 1326.
Definition TypeProctitle : RecordType := 1327.
Definition TypeFeatureChange : RecordType := 1328.
Definition TypeReplace : RecordType := 1329.
Definition TypeAvc : RecordType := 1400.
Definition TypeSelinuxErr : RecordType := 1401.
Definition TypeUserAuth : RecordType := 1100.
Definition TypeUserMgmt : RecordType := 1102.
Definition TypeCredAcq : RecordType := 1103.
Definition TypeCredDisp : RecordType := 1104.
Definition TypeUserStart : RecordType := 1105.
Definition TypeUserEnd : RecordType := 1106.
Definition TypeUserChauthtok : RecordType := 1108.
Definition TypeUserLogin : RecordType := 1112.
Definition TypeUserLogout : RecordType := 1113.
Definition TypeAddUser : RecordType := 1114.
Definition TypeDelUser : RecordType := 1115.
Definition TypeAddGroup : RecordType := 1116.
Definition TypeDelGroup : RecordType := 1117.
Definition TypeChgrpID : RecordType := 1119.
Definition TypeUserCmd : RecordType := 1123.
Definition TypeChuserID : RecordType := 1125.
Definition TypeRoleAssign : RecordType := 1126.
Definition TypeRoleRemove : RecordType := 1127.

Definition TypeProcessExec : string := "process.exec".
Definition TypeProcessExit : string := "process.exit".
Definition TypeFileAccess : string := "file.access".
Definition TypeFileCreate : string := "file.create".
Definition TypeFileModify : string := "file.modify".
Definition TypeFileDelete : string := "file.delete".
Definition TypeAuthLogin : string := "authentication.login".
Definition TypeAuthLogout : string := "authentication.logout".
Definition TypeAuthFailure : string := "authentication.failure".
Definition TypeUserCommand : string := "user.command".
Definition TypePrivilegeChange : string := "privilege.change".
Definition TypeAuditConfiguration : string := "audit.configuration".
Definition TypeFirewallConfiguration : string := "firewall.configuration".
Definition TypeSELinuxDenial : string := "selinux.denial".
Definition TypeSystemSecurity : string := "system.security".

Definition ResultSuccess : string := "success".
Definition ResultFailure : string := "failure".
Definition AUIDUnset : Z := 4294967295.

Definition auditConfigTypes : list RecordType :=
  [TypeConfigChange; TypeDaemonStart; TypeDaemonEnd; TypeDaemonAbort; TypeDaemonConfig; TypeFeatureChange;
   TypeAddRule; TypeDelRule; TypeSet; TypeReplace].
Definition authLoginTypes : list RecordType := [TypeUserAuth; TypeUserLogin; TypeLogin; TypeUserStart; TypeCredAcq].
Definition authLogoutTypes : list RecordType := [TypeUserLogout; TypeUserEnd; TypeCredDisp].
Definition privilegeTypes : list RecordType :=
  [TypeUserMgmt; TypeAddUser; TypeDelUser; TypeAddGroup; TypeDelGroup; TypeRoleAssign; TypeRoleRemove; TypeChuserID;
   TypeChgrpID; TypeUserChauthtok; TypeCapset; TypeSeccomp; TypeBprmFcaps].

Definition maxExecveArgs : nat := Z.to_nat 4096.
Definition maxArgChunks : nat := Z.to_nat 1024.
Definition maxEmbeddedPairs : Z := 128.
Definition maxEmbeddedValue : nat := Z.to_nat (64 * 1024).

(** The syscalls of a category, and their numbers on x86_64. *)
Definition delete_calls : list string := ["unlink"; "unlinkat"; "rmdir"].
Definition create_calls : list string :=
  ["creat"; "mkdir"; "mkdirat"; "link"; "linkat"; "symlink"; "symlinkat"; "mknod"; "mknodat"].
Definition modify_calls : list string :=
  ["write"; "pwrite64"; "writev"; "pwritev"; "pwritev2"; "truncate"; "ftruncate"; "fallocate"; "rename"; "renameat";
   "renameat2"; "chmod"; "fchmod"; "fchmodat"; "fchmodat2"; "chown"; "fchown"; "lchown"; "fchownat"; "setxattr";
   "lsetxattr"; "fsetxattr"; "removexattr"; "lremovexattr"; "fremovexattr"; "utimensat"; "utime"; "utimes"; "futimesat"].
Definition access_calls : list string :=
  ["read"; "pread64"; "readv"; "preadv"; "preadv2"; "readlink"; "readlinkat"; "stat"; "stat64"; "lstat"; "lstat64";
   "fstat"; "fstatat"; "fstatat64"; "newfstatat"; "statx"; "access"; "faccessat"; "faccessat2"; "getxattr"; "lgetxattr";
   "fgetxattr"; "listxattr"; "llistxattr"; "flistxattr"; "getdents"; "getdents64"].

(** [fileSyscallCategory[call]]. *)
Definition fileSyscallCategory (call : string) : option string :=
  if bool_decide (call ∈ delete_calls) then Some TypeFileDelete
  else if bool_decide (call ∈ create_calls) then Some TypeFileCreate
  else if bool_decide (call ∈ modify_calls) then Some TypeFileModify
  else if bool_decide (call ∈ access_calls) then Some TypeFileAccess
  else None.

Definition x8664Syscalls : gmap Z string := list_to_map [
  (0, "read"); (1, "write"); (2, "open"); (4, "stat"); (5, "fstat"); (6, "lstat"); (17, "pread64"); (18, "pwrite64");
  (19, "readv"); (20, "writev"); (21, "access"); (59, "execve"); (60, "exit"); (76, "truncate"); (77, "ftruncate");
  (78, "getdents"); (82, "rename"); (83, "mkdir"); (84, "rmdir"); (85, "creat"); (86, "link"); (87, "unlink");
  (88, "symlink"); (89, "readlink"); (90, "chmod"); (91, "fchmod"); (92, "chown"); (93, "fchown"); (94, "lchown");
  (132, "utime"); (133, "mknod"); (188, "setxattr"); (189, "lsetxattr"); (190, "fsetxattr"); (191, "getxattr");
  (192, "lgetxattr"); (193, "fgetxattr"); (194, "listxattr"); (195, "llistxattr"); (196, "flistxattr");
  (197, "removexattr"); (198, "lremovexattr"); (199, "fremovexattr"); (217, "getdents64"); (231, "exit_group");
  (235, "utimes"); (257, "openat"); (258, "mkdirat"); (259, "mknodat"); (260, "fchownat"); (261, "futimesat");
  (262, "newfstatat"); (263, "unlinkat"); (264, "renameat"); (265, "linkat"); (266, "symlinkat"); (267, "readlinkat");
  (268, "fchmodat"); (269, "faccessat"); (280, "utimensat"); (285, "fallocate"); (295, "preadv"); (296, "pwritev");
  (316, "renameat2"); (322, "execveat"); (327, "preadv2"); (328, "pwritev2"); (332, "statx"); (437, "openat2");
  (439, "faccessat2"); (452, "fchmodat2")].

(** ** The payload of msg='...' *)

Definition blank_char : ascii := " "%char.
Definition equals : ascii := "="%char.
Definition apostrophe_char : ascii := "'"%char.
Definition quote_char : ascii := ascii_of_N 34.
Definition nul : ascii := ascii_of_N 0.

Definition decodeEmbedded (key val : chars) : chars :=
  if negb (bool_decide (key = to_chars "cmd" ∨ key = to_chars "proctitle")) then val
  else if bool_decide ((length val < 2)%nat) || Nat.odd (length val) || bool_decide ((maxEmbeddedValue < length val)%nat) then val
  else match hex_decode val with
       | Some raw => replace_byte nul blank_char (trim_right [nul] raw)
       | None => val
       end.

(** The value after a ['='] and the text behind it. *)
Definition embedded_value (s : chars) : chars * chars :=
  match s with
  | c :: s' =>
      if Ascii.eqb c quote_char || Ascii.eqb c apostrophe_char then
        let '(v, rest) := span (λ x, negb (Ascii.eqb x c)) s' in (v, drop 1 rest)
      else let '(v, rest) := span (λ x, negb (Ascii.eqb x blank_char)) s in (trim_right [apostrophe_char] v, rest)
  | [] => ([], [])
  end.

(** The scan; every round consumes a character, so one unit of fuel for each and one more
    are enough. *)
Fixpoint embedded_loop (fuel : nat) (s : chars) (out : gmap string string) : gmap string string :=
  match fuel with
  | O => out
  | S fuel =>
      match s with
      | [] => out
      | _ =>
          if maxEmbeddedPairs <=? Z.of_nat (size out) then out
          else
            let s := trim_set [blank_char; ascii_of_N 9; ","%char; apostrophe_char] s in
            let '(key, rest) := span (λ c, negb (Ascii.eqb c equals || Ascii.eqb c blank_char)) s in
            match rest with
            | c :: rest' =>
                if Ascii.eqb c equals then
                  let '(val, rest) := embedded_value rest' in
                  match key with
                  | [] => embedded_loop fuel rest out
                  | _ =>
                      let k := of_chars key in
                      embedded_loop fuel rest
                        (match out !! k with Some _ => out | None => <[k := of_chars (decodeEmbedded key val)]> out end)
                  end
                else embedded_loop fuel rest out
            | [] => embedded_loop fuel rest out
            end
      end
  end.

Definition embeddedPairs (msg : string) : gmap string string :=
  let s := take maxEmbeddedValue (to_chars msg) in
  if negb (bool_decide (equals ∈ s)) then ∅ else embedded_loop (S (length s)) s ∅.

(** ** Helpers on values *)

Definition isAllDigits (s : string) : bool := all_digits (to_chars s).

Definition isX8664 (arch : string) : bool :=
  let a := to_lower (to_chars (TrimSpace arch)) in
  let a := default a (cut_prefix (to_chars "0x") a) in
  bool_decide (a = to_chars "c000003e" ∨ a = to_chars "x86_64").

Definition parseID (v : string) : option Z :=
  let v := TrimSpace v in
  if isAllDigits v then parse_below (2 ^ 32) (to_chars v) else None.

Definition isAUIDUnset (v : string) : bool :=
  bool_decide (of_chars (to_lower (to_chars (TrimSpace v))) ∈ [of_chars (itoa AUIDUnset); "-1"; "unset"; "4294967295"]).

Definition unquote (v : string) : string :=
  of_chars (to_lower (trim_both [apostrophe_char; quote_char] (to_chars (TrimSpace v)))).

Definition resultOf (v : string) : string :=
  let w := unquote v in
  if bool_decide (w ∈ ["yes"; "success"; "1"; "ok"]) then ResultSuccess
  else if bool_decide (w ∈ ["no"; "failed"; "fail"; "failure"; "0"]) then ResultFailure
  else "".

Definition normalizeOp (v : string) : string :=
  of_chars (replace_byte blank_char "_"%char (to_chars (unquote v))).

Definition isExecSyscall (call : string) : bool := bool_decide (call ∈ ["execve"; "execveat"]).
Definition isExitSyscall (call : string) : bool := bool_decide (call ∈ ["exit"; "exit_group"]).

Definition isExecveArgKey (k : string) : bool :=
  if String.eqb k "argc" then true
  else match to_chars k with
       | c :: l =>
           if Ascii.eqb c "a"%char then
             let '(ds, rest) := span (in_range 48 57) l in
             match ds with
             | [] => false
             | _ => bool_decide (rest = []) || bool_decide (rest = to_chars "_len") ||
                    (has_prefix (to_chars "[") rest && has_prefix (to_chars "]") (rev rest))
             end
           else false
       | [] => false
       end.

(** The loop of [namespaceKey]: [sep] is set at the start and behind an underscore. *)
Fixpoint namespace_chars (sep : bool) (l : chars) : chars :=
  match l with
  | [] => []
  | c :: l =>
      if in_range 65 90 c then char_of (code c - 65 + 97) :: namespace_chars false l
      else if in_range 97 122 c || in_range 48 57 c then c :: namespace_chars false l
      else if sep then namespace_chars sep l else "_"%char :: namespace_chars true l
  end.

Definition namespaceKey (typeName : string) : string :=
  let s := namespace_chars true (to_chars typeName) in
  let s := match rev s with c :: r => if Ascii.eqb c "_"%char then rev r else s | [] => s end in
  match s with [] => "record" | _ => of_chars s end.

(** ** The normalizer *)

Record NormalizeOptions : Type := mkNormalizeOptions { PreserveRaw : bool; opt_BootID : string }.

Record normalizer : Type := mkNormalizer {
  n_g : Group;
  n_e : Event;
  n_sc : option AuditRecord;
  call : string;
  resolvedCall : bool;
  embedded : list (gmap string string);
  promoted : gset string
}.

Definition with_e (n : normalizer) (f : Event → Event) : normalizer :=
  mkNormalizer (n_g n) (f (n_e n)) (n_sc n) (call n) (resolvedCall n) (embedded n) (promoted n).
Definition with_call (n : normalizer) (c : string) (b : bool) : normalizer :=
  mkNormalizer (n_g n) (n_e n) (n_sc n) c b (embedded n) (promoted n).
Definition with_embedded (n : normalizer) (l : list (gmap string string)) : normalizer :=
  mkNormalizer (n_g n) (n_e n) (n_sc n) (call n) (resolvedCall n) l (promoted n).
Definition promote (k : string) (n : normalizer) : normalizer :=
  mkNormalizer (n_g n) (n_e n) (n_sc n) (call n) (resolvedCall n) (embedded n) ({[k]} ∪ promoted n).

(** Assignments to fields of the event. *)
Definition upd_event (typ sev exe cmd cwd : string → string) (pid ppid uid gid auid : option Z → option Z)
    (paths : option (list string) → option (list string)) (res : string → string) (e : Event) : Event :=
  {| Version := Version e; Sequence := Sequence e; Timestamp := Timestamp e; Type_ := typ (Type_ e);
     Severity := sev (Severity e); AuditID := AuditID e; BootID := BootID e; PID := pid (PID e);
     PPID := ppid (PPID e); UID := uid (UID e); GID := gid (GID e); AUID := auid (AUID e);
     Executable := exe (Executable e); Command := cmd (Command e); CWD := cwd (CWD e); Paths := paths (Paths e);
     Result := res (Result e); RecordTypes := RecordTypes e; Fields := Fields e; Raw := Raw e |}.

Definition set_Type (v : string) : Event → Event := upd_event (λ _, v) id id id id id id id id id id id.
Definition set_Severity (v : string) : Event → Event := upd_event id (λ _, v) id id id id id id id id id id.
Definition set_Executable (v : string) : Event → Event := upd_event id id (λ _, v) id id id id id id id id id.
Definition set_Command (v : string) : Event → Event := upd_event id id id (λ _, v) id id id id id id id id.
Definition set_CWD (v : string) : Event → Event := upd_event id id id id (λ _, v) id id id id id id id.
Definition set_PID (v : option Z) : Event → Event := upd_event id id id id id (λ _, v) id id id id id id.
Definition set_PPID (v : option Z) : Event → Event := upd_event id id id id id id (λ _, v) id id id id id.
Definition set_UID (v : option Z) : Event → Event := upd_event id id id id id id id (λ _, v) id id id id.
Definition set_GID (v : option Z) : Event → Event := upd_event id id id id id id id id (λ _, v) id id id.
Definition set_AUID (v : option Z) : Event → Event := upd_event id id id id id id id id id (λ _, v) id id.
Definition set_Paths (v : option (list string)) : Event → Event := upd_event id id id id id id id id id id (λ _, v) id.
Definition set_Result (v : string) : Event → Event := upd_event id id id id id id id id id id id (λ _, v).

Definition setField (k : string) (v : any) (n : normalizer) : normalizer := with_e n (SetField k v).
Definition field_of (k : string) (n : normalizer) : option any := default ∅ (Fields (n_e n)) !! k.

Definition parseEmbedded (n : normalizer) : normalizer :=
  with_embedded n ((λ r, match rec_Fields r !! "msg" with Some msg => embeddedPairs msg | None => ∅ end) <$> g_Records (n_g n)).

(** The first of the embedded payloads that has the key. *)
Fixpoint first_pair (key : string) (l : list (gmap string string)) : option string :=
  match l with [] => None | m :: l => match m !! key with Some v => Some v | None => first_pair key l end end.

Definition lookup_key (key : string) (n : normalizer) : option string :=
  match Field (n_g n) key [TypeSyscall] with Some v => Some v | None => first_pair key (embedded n) end.

(** [r.Fields[key]]: the empty string where there is none. *)
Definition get (key : string) (r : AuditRecord) : string := default "" (rec_Fields r !! key).

(** ** Which syscall *)

Definition syscallName (n : normalizer) : string * bool :=
  match n_sc n with
  | None => ("", false)
  | Some sc =>
      let v := TrimSpace (get "syscall" sc) in
      if String.eqb v "" then ("", false)
      else if negb (isAllDigits v) then (v, false)
      else if negb (isX8664 (get "arch" sc)) then (v, false)
      else match ParseInt (to_chars v) with
           | None => (v, false)
           | Some num => match x8664Syscalls !! num with Some name => (name, true) | None => (v, false) end
           end
  end.

(** ** Category *)

Definition hasAny (types : list RecordType) (n : normalizer) : bool := existsb (Has (n_g n)) types.

Definition pathHasNametype (want : string) (n : normalizer) : bool :=
  existsb (λ r, equal_fold (get "nametype" r) want) (All (n_g n) TypePath).

Definition openForWriting (n : normalizer) : bool :=
  match n_sc n with
  | None => false
  | Some sc =>
      let key := if String.eqb (call n) "open" then Some "a1" else if String.eqb (call n) "openat" then Some "a2" else None in
      match key with
      | None => false
      | Some key =>
          match rec_Fields sc !! key with
          | None => false
          | Some v =>
              let l := to_lower (to_chars v) in
              match ParseHex (default l (cut_prefix (to_chars "0x") l)) with
              | None => false
              | Some flags => negb (Z.land flags 3 =? 0)
              end
          end
      end
  end.

Definition fileCategory (n : normalizer) : option string :=
  if bool_decide (call n ∈ ["open"; "openat"; "openat2"]) then
    if pathHasNametype "CREATE" n then Some TypeFileCreate
    else if openForWriting n then Some TypeFileModify
    else Some TypeFileAccess
  else fileSyscallCategory (call n).

Definition pathNametypeCategory (n : normalizer) : option string :=
  match All (n_g n) TypePath with
  | [] => None
  | _ => if pathHasNametype "CREATE" n then Some TypeFileCreate
         else if pathHasNametype "DELETE" n then Some TypeFileDelete
         else Some TypeFileAccess
  end.

(** [resultWord] with the key it promotes. *)
Definition resultWord (n : normalizer) : normalizer * string :=
  let res := match lookup_key "res" n with Some v => resultOf v | None => "" end in
  match lookup_key "success" n with
  | Some v => let r := resultOf v in if String.eqb r "" then (n, res) else (promote "success" n, r)
  | None => (n, res)
  end.

(** What the syscall says, if it settles the category. *)
Definition syscall_category (n : normalizer) : option string :=
  match n_sc n with
  | None => None
  | Some _ =>
      if isExecSyscall (call n) then Some TypeProcessExec
      else if isExitSyscall (call n) then Some TypeProcessExit
      else if Has (n_g n) TypePath then fileCategory n
      else None
  end.

Definition classify (n : normalizer) : normalizer * string :=
  if Has (n_g n) TypeAvc || Has (n_g n) TypeUserAvc || Has (n_g n) TypeSelinuxErr then (n, TypeSELinuxDenial)
  else if Has (n_g n) TypeNetfilterCfg then (n, TypeFirewallConfiguration)
  else if Has (n_g n) TypeUserCmd then (n, TypeUserCommand)
  else if hasAny auditConfigTypes n then (n, TypeAuditConfiguration)
  else match syscall_category n with
       | Some t => (n, t)
       | None =>
           if hasAny authLoginTypes n then
             let '(n, w) := resultWord n in (n, if String.eqb w ResultFailure then TypeAuthFailure else TypeAuthLogin)
           else if hasAny authLogoutTypes n then (n, TypeAuthLogout)
           else if hasAny privilegeTypes n then (n, TypePrivilegeChange)
           else (n, default TypeSystemSecurity (pathNametypeCategory n))
       end.

(** ** Typed fields *)

Definition promoteID (key : string) (n : normalizer) : normalizer * option Z :=
  match lookup_key key n with
  | None => (n, None)
  | Some v => match parseID v with None => (n, None) | Some id => (promote key n, Some id) end
  end.

Definition extractIdentity (n : normalizer) : normalizer :=
  let '(n, v) := promoteID "pid" n in let n := with_e n (set_PID v) in
  let '(n, v) := promoteID "ppid" n in let n := with_e n (set_PPID v) in
  let '(n, v) := promoteID "uid" n in let n := with_e n (set_UID v) in
  let '(n, v) := promoteID "gid" n in let n := with_e n (set_GID v) in
  match lookup_key "auid" n with
  | None => n
  | Some v =>
      if isAUIDUnset v then with_e n (set_AUID None)
      else match parseID v with
           | Some id => promote "auid" (with_e n (set_AUID (Some id)))
           | None => n
           end
  end.

Definition extractExecutable (n : normalizer) : normalizer :=
  match lookup_key "exe" n with
  | Some v => if String.eqb v "" || String.eqb v "?" then n else promote "exe" (with_e n (set_Executable v))
  | None => n
  end.

(** The first payload with a value for the key that is not empty. *)
Fixpoint first_nonempty (key : string) (l : list (gmap string string)) : option string :=
  match l with
  | [] => None
  | m :: l => match m !! key with
              | Some v => if String.eqb v "" then first_nonempty key l else Some v
              | None => first_nonempty key l
              end
  end.

Definition extractCWD (n : normalizer) : normalizer :=
  let fallback := match first_nonempty "cwd" (embedded n) with Some v => with_e n (set_CWD v) | None => n end in
  match Field (n_g n) "cwd" [TypeCwd] with
  | Some v => if String.eqb v "" then fallback else with_e n (set_CWD v)
  | None => fallback
  end.

(** The fields of the EXECVE records; the first record that has a key wins. *)
Definition merge_execve (recs : list AuditRecord) : gmap string string :=
  foldl (λ m r, m ∪ rec_Fields r) ∅ recs.

Definition arg_key (i : nat) : string := of_chars (to_chars "a" ++ itoa (Z.of_nat i)).
Definition chunk_key (i j : nat) : string :=
  of_chars (to_chars (arg_key i) ++ to_chars "[" ++ itoa (Z.of_nat j) ++ to_chars "]").

(** [a<i>[0]], [a<i>[1]], ... up to the first that is missing; [fuel] of them at most. *)
Fixpoint arg_chunks (fuel : nat) (m : gmap string string) (i j : nat) : chars :=
  match fuel with
  | O => []
  | S fuel => match m !! chunk_key i j with Some c => to_chars c ++ arg_chunks fuel m i (S j) | None => [] end
  end.

Fixpoint args_from (fuel : nat) (m : gmap string string) (i : nat) : list string :=
  match fuel with
  | O => []
  | S fuel =>
      match m !! arg_key i with
      | Some v => v :: args_from fuel m (S i)
      | None =>
          match m !! (arg_key i +:+ "_len") with
          | Some _ => of_chars (arg_chunks maxArgChunks m i 0) :: args_from fuel m (S i)
          | None => []
          end
      end
  end.

#[global] Arguments args_from : simpl never.
#[global] Arguments arg_chunks : simpl never.

Definition execveArgs (n : normalizer) : normalizer * option (list string) :=
  match All (n_g n) TypeExecve with
  | [] => (n, None)
  | recs =>
      let m := merge_execve recs in
      let args := args_from maxExecveArgs m 0 in
      let mismatch := match ParseInt (to_chars (default "" (m !! "argc"))) with
                      | Some argc => negb (argc =? Z.of_nat (length args))
                      | None => false
                      end in
      (if mismatch then setField "execve_argc_mismatch" (AnyBool true) n else n, Some args)
  end.

Definition proctitle (n : normalizer) : option string :=
  match First (n_g n) TypeProctitle with
  | None => None
  | Some r =>
      match rec_Fields r !! "proctitle" with
      | None => None
      | Some v =>
          match trim_right [nul] (to_chars v) with
          | [] => None
          | l => Some (of_chars (join [blank_char] (split_on nul l)))
          end
      end
  end.

Definition extractCommand (n : normalizer) : normalizer :=
  match execveArgs n with
  | (n, Some args) =>
      let n := with_e n (set_Command (of_chars (join [blank_char] (to_chars <$> args)))) in
      let n := setField "argv" (AnyStrings args) n in
      match proctitle n with Some proc => setField "proctitle" (AnyString proc) n | None => n end
  | (n, None) =>
      match proctitle n with
      | Some proc => with_e n (set_Command proc)
      | None => match first_nonempty "cmd" (embedded n) with Some v => with_e n (set_Command v) | None => n end
      end
  end.

(** *** Paths *)

Definition item_of (i : nat) (r : AuditRecord) : Z :=
  match ParseInt (to_chars (TrimSpace (get "item" r))) with
  | Some v => if 0 <=? v then v else Z.of_nat i
  | None => Z.of_nat i
  end.

(** A numeric member becomes a number if it is one. *)
Definition type_member (r : AuditRecord) (detail : gmap string any) (k : string) : gmap string any :=
  match rec_Fields r !! k with
  | Some s => match ParseInt (to_chars (TrimSpace s)) with Some v => <[k := AnyInt v]> detail | None => detail end
  | None => detail
  end.

Definition path_detail (cwd : string) (r : AuditRecord) : gmap string any :=
  let detail := foldl (type_member r) (AnyString <$> rec_Fields r) ["item"; "inode"; "ouid"; "ogid"] in
  let name := get "name" r in
  if String.eqb name "" || String.eqb name "?" then detail
  else if negb (HasPrefix name "/") && negb (String.eqb cwd "")
  then <["resolved" := AnyString (of_chars (path_Join (to_chars cwd) (to_chars name)))]> detail
  else detail.

(** The names in order, each once. *)
Fixpoint path_names (seen : gset string) (recs : list AuditRecord) : list string :=
  match recs with
  | [] => []
  | r :: recs =>
      let name := get "name" r in
      if String.eqb name "" || String.eqb name "?" || bool_decide (name ∈ seen) then path_names seen recs
      else name :: path_names ({[name]} ∪ seen) recs
  end.

Definition ordered_paths (recs : list AuditRecord) : list AuditRecord :=
  snd <$> sort_stable fst (imap (λ i r, (item_of i r, r)) recs).

Definition extractPaths (n : normalizer) : normalizer :=
  match All (n_g n) TypePath with
  | [] => n
  | recs =>
      let recs := ordered_paths recs in
      let details := path_detail (CWD (n_e n)) <$> recs in
      let names := path_names ∅ recs in
      let n := match names with [] => n | _ => with_e n (set_Paths (Some names)) end in
      let n := setField "path_details" (AnyMaps details) n in
      match names with
      | first :: _ =>
          if String.eqb (Executable (n_e n)) "" && String.eqb (Type_ (n_e n)) TypeProcessExec
          then with_e n (set_Executable first) else n
      | [] => n
      end
  end.

Definition extractResult (n : normalizer) : normalizer :=
  let '(n, w) := resultWord n in
  let n := with_e n (set_Result w) in
  match lookup_key "exit" n with
  | None => n
  | Some v =>
      promote "exit"
        (setField "exit" (match ParseInt (to_chars (TrimSpace v)) with Some c => AnyInt c | None => AnyString v end) n)
  end.

(** ** Everything else *)

Definition collectSyscall (r : AuditRecord) (n : normalizer) : normalizer :=
  let n := with_e n (λ e, map_fold (λ k v e, if bool_decide (k ∈ promoted n) then e else SetField k (AnyString v) e) e (rec_Fields r)) in
  if resolvedCall n then setField "syscall_name" (AnyString (call n)) n else n.

Definition recordMap (idx : nat) (r : AuditRecord) (consumed : string → bool) (n : normalizer) : gmap string any :=
  AnyString <$> (filter (λ kv, consumed kv.1 = false) (rec_Fields r) ∪ default ∅ (embedded n !! idx)).

Definition storeNamespaced (key : string) (m : gmap string any) (n : normalizer) : normalizer :=
  match field_of key n with
  | None => setField key (AnyMap m) n
  | Some (AnyMap cur) => setField key (AnyMaps [cur; m]) n
  | Some (AnyMaps cur) => setField key (AnyMaps (cur ++ [m])) n
  | Some _ => setField (key +:+ "_extra") (AnyMap m) n
  end.

Definition namespaceLeftovers (idx : nat) (r : AuditRecord) (consumed : string → bool) (n : normalizer) : normalizer :=
  let m := recordMap idx r consumed n in
  if bool_decide (m = ∅) then n else storeNamespaced (namespaceKey (rec_TypeName r)) m n.

Definition namespaceRecord (idx : nat) (r : AuditRecord) (n : normalizer) : normalizer :=
  if rec_Type r =? TypePath then n
  else if rec_Type r =? TypeProctitle then
    let n := match field_of "proctitle" n with
             | None => if String.eqb (Command (n_e n)) "" then
                         match rec_Fields r !! "proctitle" with
                         | Some v => setField "proctitle" (AnyString v) n
                         | None => n
                         end
                       else n
             | Some _ => n
             end in
    namespaceLeftovers idx r (λ k, String.eqb k "proctitle") n
  else if rec_Type r =? TypeCwd then namespaceLeftovers idx r (λ k, String.eqb k "cwd") n
  else if rec_Type r =? TypeExecve then namespaceLeftovers idx r isExecveArgKey n
  else if rec_Type r =? TypeSyscall then storeNamespaced "syscall_extra" (recordMap idx r (λ _, false) n) n
  else storeNamespaced (namespaceKey (rec_TypeName r)) (recordMap idx r (λ _, false) n) n.

Fixpoint collect_loop (idx : nat) (seen : bool) (recs : list AuditRecord) (n : normalizer) : normalizer :=
  match recs with
  | [] => n
  | r :: recs =>
      if (rec_Type r =? TypeSyscall) && negb seen then collect_loop (S idx) true recs (collectSyscall r n)
      else collect_loop (S idx) seen recs (namespaceRecord idx r n)
  end.

Definition collectFields (n : normalizer) : normalizer := collect_loop 0 false (g_Records (n_g n)) n.

(** ** Severity *)

Definition auditWeakened (n : normalizer) : bool :=
  if Has (n_g n) TypeDaemonAbort || Has (n_g n) TypeDaemonEnd then true
  else if Has (n_g n) TypeAddRule || Has (n_g n) TypeDelRule then true
  else if existsb (λ key, match lookup_key key n with Some v => String.eqb (TrimSpace v) "0" | None => false end) ["enabled"; "audit_enabled"]
  then true
  else match lookup_key "op" n with
       | Some v => bool_decide (normalizeOp v ∈ ["add_rule"; "remove_rule"; "delete_rule"])
       | None => false
       end.

Definition severity (n : normalizer) : string :=
  let t := Type_ (n_e n) in
  if String.eqb t TypeAuditConfiguration then if auditWeakened n then SeverityCritical else SeverityWarning
  else if bool_decide (t ∈ [TypeAuthFailure; TypeSELinuxDenial; TypeFirewallConfiguration; TypePrivilegeChange])
  then SeverityWarning
  else SeverityInfo.

(** ** Normalize *)

Definition start_event (g : Group) (opts : NormalizeOptions) : Event :=
  {| Version := SchemaVersion; Sequence := 0; Timestamp := g_Timestamp g; Type_ := "";
     Severity := ""; AuditID := g_AuditID g; BootID := opt_BootID opts; PID := None; PPID := None;
     UID := None; GID := None; AUID := None; Executable := ""; Command := ""; CWD := ""; Paths := None;
     Result := ""; RecordTypes := Some (Types g); Fields := None;
     Raw := if PreserveRaw opts then Some (RawLines g) else None |}.

(** The steps up to and with the category. *)
Definition classified (g : Group) (opts : NormalizeOptions) : normalizer :=
  let n := mkNormalizer g (start_event g opts) (First g TypeSyscall) "" false [] ∅ in
  let n := parseEmbedded n in
  let '(c, b) := syscallName n in
  let n := with_call n c b in
  let '(n, t) := classify n in
  with_e n (set_Type t).

Definition extracted (n : normalizer) : normalizer :=
  extractResult (extractPaths (extractCommand (extractCWD (extractExecutable (extractIdentity n))))).

(** The severity, and the mark of a group that the kernel did not close. *)
Definition finish (g : Group) (n : normalizer) : Event :=
  let n := with_e n (set_Severity (severity n)) in
  let n := if g_Complete g then n else setField "correlation_incomplete" (AnyBool true) n in
  n_e n.

Definition Normalize (g : option Group) (opts : NormalizeOptions) : option Event :=
  match g with
  | None => None
  | Some g => Some (finish g (collectFields (extracted (classified g opts))))
  end.
