(* ===== verification/NormalizeProofs.v ===== *)
(** * What an event says about its records

    The event of a group is well formed whatever the records say; its category and its
    identity come from the kernel's records; the fields of the records are in it. *)

From S2P Require Import Prelude GoStrings GoText GoMisc Event InternalEvents AuditRecords AuditParser Normalize.

(** ** The scan of a payload ends *)

Lemma embedded_value_length s : (length (embedded_value s).2 <= length s)%nat.
Proof.
  unfold embedded_value. destruct s as [|c s]; [done|]. destruct (_ || _).
  - pose proof (span_length (λ x, negb (Ascii.eqb x c)) s) as H. destruct (span _ s) as [v rest]. simpl in *. rewrite length_drop. lia.
  - pose proof (span_length (λ x, negb (Ascii.eqb x blank_char)) (c :: s)) as H. destruct (span _ (c :: s)) as [v rest]. done.
Qed.

(** What is left after a key is shorter. *)
Lemma embedded_progress s key rest : s ≠ [] →
  span (λ c, negb (Ascii.eqb c equals || Ascii.eqb c blank_char)) (trim_set [blank_char; ascii_of_N 9; ","%char; apostrophe_char] s) = (key, rest) →
  match rest with c :: r => if Ascii.eqb c equals then (length r < length s)%nat else (length rest < length s)%nat | [] => True end.
Proof.
  intros Hs E. set (t := trim_set _ s) in E. destruct (trim_set_suffix [blank_char; ascii_of_N 9; ","%char; apostrophe_char] s) as [a Ha]. fold t in Ha.
  pose proof (span_app (λ c, negb (Ascii.eqb c equals || Ascii.eqb c blank_char)) t) as Hsp. rewrite E in Hsp. destruct Hsp as [Ht _].
  apply (f_equal length) in Ha. rewrite Ht, !length_app in Ha. destruct rest as [|c r]; [done|]. destruct (Ascii.eqb c equals) eqn:Ec; [simpl in Ha; lia|].
  destruct key as [|k key]; [|simpl in *; lia]. exfalso. simpl in Ht. rewrite Ht in E. simpl in E. rewrite Ec in E.
  destruct (Ascii.eqb_spec c blank_char) as [->|]; [|by destruct (span _ r)].
  pose proof (trim_set_head [blank_char; ascii_of_N 9; ","%char; apostrophe_char] s) as Hh. fold t in Hh. rewrite Ht in Hh. set_solver.
Qed.

(** The fuel of [embeddedPairs] is enough: more gives the same pairs. *)
Lemma embedded_fuel fuel : ∀ fuel' s out, (length s < fuel)%nat → (length s < fuel')%nat → embedded_loop fuel s out = embedded_loop fuel' s out.
Proof.
  induction fuel as [|fuel IH]; intros fuel' s out H1 H2; [lia|]. destruct fuel' as [|fuel']; [lia|]. cbn [embedded_loop].
  destruct s as [|c0 s0] eqn:Es; [done|]. rewrite <- Es in *. destruct (_ <=? _); [done|]. cbv zeta.
  destruct (span _ (trim_set _ s)) as [key rest] eqn:E. pose proof (embedded_progress s key rest ltac:(by subst) E) as Hp.
  destruct rest as [|c r]; [destruct fuel, fuel'; done|]. destruct (Ascii.eqb c equals); [|apply IH; lia].
  pose proof (embedded_value_length r) as Hv. destruct (embedded_value r) as [val rest]. simpl in Hv. destruct key; apply IH; lia.
Qed.

(** A program cannot make the agent keep more than the limit of pairs. *)
Lemma embedded_bounded msg : Z.of_nat (size (embeddedPairs msg)) <= maxEmbeddedPairs.
Proof.
  unfold embeddedPairs. case_bool_decide; cbn [negb]; [|rewrite map_size_empty; vm_compute; discriminate].
  generalize (take maxEmbeddedValue (to_chars msg)) as s. intros s. generalize (S (length s)) as fuel. intros fuel.
  assert (H0 : Z.of_nat (size (∅ : gmap string string)) <= maxEmbeddedPairs) by (rewrite map_size_empty; vm_compute; discriminate).
  revert s H0. generalize (∅ : gmap string string). induction fuel as [|fuel IH]; intros out s Hout; [done|]. cbn [embedded_loop].
  destruct s as [|c0 s0]; [done|]. destruct (Z.leb_spec maxEmbeddedPairs (Z.of_nat (size out))); [done|].
  destruct (span _ _) as [key rest]. destruct rest as [|c r]; [by apply IH|]. destruct (Ascii.eqb c equals); [|by apply IH].
  destruct (embedded_value r) as [val rest]. destruct key as [|k key]; [by apply IH|]. apply IH.
  destruct (out !! of_chars (k :: key)) eqn:E; [done|]. rewrite map_size_insert_None by done. lia.
Qed.

(** ** The steps keep an event well formed *)

Definition categories : list string :=
  [TypeProcessExec; TypeProcessExit; TypeFileAccess; TypeFileCreate; TypeFileModify; TypeFileDelete; TypeAuthLogin;
   TypeAuthLogout; TypeAuthFailure; TypeUserCommand; TypePrivilegeChange; TypeAuditConfiguration;
   TypeFirewallConfiguration; TypeSELinuxDenial; TypeSystemSecurity].

Definition id_ok (v : option Z) : Prop := match v with Some z => 0 <= z < 2 ^ 32 | None => True end.

Record event_ok (g : Group) (opts : NormalizeOptions) (e : Event) : Prop := {
  ok_version : Version e = SchemaVersion;
  ok_sequence : Sequence e = 0;
  ok_timestamp : Timestamp e = g_Timestamp g;
  ok_auditID : AuditID e = g_AuditID g;
  ok_bootID : BootID e = opt_BootID opts;
  ok_types : RecordTypes e = Some (Types g);
  ok_raw : Raw e = if PreserveRaw opts then Some (RawLines g) else None;
  ok_ids : id_ok (PID e) ∧ id_ok (PPID e) ∧ id_ok (UID e) ∧ id_ok (GID e) ∧ id_ok (AUID e);
  ok_result : Result e ∈ [""; ResultSuccess; ResultFailure]
}.

(** The keys the normalizer writes itself, and those it may take out of the SYSCALL record
    because a typed field holds their value. *)
Definition reserved : gset string :=
  {[ "path_details"; "exit"; "proctitle"; "argv"; "syscall_name"; "execve_argc_mismatch"; "correlation_incomplete" ]}.
Definition typed_keys : gset string := {[ "pid"; "ppid"; "uid"; "gid"; "auid"; "exe"; "success"; "exit" ]}.

Definition payloads (g : Group) : list (gmap string string) :=
  (λ r, match rec_Fields r !! "msg" with Some msg => embeddedPairs msg | None => ∅ end) <$> g_Records g.

(** What holds of the normalizer before the fields are collected. *)
Record norm_inv (g : Group) (opts : NormalizeOptions) (n : normalizer) : Prop := {
  ni_g : n_g n = g;
  ni_sc : n_sc n = First g TypeSyscall;
  ni_embedded : embedded n = payloads g;
  ni_event : event_ok g opts (n_e n);
  ni_promoted : promoted n ⊆ typed_keys;
  ni_fields : ∀ k, k ∉ reserved → field_of k n = None
}.

(** Membership of a constant in a constant list or set. *)
Ltac member := apply (bool_decide_unpack _); vm_compute; exact I.

Section steps.
Context (g : Group) (opts : NormalizeOptions).

Lemma field_setField k k' v n : field_of k (setField k' v n) = if decide (k = k') then Some v else field_of k n.
Proof.
  unfold field_of, setField, with_e. simpl. case_decide as E; [subst; by rewrite lookup_insert_eq|by rewrite lookup_insert_ne].
Qed.

Lemma inv_with_e n f : Fields (f (n_e n)) = Fields (n_e n) → event_ok g opts (f (n_e n)) → norm_inv g opts n → norm_inv g opts (with_e n f).
Proof. intros Hf He [H1 H2 H3 H4 H5 H6]. constructor; try done. intros k Hk. unfold field_of in *. simpl. rewrite Hf. by apply H6. Qed.

Lemma inv_setField n k v : k ∈ reserved → norm_inv g opts n → norm_inv g opts (setField k v n).
Proof.
  intros Hk [H1 H2 H3 [] H5 H6]. constructor; try done. intros k' Hk'. rewrite field_setField. case_decide; [by subst|by apply H6].
Qed.

Lemma inv_promote n k : k ∈ typed_keys → norm_inv g opts n → norm_inv g opts (promote k n).
Proof. intros Hk [H1 H2 H3 H4 H5 H6]. constructor; try done. simpl. set_solver. Qed.

(** A change of one field of the event that keeps it well formed. *)
Ltac keep_event := apply inv_with_e; [done|match goal with H : norm_inv _ _ _ |- _ => destruct H as [_ _ _ [] _ _] end; constructor; done|done].

Lemma parseID_ok v id : parseID v = Some id → 0 <= id < 2 ^ 32.
Proof. unfold parseID. destruct (isAllDigits _); [apply all_digits_parse|done]. Qed.

Lemma resultOf_ok v : resultOf v ∈ [""; ResultSuccess; ResultFailure].
Proof. unfold resultOf. repeat case_bool_decide; member. Qed.

Lemma resultWord_inv n : norm_inv g opts n → norm_inv g opts (resultWord n).1 ∧ (resultWord n).2 ∈ [""; ResultSuccess; ResultFailure].
Proof.
  intros H. unfold resultWord. assert (Hr : (match lookup_key "res" n with Some v => resultOf v | None => "" end) ∈ [""; ResultSuccess; ResultFailure]).
  { destruct (lookup_key "res" n); [apply resultOf_ok|member]. }
  destruct (lookup_key "success" n) as [v|]; [|done]. destruct (String.eqb _ _); [done|]. split; [|apply resultOf_ok].
  by apply inv_promote.
Qed.

Lemma classified_inv : norm_inv g opts (classified g opts) ∧ Type_ (n_e (classified g opts)) ∈ categories.
Proof.
  unfold classified. set (n0 := mkNormalizer _ _ _ _ _ _ _). assert (H0 : norm_inv g opts (parseEmbedded n0)).
  { constructor; try done. constructor; simpl; try done. apply list_elem_of_here. }
  destruct (syscallName (parseEmbedded n0)) as [c b]. set (n1 := with_call _ c b).
  assert (H1 : norm_inv g opts n1) by (destruct H0; by constructor).
  assert (Hc : norm_inv g opts (classify n1).1 ∧ (classify n1).2 ∈ categories).
  { assert (Hp : default TypeSystemSecurity (pathNametypeCategory n1) ∈ categories).
    { unfold pathNametypeCategory. destruct (All _ _); [|repeat case_match]; member. }
    assert (Hs : ∀ t, syscall_category n1 = Some t → t ∈ categories).
    { unfold syscall_category, fileCategory, fileSyscallCategory. intros t E.
      repeat (case_match; simplify_eq; try (member)). }
    unfold classify. destruct (_ || _ || _); [split; [done|member]|].
    destruct (Has _ TypeNetfilterCfg); [split; [done|member]|].
    destruct (Has _ TypeUserCmd); [split; [done|member]|].
    destruct (hasAny auditConfigTypes n1); [split; [done|member]|].
    destruct (syscall_category n1) as [t|]; [split; [done|by apply Hs]|].
    destruct (hasAny authLoginTypes n1).
    { pose proof (resultWord_inv n1 H1) as [Hr _]. destruct (resultWord n1) as [n2 w].
      split; [done|]. simpl. destruct (String.eqb _ _); member. }
    destruct (hasAny authLogoutTypes n1); [split; [done|member]|].
    destruct (hasAny privilegeTypes n1); [split; [done|member]|]. done. }
  destruct (classify n1) as [n2 t]. destruct Hc as [Hc Ht]. split; [|done]. simpl in Hc. keep_event.
Qed.

(** *** Identity *)

(** The value of a key in the group, which no step changes. *)
Definition value_of (key : string) : option string :=
  match Field g key [TypeSyscall] with Some v => Some v | None => first_pair key (payloads g) end.
Definition id_of (key : string) : option Z := value_of key ≫= parseID.

Lemma lookup_value n key : norm_inv g opts n → lookup_key key n = value_of key.
Proof. intros [H1 _ H3 _ _ _]. unfold lookup_key, value_of. by rewrite H1, H3. Qed.

Lemma promoteID_inv key n : key ∈ typed_keys → norm_inv g opts n →
  norm_inv g opts (promoteID key n).1 ∧ (promoteID key n).2 = id_of key ∧ n_e (promoteID key n).1 = n_e n ∧ id_ok (id_of key).
Proof.
  intros Hk H. unfold promoteID, id_of. rewrite (lookup_value n key H). destruct (value_of key) as [v|]; simpl; [|done].
  destruct (parseID v) as [id|] eqn:E; [|done]. split_and!; [by apply inv_promote|done|done|by eapply parseID_ok].
Qed.

Definition auid_of : option Z :=
  match value_of "auid" with Some v => if isAUIDUnset v then None else parseID v | None => None end.

Definition identity (e : Event) : option Z * option Z * option Z * option Z * option Z := (PID e, PPID e, UID e, GID e, AUID e).

Lemma extractIdentity_inv n : norm_inv g opts n → AUID (n_e n) = None →
  norm_inv g opts (extractIdentity n) ∧
  identity (n_e (extractIdentity n)) = (id_of "pid", id_of "ppid", id_of "uid", id_of "gid", auid_of) ∧
  Type_ (n_e (extractIdentity n)) = Type_ (n_e n).
Proof.
  intros H Ha. unfold extractIdentity.
  destruct (promoteID_inv "pid" n ltac:(member) H) as (H1 & E1 & F1 & K1). destruct (promoteID "pid" n) as [n1 v1]. simpl in *. subst v1.
  assert (H1' : norm_inv g opts (with_e n1 (set_PID (id_of "pid")))) by (apply inv_with_e; [done|rewrite F1; destruct H as [_ _ _ [] _ _]; constructor; simpl; intuition|done]).
  set (m1 := with_e n1 _) in *.
  destruct (promoteID_inv "ppid" m1 ltac:(member) H1') as (H2 & E2 & F2 & K2). destruct (promoteID "ppid" m1) as [n2 v2]. simpl in *. subst v2.
  assert (H2' : norm_inv g opts (with_e n2 (set_PPID (id_of "ppid")))) by (apply inv_with_e; [done|rewrite F2; destruct H1' as [_ _ _ [] _ _]; constructor; simpl in *; intuition|done]).
  set (m2 := with_e n2 _) in *.
  destruct (promoteID_inv "uid" m2 ltac:(member) H2') as (H3 & E3 & F3 & K3). destruct (promoteID "uid" m2) as [n3 v3]. simpl in *. subst v3.
  assert (H3' : norm_inv g opts (with_e n3 (set_UID (id_of "uid")))) by (apply inv_with_e; [done|rewrite F3; destruct H2' as [_ _ _ [] _ _]; constructor; simpl in *; intuition|done]).
  set (m3 := with_e n3 _) in *.
  destruct (promoteID_inv "gid" m3 ltac:(member) H3') as (H4 & E4 & F4 & K4). destruct (promoteID "gid" m3) as [n4 v4]. simpl in *. subst v4.
  assert (H4' : norm_inv g opts (with_e n4 (set_GID (id_of "gid")))) by (apply inv_with_e; [done|rewrite F4; destruct H3' as [_ _ _ [] _ _]; constructor; simpl in *; intuition|done]).
  set (m4 := with_e n4 _) in *.
  assert (Hid : identity (n_e m4) = (id_of "pid", id_of "ppid", id_of "uid", id_of "gid", None) ∧ Type_ (n_e m4) = Type_ (n_e n)).
  { unfold identity, m4. simpl. rewrite F4. simpl. rewrite F3. simpl. rewrite F2. simpl. rewrite F1. by rewrite Ha. }
  destruct Hid as [Hid Ht]. rewrite (lookup_value m4 "auid" H4'). unfold auid_of. destruct (value_of "auid") as [v|]; [|done].
  destruct (isAUIDUnset v).
  - split_and!; [apply inv_with_e; [done| |done]; destruct H4' as [_ _ _ [] _ _]; constructor; simpl in *; intuition|..|done].
    unfold identity in *. simpl. by injection Hid as -> -> -> _.
  - destruct (parseID v) as [id|] eqn:E; [|done]. apply parseID_ok in E. split_and!; [|..|done].
    + apply inv_promote; [member|]. apply inv_with_e; [done| |done]. destruct H4' as [_ _ _ [] _ _]; constructor; simpl in *; intuition.
    + unfold identity in *. simpl. by injection Hid as -> -> -> _.
Qed.

(** *** The other steps *)

(** A step that keeps the invariant, the identity and the category. *)
Definition calm (n n' : normalizer) : Prop :=
  norm_inv g opts n → norm_inv g opts n' ∧ identity (n_e n') = identity (n_e n) ∧ Type_ (n_e n') = Type_ (n_e n).

Lemma calm_trans n1 n2 n3 : calm n1 n2 → calm n2 n3 → calm n1 n3.
Proof. intros H1 H2 H. destruct (H1 H) as (H3 & H4 & H5). destruct (H2 H3) as (H6 & H7 & H8). split_and!; [done|congruence..]. Qed.
Lemma calm_refl n : calm n n.
Proof. done. Qed.
Lemma calm_set n f : (∀ e, Fields (f e) = Fields e ∧ identity (f e) = identity e ∧ Type_ (f e) = Type_ e ∧ (event_ok g opts e → event_ok g opts (f e))) →
  calm n (with_e n f).
Proof. intros Hf H. destruct (Hf (n_e n)) as (H1 & H2 & H3 & H4). split_and!; [apply inv_with_e; [done|apply H4, H|done]|done|done]. Qed.
Lemma calm_field n k v : k ∈ reserved → calm n (setField k v n).
Proof. intros Hk H. split_and!; [by apply inv_setField|done|done]. Qed.
Lemma calm_promote n k : k ∈ typed_keys → calm n (promote k n).
Proof. intros Hk H. split_and!; [by apply inv_promote|done|done]. Qed.

Ltac calm_set := apply calm_set; intros e; split_and!; [done|done|done|intros []; by constructor].

Lemma extractExecutable_calm n : calm n (extractExecutable n).
Proof.
  unfold extractExecutable. destruct (lookup_key "exe" n) as [v|]; [|apply calm_refl]. destruct (_ || _); [apply calm_refl|].
  eapply calm_trans; [|apply calm_promote; member]. calm_set.
Qed.

Lemma extractCWD_calm n : calm n (extractCWD n).
Proof. unfold extractCWD. repeat case_match; try apply calm_refl; calm_set. Qed.

Lemma execveArgs_calm n : calm n (execveArgs n).1.
Proof.
  unfold execveArgs. destruct (All _ _) as [|r rs]; [apply calm_refl|]. cbn [fst]. destruct (match ParseInt _ with Some _ => _ | None => _ end); [|apply calm_refl].
  apply calm_field. member.
Qed.

Lemma extractCommand_calm n : calm n (extractCommand n).
Proof.
  unfold extractCommand. pose proof (execveArgs_calm n) as Hc. destruct (execveArgs n) as [n1 [args|]]; simpl in Hc; (eapply calm_trans; [exact Hc|]).
  - set (n2 := with_e n1 _). assert (H2 : calm n1 n2) by calm_set. eapply calm_trans; [exact H2|].
    set (n3 := setField "argv" _ n2). assert (H3 : calm n2 n3) by (apply calm_field; member). eapply calm_trans; [exact H3|]. destruct (proctitle _); [apply calm_field; member|apply calm_refl].
  - repeat case_match; try apply calm_refl; calm_set.
Qed.

Lemma extractPaths_calm n : calm n (extractPaths n).
Proof.
  unfold extractPaths. destruct (All (n_g n) TypePath) as [|r rs] eqn:E; [apply calm_refl|]. rewrite <- E. clear E. cbv zeta.
  destruct (path_names _ _) as [|first rest]; [apply calm_field; member|].
  set (n1 := with_e n _). assert (H1 : calm n n1) by calm_set.
  eapply calm_trans; [exact H1|]. set (n2 := setField _ _ n1). assert (H2 : calm n1 n2) by (apply calm_field; member).
  eapply calm_trans; [exact H2|]. destruct (_ && _); [calm_set|apply calm_refl].
Qed.

Lemma extractResult_calm n : calm n (extractResult n).
Proof.
  unfold extractResult. intros H. pose proof (resultWord_inv n H) as [Hr Hw].
  assert (He : n_e (resultWord n).1 = n_e n) by (unfold resultWord; repeat case_match; done).
  destruct (resultWord n) as [n1 w]. simpl in *. rewrite <- He. revert Hr. fold (calm n1 (match lookup_key "exit" (with_e n1 (set_Result w)) with
    | None => with_e n1 (set_Result w) | Some v => promote "exit" (setField "exit" (match ParseInt (to_chars (TrimSpace v)) with Some c => AnyInt c | None => AnyString v end) (with_e n1 (set_Result w))) end)).
  eapply (calm_trans _ (with_e n1 (set_Result w))).
  - apply calm_set. intros e. split_and!; [done|done|done|intros []; by constructor].
  - destruct (lookup_key _ _); [|apply calm_refl]. set (n2 := setField _ _ _). eapply (calm_trans _ n2); [apply calm_field; member|apply calm_promote; member].
Qed.

Lemma classified_auid : AUID (n_e (classified g opts)) = None.
Proof. unfold classified. destruct (syscallName _) as [c b]. unfold classify, resultWord. by repeat case_match; simplify_eq. Qed.

Lemma extracted_inv : norm_inv g opts (extracted (classified g opts)) ∧
  identity (n_e (extracted (classified g opts))) = (id_of "pid", id_of "ppid", id_of "uid", id_of "gid", auid_of) ∧
  Type_ (n_e (extracted (classified g opts))) = Type_ (n_e (classified g opts)).
Proof.
  destruct classified_inv as [H _]. destruct (extractIdentity_inv _ H classified_auid) as (H1 & H2 & H3). rewrite <- H2, <- H3. unfold extracted. revert H1.
  repeat (eapply calm_trans; [|first [apply extractResult_calm|apply extractPaths_calm|apply extractCommand_calm|apply extractCWD_calm|apply extractExecutable_calm]]).
  apply calm_refl.
Qed.
End steps.

(** ** Collecting the fields *)

(** The event without its fields. *)
Definition sans (e : Event) : Event :=
  {| Version := Version e; Sequence := Sequence e; Timestamp := Timestamp e; Type_ := Type_ e;
     Severity := Severity e; AuditID := AuditID e; BootID := BootID e; PID := PID e;
     PPID := PPID e; UID := UID e; GID := GID e; AUID := AUID e;
     Executable := Executable e; Command := Command e; CWD := CWD e; Paths := Paths e;
     Result := Result e; RecordTypes := RecordTypes e; Fields := None; Raw := Raw e |}.

Lemma event_ok_sans g opts e e' : sans e' = sans e → event_ok g opts e → event_ok g opts e'.
Proof.
  destruct e, e'. unfold sans. simpl. intros E [H1 H2 H3 H4 H5 H6 H7 H8 H9]. simpl in *. injection E; intros; subst. by constructor.
Qed.

Lemma identity_sans e e' : sans e' = sans e → identity e' = identity e ∧ Type_ e' = Type_ e.
Proof. destruct e, e'. unfold sans, identity. simpl. intros E. injection E; intros; by subst. Qed.

(** Only the fields of the event change. *)
Record kept (n n' : normalizer) : Prop := {
  kept_g : n_g n' = n_g n;
  kept_embedded : embedded n' = embedded n;
  kept_promoted : promoted n' = promoted n;
  kept_event : sans (n_e n') = sans (n_e n)
}.

#[export] Instance kept_preorder : PreOrder kept.
Proof. split; [by intros n|]. intros n1 n2 n3 [] []. constructor; congruence. Qed.

Lemma setField_kept k v n : kept n (setField k v n).
Proof. by constructor. Qed.

Lemma storeNamespaced_kept k m n : kept n (storeNamespaced k m n).
Proof. unfold storeNamespaced. destruct (field_of k n) as [[]|]; apply setField_kept. Qed.

(** The fields of a SYSCALL record at the top level. *)
Lemma collect_fold (p : gset string) (f : gmap string string) e :
  let e' := map_fold (λ k v e, if bool_decide (k ∈ p) then e else SetField k (AnyString v) e) e f in
  sans e' = sans e ∧
  ∀ k, default ∅ (Fields e') !! k = match f !! k with
                                    | Some v => if bool_decide (k ∈ p) then default ∅ (Fields e) !! k else Some (AnyString v)
                                    | None => default ∅ (Fields e) !! k
                                    end.
Proof.
  cbv zeta. revert f. apply (map_fold_weak_ind (λ e' f, sans e' = sans e ∧ ∀ k, default ∅ (Fields e') !! k = match f !! k with
    | Some v => if bool_decide (k ∈ p) then default ∅ (Fields e) !! k else Some (AnyString v) | None => default ∅ (Fields e) !! k end)).
  { split; [done|]. intros k. by rewrite lookup_empty. }
  intros k v f e' Hk [H1 H2]. case_bool_decide as Hp.
  - split; [done|]. intros k'. rewrite H2. destruct (decide (k' = k)) as [->|Hne].
    + rewrite Hk, lookup_insert_eq. by rewrite bool_decide_true.
    + by rewrite lookup_insert_ne by done.
  - split; [by rewrite <- H1|]. intros k'. rewrite SetField_fields. simpl. destruct (decide (k' = k)) as [->|Hne].
    + rewrite !lookup_insert_eq. by rewrite bool_decide_false.
    + rewrite !lookup_insert_ne by done. apply H2.
Qed.

Lemma collectSyscall_spec r n :
  kept n (collectSyscall r n) ∧
  ∀ k, k ≠ "syscall_name" → field_of k (collectSyscall r n) =
    match rec_Fields r !! k with
    | Some v => if bool_decide (k ∈ promoted n) then field_of k n else Some (AnyString v)
    | None => field_of k n
    end.
Proof.
  unfold collectSyscall. destruct (collect_fold (promoted n) (rec_Fields r) (n_e n)) as [H1 H2]. set (n1 := with_e n _).
  assert (Hk : kept n n1) by (constructor; done). assert (Hf : ∀ k, field_of k n1 = match rec_Fields r !! k with
    | Some v => if bool_decide (k ∈ promoted n) then field_of k n else Some (AnyString v) | None => field_of k n end) by (intros k; apply H2).
  destruct (resolvedCall n1); [|by split]. split; [etrans; [exact Hk|apply setField_kept]|].
  intros k Hne. rewrite field_setField. by rewrite decide_False.
Qed.

(** ** Evidence *)

(** The map [m] is stored under [key]. *)
Definition holds_map (key : string) (m : gmap string any) (n : normalizer) : Prop :=
  field_of key n = Some (AnyMap m) ∨ ∃ l, field_of key n = Some (AnyMaps l) ∧ m ∈ l.

(** Records that are stored as they are. *)
Definition ordinary (r : AuditRecord) : Prop := rec_Type r ∉ [TypePath; TypeProctitle; TypeCwd; TypeExecve; TypeSyscall].

(** Where a record goes. *)
Definition ns_key (r : AuditRecord) : string := if rec_Type r =? TypeSyscall then "syscall_extra" else namespaceKey (rec_TypeName r).

Section collect.
Context (scalars : gset string) (sc : option AuditRecord).
Context (Hreserved : reserved ⊆ scalars) (Hsc : ∀ r k, sc = Some r → is_Some (rec_Fields r !! k) → k ∈ scalars).

(** Outside [scalars] there are only maps. *)
Definition mapish (n : normalizer) : Prop :=
  ∀ key, key ∉ scalars → match field_of key n with None | Some (AnyMap _) | Some (AnyMaps _) => True | _ => False end.

(** A step that keeps the maps, and the fields whose name is in [scalars] and not reserved. *)
Record keeps (n n' : normalizer) : Prop := {
  keeps_rest : kept n n';
  keeps_mapish : mapish n → mapish n';
  keeps_maps : ∀ key m, key ∉ scalars → mapish n → holds_map key m n → holds_map key m n';
  keeps_scalars : mapish n → ∀ k, k ∈ scalars → k ≠ "proctitle" → field_of k n' = field_of k n
}.

Lemma keeps_refl n : keeps n n.
Proof. constructor; try done. Qed.

Lemma keeps_trans n1 n2 n3 : keeps n1 n2 → keeps n2 n3 → keeps n1 n3.
Proof.
  intros [H1 H2 H3 H4] [G1 G2 G3 G4]. constructor; [by etrans|by auto|eauto|].
  intros Hm k Hk Hp. rewrite G4 by auto. by apply H4.
Qed.

Lemma keeps_proctitle v n : keeps n (setField "proctitle" v n).
Proof.
  assert (Hin : "proctitle" ∈ scalars) by (apply Hreserved; member).
  constructor; [apply setField_kept|..].
  - intros Hm key Hk. rewrite field_setField. case_decide; [by subst|]. by apply Hm.
  - intros key m Hk _. unfold holds_map. rewrite field_setField. case_decide; [by subst|done].
  - intros _ k Hk Hp. by rewrite field_setField, decide_False.
Qed.

Lemma store_keeps key m n : key ∉ scalars → keeps n (storeNamespaced key m n) ∧ (mapish n → holds_map key m (storeNamespaced key m n)).
Proof.
  intros Hkey. assert (Hf : mapish n → ∃ v, storeNamespaced key m n = setField key v n ∧ (v = AnyMap m ∨ ∃ l, v = AnyMaps l ∧ m ∈ l) ∧
    match v with AnyMap _ | AnyMaps _ => True | _ => False end ∧
    ∀ m', holds_map key m' n → v = AnyMap m' ∨ ∃ l, v = AnyMaps l ∧ m' ∈ l).
  { intros Hm. specialize (Hm key Hkey). unfold storeNamespaced, holds_map. destruct (field_of key n) as [[| | | |cur|cur]|] eqn:E; try done; eexists; split_and!; try done.
    - right. exists [cur; m]. split; [done|set_solver].
    - intros m' [[= ->]|(l & [=] & _)]. right. eexists. split; [done|]. apply list_elem_of_here.
    - right. eexists. split; [done|]. apply elem_of_app. right. apply list_elem_of_here.
    - intros m' [[=]|(l & [= ->] & Hm')]. right. eexists. split; [done|]. apply elem_of_app. by left.
    - by left.
    - by intros m' [[=]|(l & [=] & _)]. }
  split.
  - constructor; [apply storeNamespaced_kept|..].
    + intros Hm k Hk. destruct (Hf Hm) as (v & -> & _ & Hv & _). rewrite field_setField. case_decide; [by destruct v|by apply Hm].
    + intros k m' Hk Hm Hh. destruct (Hf Hm) as (v & -> & _ & _ & Hv). unfold holds_map. rewrite field_setField. case_decide; [subst|done].
      destruct (Hv m' Hh) as [->|(l & -> & Hl)]; [by left|right; eauto].
    + intros Hm k Hk _. destruct (Hf Hm) as (v & -> & _). rewrite field_setField. case_decide; [by subst|done].
  - intros Hm. destruct (Hf Hm) as (v & -> & Hv & _). unfold holds_map. rewrite field_setField, decide_True by done.
    destruct Hv as [->|(l & -> & Hl)]; [by left|right; eauto].
Qed.

Lemma leftovers_keeps idx r consumed n : namespaceKey (rec_TypeName r) ∉ scalars → keeps n (namespaceLeftovers idx r consumed n).
Proof. intros Hk. unfold namespaceLeftovers. case_bool_decide; [apply keeps_refl|by apply store_keeps]. Qed.

Lemma namespaceRecord_keeps idx r n : ns_key r ∉ scalars → keeps n (namespaceRecord idx r n).
Proof.
  unfold ns_key, namespaceRecord. intros Hk. destruct (Z.eqb_spec (rec_Type r) TypeSyscall) as [Et|Et].
  { rewrite Et. simpl. by apply store_keeps. }
  destruct (rec_Type r =? TypePath); [apply keeps_refl|]. destruct (rec_Type r =? TypeProctitle).
  { eapply keeps_trans; [|by apply leftovers_keeps]. repeat case_match; try apply keeps_refl. apply keeps_proctitle. }
  destruct (rec_Type r =? TypeCwd); [by apply leftovers_keeps|]. destruct (rec_Type r =? TypeExecve); [by apply leftovers_keeps|]. by apply store_keeps.
Qed.

Lemma namespaceRecord_stores idx r n : ordinary r → ns_key r ∉ scalars → mapish n →
  holds_map (namespaceKey (rec_TypeName r)) (recordMap idx r (λ _, false) n) (namespaceRecord idx r n).
Proof.
  unfold ordinary, ns_key, namespaceRecord. intros Ho. rewrite !not_elem_of_cons in Ho. destruct Ho as (H1 & H2 & H3 & H4 & H5 & _).
  rewrite !(proj2 (Z.eqb_neq _ _)) by done. intros Hk Hm. by apply store_keeps.
Qed.

Lemma collectSyscall_keeps r n : sc = Some r →
  kept n (collectSyscall r n) ∧ (mapish n → mapish (collectSyscall r n)) ∧
  ∀ key m, key ∉ scalars → holds_map key m n → holds_map key m (collectSyscall r n).
Proof.
  intros Hr. destruct (collectSyscall_spec r n) as [Hk Hf].
  assert (Hsame : ∀ key, key ∉ scalars → field_of key (collectSyscall r n) = field_of key n).
  { intros key Hkey. rewrite Hf; [|intros ->; apply Hkey, Hreserved; member]. destruct (rec_Fields r !! key) as [v|] eqn:E; [|done].
    exfalso. apply Hkey. eapply Hsc; [exact Hr|by rewrite E]. }
  split_and!; [done| |].
  - intros Hm key Hkey. rewrite Hsame by done. by apply Hm.
  - intros key m Hkey. unfold holds_map. by rewrite Hsame.
Qed.

(** The first SYSCALL record still to come is the one of the group. *)
Definition next_syscall (seen : bool) (recs : list AuditRecord) : Prop :=
  seen = false → ∀ r, head (filter (λ r, rec_Type r = TypeSyscall) recs) = Some r → sc = Some r.

Lemma next_syscall_tail seen r recs : next_syscall seen (r :: recs) → (rec_Type r =? TypeSyscall) && negb seen = false → next_syscall seen recs.
Proof.
  intros H E Hs r' Hr'. subst. rewrite andb_true_r in E. apply (H eq_refl). rewrite filter_cons, decide_False; [done|]. by apply Z.eqb_neq.
Qed.

Lemma collect_loop_keeps recs : ∀ idx seen n, (∀ r, r ∈ recs → ns_key r ∉ scalars) → next_syscall seen recs →
  let n' := collect_loop idx seen recs n in
  kept n n' ∧ (mapish n → mapish n') ∧ (∀ key m, key ∉ scalars → mapish n → holds_map key m n → holds_map key m n') ∧
  (seen = true → keeps n n').
Proof.
  induction recs as [|r recs IH]; intros idx seen n Hns Hsy; cbv zeta; [split_and!; try done; intros; apply keeps_refl|]. cbn [collect_loop].
  destruct ((rec_Type r =? TypeSyscall) && negb seen) eqn:E.
  - apply andb_true_iff in E as [Et%Z.eqb_eq Es]. destruct seen; [done|].
    assert (Hr : sc = Some r) by (apply (Hsy eq_refl); by rewrite filter_cons, decide_True).
    destruct (collectSyscall_keeps r n Hr) as (K1 & K2 & K3).
    destruct (IH (S idx) true (collectSyscall r n)) as (I1 & I2 & I3 & I4); [set_solver|done|]. split_and!; [by etrans|by auto|eauto|done].
  - assert (Hk : keeps n (namespaceRecord idx r n)) by (apply namespaceRecord_keeps, Hns, list_elem_of_here).
    destruct (IH (S idx) seen (namespaceRecord idx r n)) as (I1 & I2 & I3 & I4); [set_solver|by eapply next_syscall_tail|].
    destruct Hk as [K1 K2 K3 K4]. split_and!; [by etrans|by auto|eauto|]. intros Hs. eapply keeps_trans; [by constructor|by apply I4].
Qed.

Lemma recordMap_kept idx r c n n' : kept n n' → recordMap idx r c n' = recordMap idx r c n.
Proof. intros [_ H _ _]. unfold recordMap. by rewrite H. Qed.

Lemma collect_loop_stores recs : ∀ idx seen n i r, (∀ r, r ∈ recs → ns_key r ∉ scalars) → next_syscall seen recs → mapish n →
  recs !! i = Some r → ordinary r →
  holds_map (namespaceKey (rec_TypeName r)) (recordMap (idx + i) r (λ _, false) n) (collect_loop idx seen recs n).
Proof.
  induction recs as [|r0 recs IH]; intros idx seen n i r Hns Hsy Hm Hi Ho; [done|]. cbn [collect_loop].
  assert (Hns' : ∀ r, r ∈ recs → ns_key r ∉ scalars) by set_solver.
  destruct i as [|i]; simpl in Hi.
  - injection Hi as ->. assert (Et : rec_Type r ≠ TypeSyscall) by (unfold ordinary in Ho; set_solver).
    rewrite (proj2 (Z.eqb_neq _ _)), andb_false_l, Nat.add_0_r by done.
    pose proof (Hns r (list_elem_of_here _ _)) as Hk.
    destruct (collect_loop_keeps recs (S idx) seen (namespaceRecord idx r n)) as (_ & _ & I3 & _); [done|eapply next_syscall_tail; [exact Hsy|by rewrite (proj2 (Z.eqb_neq _ _))]|].
    apply I3; [|by apply namespaceRecord_keeps|by apply namespaceRecord_stores].
    unfold ns_key in Hk. by rewrite (proj2 (Z.eqb_neq _ _)) in Hk by done.
  - rewrite Nat.add_succ_r, <- Nat.add_succ_l. destruct ((rec_Type r0 =? TypeSyscall) && negb seen) eqn:E.
    + apply andb_true_iff in E as [Et%Z.eqb_eq Es]. destruct seen; [done|].
      assert (Hr : sc = Some r0) by (apply (Hsy eq_refl); by rewrite filter_cons, decide_True).
      destruct (collectSyscall_keeps r0 n Hr) as (K1 & K2 & K3). rewrite <- (recordMap_kept _ _ _ _ _ K1). apply IH; auto. done.
    + assert (Hk : keeps n (namespaceRecord idx r0 n)) by (apply namespaceRecord_keeps, Hns, list_elem_of_here).
      rewrite <- (recordMap_kept _ _ _ _ _ (keeps_rest _ _ Hk)). apply IH; auto; [by eapply next_syscall_tail|by apply Hk].
Qed.

Lemma collect_loop_syscall recs : ∀ idx n r k v, (∀ r, r ∈ recs → ns_key r ∉ scalars) → next_syscall false recs → mapish n →
  head (filter (λ r, rec_Type r = TypeSyscall) recs) = Some r →
  rec_Fields r !! k = Some v → k ∉ reserved → k ∉ promoted n →
  field_of k (collect_loop idx false recs n) = Some (AnyString v).
Proof.
  induction recs as [|r0 recs IH]; intros idx n r k v Hns Hsy Hm Hr Hk Hres Hp; [done|]. cbn [collect_loop].
  assert (Hns' : ∀ r, r ∈ recs → ns_key r ∉ scalars) by set_solver. rewrite filter_cons in Hr.
  destruct (Z.eqb_spec (rec_Type r0) TypeSyscall) as [Et|Et]; simpl.
  - rewrite decide_True in Hr by done. injection Hr as ->.
    assert (Hr : sc = Some r) by (apply (Hsy eq_refl); by rewrite filter_cons, decide_True).
    destruct (collect_loop_keeps recs (S idx) true (collectSyscall r n)) as (_ & _ & _ & I4); [done|done|].
    destruct (collectSyscall_keeps r n Hr) as (_ & K2 & _). rewrite (keeps_scalars _ _ (I4 eq_refl)); [|auto|by eapply Hsc|intros ->; apply Hres; member].
    destruct (collectSyscall_spec r n) as [_ Hf]. rewrite Hf, Hk, bool_decide_false; [done|done|intros ->; apply Hres; member].
  - rewrite decide_False in Hr by done. assert (Hkp : keeps n (namespaceRecord idx r0 n)) by (apply namespaceRecord_keeps, Hns, list_elem_of_here).
    eapply IH; eauto; [eapply next_syscall_tail; [exact Hsy|by rewrite (proj2 (Z.eqb_neq _ _))]|by apply Hkp|].
    by rewrite (kept_promoted _ _ (keeps_rest _ _ Hkp)).
Qed.

(** A reserved field the SYSCALL record does not have stays. *)
Lemma collect_loop_details recs : ∀ idx seen n k, (∀ r, r ∈ recs → ns_key r ∉ scalars) → next_syscall seen recs → mapish n →
  k ∈ reserved → k ≠ "proctitle" → k ≠ "syscall_name" → (∀ r, sc = Some r → rec_Fields r !! k = None) →
  field_of k (collect_loop idx seen recs n) = field_of k n.
Proof.
  induction recs as [|r0 recs IH]; intros idx seen n k Hns Hsy Hm Hk Hp Hs Hr; [done|]. cbn [collect_loop].
  assert (Hns' : ∀ r, r ∈ recs → ns_key r ∉ scalars) by set_solver.
  destruct ((rec_Type r0 =? TypeSyscall) && negb seen) eqn:E.
  - apply andb_true_iff in E as [Et%Z.eqb_eq Es]. destruct seen; [done|].
    assert (Hr0 : sc = Some r0) by (apply (Hsy eq_refl); by rewrite filter_cons, decide_True).
    destruct (collectSyscall_keeps r0 n Hr0) as (K1 & K2 & K3). rewrite IH; auto; [|done].
    destruct (collectSyscall_spec r0 n) as [_ Hf]. by rewrite Hf, Hr.
  - assert (Hkp : keeps n (namespaceRecord idx r0 n)) by (apply namespaceRecord_keeps, Hns, list_elem_of_here).
    rewrite IH; auto; [|by eapply next_syscall_tail|by apply Hkp]. apply Hkp; auto.
Qed.
End collect.

(** Whatever the keys are called, only the fields change. *)
Lemma namespaceRecord_kept idx r n : kept n (namespaceRecord idx r n).
Proof.
  assert (Hl : ∀ c n, kept n (namespaceLeftovers idx r c n)).
  { intros c n'. unfold namespaceLeftovers. case_bool_decide; [reflexivity|apply storeNamespaced_kept]. }
  unfold namespaceRecord. repeat (destruct (rec_Type r =? _); [first [reflexivity|apply Hl|apply storeNamespaced_kept|idtac]|]); [|apply storeNamespaced_kept].
  etrans; [|apply Hl]. repeat case_match; try reflexivity. apply setField_kept.
Qed.

Lemma collect_loop_kept recs : ∀ idx seen n, kept n (collect_loop idx seen recs n).
Proof.
  induction recs as [|r recs IH]; intros idx seen n; simpl; [reflexivity|]. destruct (_ && _).
  - etrans; [apply collectSyscall_spec|apply IH].
  - etrans; [apply namespaceRecord_kept|apply IH].
Qed.

(** What the last step does. *)
Lemma finish_facts g opts c : event_ok g opts (n_e c) →
  event_ok g opts (finish g c) ∧ identity (finish g c) = identity (n_e c) ∧ Type_ (finish g c) = Type_ (n_e c) ∧
  Severity (finish g c) ∈ [SeverityInfo; SeverityWarning; SeverityCritical] ∧
  (∀ k, k ≠ "correlation_incomplete" → default ∅ (Fields (finish g c)) !! k = field_of k c) ∧
  (g_Complete g = false → default ∅ (Fields (finish g c)) !! "correlation_incomplete" = Some (AnyBool true)).
Proof.
  intros Hok. assert (Hsev : severity c ∈ [SeverityInfo; SeverityWarning; SeverityCritical]) by (unfold severity; repeat case_match; member).
  unfold finish. set (n := with_e c _). assert (Hn : event_ok g opts (n_e n)) by (destruct Hok; by constructor).
  assert (Hf : ∀ k, field_of k n = field_of k c) by done. destruct (g_Complete g); [done|]. split_and!; try done.
  - apply (event_ok_sans g opts (n_e n)); done.
  - intros k Hk. rewrite <- Hf. transitivity (field_of k (setField "correlation_incomplete" (AnyBool true) n)); [done|]. by rewrite field_setField, decide_False.
  - intros _. transitivity (field_of "correlation_incomplete" (setField "correlation_incomplete" (AnyBool true) n)); [done|]. by rewrite field_setField, decide_True.
Qed.

Lemma normalize_facts g opts : ∃ e, Normalize (Some g) opts = Some e ∧ event_ok g opts e ∧
  identity e = (id_of g "pid", id_of g "ppid", id_of g "uid", id_of g "gid", auid_of g) ∧
  Type_ e = Type_ (n_e (classified g opts)) ∧
  Severity e ∈ [SeverityInfo; SeverityWarning; SeverityCritical] ∧
  (∀ k, k ≠ "correlation_incomplete" → default ∅ (Fields e) !! k = field_of k (collectFields (extracted (classified g opts)))) ∧
  (g_Complete g = false → default ∅ (Fields e) !! "correlation_incomplete" = Some (AnyBool true)).
Proof.
  destruct (extracted_inv g opts) as (Hi & Hid & Ht). set (x := extracted (classified g opts)) in *.
  assert (Hk : kept x (collectFields x)) by apply collect_loop_kept.
  destruct (identity_sans _ _ (kept_event _ _ Hk)) as [Hid' Ht']. pose proof (event_ok_sans g opts _ _ (kept_event _ _ Hk) (ni_event _ _ _ Hi)) as Hok.
  destruct (finish_facts g opts (collectFields x) Hok) as (F1 & F2 & F3 & F4 & F5 & F6).
  exists (finish g (collectFields x)). split; [reflexivity|]. rewrite <- Hid, <- Hid', <- Ht, <- Ht'. by split_and!.
Qed.

(** C32: Every group becomes a well-formed event, whatever its records say: with the schema
    version, no number yet, the time, the audit id, the boot id, the names of the records
    and, if asked for, their text; a category that is none of the agent's own types; a
    severity and a result of the closed lists; ids of 32 bits; and the mark of an
    incomplete correlation if the group was not closed by the kernel. *)
Theorem normalized_well_formed g opts :
  match Normalize (Some g) opts with
  | Some e =>
      event_ok g opts e ∧ Type_ e ∈ categories ∧ IsInternal (Type_ e) = false ∧
      Severity e ∈ [SeverityInfo; SeverityWarning; SeverityCritical] ∧
      (g_Complete g = false → default ∅ (Fields e) !! "correlation_incomplete" = Some (AnyBool true))
  | None => False
  end.
Proof.
  destruct (normalize_facts g opts) as (e & -> & Hok & _ & Ht & Hs & _ & Hc).
  assert (Hcat : Type_ e ∈ categories) by (rewrite Ht; apply classified_inv). split_and!; try done. assert (Hall : forallb (λ t, negb (IsInternal t)) categories = true) by (vm_compute; reflexivity).
    rewrite forallb_forall in Hall. specialize (Hall _ (proj1 (list_elem_of_In _ _) Hcat)). by apply negb_true_iff.
Qed.

(** ** Identity *)

Lemma field_of_first g key t r v : First g t = Some r → rec_Fields r !! key = Some v → Field g key [t] = Some v.
Proof.
  intros Hf Hv. simpl. unfold First in Hf. unfold All. destruct (filter _ (g_Records g)) as [|r' rs]; [done|]. simpl in *.
  injection Hf as ->. by rewrite Hv.
Qed.

(** C35: The identity of an event is the kernel's.  When the group has a SYSCALL record, a
    process, parent, user, group or login id in it is the one of the event, whatever the
    other records of the group, and the text a program wrote into them, say. *)
Theorem identity_from_kernel g opts sc e key v id :
  Normalize (Some g) opts = Some e → First g TypeSyscall = Some sc →
  rec_Fields sc !! key = Some v → parseID v = Some id →
  (key = "pid" → PID e = Some id) ∧ (key = "ppid" → PPID e = Some id) ∧ (key = "uid" → UID e = Some id) ∧
  (key = "gid" → GID e = Some id) ∧ (key = "auid" → AUID e = if isAUIDUnset v then None else Some id).
Proof.
  intros He Hsc Hv Hid. destruct (normalize_facts g opts) as (e' & He' & _ & Hi & _). rewrite He in He'. injection He' as <-.
  pose proof (field_of_first g key TypeSyscall sc v Hsc Hv) as Hf.
  assert (Hval : value_of g key = Some v) by (unfold value_of; by rewrite Hf).
  assert (Hi' : id_of g key = Some id) by (unfold id_of; by rewrite Hval).
  unfold identity in Hi. injection Hi as E1 E2 E3 E4 E5.
  split_and!; intros ->; try congruence. rewrite E5. unfold auid_of. rewrite Hval. by destruct (isAUIDUnset v).
Qed.

(** ** Category *)

Lemma exec_numbers : map_Forall (λ num name, isExecSyscall name = true → num = 59 ∨ num = 322) x8664Syscalls.
Proof.
  apply map_Forall_to_list. assert (H : forallb (λ p, negb (isExecSyscall (p : Z * string).2) || (p.1 =? 59) || (p.1 =? 322)) (map_to_list x8664Syscalls) = true) by (vm_compute; reflexivity).
  rewrite forallb_forall in H. apply Forall_forall. intros [num name] Hin Hx. specialize (H _ (proj1 (list_elem_of_In _ _) Hin)). simpl in H.
  rewrite Hx in H. simpl in H. apply orb_true_iff in H as [H|H]; apply Z.eqb_eq in H; auto.
Qed.

Lemma classify_exec n : (classify n).2 = TypeProcessExec → n_sc n ≠ None ∧ isExecSyscall (call n) = true.
Proof.
  unfold classify. destruct (_ || _ || _); [done|]. destruct (Has _ TypeNetfilterCfg); [done|]. destruct (Has _ TypeUserCmd); [done|].
  destruct (hasAny auditConfigTypes n); [done|]. destruct (syscall_category n) as [t|] eqn:E.
  - simpl. intros ->. unfold syscall_category in E. destruct (n_sc n); [|done]. split; [done|].
    destruct (isExecSyscall (call n)); [done|]. destruct (isExitSyscall (call n)); [done|]. destruct (Has _ TypePath); [|done].
    unfold fileCategory, fileSyscallCategory in E. repeat case_match; done.
  - destruct (hasAny authLoginTypes n); [destruct (resultWord n); simpl; by destruct (String.eqb _ _)|].
    destruct (hasAny authLogoutTypes n); [done|]. destruct (hasAny privilegeTypes n); [done|].
    unfold pathNametypeCategory. simpl. repeat case_match; done.
Qed.

(** A call that is an execution, and where its name comes from. *)
Lemma syscallName_exec n sc c b : n_sc n = Some sc → syscallName n = (c, b) → isExecSyscall c = true →
  let v := TrimSpace (get "syscall" sc) in
  isExecSyscall v = true ∨
  (isX8664 (get "arch" sc) = true ∧ isAllDigits v = true ∧ (ParseInt (to_chars v) = Some 59 ∨ ParseInt (to_chars v) = Some 322)).
Proof.
  intros Hsc Es Hc. cbv zeta. unfold syscallName in Es. rewrite Hsc in Es. clear Hsc. cbv zeta in Es. revert Es. generalize (TrimSpace (get "syscall" sc)). intros v.
  destruct (String.eqb v ""); [intros [= <- <-]; done|]. destruct (isAllDigits v); cbn [negb]; [|intros [= <- <-]; by left].
  destruct (isX8664 _); cbn [negb]; [|intros [= <- <-]; by left]. destruct (ParseInt (to_chars v)) as [num|]; [|intros [= <- <-]; by left].
  destruct (x8664Syscalls !! num) as [name|] eqn:En; [|intros [= <- <-]; by left]. intros [= <- <-].
  right. split_and!; try done. destruct (exec_numbers num name En Hc) as [->| ->]; auto.
Qed.

(** A category is never guessed from a syscall number of another architecture.  An event
    is a process execution only when the SYSCALL record of its group names the syscall, or
    carries number 59 or 322 with the architecture x86_64. *)
Theorem exec_is_evidenced g opts e :
  Normalize (Some g) opts = Some e → Type_ e = TypeProcessExec →
  ∃ sc, First g TypeSyscall = Some sc ∧
    let v := TrimSpace (get "syscall" sc) in
    isExecSyscall v = true ∨
    (isX8664 (get "arch" sc) = true ∧ isAllDigits v = true ∧ (ParseInt (to_chars v) = Some 59 ∨ ParseInt (to_chars v) = Some 322)).
Proof.
  intros He Ht. destruct (normalize_facts g opts) as (e' & He' & _ & _ & Hcl & _). rewrite He in He'. injection He' as <-.
  rewrite Ht in Hcl. symmetry in Hcl. unfold classified in Hcl. set (n0 := parseEmbedded _) in Hcl.
  destruct (syscallName n0) as [c b] eqn:Es. set (n1 := with_call n0 c b) in Hcl.
  assert (Hx : (classify n1).2 = TypeProcessExec) by (destruct (classify n1) as [n2 t]; exact Hcl).
  apply classify_exec in Hx as [Hsc Hc]. change (n_sc n1) with (First g TypeSyscall) in Hsc. change (call n1) with c in Hc.
  destruct (First g TypeSyscall) as [sc|] eqn:Ef; [|done]. exists sc. split; [done|]. apply (syscallName_exec n0 sc c b); [reflexivity|exact Es|exact Hc].
Qed.
