(* ===== verification/NormalizeEvidence.v ===== *)
(** * The records of a group are in its event

    Where the fields of the records of a group are found in the event, and the places
    where the normalizer drops some of them. *)

From S2P Require Import Prelude GoStrings GoText GoMisc Event InternalEvents AuditRecords AuditParser Normalize NormalizeProofs.

(** ** Paths *)

Lemma type_member_other r d k k' : k ≠ k' → type_member r d k' !! k = d !! k.
Proof. intros Hne. unfold type_member. repeat case_match; [|done..]. by rewrite lookup_insert_ne. Qed.

(** A member is the text of the record or the number it says. *)
Definition says (r : AuditRecord) (d : gmap string any) (k v : string) : Prop :=
  d !! k = Some (AnyString v) ∨ ∃ z, ParseInt (to_chars (TrimSpace v)) = Some z ∧ d !! k = Some (AnyInt z).

Lemma type_member_says r d k k' v : rec_Fields r !! k = Some v → says r d k v → says r (type_member r d k') k v.
Proof.
  intros Hv Hs. destruct (decide (k = k')) as [<-|Hne]; [|unfold says; by rewrite type_member_other].
  unfold type_member. rewrite Hv. destruct (ParseInt _) as [z|] eqn:E; [|done]. right. exists z. by rewrite lookup_insert_eq.
Qed.

Lemma path_detail_says cwd r k v : rec_Fields r !! k = Some v → k ≠ "resolved" → says r (path_detail cwd r) k v.
Proof.
  intros Hv Hne. unfold path_detail. set (d := foldl _ _ _).
  assert (Hd : says r d k v).
  { unfold d. cbn [foldl]. do 4 (apply type_member_says; [done|]). left. by rewrite lookup_fmap, Hv. }
  repeat case_match; try done. unfold says. by rewrite lookup_insert_ne.
Qed.

Lemma ordered_paths_perm recs : ordered_paths recs ≡ₚ recs.
Proof.
  unfold ordered_paths. rewrite sort_stable_perm, fmap_imap. clear. assert (H : ∀ f : nat → AuditRecord → Z * AuditRecord, (∀ i r, (f i r).2 = r) → imap (λ i, snd ∘ f i) recs = recs).
  { induction recs as [|r recs IH]; intros f Hf; [done|]. rewrite imap_cons. simpl. rewrite Hf. f_equal. apply (IH (f ∘ S)). intros i r0. apply Hf. }
  by rewrite (H (λ i r, (item_of i r, r))).
Qed.

(** The last steps of the extraction leave the other fields and the command alone. *)
Lemma result_keeps k n : k ≠ "exit" →
  field_of k (extractResult n) = field_of k n ∧ Command (n_e (extractResult n)) = Command (n_e n).
Proof.
  intros Hk. unfold extractResult. destruct (resultWord n) as [n1 w] eqn:Er.
  assert (He : n_e n1 = n_e n) by (unfold resultWord in Er; repeat case_match; by simplify_eq).
  destruct (lookup_key _ _) as [v|]; [|split; [unfold field_of|]; simpl; by rewrite He].
  split; [|simpl; by rewrite He]. set (n2 := setField "exit" _ _). transitivity (field_of k n2); [done|]. unfold n2.
  rewrite field_setField, decide_False by done. unfold field_of. simpl. by rewrite He.
Qed.

Lemma paths_keep k n : k ≠ "path_details" →
  field_of k (extractPaths n) = field_of k n ∧ Command (n_e (extractPaths n)) = Command (n_e n).
Proof.
  intros Hk. unfold extractPaths. destruct (All (n_g n) TypePath) as [|r0 rs] eqn:E; [done|]. rewrite <- E. clear E. cbv zeta.
  destruct (path_names _ _) as [|f rest]; [by rewrite field_setField, decide_False|]. set (n2 := setField _ _ _).
  assert (H2 : field_of k n2 = field_of k n ∧ Command (n_e n2) = Command (n_e n)) by (unfold n2; by rewrite field_setField, decide_False).
  by destruct (_ && _).
Qed.

(** The details of the paths after the extraction. *)
Lemma extractPaths_details n r : r ∈ All (n_g n) TypePath →
  field_of "path_details" (extractPaths n) = Some (AnyMaps (path_detail (CWD (n_e n)) <$> ordered_paths (All (n_g n) TypePath))).
Proof.
  intros Hin. unfold extractPaths. destruct (All (n_g n) TypePath) as [|r0 rs] eqn:E; [by apply elem_of_nil in Hin|]. rewrite <- E. clear E. cbv zeta.
  destruct (path_names _ _) as [|f rest]; [by rewrite field_setField, decide_True|]. set (n2 := setField _ _ _).
  transitivity (field_of "path_details" n2); [by destruct (_ && _)|]. unfold n2. by rewrite field_setField, decide_True.
Qed.

Lemma extracted_unfold n :
  extracted n = extractResult (extractPaths (extractCommand (extractCWD (extractExecutable (extractIdentity n))))).
Proof. done. Qed.

Lemma extracted_paths g opts n r : norm_inv g opts n → AUID (n_e n) = None → r ∈ g_Records g → rec_Type r = TypePath →
  ∃ l cwd, field_of "path_details" (extracted n) = Some (AnyMaps l) ∧ path_detail cwd r ∈ l.
Proof.
  intros Hi Ha Hr Ht. rewrite extracted_unfold, (proj1 (result_keeps "path_details" _ ltac:(done))). destruct (extractIdentity_inv g opts _ Hi Ha) as (H1 & _ & _).
  pose proof (calm_trans g opts _ _ _ (extractExecutable_calm g opts _) (calm_trans g opts _ _ _ (extractCWD_calm g opts _) (extractCommand_calm g opts _)) H1) as (H2 & _ & _).
  revert H2. generalize (extractCommand (extractCWD (extractExecutable (extractIdentity n)))). intros m Hm.
  assert (Hin : r ∈ All (n_g m) TypePath) by (rewrite (ni_g _ _ _ Hm); unfold All; by apply list_elem_of_filter).
  rewrite (extractPaths_details m r Hin). eexists _, _. split; [done|]. apply list_elem_of_fmap_2. by rewrite ordered_paths_perm.
Qed.

(** ** The whole group *)

(** No record type has the name of a top-level field: of the keys the normalizer writes
    itself, or of a field of the SYSCALL record. *)
Definition no_collision (g : Group) : Prop :=
  ∀ r, r ∈ g_Records g → ns_key r ∉ reserved ∧ ∀ sc, First g TypeSyscall = Some sc → rec_Fields sc !! ns_key r = None.

Definition scalar_keys (g : Group) : gset string :=
  reserved ∪ match First g TypeSyscall with Some sc => dom (rec_Fields sc) | None => ∅ end.

Lemma scalar_keys_spec g : no_collision g →
  reserved ⊆ scalar_keys g ∧ (∀ r k, First g TypeSyscall = Some r → is_Some (rec_Fields r !! k) → k ∈ scalar_keys g) ∧
  (∀ r, r ∈ g_Records g → ns_key r ∉ scalar_keys g).
Proof.
  intros Hnc. unfold scalar_keys. split_and!; [set_solver| |].
  - intros r k -> Hk%elem_of_dom. set_solver.
  - intros r Hr. destruct (Hnc r Hr) as [H1 H2]. destruct (First g TypeSyscall) as [sc|]; [|set_solver].
    rewrite not_elem_of_union. split; [done|]. apply not_elem_of_dom. by apply H2.
Qed.

(** The map a record is stored as. *)
Definition record_map (g : Group) (i : nat) (r : AuditRecord) : gmap string any :=
  AnyString <$> (rec_Fields r ∪ default ∅ (payloads g !! i)).

(** The fields after [collectFields], from any state that the extraction may leave. *)
Lemma collected_evidence g opts x : norm_inv g opts x → no_collision g →
  (∀ i r, g_Records g !! i = Some r → ordinary r →
     namespaceKey (rec_TypeName r) ≠ "correlation_incomplete" ∧ holds_map (namespaceKey (rec_TypeName r)) (record_map g i r) (collectFields x)) ∧
  (∀ sc k v, First g TypeSyscall = Some sc → rec_Fields sc !! k = Some v → k ∉ reserved → k ∉ typed_keys →
     field_of k (collectFields x) = Some (AnyString v)) ∧
  (∀ k, k ∈ reserved → k ≠ "proctitle" → k ≠ "syscall_name" → (∀ sc, First g TypeSyscall = Some sc → rec_Fields sc !! k = None) →
   field_of k (collectFields x) = field_of k x).
Proof.
  intros Hi Hnc. destruct (scalar_keys_spec g Hnc) as (S1 & S2 & S3).
  assert (Hm : mapish (scalar_keys g) x) by (intros key Hkey; rewrite (ni_fields _ _ _ Hi); [done|]; intros Hin; by apply Hkey, S1).
  assert (Hn : next_syscall (First g TypeSyscall) false (g_Records g)) by by intros _ r.
  unfold collectFields. rewrite (ni_g _ _ _ Hi). split_and!.
  - intros i r Hr Ho. assert (Hkey : ns_key r = namespaceKey (rec_TypeName r)).
    { unfold ns_key. unfold ordinary in Ho. rewrite !not_elem_of_cons in Ho. rewrite (proj2 (Z.eqb_neq (rec_Type r) TypeSyscall)); [done|tauto]. }
    split; [intros E; apply (S3 r); [by eapply list_elem_of_lookup_2|]; rewrite Hkey, E; apply S1; member|].
    pose proof (collect_loop_stores (scalar_keys g) (First g TypeSyscall) S1 S2 (g_Records g) 0 false x i r S3 Hn Hm Hr Ho) as Hh.
    unfold recordMap in Hh. rewrite (ni_embedded _ _ _ Hi), map_filter_id in Hh by done. exact Hh.
  - intros sc k v Hsc Hk Hr Ht. apply (collect_loop_syscall (scalar_keys g) (First g TypeSyscall) S1 S2 (g_Records g) 0 x sc k v S3 Hn Hm Hsc Hk Hr).
    intros Hp. by apply Ht, (ni_promoted _ _ _ Hi).
  - intros k Hk Hp Hs Hsc. by apply (collect_loop_details (scalar_keys g) (First g TypeSyscall) S1 S2 (g_Records g) 0 false x k S3 Hn Hm).
Qed.


(** ** A group *)

Definition no_collisionb (g : Group) : bool :=
  forallb (λ r, bool_decide (ns_key r ∉ reserved) &&
                match First g TypeSyscall with Some sc => bool_decide (rec_Fields sc !! ns_key r = None) | None => true end) (g_Records g).

Lemma no_collisionb_spec g : no_collisionb g = true → no_collision g.
Proof.
  unfold no_collisionb. rewrite forallb_forall. intros H r Hr%list_elem_of_In. specialize (H r Hr).
  apply andb_true_iff in H as [H1%bool_decide_eq_true H2]. split; [done|]. intros sc E. rewrite E in H2. by apply bool_decide_eq_true in H2.
Qed.

(** Records of an execution, as lines of the audit log. *)
Definition line (s : string) : AuditRecord :=
  match ParseLine s with Ok r => r | Err _ => mkRecord 0 "" zero_time 0 "" ∅ "" end.
Definition group_of (lines : list string) : Group := mkGroup "1700000000.123:42" 42 0 (line <$> lines) true.

Definition exec_group : Group := group_of
  ["type=SYSCALL msg=audit(1700000000.123:42): arch=c000003e syscall=59 success=yes exit=0 ppid=1 pid=77 auid=500 uid=0 gid=0 tty=pts0 exe=/bin/cat";
   "type=EXECVE msg=audit(1700000000.123:42): argc=2 a0='cat' a1='a b'";
   "type=CWD msg=audit(1700000000.123:42): cwd='/home/x'";
   "type=PATH msg=audit(1700000000.123:42): item=0 name='../bin/cat' nametype=NORMAL ouid=0";
   "type=BPRM_FCAPS msg=audit(1700000000.123:42): fver=0 uid=4711"].
Definition sample_opts : NormalizeOptions := mkNormalizeOptions true "boot".
Definition exec_event : Event := default zero_event (Normalize (Some exec_group) sample_opts).

Example exec_event_sample : Normalize (Some exec_group) sample_opts = Some exec_event ∧
  Type_ exec_event = "process.exec" ∧ Severity exec_event = "info" ∧ Command exec_event = "cat a b" ∧ UID exec_event = Some 0 ∧
  Executable exec_event = "/bin/cat" ∧ Paths exec_event = Some ["../bin/cat"] ∧ Result exec_event = "success".
Proof. vm_compute. done. Qed.

Lemma identity_from_kernel_witness : UID exec_event = Some 0.
Proof.
  destruct (identity_from_kernel exec_group sample_opts (line
    "type=SYSCALL msg=audit(1700000000.123:42): arch=c000003e syscall=59 success=yes exit=0 ppid=1 pid=77 auid=500 uid=0 gid=0 tty=pts0 exe=/bin/cat")
    exec_event "uid" "0" 0) as (_ & _ & H & _); [vm_compute; reflexivity..|]. apply H. reflexivity.
Defined.

Lemma exec_is_evidenced_witness : ∃ sc, First exec_group TypeSyscall = Some sc.
Proof.
  destruct (exec_is_evidenced exec_group sample_opts exec_event) as (sc & H & _); [vm_compute; reflexivity|vm_compute; reflexivity|].
  exists sc. exact H.
Defined.


(** *** What is dropped *)

(** The name of the TTY record type is that of a field of the SYSCALL record; of two TTY
    records the second takes the place of the first. *)
Example second_tty_record_overwrites :
  (Fields <$> Normalize (Some (group_of
     ["type=SYSCALL msg=audit(1700000000.123:42): tty=pts0"; "type=TTY msg=audit(1700000000.123:42): data='x y'";
      "type=TTY msg=audit(1700000000.123:42): data='ls'"])) sample_opts) =
  Some (Some {[ "tty" := AnyString "pts0"; "tty_extra" := AnyMap {[ "data" := AnyString "ls" ]} ]}).
Proof. vm_compute. reflexivity. Qed.

(** The working directory of a second CWD record, and an argument behind a gap. *)
Example second_cwd_dropped :
  (λ e, (CWD e, Fields e)) <$> Normalize (Some (group_of
     ["type=CWD msg=audit(1700000000.123:42): cwd='/a'"; "type=CWD msg=audit(1700000000.123:42): cwd='/b'"])) sample_opts =
  Some ("/a", None).
Proof. vm_compute. reflexivity. Qed.

Example argument_behind_gap_dropped :
  (λ e, (Command e, Fields e)) <$> Normalize (Some (group_of
     ["type=EXECVE msg=audit(1700000000.123:42): a0='rm' a2='/etc/passwd'"])) sample_opts =
  Some ("rm", Some {[ "argv" := AnyStrings ["rm"] ]}).
Proof. vm_compute. reflexivity. Qed.
