(* ===== verification/CommandEvidence.v ===== *)
(** * From the kernel's text to the command of an event

    The record parser and the normalizer together: the argument vector that the kernel
    writes into an EXECVE record, quoted or in hexadecimal, is the one of the event. *)

From S2P Require Import Prelude GoStrings GoText GoMisc Event AuditRecords AuditParser AuditParserProofs Normalize NormalizeProofs NormalizeEvidence.

(** ** The fields of an EXECVE record *)

Lemma args_from_S fuel m i : args_from (S fuel) m i =
  match m !! arg_key i with
  | Some v => v :: args_from fuel m (S i)
  | None =>
      match m !! (arg_key i +:+ "_len") with
      | Some _ => of_chars (arg_chunks maxArgChunks m i 0) :: args_from fuel m (S i)
      | None => []
      end
  end.
Proof. done. Qed.

Definition vector_fields (args : list chars) : list kernel_field :=
  Word (to_chars "argc") (itoa (Z.of_nat (length args))) :: imap (λ i a, Text (arg_name (Z.of_nat i)) a) args.

Lemma digit_char c : in_range 48 57 c = true →
  isKeyByte c = true ∧ is_blank c = false ∧ c ≠ quote ∧ c ≠ apostrophe ∧ c ∉ record_frame ∧ c ≠ "]"%char.
Proof.
  intros Hc. set (good := λ c, negb (in_range 48 57 c) || (isKeyByte c && negb (is_blank c) && negb (Ascii.eqb c quote) &&
    negb (Ascii.eqb c apostrophe) && negb (bool_decide (c ∈ record_frame)) && negb (Ascii.eqb c "]"))).
  assert (Hg : good c = true) by (apply for_all_chars; vm_compute; reflexivity). unfold good in Hg. rewrite Hc in Hg. cbn [negb orb] in Hg.
  rewrite !andb_true_iff, !negb_true_iff in Hg. destruct Hg as (((((H1 & H2) & H3) & H4) & H5) & H6).
  apply Ascii.eqb_neq in H3, H4, H6. apply bool_decide_eq_false in H5. done.
Qed.

Lemma itoa_digits z c : c ∈ itoa z → in_range 48 57 c = true.
Proof. apply digits_range. Qed.

Lemma arg_name_no_fragment i : fragment_of TypeExecve (arg_name i) = None.
Proof.
  unfold fragment_of, parseExecveFragmentKey, arg_name. rewrite Z.eqb_refl. destruct (_ <? _)%nat; [done|].
  cbn [rev]. destruct (exists_last (l := itoa i)) as (l & d & E); [intros E; pose proof (itoa_length i) as H; rewrite E in H; simpl in H; lia|].
  rewrite E, rev_app_distr. cbn [rev app]. assert (Hd : d ≠ "]"%char) by (apply digit_char, (itoa_digits i); rewrite E; set_solver).
  apply Ascii.eqb_neq in Hd. rewrite Hd, andb_false_r. done.
Qed.

Lemma arg_field_ok i v : index_ok i → field_ok TypeExecve (Text (arg_name i) v).
Proof.
  intros Hi. unfold field_ok. cbn [kf_key]. split_and!.
  - split; [done|]. constructor; [done|]. apply Forall_forall. intros c Hc. by apply digit_char, (itoa_digits i).
  - apply arg_name_no_fragment.
  - intros E. apply (f_equal to_chars) in E. rewrite to_of_chars in E. discriminate.
  - unfold isHexEncodedField. case_bool_decide; [done|]. unfold AuditParser.isExecveArgKey, arg_name. pose proof (itoa_length i).
    destruct (Nat.ltb_spec (length ("a"%char :: itoa i)) 2); [simpl in *; lia|]. by rewrite index_digits.
Qed.

Lemma argc_field_ok z : field_ok TypeExecve (Word (to_chars "argc") (itoa z)).
Proof.
  assert (Hall : Forall (λ c, is_blank c = false ∧ c ≠ quote ∧ c ≠ apostrophe ∧ c ∉ record_frame) (itoa z)).
  { apply Forall_forall. intros c Hc%itoa_digits%digit_char. tauto. }
  assert (Hkey : key_ok (to_chars "argc")) by (split; [done|]; apply (bool_decide_unpack _); vm_compute; exact I).
  assert (Hfrag : fragment_of TypeExecve (to_chars "argc") = None) by (vm_compute; reflexivity).
  assert (Hhex : isHexEncodedField TypeExecve (to_chars "argc") = false) by (vm_compute; reflexivity).
  unfold field_ok. cbn [kf_key]. split_and!; [exact Hkey|exact Hfrag|vm_compute; discriminate|exact Hhex| |].
  - split; [eapply Forall_impl; [exact Hall|]; by intros c (? & _)|]. destruct (itoa z) as [|c l]; [done|]. apply Forall_inv in Hall as (_ & ? & ? & _). done.
  - eapply Forall_impl; [exact Hall|]. by intros c (_ & _ & _ & ?).
Qed.

Lemma itoa_inj x y : is_u64 x → is_u64 y → itoa x = itoa y → x = y.
Proof. intros Hx Hy E. apply parse_itoa in Hx, Hy. rewrite E in Hx. congruence. Qed.

Section vector.
Context (args : list chars) (Hlen : (length args <= maxExecveArgs)%nat).

Lemma small_index i : (i <= length args)%nat → index_ok (Z.of_nat i) ∧ is_u64 (Z.of_nat i).
Proof. unfold maxExecveArgs in Hlen. intros Hi. unfold index_ok, maxExecveIndex, is_u64, u64_mod. lia. Qed.

Lemma vector_fields_ok : Forall (field_ok TypeExecve) (vector_fields args).
Proof.
  constructor; [apply argc_field_ok|]. apply Forall_forall. intros k (i & a & -> & Hi)%elem_of_lookup_imap.
  apply arg_field_ok, small_index. apply lookup_lt_Some in Hi. lia.
Qed.

Lemma vector_keys : of_chars ∘ kf_key <$> vector_fields args = "argc" :: (arg_key <$> seq 0 (length args)).
Proof.
  unfold vector_fields. cbn [fmap list_fmap]. f_equal. rewrite fmap_imap. apply list_eq. intros i.
  rewrite list_lookup_imap, list_lookup_fmap. destruct (decide (i < length args)%nat) as [Hi|Hi].
  - rewrite lookup_seq_lt by done. destruct (lookup_lt_is_Some_2 args i Hi) as [a ->]. done.
  - rewrite lookup_seq_ge by lia. rewrite lookup_ge_None_2 by lia. done.
Qed.

Lemma arg_key_inj i j : (i <= length args)%nat → (j <= length args)%nat → arg_key i = arg_key j → i = j.
Proof.
  intros Hi%small_index Hj%small_index E. unfold arg_key in E. apply (f_equal to_chars) in E. rewrite !to_of_chars in E.
  apply app_inv_head in E. apply itoa_inj in E; [lia|tauto..].
Qed.

Lemma arg_key_not_argc i : arg_key i ≠ "argc".
Proof.
  intros E. unfold arg_key in E. apply (f_equal to_chars) in E. rewrite to_of_chars in E. simpl in E. injection E as E.
  assert (Hc : "r"%char ∈ itoa (Z.of_nat i)) by (rewrite E; set_solver). by apply itoa_digits in Hc.
Qed.

Lemma vector_keys_distinct : NoDup (of_chars ∘ kf_key <$> vector_fields args).
Proof.
  rewrite vector_keys. constructor.
  - intros (i & E & _)%list_elem_of_fmap. by apply (arg_key_not_argc i).
  - apply NoDup_fmap_2_strong; [|apply NoDup_seq]. intros i j Hi%elem_of_seq Hj%elem_of_seq. apply arg_key_inj; lia.
Qed.

Lemma vector_lookup i : (i <= length args)%nat → field_map (vector_fields args) !! arg_key i = of_chars <$> args !! i.
Proof.
  intros Hi. destruct (args !! i) as [a|] eqn:Ea; simpl.
  - apply elem_of_list_to_map_1; [rewrite <- list_fmap_compose; apply vector_keys_distinct|]. apply list_elem_of_fmap.
    exists (Text (arg_name (Z.of_nat i)) a). split; [done|]. right. apply elem_of_lookup_imap. eauto.
  - apply not_elem_of_list_to_map. rewrite <- list_fmap_compose. change (fst ∘ (λ k, (of_chars (kf_key k), of_chars (kf_value k)))) with (of_chars ∘ kf_key).
    rewrite vector_keys. intros [E|H]%elem_of_cons; [by apply (arg_key_not_argc i)|]. apply list_elem_of_fmap in H as (j & E & Hj%elem_of_seq).
    apply arg_key_inj in E; [|lia|lia]. apply lookup_ge_None in Ea. lia.
Qed.

Lemma vector_argc : field_map (vector_fields args) !! "argc" = Some (of_chars (itoa (Z.of_nat (length args)))).
Proof. unfold field_map, vector_fields. cbn [fmap list_fmap list_to_map foldr]. by rewrite lookup_insert_eq. Qed.

(** No key of the record ends in "_len". *)
Lemma vector_no_len i : field_map (vector_fields args) !! (arg_key i +:+ "_len") = None.
Proof.
  apply not_elem_of_list_to_map. rewrite <- list_fmap_compose. change (fst ∘ (λ k, (of_chars (kf_key k), of_chars (kf_value k)))) with (of_chars ∘ kf_key).
  rewrite vector_keys. assert (Hu : "_"%char ∈ to_chars (arg_key i +:+ "_len")) by (rewrite to_chars_app; set_solver).
  intros [E|H]%elem_of_cons.
  - rewrite E in Hu. by apply (bool_decide_unpack _) in Hu || (apply (bool_decide_pack _) in Hu; vm_compute in Hu).
  - apply list_elem_of_fmap in H as (j & E & _). rewrite E in Hu. unfold arg_key in Hu. rewrite to_of_chars in Hu.
    apply elem_of_app in Hu as [Hu|Hu]; [by apply (bool_decide_pack _) in Hu; vm_compute in Hu|]. by apply itoa_digits in Hu.
Qed.

Lemma args_from_vector fuel : ∀ i, (i <= length args)%nat → (length args - i <= fuel)%nat →
  args_from fuel (field_map (vector_fields args)) i = of_chars <$> drop i args.
Proof.
  induction fuel as [|fuel IH]; intros i Hi Hf.
  { rewrite drop_ge by lia. done. }
  rewrite args_from_S, vector_lookup by done. destruct (args !! i) as [a|] eqn:Ea; cbn [fmap option_fmap option_map].
  - rewrite (drop_S _ _ _ Ea). cbn [fmap list_fmap]. f_equal. apply lookup_lt_Some in Ea. apply IH; lia.
  - rewrite vector_no_len. apply lookup_ge_None in Ea. by rewrite drop_ge.
Qed.
End vector.

(** ** The event *)

Lemma of_to_args (args : list chars) : to_chars <$> (of_chars <$> args) = args.
Proof. induction args as [|a args IH]; [done|]. cbn [fmap list_fmap]. by rewrite to_of_chars, IH. Qed.

Lemma ParseInt_itoa z : 0 <= z < 2 ^ 63 → ParseInt (itoa z) = Some z.
Proof.
  intros Hz. unfold ParseInt. destruct (itoa z) as [|c l] eqn:E; [pose proof (itoa_length z) as H; rewrite E in H; simpl in H; lia|].
  assert (Hc : in_range 48 57 c = true) by (apply (itoa_digits z); rewrite E; set_solver).
  unfold in_range in Hc. rewrite andb_true_iff, !Z.leb_le in Hc. rewrite !(proj2 (Z.eqb_neq _ _)) by lia. rewrite <- E.
  rewrite parse_itoa by (unfold is_u64, u64_mod; lia). destruct (Z.leb_spec (2 ^ 63) z); [lia|done].
Qed.

Lemma execveArgs_vector args r n :
  (length args <= maxExecveArgs)%nat → All (n_g n) TypeExecve = [r] → rec_Fields r = field_map (vector_fields args) →
  execveArgs n = (n, Some (of_chars <$> args)).
Proof.
  intros Hlen Hr Hf. unfold execveArgs. rewrite Hr. assert (Hm : merge_execve [r] = field_map (vector_fields args)).
  { unfold merge_execve. simpl. rewrite Hf. apply map_empty_union. }
  rewrite Hm, vector_argc. cbn [default from_option id]. rewrite (args_from_vector args Hlen), drop_0 by lia.
  rewrite to_of_chars, ParseInt_itoa by (unfold maxExecveArgs in Hlen; lia). rewrite length_fmap, Z.eqb_refl. done.
Qed.

(** The step that makes the command, when the group has one EXECVE record. *)
Lemma extractCommand_vector args r n :
  (length args <= maxExecveArgs)%nat → All (n_g n) TypeExecve = [r] → rec_Fields r = field_map (vector_fields args) →
  field_of "execve_argc_mismatch" n = None →
  field_of "argv" (extractCommand n) = Some (AnyStrings (of_chars <$> args)) ∧
  field_of "execve_argc_mismatch" (extractCommand n) = None ∧
  Command (n_e (extractCommand n)) = of_chars (join [blank_char] args).
Proof.
  intros Hlen Hr Hf Hm. unfold extractCommand. rewrite (execveArgs_vector args r n) by done. cbv zeta.
  rewrite of_to_args. set (n1 := with_e n _). set (n2 := setField "argv" _ n1).
  assert (H2 : field_of "argv" n2 = Some (AnyStrings (of_chars <$> args)) ∧ field_of "execve_argc_mismatch" n2 = None ∧
    Command (n_e n2) = of_chars (join [blank_char] args)).
  { unfold n2. rewrite !field_setField, decide_True, decide_False by done. done. }
  clearbody n2. destruct (proctitle n2) as [t|]; [|done]. by rewrite !field_setField, !decide_False.
Qed.

(** Nothing is in the fields before the command is extracted. *)
Lemma promoteID_event key n : n_e (promoteID key n).1 = n_e n.
Proof. unfold promoteID. by repeat case_match. Qed.

Lemma extractIdentity_fields n : Fields (n_e (extractIdentity n)) = Fields (n_e n).
Proof.
  unfold extractIdentity.
  pose proof (promoteID_event "pid" n) as E1. destruct (promoteID "pid" n) as [n1 v1]. simpl in E1. set (m1 := with_e n1 _).
  pose proof (promoteID_event "ppid" m1) as E2. destruct (promoteID "ppid" m1) as [n2 v2]. simpl in E2. set (m2 := with_e n2 _).
  pose proof (promoteID_event "uid" m2) as E3. destruct (promoteID "uid" m2) as [n3 v3]. simpl in E3. set (m3 := with_e n3 _).
  pose proof (promoteID_event "gid" m3) as E4. destruct (promoteID "gid" m3) as [n4 v4]. simpl in E4. set (m4 := with_e n4 _).
  assert (E5 : Fields (n_e m4) = Fields (n_e n)) by (unfold m4; simpl; rewrite E4; simpl; rewrite E3; simpl; rewrite E2; simpl; by rewrite E1).
  clearbody m4. repeat case_match; done.
Qed.

Lemma early_fields n : Fields (n_e (extractCWD (extractExecutable (extractIdentity n)))) = Fields (n_e n).
Proof.
  rewrite <- (extractIdentity_fields n). generalize (extractIdentity n). intros m.
  transitivity (Fields (n_e (extractExecutable m))); [|unfold extractExecutable; by repeat case_match].
  generalize (extractExecutable m). intros k. unfold extractCWD. by repeat case_match.
Qed.

Lemma classified_fields g opts : Fields (n_e (classified g opts)) = None.
Proof. unfold classified. destruct (syscallName _) as [c b]. unfold classify, resultWord. by repeat case_match; simplify_eq. Qed.

Lemma finish_command g c : Command (finish g c) = Command (n_e c).
Proof. unfold finish. by destruct (g_Complete g). Qed.

Lemma kept_command n n' : kept n n' → Command (n_e n') = Command (n_e n).
Proof. intros [_ _ _ H]. by apply (f_equal Command) in H. Qed.

Lemma collectFields_kept n : kept n (collectFields n).
Proof. apply collect_loop_kept. Qed.

(** The fields of the parsed record. *)
Lemma vector_parsed args sec msec serial received r :
  AuditParserProofs.id_ok sec msec serial → (length args <= maxExecveArgs)%nat →
  Z.of_nat (length (kernel_body sec msec serial (vector_fields args))) <= maxRecordLength →
  ParseRecord (mkRawMessage TypeExecve (of_chars (kernel_body sec msec serial (vector_fields args))) received) = Ok r →
  rec_Fields r = field_map (vector_fields args).
Proof.
  intros Hid Hlen Hmax. assert (Hok : Forall (field_ok TypeExecve) (vector_fields args)) by by apply vector_fields_ok.
  rewrite parse_body; [|by apply (kernel_body_trimmed TypeExecve)|done].
  rewrite (kernel_parse TypeExecve sec msec serial (vector_fields args) received Hid); [|done|exact Hok|by apply vector_keys_distinct| |exact Hmax].
  - intros E. apply (f_equal (λ x, match x with Ok r => rec_Fields r | Err _ => ∅ end)) in E. symmetry. exact E.
  - unfold vector_fields. cbn [length]. rewrite length_imap. unfold maxExecveArgs in Hlen. unfold maxFields. lia.
Qed.

(** C15: The command of an event is the argument vector of the kernel.  For an EXECVE record
    with the texts of at most 4096 arguments, each quoted or in hexadecimal, that is parsed
    and is the EXECVE record of a group, the event of the group has exactly those arguments,
    with their bytes and boundaries, and their join as its command, and does not report a
    mismatch of their number. *)
Theorem command_end_to_end args sec msec serial received r g opts e :
  AuditParserProofs.id_ok sec msec serial → (length args <= maxExecveArgs)%nat →
  Z.of_nat (length (kernel_body sec msec serial (vector_fields args))) <= maxRecordLength →
  ParseRecord (mkRawMessage TypeExecve (of_chars (kernel_body sec msec serial (vector_fields args))) received) = Ok r →
  All g TypeExecve = [r] → no_collision g →
  (∀ sc k, First g TypeSyscall = Some sc → k = "argv" ∨ k = "execve_argc_mismatch" → rec_Fields sc !! k = None) →
  Normalize (Some g) opts = Some e →
  default ∅ (Fields e) !! "argv" = Some (AnyStrings (of_chars <$> args)) ∧
  default ∅ (Fields e) !! "execve_argc_mismatch" = None ∧
  Command e = of_chars (join [blank_char] args).
Proof.
  intros Hid Hlen Hmax Hp Hr Hnc Hsc He.
  assert (Hf : rec_Fields r = field_map (vector_fields args)).
  { apply (vector_parsed args sec msec serial received r); assumption. }
  assert (He' : e = finish g (collectFields (extracted (classified g opts)))) by (simpl in He; congruence). clear Hp He.
  destruct (classified_inv g opts) as [H0 _]. destruct (extractIdentity_inv g opts _ H0 (classified_auid g opts)) as (H1 & _ & _).
  pose proof (calm_trans g opts _ _ _ (extractExecutable_calm g opts _) (extractCWD_calm g opts _) H1) as (H2 & _ & _).
  destruct (extracted_inv g opts) as (Hi & _). destruct (collected_evidence g opts _ Hi Hnc) as (_ & _ & Hc).
  destruct (finish_facts g opts (collectFields (extracted (classified g opts)))) as (_ & _ & _ & _ & Hff & _).
  { eapply event_ok_sans; [apply (kept_event _ _ (collectFields_kept _))|apply (ni_event _ _ _ Hi)]. }
  rewrite He', finish_command, !Hff by done. rewrite (kept_command _ _ (collectFields_kept _)).
  rewrite !Hc by (first [member|done|intros sc Hs; eapply Hsc; eauto]). rewrite extracted_unfold.
  assert (Hnone : field_of "execve_argc_mismatch" (extractCWD (extractExecutable (extractIdentity (classified g opts)))) = None).
  { unfold field_of. by rewrite early_fields, classified_fields. }
  revert H2 Hnone.
  generalize (extractCWD (extractExecutable (extractIdentity (classified g opts)))). intros m H2 Hnone.
  destruct (extractCommand_vector args r m Hlen) as (E1 & E2 & E3); [by rewrite (ni_g _ _ _ H2)|done|done|].
  rewrite (proj1 (result_keeps "argv" _ ltac:(done))), (proj1 (result_keeps "execve_argc_mismatch" _ ltac:(done))), (proj2 (result_keeps "argv" _ ltac:(done))).
  rewrite (proj1 (paths_keep "argv" _ ltac:(done))), (proj1 (paths_keep "execve_argc_mismatch" _ ltac:(done))), (proj2 (paths_keep "argv" _ ltac:(done))).
  done.
Qed.

(** ** An execution *)

Definition demo_args : list chars := [to_chars "sh"; to_chars "-c"; to_chars "echo a"].
Definition demo_record : AuditRecord :=
  match ParseRecord (mkRawMessage TypeExecve (of_chars (kernel_body 1700000000 123 42 (vector_fields demo_args))) 0) with
  | Ok r => r
  | Err _ => mkRecord 0 "" zero_time 0 "" ∅ ""
  end.
Definition demo_group : Group :=
  mkGroup "1700000000.123:42" 42 0
    [line "type=SYSCALL msg=audit(1700000000.123:42): arch=c000003e syscall=59 success=yes pid=77"; demo_record] true.
Definition demo_event : Event := default zero_event (Normalize (Some demo_group) sample_opts).

Lemma command_end_to_end_witness :
  default ∅ (Fields demo_event) !! "argv" = Some (AnyStrings ["sh"; "-c"; "echo a"]) ∧ Command demo_event = "sh -c echo a".
Proof.
  destruct (command_end_to_end demo_args 1700000000 123 42 0 demo_record demo_group sample_opts demo_event) as (H1 & _ & H3).
  - apply demo_id_ok.
  - apply (bool_decide_unpack _). vm_compute. exact I.
  - vm_compute. discriminate.
  - vm_compute. reflexivity.
  - vm_compute. reflexivity.
  - apply no_collisionb_spec. vm_compute. reflexivity.
  - intros sc k Hsc Hk. vm_compute in Hsc. injection Hsc as <-. destruct Hk as [->| ->]; vm_compute; reflexivity.
  - vm_compute. reflexivity.
  - split; [exact H1|exact H3].
Defined.
