(* ===== verification/Enrich.v ===== *)
(** * Who a guest is

    [SauronAgent/internal/host/enrich.go], the envelope of [internal/output/sink.go] and
    the virtual machine entries of [internal/config/host.go]: the collector's own view of
    the peer of a connection, fixed before a byte is read from it, and what the guest
    says about itself, kept apart from it. *)

From S2P Require Import Prelude GoStrings GoText ClientIP Event Messages.

Definition VMADDR_CID_ANY : Z := 4294967295.
Definition cidUnidentified : Z := VMADDR_CID_ANY.

Record VMMapping : Type := mkVM {
  vm_CID : Z;
  vm_Name : string;
  vm_UUID : string;
  vm_Environment : string;
  vm_SecurityDomain : string;
  vm_VLAN : string;
  vm_Labels : option (gmap string string);
  vm_Expected : bool
}.

Record Reported : Type := mkReported {
  rep_Hostname : string; rep_MachineID : string; rep_BootID : string; rep_Kernel : string; rep_AgentVersion : string
}.

Record Source : Type := mkSource {
  src_CID : Z;
  src_VM : string;
  src_Host : string;
  src_UUID : string;
  src_Environment : string;
  src_SecurityDomain : string;
  src_VLAN : string;
  src_Labels : option (gmap string string);
  Known : bool;
  src_Reported : option Reported
}.

Record Envelope : Type := mkEnvelope { ReceivedAt : time; env_Source : Source; env_Event : Event }.

(** [s.src.Reported = r] *)
Definition set_Reported (r : option Reported) (s : Source) : Source :=
  mkSource (src_CID s) (src_VM s) (src_Host s) (src_UUID s) (src_Environment s) (src_SecurityDomain s)
    (src_VLAN s) (src_Labels s) (Known s) r.

Record peer : Type := mkPeer { cid : Z; vsock : bool; addr : string }.

(** The address of the remote end, if there is one, and the CID the hypervisor gives
    for the connection. *)
Definition peerOf (remote : option string) (peerCID : option Z) : peer :=
  let a := default "" remote in
  match peerCID with
  | Some c => mkPeer c true a
  | None => mkPeer cidUnidentified false a
  end.

Definition decimal (z : Z) : string := of_chars (itoa z).

Section enrich.
Context `{N : NetIP}.

Definition hostPart (a : string) : string :=
  match SplitHostPort a with
  | Some h => if String.eqb h "" then (if String.eqb a "" then "unknown" else a) else h
  | None => if String.eqb a "" then "unknown" else a
  end.

Definition bucket (p : peer) : string :=
  if vsock p then "cid:" +:+ decimal (cid p) else "peer:" +:+ hostPart (addr p).

Definition logCID (p : peer) : any := if vsock p then AnyInt (cid p) else AnyString "none".

Record enricher : Type := mkEnricher {
  hostName : string;
  vms : gmap Z VMMapping;
  resolve : option (Z → option VMMapping);
  allowUnknown : bool
}.

Definition newEnricher (host : string) (l : list VMMapping) (r : option (Z → option VMMapping)) (allow : bool) : enricher :=
  mkEnricher host (fold_left (λ m v, <[vm_CID v := v]> m) l ∅) r allow.

Definition lookup_vm (e : enricher) (c : Z) : option VMMapping :=
  match resolve e with
  | Some r => match r c with Some v => Some v | None => vms e !! c end
  | None => vms e !! c
  end.

Definition authorized (e : enricher) (s : Source) : bool := Known s || allowUnknown e.

Definition source (e : enricher) (p : peer) : Source :=
  if negb (vsock p)
  then mkSource (cid p) ("unidentified-peer-" +:+ hostPart (addr p)) (hostName e) "" "" "" "" None false None
  else match lookup_vm e (cid p) with
       | None => mkSource (cid p) ("unknown-cid-" +:+ decimal (cid p)) (hostName e) "" "" "" "" None false None
       | Some v => mkSource (cid p) (vm_Name v) (hostName e) (vm_UUID v) (vm_Environment v) (vm_SecurityDomain v)
                     (vm_VLAN v) (vm_Labels v) true None
       end.

Definition reportedFrom (h : option Hello) : option Reported :=
  (λ h, mkReported (Hostname h) (MachineID h) (h_BootID h) (Kernel h) (AgentVersion h)) <$> h.

Definition envelopeFor (now : time) (s : Source) (e : Event) : Envelope := mkEnvelope now s e.

(** ** Buckets keep peers apart *)

Lemma bucket_cid_inj p q : vsock p = true → vsock q = true → 0 <= cid p < 2 ^ 32 → 0 <= cid q < 2 ^ 32 →
  bucket p = bucket q → cid p = cid q.
Proof.
  unfold bucket, decimal. intros -> -> Hp Hq H. apply (f_equal to_chars) in H.
  rewrite !to_chars_app, !to_of_chars in H. apply app_inv_head in H.
  apply (f_equal parse_uint) in H. rewrite !parse_itoa in H by (unfold is_u64, u64_mod; lia). congruence.
Qed.
End enrich.
