(* ===== verification/HostMonitor.v ===== *)
(** * Silent virtual machines

    [SauronAgent/internal/host/monitor.go], [monitor_health.go] and
    [identity_recovery.go]: the collector watches the virtual machines that should have
    an audit stream, whether or not their agent ever connects, and reports a stream that
    goes silent and one that returns.  Every operation here is a critical section of
    [m.mu]; publishing the alerts is in [Collector].

    The order in which Go ranges over [m.vms] is the argument [order]: any list; every
    machine is visited once.  How durations and times are printed into an alert is a
    parameter.  The field [history], which no operation reads, records the alerts queued
    and the machines whose record was dropped. *)

From S2P Require Import Prelude GoStrings ClientIP Event InternalEvents Enrich.

(** [t.Sub(u)], which saturates. *)
Definition time_Sub (t u : time) : duration := Z.max (- 2 ^ 63) (Z.min (2 ^ 63 - 1) (t - u)).

Record vmHealth : Type := mkHealth {
  mapping : VMMapping;
  h_source : Source;
  lastSeen : time;
  observed : bool;
  lost : bool
}.

Definition set_seen (h : vmHealth) (t : time) (o l : bool) : vmHealth := mkHealth (mapping h) (h_source h) t o l.

Record streamAlert : Type := mkAlert { al_source : Source; al_event : Event }.

Definition maxPendingStreamAlerts : nat := 4096.

(** An outage reported, a recovery reported, and a record dropped. *)
Inductive mark : Type :=
| Lost (c : Z) (a : streamAlert)
| Resumed (c : Z) (a : streamAlert)
| Forgot (c : Z).

(** What the monitor is set up with; [has_expected] tells that [ExpectedVMs] is given. *)
Record monitorConfig : Type := mkMonitorConfig {
  enabled : bool;
  timeout : duration;
  startupGrace : duration;
  interval : duration;
  m_hostName : string;
  has_expected : bool;
  Seconds : duration → any;
  FormatRFC3339Nano : time → string;
  DurationString : duration → string
}.

Record monitor : Type := mkMonitor {
  m_vms : gmap Z vmHealth;
  lastRefresh : time;
  refreshErr : option string;
  m_pending : list streamAlert;
  publishing : bool;
  overflow : bool;
  StreamsLost : Z;
  history : list mark
}.

Definition set_vms (m : monitor) x : monitor :=
  mkMonitor x (lastRefresh m) (refreshErr m) (m_pending m) (publishing m) (overflow m) (StreamsLost m) (history m).
Definition set_refresh (m : monitor) t e : monitor :=
  mkMonitor (m_vms m) t e (m_pending m) (publishing m) (overflow m) (StreamsLost m) (history m).
Definition set_pending (m : monitor) x : monitor :=
  mkMonitor (m_vms m) (lastRefresh m) (refreshErr m) x (publishing m) (overflow m) (StreamsLost m) (history m).
Definition set_publishing (m : monitor) x : monitor :=
  mkMonitor (m_vms m) (lastRefresh m) (refreshErr m) (m_pending m) x (overflow m) (StreamsLost m) (history m).
Definition set_overflow (m : monitor) x : monitor :=
  mkMonitor (m_vms m) (lastRefresh m) (refreshErr m) (m_pending m) (publishing m) x (StreamsLost m) (history m).
Definition set_StreamsLost (m : monitor) x : monitor :=
  mkMonitor (m_vms m) (lastRefresh m) (refreshErr m) (m_pending m) (publishing m) (overflow m) x (history m).
Definition note (x : list mark) (m : monitor) : monitor :=
  mkMonitor (m_vms m) (lastRefresh m) (refreshErr m) (m_pending m) (publishing m) (overflow m) (StreamsLost m)
    (history m ++ x).

(** Every key of the map once, those of [order] first. *)
Definition visit {A} (order : list Z) (m : gmap Z A) : list Z :=
  filter (λ c, is_Some (m !! c)) (remove_dups order) ++ elements (dom m ∖ list_to_set order).

Section monitor.
Context (mc : monitorConfig).

Definition newVMHealth (vm : VMMapping) (now : time) : vmHealth :=
  mkHealth vm
    (mkSource (vm_CID vm) (vm_Name vm) (m_hostName mc) (vm_UUID vm) (vm_Environment vm) (vm_SecurityDomain vm)
       (vm_VLAN vm) (vm_Labels vm) true None)
    now false false.

Definition newMonitor (l : list VMMapping) (now : time) : monitor :=
  mkMonitor (fold_left (λ m vm, if vm_Expected vm then <[vm_CID vm := newVMHealth vm now]> m else m) l ∅)
    zero_time None [] false false 0 [].

Definition allowedSilence (h : vmHealth) : duration := if observed h then timeout mc else startupGrace mc.

(** [queueLocked], with the mark of the alert. *)
Definition queueLocked (mk : streamAlert → mark) (src : Source) (e : Event) (m : monitor) : monitor * bool :=
  if (maxPendingStreamAlerts <=? length (m_pending m))%nat then (set_overflow m true, false)
  else let a := mkAlert src e in (note [mk a] (set_pending m (m_pending m ++ [a])), true).

Definition put_health (c : Z) (h : vmHealth) (m : monitor) : monitor := set_vms m (<[c := h]> (m_vms m)).

(** [h] is the record of [c]; [now] is the clock of the alert. *)
Definition resumeLocked (now : time) (c : Z) (h : vmHealth) (silence : duration) (m : monitor) : monitor :=
  let e := NewInternal now TypeStreamResumed SeverityNotice
             {[ "vm" := AnyString (vm_Name (mapping h)); "cid" := AnyInt (vm_CID (mapping h));
                "silent_seconds" := Seconds mc silence;
                "monitor_timeout" := AnyString (DurationString mc (timeout mc)) ]} in
  let '(m, ok) := queueLocked (Resumed c) (h_source h) e m in
  if ok : bool then put_health c (set_seen h (lastSeen h) (observed h) false) m else m.

Definition loseLocked (now : time) (c : Z) (h : vmHealth) (silence : duration) (m : monitor) : monitor :=
  let e := NewInternal now TypeStreamLost SeverityCritical
             {[ "vm" := AnyString (vm_Name (mapping h)); "cid" := AnyInt (vm_CID (mapping h));
                "last_seen" := AnyString (FormatRFC3339Nano mc (lastSeen h));
                "silent_seconds" := Seconds mc silence;
                "monitor_timeout" := AnyString (DurationString mc (timeout mc));
                "never_connected" := AnyBool (negb (observed h)) ]} in
  let '(m, ok) := queueLocked (Lost c) (h_source h) e m in
  if ok : bool
  then put_health c (set_seen h (lastSeen h) (observed h) true) (set_StreamsLost m (u64 (StreamsLost m + 1)))
  else m.

(** The critical section of [seen]; the flag tells whether [publishPending] follows. *)
Definition seen (now : time) (p : peer) (src : Source) (at_ : time) (m : monitor) : monitor * bool :=
  if negb (enabled mc) || negb (vsock p) then (m, false)
  else
    match m_vms m !! cid p with
    | None => (m, false)
    | Some h =>
        if negb (Known src) || negb (String.eqb (vm_Name (mapping h)) (src_VM src))
           || negb (String.eqb (vm_UUID (mapping h)) (src_UUID src))
        then (m, false)
        else
          let silence := time_Sub at_ (lastSeen h) in
          let h := set_seen h (if lastSeen h <? at_ then at_ else lastSeen h) true (lost h) in
          let m := put_health (cid p) h m in
          (if lost h then resumeLocked now (cid p) h silence m else m, true)
    end.

(** One round of the loop of [checkContext]. *)
Definition check_one (clock now : time) (m : monitor) (c : Z) : monitor :=
  match m_vms m !! c with
  | None => m
  | Some h =>
      let silence := time_Sub now (lastSeen h) in
      if silence <=? allowedSilence h
      then if lost h && observed h then resumeLocked clock c h silence m else m
      else if negb (lost h) then loseLocked clock c h silence m else m
  end.

Definition check_locked (clock now : time) (order : list Z) (m : monitor) : monitor :=
  fold_left (check_one clock now) (visit order (m_vms m)) m.

(** The start of [run]. *)
Definition run_start (now : time) (m : monitor) : monitor :=
  set_vms m ((λ h, if observed h then h else set_seen h now (observed h) (lost h)) <$> m_vms m).

(** The error, if there is one. *)
Fixpoint validate_from (seen : gset Z) (l : list VMMapping) : option string :=
  match l with
  | [] => None
  | vm :: l =>
      if (vm_CID vm <? 3) || (vm_CID vm =? VMADDR_CID_ANY) || String.eqb (vm_Name vm) ""
      then Some "expected agent inventory contains an invalid VM mapping"
      else if bool_decide (vm_CID vm ∈ seen) then Some "expected agent inventory contains duplicate CIDs"
      else validate_from ({[vm_CID vm]} ∪ seen) l
  end.
Definition validateExpectedVMs (l : list VMMapping) : option string := validate_from ∅ l.

Definition same_vm (a b : VMMapping) : bool :=
  String.eqb (vm_Name a) (vm_Name b) && String.eqb (vm_UUID a) (vm_UUID b).

Definition carry (old : gmap Z vmHealth) (now : time) (next : gmap Z vmHealth) (vm : VMMapping) : gmap Z vmHealth :=
  let h := newVMHealth vm now in
  let h := match old !! vm_CID vm with
           | Some p => if same_vm (mapping p) vm then set_seen h (lastSeen p) (observed p) (lost p) else h
           | None => h
           end in
  <[vm_CID vm := h]> next.

Definition carried (old next : gmap Z vmHealth) (c : Z) : bool :=
  match old !! c, next !! c with
  | Some p, Some h => same_vm (mapping p) (mapping h)
  | _, _ => false
  end.

(** The records of [old] that [next] does not carry on. *)
Definition forgotten (old next : gmap Z vmHealth) : list mark :=
  Forgot <$> filter (λ c, carried old next c = false) (elements (dom old)).

(** [expected] is what [m.expected()] gives, or its error; [clock] is [m.now()]. *)
Definition refresh (expected : string + list VMMapping) (clock now : time) (m : monitor) : monitor :=
  if negb (has_expected mc) then m
  else
    match expected with
    | inl err => set_refresh m clock (Some err)
    | inr l =>
        match validateExpectedVMs l with
        | Some err => set_refresh m clock (Some err)
        | None =>
            let next := fold_left (carry (m_vms m) now) l ∅ in
            set_refresh (note (forgotten (m_vms m) next) (set_vms m next)) clock None
        end
    end.

Inductive health : Type :=
| Ready | RefreshFailed | StaleInventory | AlertsOverflowed | AlertsPending (n : nat) | AgentsSilent (n : nat).

Definition stale (now : time) (m : monitor) : bool :=
  (lastRefresh m =? zero_time) || (3 * interval mc <? time_Sub now (lastRefresh m)).

Definition is_silent (now : time) (h : vmHealth) : bool := allowedSilence h <? time_Sub now (lastSeen h).

Definition silent_vms (now : time) (m : monitor) : gmap Z vmHealth :=
  filter (λ '(_, h), is_silent now h = true) (m_vms m).

Definition monitor_readiness (now : time) (m : monitor) : health :=
  if negb (enabled mc) then Ready
  else if has_expected mc && bool_decide (is_Some (refreshErr m)) then RefreshFailed
  else if has_expected mc && stale now m then StaleInventory
  else if overflow m then AlertsOverflowed
  else if bool_decide (m_pending m ≠ []) then AlertsPending (length (m_pending m))
  else let n := size (silent_vms now m) in
       if (0 <? n)%nat then AgentsSilent n else Ready.

Definition identityAvailable (p : peer) (src : Source) (now : time) (m : monitor) : bool :=
  if negb (enabled mc) || negb (has_expected mc) || negb (vsock p) then false
  else if Known src && negb (String.eqb (src_VM src) "") && negb (String.eqb (src_UUID src) "") then false
  else if bool_decide (is_Some (refreshErr m)) || stale now m then false
  else match m_vms m !! cid p with
       | None => false
       | Some h => negb (String.eqb (vm_Name (mapping h)) "") && negb (String.eqb (vm_UUID (mapping h)) "")
       end.
End monitor.
