(* ===== verification/MonitorProofs.v ===== *)
(** * Outages are reported, and once

    The alerts of [HostMonitor], over every sequence of frames seen, health checks,
    inventory refreshes and publications. *)

From S2P Require Import Prelude GoStrings Event InternalEvents Enrich HostMonitor.

(** Whether the last mark about [c] is an outage. *)
Definition outstanding_step (c : Z) (b : bool) (x : mark) : bool :=
  match x with
  | Lost c' _ => if c' =? c then true else b
  | Resumed c' _ | Forgot c' => if c' =? c then false else b
  end.
Definition outstanding (c : Z) (l : list mark) : bool := fold_left (outstanding_step c) l false.

(** An outage is reported when none is outstanding, a recovery when one is. *)
Definition fits (l : list mark) (x : mark) : bool :=
  match x with
  | Lost c _ => negb (outstanding c l)
  | Resumed c _ => outstanding c l
  | Forgot _ => true
  end.
Definition alternating (l : list mark) : Prop := ∀ pre x post, l = pre ++ x :: post → fits pre x = true.

Lemma outstanding_snoc c l x : outstanding c (l ++ [x]) = outstanding_step c (outstanding c l) x.
Proof. apply fold_left_app. Qed.

Lemma alternating_nil : alternating [].
Proof. intros [|] ? ? [=]. Qed.

Lemma alternating_snoc l x : alternating l → fits l x = true → alternating (l ++ [x]).
Proof.
  intros Hl Hx pre y post E. destruct post as [|z post _] using rev_ind.
  - apply app_inj_tail in E as [-> ->]. done.
  - rewrite app_comm_cons, app_assoc in E. apply app_inj_tail in E as [E _]. by eapply Hl.
Qed.

Lemma alternating_forgot cs : ∀ l, alternating l → alternating (l ++ (Forgot <$> cs)).
Proof.
  induction cs as [|c cs IH]; intros l Hl; [by rewrite app_nil_r|].
  rewrite fmap_cons, cons_middle, app_assoc.
  by apply IH, alternating_snoc.
Qed.

Lemma outstanding_forgot c cs : ∀ l,
  outstanding c (l ++ (Forgot <$> cs)) = if bool_decide (c ∈ cs) then false else outstanding c l.
Proof.
  induction cs as [|c' cs IH]; intros l; [by rewrite app_nil_r|].
  rewrite fmap_cons, cons_middle, app_assoc.
  rewrite IH, outstanding_snoc. simpl. destruct (Z.eqb_spec c' c) as [->|].
  - rewrite (bool_decide_eq_true_2 (c ∈ c :: cs)) by set_solver. by destruct (bool_decide _).
  - rewrite (bool_decide_ext (c ∈ c' :: cs) (c ∈ cs)) by set_solver. done.
Qed.

(** ** The invariant *)

Definition lost_at (m : monitor) (c : Z) : bool := match m_vms m !! c with Some h => lost h | None => false end.

Record mon_inv (m : monitor) : Prop := {
  mi_alternating : alternating (history m);
  mi_lost c : outstanding c (history m) = lost_at m c;
  mi_bound : (length (m_pending m) <= maxPendingStreamAlerts)%nat
}.

Lemma mon_inv_upd m m' :
  history m' = history m → (∀ c, lost_at m' c = lost_at m c) → m_pending m' = m_pending m → mon_inv m → mon_inv m'.
Proof. intros E1 E2 E3 [H1 H2 H3]. split; rewrite ?E1, ?E3; [done|intros c; by rewrite E2|done]. Qed.

(** Writing back a record with the same flag. *)
Lemma put_health_inv c h m : lost h = lost_at m c → mon_inv m → mon_inv (put_health c h m).
Proof.
  intros Hl. apply mon_inv_upd; [done| |done]. intros c'. unfold lost_at at 1. simpl.
  destruct (decide (c = c')) as [<-|]; [by rewrite lookup_insert_eq|by rewrite lookup_insert_ne].
Qed.

(** Queueing an alert and then setting the flag. *)
Lemma alerted_inv mk b c h src e m f :
  (∀ a l, fits l (mk a) = Bool.eqb (outstanding c l) (negb b)) →
  (∀ a c' o, outstanding_step c' o (mk a) = if c =? c' then b else o) →
  (∀ m, history (f m) = history m ∧ m_vms (f m) = m_vms m ∧ m_pending (f m) = m_pending m) →
  lost_at m c = negb b → mon_inv m →
  mon_inv (let '(m', ok) := queueLocked mk src e m in
           if ok : bool then put_health c (set_seen h (lastSeen h) (observed h) b) (f m') else m').
Proof.
  intros Hfit Hstep Hf Hl [H1 H2 H3]. unfold queueLocked.
  destruct (Nat.leb_spec maxPendingStreamAlerts (length (m_pending m))) as [Hle|Hlt]; [by split|].
  destruct (Hf (note [mk (mkAlert src e)] (set_pending m (m_pending m ++ [mkAlert src e])))) as (E1 & E2 & E3).
  split; simpl.
  - rewrite E1. simpl. apply alternating_snoc; [done|]. by rewrite Hfit, H2, Hl, Bool.eqb_reflx.
  - intros c'. rewrite E1. simpl. rewrite outstanding_snoc, Hstep, H2. unfold lost_at. simpl. rewrite E2.
    destruct (Z.eqb_spec c c') as [<-|]; [by rewrite lookup_insert_eq|by rewrite lookup_insert_ne].
  - rewrite E3. simpl. rewrite length_app. simpl. lia.
Qed.

Section proofs.
Context (mc : monitorConfig).

Lemma resume_inv now c h d m : lost_at m c = true → mon_inv m → mon_inv (resumeLocked mc now c h d m).
Proof.
  intros Hl Hi. apply (alerted_inv (Resumed c) false c h _ _ m id); [|done|done|done|done].
  intros a l. simpl. by destruct (outstanding c l).
Qed.

Lemma lose_inv now c h d m : lost_at m c = false → mon_inv m → mon_inv (loseLocked mc now c h d m).
Proof.
  intros Hl Hi. apply (alerted_inv (Lost c) true c h _ _ m (λ m, set_StreamsLost m (u64 (StreamsLost m + 1)))); [|done|done|done|done].
  intros a l. simpl. by destruct (outstanding c l).
Qed.

Lemma lost_at_some m c h : m_vms m !! c = Some h → lost_at m c = lost h.
Proof. unfold lost_at. by intros ->. Qed.

Lemma put_health_lost c h m : lost_at (put_health c h m) c = lost h.
Proof. unfold lost_at. simpl. by rewrite lookup_insert_eq. Qed.

Lemma seen_inv now p src t m : mon_inv m → mon_inv (fst (seen mc now p src t m)).
Proof.
  intros Hi. unfold seen. destruct (negb (enabled mc) || _); [done|].
  destruct (m_vms m !! cid p) as [h|] eqn:Eh; [|done]. destruct (negb (Known src) || _ || _); [done|]. cbv zeta. cbn [fst].
  set (h' := set_seen h _ true (lost h)).
  assert (mon_inv (put_health (cid p) h' m)) as Hp by (apply put_health_inv; [by rewrite (lost_at_some _ _ _ Eh)|done]).
  destruct (lost h') eqn:El; [|done]. apply resume_inv; [by rewrite put_health_lost|done].
Qed.

Lemma check_one_inv clock now m c : mon_inv m → mon_inv (check_one mc clock now m c).
Proof.
  intros Hi. unfold check_one. destruct (m_vms m !! c) as [h|] eqn:Eh; [|done].
  pose proof (lost_at_some _ _ _ Eh) as El. cbv zeta.
  destruct (_ <=? _); destruct (lost h) eqn:E; simpl; try done; [destruct (observed h); [|done]|].
  - by apply resume_inv.
  - by apply lose_inv.
Qed.

Lemma check_inv clock now order m : mon_inv m → mon_inv (check_locked mc clock now order m).
Proof.
  unfold check_locked. generalize (visit order (m_vms m)). intros l. revert m.
  induction l as [|c l IH]; intros m Hi; simpl; [done|]. by apply IH, check_one_inv.
Qed.

(** ** Refreshing *)

Lemma same_vm_sym a b : same_vm a b = same_vm b a.
Proof. unfold same_vm. by rewrite (String.eqb_sym (vm_Name a)), (String.eqb_sym (vm_UUID a)). Qed.

Lemma carry_lost old now l : ∀ next,
  (∀ c h, next !! c = Some h → lost h = if carried old next c then match old !! c with Some p => lost p | None => false end else false) →
  ∀ c h, fold_left (carry mc old now) l next !! c = Some h →
    lost h = if carried old (fold_left (carry mc old now) l next) c
             then match old !! c with Some p => lost p | None => false end else false.
Proof.
  induction l as [|vm l IH]; intros next Hn; simpl; [done|]. apply IH. intros c h. unfold carry, carried.
  destruct (decide (vm_CID vm = c)) as [<-|].
  - rewrite lookup_insert_eq. intros [= <-]. destruct (old !! vm_CID vm) as [p|]; [|done].
    destruct (same_vm (mapping p) vm) eqn:E; simpl; by rewrite E.
  - rewrite lookup_insert_ne by done. intros Hh. rewrite (Hn c h Hh). unfold carried. by rewrite Hh.
Qed.

Lemma refresh_inv expected clock now m : mon_inv m → mon_inv (refresh mc expected clock now m).
Proof.
  intros Hi. unfold refresh. destruct (negb _); [done|]. destruct expected as [err|l]; [by apply (mon_inv_upd m)|].
  destruct (validateExpectedVMs l) as [err|]; [by apply (mon_inv_upd m)|].
  pose proof (carry_lost (m_vms m) now l ∅ ltac:(set_solver)) as Hc. cbv zeta.
  set (next := fold_left _ l ∅) in *. destruct Hi as [H1 H2 H3]. split; [by apply alternating_forgot| |done].
  intros c. simpl. unfold forgotten. rewrite outstanding_forgot, H2. unfold lost_at. simpl.
  case_bool_decide as Hin.
  - apply list_elem_of_filter in Hin as [Ec _].
    destruct (next !! c) as [h|] eqn:En; [by rewrite (Hc c h En), Ec|done].
  - destruct (m_vms m !! c) as [p|] eqn:Eo.
    + destruct (carried (m_vms m) next c) eqn:Ec.
      * destruct (next !! c) as [h|] eqn:En; [by rewrite (Hc c h En), Ec, Eo|].
        unfold carried in Ec. by rewrite Eo, En in Ec.
      * destruct Hin. apply list_elem_of_filter. split; [done|]. apply elem_of_elements, elem_of_dom. by rewrite Eo.
    + destruct (next !! c) as [h|] eqn:En; [|done]. rewrite (Hc c h En). unfold carried. by rewrite Eo.
Qed.

(** ** Runs *)

Inductive mon_step : monitor → monitor → Prop :=
| mon_seen m now p src t : mon_step m (fst (seen mc now p src t m))
| mon_check m clock now order : mon_step m (check_locked mc clock now order m)
| mon_refresh m expected clock now : mon_step m (refresh mc expected clock now m)
| mon_start m now : mon_step m (run_start now m)
| mon_publishing m b : mon_step m (set_publishing m b)
| mon_published m a l : m_pending m = a :: l → mon_step m (set_pending m l).

Lemma new_monitor_inv l now : mon_inv (newMonitor mc l now).
Proof.
  split; [apply alternating_nil| |simpl; lia]. intros c. unfold lost_at. simpl.
  assert (∀ l (m : gmap Z vmHealth), (∀ c h, m !! c = Some h → lost h = false) →
    ∀ c h, fold_left (λ m vm, if vm_Expected vm then <[vm_CID vm := newVMHealth mc vm now]> m else m) l m !! c = Some h → lost h = false) as H.
  { clear. induction l as [|vm l IH]; intros m Hm; simpl; [done|]. apply IH. destruct (vm_Expected vm); [|done].
    intros c h [[_ <-]|[_ Hh]]%lookup_insert_Some; [done|by eapply Hm]. }
  destruct (fold_left _ l ∅ !! c) as [h|] eqn:Eh; [|done]. symmetry. by eapply (H l ∅); [|exact Eh].
Qed.

Lemma mon_step_inv m m' : mon_step m m' → mon_inv m → mon_inv m'.
Proof.
  destruct 1 as [m now p src t|m clock now order|m expected clock now|m now|m b|m a l E]; intros Hi.
  - by apply seen_inv.
  - by apply check_inv.
  - by apply refresh_inv.
  - apply (mon_inv_upd m); [done| |done|done]. intros c. unfold lost_at. simpl. rewrite lookup_fmap.
    destruct (m_vms m !! c) as [h|]; [|done]. simpl. by destruct (observed h).
  - by apply (mon_inv_upd m).
  - destruct Hi as [H1 H2 H3]. split; [done|done|]. rewrite E in H3. simpl in *. lia.
Qed.

Lemma mon_reachable_inv l now m : rtc mon_step (newMonitor mc l now) m → mon_inv m.
Proof. apply rtc_invariant; [exact mon_step_inv|apply new_monitor_inv]. Qed.

(** ** A check misses no machine *)

Lemma visit_covers {A} order (m : gmap Z A) c : is_Some (m !! c) → c ∈ visit order m.
Proof.
  intros Hc. unfold visit. apply elem_of_app. destruct (decide (c ∈ order)).
  - left. apply list_elem_of_filter. by rewrite elem_of_remove_dups.
  - right. apply elem_of_elements. rewrite elem_of_difference, elem_of_dom, elem_of_list_to_set. done.
Qed.

(** What one round leaves at other machines and at its own. *)
Record checked (now : time) (c : Z) (m m' : monitor) : Prop := {
  ck_other c' : c' ≠ c → m_vms m' !! c' = m_vms m !! c';
  ck_overflow : overflow m = true → overflow m' = true;
  ck_seen c' h' : m_vms m' !! c' = Some h' → ∃ h, m_vms m !! c' = Some h ∧ is_silent mc now h' = is_silent mc now h;
  ck_own h : m_vms m' !! c = Some h → is_silent mc now h = true → lost h = true ∨ overflow m' = true
}.

Lemma silent_set now h b : is_silent mc now (set_seen h (lastSeen h) (observed h) b) = is_silent mc now h.
Proof. done. Qed.

Lemma check_one_checked clock now m c : checked now c m (check_one mc clock now m c).
Proof.
  unfold check_one. destruct (m_vms m !! c) as [h|] eqn:Eh; [|by split; eauto; congruence].
  assert (is_silent mc now h = negb (time_Sub now (lastSeen h) <=? allowedSilence mc h)) as Hs by (unfold is_silent; lia).
  cbv zeta. destruct (_ <=? _) eqn:Es; simpl in Hs.
  - assert (∀ m', m_vms m' = m_vms m ∨ (∃ b, m_vms m' = <[c := set_seen h (lastSeen h) (observed h) b]> (m_vms m)) →
      (overflow m = true → overflow m' = true) → checked now c m m') as Hk.
    { intros m' Hm Ho. destruct Hm as [E|[b E]]; split; rewrite ?E; eauto.
      - intros h0. rewrite Eh. intros [= <-]. by rewrite Hs.
      - intros c' Hc. by rewrite lookup_insert_ne.
      - intros c' h' [[<- <-]|[? Hh]]%lookup_insert_Some; eauto.
      - intros h0. rewrite lookup_insert_eq. intros [= <-]. by rewrite silent_set, Hs. }
    destruct (lost h && observed h); [|by apply Hk; auto].
    unfold resumeLocked, queueLocked. destruct (_ <=? _)%nat; apply Hk; simpl; eauto.
  - destruct (lost h) eqn:El; simpl.
    + split; eauto. intros h0. rewrite Eh. intros [= <-]. auto.
    + unfold loseLocked, queueLocked. destruct (_ <=? _)%nat; split; simpl; eauto.
      * intros c' Hc. by rewrite lookup_insert_ne.
      * intros c' h' [[<- <-]|[? Hh]]%lookup_insert_Some; eauto.
      * intros h0. rewrite lookup_insert_eq. intros [= <-]. auto.
Qed.

Lemma check_fold clock now l : ∀ m (done : Z → Prop),
  (∀ c h, done c → m_vms m !! c = Some h → is_silent mc now h = true → lost h = true ∨ overflow m = true) →
  ∀ c h, (done c ∨ c ∈ l) → m_vms (fold_left (check_one mc clock now) l m) !! c = Some h → is_silent mc now h = true →
    lost h = true ∨ overflow (fold_left (check_one mc clock now) l m) = true.
Proof.
  induction l as [|c0 l IH]; intros m P HP c h Hc Hh Hs; simpl in *.
  - destruct Hc as [Hc|Hc%elem_of_nil]; [by eapply HP|done].
  - destruct (check_one_checked clock now m c0) as [K1 K2 K3 K4].
    apply (IH _ (λ c, P c ∨ c = c0)) in Hh; [done| |set_solver|done].
    intros c1 h1 Hc1 Hh1 Hs1. destruct (decide (c1 = c0)) as [->|Hne]; [by eapply K4|].
    destruct Hc1 as [Hc1|]; [|done]. rewrite K1 in Hh1 by done.
    destruct (HP _ _ Hc1 Hh1 Hs1) as [?|?%K2]; auto.
Qed.

Lemma check_dom clock now l : ∀ m c, is_Some (m_vms (fold_left (check_one mc clock now) l m) !! c) → is_Some (m_vms m !! c).
Proof.
  induction l as [|c0 l IH]; intros m c Hc; simpl in *; [done|]. apply IH in Hc as [h Hh].
  destruct (check_one_checked clock now m c0) as [_ _ K _]. destruct (K _ _ Hh) as (h0 & H0 & _). eauto.
Qed.
Lemma silent_not_ready now m c h :
  enabled mc = true → m_vms m !! c = Some h → is_silent mc now h = true → monitor_readiness mc now m ≠ Ready.
Proof.
  intros He Hh Hs. unfold monitor_readiness. rewrite He. simpl.
  assert (0 < size (silent_vms mc now m))%nat as Hn.
  { apply Nat.neq_0_lt_0. intros E%map_size_empty_inv.
    assert (silent_vms mc now m !! c = Some h) as Hc by by apply map_lookup_filter_Some.
    rewrite E in Hc. done. }
  rewrite (proj2 (Nat.ltb_lt _ _) Hn). repeat case_match; done.
Qed.


(** C27: No silent machine goes unnoticed.  After a health check, a machine of the
    inventory that was silent for longer than it may has an outage alert that no
    recovery has followed, or the alert backlog has overflowed, which the collector's
    readiness reports until it is restarted; in either case the collector is not ready. *)
Theorem silence_is_reported l start m clock now order c h :
  rtc mon_step (newMonitor mc l start) m → enabled mc = true →
  m_vms (check_locked mc clock now order m) !! c = Some h → is_silent mc now h = true →
  (outstanding c (history (check_locked mc clock now order m)) = true ∨ overflow (check_locked mc clock now order m) = true) ∧
  monitor_readiness mc now (check_locked mc clock now order m) ≠ Ready.
Proof.
  intros Hr He Hh Hs. split; [|by eapply silent_not_ready].
  pose proof (check_inv clock now order m (mon_reachable_inv _ _ _ Hr)) as [_ Hl _].
  rewrite Hl, (lost_at_some _ _ _ Hh). eapply (check_fold clock now _ m (λ _, False)); [done|right|exact Hh|done].
  apply visit_covers, (check_dom clock now (visit order (m_vms m)) m c). by exists h.
Qed.
End proofs.

(** ** A run *)

Definition demo_vm : VMMapping := mkVM 3 "web" "u-1" "" "" "" None true.
Definition demo_mc : monitorConfig := mkMonitorConfig true 60 120 10 "hv" true AnyInt (λ _, "t") (λ _, "1m").
Definition demo_monitor : monitor := newMonitor demo_mc [demo_vm] 1000.
Definition demo_peer : peer := mkPeer 3 true "vm(3)".
Definition demo_source : Source := mkSource 3 "web" "hv" "u-1" "" "" "" None true None.

(** Seen, silent for two minutes, seen again, and removed and silent again. *)
Definition demo_watch : list (monitor → monitor) :=
  [ λ m, fst (seen demo_mc 0 demo_peer demo_source 1010 m);
    check_locked demo_mc 0 1130 [];
    λ m, fst (seen demo_mc 0 demo_peer demo_source 1140 m);
    refresh demo_mc (inr []) 1150 1150;
    refresh demo_mc (inr [demo_vm]) 1160 1160;
    check_locked demo_mc 0 1400 [] ].
Definition demo_watched (n : nat) : monitor := fold_left (λ m f, f m) (take n demo_watch) demo_monitor.

Definition kind_of (x : mark) : string := match x with Lost _ _ => "lost" | Resumed _ _ => "resumed" | Forgot _ => "forgot" end.

Example demo_history : kind_of <$> history (demo_watched 6) = ["lost"; "resumed"; "forgot"; "lost"].
Proof. vm_compute. done. Qed.

Lemma demo_watch_run n : rtc (mon_step demo_mc) demo_monitor (demo_watched n).
Proof.
  assert (∀ l m, Forall (λ f, ∀ m, mon_step demo_mc m (f m)) l → rtc (mon_step demo_mc) m (fold_left (λ m f, f m) l m)) as H.
  { induction l as [|f l IH]; intros m Hl; [done|]. inversion Hl; subst. eapply rtc_l; [done|by apply IH]. }
  apply H, Forall_take. repeat constructor.
Qed.


Lemma silence_is_reported_witness :
  overflow (demo_watched 6) = false ∧ outstanding 3 (history (demo_watched 6)) = true ∧
  monitor_readiness demo_mc 1400 (demo_watched 6) ≠ Ready.
Proof.
  assert (overflow (demo_watched 6) = false) as Ho by (vm_compute; reflexivity).
  split; [exact Ho|].
  destruct (silence_is_reported demo_mc [demo_vm] 1000 (demo_watched 5) 0 1400 [] 3
    (mkHealth demo_vm demo_source 1160 false true)) as [[H|H] H'].
  - apply demo_watch_run.
  - reflexivity.
  - vm_compute. reflexivity.
  - vm_compute. reflexivity.
  - split; [exact H|exact H'].
  - exfalso. change (overflow (demo_watched 6) = true) in H. congruence.
Defined.


