(* ===== verification/Collector.v ===== *)
(** * The collector's sessions

    [SauronAgent/internal/host/session.go], [stream_write.go], the admission of
    [server.go], the publishing half of [pending_gaps.go], [gap_retry.go] and
    [publishPending] of [monitor.go]: the goroutines of the collector ([Threads]) over
    what they share: the deduplication table, the write gates, the monitor, the
    connection limits and the acknowledgement state of each session.

    What the environment decides is an answer of [env], taken in the order of the
    questions: whether the sink accepts a write, whether a frame can be sent, whether a
    deadline has passed, the clock, and the order in which Go ranges over a map.  The
    frames a guest sends are the argument of its session.  The sink is known by
    [sink_log], what it accepted; [sent] is what was given to [conn.Send].  A run-time
    panic is recorded in [crashed].  No operation reads these three, nor [started] (the events that
    opened a stream the table did not hold), [lapsed] (the streams the table has dropped
    or shortened), [publisher] and [live]. *)

From S2P Require Import Prelude GoStrings GoText ClientIP Event InternalEvents Messages Frame Dedup Threads Enrich HostMonitor.

(** ** Counters *)

(** [metrics.Host], without [StreamsLost], which is in [HostMonitor]. *)
Record Host : Type := mkHost {
  ConnectionsAccepted : Z; ConnectionsRejected : Z; ConnectionsActive : Z; FramesReceived : Z; FrameErrors : Z;
  h_EventsReceived : Z; EventsDuplicate : Z; EventsOutput : Z; OutputErrors : Z
}.

Inductive counter : Type :=
| CAccepted | CRejected | CActive | CFrames | CFrameErrors | CReceived | CDuplicate | COutput | COutputErrors.

Definition add_counter (c : counter) (n : Z) (h : Host) : Host :=
  let 'mkHost a b g d e f x y z := h in
  match c with
  | CAccepted => mkHost (u64 (a + n)) b g d e f x y z
  | CRejected => mkHost a (u64 (b + n)) g d e f x y z
  | CActive => mkHost a b (g + n) d e f x y z
  | CFrames => mkHost a b g (u64 (d + n)) e f x y z
  | CFrameErrors => mkHost a b g d (u64 (e + n)) f x y z
  | CReceived => mkHost a b g d e (u64 (f + n)) x y z
  | CDuplicate => mkHost a b g d e f (u64 (x + n)) y z
  | COutput => mkHost a b g d e f x (u64 (y + n)) z
  | COutputErrors => mkHost a b g d e f x y (u64 (z + n))
  end.

(** ** What is shared *)

(** What the sink accepted: an event of a stream, the report of a gap in one, an alert of
    the monitor, another report of the collector. *)
Inductive entry : Type :=
| WroteEvent (k : streamKey) (e : Envelope)
| WroteGap (k : streamKey) (r : seqRange) (e : Envelope)
| WroteAlert (a : streamAlert) (e : Envelope)
| WroteInternal (e : Envelope).

Definition entry_envelope (x : entry) : Envelope :=
  match x with WroteEvent _ e | WroteGap _ _ e | WroteAlert _ e | WroteInternal e => e end.

Inductive host_message : Type :=
| SendReady (r : Messages.Ready) | SendAck (a : Messages.Ack) | SendPong (p : Pong)
| SendError (e : ErrorMessage) | SendShutdown (s : Shutdown).

(** [streamWriteGate]: [token] is the channel, with who put the token in; [users] is who
    the references stand for. *)
Record gate : Type := mkGate { refs : Z; token : option nat; users : list nat }.

Fixpoint remove_one (t : nat) (l : list nat) : list nat :=
  match l with [] => [] | x :: l => if (x =? t)%nat then l else x :: remove_one t l end.

(** Where the code would panic: a nil source, an index into an empty slice. *)
Inductive site : Type := NilSource | EmptyAlerts.

(** The fields of a session that several goroutines use. *)
Record ackState : Type := mkAckState { s_key : streamKey; ackPoint : Z; s_acked : Z; s_pending : Z; signal : bool }.

Record collector : Type := mkCollector {
  ded : @dedup Source;
  gate_of : gmap string nat;
  gates : list gate;
  mon : monitor;
  counters : Host;
  perPeer : gmap string Z;
  total : Z;
  session_seq : Z;
  sessions : gmap nat ackState;
  asked : nat;
  sink_log : list entry;
  sent : list (nat * host_message);
  crashed : list site;
  started : list (streamKey * Z);
  lapsed : gset streamKey;
  publisher : option nat;
  live : gmap nat string
}.

Section updates.
Context (s : collector).
Definition set_table x y := mkCollector x (gate_of s) (gates s) (mon s) (counters s) (perPeer s) (total s) (session_seq s)
  (sessions s) (asked s) (sink_log s) (sent s) (crashed s) (started s) y (publisher s) (live s).
Definition set_gates x y := mkCollector (ded s) x y (mon s) (counters s) (perPeer s) (total s) (session_seq s)
  (sessions s) (asked s) (sink_log s) (sent s) (crashed s) (started s) (lapsed s) (publisher s) (live s).
Definition set_mon x := mkCollector (ded s) (gate_of s) (gates s) x (counters s) (perPeer s) (total s) (session_seq s)
  (sessions s) (asked s) (sink_log s) (sent s) (crashed s) (started s) (lapsed s) (publisher s) (live s).
Definition set_counters x := mkCollector (ded s) (gate_of s) (gates s) (mon s) x (perPeer s) (total s) (session_seq s)
  (sessions s) (asked s) (sink_log s) (sent s) (crashed s) (started s) (lapsed s) (publisher s) (live s).
Definition set_limits x y z := mkCollector (ded s) (gate_of s) (gates s) (mon s) (counters s) x y (session_seq s)
  (sessions s) (asked s) (sink_log s) (sent s) (crashed s) (started s) (lapsed s) (publisher s) z.
Definition set_session_seq x := mkCollector (ded s) (gate_of s) (gates s) (mon s) (counters s) (perPeer s) (total s) x
  (sessions s) (asked s) (sink_log s) (sent s) (crashed s) (started s) (lapsed s) (publisher s) (live s).
Definition set_sessions x := mkCollector (ded s) (gate_of s) (gates s) (mon s) (counters s) (perPeer s) (total s) (session_seq s)
  x (asked s) (sink_log s) (sent s) (crashed s) (started s) (lapsed s) (publisher s) (live s).
Definition set_asked x := mkCollector (ded s) (gate_of s) (gates s) (mon s) (counters s) (perPeer s) (total s) (session_seq s)
  (sessions s) x (sink_log s) (sent s) (crashed s) (started s) (lapsed s) (publisher s) (live s).
Definition set_sink_log x := mkCollector (ded s) (gate_of s) (gates s) (mon s) (counters s) (perPeer s) (total s) (session_seq s)
  (sessions s) (asked s) x (sent s) (crashed s) (started s) (lapsed s) (publisher s) (live s).
Definition set_sent x := mkCollector (ded s) (gate_of s) (gates s) (mon s) (counters s) (perPeer s) (total s) (session_seq s)
  (sessions s) (asked s) (sink_log s) x (crashed s) (started s) (lapsed s) (publisher s) (live s).
Definition set_crashed x := mkCollector (ded s) (gate_of s) (gates s) (mon s) (counters s) (perPeer s) (total s) (session_seq s)
  (sessions s) (asked s) (sink_log s) (sent s) x (started s) (lapsed s) (publisher s) (live s).
Definition set_started x := mkCollector (ded s) (gate_of s) (gates s) (mon s) (counters s) (perPeer s) (total s) (session_seq s)
  (sessions s) (asked s) (sink_log s) (sent s) (crashed s) x (lapsed s) (publisher s) (live s).
Definition set_publisher x y := mkCollector (ded s) (gate_of s) (gates s) x (counters s) (perPeer s) (total s) (session_seq s)
  (sessions s) (asked s) (sink_log s) (sent s) (crashed s) (started s) (lapsed s) y (live s).
End updates.

(** The streams of [d] that [d'] has dropped. *)
Definition lapses (d d' : @dedup Source) : gset streamKey := dom (streams d) ∖ dom (streams d').

(** [d.mu] is held for the operation that made [d] of the table. *)
Definition set_ded (s : collector) (d : @dedup Source) : collector := set_table s d (lapsed s ∪ lapses (ded s) d).

(** ** The configuration *)

Record hostConfig : Type := mkHostConfig {
  MaxConnections : Z;
  MaxConnectionsPerCID : Z;
  AckInterval : Z;
  AckMaxDelay : duration;
  c_MaxPayloadSize : Z;
  HandshakeTimeout : duration;
  DedupWindow : Z;
  mcfg : monitorConfig;
  enrich : enricher;
  c_Version : string
}.

Definition defaultWriteTimeout : duration := 10000000000.

Definition writeTimeout (cfg : hostConfig) : duration :=
  if 0 <? HandshakeTimeout cfg then HandshakeTimeout cfg else defaultWriteTimeout.

Definition effectiveMaxPayload (cfg : hostConfig) : Z :=
  if c_MaxPayloadSize cfg <=? 0 then DefaultMaxPayloadSize
  else if MaxPayloadCeiling <? c_MaxPayloadSize cfg then MaxPayloadCeiling
  else c_MaxPayloadSize cfg.

Definition maxTrackedStreams (cfg : hostConfig) : Z :=
  let n := 4 * MaxConnections cfg in if n <? 64 then 64 else n.

Definition typeStreamGap : string := "sauron.stream.gap".
Definition typeConnectionRejected : string := "sauron.connection.rejected".
Definition typeOutputFailed : string := "sauron.output.failed".

(** ** The environment *)

Record answer : Type := mkAnswer {
  a_ok : bool; a_late : bool; a_now : time; a_err : string; a_order : streamKey → list Z; a_cids : list Z
}.

(** Errors that end a session: a rule broken, with the code sent to the peer; a frame the
    decoder refused; the end of the stream; a deadline; anything else. *)
Inductive herr : Type :=
| errProtocolViolation (code : ErrorCode) (msg : string)
| ErrFrame (msg : string)
| ErrEOF (msg : string)
| ErrTimeout (msg : string)
| ErrOther (msg : string).

Definition herr_text (e : herr) : string :=
  match e with
  | errProtocolViolation _ m => "host: protocol violation: " +:+ m
  | ErrFrame m | ErrEOF m | ErrTimeout m | ErrOther m => m
  end.

(** What [conn.Receive] and [DecodePayload] give: a failed read, or a frame with its
    sequence and its payload, decoded or with the text of the error. *)
Inductive inbound : Type :=
| InFailed (e : herr)
| InHello (seq : Z) (p : string + Hello)
| InEvent (seq : Z) (p : string + EventMessage)
| InPing (seq : Z) (p : string + Ping)
| InShutdown (seq : Z) (p : string + Shutdown)
| InError (seq : Z) (p : string + ErrorMessage)
| InOther (t : MessageType).

Definition type_of (f : inbound) : MessageType :=
  match f with
  | InFailed _ => 0 | InHello _ _ => MsgHello | InEvent _ _ => MsgEvent | InPing _ _ => MsgPing
  | InShutdown _ _ => MsgShutdown | InError _ _ => MsgError | InOther t => t
  end.

Definition type_String (t : MessageType) : string :=
  if t =? MsgHello then "HELLO" else if t =? MsgReady then "READY" else if t =? MsgEvent then "EVENT"
  else if t =? MsgAck then "ACK" else if t =? MsgPing then "PING" else if t =? MsgPong then "PONG"
  else if t =? MsgError then "ERROR" else if t =? MsgShutdown then "SHUTDOWN"
  else "UNKNOWN(" +:+ decimal t +:+ ")".

Definition code_string (c : ErrorCode) : string :=
  match c with
  | ErrCodeBadFrame => "bad_frame" | ErrCodeBadPayload => "bad_payload" | ErrCodeBadSequence => "bad_sequence"
  | ErrCodeUnexpectedType => "unexpected_type" | ErrCodeUnauthorized => "unauthorized"
  | ErrCodeInternal => "internal" | ErrCodeOverloaded => "overloaded" | ErrCodeOther s => s
  end.

Abbreviation P := (prog collector).

Section collector.
Context `{N : NetIP} (cfg : hostConfig) (env : nat → answer).

Definition asking {X} (f : answer → collector → collector * X) : P X :=
  both (λ s, f (env (asked s)) (set_asked s (S (asked s)))).

Definition now : P time := asking (λ a s, (s, a_now a)).
Definition expired : P bool := asking (λ a s, (s, a_late a)).
Definition count (c : counter) (n : Z) : P () := write (λ s, set_counters s (add_counter c n (counters s))).
Definition panic (x : site) : P () := write (λ s, set_crashed s (x :: crashed s)).

Definition send (i : nat) (m : host_message) : P bool := asking (λ a s, (set_sent s (sent s ++ [(i, m)]), a_ok a)).

(** [sink.Write]; the error, if there is one. *)
Definition sink_Write (mk : Envelope → entry) (e : Envelope) : P (option string) :=
  asking (λ a s, if a_ok a then (set_sink_log s (sink_log s ++ [mk e]), None) else (s, Some (a_err a))).

(** [reporter.publish] *)
Definition publish (mk : Envelope → entry) (src : Source) (e : Event) : P (option string) :=
  t ← now; sink_Write mk (envelopeFor t src e).

(** One critical section of [d.mu]. *)
Definition table {X} (f : answer → @dedup Source → @dedup Source * X) : P X :=
  asking (λ a s, let '(d, x) := f a (ded s) in (set_ded s d, x)).

(** The same for the two operations that may open a stream at an event. *)
Definition opening {X} (k : streamKey) (seq : Z) (f : @dedup Source → @dedup Source * X) (ok : X → bool) : P X :=
  both (λ s, let '(d, x) := f (ded s) in
             (set_started (set_ded s d)
                (started s ++ if ok x && anchors (stream_at (ded s) k) seq then [(k, seq)] else []), x)).

Definition dd_Check (k : streamKey) (seq : Z) : P dedupResult := opening k seq (λ d, Check d k seq) (λ _, true).
Definition dd_reserve (k : streamKey) (seq : Z) (src : Source) : P (option arrivalReservation) :=
  opening k seq (λ d, reserveArrival d k seq src) (λ r, bool_decide (is_Some r)).
(** What the window forgets is a lapse of the stream. *)
Definition dd_Commit (k : streamKey) (seq : Z) : P (Z * Z) :=
  asking (λ a s, let '(d, r) := Commit (ded s) k seq (a_order a k) in
                 let s := set_ded s d in
                 (if 0 <? r.2 then set_table s (ded s) ({[k]} ∪ lapsed s) else s, r)).
Definition dd_ResumeFrom (k : streamKey) : P Z := table (λ _ d, Dedup.ResumeFrom d k).
Definition dd_CheckReplay (k : streamKey) (q : Z) : P dedupResult := table (λ _ d, CheckReplay d k q).
Definition dd_release (r : arrivalReservation) : P () := table (λ a d, (release d r (a_order a (a_key r)), ())).
Definition dd_finishGap (p : gapPublication) (ok : bool) : P bool := table (λ a d, finishGap d p ok (a_order a (p_key p))).

(** ** Gaps *)

Definition gap_fields (k : streamKey) (r : seqRange) (reason : string) : gmap string any :=
  {[ "first_missing_sequence" := AnyInt (first r); "last_missing_sequence" := AnyInt (Dedup.last r);
     "events_missing" := AnyInt (u64 (u64 (Dedup.last r - first r) + 1)); "boot_id" := AnyString k.2;
     "reason" := AnyString reason ]}.

Definition publishGap (p : gapPublication) (reason : string) : P bool :=
  match p_source p with
  | None => panic NilSource;; mret false
  | Some src =>
      t ← now;
      err ← publish (WroteGap (p_key p) (p_gap p)) src
              (NewInternal t typeStreamGap SeverityCritical (gap_fields (p_key p) (p_gap p) reason));
      accounted ← dd_finishGap p (bool_decide (err = None));
      match err with
      | Some _ => count COutputErrors 1;; mret false
      | None => mret accounted
      end
  end.

Definition reportGap (k : streamKey) (src : Source) (g : seqRange * gapVersion) (reason : string) : P () :=
  p ← table (λ _ d, claimGap d k src (first g.1) (Dedup.last g.1) g.2);
  match p with
  | None => mret ()
  | Some p => publishGap p reason;; mret ()
  end.

Fixpoint retry_loop (n : nat) (p : gapPublication) : P () :=
  match n with
  | O => dd_finishGap p false;; mret ()
  | S n =>
      late ← expired;
      if late : bool then dd_finishGap p false;; mret ()
      else
        ok ← publishGap p "retrying retained gap evidence";
        if ok : bool then
          p' ← table (λ a d, takeNextPendingGap d (p_key p) (a_order a (p_key p)));
          match p' with None => mret () | Some p' => retry_loop n p' end
        else mret ()
  end.

Definition retryPendingGaps : P () :=
  p ← table (λ a d, takePendingGap d (a_order a));
  match p with None => mret () | Some p => retry_loop maxMissingRanges p end.

(** ** The monitor *)

Fixpoint publish_loop (n : nat) : P () :=
  match n with
  | O => mret ()
  | S n =>
      late ← expired;
      if late : bool then mret ()
      else
        a ← read (λ s, head (m_pending (mon s)));
        match a with
        | None => panic EmptyAlerts
        | Some a =>
            err ← publish (WroteAlert a) (al_source a) (al_event a);
            match err with
            | Some _ => mret ()
            | None =>
                ok ← both (λ s, match m_pending (mon s) with
                                | [] => (s, false)
                                | _ :: l => (set_mon s (set_pending (mon s) l), true)
                                end);
                if ok : bool then publish_loop n else panic EmptyAlerts
            end
        end
  end.

(** [t] is the goroutine. *)
Definition publishPending (t : nat) : P () :=
  n ← both (λ s, if publishing (mon s) then (s, None)
                 else (set_publisher s (set_publishing (mon s) true) (Some t), Some (length (m_pending (mon s)))));
  match n with
  | None => mret ()
  | Some n => publish_loop n;; write (λ s, set_publisher s (set_publishing (mon s) false) None)
  end.

Definition monitor_seen (t : nat) (p : peer) (src : Source) : P () :=
  at_ ← now;
  clock ← now;
  b ← both (λ s, let '(m, b) := seen (mcfg cfg) clock p src at_ (mon s) in (set_mon s m, b));
  if b : bool then publishPending t else mret ().

(** One tick of [monitor.run]: the inventory that [m.expected()] gives is an input. *)
Definition monitor_tick (t : nat) (expected : string + list VMMapping) : P () :=
  at_ ← now;
  clock ← now;
  write (λ s, set_mon s (refresh (mcfg cfg) expected clock at_ (mon s)));;
  at_ ← now;
  asking (λ a s, (set_mon s (check_locked (mcfg cfg) (a_now a) at_ (a_cids a) (mon s)), ()));;
  publishPending t.

(** ** The write gates *)

(** The critical section of [lockWrite]: the gate, made if there is none. *)
Definition enter_gate (t : nat) (k : string) : P nat :=
  both (λ s,
    match gate_of s !! k with
    | Some g => (set_gates s (gate_of s)
                   (alter (λ x, mkGate (refs x + 1) (token x) (t :: users x)) g (gates s)), g)
    | None => let g := length (gates s) in
              (set_gates s (<[k := g]> (gate_of s)) (gates s ++ [mkGate 1 None [t]]), g)
    end).

(** The [select]: the token or the deadline.  Without either the goroutine waits. *)
Definition take_token (t g : nat) : P bool :=
  Act (λ s, let late := a_late (env (asked s)) in
            let s := set_asked s (S (asked s)) in
            if late then Some (s, false)
            else match gates s !! g with
                 | Some (mkGate n None u) => Some (set_gates s (gate_of s) (<[g := mkGate n (Some t) u]> (gates s)), true)
                 | _ => None
                 end) Done.

(** [<-gate.token] *)
Definition give_token (g : nat) : P () :=
  Act (λ s, match gates s !! g with
            | Some (mkGate n (Some _) u) => Some (set_gates s (gate_of s) (<[g := mkGate n None u]> (gates s)), ())
            | _ => None
            end) Done.

Definition releaseWrite (t : nat) (k : string) (g : nat) : P () :=
  write (λ s,
    match gates s !! g with
    | Some x =>
        let x := mkGate (refs x - 1) (token x) (remove_one t (users x)) in
        set_gates s (if refs x =? 0 then delete k (gate_of s) else gate_of s) (<[g := x]> (gates s))
    | None => s
    end).

Definition lockWrite (t : nat) (k : string) : P (option nat) :=
  late ← expired;
  if late : bool then mret None
  else
    g ← enter_gate t k;
    ok ← take_token t g;
    if ok : bool then mret (Some g) else releaseWrite t k g;; mret None.

Definition unlockWrite (t : nat) (k : string) (g : nat) : P () := give_token g;; releaseWrite t k g.

Definition peer_gate (p : peer) : string := "peer:" +:+ bucket p.
Definition vm_gate (src : Source) : string := "uuid:" +:+ src_UUID src.

(** [lockEventWrite]: the gates held; [None] is an error. *)
Definition lockEventWrite (t : nat) (p : peer) (src : Source) : P (option (nat * option nat)) :=
  g ← lockWrite t (peer_gate p);
  match g with
  | None => mret None
  | Some g =>
      if negb (Known src) || String.eqb (src_UUID src) "" then mret (Some (g, None))
      else
        v ← lockWrite t (vm_gate src);
        match v with
        | None => unlockWrite t (peer_gate p) g;; mret None
        | Some v => mret (Some (g, Some v))
        end
  end.

Definition unlockEventWrite (t : nat) (p : peer) (src : Source) (g : nat * option nat) : P () :=
  match g.2 with
  | Some v => unlockWrite t (vm_gate src) v
  | None => mret ()
  end;;
  unlockWrite t (peer_gate p) g.1.

(** ** Acknowledgements *)

Definition on_session (i : nat) (f : ackState → ackState) : P () :=
  write (λ s, set_sessions s (alter f i (sessions s))).

Definition advanceAck (i : nat) (point : Z) : P () :=
  on_session i (λ a,
    let ap := if ackPoint a <? point then point else ackPoint a in
    let n := s_pending a + 1 in
    let interval := if AckInterval cfg <? 1 then 1 else AckInterval cfg in
    let due := (interval <=? n) && (s_acked a <? ap) in
    mkAckState (s_key a) ap (s_acked a) n (signal a || due)).

(** The result is whether the acknowledgement could be sent. *)
Definition flushAck (i : nat) : P bool :=
  q ← both (λ s, match sessions s !! i with
                 | Some a => if ackPoint a <=? s_acked a then (s, None)
                             else (set_sessions s (<[i := mkAckState (s_key a) (ackPoint a) (ackPoint a) 0 (signal a)]> (sessions s)),
                                   Some (ackPoint a))
                 | None => (s, None)
                 end);
  match q with
  | None => mret true
  | Some q => send i (SendAck (mkAck q))
  end.

Definition ackPointSequence (i : nat) : P Z := read (λ s, default 0 (ackPoint <$> sessions s !! i)).

(** What wakes [ackLoop]: the end of the session, the signal, the ticker. *)
Inductive wake : Type := WakeDone | WakeSignal | WakeTick.

Definition take_wake (i : nat) (w : wake) : P () :=
  Act (λ s, match w, sessions s !! i with
            | WakeSignal, Some a =>
                if signal a
                then Some (set_sessions s (<[i := mkAckState (s_key a) (ackPoint a) (s_acked a) (s_pending a) false]> (sessions s)), ())
                else None
            | WakeTick, _ => if 0 <? AckMaxDelay cfg then Some (s, ()) else None
            | _, _ => None
            end) Done.

Fixpoint ackLoop (i : nat) (ws : list wake) : P () :=
  match ws with
  | [] | WakeDone :: _ => mret ()
  | w :: ws =>
      take_wake i w;;
      ok ← flushAck i;
      if ok : bool then ackLoop i ws else mret ()
  end.

Definition drain (i : nat) : P () :=
  flushAck i;;
  send i (SendShutdown (mkShutdown "collector shutting down" 0));;
  mret ().

(** ** A session *)

Definition violation {A} (i : nat) (code : ErrorCode) (msg : string) : P (herr + A) :=
  send i (SendError (mkErrorMessage code msg true));;
  mret (inl (errProtocolViolation code msg)).

Definition blocked_text (k : streamKey) : string := "pending gap evidence limit reached for stream " +:+ k.2.

Definition identity_reason : string := "trusted VM identity is now available; reconnect to refresh attribution".

Definition requireResolvedIdentity (i : nat) (p : peer) (src : Source) : P (option herr) :=
  t ← now;
  avail ← read (λ s, identityAvailable (mcfg cfg) p src t (mon s));
  if avail : bool then
    send i (SendError (mkErrorMessage ErrCodeInternal identity_reason true));;
    mret (Some (ErrOther identity_reason))
  else mret None.

(** [%06d] *)
Definition pad6 (z : Z) : string :=
  of_chars (if (length (itoa z) <? 6)%nat then digits 6 z else itoa z).

Definition handshake (i : nat) (id : string) (p : peer) (src : Source) (f : inbound) :
    P (herr + (streamKey * Source)) :=
  match f with
  | InFailed e => mret (inl e)
  | _ =>
      count CFrames 1;;
      match f with
      | InHello _ (inl err) => violation i ErrCodeBadPayload ("decoding HELLO: " +:+ err)
      | InHello _ (inr hello) =>
          if negb (h_ProtocolVersion hello =? Frame.Version)
          then violation i ErrCodeBadPayload
                 ("protocol_version " +:+ decimal (h_ProtocolVersion hello) +:+
                  " is not supported, this collector speaks " +:+ decimal Frame.Version)
          else
            let src := set_Reported (reportedFrom (Some hello)) src in
            let k : streamKey := (bucket p, h_BootID hello) in
            on_session i (λ a, mkAckState k (ackPoint a) (s_acked a) (s_pending a) (signal a));;
            resume ← dd_ResumeFrom k;
            ok ← send i (SendReady (mkReady Frame.Version (c_Version cfg) id resume (effectiveMaxPayload cfg)));
            if negb ok then mret (inl (ErrOther "sending READY"))
            else
              monitor_seen i p src;;
              missing ← dd_CheckReplay k (FirstSequence hello);
              match Gap missing with
              | Some g =>
                  reportGap k src g
                    (if Dedup.last g.1 <? FirstSequence hello then "agent cannot replay below its first_sequence"
                     else "sequence numbers skipped before reconnect")
              | None => mret ()
              end;;
              if Blocked missing then mret (inl (ErrOther (blocked_text k))) else mret (inr (k, src))
      | _ => violation i ErrCodeUnexpectedType ("first frame was " +:+ type_String (type_of f) +:+ ", expected HELLO")
      end
  end.

(** The part of [handleEvent] under the write gate. *)
Definition accept_event (i : nat) (p : peer) (k : streamKey) (src : Source) (e : Event) : P (option herr) :=
  count CReceived 1;;
  monitor_seen i p src;;
  res ← dd_Check k (Sequence e);
  res ← (if Blocked res && negb (bool_decide (is_Some (Gap res)))
         then retryPendingGaps;; dd_Check k (Sequence e) else mret res);
  match Gap res with
  | Some g => reportGap k src g "sequence numbers skipped"
  | None => mret ()
  end;;
  if Blocked res then mret (Some (ErrOther (blocked_text k)))
  else if Duplicate res then
    count CDuplicate 1;;
    r ← dd_ResumeFrom k;
    advanceAck i r;;
    mret None
  else
    t ← now;
    err ← sink_Write (WroteEvent k) (envelopeFor t src e);
    match err with
    | Some err =>
        count COutputErrors 1;;
        through ← ackPointSequence i;
        t ← now;
        publish WroteInternal src
          (NewInternal t typeOutputFailed SeverityCritical
             {[ "reason" := AnyString err; "sequence" := AnyInt (Sequence e); "event_type" := AnyString (Type_ e);
                "boot_id" := AnyString k.2; "acknowledged_through" := AnyInt through;
                "held_by_guest_for_retry" := AnyBool true ]});;
        mret None
    | None =>
        count COutput 1;;
        r ← dd_Commit k (Sequence e);
        advanceAck i r.1;;
        mret None
    end.

(** [handleEvent] once the frame is decoded; [None] is success. *)
Definition admit_event (i : nat) (p : peer) (k : streamKey) (src : Source) (e : Event) : P (option herr) :=
  arrival ← dd_reserve k (Sequence e) src;
  arrival ← (match arrival with
             | Some r => mret (Some r)
             | None => retryPendingGaps;; dd_reserve k (Sequence e) src
             end);
  match arrival with
  | None => mret (Some (ErrOther "arrival not admitted"))
  | Some arrival =>
      err ← requireResolvedIdentity i p src;
      err ← (match err with
             | Some err => mret (Some err)
             | None =>
                 g ← lockEventWrite i p src;
                 match g with
                 | None => mret (Some (ErrOther "waiting for event output"))
                 | Some g =>
                     err ← accept_event i p k src e;
                     unlockEventWrite i p src g;;
                     mret err
                 end
             end);
      dd_release arrival;;
      mret err
  end.

Definition handleEvent (i : nat) (p : peer) (k : streamKey) (src : Source) (seq : Z) (m : string + EventMessage) : P (option herr) :=
  let violation c t := r ← violation (A := ()) i c t; mret (match r with inl e => Some e | inr _ => None end) in
  match m with
  | inl err => violation ErrCodeBadPayload ("decoding EVENT: " +:+ err)
  | inr (mkEventMessage None) => violation ErrCodeBadPayload "EVENT carried no event object"
  | inr (mkEventMessage (Some e)) =>
      if Sequence e =? 0
      then violation ErrCodeBadSequence "sequence 0 is reserved and is never assigned to an event"
      else if negb (seq =? Sequence e)
      then violation ErrCodeBadSequence
             ("event sequence " +:+ decimal (Sequence e) +:+ " does not match frame sequence " +:+ decimal seq)
      else admit_event i p k src e
  end.

Definition handlePing (i : nat) (p : peer) (src : Source) (m : string + Ping) : P (option herr) :=
  match m with
  | inl err => r ← violation (A := ()) i ErrCodeBadPayload ("decoding PING: " +:+ err); mret (match r with inl e => Some e | inr _ => None end)
  | inr ping =>
      err ← requireResolvedIdentity i p src;
      match err with
      | Some err => mret (Some err)
      | None =>
          monitor_seen i p src;;
          t ← now;
          ok ← send i (SendPong (mkPong (UptimeSeconds ping) t));
          mret (if ok : bool then None else Some (ErrOther "sending PONG"))
      end
  end.

(** The loop of [serve] over the frames that arrive; [None] is an orderly end. *)
Fixpoint serve (i : nat) (p : peer) (k : streamKey) (src : Source) (fs : list inbound) : P (option herr) :=
  match fs with
  | [] => mret (Some (ErrEOF "EOF"))
  | InFailed e :: _ => mret (Some e)
  | f :: fs =>
      count CFrames 1;;
      let violation c t := r ← violation (A := ()) i c t; mret (match r with inl e => Some e | inr _ => None end) in
      match f with
      | InEvent seq m =>
          err ← handleEvent i p k src seq m;
          match err with Some e => mret (Some e) | None => serve i p k src fs end
      | InPing _ m =>
          err ← handlePing i p src m;
          match err with Some e => mret (Some e) | None => serve i p k src fs end
      | InShutdown _ (inl err) => violation ErrCodeBadPayload ("decoding SHUTDOWN: " +:+ err)
      | InShutdown _ (inr _) => mret None
      | InError _ (inl err) => violation ErrCodeBadPayload ("decoding ERROR: " +:+ err)
      | InError _ (inr em) => if Fatal em then mret None else serve i p k src fs
      | _ => violation ErrCodeUnexpectedType (type_String (type_of f) +:+ " is not a message a guest may send")
      end
  end.

(** [finish]: only a broken rule has an effect beyond the log. *)
Definition finish (i : nat) (id : string) (p : peer) (src : Source) (err : option herr) : P () :=
  let report e code :=
    t ← now;
    publish WroteInternal src
      (NewInternal t TypeProtocolViolation SeverityWarning
         {[ "reason" := AnyString (herr_text e); "code" := AnyString (code_string code); "cid" := logCID p;
            "peer" := AnyString (addr p); "hypervisor_backed" := AnyBool (vsock p); "session" := AnyString id ]});;
    mret () in
  match err with
  | Some (errProtocolViolation code m as e) => count CFrameErrors 1;; report e code
  | Some (ErrFrame m as e) =>
      count CFrameErrors 1;;
      send i (SendError (mkErrorMessage ErrCodeBadFrame m true));;
      report e ErrCodeBadFrame
  | _ => mret ()
  end.

(** [session.run], less the goroutine of [ackLoop]. *)
Definition run_session (i : nat) (id : string) (p : peer) (src : Source) (fs : list inbound) : P () :=
  let '(f, fs) := match fs with f :: fs => (f, fs) | [] => (InFailed (ErrEOF "EOF"), []) end in
  r ← handshake i id p src f;
  match r with
  | inl e => finish i id p src (Some e)
  | inr (k, src) =>
      err ← serve i p k src fs;
      flushAck i;;
      finish i id p src err
  end.

(** ** Admission *)

Definition reasonUnauthorized : string := "unauthorized".
Definition reasonMaxConns : string := "max_connections".
Definition reasonMaxConnsCID : string := "max_connections_per_cid".

Definition over (limit n : Z) : bool := (0 <? limit) && (limit <=? n).

(** The critical section of [admit]; [None] is success. *)
Definition admit_locked (i : nat) (b : string) (s : collector) : collector * option string :=
  if over (MaxConnections cfg) (total s) then (s, Some reasonMaxConns)
  else if over (MaxConnectionsPerCID cfg) (default 0 (perPeer s !! b)) then (s, Some reasonMaxConnsCID)
  else (set_limits s (<[b := default 0 (perPeer s !! b) + 1]> (perPeer s)) (total s + 1) (<[i := b]> (live s)), None).

Definition Server_admit (i : nat) (p : peer) (src : Source) : P (option string) :=
  if negb (authorized (enrich cfg) src) then mret (Some reasonUnauthorized)
  else both (admit_locked i (bucket p)).

(** What [release] does the one time it does anything. *)
Definition release_locked (i : nat) (b : string) (s : collector) : collector :=
  let n := default 0 (perPeer s !! b) - 1 in
  set_limits s (if 0 <? n then <[b := n]> (perPeer s) else delete b (perPeer s)) (total s - 1) (delete i (live s)).

Definition reject (i : nat) (p : peer) (src : Source) (reason : string) : P () :=
  count CRejected 1;;
  let code := if String.eqb reason reasonUnauthorized then ErrCodeUnauthorized else ErrCodeOverloaded in
  let msg := if String.eqb reason reasonUnauthorized
             then "connection refused: this CID has no entry in the collector's vms list and limits.allow_unknown_cids is false"
             else "connection refused: " +:+ reason +:+ " limit reached" in
  send i (SendError (mkErrorMessage code msg true));;
  t ← now;
  publish WroteInternal src
    (NewInternal t typeConnectionRejected SeverityWarning
       {[ "reason" := AnyString reason; "cid" := logCID p; "peer" := AnyString (addr p);
          "hypervisor_backed" := AnyBool (vsock p) ]});;
  mret ().

Definition newSession (i : nat) (p : peer) : P string :=
  n ← both (λ s, (set_session_seq s (u64 (session_seq s + 1)), u64 (session_seq s + 1)));
  write (λ s, set_sessions s (<[i := mkAckState ("", "") 0 0 0 false]> (sessions s)));;
  mret (bucket p +:+ "-" +:+ pad6 n).

(** [Server.serve] and the goroutine it starts. *)
Definition serve_conn (i : nat) (remote : option string) (peerCID : option Z) (fs : list inbound) : P () :=
  let p := peerOf remote peerCID in
  let src := source (enrich cfg) p in
  reason ← Server_admit i p src;
  match reason with
  | Some reason => reject i p src reason
  | None =>
      count CAccepted 1;;
      count CActive 1;;
      id ← newSession i p;
      run_session i id p src fs;;
      count CActive (-1);;
      write (release_locked i (bucket p))
  end.

(** ** The collector *)

(** The goroutines: one for each connection, the acknowledgement loop and the drain of a
    session, the retries of gap reports and the monitor. *)
Inductive goroutine : Type :=
| GConn (remote : option string) (peerCID : option Z) (fs : list inbound)
| GAckLoop (i : nat) (ws : list wake)
| GDrain (i : nat)
| GGapRetry
| GMonitor (expected : string + list VMMapping).

Definition body (t : nat) (g : goroutine) : P () :=
  match g with
  | GConn remote c fs => serve_conn t remote c fs
  | GAckLoop i ws => ackLoop i ws
  | GDrain i => drain i
  | GGapRetry => retryPendingGaps
  | GMonitor expected => monitor_tick t expected
  end.

Record server : Type := mkServer { shared : collector; threads : gmap nat (P ()) }.

Inductive act : Type := Spawn (t : nat) (g : goroutine) | Step (t : nat).

(** One action; [None] is one that cannot be taken now. *)
Definition server_act (x : server) (a : act) : option server :=
  match a with
  | Spawn t g => match threads x !! t with
                 | None => Some (mkServer (shared x) (<[t := body t g]> (threads x)))
                 | Some _ => None
                 end
  | Step t => p ← threads x !! t;
              '(s, p) ← advance p (shared x);
              Some (mkServer s (<[t := p]> (threads x)))
  end.

(** A schedule; an action that cannot be taken is passed over. *)
Definition server_run (x : server) (l : list act) : server := fold_left (λ x a, default x (server_act x a)) l x.

Definition New (vmlist : list VMMapping) (start : time) : server :=
  mkServer (mkCollector (newDedup (DedupWindow cfg) (maxTrackedStreams cfg)) ∅ [] (newMonitor (mcfg cfg) vmlist start)
    (mkHost 0 0 0 0 0 0 0 0 0) ∅ 0 0 ∅ 0 [] [] [] [] ∅ None ∅) ∅.
End collector.

(** ** A run *)

(** One guest: it says hello, sends the events 5 and 8, and leaves.  The sink accepts
    everything. *)
Definition yes : nat → answer := λ _, mkAnswer true false 7 "" (λ _, []) [].
Definition demo_mcfg : monitorConfig := mkMonitorConfig false 60 120 10 "hv" false AnyInt (λ _, "t") (λ _, "1m").
Definition demo_enricher : enricher := newEnricher "hv" [mkVM 3 "web" "u-1" "" "" "" None false] None false.
Definition demo_cfg : hostConfig := mkHostConfig 10 2 1 0 0 0 64 demo_mcfg demo_enricher "1.0".
Definition demo_hello : Hello := mkHello 1 "1.0" "guest" "boot" "m" "k" 5.
Definition demo_frames : list inbound :=
  [ InHello 0 (inr demo_hello);
    InEvent 5 (inr (mkEventMessage (Some (event_at 5))));
    InEvent 8 (inr (mkEventMessage (Some (event_at 8))));
    InShutdown 0 (inr (mkShutdown "bye" 8)) ].
Definition demo_acts : list act := Spawn 1 (GConn None (Some 3) demo_frames) :: replicate 120 (Step 1).
Abbreviation demo_end := (server_run demo_cfg yes (New demo_cfg [] 0) demo_acts).

Definition entry_kind (x : entry) : string * Z :=
  match x with
  | WroteEvent _ e => ("event", Sequence (env_Event e))
  | WroteGap _ r _ => ("gap", first r)
  | WroteAlert _ _ => ("alert", 0)
  | WroteInternal _ => ("internal", 0)
  end.

Example demo_sink : entry_kind <$> sink_log (shared demo_end) = [("event", 5); ("gap", 6); ("event", 8)].
Proof. vm_compute. reflexivity. Qed.
