(* ===== verification/DedupPending.v ===== *)
(** * The gaps that wait for their report

    What the sessions of the collector rely on in [Dedup]: the bounds of a pending gap
    are 64-bit numbers, and a claim to publish one carries the source to publish it
    under. *)

From S2P Require Import Prelude Dedup.

Definition range_u64 (r : seqRange) : Prop := is_u64 (first r) ∧ is_u64 (last r).

Section pending.
Context {Source : Type}.
Abbreviation dedupStream := (@dedupStream Source).
Abbreviation dedup := (@dedup Source).

Definition pend_u64 (s : dedupStream) : Prop := Forall range_u64 (pending s).

Lemma u64_is x : is_u64 (u64 x).
Proof. apply u64_range. Qed.
#[local] Hint Resolve u64_is : core.

Lemma exclude_from_u64 room seq l : ∀ l' c, Forall range_u64 l → exclude_from room seq l = Some (l', c) → Forall range_u64 l'.
Proof.
  induction l as [|g l IH]; intros l' c Hl H; simpl in H; [by injection H as <- <-|].
  apply Forall_cons in Hl as Hl'. destruct Hl' as [[Hf Hg] Hl'].
  destruct (seq <? first g); [by injection H as <- <-|]. destruct (last g <? seq).
  - destruct (exclude_from room seq l) as [[l2 c2]|]; [|done]. injection H as <- <-. constructor; [done|by eapply IH].
  - destruct (first g =? last g); [by injection H as <- <-|].
    destruct (seq =? first g); [injection H as <- <-; constructor; [split; simpl; auto|done]|].
    destruct (seq =? last g); [injection H as <- <-; constructor; [split; simpl; auto|done]|].
    destruct room; [|done]. injection H as <- <-. constructor; [|constructor; [|done]]; split; simpl; auto.
Qed.

Lemma clear_pending (s : dedupStream) : pending (clearGapSourceIfDrained s) = pending s.
Proof. unfold clearGapSourceIfDrained. by destruct (pending s) eqn:E. Qed.

Lemma excludePending_u64 s seq s' : pend_u64 s → excludePending s seq = Some s' → pend_u64 s'.
Proof.
  unfold excludePending, pend_u64. intros Hp H. destruct (exclude_from _ _ _) as [[l [|]]|] eqn:E; [| |done].
  - injection H as <-. rewrite clear_pending. by eapply exclude_from_u64.
  - by injection H as <-.
Qed.

Lemma excludeArrivals_u64 order : ∀ s, pend_u64 s → pend_u64 (excludeArrivals order s).
Proof.
  unfold excludeArrivals. induction order as [|q order IH]; intros s Hp; simpl; [done|]. apply IH.
  unfold exclude_arrival. destruct (arrivals s !! q); [|done]. destruct (excludePending s q) as [s'|] eqn:E; [|done].
  eapply excludePending_u64 in E; [|done]. by destruct (_ =? 0).
Qed.

Lemma coalesce_u64 ranges : ∀ f l kept f' l', is_u64 f → is_u64 l → Forall range_u64 ranges →
  coalesce f l ranges = (kept, f', l') → Forall range_u64 kept ∧ is_u64 f' ∧ is_u64 l'.
Proof.
  induction ranges as [|r ranges IH]; intros f l kept f' l' Hf Hl Hr H; simpl in H; [by injection H as <- <- <-|].
  apply Forall_cons in Hr as [Hr0 Hr]. destruct (apart f l r).
  - destruct (coalesce f l ranges) as [[k f2] l2] eqn:E. injection H as <- <- <-.
    destruct (IH _ _ _ _ _ Hf Hl Hr E) as (? & ? & ?). split; [by constructor|done].
  - apply (IH (Z.min f (first r)) (Z.max l (last r))); [| |done|done]; destruct Hr0; unfold is_u64 in *; lia.
Qed.

Lemma SortFunc_u64 l : Forall range_u64 l → Forall range_u64 (SortFunc l).
Proof. by rewrite SortFunc_perm. Qed.

Lemma queueMissing_u64 s f l s' : is_u64 f → is_u64 l → pend_u64 s → queueMissing s f l = Some s' → pend_u64 s'.
Proof.
  unfold queueMissing. intros Hf Hl Hp H. destruct (_ || _); [by injection H as <-|].
  destruct (coalesce _ _ _) as [[kept f2] l2] eqn:E.
  apply coalesce_u64 in E as (Hk & Hf2 & Hl2); [|destruct (_ <=? _); auto|done|done].
  destruct (_ <=? _)%nat; [done|].
  assert (Forall range_u64 (SortFunc (kept ++ [mkRange f2 l2]))) as Hs.
  { apply SortFunc_u64, Forall_app. split; [done|]. constructor; [by split|constructor]. }
  destruct (pending s); injection H as <-; exact Hs.
Qed.

Lemma check_u64 s seq : pend_u64 s → pend_u64 (fst (check s seq)).
Proof.
  intros Hp. unfold check. destruct (arrivalOverflow s); [done|].
  set (s1 := if (highest s =? 0) && (0 <? seq) then set_written s (seq - 1) else s).
  assert (pend_u64 s1) as H1 by (unfold s1; by destruct (_ && _)).
  destruct (excludePending s1 seq) as [s2|] eqn:E2; [|done]. eapply excludePending_u64 in E2; [|done].
  destruct (if negb (highest s2 =? 0) && _ && _ then _ else _) as [s3|] eqn:E3; [|done].
  assert (pend_u64 s3) as H3.
  { destruct (_ && _ && _); [|by injection E3 as <-]. by eapply queueMissing_u64; [..|exact E3]. }
  simpl. by destruct (highest s3 <? seq).
Qed.

Lemma replay_u64 acc : ∀ s next l, is_u64 next → is_u64 l → pend_u64 s → pend_u64 (fst (replay_loop s next l acc)).
Proof.
  assert (Hq : ∀ s next l, is_u64 next → is_u64 l → pend_u64 s →
    pend_u64 (fst (match queueMissing s next l with Some s => (s, true) | None => (s, false) end))).
  { intros s next l Hn Hl Hp. destruct (queueMissing s next l) as [s'|] eqn:E; [|done]. by eapply queueMissing_u64; [..|exact E]. }
  induction acc as [|r acc IH]; intros s next l Hn Hl Hp; simpl; [by apply Hq|].
  destruct (last r <? next); [by apply IH|]. destruct (l <? first r); [by apply Hq|].
  destruct (if next <? first r then _ else _) as [s'|] eqn:E; [|done].
  assert (pend_u64 s').
  { destruct (next <? first r); [|by injection E as <-]. by eapply queueMissing_u64; [..|exact E]. }
  destruct (l <=? last r); [done|]. by apply IH.
Qed.

Lemma prune_u64 order s : pend_u64 s → pend_u64 (prunePending order s).
Proof.
  intros Hp. unfold prunePending, pend_u64. rewrite clear_pending. apply excludeArrivals_u64. unfold pend_u64. simpl.
  apply Forall_fmap, Forall_forall. intros r [_ Hr]%list_elem_of_filter.
  pose proof (proj1 (Forall_forall _ _) Hp r Hr) as [? ?]. simpl. destruct (_ <=? _); split; simpl; auto.
Qed.

Lemma subtract_u64 ranges f l rem : Forall range_u64 ranges → subtractRange ranges f l = Some rem → Forall range_u64 rem.
Proof.
  unfold subtractRange. intros Hr H. destruct (l <? f); [by injection H as <-|].
  destruct (_ <? _)%nat; [done|]. injection H as <-. apply Forall_forall. intros x (r & Hx & Hin)%list_elem_of_bind.
  pose proof (proj1 (Forall_forall _ _) Hr r Hin) as [? ?]. unfold subtract_one in Hx.
  destruct (_ || _); [apply list_elem_of_singleton in Hx as ->; done|].
  apply elem_of_app in Hx as [Hx|Hx]; destruct (_ <? _); try by apply elem_of_nil in Hx.
  - apply list_elem_of_singleton in Hx as ->. split; simpl; auto.
  - apply list_elem_of_singleton in Hx as ->. split; simpl; auto.
Qed.

Lemma account_u64 order s f l s' : pend_u64 s → account order s f l = Some s' → pend_u64 s'.
Proof.
  unfold account. intros Hp H. destruct (subtractRange _ _ _) as [rem|] eqn:Es; [|done].
  destruct (noteMissing s f l) as [s1|]; [|done]. apply subtract_u64 in Es; [|done].
  assert (pend_u64 (prunePending order (set_pending s1 rem))) as Hq by by apply prune_u64.
  destruct (_ <? _); injection H as <-; exact Hq.
Qed.

Lemma commit_u64 w order s seq : pend_u64 s → pend_u64 (fst (commit w order s seq)).
Proof.
  intros Hp. unfold commit. destruct (_ <=? _); [done|].
  assert (pend_u64 (prunePending order (absorb (set_ahead s ({[seq]} ∪ ahead s))))) as Hq.
  { apply prune_u64. unfold pend_u64. rewrite (proj2 (absorb_sizes _)). exact Hp. }
  unfold trim. destruct (_ <=? _); exact Hq.
Qed.

(** ** The part of a gap that may be reported *)

Lemma safe_part_u64 fuel : ∀ s gap exclude g, range_u64 gap → safe_part (Source := Source) fuel s gap exclude = Some g → range_u64 g.
Proof.
  induction fuel as [|fuel IH]; intros s gap exclude g Hg H; simpl in H; [done|].
  destruct (firstProtected s gap exclude) as [p|]; [|by injection H as <-]. destruct Hg as [Hf Hl].
  destruct (first gap <? p); [injection H as <-; split; simpl; auto|]. destruct (p =? last gap); [done|].
  apply IH in H; [done|]. split; simpl; auto.
Qed.

Lemma safeGapPart_u64 s gap exclude g : range_u64 gap → safeGapPart (Source := Source) s gap exclude = Some g → range_u64 g.
Proof. unfold safeGapPart. destruct (arrivalOverflow s); [done|]. apply safe_part_u64. Qed.

Lemma safePendingGap_u64 s exclude g v : pend_u64 s → Gap (safePendingGap s exclude) = Some (g, v) → range_u64 g.
Proof.
  unfold safePendingGap, pend_u64. generalize (pending s). induction l as [|r l IH]; simpl; [done|].
  intros [Hr Hl]%Forall_cons. destruct (safeGapPart s r exclude) as [x|] eqn:E; simpl; [|by apply IH].
  intros [= <- _]. by eapply safeGapPart_u64.
Qed.

Lemma check_gap_u64 s seq g v : pend_u64 s → Gap (snd (check s seq)) = Some (g, v) → range_u64 g.
Proof.
  intros Hp. unfold check. destruct (arrivalOverflow s); [done|].
  set (s1 := if (highest s =? 0) && (0 <? seq) then set_written s (seq - 1) else s).
  assert (pend_u64 s1) as H1 by (unfold s1; by destruct (_ && _)).
  destruct (excludePending s1 seq) as [s2|] eqn:E2; [|by apply safePendingGap_u64].
  eapply excludePending_u64 in E2; [|done].
  destruct (if negb (highest s2 =? 0) && _ && _ then _ else _) as [s3|] eqn:E3; [|by apply safePendingGap_u64].
  assert (pend_u64 s3) as H3.
  { destruct (_ && _ && _); [|by injection E3 as <-]. by eapply queueMissing_u64; [..|exact E3]. }
  simpl. apply safePendingGap_u64. by destruct (highest s3 <? seq).
Qed.

(** ** The table *)

Definition tbl_u64 (d : dedup) : Prop := ∀ k s, streams d !! k = Some s → pend_u64 s.

Lemma put_u64 d k s : tbl_u64 d → pend_u64 s → tbl_u64 (put d k s).
Proof. intros Hd Hs k' s'. simpl. intros [[_ <-]|[_ H]]%lookup_insert_Some; [done|by eapply Hd]. Qed.

Lemma tick_u64 d : tbl_u64 d → tbl_u64 (tick d).
Proof. done. Qed.

Lemma stream_u64_table d k d' os : tbl_u64 d → stream d k = (d', os) →
  tbl_u64 d' ∧ ∀ s, os = Some s → pend_u64 s.
Proof.
  intros Hd E. apply stream_spec in E as (Ho & _ & _ & Hs).
  assert (∀ s, os = Some s → pend_u64 s) as Hk.
  { intros s ->. destruct Hs as (_ & [(s0 & u & H0 & ->)|(_ & id & clk & ->)]); [exact (Hd _ _ H0)|constructor]. }
  split; [|done]. intros k' s' Hs'. destruct (decide (k' = k)) as [->|Hne]; [|by eapply Hd, Ho].
  destruct os as [s|]; [|by rewrite Hs in Hs']. destruct Hs as [Hs _]. rewrite Hs in Hs'. injection Hs' as <-. by apply Hk.
Qed.

Lemma Check_u64 d k seq : tbl_u64 d → tbl_u64 (fst (Check d k seq)) ∧
  ∀ g v, Gap (snd (Check d k seq)) = Some (g, v) → range_u64 g.
Proof.
  intros Hd. unfold Check. destruct (stream d k) as [d' os] eqn:Es.
  destruct (stream_u64_table _ _ _ _ Hd Es) as [Hd' Hs]. destruct os as [s|]; [|done].
  specialize (Hs s eq_refl). pose proof (check_u64 s seq Hs) as H1. pose proof (check_gap_u64 s seq) as H2.
  destruct (check s seq) as [s' r]. split; [by apply put_u64|]. intros g v. by apply H2.
Qed.

Lemma remember_pending src (s : dedupStream) : pending (remember_source src s) = pending s.
Proof. unfold remember_source. by destruct (pending s) eqn:E, (gapSource s); simpl; rewrite ?E. Qed.

Lemma reserve_u64 d k seq src : tbl_u64 d → tbl_u64 (fst (reserveArrival d k seq src)).
Proof.
  intros Hd. unfold reserveArrival. destruct (stream d k) as [d' os] eqn:Es.
  destruct (stream_u64_table _ _ _ _ Hd Es) as [Hd' Hs]. destruct os as [s|]; [|done].
  specialize (Hs s eq_refl).
  assert (∀ n, tbl_u64 (put d' k (remember_source src (fst (check (set_arrivals s (<[seq := n]> (arrivals s))) seq))))) as Hgo.
  { intros n. apply put_u64; [done|]. unfold pend_u64. rewrite remember_pending. by apply check_u64. }
  destruct (arrivals s !! seq); [apply Hgo|]. destruct (_ <=? _); [by apply put_u64|apply Hgo].
Qed.

Lemma Commit_u64 d k seq order : tbl_u64 d → tbl_u64 (fst (Commit d k seq order)).
Proof.
  intros Hd. unfold Commit. destruct (stream d k) as [d' os] eqn:Es.
  destruct (stream_u64_table _ _ _ _ Hd Es) as [Hd' Hs]. destruct os as [s|]; [|done].
  pose proof (commit_u64 (window d') order s seq (Hs s eq_refl)) as H1.
  destruct (commit _ _ _ _) as [s' r]. by apply put_u64.
Qed.

Lemma CheckReplay_u64 d k q : tbl_u64 d → tbl_u64 (fst (CheckReplay d k q)) ∧
  ∀ g v, Gap (snd (CheckReplay d k q)) = Some (g, v) → range_u64 g.
Proof.
  intros Hd. unfold CheckReplay. destruct (streams d !! k) as [s|] eqn:Es; [|done]. pose proof (Hd _ _ Es) as Hs.
  cbv zeta. destruct (_ && _).
  - unfold queueReplayMissing. set (acc := SortFunc _).
    pose proof (replay_u64 acc (touch (tick d) s) (u64 (written (touch (tick d) s) + 1)) (u64 (q - 1)) (u64_is _) (u64_is _) Hs) as H1.
    destruct (replay_loop _ _ _ acc) as [s' ok]. simpl in H1. split; [by apply put_u64|].
    intros g v. destruct ok; simpl; by apply safePendingGap_u64.
  - split; [by apply put_u64|]. intros g v. by apply safePendingGap_u64.
Qed.

Lemma release_u64 d r order : tbl_u64 d → tbl_u64 (release d r order).
Proof.
  intros Hd. unfold release. destruct (streams d !! a_key r) as [s|] eqn:Es; [|done]. destruct (_ =? _); [|done].
  apply put_u64; [done|]. apply excludeArrivals_u64. exact (Hd _ _ Es).
Qed.

Lemma ResumeFrom_u64 d k : tbl_u64 d → tbl_u64 (fst (ResumeFrom d k)).
Proof. intros Hd. unfold ResumeFrom. destruct (streams d !! k) as [s|] eqn:Es; [|done]. apply put_u64; [done|]. exact (Hd _ _ Es). Qed.

Lemma finishGap_u64 d p ok order : tbl_u64 d → tbl_u64 (fst (finishGap d p ok order)).
Proof.
  intros Hd. unfold finishGap. destruct (streams d !! p_key p) as [s|] eqn:Es; [|done]. destruct (_ || _); [done|].
  pose proof (Hd _ _ Es) as Hs. cbv zeta. destruct (_ || _ || _ || _); [by apply put_u64|].
  destruct (account order _ _ _) as [s'|] eqn:Ea; [|by apply put_u64]. apply account_u64 in Ea; [|done]. by apply put_u64.
Qed.

(** ** Claims *)

(** A claim can be published. *)
Definition claim_ok (p : gapPublication) : Prop := range_u64 (p_gap p) ∧ is_Some (@p_source Source p).

Lemma claimGap_ok d k src f l v : is_u64 f → is_u64 l → tbl_u64 d → tbl_u64 (fst (claimGap d k src f l v)) ∧
  ∀ p, snd (claimGap d k src f l v) = Some p → claim_ok p.
Proof.
  intros Hf Hl Hd. unfold claimGap. destruct (streams d !! k) as [s|] eqn:Es; [|done]. destruct (_ || _ || _ || _); [done|].
  set (s1 := match gapSource s with None => set_gapSource s (Some src) | Some _ => s end).
  assert (pend_u64 s1 ∧ is_Some (gapSource s1)) as [H1 H2].
  { unfold s1. split; [|by destruct (gapSource s) eqn:E; simpl; rewrite ?E].
    destruct (gapSource s); exact (Hd _ _ Es). }
  destruct (_ || _); [by split; [apply put_u64|]|]. split; [by apply put_u64|].
  intros p [= <-]. split; [done|exact H2].
Qed.

Lemma excludeArrivals_source order : ∀ s : dedupStream, is_Some (gapSource s) → pending (excludeArrivals order s) ≠ [] →
  is_Some (gapSource (excludeArrivals order s)).
Proof.
  unfold excludeArrivals. induction order as [|q order IH]; intros s Hs; simpl; [done|].
  assert (is_Some (gapSource (exclude_arrival s q)) ∨ pending (exclude_arrival s q) = []) as [H|H].
  { unfold exclude_arrival, excludePending, clearGapSourceIfDrained. destruct (arrivals s !! q); [|by left].
    destruct (exclude_from _ _ _) as [[l [|]]|]; simpl; [destruct l| |by left]; destruct (_ =? 0); simpl; auto. }
  - by apply IH.
  - intros Hne. exfalso. apply Hne. clear -H. revert H. generalize (exclude_arrival s q). clear.
    induction order as [|q order IH]; intros s H; simpl; [done|]. apply IH.
    unfold exclude_arrival, excludePending. destruct (arrivals s !! q); [|done]. rewrite H. simpl. by destruct (_ =? 0).
Qed.

Lemma publishable_u64 (s : dedupStream) l gap : Forall range_u64 l →
  (fix go l := match l with
               | [] => None
               | p :: l => match safeGapPart s p 0 with
                           | Some gap => if canPublishGap s (first gap) (last gap) then Some gap else go l
                           | None => go l
                           end
               end) l = Some gap → range_u64 gap ∧ l ≠ [].
Proof.
  induction l as [|r l IH]; [done|]. intros [Hr Hl]%Forall_cons H. split; [|done].
  destruct (safeGapPart s r 0) as [g|] eqn:E; [|by apply IH].
  destruct (canPublishGap _ _ _); [|by apply IH]. injection H as <-. by eapply safeGapPart_u64.
Qed.

Lemma nextPublishable_ok order s s' g : gap_candidate s = true → pend_u64 s → nextPublishableGap order s = (s', g) →
  pend_u64 s' ∧ ∀ gap, g = Some gap → range_u64 gap ∧ is_Some (gapSource s').
Proof.
  intros Hc Hp H. unfold nextPublishableGap in H. injection H as <- <-.
  pose proof (excludeArrivals_u64 order s Hp) as H1. split; [done|].
  assert (is_Some (gapSource s)) as Hs.
  { unfold gap_candidate in Hc. apply andb_true_iff in Hc as [Hc _]. apply andb_true_iff in Hc as [_ Hc]. by apply bool_decide_eq_true in Hc. }
  intros gap Hg. assert (range_u64 gap ∧ pending (excludeArrivals order s) ≠ []) as [H2 H3].
  { by eapply publishable_u64. }
  split; [done|]. by apply excludeArrivals_source.
Qed.

Lemma takeNext_ok d k order : tbl_u64 d → tbl_u64 (fst (takeNextPendingGap d k order)) ∧
  ∀ p, snd (takeNextPendingGap d k order) = Some p → claim_ok p.
Proof.
  intros Hd. unfold takeNextPendingGap. destruct (streams d !! k) as [s|] eqn:Es; [|done].
  destruct (gap_candidate s) eqn:Ec; [|done]. cbn [negb]. destruct (nextPublishableGap order s) as [s' g] eqn:En.
  apply nextPublishable_ok in En as [H1 H2]; [|done|exact (Hd _ _ Es)].
  destruct g as [gap|]; [|by split; [apply put_u64|]]. destruct (H2 gap eq_refl) as [H3 H4].
  split; [by apply put_u64|]. intros p [= <-]. split; [done|exact H4].
Qed.

Lemma oldest_elem (l : list (streamKey * (dedupStream * option seqRange))) acc r :
  fold_left (λ acc '(k, (s, g)),
      match g, acc with
      | Some gap, Some (_, s', _) => if used s <? used s' then Some (k, s, gap) else acc
      | Some gap, None => Some (k, s, gap)
      | None, _ => acc
      end) l acc = Some r →
  acc = Some r ∨ (r.1.1, (r.1.2, Some r.2)) ∈ l.
Proof.
  revert acc. induction l as [|[k [s g]] l IH]; intros acc H; simpl in H; [by left|].
  apply IH in H as [H|H]; [|right; by right]. destruct g as [gap|]; [|by left].
  assert (Some (k, s, gap) = Some r → (r.1.1, (r.1.2, Some r.2)) ∈ (k, (s, Some gap)) :: l) as Hnew.
  { intros [= <-]. by left. }
  destruct acc as [[[k1 s1] g1]|]; [destruct (used s <? used s1)|]; auto.
Qed.

Lemma takePending_ok d order : tbl_u64 d → tbl_u64 (fst (takePendingGap d order)) ∧
  ∀ p, snd (takePendingGap d order) = Some p → claim_ok p.
Proof.
  intros Hd. unfold takePendingGap. set (scanned := map_imap _ (streams d)).
  assert (∀ k s g, scanned !! k = Some (s, g) → pend_u64 s ∧ ∀ gap, g = Some gap → range_u64 gap ∧ is_Some (gapSource s)) as Hsc.
  { intros k s g H. unfold scanned in H. rewrite map_lookup_imap in H.
    destruct (streams d !! k) as [s0|] eqn:Es; [|done]. cbn in H. apply (inj Some) in H.
    destruct (gap_candidate s0) eqn:Ec; [|injection H as <- <-; by split; [exact (Hd _ _ Es)|]].
    eapply nextPublishable_ok; [exact Ec|exact (Hd _ _ Es)|exact H]. }
  set (d1 := mkDedup _ _ _ _ (fst <$> scanned)).
  assert (tbl_u64 d1) as Hd1.
  { intros k s'. simpl. rewrite lookup_fmap. destruct (scanned !! k) as [[s g]|] eqn:E; [|done].
    intros [= <-]. by eapply Hsc. }
  destruct (fold_left _ _ None) as [[[k s] gap]|] eqn:Ef; [|done].
  apply oldest_elem in Ef as [?|Hin]; [done|]. simpl in Hin. apply elem_of_map_to_list in Hin.
  destruct (Hsc _ _ _ Hin) as [H1 H2]. destruct (H2 gap eq_refl) as [H3 H4].
  split; [by apply put_u64|]. intros p [= <-]. split; [done|exact H4].
Qed.
End pending.
