(* ===== verification/Triples.v ===== *)
(** * Invariants of a pool of goroutines

    Hoare triples over the goroutines of [Threads], for a shared state with an invariant
    [Inv].  [R t s s'] is what goroutine [t] may rely on when others act between [s] and
    [s'].  A triple of [t] says that every action of the program keeps the invariant and
    what all the others rely on. *)

From S2P Require Import Prelude Threads.

Section triples.
Context {S : Type} (Inv : S → Prop) (R : nat → S → S → Prop) `{HR : !∀ t, PreOrder (R t)}.

Definition rely (t : nat) (s s' : S) : Prop := Inv s → Inv s' ∧ R t s s'.
Definition guarantee (t : nat) (s s' : S) : Prop := Inv s → Inv s' ∧ ∀ t', t' ≠ t → R t' s s'.

#[global] Instance rely_preorder t : PreOrder (rely t).
Proof.
  split; [intros s Hs; split; [done|reflexivity]|]. intros s1 s2 s3 H1 H2 Hs.
  destruct (H1 Hs) as [Hi HR1]. destruct (H2 Hi) as [Hi' HR2]. split; [done|by etrans].
Qed.

(** An assertion the others cannot break. *)
Class Stable (t : nat) (P : S → Prop) : Prop := stable s s' : Inv s → Inv s' → R t s s' → P s → P s'.

#[global] Instance stable_const t (P : Prop) : Stable t (λ _, P).
Proof. by intros s s' _ _ _ H. Qed.
#[global] Instance stable_and t P Q : Stable t P → Stable t Q → Stable t (λ s, P s ∧ Q s).
Proof. intros HP HQ s s' Hi Hi' Hr [H1 H2]. split; [exact (HP s s' Hi Hi' Hr H1)|exact (HQ s s' Hi Hi' Hr H2)]. Qed.

Definition triple {A} (t : nat) (P : S → Prop) (p : prog S A) (Q : A → S → Prop) : Prop :=
  ∀ s, Inv s → P s → ensures (rely t) (guarantee t) (λ a s', Inv s' ∧ Q a s') p s.

Lemma tri_ret {A} t (P : S → Prop) (a : A) (Q : A → S → Prop) `{!Stable t P} : (∀ s, Inv s → P s → Q a s) → triple t P (Done a) Q.
Proof. intros HQ s Hi HP s' Hr. destruct (Hr Hi) as [Hi' HR']. split; [done|]. apply HQ; [done|]. by eapply (stable s s'). Qed.

Lemma tri_bind {A B} t (P : S → Prop) (p : prog S A) (c : A → prog S B) (Q : A → S → Prop) (Q' : B → S → Prop) :
  triple t P p Q → (∀ a, triple t (Q a) (c a) Q') → triple t P (p ≫= c) Q'.
Proof.
  intros Hp Hc s Hi HP. apply ensures_bind; [apply _|]. eapply ensures_weaken; [by apply Hp|].
  intros a s' [Hi' HQ]. by apply Hc.
Qed.

Lemma tri_weaken {A} t (P P' : S → Prop) (p : prog S A) (Q Q' : A → S → Prop) :
  triple t P' p Q' → (∀ s, Inv s → P s → P' s) → (∀ a s, Inv s → Q' a s → Q a s) → triple t P p Q.
Proof.
  intros Hp HP HQ s Hi H. eapply ensures_weaken; [apply Hp; auto|]. intros a s' [Hi' HQ']. auto.
Qed.

(** An action, with what it does to the others and to the goroutine itself. *)
Lemma tri_act {X} t (P : S → Prop) (f : S → option (S * X)) (Q : X → S → Prop) `{!Stable t P, !∀ x, Stable t (Q x)} :
  (∀ s s' x, Inv s → P s → f s = Some (s', x) → Inv s' ∧ (∀ t', t' ≠ t → R t' s s') ∧ Q x s') →
  triple t P (Act f Done) Q.
Proof.
  intros Hf s Hi HP s1 Hr. destruct (Hr Hi) as [Hi1 HR1]. assert (P s1) as HP1 by by eapply (stable s s1).
  destruct (f s1) as [[s2 x]|] eqn:E; [|done]. destruct (Hf s1 s2 x Hi1 HP1 E) as (Hi2 & Hg & HQ).
  split; [by intros _|]. intros s3 Hr3. destruct (Hr3 Hi2) as [Hi3 HR3]. split; [done|]. by eapply (stable s2 s3).
Qed.

(** An action that everybody may see, the goroutine included, keeps what is stable. *)
Lemma tri_quiet {X} t (P : S → Prop) (f : S → option (S * X)) (Q : X → S → Prop) `{!Stable t P, !∀ x, Stable t (Q x)} :
  (∀ s s' x, Inv s → P s → f s = Some (s', x) → Inv s' ∧ (∀ t', R t' s s') ∧ Q x s') →
  triple t P (Act f Done) (λ x s, P s ∧ Q x s).
Proof.
  intros Hf. apply (tri_act t P f); [apply _..|]. intros s s' x Hi HP E. destruct (Hf s s' x Hi HP E) as (Hi' & Hr & HQ).
  split_and!; [done|auto| |done]. by eapply (stable s s').
Qed.

(** A triple that keeps everything the goroutine knows. *)
Definition framed {A} (t : nat) (P : S → Prop) (p : prog S A) (Q : A → S → Prop) : Prop :=
  ∀ F, Stable t F → triple t (λ s, F s ∧ P s) p (λ a s, F s ∧ Q a s).

Lemma f_ret {A} t (P : S → Prop) (a : A) (Q : A → S → Prop) `{!Stable t P} :
  (∀ s, Inv s → P s → Q a s) → framed t P (Done a) Q.
Proof. intros HQ F HF. apply tri_ret; [apply _|]. intros s Hi [? ?]. auto. Qed.

Lemma f_bind {A B} t (P : S → Prop) (p : prog S A) (c : A → prog S B) (Q : A → S → Prop) (Q' : B → S → Prop) :
  framed t P p Q → (∀ a, framed t (Q a) (c a) Q') → framed t P (p ≫= c) Q'.
Proof. intros Hp Hc F HF. eapply tri_bind; [by apply Hp|]. intros a. by apply Hc. Qed.

Lemma f_weaken {A} t (P P' : S → Prop) (p : prog S A) (Q Q' : A → S → Prop) :
  framed t P' p Q' → (∀ s, Inv s → P s → P' s) → (∀ a s, Inv s → Q' a s → Q a s) → framed t P p Q.
Proof.
  intros Hp HP HQ F HF. eapply tri_weaken; [by apply Hp| |].
  - intros s Hi [? ?]. auto.
  - intros a s Hi [? ?]. auto.
Qed.

Lemma f_frame {A} t (F P : S → Prop) (p : prog S A) (Q : A → S → Prop) `{!Stable t F} :
  framed t P p Q → framed t (λ s, F s ∧ P s) p (λ a s, F s ∧ Q a s).
Proof.
  intros Hp F' HF'. eapply tri_weaken; [apply (Hp (λ s, F' s ∧ F s)); apply _| |].
  - intros s _ (? & ? & ?). auto.
  - intros a s _ ((? & ?) & ?). auto.
Qed.

Lemma f_act {X} t (P : S → Prop) (f : S → option (S * X)) (Q : X → S → Prop) `{!Stable t P, !∀ x, Stable t (Q x)} :
  (∀ s s' x, Inv s → P s → f s = Some (s', x) → Inv s' ∧ (∀ t', R t' s s') ∧ Q x s') → framed t P (Act f Done) Q.
Proof.
  intros Hf F HF. eapply tri_weaken; [apply (tri_quiet t (λ s, F s ∧ P s) f Q)|done|].
  - intros s s' x Hi [_ HP] E. by apply Hf.
  - intros x s _ [[? _] ?]. auto.
Qed.

(** What is known for sure can be assumed. *)
Lemma f_pure {A} t (P : S → Prop) (C : Prop) (p : prog S A) (Q : A → S → Prop) :
  (∀ s, P s → C) → (C → framed t P p Q) → framed t P p Q.
Proof. intros HC Hp F HF s Hi [? HP]. by apply (Hp (HC s HP) F HF s Hi). Qed.

(** A framed triple is a triple. *)
Lemma f_triple {A} t (P : S → Prop) (p : prog S A) (Q : A → S → Prop) : framed t P p Q → triple t P p Q.
Proof.
  intros Hp. apply (tri_weaken t P (λ s, True ∧ P s) p Q (λ a s, True ∧ Q a s)).
  - apply (Hp (λ _, True)). apply _.
  - auto.
  - by intros a s _ [_ ?].
Qed.

(** ** The pool *)

(** Every goroutine is safe, and leaves [Post] behind. *)
Definition pool_ok {A} (Post : nat → S → Prop) (s : S) (ths : gmap nat (prog S A)) : Prop :=
  Inv s ∧ map_Forall (λ t p, ensures (rely t) (guarantee t) (λ _ s, Inv s ∧ Post t s) p s) ths.

Lemma pool_step {A} Post s (ths : gmap nat (prog S A)) t p s' p' :
  pool_ok Post s ths → ths !! t = Some p → advance p s = Some (s', p') →
  pool_ok Post s' (<[t := p']> ths) ∧ ∀ t', t' ≠ t → R t' s s'.
Proof.
  intros [Hi Hths] Ht Ha. destruct (ensures_advance _ _ _ _ _ _ _ (Hths t p Ht) Ha) as [Hg Hp'].
  destruct (Hg Hi) as [Hi' Hr]. split; [|done]. split; [done|].
  intros t' q [[<- <-]|[Hne Hq]]%lookup_insert_Some; [done|].
  eapply ensures_rely; [apply _|by apply (Hths t')|]. intros _. auto.
Qed.

Lemma pool_spawn {A} Post s (ths : gmap nat (prog S A)) t p (P : S → Prop) :
  pool_ok Post s ths → triple t P p (λ _, Post t) → P s → pool_ok Post s (<[t := p]> ths).
Proof. intros [Hi Hths] Hp HP. split; [done|]. apply map_Forall_insert_2; [by apply Hp|done]. Qed.

Lemma pool_done {A} Post s (ths : gmap nat (prog S A)) t a :
  pool_ok Post s ths → ths !! t = Some (Done a) → Post t s.
Proof. intros [Hi Hths] Ht. by destruct (ensures_done _ _ _ _ _ (Hths t _ Ht)). Qed.
End triples.
