(* ===== verification/CollectorAcks.v ===== *)
(** * What an acknowledgement of the collector means

    In every interleaving of the goroutines of [Collector]: a position that the collector
    acknowledges, or offers a guest to resume from, covers only events the sink accepted
    and gaps whose report it accepted. *)

From S2P Require Import Prelude GoStrings ClientIP Event InternalEvents Messages Frame Dedup DedupPending Threads Triples Enrich HostMonitor Collector.

Definition no_key : streamKey := ("", "").

Definition wrote_event (s : collector) (k : streamKey) (q : Z) : Prop :=
  ∃ e, WroteEvent k e ∈ sink_log s ∧ Sequence (env_Event e) = q.
Definition wrote_gap (s : collector) (k : streamKey) (r : seqRange) : Prop := ∃ e, WroteGap k r e ∈ sink_log s.

(** The sink accepted the event [q] of [k], or the report of a gap that [q] is in. *)
Definition held (s : collector) (k : streamKey) (q : Z) : Prop :=
  wrote_event s k q ∨ ∃ r, wrote_gap s k r ∧ in_range q r.

(** The table began to follow [k] after [a]: the event [a + 1] opened it. *)
Definition opened (s : collector) (k : streamKey) (a : Z) : Prop := a = 0 ∨ (k, a + 1) ∈ started s.

Definition covered (s : collector) (k : streamKey) (n : Z) : Prop :=
  ∃ a, opened s k a ∧ ∀ q, is_u64 q → a < q <= n → held s k q.

Definition key_of (s : collector) (i : nat) : option streamKey := s_key <$> sessions s !! i.

(** ** The invariant *)

Definition ghost_ok (s : collector) (k : streamKey) (g : ghost) : Prop :=
  opened s k (g_anchor g) ∧ (∀ q, q ∈ g_committed g → wrote_event s k q) ∧ (∀ r, r ∈ g_reported g → wrote_gap s k r).

Definition table_ok (s : collector) : Prop :=
  ∃ h, dd_inv (mkDD (ded s) h) ∧ ∀ k, ghost_ok s k (ghost_at (mkDD (ded s) h) k).

Record session_ok (s : collector) (a : ackState) : Prop := {
  so_covered : covered s (s_key a) (ackPoint a);
  so_acked : 0 <= s_acked a;
  so_key : s_key a = no_key → ackPoint a = 0
}.

(** The position that a message states. *)
Definition stated (m : host_message) : option Z :=
  match m with SendAck a => Some (a_Sequence a) | SendReady r => Some (Messages.ResumeFrom r) | _ => None end.

Definition message_ok (s : collector) (x : nat * host_message) : Prop :=
  ∀ n, stated x.2 = Some n → ∃ k, k ≠ no_key ∧ key_of s x.1 = Some k ∧ covered s k n.

Record inv (s : collector) : Prop := {
  i_table : table_ok s;
  i_pending : tbl_u64 (ded s);
  i_sessions : map_Forall (λ _, session_ok s) (sessions s);
  i_sent : Forall (message_ok s) (sent s);
  i_crashed : NilSource ∉ crashed s
}.

(** What only grows. *)
Record mono (s s' : collector) : Prop := {
  m_log x : x ∈ sink_log s → x ∈ sink_log s';
  m_started x : x ∈ started s → x ∈ started s';
  m_keys i k : key_of s i = Some k → k ≠ no_key → key_of s' i = Some k
}.

Definition sees (t : nat) (s s' : collector) : Prop := mono s s' ∧ key_of s' t = key_of s t.

#[global] Instance mono_preorder : PreOrder mono.
Proof. split; [by split|]. intros s1 s2 s3 [A1 B1 C1] [A2 B2 C2]. split; auto. Qed.
#[global] Instance sees_preorder t : PreOrder (sees t).
Proof. split; [by split|]. intros s1 s2 s3 [H1 E1] [H2 E2]. split; [by etrans|congruence]. Qed.

Lemma opened_mono s s' k a : mono s s' → opened s k a → opened s' k a.
Proof. intros H [?|?]; [by left|right]. by apply (m_started _ _ H). Qed.
Lemma event_mono s s' k q : mono s s' → wrote_event s k q → wrote_event s' k q.
Proof. intros H (e & ? & ?). exists e. split; [by apply (m_log _ _ H)|done]. Qed.
Lemma gap_mono s s' k r : mono s s' → wrote_gap s k r → wrote_gap s' k r.
Proof. intros H (e & ?). exists e. by apply (m_log _ _ H). Qed.
Lemma held_mono s s' k q : mono s s' → held s k q → held s' k q.
Proof. intros H [?|(r & ? & ?)]; [left; by eapply event_mono|right; exists r; split; [by eapply gap_mono|done]]. Qed.
Lemma covered_mono s s' k n : mono s s' → covered s k n → covered s' k n.
Proof. intros H (a & Ha & Hq). exists a. split; [by eapply opened_mono|]. intros q ? ?. eapply held_mono; [done|auto]. Qed.
Lemma ghost_ok_mono s s' k g : mono s s' → ghost_ok s k g → ghost_ok s' k g.
Proof. intros H (? & ? & ?). split_and!; eauto using opened_mono, event_mono, gap_mono. Qed.
Lemma session_ok_mono s s' a : mono s s' → session_ok s a → session_ok s' a.
Proof. intros H [? ? ?]. split; eauto using covered_mono. Qed.
Lemma message_ok_mono s s' x : mono s s' → message_ok s x → message_ok s' x.
Proof. intros H Hx n Hn. destruct (Hx n Hn) as (k & ? & ? & ?). exists k. split_and!; [done|by apply (m_keys _ _ H)|by eapply covered_mono]. Qed.

#[global] Instance stable_covered t k n : Stable inv sees t (λ s, covered s k n).
Proof. intros s s' _ _ [H _]. by apply covered_mono. Qed.
#[global] Instance stable_gap t k r : Stable inv sees t (λ s, wrote_gap s k r).
Proof. intros s s' _ _ [H _]. by apply gap_mono. Qed.
#[global] Instance stable_event t k q : Stable inv sees t (λ s, wrote_event s k q).
Proof. intros s s' _ _ [H _]. by apply event_mono. Qed.
#[global] Instance stable_own t x : Stable inv sees t (λ s, key_of s t = x).
Proof. intros s s' _ _ [_ H]. by rewrite H. Qed.
#[global] Instance stable_key t i k : Stable inv sees t (λ s, k ≠ no_key ∧ key_of s i = Some k).
Proof. intros s s' _ _ [H _] [Hk Hi]. split; [done|]. by apply (m_keys _ _ H). Qed.

(** ** Actions *)

(** The ghosts of the streams after an operation on one of them. *)
Lemma fresh_ok s k : ghost_ok s k fresh_ghost.
Proof. split_and!; [by left|set_solver|]. intros r []%elem_of_nil. Qed.

Lemma inv_table s s' h' :
  inv s → mono s s' → sessions s' = sessions s → sent s' = sent s → crashed s' = crashed s → tbl_u64 (ded s') →
  dd_inv (mkDD (ded s') h') → (∀ k, ghost_ok s' k (ghost_at (mkDD (ded s') h') k)) → inv s'.
Proof.
  intros [_ _ H3 H4 H5] Hm Es Et Ec Hu Hd Hg. split.
  - by exists h'.
  - done.
  - rewrite Es. intros i a Ha. eapply session_ok_mono; [done|]. by apply (H3 i).
  - rewrite Et. eapply Forall_impl; [done|]. intros x. by apply message_ok_mono.
  - by rewrite Ec.
Qed.

(** What leaves the table alone. *)
Lemma inv_keep s s' :
  inv s → mono s s' → ded s' = ded s → map_Forall (λ _, session_ok s') (sessions s') →
  (∀ x, x ∈ sent s' → x ∈ sent s ∨ message_ok s' x) → (NilSource ∈ crashed s' → NilSource ∈ crashed s) → inv s'.
Proof.
  intros [(h & H1 & H1') H2 _ H4 H5] Hm Ed Hs Ht Hc. split.
  - exists h. rewrite Ed. split; [done|]. intros k. eapply ghost_ok_mono; [done|apply H1'].
  - by rewrite Ed.
  - done.
  - apply Forall_forall. intros x [Hx|Hx]%Ht; [|done]. eapply message_ok_mono; [done|].
    by eapply (proj1 (Forall_forall _ _) H4).
  - by intros ?%Hc.
Qed.

(** An action that changes none of what the invariant is about. *)
Record same (s s' : collector) : Prop := {
  sm_ded : ded s' = ded s; sm_sessions : sessions s' = sessions s; sm_log : sink_log s' = sink_log s;
  sm_sent : sent s' = sent s; sm_started : started s' = started s;
  sm_crashed : NilSource ∈ crashed s' → NilSource ∈ crashed s
}.

Lemma same_sees s s' : same s s' → ∀ t, sees t s s'.
Proof. intros [E1 E2 E3 E4 E5 E6] t. split; [split|]; unfold key_of; by rewrite ?E2, ?E3, ?E5. Qed.

Lemma same_inv s s' : same s s' → inv s → inv s'.
Proof.
  intros Hs Hi. destruct (same_sees s s' Hs 0%nat) as [Hm _]. destruct Hs as [E1 E2 E3 E4 E5 E6].
  apply (inv_keep s); [done|done|done| | |done].
  - rewrite E2. intros i a Ha. eapply session_ok_mono; [done|]. by apply (i_sessions _ Hi i).
  - intros x. rewrite E4. auto.
Qed.

Abbreviation does := (framed inv sees).
Abbreviation bind_ := (f_bind inv sees (HR := sees_preorder)).
Abbreviation quiet_prog t p := (framed inv sees t (λ _, True) p (λ _ _, True)).

Lemma q_same {X} t (f : collector → option (collector * X)) :
  (∀ s s' x, f s = Some (s', x) → same s s') → quiet_prog t (Act f Done).
Proof.
  intros Hf. apply f_act; [apply _..|]. intros s s' x Hi _ E. apply Hf in E.
  split_and!; [by eapply same_inv|by apply same_sees|done].
Qed.

Lemma q_bind {A B} t (p : P A) (c : A → P B) : quiet_prog t p → (∀ a, quiet_prog t (c a)) → quiet_prog t (p ≫= c).
Proof. intros Hp Hc. eapply bind_; [exact Hp|]. intros a. apply Hc. Qed.
Lemma q_ret {A} t (a : A) : quiet_prog t (mret a).
Proof. by apply f_ret; [apply _|]. Qed.
Lemma q_pre {A} t (Pre : collector → Prop) (p : P A) : framed inv sees t Pre p (λ _ _, True) → (∀ s, inv s → Pre s) → quiet_prog t p.
Proof. intros Hp HP. by eapply f_weaken; [exact Hp|auto|]. Qed.

#[global] Instance stable_log t (C : Prop) x : Stable inv sees t (λ s, C → x ∈ sink_log s).
Proof. intros s s' _ _ [H _] Hx ?. by apply (m_log _ _ H), Hx. Qed.
#[global] Instance stable_message t x : Stable inv sees t (λ s, message_ok s x).
Proof. intros s s' _ _ [H _]. by apply message_ok_mono. Qed.

Lemma q_both {X} t (f : collector → collector * X) : (∀ s, same s (fst (f s))) → quiet_prog t (both f).
Proof. intros Hf. apply q_same. intros s s' x [= E]. specialize (Hf s). by rewrite E in Hf. Qed.
Lemma q_write t (f : collector → collector) : (∀ s, same s (f s)) → quiet_prog t (write f).
Proof. intros Hf. apply q_same. intros s s' x [= <- _]. done. Qed.
Lemma q_read {X} t (f : collector → X) : quiet_prog t (read f).
Proof. apply q_same. intros s s' x [= <- _]. done. Qed.

Lemma q_any {A} t (Pre : collector → Prop) (p : P A) : quiet_prog t p → does t Pre p (λ _ _, True).
Proof. intros Hp. by eapply f_weaken; [exact Hp|..]. Qed.

(** Sending and writing. *)
Lemma grow_sees s s' x y : sessions s' = sessions s → sink_log s' = sink_log s ++ x →
  started s' = started s ++ y → ∀ t, sees t s s'.
Proof.
  intros E2 E3 E4 t. split; [split|]; unfold key_of; rewrite ?E2, ?E3, ?E4; [set_solver..|done|done].
Qed.

Lemma sessions_kept s s' : inv s → mono s s' → sessions s' = sessions s → map_Forall (λ _, session_ok s') (sessions s').
Proof. intros Hi Hm ->. intros i a Ha. eapply session_ok_mono; [done|]. by apply (i_sessions _ Hi i). Qed.

Section programs.
Context `{N : NetIP} (cfg : hostConfig) (env : nat → answer).

Lemma does_send t i m : does t (λ s, message_ok s (i, m)) (send env i m) (λ _ _, True).
Proof.
  apply f_act; [apply _..|]. intros s s' x Hi Hm [= <- <-].
  set (s' := set_sent _ _). assert (∀ t, sees t s s') as Hs by by apply (grow_sees s s' [] []); rewrite ?app_nil_r.
  destruct (Hs 0%nat) as [Hmono _]. split_and!; [|done|done].
  apply (inv_keep s); [done|done|done|by apply (sessions_kept s)| |done].
  intros y [Hy| ->%list_elem_of_singleton]%elem_of_app; [by left|right]. by eapply message_ok_mono.
Qed.

Lemma q_send t i m : stated m = None → quiet_prog t (send env i m).
Proof. intros Hm. eapply q_pre; [apply does_send|]. intros s _ n Hn. simpl in Hn. congruence. Qed.

Lemma does_Write t mk e : does t (λ _, True) (sink_Write env mk e) (λ err s, err = None → mk e ∈ sink_log s).
Proof.
  apply f_act; [apply _..|]. unfold sink_Write, asking, both. intros s s' x Hi _ H.
  destruct (a_ok (env (asked s))); injection H as <- <-.
  - set (s' := set_sink_log _ _). assert (∀ t, sees t s s') as Hs by by apply (grow_sees s s' [mk e] []); rewrite ?app_nil_r.
    destruct (Hs 0%nat) as [Hmono _]. split_and!; [|done|set_solver].
    apply (inv_keep s); [done|done|done|by apply (sessions_kept s)|by left|done].
  - assert (same s (set_asked s (S (asked s)))) as Hs by done.
    split_and!; [by eapply same_inv|by apply same_sees|done].
Qed.

Lemma q_now t : quiet_prog t (now env).
Proof. by apply q_both. Qed.
Lemma q_expired t : quiet_prog t (expired env).
Proof. by apply q_both. Qed.
Lemma q_count t c n : quiet_prog t (count c n).
Proof. by apply q_write. Qed.
Lemma q_panic t : quiet_prog t (panic EmptyAlerts).
Proof. apply q_write. intros s. split; [done..|]. by intros [|?]%elem_of_cons. Qed.

Lemma does_publish t mk src e : does t (λ _, True) (publish env mk src e) (λ err s, err = None → ∃ x, mk x ∈ sink_log s).
Proof.
  eapply bind_; [apply q_now|]. intros n. eapply f_weaken; [apply does_Write|done|]. eauto.
Qed.
Lemma q_publish t mk src e : quiet_prog t (publish env mk src e).
Proof. by eapply f_weaken; [apply does_publish|..]. Qed.

(** ** The table *)

Lemma quiet_ghost s d' h k : quiet (ded s) d' → (∀ k, ghost_ok s k (ghost_at (mkDD (ded s) h) k)) →
  ghost_ok s k (ghost_at (mkDD d' h) k).
Proof.
  intros Hq Hg. unfold ghost_at. simpl. destruct (streams d' !! k) as [x|] eqn:E; [|apply fresh_ok].
  destruct (Hq k x E) as (y & Hy & _). specialize (Hg k). unfold ghost_at in Hg. simpl in Hg. by rewrite Hy in Hg.
Qed.

Lemma quiet_table s s' : inv s → quiet (ded s) (ded s') → tbl_u64 (ded s') →
  sessions s' = sessions s → sent s' = sent s → crashed s' = crashed s → sink_log s' = sink_log s → started s' = started s → inv s' ∧ ∀ t, sees t s s'.
Proof.
  intros Hi Hq Hu E1 E2 Ec E3 E4. assert (∀ t, sees t s s') as Hs.
  { intros t. split; [split|]; unfold key_of; by rewrite ?E1, ?E3, ?E4. }
  split; [|done]. destruct (Hs 0%nat) as [Hm _]. destruct (i_table _ Hi) as (h & Hd & Hg).
  apply (inv_table s s' h); [done..| |].
  - by apply (quiet_inv (mkDD (ded s) h)).
  - intros k. eapply ghost_ok_mono; [done|]. by apply (quiet_ghost s).
Qed.

Lemma does_table {X} t (f : answer → dedup → dedup * X) (Q : X → Prop) :
  (∀ a d, tbl_u64 d → quiet d (fst (f a d)) ∧ tbl_u64 (fst (f a d)) ∧ Q (snd (f a d))) →
  does t (λ _, True) (table env f) (λ x _, Q x).
Proof.
  intros Hf. apply f_act; [apply _..|]. unfold table, asking, both. intros s s' x Hi _ H. simpl in H.
  destruct (Hf (env (asked s)) (ded s) (i_pending _ Hi)) as (H1 & H2 & H3).
  destruct (f _ (ded s)) as [d y]. injection H as <- <-. destruct (quiet_table s (set_ded (set_asked s (S (asked s))) d)) as [? ?]; auto.
Qed.

(** An operation on the stream [k] that gives it the ghost [g]. *)
Lemma table_at s s' k h g :
  inv s → mono s s' → (∀ k, ghost_ok s k (ghost_at (mkDD (ded s) h) k)) →
  dd_inv (set_gh (mkDD (ded s) h) (ded s') k g) → only_at k (ded s) (ded s') → ghost_ok s' k g → tbl_u64 (ded s') →
  sessions s' = sessions s → sent s' = sent s → crashed s' = crashed s → inv s'.
Proof.
  intros Hi Hm Hh Hd Ho Hg Hu E1 E2 Ec. eapply (inv_table s s'); [done..|].
  intros k'. unfold ghost_at. simpl. destruct (streams (ded s') !! k') as [x|] eqn:E; [|apply fresh_ok].
  destruct (decide (k' = k)) as [->|Hne]; [by rewrite lookup_insert_eq|]. rewrite lookup_insert_ne by done.
  apply Ho in E; [|done]. eapply ghost_ok_mono; [done|]. specialize (Hh k'). unfold ghost_at in Hh. simpl in Hh.
  by rewrite E in Hh.
Qed.

Lemma written_covered s k x : inv s → streams (ded s) !! k = Some x → covered s k (written x).
Proof.
  intros Hi Hx. destruct (i_table _ Hi) as (h & Hd & Hg). destruct (Hg k) as (Ha & Hc & Hr).
  pose proof (Hd k x Hx) as [_ _ _ Hw]. unfold ghost_at in *. simpl in *. rewrite Hx in *.
  eexists. split; [exact Ha|]. intros q Hq Hlt. destruct (Hw q Hq Hlt) as [?|(r & Hr' & ?)]; [left; auto|right; eauto].
Qed.

Lemma covered_0 s k : covered s k 0.
Proof. exists 0. split; [by left|]. intros q _ H. lia. Qed.

Lemma does_ResumeFrom t k : does t (λ _, True) (dd_ResumeFrom env k) (λ r s, covered s k r).
Proof.
  apply f_act; [apply _..|]. unfold dd_ResumeFrom, table, asking, both. intros s s' x Hi _ H. simpl in H.
  pose proof (ResumeFrom_quiet (ded s) k) as H1. pose proof (ResumeFrom_u64 (ded s) k (i_pending _ Hi)) as H2.
  destruct (Dedup.ResumeFrom (ded s) k) as [d y] eqn:E. injection H as <- <-.
  destruct (quiet_table s (set_ded (set_asked s (S (asked s))) d)) as [Hi' Hs]; [done..|]. split_and!; [done|done|].
  unfold Dedup.ResumeFrom in E. destruct (streams (ded s) !! k) as [z|] eqn:Ez; injection E as <- <-; [|apply covered_0].
  eapply covered_mono; [apply (Hs 0%nat)|]. by apply written_covered.
Qed.

(** Opening a stream. *)
Lemma anchored_ok s s' k seq g :
  mono s s' → (anchors (stream_at (ded s) k) seq = true → (k, seq) ∈ started s') →
  ghost_ok s k g → ghost_ok s' k (anchored (ded s) k seq g).
Proof.
  intros Hm Hs Hg. apply (ghost_ok_mono s s') in Hg as (H1 & H2 & H3); [|done]. unfold anchored.
  destruct (anchors _ _); [|done]. split_and!; [|done|done]. right. simpl. replace (seq - 1 + 1) with seq by lia. auto.
Qed.

Definition open_state (s : collector) (d : dedup) (l : list (streamKey * Z)) : collector :=
  set_started (set_ded s d) (started s ++ l).

Lemma open_mono s d l : mono s (open_state s d l) ∧ ∀ t, sees t s (open_state s d l).
Proof. split; [|intros t]; [|split; [|done]]; (split; [done|simpl; set_solver|done]). Qed.

Lemma does_Check t k seq : is_u64 seq →
  does t (λ _, True) (dd_Check k seq) (λ r _, ∀ g v, Gap r = Some (g, v) → range_u64 g).
Proof.
  intros Hq. apply f_act; [apply _..|]. intros s s' x Hi _ H. unfold dd_Check, opening, both in H.
  destruct (Check_u64 (ded s) k seq (i_pending _ Hi)) as [H1 H2]. destruct (i_table _ Hi) as (h & Hd & Hg).
  pose proof (Check_inv (mkDD (ded s) h) k seq Hq Hd) as H3. destruct (Check_maps (ded s) k seq) as [H4 _]. simpl in H3.
  destruct (Check (ded s) k seq) as [d y]. injection H as <- <-. destruct (open_mono s d (if anchors (stream_at (ded s) k) seq then [(k, seq)] else [])) as [Hm Hs].
  split_and!; [|exact Hs|done]. eapply (table_at s _ k h); [done|exact Hm|done|exact H3|done| |done|done|done|done].
  eapply anchored_ok; [exact Hm| |apply Hg]. simpl. intros ->. set_solver.
Qed.

Lemma does_reserve t k seq src : is_u64 seq → quiet_prog t (dd_reserve k seq src).
Proof.
  intros Hq. apply f_act; [apply _..|]. intros s s' x Hi _ H. unfold dd_reserve, opening, both in H.
  pose proof (reserve_u64 (ded s) k seq src (i_pending _ Hi)) as H1. destruct (i_table _ Hi) as (h & Hd & Hg).
  destruct (reserve_maps (ded s) k seq src) as [H4 _].
  destruct (reserveArrival (ded s) k seq src) as [d y] eqn:E.
  pose proof (reserve_inv (mkDD (ded s) h) k seq src d y Hq Hd E) as H3. injection H as <- <-.
  destruct (open_mono s d (if bool_decide (is_Some y) && anchors (stream_at (ded s) k) seq then [(k, seq)] else [])) as [Hm Hs].
  split_and!; [|exact Hs|done]. eapply (table_at s _ k h); [done|exact Hm|done|exact H3|done| |done|done|done|done].
  destruct y; [|by eapply ghost_ok_mono]. eapply anchored_ok; [exact Hm| |apply Hg].
  simpl. intros ->. set_solver.
Qed.

(** Committing an event that was written. *)
Lemma Commit_result (d : @dedup Source) k seq order x : streams (fst (Commit d k seq order)) !! k = Some x →
  (snd (Commit d k seq order)).1 = written x.
Proof.
  unfold Commit. destruct (stream d k) as [d' os] eqn:Es. apply stream_spec in Es as (_ & _ & _ & Hs).
  destruct os as [y|]; [|simpl; by rewrite Hs]. unfold commit. destruct (_ <=? _).
  - simpl. rewrite lookup_insert_eq. by intros [= <-].
  - destruct (trim _ _) as [z n] eqn:Et. simpl. rewrite lookup_insert_eq. intros [= <-].
    unfold trim in Et. by destruct (_ <=? _); injection Et as <- _.
Qed.

Lemma does_Commit t k seq : is_u64 seq →
  does t (λ s, wrote_event s k seq) (dd_Commit env k seq) (λ r s, covered s k r.1).
Proof.
  intros Hq. apply f_act; [apply _..|]. intros s s' x Hi Hw H. unfold dd_Commit, table, asking, both in H. simpl in H.
  set (order := a_order (env (asked s)) k) in *.
  pose proof (Commit_u64 (ded s) k seq order (i_pending _ Hi)) as H1. destruct (i_table _ Hi) as (h & Hd & Hg).
  pose proof (dedup_Commit_inv (mkDD (ded s) h) k seq order Hq Hd) as H3. destruct (Commit_maps (ded s) k seq order) as [H4 _].
  pose proof (Commit_result (ded s) k seq order) as H5. simpl in H3.
  destruct (Commit (ded s) k seq order) as [d y] eqn:Ec. injection H as <- <-. simpl in *.
  set (s' := if 0 <? y.2 then _ else _).
  assert (ded s' = d ∧ sessions s' = sessions s ∧ sent s' = sent s ∧ crashed s' = crashed s ∧ sink_log s' = sink_log s ∧
    started s' = started s) as (E1 & E2 & E3 & E4 & E5 & E6) by (unfold s'; by destruct (0 <? _)).
  assert (∀ t, sees t s s') as Hs by by apply (grow_sees s s' [] []); rewrite ?app_nil_r.
  assert (inv s') as Hi'.
  { eapply (table_at s s' k h); [done|apply (Hs 0%nat)|done|by rewrite E1|by rewrite E1| |by rewrite E1|done|done|done].
    eapply ghost_ok_mono; [apply (Hs 0%nat)|]. destruct (Hg k) as (G1 & G2 & G3). split_and!; [exact G1| |exact G3]. simpl.
    intros q [->%elem_of_singleton|Hin]%elem_of_union; [exact Hw|exact (G2 q Hin)]. }
  split_and!; [done|done|]. destruct (streams d !! k) as [z|] eqn:Ez.
  - rewrite (H5 z eq_refl). apply (written_covered s'); [done|by rewrite E1].
  - unfold Commit in Ec. destruct (stream (ded s) k) as [d' [w|]]; [|injection Ec as <- <-; apply covered_0].
    destruct (commit _ _ _ _) as [w' r]. injection Ec as <- <-. simpl in Ez. by rewrite lookup_insert_eq in Ez.
Qed.

(** Finishing a report. *)
Lemma does_finish t p (ok : bool) :
  does t (λ s, range_u64 (p_gap p) ∧ (ok = true → wrote_gap s (p_key p) (p_gap p))) (dd_finishGap env p ok) (λ _ _, True).
Proof.
  assert (Stable inv sees t (λ s, ok = true → wrote_gap s (p_key p) (p_gap p))) as Hst.
  { intros s s' _ _ [H _] Hx ?. by eapply gap_mono, Hx. }
  apply f_act; [apply _..|]. intros s s' x Hi [[Hf Hl] Hw] H. unfold dd_finishGap, table, asking, both in H. simpl in H.
  set (order := a_order (env (asked s)) (p_key p)) in *.
  pose proof (finishGap_u64 (ded s) p ok order (i_pending _ Hi)) as H1. destruct ok.
  - destruct (i_table _ Hi) as (h & Hd & Hg).
    pose proof (finish_accepted_inv (mkDD (ded s) h) p order Hf Hl Hd) as H3.
    destruct (finish_maps (ded s) p order true) as [H4 _]. simpl in H3.
    destruct (finishGap (ded s) p true order) as [d y]. injection H as <- <-. simpl in *.
    set (s' := set_ded (set_asked s (S (asked s))) d). assert (∀ t, sees t s s') as Hs by done.
    split_and!; [|done|done].
    eapply (table_at s s' (p_key p) h); [done|apply (Hs 0%nat)|done|exact H3|done| |done|done|done|done].
    destruct (Hg (p_key p)) as (G1 & G2 & G3). split_and!; [exact G1|exact G2|]. simpl.
    intros r [->|?]%elem_of_cons; [exact (Hw eq_refl)|exact (G3 r H)].
  - pose proof (finish_failed_quiet (ded s) p order) as H2.
    destruct (finishGap (ded s) p false order) as [d y]. injection H as <- <-.
    destruct (quiet_table s (set_ded (set_asked s (S (asked s))) d)) as [? ?]; auto.
Qed.

Lemma q_fail t p : claim_ok p → quiet_prog t (dd_finishGap env p false).
Proof. intros [H _]. eapply q_pre; [apply does_finish|]. by split. Qed.

Lemma q_release t r : quiet_prog t (dd_release env r).
Proof.
  eapply f_weaken; [apply (does_table t _ (λ _, True))|done|done]. intros a d Hd. simpl.
  split_and!; [apply release_quiet|by apply release_u64|done].
Qed.

Lemma does_CheckReplay t k q : does t (λ _, True) (dd_CheckReplay env k q) (λ r _, ∀ g v, Gap r = Some (g, v) → range_u64 g).
Proof.
  apply (does_table t _ (λ r, ∀ g v, Gap r = Some (g, v) → range_u64 g)). intros a d Hd.
  destruct (CheckReplay_u64 d k q Hd). split_and!; [apply CheckReplay_quiet|done|done].
Qed.

(** ** Gaps *)

Lemma q_publishGap t p reason : claim_ok p → quiet_prog t (publishGap env p reason).
Proof.
  intros [Hr [src Hsrc]]. unfold publishGap. rewrite Hsrc. eapply bind_; [apply q_now|]. intros n.
  eapply bind_; [apply does_publish|]. intros err. eapply bind_.
  - eapply f_weaken; [apply does_finish| |].
    + intros s _ Hw. split; [exact Hr|]. intros He%bool_decide_eq_true. exact (Hw He).
    + done.
  - intros acc. destruct err; [|apply q_ret]. apply q_bind; [apply q_count|intros []; apply q_ret].
Qed.

Lemma q_reportGap t k src g reason : range_u64 g.1 → quiet_prog t (reportGap env k src g reason).
Proof.
  intros [Hf Hl]. unfold reportGap. eapply bind_.
  - apply (does_table t _ (λ r, ∀ p, r = Some p → claim_ok p)). intros a d Hd.
    destruct (claimGap_ok d k src (first g.1) (Dedup.last g.1) g.2 Hf Hl Hd). split_and!; [apply claimGap_quiet|done|done].
  - intros [p|]; [|by apply f_ret; [apply _|]].
    apply (f_pure _ _ t _ (claim_ok p)); [auto|]. intros Hc. apply q_any, q_bind; [by apply q_publishGap|intros; apply q_ret].
Qed.

Lemma q_retry_loop t n : ∀ p, claim_ok p → quiet_prog t (retry_loop env n p).
Proof.
  induction n as [|n IH]; intros p Hp; cbn [retry_loop]; [apply q_bind; [by apply q_fail|intros; apply q_ret]|].
  apply q_bind; [apply q_expired|]. intros [|]; [apply q_bind; [by apply q_fail|intros; apply q_ret]|].
  apply q_bind; [by apply q_publishGap|]. intros [|]; [|apply q_ret]. eapply bind_.
  - apply (does_table t _ (λ r, ∀ p, r = Some p → claim_ok p)). intros a d Hd.
    destruct (takeNext_ok d (p_key p) (a_order a (p_key p)) Hd). split_and!; [apply takeNext_quiet|done|done].
  - intros [p'|]; [|by apply f_ret; [apply _|]]. apply (f_pure _ _ t _ (claim_ok p')); [auto|]. intros Hc. apply q_any. auto.
Qed.

Lemma q_retryPendingGaps t : quiet_prog t (retryPendingGaps env).
Proof.
  unfold retryPendingGaps. eapply bind_.
  - apply (does_table t _ (λ r, ∀ p, r = Some p → claim_ok p)). intros a d Hd.
    destruct (takePending_ok d (a_order a) Hd). split_and!; [apply takePending_quiet|done|done].
  - intros [p|]; [|by apply f_ret; [apply _|]]. apply (f_pure _ _ t _ (claim_ok p)); [auto|]. intros Hc. apply q_any. by apply q_retry_loop.
Qed.

(** ** What does not touch the table *)

Lemma q_publish_loop t n : quiet_prog t (publish_loop env n).
Proof.
  induction n as [|n IH]; cbn [publish_loop]; [apply q_ret|]. apply q_bind; [apply q_expired|]. intros [|]; [apply q_ret|].
  apply q_bind; [apply q_read|]. intros [a|]; [|apply q_panic]. apply q_bind; [apply q_publish|].
  intros [|]; [apply q_ret|]. apply q_bind; [|intros [|]; [exact IH|apply q_panic]].
  apply q_both. intros s. by destruct (m_pending (mon s)).
Qed.

Lemma q_publishPending t u : quiet_prog t (publishPending env u).
Proof.
  apply q_bind; [apply q_both; intros s; by destruct (publishing (mon s))|].
  intros [n|]; [|apply q_ret]. apply q_bind; [apply q_publish_loop|]. intros _. by apply q_write.
Qed.

Lemma q_monitor_seen t u p src : quiet_prog t (monitor_seen cfg env u p src).
Proof.
  apply q_bind; [apply q_now|]. intros n. apply q_bind; [apply q_now|]. intros n'. apply q_bind.
  - apply q_both. intros s. by destruct (seen _ _ _ _ _ _).
  - intros [|]; [apply q_publishPending|apply q_ret].
Qed.

Lemma q_monitor_tick t u e : quiet_prog t (monitor_tick cfg env u e).
Proof.
  apply q_bind; [apply q_now|]. intros n. apply q_bind; [apply q_now|]. intros n'. apply q_bind; [by apply q_write|].
  intros _. apply q_bind; [apply q_now|]. intros n2. apply q_bind; [by apply q_both|]. intros _. apply q_publishPending.
Qed.

Lemma q_releaseWrite t u k g : quiet_prog t (releaseWrite u k g).
Proof. apply q_write. intros s. by destruct (gates s !! g). Qed.

Lemma q_lockWrite t u k : quiet_prog t (lockWrite env u k).
Proof.
  apply q_bind; [apply q_expired|]. intros [|]; [apply q_ret|]. apply q_bind.
  { apply q_both. intros s. by destruct (gate_of s !! k). }
  intros g. apply q_bind.
  - apply q_same. intros s s' x H. cbv zeta in H. destruct (a_late _); [by injection H as <- _|].
    change (gates (set_asked s _)) with (gates s) in H. destruct (gates s !! g) as [[? [|] ?]|]; [done| |done]. by injection H as <- _.
  - intros [|]; [apply q_ret|]. apply q_bind; [apply q_releaseWrite|intros; apply q_ret].
Qed.

Lemma q_unlockWrite t u k g : quiet_prog t (unlockWrite u k g).
Proof.
  apply q_bind; [|intros _; apply q_releaseWrite]. apply q_same. intros s s' x H.
  destruct (gates s !! g) as [[? [|] ?]|]; [|done|done]. by injection H as <- _.
Qed.

Lemma q_lockEventWrite t u p src : quiet_prog t (lockEventWrite env u p src).
Proof.
  apply q_bind; [apply q_lockWrite|]. intros [g|]; [|apply q_ret]. destruct (_ || _); [apply q_ret|].
  apply q_bind; [apply q_lockWrite|]. intros [v|]; [apply q_ret|]. apply q_bind; [apply q_unlockWrite|intros; apply q_ret].
Qed.

Lemma q_unlockEventWrite t u p src g : quiet_prog t (unlockEventWrite u p src g).
Proof.
  apply q_bind; [|intros _; apply q_unlockWrite]. destruct g.2; [apply q_unlockWrite|apply q_ret].
Qed.

Lemma q_violation {A} t i c m : quiet_prog t (violation (A := A) env i c m).
Proof. apply q_bind; [by apply q_send|intros; apply q_ret]. Qed.

Lemma q_requireResolvedIdentity t i p src : quiet_prog t (requireResolvedIdentity cfg env i p src).
Proof.
  apply q_bind; [apply q_now|]. intros n. apply q_bind; [apply q_read|]. intros [|]; [|apply q_ret].
  apply q_bind; [by apply q_send|intros; apply q_ret].
Qed.

Lemma q_finish t i id p src err : quiet_prog t (finish env i id p src err).
Proof.
  assert (∀ e c, quiet_prog t (n ← now env; publish env WroteInternal src (NewInternal n TypeProtocolViolation SeverityWarning
         {[ "reason" := AnyString (herr_text e); "code" := AnyString (code_string c); "cid" := logCID p;
            "peer" := AnyString (addr p); "hypervisor_backed" := AnyBool (vsock p); "session" := AnyString id ]});; mret ())) as Hr.
  { intros e c. apply q_bind; [apply q_now|]. intros n. apply q_bind; [apply q_publish|intros; apply q_ret]. }
  unfold finish. destruct err as [[]|]; try apply q_ret.
  - apply q_bind; [apply q_count|]. intros _. apply Hr.
  - apply q_bind; [apply q_count|]. intros _. apply q_bind; [by apply q_send|]. intros _. apply Hr.
Qed.

Lemma q_reject t i p src reason : quiet_prog t (reject env i p src reason).
Proof.
  apply q_bind; [apply q_count|]. intros _. apply q_bind; [by apply q_send|]. intros _.
  apply q_bind; [apply q_now|]. intros n. apply q_bind; [apply q_publish|intros; apply q_ret].
Qed.

(** ** Acknowledgements *)

(** Session [i] serves the stream [k]. *)
Definition serves (i : nat) (k : streamKey) (s : collector) : Prop := k ≠ no_key ∧ key_of s i = Some k.
#[local] Instance stable_serves t i k : Stable inv sees t (serves i k).
Proof. apply stable_key. Qed.

Lemma keep {A} t (F : collector → Prop) (p : P A) `{!Stable inv sees t F} : quiet_prog t p → does t F p (λ _, F).
Proof.
  intros Hp. apply (f_weaken inv sees t F (λ s, F s ∧ True) p (λ _, F) (λ _ s, F s ∧ True)).
  - by apply f_frame.
  - auto.
  - by intros a s _ [? _].
Qed.

Lemma keep_and {A} t (F : collector → Prop) (p : P A) (Q : A → collector → Prop) `{!Stable inv sees t F} :
  does t (λ _, True) p Q → does t F p (λ a s, F s ∧ Q a s).
Proof.
  intros Hp. apply (f_weaken inv sees t F (λ s, F s ∧ True) p (λ a s, F s ∧ Q a s) (λ a s, F s ∧ Q a s)).
  - by apply f_frame.
  - auto.
  - auto.
Qed.

Lemma alter_at {A} (f : A → A) (m : gmap nat A) i a : m !! i = Some a → alter f i m = <[i := f a]> m.
Proof. intros H. rewrite <- (insert_id m i a H) at 1. apply alter_insert_eq. Qed.

(** A session changes and keeps its key. *)
Lemma session_update s i a a' : inv s → sessions s !! i = Some a → s_key a' = s_key a → session_ok s a' →
  inv (set_sessions s (<[i := a']> (sessions s))) ∧ ∀ t, sees t s (set_sessions s (<[i := a']> (sessions s))).
Proof.
  intros Hi Ha Hk Hok. set (s' := set_sessions s _).
  assert (∀ j, key_of s' j = key_of s j) as Hkeys.
  { intros j. unfold key_of. simpl. destruct (decide (i = j)) as [<-|]; [|by rewrite lookup_insert_ne].
    rewrite lookup_insert_eq, Ha. simpl. by rewrite Hk. }
  assert (mono s s') as Hm by (split; [done|done|]; intros j k; by rewrite Hkeys).
  split; [|by split]. apply (inv_keep s); [done|done|done| |by left|done].
  intros j b. simpl. intros [[_ <-]|[_ Hb]]%lookup_insert_Some; (eapply session_ok_mono; [done|]); [done|]. by apply (i_sessions _ Hi j).
Qed.

Lemma q_flushAck t i : quiet_prog t (flushAck env i).
Proof.
  eapply (bind_ t _ _ _ (λ q s, match q with Some n => message_ok s (i, SendAck (mkAck n)) | None => True end)).
  - apply f_act; [apply _|intros [n|]; apply _|]. intros s s' x Hi _ H. unfold both in H.
    destruct (sessions s !! i) as [a|] eqn:Ea; [|by injection H as <- <-].
    destruct (Z.leb_spec (ackPoint a) (s_acked a)) as [|Hlt]; [by injection H as <- <-|]. injection H as <- <-.
    destruct (i_sessions _ Hi i a Ea) as [H1 H2 H3].
    destruct (session_update s i a (mkAckState (s_key a) (ackPoint a) (ackPoint a) 0 (signal a))) as [Hi' Hs]; [done..| |].
    { split; simpl; [done|lia|done]. }
    split_and!; [done|done|]. intros n [= <-]. exists (s_key a). split_and!.
    + intros E. rewrite H3 in Hlt by done. lia.
    + unfold key_of. simpl. by rewrite lookup_insert_eq.
    + eapply covered_mono; [apply (Hs 0%nat)|done].
  - intros [n|]; [apply does_send|apply q_ret].
Qed.

Lemma q_take_wake t i w : quiet_prog t (take_wake cfg i w).
Proof.
  apply f_act; [apply _..|]. intros s s' x Hi _ H. destruct w; [done| |].
  - destruct (sessions s !! i) as [a|] eqn:Ea; [|done]. destruct (signal a); [|done]. injection H as <- <-.
    destruct (i_sessions _ Hi i a Ea) as [H1 H2 H3].
    destruct (session_update s i a (mkAckState (s_key a) (ackPoint a) (s_acked a) (s_pending a) false)) as [Hi' Hs]; [done..|].
    auto.
  - destruct (0 <? _); [|done]. by injection H as <- <-.
Qed.

Lemma q_ackLoop t i ws : quiet_prog t (ackLoop cfg env i ws).
Proof.
  assert (∀ w ws, quiet_prog t (ackLoop cfg env i ws) → quiet_prog t (take_wake cfg i w;; ok ← flushAck env i; if ok : bool then ackLoop cfg env i ws else mret ())) as H.
  { intros w l Hl. apply q_bind; [apply q_take_wake|]. intros _. apply q_bind; [apply q_flushAck|].
    intros [|]; [done|apply q_ret]. }
  induction ws as [|[] ws IH]; cbn [ackLoop]; [apply q_ret|apply q_ret|by apply H|by apply H].
Qed.

Lemma q_drain t i : quiet_prog t (drain env i).
Proof.
  apply q_bind; [apply q_flushAck|]. intros _. apply q_bind; [by apply q_send|]. intros _. apply q_ret.
Qed.

Lemma does_advanceAck t i k point : does t (λ s, serves i k s ∧ covered s k point) (advanceAck cfg i point) (λ _ _, True).
Proof.
  apply f_act; [apply _..|]. intros s s' x Hi [[Hk Hi2] Hc] [= <- <-].
  unfold key_of in Hi2. destruct (sessions s !! i) as [a|] eqn:Ea; [|done]. simpl in Hi2. injection Hi2 as Hi2.
  rewrite (alter_at _ _ _ _ Ea). eapply session_update in Ea as [? ?]; [by split_and!|done|done|].
  destruct (i_sessions _ Hi i a Ea) as [H1 H2 H3]. split; simpl; [|done|intros E; congruence].
  destruct (_ <? _); [by rewrite Hi2|done].
Qed.

(** ** Sessions *)

Definition gap_ok (r : dedupResult) : Prop := ∀ g v, Gap r = Some (g, v) → range_u64 g.

Lemma does_accept_event t i p k src e : is_u64 (Sequence e) → does t (serves i k) (accept_event cfg env i p k src e) (λ _ _, True).
Proof.
  intros Hq. unfold accept_event. eapply bind_; [apply keep, q_count; apply _|]. intros ?.
  eapply bind_; [apply keep, q_monitor_seen; apply _|]. intros ?.
  eapply bind_; [apply keep_and; [apply _|by apply does_Check]|]. intros res.
  eapply (bind_ t _ _ _ (λ r s, serves i k s ∧ gap_ok r)).
  { destruct (_ && _); [|by apply f_ret; [apply _|]].
    apply (f_weaken inv sees t _ (serves i k) _ _ (λ r s, serves i k s ∧ gap_ok r)); [|by intros s _ [? _]|auto].
    apply keep_and; [apply _|]. eapply bind_; [apply q_retryPendingGaps|]. intros ?. by apply does_Check. }
  intros r. apply (f_pure inv sees t _ (gap_ok r)); [by intros s [_ ?]|]. intros Hg.
  apply (f_weaken inv sees t _ (serves i k) _ _ (λ _ _, True)); [|by intros s _ [? _]|auto].
  eapply bind_.
  { apply keep; [apply _|]. destruct (Gap r) as [[g v]|] eqn:Eg; [apply q_reportGap; by eapply Hg|apply q_ret]. }
  intros ?. destruct (Blocked r); [apply q_any, q_ret|]. destruct (Duplicate r).
  { eapply bind_; [apply keep, q_count; apply _|]. intros ?.
    eapply bind_; [apply keep_and; [apply _|apply does_ResumeFrom]|]. intros n.
    eapply bind_; [apply does_advanceAck|]. intros ?. apply q_ret. }
  eapply bind_; [apply keep, q_now; apply _|]. intros n.
  eapply bind_; [apply keep_and; [apply _|apply does_Write]|]. intros [err|].
  { apply q_any. apply q_bind; [apply q_count|]. intros ?. apply q_bind; [apply q_read|]. intros through.
    apply q_bind; [apply q_now|]. intros n'. apply q_bind; [apply q_publish|intros; apply q_ret]. }
  eapply bind_; [apply keep, q_count; apply _|]. intros ?. eapply (bind_ t _ _ _ (λ r s, serves i k s ∧ covered s k r.1)).
  - apply (f_weaken inv sees t _ (λ s, serves i k s ∧ wrote_event s k (Sequence e)) _ _ (λ r s, serves i k s ∧ covered s k r.1)); [|  |auto].
    + apply f_frame; [apply _|by apply does_Commit].
    + intros s _ [H1 H2]. split; [done|]. eexists. split; [by apply H2|done].
  - intros r'. eapply bind_; [apply does_advanceAck|]. intros ?. apply q_ret.
Qed.

Lemma does_admit_event t i p k src e : is_u64 (Sequence e) → does t (serves i k) (admit_event cfg env i p k src e) (λ _ _, True).
Proof.
  intros Hq. unfold admit_event. eapply bind_; [apply keep; [apply _|by apply does_reserve]|]. intros a.
  eapply (bind_ t _ _ _ (λ _, serves i k)).
  { destruct a; [by apply f_ret; [apply _|]|]. apply keep; [apply _|].
    apply q_bind; [apply q_retryPendingGaps|]. intros ?. by apply does_reserve. }
  intros [r|]; [|apply q_any, q_ret]. eapply bind_; [apply keep, q_requireResolvedIdentity; apply _|]. intros err.
  eapply bind_.
  { destruct err; [apply q_any, q_ret|]. eapply bind_; [apply keep, q_lockEventWrite; apply _|].
    intros [g|]; [|apply q_any, q_ret]. eapply bind_; [by apply does_accept_event|]. intros err.
    apply q_bind; [apply q_unlockEventWrite|intros; apply q_ret]. }
  intros err'. apply q_bind; [apply q_release|intros; apply q_ret].
Qed.

(** The numbers in a frame are what they are on the wire. *)
Definition inbound_ok (f : inbound) : Prop :=
  match f with InEvent _ (inr (mkEventMessage (Some e))) => is_u64 (Sequence e) | _ => True end.

Lemma does_handleEvent t i p k src seq m : inbound_ok (InEvent seq m) →
  does t (serves i k) (handleEvent cfg env i p k src seq m) (λ _ _, True).
Proof.
  intros Hm. unfold handleEvent.
  assert (∀ c x, does t (serves i k) (r ← violation (A := ()) env i c x; mret (match r with inl e => Some e | inr _ => None end)) (λ _ _, True)) as Hv.
  { intros c x. apply q_any, q_bind; [apply q_violation|intros; apply q_ret]. }
  destruct m as [err|[[e|]]]; [apply Hv| |apply Hv]. destruct (_ =? 0); [apply Hv|].
  destruct (negb _); [apply Hv|]. by apply does_admit_event.
Qed.

Lemma q_handlePing t i p src m : quiet_prog t (handlePing cfg env i p src m).
Proof.
  destruct m as [err|ping]; [apply q_bind; [apply q_violation|intros; apply q_ret]|].
  apply q_bind; [apply q_requireResolvedIdentity|]. intros [|]; [apply q_ret|].
  apply q_bind; [apply q_monitor_seen|]. intros ?. apply q_bind; [apply q_now|]. intros n.
  apply q_bind; [by apply q_send|intros; apply q_ret].
Qed.

Lemma does_serve t i p k src fs : Forall inbound_ok fs → does t (serves i k) (serve cfg env i p k src fs) (λ _ _, True).
Proof.
  induction fs as [|f fs IH]; intros Hfs; [apply q_any, q_ret|]. apply Forall_cons in Hfs as [Hf Hfs]. specialize (IH Hfs).
  assert (∀ c x, does t (serves i k) (r ← violation (A := ()) env i c x; mret (match r with inl e => Some e | inr _ => None end)) (λ _ _, True)) as Hv.
  { intros c x. apply q_any, q_bind; [apply q_violation|intros; apply q_ret]. }
  assert (∀ c : P (option herr), does t (serves i k) c (λ _ _, True) → does t (serves i k) (count CFrames 1;; c) (λ _ _, True)) as Hc.
  { intros c H. eapply bind_; [apply keep, q_count; apply _|]. by intros ?. }
  cbn [serve]. destruct f as [e|seq m|seq m|seq m|seq m|seq m|ty]; [apply q_any, q_ret|..]; apply Hc.
  - apply Hv.
  - eapply bind_.
    { eapply f_weaken; [apply (f_frame inv sees t (serves i k)), does_handleEvent; [apply _|exact Hf]|by intros s _ ?|].
      intros a s _ [H _]. exact H. }
    intros [e|]; [apply q_any, q_ret|exact IH].
  - eapply bind_; [apply keep, q_handlePing; apply _|]. intros [e|]; [apply q_any, q_ret|exact IH].
  - destruct m; [apply Hv|apply q_any, q_ret].
  - destruct m as [|em]; [apply Hv|]. destruct (Fatal em); [apply q_any, q_ret|exact IH].
  - apply Hv.
Qed.

(** ** From the connection on *)

Abbreviation acts := (triple inv sees).
Abbreviation then_ := (tri_bind inv sees (HR := sees_preorder)).

Lemma quiet_acts {A} t (F : collector → Prop) (p : P A) `{!Stable inv sees t F} : quiet_prog t p → acts t F p (λ _, F).
Proof.
  intros Hp. apply (tri_weaken inv sees t F (λ s, F s ∧ True) p (λ _, F) (λ _ s, F s ∧ True)).
  - by apply Hp.
  - auto.
  - by intros a s _ [? _].
Qed.

Lemma quiet_end {A} t (F : collector → Prop) (p : P A) : quiet_prog t p → acts t F p (λ _ _, True).
Proof.
  intros Hp. apply (tri_weaken inv sees t F (λ s, True ∧ True) p (λ _ _, True) (λ _ s, True ∧ True)); [|auto|auto].
  apply (Hp (λ _, True)). apply _.
Qed.

Lemma does_acts {A} t (F Pre : collector → Prop) (p : P A) (Q : A → collector → Prop) `{!Stable inv sees t F} :
  does t Pre p Q → (∀ s, inv s → F s → Pre s) → acts t F p (λ a s, F s ∧ Q a s).
Proof.
  intros Hp HP. apply (tri_weaken inv sees t F (λ s, F s ∧ Pre s) p (λ a s, F s ∧ Q a s) (λ a s, F s ∧ Q a s)).
  - by apply Hp.
  - auto.
  - auto.
Qed.

(** A session of one's own changes its key. *)
Lemma set_own t s s' : inv s → key_of s t = None ∨ key_of s t = Some no_key → mono s s' →
  (∀ j, j ≠ t → sessions s' !! j = sessions s !! j) →
  ded s' = ded s → sent s' = sent s → crashed s' = crashed s → (∀ a, sessions s' !! t = Some a → session_ok s' a) →
  inv s' ∧ ∀ t', t' ≠ t → sees t' s s'.
Proof.
  intros Hi Ht Hm Hj Ed Et Ec Hok. split.
  - apply (inv_keep s); [done|done|done| |intros x; rewrite Et; auto|by rewrite Ec].
    intros j a Ha. destruct (decide (j = t)) as [->|Hne]; [by apply Hok|]. rewrite Hj in Ha by done.
    eapply session_ok_mono; [done|]. by apply (i_sessions _ Hi j).
  - intros t' Hne. split; [done|]. unfold key_of. by rewrite Hj.
Qed.

Lemma bucket_not_empty p : bucket p ≠ "".
Proof. unfold bucket. by destruct (vsock p). Qed.

Lemma acts_set_key t k : k ≠ no_key →
  acts t (λ s, key_of s t = Some no_key) (on_session t (λ a, mkAckState k (ackPoint a) (s_acked a) (s_pending a) (signal a)))
    (λ _, serves t k).
Proof.
  intros Hk. apply tri_act; [apply _..|]. intros s s' x Hi Hn [= <- _].
  pose proof Hn as Hn'. unfold key_of in Hn'. destruct (sessions s !! t) as [a|] eqn:Ea; [|done]. simpl in Hn'. injection Hn' as Hn'.
  rewrite (alter_at _ _ _ _ Ea). set (s' := set_sessions s _).
  destruct (i_sessions _ Hi t a Ea) as [H1 H2 H3].
  assert (mono s s') as Hm.
  { split; [done|done|]. intros j k' Hj Hne. unfold key_of in *. simpl. destruct (decide (j = t)) as [->|]; [|by rewrite lookup_insert_ne].
    rewrite Ea in Hj. simpl in Hj. congruence. }
  destruct (set_own t s s') as [Hi' Hs]; [done|by right|done| |done|done|done| |].
  - intros j Hne. simpl. by rewrite lookup_insert_ne.
  - intros b. simpl. rewrite lookup_insert_eq. intros [= <-]. split; simpl; [|done|done].
    rewrite H3 by done. apply covered_0.
  - split_and!; [done|done|]. split; [done|]. unfold key_of. simpl. by rewrite lookup_insert_eq.
Qed.

Lemma acts_newSession t p : acts t (λ s, key_of s t = None) (newSession t p) (λ _ s, key_of s t = Some no_key).
Proof.
  unfold newSession. eapply then_; [apply quiet_acts; [apply _|by apply q_both]|]. intros n. eapply then_.
  - apply (tri_act inv sees t _ _ (λ _ s, key_of s t = Some no_key)); [apply _..|]. intros s s' x Hi Hn [= <- _].
    set (s' := set_sessions s _). assert (key_of s' t = Some no_key) as Hk by (unfold key_of; simpl; by rewrite lookup_insert_eq).
    assert (mono s s') as Hm.
    { split; [done|done|]. intros j k' Hj Hne. destruct (decide (j = t)) as [->|]; [congruence|].
      unfold key_of in *. simpl. by rewrite lookup_insert_ne. }
    destruct (set_own t s s') as [Hi' Hs]; [done|by left|done| |done|done|done| |].
    + intros j Hne. simpl. by rewrite lookup_insert_ne.
    + intros b. simpl. rewrite lookup_insert_eq. intros [= <-]. split; simpl; [apply covered_0|lia|done].
    + by split_and!.
  - intros ?. by apply tri_ret; [apply _|].
Qed.

Definition greeted (t : nat) (r : herr + (streamKey * Source)) (s : collector) : Prop :=
  match r with inl _ => True | inr (k, _) => serves t k s end.
#[local] Instance stable_greeted t r : Stable inv sees t (greeted t r).
Proof. destruct r as [e|[k x]]; [exact (stable_const _ _ t True)|exact (stable_serves t t k)]. Qed.

Lemma acts_handshake t id p src f :
  acts t (λ s, key_of s t = Some no_key) (handshake cfg env t id p src f) (greeted t).
Proof.
  assert (∀ c m, acts t (λ s, key_of s t = Some no_key) (violation env t c m) (greeted t)) as Hv.
  { intros c m. unfold violation. eapply then_; [apply quiet_acts; [apply _|by apply q_send]|]. intros ?.
    by apply tri_ret; [apply _|]. }
  assert (∀ c : P (herr + (streamKey * Source)), acts t (λ s, key_of s t = Some no_key) c (greeted t) →
    acts t (λ s, key_of s t = Some no_key) (count CFrames 1;; c) (greeted t)) as Hc.
  { intros c H. eapply then_; [apply quiet_acts; [apply _|apply q_count]|]. by intros ?. }
  unfold handshake. destruct f as [e|seq m| | | | |]; [by apply tri_ret; [apply _|]| |apply Hc, Hv..]. apply Hc.
  destruct m as [err|hello]; [apply Hv|]. destruct (negb _); [apply Hv|]. cbv zeta.
  set (k := (bucket p, h_BootID hello) : streamKey). set (src' := set_Reported _ src).
  assert (k ≠ no_key) as Hk by (unfold k, no_key; intros [= E _]; by apply (bucket_not_empty p)).
  eapply then_; [by apply acts_set_key|]. intros ?.
  eapply then_; [apply (does_acts t (serves t k) (λ _, True)); [apply _|apply does_ResumeFrom|done]|]. intros n.
  eapply then_.
  { apply (does_acts t _ (λ s, message_ok s (t, SendReady (mkReady Frame.Version (c_Version cfg) id n (effectiveMaxPayload cfg))))); [apply _|apply does_send|].
    intros s _ [[? ?] ?] n' [= <-]. by exists k. }
  intros ok. apply (tri_weaken inv sees t _ (serves t k) _ (greeted t) (greeted t)); [|by intros s _ [[? _] _]|auto].
  destruct (negb ok); [by apply tri_ret; [apply _|]|].
  eapply then_; [apply quiet_acts; [apply _|apply q_monitor_seen]|]. intros ?.
  eapply then_; [apply (does_acts t (serves t k) (λ _, True)); [apply _|apply does_CheckReplay|done]|]. intros r.
  eapply (then_ t _ _ _ (λ _, serves t k)).
  - intros s Hi [Hs Hg]. revert s Hi Hs. change (acts t (serves t k) (match Gap r with
      | Some g => reportGap env k src' g (if Dedup.last g.1 <? FirstSequence hello then "agent cannot replay below its first_sequence"
                     else "sequence numbers skipped before reconnect")
      | None => mret () end) (λ _, serves t k)).
    apply quiet_acts; [apply _|]. destruct (Gap r) as [[g v]|] eqn:Eg; [apply q_reportGap; by eapply Hg|apply q_ret].
  - intros ?. by destruct (Blocked r); apply tri_ret; [apply _| |apply _|].
Qed.

Lemma acts_run t id p src fs : Forall inbound_ok fs →
  acts t (λ s, key_of s t = Some no_key) (run_session cfg env t id p src fs) (λ _ _, True).
Proof.
  intros Hfs. unfold run_session.
  assert (∃ f fs', match fs with f :: fs => (f, fs) | [] => (InFailed (ErrEOF "EOF"), []) end = (f, fs') ∧ Forall inbound_ok fs') as (f & fs' & -> & Hfs').
  { destruct fs as [|f fs]; [by eexists _, _|]. apply Forall_cons in Hfs as [_ ?]. by eexists _, _. }
  eapply then_; [apply acts_handshake|]. intros [e|[k src']].
  - apply quiet_end, q_finish.
  - eapply then_; [apply (does_acts t (serves t k) (serves t k)); [apply _|by apply does_serve|auto]|]. intros err.
    apply quiet_end.
    apply q_bind; [apply q_flushAck|]. intros ?. apply q_finish.
Qed.

Lemma acts_serve_conn t remote c fs : Forall inbound_ok fs →
  acts t (λ s, key_of s t = None) (serve_conn cfg env t remote c fs) (λ _ _, True).
Proof.
  intros Hfs. unfold serve_conn. eapply then_.
  { apply quiet_acts; [apply _|]. unfold Server_admit. destruct (negb _); [apply q_ret|].
    apply q_both. intros s. unfold admit_locked. by repeat destruct (over _ _). }
  intros [reason|].
  - apply quiet_end, q_reject.
  - eapply then_; [apply quiet_acts; [apply _|apply q_count]|]. intros ?.
    eapply then_; [apply quiet_acts; [apply _|apply q_count]|]. intros ?.
    eapply then_; [apply acts_newSession|]. intros id. eapply then_; [by apply acts_run|]. intros ?.
    apply quiet_end.
    apply q_bind; [apply q_count|]. intros ?. by apply q_write.
Qed.

Definition goroutine_ok (g : goroutine) : Prop := match g with GConn _ _ fs => Forall inbound_ok fs | _ => True end.

Lemma acts_body t g : goroutine_ok g → acts t (λ s, key_of s t = None) (body cfg env t g) (λ _ _, True).
Proof.
  intros Hg. destruct g; [by apply acts_serve_conn|..]; apply quiet_end;
    [apply q_ackLoop|apply q_drain|apply q_retryPendingGaps|apply q_monitor_tick].
Qed.

Definition act_ok (a : act) : Prop := match a with Spawn _ g => goroutine_ok g | Step _ => True end.

(** Only goroutines that were started have a session. *)
Definition server_ok (x : server) : Prop :=
  pool_ok inv sees (λ _ _, True) (shared x) (threads x) ∧ ∀ t, is_Some (sessions (shared x) !! t) → is_Some (threads x !! t).

Lemma server_act_ok x a : act_ok a → server_ok x → server_ok (default x (server_act cfg env x a)).
Proof.
  intros Ha [Hp Hd]. destruct a as [t g|t]; simpl.
  - destruct (threads x !! t) as [p|] eqn:Et; [by split|]. simpl. split; simpl.
    + eapply pool_spawn; [done|by apply acts_body|]. simpl. unfold key_of.
      destruct (sessions (shared x) !! t) as [a|] eqn:E; [|done]. destruct (Hd t) as [y Hy]; [by rewrite E|]. congruence.
    + intros t' H. destruct (decide (t = t')) as [<-|]; [by rewrite lookup_insert_eq|rewrite lookup_insert_ne by done; auto].
  - destruct (threads x !! t) as [p|] eqn:Et; [|by split]. simpl.
    destruct (advance p (shared x)) as [[s' p']|] eqn:Ea; [|by split]. simpl.
    destruct (pool_step inv sees _ _ _ _ _ _ _ Hp Et Ea) as [Hp' Hs]. split; [done|]. simpl.
    intros t' H. destruct (decide (t = t')) as [<-|Hne]; [by rewrite lookup_insert_eq|]. rewrite lookup_insert_ne by done.
    apply Hd. destruct (Hs t' (not_eq_sym Hne)) as [_ Hk]. unfold key_of in Hk.
    destruct H as [a H]. rewrite H in Hk. by destruct (sessions (shared x) !! t').
Qed.

Lemma server_run_ok l : ∀ x, Forall act_ok l → server_ok x → server_ok (server_run cfg env x l).
Proof.
  induction l as [|a l IH]; intros x Hl Hx; [done|]. apply Forall_cons in Hl as [Ha Hl].
  apply IH; [done|]. by apply server_act_ok.
Qed.

Lemma New_ok vmlist start : server_ok (New cfg vmlist start).
Proof.
  split; [|by intros t [? ?]]. split; [|apply map_Forall_empty]. split.
  - exists ∅. split; [by intros k s|]. intros k. apply fresh_ok.
  - by intros k s.
  - apply map_Forall_empty.
  - constructor.
  - apply not_elem_of_nil.
Qed.

End programs.

(** ** A run *)

Lemma demo_acts_ok : Forall act_ok demo_acts.
Proof.
  constructor; [|by apply Forall_replicate]. repeat constructor; unfold is_u64, u64_mod; simpl; lia.
Qed.

Lemma demo_acked : (1%nat, SendAck (mkAck 8)) ∈ sent (shared demo_end).
Proof.
  replace (sent (shared demo_end)) with
    [(1%nat, SendReady (mkReady 1 "1.0" "cid:3-000001" 0 1048576)); (1%nat, SendAck (mkAck 8))] by (vm_compute; reflexivity).
  right. left.
Qed.

