(* ===== verification/CollectorFrames.v ===== *)
(** * What the programs of the collector leave alone

    [agree s s'] relates two states between which the connection limits, the monitor and
    the events and alerts in the sink are the same.  Most actions of the collector are of
    this kind.  [Discipline] is what a notion of correct program has to provide so that
    it holds of whole sessions: it is closed under sequencing, accepts every action that
    agrees, and accepts the two parts of a session that do not, the call of the monitor
    and the write of an event. *)

From S2P Require Import Prelude GoStrings ClientIP Event InternalEvents Messages Frame Dedup Threads Enrich HostMonitor Collector.

Definition event_of (x : entry) : option (streamKey * Envelope) :=
  match x with WroteEvent k e => Some (k, e) | _ => None end.
Definition alert_of (x : entry) : option streamAlert := match x with WroteAlert a _ => Some a | _ => None end.

(** The events and the alerts that the sink accepted. *)
Definition event_log (s : collector) : list (streamKey * Envelope) := omap event_of (sink_log s).
Definition alert_log (s : collector) : list streamAlert := omap alert_of (sink_log s).

Record agree (s s' : collector) : Prop := {
  ag_perPeer : perPeer s' = perPeer s;
  ag_total : total s' = total s;
  ag_live : live s' = live s;
  ag_mon : mon s' = mon s;
  ag_publisher : publisher s' = publisher s;
  ag_events : event_log s' = event_log s;
  ag_alerts : alert_log s' = alert_log s;
  ag_crashed : EmptyAlerts ∈ crashed s' → EmptyAlerts ∈ crashed s
}.

(** The connection a stream belongs to and the source its events are written under. *)
Definition link `{N : NetIP} (cfg : hostConfig) (k : streamKey) (src : Source) : Prop :=
  ∃ p h, k = (bucket p, h_BootID h) ∧ src = set_Reported (reportedFrom (Some h)) (source (enrich cfg) p).

Class Discipline `{N : NetIP} (cfg : hostConfig) (env : nat → answer) (t : nat)
    (Good : ∀ A, P A → (A → Prop) → Prop) : Prop := {
  d_ret A (a : A) (Q : A → Prop) : Q a → Good A (Done a) Q;
  d_bind A B (p : P A) (c : A → P B) Q Q' : Good A p Q → (∀ a, Q a → Good B (c a) Q') → Good B (p ≫= c) Q';
  d_agree X (f : collector → option (collector * X)) :
    (∀ s s' x, f s = Some (s', x) → agree s s') → Good X (Act f Done) (λ _, True);
  d_seen p src : Good _ (monitor_seen cfg env t p src) (λ _, True);
  d_write k src n e : link cfg k src → Good _ (sink_Write env (WroteEvent k) (envelopeFor n src e)) (λ _, True)
}.

Arguments d_ret {N cfg env t Good _ A}.

Section discipline.
Context `{N : NetIP} (cfg : hostConfig) (env : nat → answer) (t : nat) (Good : ∀ A, P A → (A → Prop) → Prop)
  `{HD : !Discipline cfg env t Good}.
Abbreviation good p := (Good _ p (λ _, True)).

Lemma g_ret {A} (a : A) : good (mret a).
Proof. by apply d_ret. Qed.
Lemma g_bind {A B} (p : P A) (c : A → P B) : good p → (∀ a, good (c a)) → good (p ≫= c).
Proof. intros Hp Hc. eapply d_bind; [exact Hp|]. intros a _. apply Hc. Qed.
Lemma g_both {X} (f : collector → collector * X) : (∀ s, agree s (fst (f s))) → good (both f).
Proof. intros Hf. apply d_agree. intros s s' x [= E]. specialize (Hf s). by rewrite E in Hf. Qed.
Lemma g_write (f : collector → collector) : (∀ s, agree s (f s)) → good (write f).
Proof. intros Hf. apply d_agree. intros s s' x [= <- _]. apply Hf. Qed.
Lemma g_read {X} (f : collector → X) : good (read f).
Proof. apply d_agree. intros s s' x [= <- _]. done. Qed.

Lemma log_agree s l : omap event_of l = [] → omap alert_of l = [] → agree s (set_sink_log s (sink_log s ++ l)).
Proof.
  intros H1 H2. split; try done; unfold event_log, alert_log; cbn [sink_log set_sink_log]; rewrite omap_app.
  - by rewrite H1, app_nil_r.
  - by rewrite H2, app_nil_r.
Qed.

(** ** Base programs *)

Lemma g_now : good (now env).
Proof. by apply g_both. Qed.
Lemma g_expired : good (expired env).
Proof. by apply g_both. Qed.
Lemma g_count c n : good (count c n).
Proof. by apply g_write. Qed.
Lemma g_nil_source : good (panic NilSource).
Proof. apply g_write. intros s. split; try done. simpl. by intros [|?]%elem_of_cons. Qed.
Lemma g_send i m : good (send env i m).
Proof. by apply g_both. Qed.
Lemma g_sink mk e : event_of (mk e) = None → alert_of (mk e) = None → good (sink_Write env mk e).
Proof.
  intros H1 H2. apply g_both. intros s. destruct (a_ok _); [|done]. 
  destruct (log_agree (set_asked s (S (asked s))) [mk e]) as [? ? ? ? ? ? ? ?]; [by simpl; rewrite H1|by simpl; rewrite H2|by split].
Qed.
Lemma g_publish mk src e : (∀ e, event_of (mk e) = None) → (∀ e, alert_of (mk e) = None) → good (publish env mk src e).
Proof. intros H1 H2. apply g_bind; [apply g_now|]. intros n. by apply g_sink. Qed.
Lemma g_table {X} (f : answer → @dedup Source → @dedup Source * X) : good (table env f).
Proof. apply g_both. intros s. simpl. by destruct (f _ _). Qed.
Lemma g_opening {X} k q (f : @dedup Source → @dedup Source * X) ok : good (opening k q f ok).
Proof. apply g_both. intros s. by destruct (f _). Qed.
Lemma g_Commit k q : good (dd_Commit env k q).
Proof. apply g_both. intros s. destruct (Commit _ _ _ _) as [d r]. simpl. by destruct (0 <? r.2). Qed.
Lemma g_on_session i f : good (on_session i f).
Proof. by apply g_write. Qed.
Lemma g_seen p src : good (monitor_seen cfg env t p src).
Proof. apply d_seen. Qed.

#[local] Hint Resolve g_ret g_now g_expired g_count g_nil_source g_send g_table g_opening g_Commit g_on_session g_read g_seen : good.

Lemma g_finishGap p ok : good (dd_finishGap env p ok).
Proof. apply g_table. Qed.
Lemma g_release r : good (dd_release env r).
Proof. apply g_table. Qed.
Lemma g_CheckReplay k q : good (dd_CheckReplay env k q).
Proof. apply g_table. Qed.
Lemma g_ResumeFrom k : good (dd_ResumeFrom env k).
Proof. apply g_table. Qed.
Lemma g_Check k q : good (dd_Check k q).
Proof. apply g_opening. Qed.
Lemma g_reserve k q src : good (dd_reserve k q src).
Proof. apply g_opening. Qed.
Lemma g_advanceAck i n : good (advanceAck cfg i n).
Proof. apply g_on_session. Qed.
Lemma g_ackPoint i : good (ackPointSequence i).
Proof. apply g_read. Qed.
#[local] Hint Resolve g_finishGap g_release g_CheckReplay g_ResumeFrom g_Check g_reserve g_advanceAck g_ackPoint : good.

(** Walks through a program down to its calls. *)
Ltac good :=
  repeat first
    [ solve [eauto with good]
    | apply g_publish; [done|done]
    | apply g_bind; [|intros ?]
    | match goal with |- ∀ _, _ => intros ? end
    | match goal with |- context [match ?x with _ => _ end] => destruct x end ].

(** ** Gaps, gates and acknowledgements *)

Lemma g_publishGap p reason : good (publishGap env p reason).
Proof. unfold publishGap. good. Qed.
#[local] Hint Resolve g_publishGap : good.

Lemma g_reportGap k src g reason : good (reportGap env k src g reason).
Proof. unfold reportGap. good. Qed.

Lemma g_retry_loop n : ∀ p, good (retry_loop env n p).
Proof. induction n as [|n IH]; intros p; cbn [retry_loop]; good. Qed.
#[local] Hint Resolve g_reportGap g_retry_loop : good.

Lemma g_retryPendingGaps : good (retryPendingGaps env).
Proof. unfold retryPendingGaps. good. Qed.

Lemma g_releaseWrite u k g : good (releaseWrite u k g).
Proof. apply g_write. intros s. by destruct (gates s !! g). Qed.
#[local] Hint Resolve g_retryPendingGaps g_releaseWrite : good.

Lemma g_lockWrite u k : good (lockWrite env u k).
Proof.
  apply g_bind; [apply g_expired|]. intros [|]; [apply g_ret|]. apply g_bind.
  { apply g_both. intros s. by destruct (gate_of s !! k). }
  intros g. apply g_bind; [|good].
  apply d_agree. intros s s' x H. cbv zeta in H. destruct (a_late _); [by injection H as <- _|].
  change (gates (set_asked s _)) with (gates s) in H. destruct (gates s !! g) as [[? [|] ?]|]; [done| |done]. by injection H as <- _.
Qed.

Lemma g_unlockWrite u k g : good (unlockWrite u k g).
Proof.
  apply g_bind; [|good]. apply d_agree. intros s s' x H.
  destruct (gates s !! g) as [[? [|] ?]|]; [|done|done]. by injection H as <- _.
Qed.
#[local] Hint Resolve g_lockWrite g_unlockWrite : good.

Lemma g_lockEventWrite u p src : good (lockEventWrite env u p src).
Proof. unfold lockEventWrite. good. Qed.
Lemma g_unlockEventWrite u p src g : good (unlockEventWrite u p src g).
Proof. unfold unlockEventWrite. good. Qed.
#[local] Hint Resolve g_lockEventWrite g_unlockEventWrite : good.

Lemma g_flushAck i : good (flushAck env i).
Proof.
  apply g_bind; [|good]. apply g_both. intros s. destruct (sessions s !! i); [|done]. by destruct (_ <=? _).
Qed.
#[local] Hint Resolve g_flushAck : good.

Lemma g_ackLoop i ws : good (ackLoop cfg env i ws).
Proof.
  induction ws as [|w ws IH]; cbn [ackLoop]; [apply g_ret|].
  assert (good (take_wake cfg i w)) as Hw.
  { apply d_agree. intros s s' x H. destruct w; [done| |].
    - destruct (sessions s !! i) as [a|]; [|done]. destruct (signal a); [|done]. by injection H as <- _.
    - destruct (0 <? _); [|done]. by injection H as <- _. }
  destruct w; good.
Qed.

Lemma g_drain i : good (drain env i).
Proof. unfold drain. good. Qed.

Lemma g_newSession i p : good (newSession i p).
Proof. apply g_bind; [by apply g_both|]. intros n. apply g_bind; [by apply g_write|]. good. Qed.

Lemma g_reject i p src reason : good (reject env i p src reason).
Proof. unfold reject. good. Qed.

Lemma g_finish i id p src err : good (finish env i id p src err).
Proof. unfold finish. destruct err as [[]|]; good. Qed.

Lemma g_violation {A} i c m : good (violation (A := A) env i c m).
Proof. unfold violation. good. Qed.

Lemma g_identity i p src : good (requireResolvedIdentity cfg env i p src).
Proof. unfold requireResolvedIdentity. good. Qed.
#[local] Hint Resolve g_finish g_violation g_identity : good.

(** ** Sessions *)

Lemma g_handlePing p src m : good (handlePing cfg env t p src m).
Proof. unfold handlePing. good. Qed.

Lemma g_accept_event p k src e : link cfg k src → good (accept_event cfg env t p k src e).
Proof.
  intros Hl. assert (∀ n, good (sink_Write env (WroteEvent k) (envelopeFor n src e))) as Hw.
  { intros n. by apply d_write. }
  unfold accept_event. good.
Qed.

Lemma g_admit_event p k src e : link cfg k src → good (admit_event cfg env t p k src e).
Proof.
  intros Hl. pose proof (g_accept_event p k src e Hl) as Ha. unfold admit_event. good.
Qed.

Lemma g_handleEvent p k src seq m : link cfg k src → good (handleEvent cfg env t p k src seq m).
Proof.
  intros Hl. assert (∀ e, good (admit_event cfg env t p k src e)) as Ha by (intros e; by apply g_admit_event).
  unfold handleEvent. destruct m as [err|[[e|]]]; good.
Qed.
#[local] Hint Resolve g_handlePing g_handleEvent : good.

Lemma g_serve p k src fs : link cfg k src → good (serve cfg env t p k src fs).
Proof.
  intros Hl. induction fs as [|f fs IH]; cbn [serve]; [apply g_ret|]. destruct f; good.
Qed.

Lemma g_handshake id p f : Good _ (handshake cfg env t id p (source (enrich cfg) p) f)
  (λ r, match r with inr (k, src) => link cfg k src | inl _ => True end).
Proof.
  assert (∀ A (q : P A) (c : A → P (herr + (streamKey * Source))) Q, good q → (∀ a, Good _ (c a) Q) → Good _ (q ≫= c) Q) as Hb.
  { intros A q c Q Hq Hc. eapply d_bind; [exact Hq|]. intros a _. apply Hc. }
  assert (∀ c m, Good _ (violation env t c m) (λ r : herr + (streamKey * Source), match r with inr (k, src) => link cfg k src | inl _ => True end)) as Hv.
  { intros c m. apply Hb; [apply g_send|]. intros b. by apply d_ret. }
  unfold handshake. destruct f as [e|seq m| | | | |]; [by apply d_ret| |apply Hb; [apply g_count|intros ?; apply Hv]..].
  apply Hb; [apply g_count|]. intros ?. destruct m as [err|hello]; [apply Hv|]. destruct (negb _); [apply Hv|]. cbv zeta.
  apply Hb; [apply g_on_session|]. intros ?. apply Hb; [apply g_table|]. intros n. apply Hb; [apply g_send|]. intros ok.
  destruct (negb ok); [by apply d_ret|]. apply Hb; [apply d_seen|]. intros ?. apply Hb; [apply g_table|]. intros r.
  apply Hb; [good|]. intros ?. destruct (Blocked r); apply d_ret; [done|]. by exists p, hello.
Qed.

Lemma g_run_session id p fs : good (run_session cfg env t id p (source (enrich cfg) p) fs).
Proof.
  unfold run_session. destruct (match fs with f :: fs => (f, fs) | [] => _ end) as [f fs'].
  eapply d_bind; [apply g_handshake|]. intros [e|[k src]] Hl; [good|].
  apply g_bind; [by apply g_serve|]. intros err. good.
Qed.
End discipline.
