(* ===== verification/CollectorSafety.v ===== *)
(** * Attribution and connection limits

    Two invariants of the collector over every interleaving: the events in the sink are
    attributed to the peer the hypervisor named and not to what the guest says, and the
    slots of the connection limits are counted exactly. *)

From S2P Require Import Prelude GoStrings ClientIP Event InternalEvents Messages Frame Dedup Threads Triples Enrich HostMonitor Collector CollectorFrames.

(** Every action of the program is within [Φ], and [Q] holds of its result. *)
Fixpoint within {A} (Φ : collector → collector → Prop) (Q : A → Prop) (p : P A) : Prop :=
  match p with
  | Done a => Q a
  | Act f k => (∀ s s' x, f s = Some (s', x) → Φ s s') ∧ ∀ x, within Φ Q (k x)
  end.

Lemma within_bind {A B} Φ (p : P A) (c : A → P B) Q Q' :
  within Φ Q p → (∀ a, Q a → within Φ Q' (c a)) → within Φ Q' (p ≫= c).
Proof.
  intros Hp Hc. induction p as [a|X f k IH]; simpl in *; [by apply Hc|]. destruct Hp as [Hf Hk].
  split; [done|]. intros x. by apply IH.
Qed.

Lemma within_then {A B} Φ (p : P A) (c : A → P B) :
  within Φ (λ _, True) p → (∀ a, within Φ (λ _, True) (c a)) → within Φ (λ _, True) (p ≫= c).
Proof. intros Hp Hc. eapply within_bind; [exact Hp|]. auto. Qed.

(** What the monitor and its alerts do not change. *)
Record watches (s s' : collector) : Prop := {
  wa_ded : ded s' = ded s;
  wa_gate_of : gate_of s' = gate_of s;
  wa_gates : gates s' = gates s;
  wa_perPeer : perPeer s' = perPeer s;
  wa_total : total s' = total s;
  wa_live : live s' = live s;
  wa_lapsed : lapsed s' = lapsed s;
  wa_events : event_log s' = event_log s
}.

(** What no program but the admission and the write of an event changes. *)
Record keeps (s s' : collector) : Prop := {
  kp_perPeer : perPeer s' = perPeer s;
  kp_total : total s' = total s;
  kp_live : live s' = live s;
  kp_events : event_log s' = event_log s
}.

Lemma agree_keeps s s' : agree s s' → keeps s s'.
Proof. intros [? ? ? ? ? ? ? ?]. by split. Qed.
Lemma watches_keeps s s' : watches s s' → keeps s s'.
Proof. intros [? ? ? ? ? ? ? ?]. by split. Qed.

Section programs.
Context `{N : NetIP} (cfg : hostConfig) (env : nat → answer).

(** ** The monitor *)

Section watching.
Context (Φ : collector → collector → Prop) (HΦ : ∀ s s', watches s s' → Φ s s').
Abbreviation fine p := (within Φ (λ _, True) p).

Lemma w_both {X} (f : collector → collector * X) : (∀ s, watches s (fst (f s))) → fine (both f).
Proof. intros Hf. split; [|done]. intros s s' x [= E]. specialize (Hf s). rewrite E in Hf. by apply HΦ. Qed.
Lemma w_write (f : collector → collector) : (∀ s, watches s (f s)) → fine (write f).
Proof. intros Hf. split; [|done]. intros s s' x [= <- _]. by apply HΦ. Qed.

Lemma w_publish_alert a : fine (publish env (WroteAlert a) (al_source a) (al_event a)).
Proof.
  apply within_then; [by apply w_both|]. intros n. apply w_both. intros s. destruct (a_ok _); [|done].
  split; try done. unfold event_log. simpl. rewrite omap_app. simpl. by rewrite app_nil_r.
Qed.

Lemma w_publish_loop n : fine (publish_loop env n).
Proof.
  induction n as [|n IH]; cbn [publish_loop]; [done|]. apply within_then; [by apply w_both|]. intros [|]; [done|].
  apply within_then; [by split; [intros s s' x [= <- _]; by apply HΦ|]|]. intros [a|]; [|by apply w_write].
  apply within_then; [apply w_publish_alert|]. intros [|]; [done|]. apply within_then.
  - apply w_both. intros s. by destruct (m_pending (mon s)).
  - intros [|]; [exact IH|by apply w_write].
Qed.

Lemma w_publishPending t : fine (publishPending env t).
Proof.
  apply within_then; [apply w_both; intros s; by destruct (publishing (mon s))|]. intros [n|]; [|done].
  apply within_then; [apply w_publish_loop|]. intros _. by apply w_write.
Qed.

Lemma w_monitor_seen t p src : fine (monitor_seen cfg env t p src).
Proof.
  apply within_then; [by apply w_both|]. intros n. apply within_then; [by apply w_both|]. intros n'.
  apply within_then; [apply w_both; intros s; by destruct (seen _ _ _ _ _ _)|]. intros [|]; [apply w_publishPending|done].
Qed.

Lemma w_monitor_tick t e : fine (monitor_tick cfg env t e).
Proof.
  apply within_then; [by apply w_both|]. intros n. apply within_then; [by apply w_both|]. intros n'.
  apply within_then; [by apply w_write|]. intros _. apply within_then; [by apply w_both|]. intros n2.
  apply within_then; [by apply w_both|]. intros _. apply w_publishPending.
Qed.
End watching.

(** ** Sessions *)

Section within.
Context (Φ : collector → collector → Prop) (HΦ : ∀ s s', keeps s s' → Φ s s').
Abbreviation fine p := (within Φ (λ _, True) p).

Let HΦw s s' (H : watches s s') : Φ s s' := HΦ s s' (watches_keeps s s' H).

Context (Hw : ∀ k src n e, link cfg k src → fine (sink_Write env (WroteEvent k) (envelopeFor n src e))).

#[global] Instance within_discipline t : Discipline cfg env t (λ A p Q, within Φ Q p).
Proof.
  split.
  - done.
  - intros A B p c Q Q'. apply within_bind.
  - intros X f Hf. split; [|done]. intros s s' x E. by eapply HΦ, agree_keeps, Hf.
  - apply w_monitor_seen, HΦw.
  - exact Hw.
Qed.

(** All of it but the admission. *)
Lemma w_session t id p fs : fine (run_session cfg env t id p (source (enrich cfg) p) fs).
Proof. exact (g_run_session cfg env t (λ A p Q, within Φ Q p) id p fs). Qed.

Lemma w_other t g : match g with GConn _ _ _ => False | _ => True end → fine (body cfg env t g).
Proof.
  destruct g; [done|..]; intros _; simpl.
  - exact (g_ackLoop cfg env t (λ A p Q, within Φ Q p) i ws).
  - exact (g_drain cfg env t (λ A p Q, within Φ Q p) i).
  - exact (g_retryPendingGaps cfg env t (λ A p Q, within Φ Q p)).
  - apply w_monitor_tick, HΦw.
Qed.
End within.

(** ** Invariants that every action keeps *)

Definition preserves (I : collector → Prop) (s s' : collector) : Prop := I s → I s'.

Definition pool_within (I : collector → Prop) (x : server) : Prop :=
  I (shared x) ∧ map_Forall (λ _, within (preserves I) (λ _, True)) (threads x).

Lemma within_act I x a : (∀ t g, within (preserves I) (λ _, True) (body cfg env t g)) →
  pool_within I x → pool_within I (default x (server_act cfg env x a)).
Proof.
  intros Hb [Hi Hth]. destruct a as [t g|t]; simpl.
  - destruct (threads x !! t); [done|]. split; [done|]. apply map_Forall_insert_2; [apply Hb|done].
  - destruct (threads x !! t) as [p|] eqn:Et; [|done]. simpl. pose proof (Hth t p Et) as Hp.
    destruct p as [a|X f k]; [done|]. destruct Hp as [Hf Hk]. simpl.
    destruct (f (shared x)) as [[s' y]|] eqn:Ef; [|done]. simpl. split; [by eapply Hf|].
    apply map_Forall_insert_2; [apply Hk|done].
Qed.

Lemma within_run I l : (∀ t g, within (preserves I) (λ _, True) (body cfg env t g)) →
  ∀ x, pool_within I x → pool_within I (server_run cfg env x l).
Proof. intros Hb. induction l as [|a l IH]; intros x Hx; [done|]. by apply IH, within_act. Qed.

(** ** Attribution *)

Definition attributed (s : collector) : Prop := Forall (λ x, link cfg x.1 (env_Source x.2)) (event_log s).

Lemma attributed_same s s' : event_log s' = event_log s → preserves attributed s s'.
Proof. unfold preserves, attributed. by intros ->. Qed.

Lemma attributed_write k src n e : link cfg k src →
  within (preserves attributed) (λ _, True) (sink_Write env (WroteEvent k) (envelopeFor n src e)).
Proof.
  intros Hl. split; [|done]. intros s s' x H. unfold asking, both in H.
  destruct (a_ok _); injection H as <- _; [|by apply attributed_same].
  unfold preserves, attributed, event_log. simpl. rewrite omap_app. intros Hs. apply Forall_app. split; [done|].
  by repeat constructor.
Qed.

Lemma attributed_body t g : within (preserves attributed) (λ _, True) (body cfg env t g).
Proof.
  assert (∀ s s', keeps s s' → preserves attributed s s') as HΦ by (intros s s' [_ _ _ H]; by apply attributed_same).
  destruct (match g with GConn _ _ _ => false | _ => true end) eqn:Eg.
  { apply (w_other _ HΦ attributed_write). by destruct g. }
  destruct g as [remote c fs|?|?| |?]; try done. simpl. unfold serve_conn.
  apply within_then.
  { unfold Server_admit. destruct (negb _); [done|]. split; [|done]. intros s s' x [= E]. apply attributed_same.
    unfold admit_locked in E. repeat destruct (over _ _); by injection E as <- _. }
  intros [reason|].
  - exact (g_reject cfg env t (λ A p Q, within (preserves attributed) Q p) (HD := within_discipline _ HΦ attributed_write t) t _ _ reason).
  - apply within_then; [by apply (w_write _ (λ s s' H, HΦ s s' (watches_keeps s s' H)))|]. intros _. apply within_then; [by apply (w_write _ (λ s s' H, HΦ s s' (watches_keeps s s' H)))|]. intros _.
    apply within_then; [exact (g_newSession cfg env t (λ A p Q, within (preserves attributed) Q p) (HD := within_discipline _ HΦ attributed_write t) t _)|].
    intros id. apply within_then; [exact (w_session _ HΦ attributed_write t id _ fs)|]. intros _.
    apply within_then; [by apply (w_write _ (λ s s' H, HΦ s s' (watches_keeps s s' H)))|]. intros _. split; [|done]. intros s s' x [= <- _]. by apply attributed_same.
Qed.

(** What a source says of a peer: it is a known machine only if the hypervisor gave the
    connection a CID and the operator's mapping has it. *)
Lemma source_known p : Known (source (enrich cfg) p) = true →
  vsock p = true ∧ ∃ v, lookup_vm (enrich cfg) (cid p) = Some v ∧
    src_VM (source (enrich cfg) p) = vm_Name v ∧ src_UUID (source (enrich cfg) p) = vm_UUID v.
Proof.
  unfold source. destruct (vsock p); [|done]. simpl. destruct (lookup_vm (enrich cfg) (cid p)) as [v|]; [|done].
  intros _. split; [done|]. by exists v.
Qed.


(** ** Connection limits *)

(** The connections of a bucket that are being served. *)
Definition served (s : collector) (b : string) : gmap nat string := filter (λ x, x.2 = b) (live s).

Definition within_limit (limit n : Z) : Prop := 0 < limit → n <= limit.

Record limits_ok (s : collector) : Prop := {
  lo_total : total s = Z.of_nat (size (live s));
  lo_peer b : default 0 (perPeer s !! b) = Z.of_nat (size (served s b));
  lo_max : within_limit (MaxConnections cfg) (total s);
  lo_max_peer b : within_limit (MaxConnectionsPerCID cfg) (default 0 (perPeer s !! b));
  lo_positive b n : perPeer s !! b = Some n → 0 < n
}.

Definition own_slot (t : nat) (s s' : collector) : Prop := live s' !! t = live s !! t.

#[local] Instance own_slot_preorder t : PreOrder (own_slot t).
Proof. split; [done|]. unfold own_slot. intros s1 s2 s3. congruence. Qed.
#[local] Instance stable_slot t x : Stable limits_ok own_slot t (λ s, live s !! t = x).
Proof. intros s s' _ _ H. by rewrite H. Qed.

Record same_slots (s s' : collector) : Prop := {
  ss_perPeer : perPeer s' = perPeer s; ss_total : total s' = total s; ss_live : live s' = live s
}.

Lemma keeps_slots s s' : keeps s s' → same_slots s s'.
Proof. intros [? ? ? _]. by split. Qed.

Lemma slots_limits s s' : same_slots s s' → limits_ok s → limits_ok s' ∧ ∀ t, own_slot t s s'.
Proof.
  intros [E1 E2 E3] [H1 H2 H3 H4 H5]. split; [|intros t; unfold own_slot; by rewrite E3].
  split; unfold served; rewrite ?E1, ?E2, ?E3; done.
Qed.

Lemma within_limits {A} t (F : collector → Prop) (p : P A) `{!Stable limits_ok own_slot t F} :
  within same_slots (λ _, True) p → triple limits_ok own_slot t F p (λ _, F).
Proof.
  intros Hp. induction p as [a|X f k IH]; simpl in *.
  - by apply tri_ret; [apply _|].
  - destruct Hp as [Hf Hk]. intros s Hi HF s1 Hr. destruct (Hr Hi) as [Hi1 HR].
    assert (F s1) as HF1 by exact (Stable0 s s1 Hi Hi1 HR HF).
    destruct (f s1) as [[s2 x]|] eqn:E; [|done]. destruct (slots_limits _ _ (Hf _ _ _ E) Hi1) as [Hi2 Hs].
    split; [by intros _; split|]. apply (IH x (Hk x) s2 Hi2). by apply (Stable0 s1 s2).
Qed.

Lemma served_insert s i b b' : live s !! i = None →
  size (filter (λ x : nat * string, x.2 = b') (<[i := b]> (live s))) = (size (served s b') + if decide (b = b') then 1 else 0)%nat.
Proof.
  intros Hn. unfold served. destruct (decide (b = b')) as [->|Hne].
  - rewrite map_filter_insert_True by done. rewrite map_size_insert_None; [lia|].
    rewrite map_lookup_filter_None. by left.
  - rewrite map_filter_insert_not'; [lia|done|]. intros y. by rewrite Hn.
Qed.

Lemma served_delete s i b b' : live s !! i = Some b →
  size (served s b') = (size (filter (λ x : nat * string, x.2 = b') (delete i (live s))) + if decide (b = b') then 1 else 0)%nat.
Proof.
  intros Hi. unfold served. rewrite <- (insert_delete_id (live s) i b Hi) at 1. destruct (decide (b = b')) as [->|Hne].
  - rewrite map_filter_insert_True by done. rewrite map_size_insert_None; [lia|].
    rewrite map_lookup_filter_None. left. apply lookup_delete_eq.
  - rewrite map_filter_insert_not'; [lia|done|]. intros y. by rewrite lookup_delete_eq.
Qed.

Lemma over_false limit n : over limit n = false → 0 < limit → n + 1 <= limit.
Proof. unfold over. intros H Hl. lia. Qed.

Lemma admit_limits t b s s' r : limits_ok s → live s !! t = None → admit_locked cfg t b s = (s', r) →
  limits_ok s' ∧ (∀ t', t' ≠ t → own_slot t' s s') ∧ live s' !! t = match r with None => Some b | Some _ => None end.
Proof.
  intros Hi Hn H. unfold admit_locked in H. destruct (over (MaxConnections cfg) (total s)) eqn:E1; [by injection H as <- <-|].
  destruct (over (MaxConnectionsPerCID cfg) (default 0 (perPeer s !! b))) eqn:E2; [by injection H as <- <-|].
  injection H as <- <-. destruct Hi as [H1 H2 H3 H4 H5]. split_and!; [split; simpl| |apply lookup_insert_eq].
  - rewrite map_size_insert_None by done. lia.
  - intros b'. unfold served. simpl. rewrite served_insert by done. destruct (decide (b = b')) as [<-|Hne].
    + rewrite lookup_insert_eq. simpl. rewrite H2. lia.
    + rewrite lookup_insert_ne by done. rewrite H2. lia.
  - intros Hl. by apply over_false.
  - intros b' Hl. destruct (decide (b = b')) as [<-|Hne]; [rewrite lookup_insert_eq; simpl; by apply over_false|].
    rewrite lookup_insert_ne by done. by apply H4.
  - intros b' n [[_ <-]|[_ ?]]%lookup_insert_Some; [|by eapply H5]. rewrite H2. lia.
  - intros t' Hne. unfold own_slot. simpl. by rewrite lookup_insert_ne.
Qed.

Lemma release_limits t b s : limits_ok s → live s !! t = Some b →
  limits_ok (release_locked t b s) ∧ (∀ t', t' ≠ t → own_slot t' s (release_locked t b s)) ∧
  live (release_locked t b s) !! t = None.
Proof.
  intros [H1 H2 H3 H4 H5] Hl. unfold release_locked. set (n := default 0 (perPeer s !! b) - 1).
  assert (∀ b', default 0 ((if 0 <? n then <[b := n]> (perPeer s) else delete b (perPeer s)) !! b') =
    default 0 (perPeer s !! b') - if decide (b = b') then 1 else 0) as Hd.
  { intros b'. pose proof (H2 b) as Hb. rewrite (served_delete s t b b Hl), decide_True in Hb by done.
    destruct (Z.ltb_spec 0 n); destruct (decide (b = b')) as [<-|Hne];
      rewrite ?lookup_insert_eq, ?lookup_insert_ne, ?lookup_delete_eq, ?lookup_delete_ne by done; simpl; lia. }
  assert (0 < total s) as Ht.
  { rewrite H1. assert (size (live s) ≠ 0%nat); [|lia]. intros E%map_size_empty_inv. by rewrite E in Hl. }
  split_and!; [split; simpl| |apply lookup_delete_eq].
  - rewrite map_size_delete, Hl. lia.
  - intros b'. rewrite Hd, H2, (served_delete s t b b' Hl). unfold served. simpl. destruct (decide (b = b')); lia.
  - intros Hx. specialize (H3 Hx). lia.
  - intros b' Hx. rewrite Hd. specialize (H4 b' Hx). destruct (decide (b = b')); lia.
  - intros b' m Hm. destruct (Z.ltb_spec 0 n).
    + apply lookup_insert_Some in Hm as [[_ <-]|[_ ?]]; [done|by eapply H5].
    + apply lookup_delete_Some in Hm as [_ ?]. by eapply H5.
  - intros t' Hne. unfold own_slot. simpl. by rewrite lookup_delete_ne.
Qed.

Lemma slots_write k src n e : link cfg k src → within same_slots (λ _, True) (sink_Write env (WroteEvent k) (envelopeFor n src e)).
Proof.
  intros _. split; [|done]. intros s s' x H. unfold asking, both in H. by destruct (a_ok _); injection H as <- _.
Qed.

Lemma limits_conn t remote c fs :
  triple limits_ok own_slot t (λ s, live s !! t = None) (serve_conn cfg env t remote c fs) (λ _ s, live s !! t = None).
Proof.
  set (HD := within_discipline _ keeps_slots slots_write t). unfold serve_conn.
  set (p := peerOf remote c). set (src := source (enrich cfg) p).
  eapply (tri_bind limits_ok own_slot t _ _ _ (λ r s, live s !! t = match r with None => Some (bucket p) | Some _ => None end)).
  { unfold Server_admit. destruct (negb _); [by apply tri_ret; [apply _|]|].
    apply tri_act; [apply _..|]. intros s s' x Hi Hn [= E]. by eapply admit_limits. }
  intros [reason|].
  - apply within_limits; [apply _|]. exact (g_reject cfg env t (λ A p Q, within same_slots Q p) t p src reason).
  - eapply tri_bind; [apply _|apply within_limits; [apply _|]; by apply (w_write _ (λ s s' H, keeps_slots s s' (watches_keeps s s' H)))|]. intros ?.
    eapply tri_bind; [apply _|apply within_limits; [apply _|]; by apply (w_write _ (λ s s' H, keeps_slots s s' (watches_keeps s s' H)))|]. intros ?.
    eapply tri_bind; [apply _|apply within_limits; [apply _|]; exact (g_newSession cfg env t (λ A p Q, within same_slots Q p) t p)|]. intros id.
    eapply tri_bind; [apply _|apply within_limits; [apply _|]; exact (w_session _ keeps_slots slots_write t id p fs)|]. intros ?.
    eapply tri_bind; [apply _|apply within_limits; [apply _|]; by apply (w_write _ (λ s s' H, keeps_slots s s' (watches_keeps s s' H)))|]. intros ?.
    apply tri_act; [apply _..|]. intros s s' x Hi Hl [= <- _]. by apply release_limits.
Qed.

Lemma limits_body t g : triple limits_ok own_slot t (λ s, live s !! t = None) (body cfg env t g) (λ _ s, live s !! t = None).
Proof.
  destruct g as [remote c fs|i ws|i| |e]; [apply limits_conn|..]; apply within_limits; try apply _;
    by apply (w_other _ keeps_slots slots_write).
Qed.

Definition limits_server (x : server) : Prop :=
  pool_ok limits_ok own_slot (λ t s, live s !! t = None) (shared x) (threads x) ∧
  ∀ t, is_Some (live (shared x) !! t) → is_Some (threads x !! t).

Lemma limits_act x a : limits_server x → limits_server (default x (server_act cfg env x a)).
Proof.
  intros [Hp Hd]. destruct a as [t g|t]; simpl.
  - destruct (threads x !! t) as [p|] eqn:Et; [by split|]. simpl. split; simpl.
    + eapply pool_spawn; [done|apply limits_body|]. simpl.
      destruct (live (shared x) !! t) as [b|] eqn:E; [|done]. destruct (Hd t) as [y Hy]; [by rewrite E|]. congruence.
    + intros t' H. destruct (decide (t = t')) as [<-|]; [by rewrite lookup_insert_eq|rewrite lookup_insert_ne by done; auto].
  - destruct (threads x !! t) as [p|] eqn:Et; [|by split]. simpl.
    destruct (advance p (shared x)) as [[s' p']|] eqn:Ea; [|by split]. simpl.
    destruct (pool_step limits_ok own_slot _ _ _ _ _ _ _ Hp Et Ea) as [Hp' Hs]. split; [done|]. simpl.
    intros t' H. destruct (decide (t = t')) as [<-|Hne]; [by rewrite lookup_insert_eq|]. rewrite lookup_insert_ne by done.
    apply Hd. by rewrite <- (Hs t' (not_eq_sym Hne)).
Qed.

Lemma limits_run l : ∀ x, limits_server x → limits_server (server_run cfg env x l).
Proof. induction l as [|a l IH]; intros x Hx; [done|]. by apply IH, limits_act. Qed.

Lemma limits_New vmlist start : limits_server (New cfg vmlist start).
Proof.
  split; [|by intros t [? ?]]. split; [|apply map_Forall_empty].
  split; [done|done|intros ?; simpl; lia|intros b ?; simpl; rewrite lookup_empty; simpl; lia|done].
Qed.

End programs.

(** ** A run *)

Definition demo_source : Source :=
  mkSource 3 "web" "hv" "u-1" "" "" "" None true (Some (mkReported "guest" "m" "boot" "k" "1.0")).
Definition demo_envelope : Envelope := mkEnvelope 7 demo_source (event_at 5).

Lemma demo_written : (("cid:3", "boot"), demo_envelope) ∈ event_log (shared demo_end).
Proof.
  replace (event_log (shared demo_end)) with
    [(("cid:3", "boot"), demo_envelope); (("cid:3", "boot"), mkEnvelope 7 demo_source (event_at 8))] by (vm_compute; reflexivity).
  left.
Qed.


Lemma demo_ended : map_Forall (λ _ p, p = Done ()) (threads demo_end).
Proof.
  replace (threads demo_end) with ({[1%nat := Done ()]} : gmap nat (P ())) by (vm_compute; reflexivity).
  by apply map_Forall_singleton.
Qed.

