(* ===== verification/CollectorAlerts.v ===== *)
(** * Alerts reach the sink once and in order

    In every interleaving of the collector's goroutines, the alerts the monitor queued
    are those the sink accepted followed by those that wait; several goroutines may
    publish, and only one does at a time. *)

From S2P Require Import Prelude GoStrings ClientIP Event InternalEvents Messages Frame Dedup DedupPending Threads Triples Enrich HostMonitor Collector CollectorFrames CollectorAcks.

Definition alert_in (x : mark) : option streamAlert :=
  match x with Lost _ a | Resumed _ a => Some a | Forgot _ => None end.

(** All alerts ever queued. *)
Definition queued_alerts (m : monitor) : list streamAlert := omap alert_in (history m).

(** ** The monitor only adds alerts *)

Definition extends (m m' : monitor) : Prop :=
  ∃ new, m_pending m' = m_pending m ++ new ∧ queued_alerts m' = queued_alerts m ++ new ∧ publishing m' = publishing m.

#[global] Instance extends_preorder : PreOrder extends.
Proof.
  split; [intros m; exists []; by rewrite !app_nil_r|].
  intros m1 m2 m3 (n & A1 & B1 & C1) (n' & A2 & B2 & C2). exists (n ++ n'). rewrite A2, A1, B2, B1, C2, C1, !app_assoc. done.
Qed.

Lemma extends_same m m' : m_pending m' = m_pending m → history m' = history m → publishing m' = publishing m → extends m m'.
Proof. intros A B C. exists []. unfold queued_alerts. by rewrite A, B, C, !app_nil_r. Qed.

Lemma queueLocked_extends mk src e m : (∀ a, alert_in (mk a) = Some a) → extends m (fst (queueLocked mk src e m)).
Proof.
  intros Hm. unfold queueLocked. destruct (_ <=? _)%nat; [by apply extends_same|].
  exists [mkAlert src e]. unfold queued_alerts. simpl. rewrite omap_app. simpl. by rewrite Hm.
Qed.

Section monitor.
Context (mc : monitorConfig).

Lemma resume_extends n c h d m : extends m (resumeLocked mc n c h d m).
Proof.
  unfold resumeLocked. set (e := NewInternal _ _ _ _).
  pose proof (queueLocked_extends (Resumed c) (h_source h) e m (λ _, eq_refl)) as H.
  destruct (queueLocked _ _ _ m) as [m' [|]]; [|done]. etrans; [exact H|by apply extends_same].
Qed.

Lemma lose_extends n c h d m : extends m (loseLocked mc n c h d m).
Proof.
  unfold loseLocked. set (e := NewInternal _ _ _ _).
  pose proof (queueLocked_extends (Lost c) (h_source h) e m (λ _, eq_refl)) as H.
  destruct (queueLocked _ _ _ m) as [m' [|]]; [|done]. etrans; [exact H|by apply extends_same].
Qed.

Lemma seen_extends n p src t m : extends m (fst (seen mc n p src t m)).
Proof.
  unfold seen. destruct (_ || _); [done|]. destruct (m_vms m !! cid p) as [h|]; [|done]. destruct (_ || _ || _); [done|].
  cbv zeta. cbn [fst]. destruct (lost _); [|by apply extends_same].
  etrans; [|apply resume_extends]. by apply extends_same.
Qed.

Lemma check_extends clock n order m : extends m (check_locked mc clock n order m).
Proof.
  unfold check_locked. generalize (visit order (m_vms m)). intros l. revert m.
  induction l as [|c l IH]; intros m; simpl; [done|]. etrans; [|apply IH]. unfold check_one.
  destruct (m_vms m !! c) as [h|]; [|done]. cbv zeta. destruct (_ <=? _).
  - destruct (_ && _); [apply resume_extends|done].
  - destruct (negb _); [apply lose_extends|done].
Qed.

Lemma forgotten_alerts old next : omap alert_in (HostMonitor.forgotten old next) = [].
Proof. unfold HostMonitor.forgotten. by induction (filter _ _). Qed.

Lemma refresh_extends e clock n m : extends m (refresh mc e clock n m).
Proof.
  unfold refresh. destruct (negb _); [done|]. destruct e as [|l]; [by apply extends_same|].
  destruct (validateExpectedVMs l); [by apply extends_same|]. exists []. unfold queued_alerts. simpl.
  by rewrite omap_app, forgotten_alerts, !app_nil_r.
Qed.
End monitor.

(** ** The invariant *)

Definition queued (s : collector) : list streamAlert := queued_alerts (mon s).
Definition waiting (s : collector) : list streamAlert := m_pending (mon s).

(** An alert that was written and not yet taken off the list. *)
Definition in_transit (s : collector) : Prop :=
  is_Some (publisher s) ∧ ∃ a l, waiting s = a :: l ∧ queued s = alert_log s ++ l.

Record alerts_ok (s : collector) : Prop := {
  ao_order : queued s = alert_log s ++ waiting s ∨ in_transit s;
  ao_flag : publishing (mon s) = bool_decide (is_Some (publisher s));
  ao_crashed : EmptyAlerts ∉ crashed s
}.

(** What the publisher relies on. *)
Definition publisher_sees (t : nat) (s s' : collector) : Prop :=
  publisher s = Some t → publisher s' = Some t ∧ alert_log s' = alert_log s ∧
    ∃ new, waiting s' = waiting s ++ new ∧ queued s' = queued s ++ new.

#[global] Instance publisher_sees_preorder t : PreOrder (publisher_sees t).
Proof.
  split; [intros s H; split_and!; [done|done|exists []; by rewrite !app_nil_r]|].
  intros s1 s2 s3 H12 H23 H. destruct (H12 H) as (P2 & A2 & n & W2 & Q2). destruct (H23 P2) as (P3 & A3 & n' & W3 & Q3).
  split_and!; [done|congruence|]. exists (n ++ n'). by rewrite W3, W2, Q3, Q2, !app_assoc.
Qed.

(** What leaves the alerts alone, or adds some. *)
Lemma alerts_extend s s' : extends (mon s) (mon s') → publisher s' = publisher s → alert_log s' = alert_log s →
  (EmptyAlerts ∈ crashed s' → EmptyAlerts ∈ crashed s) → alerts_ok s → alerts_ok s' ∧ ∀ t, publisher_sees t s s'.
Proof.
  intros (n & A & B & C) Hp Hl Hc [H1 H2 H3]. split.
  - split.
    + unfold in_transit, queued, waiting in *. rewrite A, B, Hl, Hp. destruct H1 as [->|(Hs & a & l & Hw & Hq)].
      * left. by rewrite app_assoc.
      * right. split; [done|]. exists a, (l ++ n). by rewrite Hw, Hq, app_assoc.
    + by rewrite C, Hp.
    + auto.
  - intros t Ht. split_and!; [by rewrite Hp|done|]. by exists n.
Qed.

Lemma agree_alerts s s' : agree s s' → alerts_ok s → alerts_ok s' ∧ ∀ t, publisher_sees t s s'.
Proof. intros [_ _ _ E1 E2 _ E3 E4]. apply alerts_extend; [by rewrite E1|done|done|done]. Qed.

Definition idle (t : nat) (n : nat) (s : collector) : Prop :=
  publisher s = Some t ∧ queued s = alert_log s ++ waiting s ∧ (n <= length (waiting s))%nat.
Definition at_head (t n : nat) (a : streamAlert) (s : collector) : Prop := idle t (S n) s ∧ head (waiting s) = Some a.
Definition delivered (t n : nat) (a : streamAlert) (s : collector) : Prop :=
  publisher s = Some t ∧ ∃ l, waiting s = a :: l ∧ queued s = alert_log s ++ l ∧ (n <= length l)%nat.

#[global] Instance stable_idle t n : Stable alerts_ok publisher_sees t (idle t n).
Proof.
  intros s s' _ _ Hs (Hp & Hq & Hn). destruct (Hs Hp) as (Hp' & Hl & new & Hw & Hq'). split_and!; [done| |].
  - by rewrite Hq', Hq, Hl, Hw, app_assoc.
  - rewrite Hw, length_app. lia.
Qed.
#[global] Instance stable_at_head t n a : Stable alerts_ok publisher_sees t (at_head t n a).
Proof.
  intros s s' Hi Hi' Hs [H1 H2]. split; [exact (stable_idle t (S n) s s' Hi Hi' Hs H1)|].
  destruct H1 as (Hp & _). destruct (Hs Hp) as (_ & _ & new & Hw & _). rewrite Hw. by destruct (waiting s).
Qed.
#[global] Instance stable_delivered t n a : Stable alerts_ok publisher_sees t (delivered t n a).
Proof.
  intros s s' _ _ Hs (Hp & l & Hw & Hq & Hn). destruct (Hs Hp) as (Hp' & Hl & new & Hw' & Hq'). split; [done|].
  exists (l ++ new). rewrite Hw', Hw, Hq', Hq, Hl, length_app. split_and!; [done|by rewrite app_assoc|lia].
Qed.

Abbreviation runs := (triple alerts_ok publisher_sees).
Abbreviation then_ := (tri_bind alerts_ok publisher_sees (HR := publisher_sees_preorder)).

Section programs.
Context `{N : NetIP} (cfg : hostConfig) (env : nat → answer).

(** An action that agrees keeps what the goroutine knows. *)
Lemma r_agree {X} t (F : collector → Prop) (f : collector → option (collector * X)) `{!Stable alerts_ok publisher_sees t F} :
  (∀ s s' x, f s = Some (s', x) → agree s s') → runs t F (Act f Done) (λ _, F).
Proof.
  intros Hf. eapply tri_weaken; [apply (tri_quiet alerts_ok publisher_sees t F f (λ _ _, True))|done|by intros x s _ [? _]].
  intros s s' x Hi _ E. destruct (agree_alerts _ _ (Hf _ _ _ E) Hi). auto.
Qed.

Lemma r_asking {X} t (F : collector → Prop) (f : answer → collector → collector * X) `{!Stable alerts_ok publisher_sees t F} :
  (∀ a s, agree s (fst (f a s))) → runs t F (asking env f) (λ _, F).
Proof.
  intros Hf. eapply r_agree; [exact _|]. intros s s' x [= E]. specialize (Hf (env (asked s)) (set_asked s (S (asked s)))).
  rewrite E in Hf. destruct Hf. by split.
Qed.

(** ** Publishing *)

Lemma r_publish_loop t n : runs t (idle t n) (publish_loop env n) (λ _, idle t 0).
Proof.
  assert (∀ n s, idle t n s → idle t 0 s) as H0 by (intros m s (? & ? & ?); split_and!; [done|done|lia]).
  induction n as [|n IH]; cbn [publish_loop]; [by apply tri_ret; [apply _|]|].
  eapply then_; [apply r_asking; [apply _|done]|]. intros [|]; [apply tri_ret; [apply _|]; intros s _; apply H0|].
  eapply (then_ t _ _ _ (λ a s, ∃ x, a = Some x ∧ at_head t n x s)).
  { apply tri_act; [apply _| |].
    - intros a s s' Hi Hi' Hs (x & Hx & H). exists x. split; [done|]. exact (stable_at_head t n x s s' Hi Hi' Hs H).
    - intros s s' x Hi Hp [= <- <-]. split_and!; [done|done|]. pose proof Hp as (_ & _ & Hn). unfold waiting in Hn.
      destruct (m_pending (mon s)) as [|y l] eqn:E; [simpl in Hn; lia|]. exists y. split; [done|]. split; [done|].
      unfold waiting. by rewrite E. }
  intros [a|]; [|intros s _ (x & [=] & _)].
  apply (tri_weaken alerts_ok publisher_sees t _ (at_head t n a) _ (λ _, idle t 0) (λ _, idle t 0)); [| |auto].
  2: { by intros s _ (x & [= ->] & H). }
  eapply (then_ t _ _ _ (λ err s, match err with Some _ => idle t 0 s | None => delivered t n a s end)).
  { unfold publish. eapply then_; [apply r_asking; [apply _|done]|]. intros m. apply tri_act; [apply _|intros [e|]; apply _|].
    intros s s' x Hi [(Hp & Hq & Hn) Hh] H. simpl in H.
    destruct (a_ok _); injection H as <- <-.
    - destruct Hi as [_ Hf Hc]. unfold waiting in *. destruct (m_pending (mon s)) as [|y l] eqn:Ew; [done|].
      injection Hh as ->. simpl in Hn.
      assert (alert_log (set_sink_log (set_asked s (S (asked s))) (sink_log s ++ [WroteAlert a (envelopeFor m (al_source a) (al_event a))])) = alert_log s ++ [a]) as El.
      { unfold alert_log. simpl. rewrite omap_app. done. }
      split_and!.
      + split; [right|done|done]. split; [by exists t|]. exists a, l. unfold waiting, queued in *. simpl.
        split; [done|]. rewrite El, Hq, <- app_assoc. done.
      + intros t' Hne Ht'. exfalso. congruence.
      + split; [done|]. exists l. split_and!; [done| |lia]. rewrite El, <- app_assoc. exact Hq.
    - assert (agree s (set_asked s (S (asked s)))) as Ha by done. destruct (agree_alerts _ _ Ha Hi) as [Hi' Hs].
      split_and!; [done|auto|]. split_and!; [done|done|lia]. }
  intros [err|]; [by apply tri_ret; [apply _|]|].
  eapply (then_ t _ _ _ (λ ok s, ok = true ∧ idle t n s)).
  - apply tri_act; [apply _..|]. intros s s' x Hi (Hp & l & Hw & Hq & Hn) H. unfold waiting in Hw. simpl in H. rewrite Hw in H.
    injection H as <- <-. destruct Hi as [_ Hf Hc]. split_and!.
    + split; [by left|done|done].
    + intros t' Hne Ht'. exfalso. congruence.
    + done.
    + by split_and!.
  - intros [|]; [|by intros s _ [? _]]. eapply tri_weaken; [exact IH|by intros s _ [_ ?]|auto].
Qed.

Lemma r_publishPending t : runs t (λ _, True) (publishPending env t) (λ _ _, True).
Proof.
  eapply (then_ t _ _ _ (λ n s, match n with Some n => idle t n s | None => True end)).
  - apply tri_act; [apply _|intros [n|]; apply _|]. intros s s' x Hi _ H. simpl in H.
    destruct (publishing (mon s)) eqn:Ep; [injection H as <- <-; split_and!; [done|by intros t' _; reflexivity|done]|].
    injection H as <- <-. destruct Hi as [Ho Hf Hc]. rewrite Ep in Hf. symmetry in Hf. apply bool_decide_eq_false in Hf.
    assert (queued s = alert_log s ++ waiting s) as Hq by (destruct Ho as [?|[? _]]; [done|by destruct Hf]).
    split_and!.
    + split; [by left|done|done].
    + intros t' _ Ht'. exfalso. apply Hf. by rewrite Ht'.
    + by split_and!.
  - intros [n|]; [|by apply tri_ret; [apply _|]]. eapply then_; [apply r_publish_loop|]. intros ?.
    apply tri_act; [apply _..|]. intros s s' x Hi (Hp & Hq & _) [= <- _]. destruct Hi as [_ _ Hc]. split_and!; [| |done].
    + split; [by left|done|done].
    + intros t' Hne Ht'. exfalso. congruence.
Qed.

(** ** Sessions *)

Definition plain (t : nat) (A : Type) (p : P A) (Q : A → Prop) : Prop := runs t (λ _, True) p (λ a _, Q a).

Lemma r_set_mon {X} t (f : collector → collector * X) :
  (∀ s, publisher (fst (f s)) = publisher s ∧ sink_log (fst (f s)) = sink_log s ∧ crashed (fst (f s)) = crashed s ∧
        extends (mon s) (mon (fst (f s)))) → plain t X (both f) (λ _, True).
Proof.
  intros Hf. apply tri_act; [apply _..|]. intros s s' x Hi _ [= E]. destruct (Hf s) as (H1 & H2 & H3 & H4). rewrite E in *.
  simpl in *. destruct (alerts_extend s s') as [? ?]; [done|done|unfold alert_log; by rewrite H2|by rewrite H3|done|]. auto.
Qed.

Lemma plain_bind t A B (p : P A) (c : A → P B) (Q : A → Prop) (Q' : B → Prop) :
  plain t A p Q → (∀ a, Q a → plain t B (c a) Q') → plain t B (p ≫= c) Q'.
Proof. intros Hp Hc. eapply then_; [exact Hp|]. intros a s Hi HQ. by apply (Hc a HQ s Hi). Qed.

Lemma plain_then t A B (p : P A) (c : A → P B) :
  plain t A p (λ _, True) → (∀ a, plain t B (c a) (λ _, True)) → plain t B (p ≫= c) (λ _, True).
Proof. intros Hp Hc. eapply plain_bind; [exact Hp|]. auto. Qed.

Lemma plain_agree t X (f : collector → option (collector * X)) :
  (∀ s s' x, f s = Some (s', x) → agree s s') → plain t X (Act f Done) (λ _, True).
Proof. intros Hf. eapply tri_weaken; [by apply (r_agree t (λ _, True))|auto|auto]. Qed.

Lemma plain_now t : plain t time (now env) (λ _, True).
Proof. apply plain_agree. intros s s' x [= <- _]. done. Qed.

Lemma plain_seen t p src : plain t () (monitor_seen cfg env t p src) (λ _, True).
Proof.
  apply plain_then; [apply plain_now|]. intros n. apply plain_then; [apply plain_now|]. intros n'.
  apply plain_then; [|intros [|]; [apply r_publishPending|by apply tri_ret; [apply _|]]].
  apply r_set_mon. intros s. pose proof (seen_extends (mcfg cfg) n' p src n (mon s)) as H.
  destruct (seen _ _ _ _ _ _). done.
Qed.

Lemma plain_tick t e : plain t () (monitor_tick cfg env t e) (λ _, True).
Proof.
  apply plain_then; [apply plain_now|]. intros n. apply plain_then; [apply plain_now|]. intros n'.
  apply plain_then; [|intros _; apply plain_then; [apply plain_now|intros n2; apply plain_then; [|intros _; apply r_publishPending]]].
  - apply (r_set_mon t (λ s, (set_mon s (refresh (mcfg cfg) e n' n (mon s)), ()))). intros s. split_and!; [done..|apply refresh_extends].
  - apply r_set_mon. intros s. split_and!; [done..|]. apply check_extends.
Qed.

#[global] Instance plain_discipline t : Discipline cfg env t (plain t).
Proof.
  split.
  - intros A a Q HQ. by apply tri_ret; [apply _|].
  - apply plain_bind.
  - apply plain_agree.
  - apply plain_seen.
  - intros k src n e _. apply tri_act; [apply _..|]. intros s s' x Hi _ H. simpl in H.
    assert (extends (mon s) (mon s') ∧ publisher s' = publisher s ∧ alert_log s' = alert_log s ∧ crashed s' = crashed s) as (H1 & H2 & H3 & H4).
    { destruct (a_ok _); injection H as <- _; [|done]. split_and!; [done|done| |done].
      unfold alert_log. simpl. rewrite omap_app. simpl. by rewrite app_nil_r. }
    destruct (alerts_extend s s') as [? ?]; [done|done|done|by rewrite H4|done|]. auto.
Qed.

Lemma plain_body t g : plain t () (body cfg env t g) (λ _, True).
Proof.
  destruct g as [remote c fs|i ws|i| |e]; simpl.
  - assert (∀ X (f : collector → collector * X),
      (∀ s, mon (fst (f s)) = mon s ∧ publisher (fst (f s)) = publisher s ∧ sink_log (fst (f s)) = sink_log s ∧ crashed (fst (f s)) = crashed s) →
      plain t X (both f) (λ _, True)) as Hb.
    { intros X f Hf. apply r_set_mon. intros s. destruct (Hf s) as (-> & ? & ? & ?). done. }
    unfold serve_conn. apply plain_then.
    { unfold Server_admit. destruct (negb _); [by apply tri_ret; [apply _|]|]. apply Hb. intros s. unfold admit_locked.
      by repeat destruct (over _ _). }
    intros [reason|]; [exact (g_reject cfg env t (plain t) t _ _ reason)|].
    apply plain_then; [exact (g_count cfg env t (plain t) _ _)|]. intros _.
    apply plain_then; [exact (g_count cfg env t (plain t) _ _)|]. intros _.
    apply plain_then; [exact (g_newSession cfg env t (plain t) t _)|]. intros id.
    apply plain_then; [exact (g_run_session cfg env t (plain t) id _ fs)|]. intros _.
    apply plain_then; [exact (g_count cfg env t (plain t) _ _)|]. intros _.
    by apply (Hb _ (λ s, (release_locked t (bucket (peerOf remote c)) s, ()))).
  - exact (g_ackLoop cfg env t (plain t) i ws).
  - exact (g_drain cfg env t (plain t) i).
  - exact (g_retryPendingGaps cfg env t (plain t)).
  - apply plain_tick.
Qed.

Definition alerts_server (x : server) : Prop := pool_ok alerts_ok publisher_sees (λ _ _, True) (shared x) (threads x).

Lemma alerts_act x a : alerts_server x → alerts_server (default x (server_act cfg env x a)).
Proof.
  intros Hp. destruct a as [t g|t]; simpl.
  - destruct (threads x !! t) as [p|] eqn:Et; [done|]. eapply pool_spawn; [done|apply plain_body|done].
  - destruct (threads x !! t) as [p|] eqn:Et; [|done]. simpl.
    destruct (advance p (shared x)) as [[s' p']|] eqn:Ea; [|done].
    by destruct (pool_step alerts_ok publisher_sees _ _ _ _ _ _ _ Hp Et Ea).
Qed.

Lemma alerts_run l : ∀ x, alerts_server x → alerts_server (server_run cfg env x l).
Proof. induction l as [|a l IH]; intros x Hx; [done|]. by apply IH, alerts_act. Qed.

Lemma alerts_New vmlist start : alerts_server (New cfg vmlist start).
Proof. split; [|apply map_Forall_empty]. split; [by left|done|apply not_elem_of_nil]. Qed.

End programs.

(** ** A run *)

(** A machine goes silent and its agent returns; the sink refuses the first write. *)
Definition ticking (n : nat) : answer := mkAnswer (negb (n =? 6)%nat) false (1000 + 100 * Z.of_nat n) "disk full" (λ _, []) [].
Definition watched_vm : VMMapping := mkVM 3 "web" "u-1" "" "" "" None true.
Definition watched_cfg : hostConfig :=
  mkHostConfig 10 2 1 0 0 0 64 (mkMonitorConfig true 60 120 10 "hv" true AnyInt (λ _, "t") (λ _, "1m"))
    (newEnricher "hv" [watched_vm] None false) "1.0".
Definition watched_acts : list act :=
  Spawn 0 (GMonitor (inr [watched_vm])) :: replicate 30 (Step 0) ++
  Spawn 1 (GConn None (Some 3) demo_frames) :: replicate 120 (Step 1).
Abbreviation watched_end := (server_run watched_cfg ticking (New watched_cfg [watched_vm] 0) watched_acts).

Example watched_alerts : (λ a, Type_ (al_event a)) <$> alert_log (shared watched_end) = [TypeStreamLost; TypeStreamResumed].
Proof. vm_compute. reflexivity. Qed.

Lemma watched_acts_ok : Forall act_ok watched_acts.
Proof.
  constructor; [done|]. apply Forall_app. split; [by apply Forall_replicate|].
  constructor; [|by apply Forall_replicate]. repeat constructor; unfold is_u64, u64_mod; simpl; lia.
Qed.

