(* ===== verification/DedupOnce.v ===== *)
(** * What the deduplication table recognises stays recognised

    A sequence is recognised as a duplicate when it is at or below the watermark of its
    stream or was written ahead of it.  No operation of [Dedup] makes a stream forget
    such a sequence, except by dropping the stream or trimming its window, which
    [Commit] reports. *)

From S2P Require Import Prelude Dedup DedupPending.

Section once.
Context {Source : Type}.
Abbreviation dedupStream := (@dedupStream Source).
Abbreviation dedup := (@dedup Source).

Definition recognised (s : dedupStream) (q : Z) : Prop := q <= written s ∨ q ∈ ahead s.
Definition retains (s s' : dedupStream) : Prop := ∀ q, recognised s q → recognised s' q.

#[local] Instance retains_preorder : PreOrder retains.
Proof. split; [by intros s q|]. intros s1 s2 s3 H1 H2 q ?. auto. Qed.

(** Sequences are positive. *)
Record positive (s : dedupStream) : Prop := {
  po_written : is_u64 (written s);
  po_ahead q : q ∈ ahead s → 0 < q;
  po_missing : Forall (λ r, 0 < first r ∧ is_u64 (first r) ∧ is_u64 (last r)) (missing s)
}.

Lemma positive_same s s' : same_account s s' → positive s → positive s'.
Proof. intros (Ha & Hm & Hw) [? ? ?]. split; by rewrite ?Ha, ?Hm, ?Hw. Qed.
Lemma retains_same s s' : same_account s s' → retains s s'.
Proof. intros (Ha & Hm & Hw) q. unfold recognised. by rewrite Ha, Hw. Qed.

Lemma absorb_step_retains s s' : positive s → absorb_step s = Some s' → positive s' ∧ retains s s'.
Proof.
  intros [Hw Ha Hm] H. unfold absorb_step in H. destruct (u64_succ _ Hw) as [[Hs Hlt]|[Hs Hmax]]; rewrite Hs in H.
  - case_bool_decide as Hin.
    + injection H as <-. split.
      * split; simpl; [unfold is_u64 in *; lia|set_solver|done].
      * intros q [Hq|Hq]; [left; simpl; lia|]. destruct (decide (q = written s + 1)); [left; simpl; lia|right; simpl; set_solver].
    + destruct (takeMissing _ _) as [[x rest]|] eqn:Et; [|done]. injection H as <-.
      apply takeMissing_spec in Et as (r & Hr & Hin' & -> & Hp).
      assert (Forall (λ r, 0 < first r ∧ is_u64 (first r) ∧ is_u64 (last r)) (r :: rest)) as Hm' by (by rewrite <- Hp).
      apply Forall_cons in Hm' as [(_ & _ & Hl) Hrest]. split; [by split|].
      unfold in_range in Hin'. intros q [Hq|Hq]; [left; simpl; lia|by right].
  - case_bool_decide as Hin; [apply Ha in Hin; lia|]. destruct (takeMissing _ _) as [[x rest]|] eqn:Et; [|done].
    apply takeMissing_spec in Et as (r & Hr & Hin' & _). rewrite Forall_forall in Hm. destruct (Hm r Hr) as [? _].
    unfold in_range in Hin'. lia.
Qed.

Lemma absorb_retains s : positive s → positive (absorb s) ∧ retains s (absorb s).
Proof.
  unfold absorb. generalize (size (ahead s) + length (missing s) + 1)%nat. intros n. revert s.
  induction n as [|n IH]; intros s Hs; simpl; [done|]. destruct (absorb_step s) as [s1|] eqn:E; [|done].
  destruct (absorb_step_retains _ _ Hs E) as [H1 H2]. destruct (IH s1 H1) as [H3 H4]. split; [done|by etrans].
Qed.

Lemma above_positive w l : is_u64 w → Forall (λ r, 0 < first r ∧ is_u64 (first r) ∧ is_u64 (last r)) l →
  Forall (λ r, 0 < first r ∧ is_u64 (first r) ∧ is_u64 (last r)) (above w l).
Proof.
  intros Hw Hl. induction Hl as [|r l (H0 & H1 & H2) _ IH]; [done|]. unfold above in *. simpl.
  destruct (Z.leb_spec (last r) w); [done|]. destruct (Z.leb_spec (first r) w); constructor; try done.
  simpl. destruct (u64_succ w Hw) as [[-> ?]|[? ?]]; unfold is_u64 in *; lia.
Qed.

Lemma coalesce_positive ranges : ∀ f l kept f' l',
  Forall (λ r, 0 < first r ∧ is_u64 (first r) ∧ is_u64 (last r)) ranges → 0 < f → is_u64 f → is_u64 l →
  coalesce f l ranges = (kept, f', l') →
  Forall (λ r, 0 < first r ∧ is_u64 (first r) ∧ is_u64 (last r)) (kept ++ [mkRange f' l']).
Proof.
  induction ranges as [|r ranges IH]; intros f l kept f' l' Hr Hf Hf' Hl H; simpl in H.
  - injection H as <- <- <-. simpl. constructor; [done|constructor].
  - apply Forall_cons in Hr as [(R1 & R2 & R3) Hr]. destruct (apart f l r).
    + destruct (coalesce f l ranges) as [[k f2] l2] eqn:E. injection H as <- <- <-. simpl. constructor; [done|by eapply IH].
    + eapply IH; [done| | | |exact H]; unfold is_u64 in *; lia.
Qed.

Lemma noteMissing_retains s f l s' : positive s → is_u64 f → is_u64 l → noteMissing s f l = Some s' →
  positive s' ∧ retains s s'.
Proof.
  intros Hs Hf Hl H. unfold noteMissing in H. destruct (_ || _) eqn:Eo; [by injection H as <-|].
  apply orb_false_iff in Eo as [E1 E2]. bool_props.
  destruct (clip_spec (written s) f l (po_written s Hs) Hf Hl E1 E2) as (Hf1 & _ & Hw1).
  set (f1 := if f <=? written s then u64 (written s + 1) else f) in *.
  destruct (coalesce f1 l (above (written s) (missing s))) as [[kept f2] l2] eqn:Ec.
  destruct (_ && _); [done|]. injection H as <-.
  pose proof (po_written s Hs) as Hw.
  apply coalesce_positive in Ec; [|by apply above_positive; [|apply Hs]|unfold is_u64 in Hw; lia|done|done].
  set (s1 := set_missing s _). assert (positive s1) as Hs1.
  { destruct Hs as [A B C]. split; [done|done|]. simpl. by rewrite SortFunc_perm. }
  destruct (absorb_retains s1 Hs1) as [H1 H2]. split; [done|]. etrans; [|exact H2]. by intros q.
Qed.

Lemma check_retains s seq : is_u64 seq → positive s → 0 < highest s →
  positive (fst (check s seq)) ∧ retains s (fst (check s seq)).
Proof.
  intros Hq Hs Hb. destruct (check_same s seq) as (Ea & Em & Ew). destruct (check_highest s seq Hb) as [_ E]. rewrite E in Ew.
  assert (same_account s (fst (check s seq))) by by split_and!. split; [by eapply positive_same|by apply retains_same].
Qed.

(** What a check that is not refused leaves. *)
Lemma check_seen (s : dedupStream) seq : Blocked (snd (check s seq)) = false → seq <= highest (fst (check s seq)).
Proof.
  unfold check. destruct (arrivalOverflow s); [done|]. destruct (excludePending _ _) as [s2|]; [|done].
  destruct (if negb (highest s2 =? 0) && _ && _ then _ else _) as [s3|]; [|done]. intros _. simpl.
  destruct (Z.ltb_spec (highest s3) seq); simpl; lia.
Qed.

Lemma check_new s seq : Blocked (snd (check s seq)) = false → Duplicate (snd (check s seq)) = false →
  ¬ recognised (fst (check s seq)) seq.
Proof.
  unfold check. destruct (arrivalOverflow s); [done|]. destruct (excludePending _ _) as [s2|]; [|done].
  destruct (if negb (highest s2 =? 0) && _ && _ then _ else _) as [s3|]; [|done]. intros _. simpl.
  set (s4 := if highest s3 <? seq then _ else _). destruct (Z.leb_spec seq (written s4)); [done|].
  intros Hd%bool_decide_eq_false [?|?]; [lia|done].
Qed.

Lemma check_grows_highest (s : dedupStream) seq : highest s <= highest (fst (check s seq)).
Proof.
  unfold check. destruct (arrivalOverflow s); [done|].
  set (s1 := if (highest s =? 0) && (0 <? seq) then set_written s (seq - 1) else s).
  assert (highest s1 = highest s) as E1 by (unfold s1; by destruct (_ && _)).
  destruct (excludePending s1 seq) as [s2|] eqn:E2; simpl; [|lia]. apply excludePending_same in E2 as (_ & Hh2 & _).
  destruct (if negb (highest s2 =? 0) && _ && _ then _ else _) as [s3|] eqn:E3; simpl; [|lia].
  assert (highest s3 = highest s2) as Hh3.
  { destruct (_ && _ && _); [by apply queueMissing_same in E3 as (_ & ? & _)|by injection E3 as <-]. }
  destruct (Z.ltb_spec (highest s3) seq); simpl; lia.
Qed.

(** The first event of a stream. *)
Lemma check_first (s : dedupStream) seq : is_u64 seq → 0 < seq → pending s = [] → arrivalOverflow s = false → highest s = 0 →
  ahead s = ∅ → missing s = [] → positive (fst (check s seq)) ∧ 0 < highest (fst (check s seq)).
Proof.
  intros Hq H0 Hp Ho Hh Ha Hm. destruct (check_same s seq) as (Ea & Em & Ew). split.
  - unfold anchors in Ew. rewrite Ho, Hh in Ew. rewrite (proj2 (Z.ltb_lt 0 seq) H0) in Ew. simpl in Ew.
    split; [rewrite Ew; unfold is_u64 in *; lia|rewrite Ea, Ha; set_solver|rewrite Em, Hm; constructor].
  - unfold check. rewrite Ho, Hh. rewrite (proj2 (Z.ltb_lt 0 seq) H0). simpl. unfold excludePending. simpl. rewrite Hp. simpl.
    rewrite Hh. simpl. rewrite Hh, (proj2 (Z.ltb_lt 0 seq) H0). simpl. lia.
Qed.

(** ** Commits and reports *)

Lemma commit_retains w order s seq s' r : 0 <= w → 0 < seq → positive s → commit w order s seq = (s', r) →
  positive s' ∧ highest s' = highest s ∧ (r.2 <= 0 → retains s s' ∧ recognised s' seq).
Proof.
  intros Hw0 H0 Hs H. pose proof (highest_commit w order s seq) as Hh. rewrite H in Hh. simpl in Hh.
  unfold commit in H. destruct (Z.leb_spec seq (written s)) as [Hle|Hlt].
  { injection H as <- <-. split_and!; [done|done|]. intros _. split; [done|by left]. }
  set (s1 := set_ahead s ({[seq]} ∪ ahead s)) in *.
  assert (positive s1) as Hs1 by (destruct Hs as [A B C]; split; [done|simpl; set_solver by lia|done]).
  assert (retains s s1 ∧ recognised s1 seq) as [R1 R1'].
  { split; [intros q [?|?]; [by left|right; simpl; set_solver]|right; simpl; set_solver]. }
  destruct (absorb_retains s1 Hs1) as [Hs2 R2]. destruct (prunePending_same order (absorb s1)) as [Hp _].
  set (s3 := prunePending order (absorb s1)) in *.
  assert (positive s3) as Hs3 by by eapply positive_same. pose proof (retains_same _ _ Hp) as R3.
  unfold trim in H. destruct (Z.leb_spec (Z.of_nat (size (ahead s3))) w) as [Hle|Hgt].
  - injection H as <- <-. split_and!; [done|done|]. intros _. split; [|auto]. etrans; [exact R1|]. by etrans.
  - injection H as <- <-. split_and!; [|done|].
    + destruct Hs3 as [A B C]. split; [done|simpl; set_solver|done].
    + simpl. intros Hn. exfalso. pose proof (Z.div_pos w 4 Hw0 ltac:(lia)). lia.
Qed.

Lemma account_retains order s f l s' : positive s → is_u64 f → is_u64 l → account order s f l = Some s' →
  positive s' ∧ retains s s' ∧ highest s <= highest s'.
Proof.
  intros Hs Hf Hl H. pose proof (highest_account _ _ _ _ _ H) as Hh. unfold account in H.
  destruct (subtractRange _ _ _) as [rem|]; [|done]. destruct (noteMissing s f l) as [s1|] eqn:En; [|done].
  destruct (noteMissing_retains _ _ _ _ Hs Hf Hl En) as [Hs1 R1].
  destruct (prunePending_same order (set_pending s1 rem)) as [Hp _].
  set (s2 := prunePending order (set_pending s1 rem)) in *.
  assert (same_account s1 s') as Hsame by (destruct (highest s2 <? l); injection H as <-; done).
  split_and!; [by eapply positive_same|etrans; [exact R1|by apply retains_same]|done].
Qed.

(** ** The table *)

(** A stream that has received something moves on. *)
Definition moves (s s' : dedupStream) : Prop :=
  positive s → 0 < highest s → positive s' ∧ retains s s' ∧ 0 < highest s'.

Definition begun (s : dedupStream) : Prop := positive s ∧ 0 < highest s.

(** Every stream of [d'] moved on from [d], or has begun. *)
Definition advances (d d' : dedup) : Prop :=
  window d' = window d ∧ ∀ k s', streams d' !! k = Some s' →
    (∃ s, streams d !! k = Some s ∧ moves s s') ∨ (streams d !! k = None ∧ begun s').

Lemma moves_same s s' : same_stream s s' → moves s s'.
Proof. intros [Ha Hh] Hp H0. split_and!; [by eapply positive_same|by apply retains_same|by rewrite Hh]. Qed.

Lemma moves_trans s1 s2 s3 : moves s1 s2 → moves s2 s3 → moves s1 s3.
Proof.
  intros H12 H23 Hp H0. destruct (H12 Hp H0) as (P2 & R2 & H2). destruct (H23 P2 H2) as (P3 & R3 & H3).
  split_and!; [done|by etrans|done].
Qed.

Lemma quiet_advances d d' : window d' = window d → quiet d d' → advances d d'.
Proof. intros Hw Hq. split; [done|]. intros k s' Hs. destruct (Hq k s' Hs) as (s & ? & ?). left. exists s. split; [done|by apply moves_same]. Qed.

(** An operation on one stream. *)
Lemma at_advances d d' k : window d' = window d → only_at k d d' →
  (∀ s', streams d' !! k = Some s' →
    (∃ s, streams d !! k = Some s ∧ moves s s') ∨ (streams d !! k = None ∧ begun s')) → advances d d'.
Proof.
  intros Hw Ho Hk. split; [done|]. intros k' s' Hs. destruct (decide (k' = k)) as [->|Hne]; [by apply Hk|].
  left. exists s'. split; [by eapply Ho|by apply moves_same].
Qed.

Lemma check_moves s seq : is_u64 seq → moves s (fst (check s seq)).
Proof.
  intros Hq Hp H0. destruct (check_retains s seq Hq Hp H0). split_and!; [done|done|].
  pose proof (check_grows_highest s seq). lia.
Qed.

Lemma Check_advances d k seq : is_u64 seq → 0 < seq → advances d (fst (Check d k seq)).
Proof.
  intros Hq H0. unfold Check. destruct (stream d k) as [d1 os] eqn:Es. apply stream_spec in Es as (Ho & Hw & _ & Hs).
  destruct os as [s1|].
  - destruct Hs as [_ Hs]. destruct (check s1 seq) as [s2 r] eqn:Ec. apply (at_advances _ _ k); [done|by apply put_only_at|].
    intros s'. simpl. rewrite lookup_insert_eq. intros [= <-]. replace s2 with (fst (check s1 seq)) by by rewrite Ec.
    destruct Hs as [(s0 & u & H1 & ->)|(H1 & id & clk & ->)].
    + left. exists s0. split; [done|]. eapply moves_trans; [|by apply check_moves]. by apply moves_same.
    + right. split; [done|]. by apply check_first.
  - apply (at_advances _ _ k); [done|done|]. intros s'. simpl. by rewrite Hs.
Qed.

Lemma remember_moves src s : moves s (remember_source src s).
Proof. apply moves_same. split; [apply remember_same|]. unfold remember_source. by destruct (pending s), (gapSource s). Qed.

(** A stream that reached its limit of arrivals stays as it is; a new one is below it. *)
Lemma reserve_advances d k seq src : 0 < window d → is_u64 seq → 0 < seq → advances d (fst (reserveArrival d k seq src)).
Proof.
  intros Hwd Hq H0. unfold reserveArrival. destruct (stream d k) as [d1 os] eqn:Es. apply stream_spec in Es as (Ho & Hw & _ & Hs).
  destruct os as [s1|]; [|apply (at_advances _ _ k); [done|done|]; intros s'; simpl; by rewrite Hs]. destruct Hs as [_ Hs].
  assert (∀ n, advances d (put d1 k (remember_source src (fst (check (set_arrivals s1 (<[seq := n]> (arrivals s1))) seq))))) as Hgo.
  { intros n. apply (at_advances _ _ k); [done|by apply put_only_at|]. intros s'. simpl. rewrite lookup_insert_eq. intros [= <-].
    destruct Hs as [(s0 & u & H1 & ->)|(H1 & id & clk & ->)].
    - left. exists s0. split; [done|]. eapply moves_trans; [|apply remember_moves].
      eapply moves_trans; [|by apply check_moves]. by apply moves_same.
    - right. split; [done|]. destruct (check_first (set_arrivals (new_stream id clk) (<[seq := n]> ∅)) seq) as [Hp Hh]; [done..|].
      by destruct (remember_moves src (fst (check (set_arrivals (new_stream id clk) (<[seq := n]> ∅)) seq)) Hp Hh) as (? & _ & ?). }
  destruct (arrivals s1 !! seq); [apply Hgo|]. destruct (Z.leb_spec (window d1) (Z.of_nat (size (arrivals s1)))) as [Hle|]; [|apply Hgo].
  apply (at_advances _ _ k); [done|by apply put_only_at|]. intros s'. simpl. rewrite lookup_insert_eq. intros [= <-].
  destruct Hs as [(s0 & u & H1 & ->)|(H1 & id & clk & ->)].
  - left. exists s0. split; [done|by apply moves_same].
  - exfalso. simpl in Hle. rewrite map_size_empty in Hle. lia.
Qed.

Lemma finish_advances d p ok order : range_u64 (p_gap p) → advances d (fst (finishGap d p ok order)).
Proof.
  intros [Hf Hl]. destruct (finish_maps d p order ok) as [Ho Hm]. apply (at_advances _ _ (p_key p)); [|done|].
  - unfold finishGap. destruct (streams d !! p_key p); [|done]. destruct (_ || _); [done|].
    destruct (_ || _ || _ || _); [done|]. by destruct (account _ _ _ _).
  - intros s' Hs'. destruct (streams d !! p_key p) as [s|] eqn:Es.
    + left. exists s. split; [done|]. destruct (Hm s s' eq_refl Hs') as (s1 & H1 & _ & [Hsame|(_ & s2 & Ha & Hsame)]).
      * eapply moves_trans; by apply moves_same.
      * eapply moves_trans; [by apply moves_same|]. eapply moves_trans; [|by apply moves_same]. intros Hp H0.
        destruct (account_retains _ _ _ _ _ Hp Hf Hl Ha) as (? & ? & ?). split_and!; [done|done|lia].
    + exfalso. unfold finishGap in Hs'. rewrite Es in Hs'. simpl in Hs'. congruence.
Qed.

(** A commit to a stream that the table follows. *)
Lemma Commit_advances d k seq order d' r s : 0 <= window d → 0 < seq → Commit d k seq order = (d', r) →
  streams d !! k = Some s → begun s → r.2 <= 0 →
  advances d d' ∧ ∃ s', streams d' !! k = Some s' ∧ recognised s' seq.
Proof.
  intros Hw H0 H Hs [Hp Hh] Hr. unfold Commit in H. destruct (stream d k) as [d1 os] eqn:Es.
  pose proof Es as Es'. apply stream_spec in Es' as (Ho & Hw1 & _ & _).
  destruct (stream_hit _ _ _ _ _ Hs Es) as [_ ->]. set (s1 := set_used s (u64 (clock d + 1))) in *.
  destruct (commit (window d1) order s1 seq) as [s2 r'] eqn:Ec. injection H as <- <-.
  apply commit_retains in Ec as (Hp2 & Hh2 & Hr2); [|lia|done|by apply (positive_same s)]. destruct (Hr2 Hr) as [R2 Q2]. split.
  - apply (at_advances _ _ k); [done|by apply put_only_at|]. intros s'. simpl. rewrite lookup_insert_eq. intros [= <-].
    left. exists s. split; [done|]. intros _ _. split_and!; [done| |rewrite Hh2; done].
    etrans; [by apply (retains_same s s1)|done].
  - exists s2. simpl. by rewrite lookup_insert_eq.
Qed.

(** What a check says of a new sequence. *)
Lemma Check_new d k seq d' r : Check d k seq = (d', r) → Blocked r = false → Duplicate r = false →
  ∃ s, streams d' !! k = Some s ∧ ¬ recognised s seq ∧ seq <= highest s.
Proof.
  unfold Check. destruct (stream d k) as [d1 [s1|]]; [|by intros [= <- <-]].
  destruct (check s1 seq) as [s2 r'] eqn:Ec. intros [= <- <-] Hb Hd. exists s2. simpl. rewrite lookup_insert_eq. split; [done|].
  pose proof (check_new s1 seq) as H1. pose proof (check_seen s1 seq) as H2. rewrite Ec in H1, H2. simpl in *. split; [by apply H1|by apply H2].
Qed.

(** ** The other operations leave the window alone *)

Lemma window_take (d : dedup) order : window (fst (takePendingGap d order)) = window d.
Proof. unfold takePendingGap. by destruct (fold_left _ _ None) as [[[k s] g]|]. Qed.
Lemma window_takeNext (d : dedup) k order : window (fst (takeNextPendingGap d k order)) = window d.
Proof.
  unfold takeNextPendingGap. destruct (streams d !! k) as [s|]; [|done]. destruct (negb _); [done|].
  by destruct (nextPublishableGap order s) as [s' [g|]].
Qed.
Lemma window_claim (d : dedup) k src f l v : window (fst (claimGap d k src f l v)) = window d.
Proof. unfold claimGap. destruct (streams d !! k); [|done]. destruct (_ || _ || _ || _); [done|]. by destruct (_ || _). Qed.
Lemma window_release (d : dedup) r order : window (release d r order) = window d.
Proof. unfold release. destruct (streams d !! a_key r); [|done]. by destruct (_ =? _). Qed.
Lemma window_resume (d : dedup) k : window (fst (ResumeFrom d k)) = window d.
Proof. unfold ResumeFrom. by destruct (streams d !! k). Qed.
Lemma window_replay (d : dedup) k q : window (fst (CheckReplay d k q)) = window d.
Proof.
  unfold CheckReplay. destruct (streams d !! k); [|done]. cbv zeta. destruct (_ && _); [|done].
  by destruct (queueReplayMissing _ _).
Qed.
Lemma window_commit (d : dedup) k q order d' r : Commit d k q order = (d', r) → window d' = window d.
Proof.
  unfold Commit. destruct (stream d k) as [d1 os] eqn:Es. apply stream_spec in Es as (_ & Hw & _ & _).
  destruct os as [s|]; [|by intros [= <- _]]. destruct (commit _ _ _ _). by intros [= <- _].
Qed.
End once.
