(* ===== verification/CollectorOnce.v ===== *)
(** * An event reaches the sink once

    In every interleaving of the collector's goroutines, the sink accepts an event of a
    stream at most once while the deduplication table follows that stream: copies of an
    event that arrive over several connections at the same time are serialized by the
    write gate of the peer, and the second finds the first committed. *)

From S2P Require Import Prelude GoStrings ClientIP Event InternalEvents Messages Frame Dedup DedupPending DedupOnce Threads Triples Enrich HostMonitor Collector CollectorFrames CollectorSafety CollectorAcks.

(** ** The gates *)

(** Goroutine [t] has entered the gate [g] of [k], and holds its token if [b]. *)
Definition at_gate (t : nat) (k : string) (g : nat) (b : bool) (s : collector) : Prop :=
  gate_of s !! k = Some g ∧ ∃ x, gates s !! g = Some x ∧ t ∈ users x ∧ (token x = Some t ↔ b = true).
Abbreviation holds t k g := (at_gate t k g true).

Record gates_ok (s : collector) : Prop := {
  go_refs g x : gates s !! g = Some x → refs x = Z.of_nat (length (users x));
  go_inj k k' g : gate_of s !! k = Some g → gate_of s !! k' = Some g → k = k';
  go_range k g : gate_of s !! k = Some g → is_Some (gates s !! g);
  go_token g x t : gates s !! g = Some x → token x = Some t → t ∈ users x;
  go_nodup g x : gates s !! g = Some x → NoDup (users x)
}.

Lemma holds_excl s t t' k g g' : holds t k g s → holds t' k g' s → t = t'.
Proof.
  intros (H1 & x & H2 & _ & H3) (H1' & x' & H2' & _ & H3'). rewrite H1 in H1'. injection H1' as <-.
  rewrite H2 in H2'. injection H2' as <-. assert (Some t = Some t') as [=]; [|done].
  rewrite <- (proj2 H3 eq_refl). by apply H3'.
Qed.

Lemma remove_one_other t t' l : t ≠ t' → t' ∈ l → t' ∈ remove_one t l.
Proof.
  intros Hne. induction l as [|x l IH]; simpl; [done|]. intros [->|H]%elem_of_cons.
  - destruct (Nat.eqb_spec x t); [congruence|by left].
  - destruct (Nat.eqb_spec x t); [done|right; auto].
Qed.

Lemma remove_one_length t l : t ∈ l → S (length (remove_one t l)) = length l.
Proof.
  induction l as [|x l IH]; simpl; [by intros ?%elem_of_nil|]. intros [->|H]%elem_of_cons.
  - by rewrite Nat.eqb_refl.
  - destruct (Nat.eqb_spec x t); [done|]. simpl. by rewrite IH.
Qed.

(** ** The invariant *)

Definition known (s : collector) (k : streamKey) (q : Z) : Prop :=
  ∃ x, streams (ded s) !! k = Some x ∧ recognised x q.
Definition present (s : collector) (k : streamKey) : Prop := is_Some (streams (ded s) !! k).

(** The sequences of the events of [k] in the sink. *)
Definition seqs_of (k : streamKey) (l : list (streamKey * Envelope)) : list Z :=
  (λ x, Sequence (env_Event x.2)) <$> filter (λ x, x.1 = k) l.
Definition seqs (s : collector) (k : streamKey) : list Z := seqs_of k (event_log s).

Definition peer_key (b : string) : string := "peer:" +:+ b.

Record once_ok (s : collector) : Prop := {
  oo_gates : gates_ok s;
  oo_window : 0 < window (ded s);
  oo_pending : tbl_u64 (ded s);
  oo_begun k x : k ∉ lapsed s → streams (ded s) !! k = Some x → begun x;
  oo_once k : k ∉ lapsed s → NoDup (seqs s k);
  oo_known k q : k ∉ lapsed s → q ∈ seqs s k → known s k q ∨ ∃ t g, holds t (peer_key k.1) g s
}.

(** What goroutine [t] relies on. *)
Record counts_on (t : nat) (s s' : collector) : Prop := {
  co_gate k g b : at_gate t k g b s → at_gate t k g b s';
  co_seqs k g : holds t (peer_key k.1) g s → seqs s' k = seqs s k;
  co_lapsed : lapsed s ⊆ lapsed s';
  co_known k q : k ∉ lapsed s' → known s k q → known s' k q;
  co_present k : k ∉ lapsed s' → present s k → present s' k;
  co_in g x' : gates s' !! g = Some x' → t ∈ users x' → ∃ x, gates s !! g = Some x ∧ t ∈ users x
}.

#[global] Instance counts_on_preorder t : PreOrder (counts_on t).
Proof.
  split; [split; by eauto|]. intros s1 s2 s3 [A1 B1 C1 D1 E1 F1] [A2 B2 C2 D2 E2 F2]. split.
  - auto.
  - intros k g H. rewrite (B2 k g), (B1 k g); auto.
  - set_solver.
  - intros k q H ?. apply D2; [done|]. apply D1; [set_solver|done].
  - intros k H ?. apply E2; [done|]. apply E1; [set_solver|done].
  - intros g x Hx Ht. destruct (F2 g x Hx Ht) as (y & Hy & Hty). by apply (F1 g y).
Qed.

Abbreviation does := (framed once_ok counts_on).
Abbreviation runs := (triple once_ok counts_on).
Abbreviation bind_ := (f_bind once_ok counts_on (HR := counts_on_preorder)).
Abbreviation then_ := (tri_bind once_ok counts_on (HR := counts_on_preorder)).
Abbreviation quiet_prog t p := (framed once_ok counts_on t (λ _, True) p (λ _ _, True)).

#[global] Instance stable_at_gate t k g b : Stable once_ok counts_on t (at_gate t k g b).
Proof. intros s s' _ _ H. apply (co_gate _ _ _ H). Qed.

(** [t] has entered no gates but [gs]. *)
Definition only (t : nat) (gs : list nat) (s : collector) : Prop :=
  ∀ g x, gates s !! g = Some x → t ∈ users x → g ∈ gs.

#[global] Instance stable_only t gs : Stable once_ok counts_on t (only t gs).
Proof. intros s s' _ _ Hs H g x Hx Ht. destruct (co_in _ _ _ Hs g x Hx Ht) as (y & ? & ?). by apply (H g y). Qed.
#[global] Instance stable_when t (C : Prop) P : Stable once_ok counts_on t P → Stable once_ok counts_on t (λ s, C → P s).
Proof. intros HP s s' Hi Hi' Hs H Hc. exact (HP s s' Hi Hi' Hs (H Hc)). Qed.

(** [t] holds the gate of [kx], and every event in the sink that it guards is known. *)
Definition settled (t : nat) (kx : string) (g : nat) (s : collector) : Prop :=
  holds t kx g s ∧ ∀ k q, peer_key k.1 = kx → k ∉ lapsed s → q ∈ seqs s k → known s k q.

#[global] Instance stable_settled t kx g : Stable once_ok counts_on t (settled t kx g).
Proof.
  intros s s' _ _ Hs [H1 H2]. split; [by apply (co_gate _ _ _ Hs)|]. intros k q Hk Hl Hq.
  pose proof (co_lapsed _ _ _ Hs). apply (co_known _ _ _ Hs); [done|]. apply H2; [done|set_solver|].
  rewrite <- (co_seqs _ _ _ Hs k g); [done|by rewrite Hk].
Qed.

(** The event [q] of [k] is new. *)
Definition fresh (t : nat) (g : nat) (k : streamKey) (q : Z) (s : collector) : Prop :=
  settled t (peer_key k.1) g s ∧ (k ∉ lapsed s → q ∉ seqs s k ∧ present s k).

#[global] Instance stable_fresh t g k q : Stable once_ok counts_on t (fresh t g k q).
Proof.
  intros s s' Hi Hi' Hs [H1 H2]. split; [exact (stable_settled t (peer_key k.1) g s s' Hi Hi' Hs H1)|]. intros Hl.
  pose proof (co_lapsed _ _ _ Hs). destruct H2 as [Hq Hp]; [set_solver|]. split; [|by apply (co_present _ _ _ Hs)].
  by rewrite (co_seqs _ _ _ Hs k g (proj1 H1)).
Qed.

(** The event [q] of [k] is in the sink and may not be known yet. *)
Definition pending_commit (t : nat) (g : nat) (k : streamKey) (q : Z) (s : collector) : Prop :=
  holds t (peer_key k.1) g s ∧
  (∀ k' q', peer_key k'.1 = peer_key k.1 → k' ∉ lapsed s → q' ∈ seqs s k' → known s k' q' ∨ (k' = k ∧ q' = q)) ∧
  (k ∉ lapsed s → present s k).

#[global] Instance stable_pending_commit t g k q : Stable once_ok counts_on t (pending_commit t g k q).
Proof.
  intros s s' _ _ Hs (H1 & H2 & H3). pose proof (co_lapsed _ _ _ Hs). split_and!.
  - by apply (co_gate _ _ _ Hs).
  - intros k' q' Hk Hl Hq. destruct (H2 k' q') as [?|?]; [done|set_solver| |left; by apply (co_known _ _ _ Hs)|by right].
    rewrite <- (co_seqs _ _ _ Hs k' g); [done|by rewrite Hk].
  - intros Hl. apply (co_present _ _ _ Hs); [done|]. apply H3. set_solver.
Qed.

#[export] Typeclasses Opaque at_gate settled fresh pending_commit.

(** ** Actions that touch neither table, gates nor events *)

Record same (s s' : collector) : Prop := {
  sm_ded : ded s' = ded s; sm_gate_of : gate_of s' = gate_of s; sm_gates : gates s' = gates s;
  sm_lapsed : lapsed s' = lapsed s; sm_events : event_log s' = event_log s
}.

Lemma watches_same s s' : watches s s' → same s s'.
Proof. intros [? ? ? ? ? ? ? ?]. by split. Qed.

Lemma same_at_gate s s' t k g b : same s s' → at_gate t k g b s → at_gate t k g b s'.
Proof. intros [_ E1 E2 _ _]. unfold at_gate. by rewrite E1, E2. Qed.

Lemma same_counts s s' : same s s' → ∀ t, counts_on t s s'.
Proof.
  intros Hs t. pose proof Hs as [E1 E2 E3 E4 E5]. split.
  - intros k g b. by apply same_at_gate.
  - intros k g _. unfold seqs. by rewrite E5.
  - by rewrite E4.
  - intros k q _. unfold known. by rewrite E1.
  - intros k _. unfold present. by rewrite E1.
  - intros g x Hx Ht. rewrite E3 in Hx. by exists x.
Qed.

Lemma same_ok s s' : same s s' → once_ok s → once_ok s'.
Proof.
  intros Hs [[G1 G2 G3 G4 G5] H2 H3 H4 H5 H6]. pose proof Hs as [E1 E2 E3 E4 E5]. split.
  - split; rewrite ?E2, ?E3; done.
  - by rewrite E1.
  - by rewrite E1.
  - rewrite E1, E4. done.
  - intros k. rewrite E4. unfold seqs. rewrite E5. apply H5.
  - intros k q. rewrite E4. unfold seqs. rewrite E5. intros Hl Hq. unfold known. rewrite E1.
    destruct (H6 k q Hl Hq) as [?|(t & g & ?)]; [by left|right]. exists t, g. by apply (same_at_gate s).
Qed.

Lemma o_q_same {X} t (f : collector → option (collector * X)) : (∀ s s' x, f s = Some (s', x) → same s s') → quiet_prog t (Act f Done).
Proof.
  intros Hf. apply f_act; [apply _..|]. intros s s' x Hi _ E. apply Hf in E.
  split_and!; [by eapply same_ok|by apply same_counts|done].
Qed.

Lemma o_q_bind {A B} t (p : P A) (c : A → P B) : quiet_prog t p → (∀ a, quiet_prog t (c a)) → quiet_prog t (p ≫= c).
Proof. intros Hp Hc. eapply bind_; [exact Hp|]. intros a. apply Hc. Qed.
Lemma o_q_ret {A} t (a : A) : quiet_prog t (mret a).
Proof. by apply f_ret; [apply _|]. Qed.
Lemma o_q_both {X} t (f : collector → collector * X) : (∀ s, same s (fst (f s))) → quiet_prog t (both f).
Proof. intros Hf. apply o_q_same. intros s s' x [= E]. specialize (Hf s). by rewrite E in Hf. Qed.
Lemma o_q_write t (f : collector → collector) : (∀ s, same s (f s)) → quiet_prog t (write f).
Proof. intros Hf. apply o_q_same. intros s s' x [= <- _]. done. Qed.
Lemma o_q_read {X} t (f : collector → X) : quiet_prog t (read f).
Proof. apply o_q_same. intros s s' x [= <- _]. done. Qed.

Lemma o_q_within {A} t (p : P A) : within same (λ _, True) p → quiet_prog t p.
Proof.
  induction p as [a|X f k IH]; intros Hp; [apply o_q_ret|]. destruct Hp as [Hf Hk].
  change (quiet_prog t (Act f Done ≫= k)). apply o_q_bind; [by apply o_q_same|]. intros x. by apply IH.
Qed.

Lemma o_keep {A} t (F : collector → Prop) (p : P A) `{!Stable once_ok counts_on t F} : quiet_prog t p → does t F p (λ _, F).
Proof.
  intros Hp. apply (f_weaken once_ok counts_on t F (λ s, F s ∧ True) p (λ _, F) (λ _ s, F s ∧ True)).
  - by apply f_frame.
  - auto.
  - by intros a s _ [? _].
Qed.
Lemma o_q_any {A} t (F : collector → Prop) (p : P A) : quiet_prog t p → does t F p (λ _ _, True).
Proof. intros Hp. by eapply f_weaken; [exact Hp|..]. Qed.

(** ** The table *)

(** A step of the table; what a stream that lapses has become does not matter. *)
Lemma table_but s s' : once_ok s → window (ded s') = window (ded s) →
  (∀ k x', k ∉ lapsed s' → streams (ded s') !! k = Some x' →
    (∃ x, streams (ded s) !! k = Some x ∧ moves x x') ∨ (streams (ded s) !! k = None ∧ begun x')) →
  tbl_u64 (ded s') → gate_of s' = gate_of s → gates s' = gates s → event_log s' = event_log s →
  lapsed s ∪ lapses (ded s) (ded s') ⊆ lapsed s' → once_ok s' ∧ ∀ t, counts_on t s s'.
Proof.
  intros [G H2 H3 H4 H5 H6] Hw Ha Hu E1 E2 E3 E4.
  assert (∀ t k g b, at_gate t k g b s → at_gate t k g b s') as Hg by (intros t k g b; unfold at_gate; by rewrite E1, E2).
  assert (∀ k x, k ∉ lapsed s' → streams (ded s) !! k = Some x → ∃ x', streams (ded s') !! k = Some x' ∧ moves x x') as Hm.
  { intros k x Hl Hx. destruct (streams (ded s') !! k) as [x'|] eqn:E.
    - destruct (Ha k x' Hl E) as [(y & Hy & ?)|[Hn _]]; [|congruence]. rewrite Hx in Hy. injection Hy as <-. by exists x'.
    - exfalso. apply Hl, E4. apply elem_of_union. right. unfold lapses. apply elem_of_difference.
      rewrite elem_of_dom, not_elem_of_dom. by rewrite Hx. }
  assert (∀ k q, k ∉ lapsed s' → known s k q → known s' k q) as Hk.
  { intros k q Hl (x & Hx & Hq). destruct (Hm k x Hl Hx) as (x' & Hx' & Hmv). exists x'. split; [done|].
    destruct (H4 k x) as [Hp Hh]; [set_solver|done|]. destruct (Hmv Hp Hh) as (_ & Hr & _). by apply Hr. }
  split.
  - split.
    + destruct G as [G1 G2 G3 G4 G5]. split; rewrite ?E1, ?E2; done.
    + by rewrite Hw.
    + done.
    + intros k x Hl Hx. destruct (Ha k x Hl Hx) as [(y & Hy & Hmv)|[_ ?]]; [|done].
      destruct (H4 k y) as [Hp Hh]; [set_solver|done|]. by destruct (Hmv Hp Hh) as (? & _ & ?).
    + intros k Hl. unfold seqs. rewrite E3. apply H5. set_solver.
    + intros k q Hl Hq. unfold seqs in Hq. rewrite E3 in Hq.
      destruct (H6 k q) as [?|(t & g & ?)]; [set_solver|done|left; auto|right; eauto].
  - intros t. split; [auto| |set_solver|done| |].
    + intros k g _. unfold seqs. by rewrite E3.
    + intros k Hl [x Hx]. destruct (Hm k x Hl Hx) as (x' & ? & _). by exists x'.
    + intros g x Hx Ht. rewrite E2 in Hx. by exists x.
Qed.

Lemma table_step s s' : once_ok s → advances (ded s) (ded s') → tbl_u64 (ded s') →
  gate_of s' = gate_of s → gates s' = gates s → event_log s' = event_log s →
  lapsed s' = lapsed s ∪ lapses (ded s) (ded s') → once_ok s' ∧ ∀ t, counts_on t s s'.
Proof. intros Hi [Hw Ha] Hu E1 E2 E3 E4. apply table_but; [done|done|auto|done|done|done|done|by rewrite E4]. Qed.

Section programs.
Context `{N : NetIP} (cfg : hostConfig) (env : nat → answer).

Lemma o_does_table {X} t (f : answer → dedup → dedup * X) (Q : X → Prop) :
  (∀ a d, tbl_u64 d → advances d (fst (f a d)) ∧ tbl_u64 (fst (f a d)) ∧ Q (snd (f a d))) →
  does t (λ _, True) (table env f) (λ x _, Q x).
Proof.
  intros Hf. apply f_act; [apply _..|]. intros s s' x Hi _ H. simpl in H.
  destruct (Hf (env (asked s)) (ded s) (oo_pending _ Hi)) as (H1 & H2 & H3).
  destruct (f _ (ded s)) as [d y]. injection H as <- <-. destruct (table_step s (set_ded (set_asked s (S (asked s))) d)) as [? ?]; auto.
Qed.

Lemma o_does_quiet_table {X} t (f : answer → dedup → dedup * X) (Q : X → Prop) :
  (∀ a d, tbl_u64 d → quiet d (fst (f a d)) ∧ window (fst (f a d)) = window d ∧ tbl_u64 (fst (f a d)) ∧ Q (snd (f a d))) →
  does t (λ _, True) (table env f) (λ x _, Q x).
Proof. intros Hf. apply o_does_table. intros a d Hd. destruct (Hf a d Hd) as (? & ? & ? & ?). split_and!; [by apply quiet_advances|done|done]. Qed.

Lemma o_q_finishGap t p ok : claim_ok p → quiet_prog t (dd_finishGap env p ok).
Proof.
  intros [Hr _]. eapply f_weaken; [apply (o_does_table t _ (λ _, True))|done|done]. intros a d Hd.
  split_and!; [by apply finish_advances|by apply finishGap_u64|done].
Qed.

Lemma o_q_release t r : quiet_prog t (dd_release env r).
Proof.
  eapply f_weaken; [apply (o_does_quiet_table t _ (λ _, True))|done|done]. intros a d Hd. simpl.
  split_and!; [apply release_quiet|apply window_release|by apply release_u64|done].
Qed.

Lemma o_q_ResumeFrom t k : quiet_prog t (dd_ResumeFrom env k).
Proof.
  eapply f_weaken; [apply (o_does_quiet_table t _ (λ _, True))|done|done]. intros a d Hd.
  split_and!; [apply ResumeFrom_quiet|apply window_resume|by apply ResumeFrom_u64|done].
Qed.

Lemma o_does_CheckReplay t k q : does t (λ _, True) (dd_CheckReplay env k q) (λ r _, gap_ok r).
Proof.
  apply (o_does_quiet_table t _ gap_ok). intros a d Hd. destruct (CheckReplay_u64 d k q Hd).
  split_and!; [apply CheckReplay_quiet|apply window_replay|done|done].
Qed.

(** The state an opening leaves. *)
Lemma open_step s d l : once_ok s → advances (ded s) d → tbl_u64 d →
  once_ok (set_started (set_ded s d) l) ∧ ∀ t, counts_on t s (set_started (set_ded s d) l).
Proof. intros Hi Ha Hu. by apply table_step. Qed.

Lemma o_q_reserve t k q src : is_u64 q → 0 < q → quiet_prog t (dd_reserve k q src).
Proof.
  intros Hq H0. apply f_act; [apply _..|]. intros s s' x Hi _ H. unfold dd_reserve, opening, both in H.
  pose proof (reserve_advances (ded s) k q src (oo_window _ Hi) Hq H0) as H1.
  pose proof (reserve_u64 (ded s) k q src (oo_pending _ Hi)) as H2.
  destruct (reserveArrival (ded s) k q src) as [d y]. injection H as <- <-.
  destruct (open_step s d (started s ++ if bool_decide (is_Some y) && anchors (stream_at (ded s) k) q then [(k, q)] else [])) as [? ?]; auto.
Qed.

Definition is_new (r : dedupResult) : Prop := Blocked r = false ∧ Duplicate r = false.

Lemma o_does_Check t g k q : is_u64 q → 0 < q →
  does t (settled t (peer_key k.1) g) (dd_Check k q) (λ r s, settled t (peer_key k.1) g s ∧ gap_ok r ∧ (is_new r → fresh t g k q s)).
Proof.
  intros Hq H0. assert (∀ r : dedupResult, Stable once_ok counts_on t (λ s, is_new r → fresh t g k q s)) as Hst.
  { intros r s s' Hi Hi' Hs H Hr. exact (stable_fresh t g k q s s' Hi Hi' Hs (H Hr)). }
  apply f_act; [apply _..|]. intros s s' x Hi Hse H. unfold dd_Check, opening, both in H.
  pose proof (Check_advances (ded s) k q Hq H0) as H1. destruct (Check_u64 (ded s) k q (oo_pending _ Hi)) as [H2 H3].
  destruct (Check (ded s) k q) as [d y] eqn:E. injection H as <- <-. simpl in H1, H2, H3.
  set (s' := set_started _ _). destruct (open_step s d (started s ++ if true && anchors (stream_at (ded s) k) q then [(k, q)] else [])) as [Hi' Hs]; [done..|].
  fold s' in Hi', Hs. assert (settled t (peer_key k.1) g s') as Hse' by by eapply (stable_settled t (peer_key k.1) g s s'), Hse.
  split_and!; [done|done|done|done|]. intros [Hb Hd]. split; [done|]. intros Hl.
  destruct (Check_new _ _ _ _ _ E Hb Hd) as (x & Hx & Hn & _). split; [|by exists x].
  intros Hin. destruct Hse' as [_ Hk]. destruct (Hk k q eq_refl Hl Hin) as (x' & Hx' & Hr). simpl in Hx'. rewrite Hx in Hx'.
  injection Hx' as <-. done.
Qed.


(** A commit makes the event known, or its stream lapses. *)
Lemma o_does_Commit t g k q : is_u64 q → 0 < q →
  does t (pending_commit t g k q) (dd_Commit env k q) (λ _, settled t (peer_key k.1) g).
Proof.
  intros Hq H0. apply f_act; [apply _..|]. intros s s' x Hi Hp H. unfold dd_Commit, asking, both in H. simpl in H.
  set (order := a_order (env (asked s)) k) in *. destruct Hp as (Hh & Hkn & Hpr).
  pose proof (Commit_u64 (ded s) k q order (oo_pending _ Hi)) as Hu. destruct (Commit_maps (ded s) k q order) as [Ho _].
  destruct (Commit (ded s) k q order) as [d r] eqn:Ec. simpl in Hu, Ho. injection H as <- <-. set (s' := if 0 <? r.2 then _ else _).
  assert (ded s' = d ∧ gate_of s' = gate_of s ∧ gates s' = gates s ∧ event_log s' = event_log s ∧
    lapsed s' = (if 0 <? r.2 then {[k]} ∪ (lapsed s ∪ lapses (ded s) d) else lapsed s ∪ lapses (ded s) d)) as (E1 & E2 & E3 & E4 & E5)
    by (unfold s'; by destruct (0 <? r.2)).
  assert (window d = window (ded s)) as Hw by by apply (window_commit (ded s) k q order d r).
  assert (k ∉ lapsed s' → advances (ded s) d ∧ ∃ x, streams d !! k = Some x ∧ recognised x q) as Hk.
  { rewrite E5. intros Hl. destruct (Z.ltb_spec 0 r.2); [set_solver|].
    destruct Hpr as [x Hx]; [set_solver|]. apply (Commit_advances (ded s) k q order d r x); [|done|done|done| |lia].
    - pose proof (oo_window _ Hi). lia.
    - apply (oo_begun _ Hi k); [set_solver|done]. }
  destruct (table_but s s') as [Hi' Hs]; [done|by rewrite E1| |by rewrite E1|done|done|done| |].
  { rewrite E1. intros k' x' Hl Hx. destruct (decide (k' = k)) as [->|Hne]; [by apply Hk|].
    left. exists x'. split; [by eapply Ho|by apply moves_same]. }
  { rewrite E1, E5. destruct (0 <? r.2); set_solver. }
  split_and!; [done|done|]. split; [by apply (co_gate _ _ _ (Hs t))|]. intros k' q' Hk' Hl Hin.
  unfold seqs in Hin. rewrite E4 in Hin. pose proof (co_lapsed _ _ _ (Hs t)).
  destruct (Hkn k' q') as [?|[-> ->]]; [done|set_solver|done|by apply (co_known _ _ _ (Hs t))|].
  destruct Hk as [_ (x & Hx & ?)]; [done|]. exists x. by rewrite E1.
Qed.

(** ** Writing an event *)

Lemma seqs_write s k e k' : seqs (set_sink_log s (sink_log s ++ [WroteEvent k e])) k' =
  seqs s k' ++ (if decide (k = k') then [Sequence (env_Event e)] else []).
Proof.
  unfold seqs, seqs_of, event_log. simpl. rewrite omap_app, filter_app, fmap_app. f_equal. simpl.
  rewrite filter_cons. simpl. by destruct (decide (k = k')).
Qed.

(** An assertion about the gates alone. *)
Definition on_gates (F : collector → Prop) : Prop :=
  ∀ s s', gate_of s' = gate_of s → gates s' = gates s → F s → F s'.

Lemma runs_event t g k e (F : collector → Prop) `{!Stable once_ok counts_on t F} : on_gates F →
  runs t (λ s, F s ∧ fresh t g k (Sequence (env_Event e)) s) (sink_Write env (WroteEvent k) e)
    (λ err s, F s ∧ match err with None => pending_commit t g k (Sequence (env_Event e)) s | Some _ => settled t (peer_key k.1) g s end).
Proof.
  intros HF. set (q := Sequence (env_Event e)). apply tri_act; [apply _|intros [|]; apply _|].
  intros s s' x Hi [Hf Hfr] H. unfold sink_Write, asking, both in H. destruct (a_ok _); injection H as <- <-.
  2:{ set (s' := set_asked _ _). assert (same s s') as Hs by done. split_and!; [by eapply same_ok|intros; by apply same_counts|by apply (HF s)|].
      destruct Hfr as [Hse _]. eapply (stable_settled t (peer_key k.1) g s s'); [done|by eapply same_ok|by apply same_counts|done]. }
  destruct Hfr as [[Hh Hkn] Hnew]. set (s' := set_sink_log _ _).
  assert (∀ k', seqs s' k' = seqs s k' ++ (if decide (k = k') then [q] else [])) as Hseq by (intros k'; apply (seqs_write (set_asked s _))).
  assert (∀ k', k ≠ k' → seqs s' k' = seqs s k') as Hne by (intros k' ?; by rewrite Hseq, decide_False, app_nil_r).
  assert (holds t (peer_key k.1) g s') as Hh' by done. assert (∀ t k g b, at_gate t k g b s → at_gate t k g b s') as Hat by done.
  assert (once_ok s') as Hi'.
  { destruct Hi as [[G1 G2 G3 G4 G5] H2 H3 H4 H5 H6]. split; [by split|done|done|done| |].
    - intros k' Hl. destruct (decide (k = k')) as [<-|?]; [|rewrite Hne by done; by apply H5].
      rewrite Hseq, decide_True by done. apply NoDup_app. split_and!; [by apply H5| |apply NoDup_singleton].
      intros y Hy ->%list_elem_of_singleton. by destruct (Hnew Hl).
    - intros k' q' Hl Hq'. destruct (decide (k = k')) as [<-|?]; [right; by exists t, g|].
      rewrite Hne in Hq' by done. destruct (H6 k' q' Hl Hq') as [?|(t' & g' & ?)]; [by left|right]. by exists t', g'. }
  split_and!; [done| |by apply (HF s)|].
  - intros t' Hne'. split; [by apply Hat| |done|done|done|by eauto]. intros k' g' Hh2. apply Hne. intros <-.
    by destruct Hne'; eapply (holds_excl s).
  - split_and!; [done| |].
    + intros k' q' Hk Hl. rewrite Hseq. intros [Hq'|Hq']%elem_of_app; [left; by apply Hkn|].
      destruct (decide (k = k')) as [<-|]; [|by apply not_elem_of_nil in Hq']. apply list_elem_of_singleton in Hq' as ->. by right.
    + intros Hl. by apply Hnew.
Qed.
End programs.
