(* ===== verification/CollectorGates.v ===== *)
(** * The write gates of the collector

    A goroutine that takes the gate of a peer finds every event of that peer in the sink
    known to the deduplication table, and gives the gate back in this state. *)

From S2P Require Import Prelude GoStrings ClientIP Event InternalEvents Messages Frame Dedup DedupPending DedupOnce Threads Triples Enrich HostMonitor Collector CollectorFrames CollectorSafety CollectorAcks CollectorOnce.

(** Goroutine [t] acts on the gate of [k]. *)
Record gate_step (t : nat) (k : string) (s s' : collector) : Prop := {
  gs_ded : ded s' = ded s;
  gs_lapsed : lapsed s' = lapsed s;
  gs_events : event_log s' = event_log s;
  gs_ok : gates_ok s';
  gs_at t' k' g b : t' ≠ t ∨ k' ≠ k → at_gate t' k' g b s → at_gate t' k' g b s';
  gs_in t' g x' : t' ≠ t → gates s' !! g = Some x' → t' ∈ users x' → ∃ x, gates s !! g = Some x ∧ t' ∈ users x
}.

(** Those who relied on [t] holding the gate must not need it any more. *)
Lemma gate_once t k s s' : once_ok s → gate_step t k s s' →
  (∀ kk q, peer_key kk.1 = k → kk ∉ lapsed s → q ∈ seqs s kk → known s kk q ∨ ∃ t' g, holds t' k g s') →
  once_ok s' ∧ ∀ t', t' ≠ t → counts_on t' s s'.
Proof.
  intros [_ H2 H3 H4 H5 H6] [E1 E2 E3 G Hat Hin] Hk.
  assert (∀ kk, seqs s' kk = seqs s kk) as Hseq by (intros kk; unfold seqs; by rewrite E3).
  assert (∀ kk q, known s kk q → known s' kk q) as Hkn by (intros kk q; unfold known; by rewrite E1).
  split.
  - split; [done|by rewrite E1|by rewrite E1|by rewrite E1, E2|intros kk; rewrite E2, Hseq; apply H5|].
    intros kk q. rewrite E2, Hseq. intros Hl Hq. destruct (decide (peer_key kk.1 = k)) as [<-|Hne].
    + destruct (Hk kk q eq_refl Hl Hq) as [?|?]; [left; auto|by right].
    + destruct (H6 kk q Hl Hq) as [?|(t' & g & Hh)]; [left; auto|right]. exists t', g. apply Hat; [by right|done].
  - intros t' Hne. split; [intros; apply Hat; [by left|done]|auto|by rewrite E2|auto| |eauto].
    intros kk _. unfold present. by rewrite E1.
Qed.

Lemma settled_step t k k' g s s' : gate_step t k s s' → k' ≠ k → settled t k' g s → settled t k' g s'.
Proof.
  intros [E1 E2 E3 G Hat Hin] Hne [Hh Hk]. split; [apply Hat; [by right|done]|]. intros kk q. unfold seqs, known.
  rewrite E1, E2, E3. apply Hk.
Qed.

(** ** The four actions on a gate *)

Lemma list_alter_at {A} (f : A → A) (l : list A) i x : l !! i = Some x → alter f i l = <[i := f x]> l.
Proof.
  intros H. rewrite list_insert_alter. revert i H. induction l as [|y l IH]; intros [|i] H; try done.
  - by injection H as ->.
  - simpl. f_equal. by apply IH.
Qed.

(** The index of the gate and the state after entering. *)
Definition entered (t : nat) (k : string) (s : collector) : collector * nat :=
  match gate_of s !! k with
  | Some g => (set_gates s (gate_of s) (alter (λ x, mkGate (refs x + 1) (token x) (t :: users x)) g (gates s)), g)
  | None => (set_gates s (<[k := length (gates s)]> (gate_of s)) (gates s ++ [mkGate 1 None [t]]), length (gates s))
  end.

(** The gates after a change to one of them that its key still leads to. *)
Lemma alter_step t k g s f x : gates_ok s → gate_of s !! k = Some g → gates s !! g = Some x →
  refs (f x) = Z.of_nat (length (users (f x))) → NoDup (users (f x)) → (∀ u, token (f x) = Some u → u ∈ users (f x)) →
  (∀ u, u ≠ t → u ∈ users x ↔ u ∈ users (f x)) → (∀ u, u ≠ t → token x = Some u ↔ token (f x) = Some u) →
  gate_step t k s (set_gates s (gate_of s) (<[g := f x]> (gates s))).
Proof.
  intros [G1 G2 G3 G4 G5] Hk Hg Hr Hn Ht Hu Htk. set (s' := set_gates s _ _).
  assert (g < length (gates s))%nat as Hlt by by eapply lookup_lt_Some.
  assert (∀ g' x', gates s' !! g' = Some x' → (g' = g ∧ x' = f x) ∨ (g' ≠ g ∧ gates s !! g' = Some x')) as Hl.
  { intros g' x' H. simpl in H. apply list_lookup_insert_Some in H as [(-> & -> & _)|(Hne & H)]; [by left|right]. split; [congruence|done]. }
  split; [done|done|done| | |].
  - split.
    + intros g' x' [[-> ->]|[_ H]]%Hl; [done|by apply (G1 g')].
    + exact G2.
    + intros k' g' H. simpl. apply lookup_lt_is_Some_2. rewrite length_insert. apply lookup_lt_is_Some_1. by apply (G3 k').
    + intros g' x' u [[-> ->]|[_ H]]%Hl; [apply Ht|by apply (G4 g')].
    + intros g' x' [[-> ->]|[_ H]]%Hl; [done|by apply (G5 g')].
  - intros t' k' g' b Hd (Hk' & y & Hy & Hin & Htok). split; [done|]. destruct (decide (g' = g)) as [->|Hne].
    + assert (k' = k) as -> by by apply (G2 k' k g). destruct Hd as [Hd|Hd]; [|done].
      rewrite Hg in Hy. injection Hy as <-. exists (f x). split_and!; [simpl; by rewrite list_lookup_insert_eq|by apply Hu|].
      by rewrite <- Htk.
    + exists y. split_and!; [simpl; by rewrite list_lookup_insert_ne|done|done].
  - intros t' g' x' Hne [[-> ->]|[_ H]]%Hl Hin; [|by exists x']. exists x. split; [done|]. by apply Hu.
Qed.

Lemma entered_step t k gs s s' g : once_ok s → only t gs s → (∀ g, gate_of s !! k = Some g → g ∉ gs) →
  entered t k s = (s', g) →
  gate_step t k s s' ∧ only t (g :: gs) s' ∧ at_gate t k g false s' ∧ (∀ t' g', holds t' k g' s → holds t' k g' s').
Proof.
  intros Hi Ho Hgs H. pose proof (oo_gates _ Hi) as G. unfold entered in H. destruct (gate_of s !! k) as [g0|] eqn:Ek; injection H as <- <-.
  - destruct (go_range _ G k g0 Ek) as [x Hx]. assert (t ∉ users x) as Ht by (intros H; by apply (Hgs g0), (Ho g0 x)).
    rewrite (list_alter_at _ _ _ x) by done. set (x' := mkGate (refs x + 1) (token x) (t :: users x)).
    set (s' := set_gates s _ _). assert (gates s' !! g0 = Some x') as Hg'.
    { simpl. apply list_lookup_insert_eq. by eapply lookup_lt_Some. }
    assert (gate_step t k s s') as Hs.
    { apply (alter_step t k g0 s (λ _, x') x); [done..| | | | |done]; simpl.
      - rewrite (go_refs _ G g0 x Hx). lia.
      - constructor; [done|by apply (go_nodup _ G g0)].
      - intros u Hu. right. by apply (go_token _ G g0).
      - intros u Hu. rewrite elem_of_cons. naive_solver. }
    split_and!; [done| | |].
    + intros g y Hy Hin. simpl in Hy. apply list_lookup_insert_Some in Hy as [(-> & _)|(_ & Hy)]; [by left|right]. by apply (Ho g y).
    + split; [done|]. exists x'. split_and!; [done|by left|]. simpl. split; [|done]. intros E. by destruct Ht; apply (go_token _ G g0).
    + intros t' g' (H1 & y & Hy & Hin & Htk). split; [done|]. rewrite Ek in H1. injection H1 as <-. rewrite Hx in Hy. injection Hy as <-.
      exists x'. split_and!; [done|by right|done].
  - set (g0 := length (gates s)). set (s' := set_gates s _ _).
    assert (∀ g x, gates s' !! g = Some x → gates s !! g = Some x ∨ (g = g0 ∧ x = mkGate 1 None [t])) as Hl.
    { intros g x H. simpl in H. apply lookup_app_Some in H as [?|[Hle H]]; [by left|right].
      apply list_lookup_singleton_Some in H as [H <-]. split; [unfold g0; lia|done]. }
    assert (∀ g x, gates s !! g = Some x → gates s' !! g = Some x) as Hold.
    { intros g x H. simpl. by apply lookup_app_l_Some. }
    assert (∀ k', k' ≠ k → gate_of s' !! k' = gate_of s !! k') as Hk' by (intros k' ?; simpl; by rewrite lookup_insert_ne).
    assert (gates s' !! g0 = Some (mkGate 1 None [t])) as Hnew by (simpl; by apply list_lookup_middle).
    assert (∀ k' g, gate_of s !! k' = Some g → g ≠ g0) as Hlt.
    { intros k' g H ->. destruct (go_range _ G k' g0 H) as [x Hx]. apply lookup_lt_Some in Hx. unfold g0 in Hx. lia. }
    split_and!; [|intros g x [Hx|[-> _]]%Hl Hin; [right; by apply (Ho g x)|by left]| |].
    + split; [done|done|done| | |].
      * destruct G as [G1 G2 G3 G4 G5]. split.
        -- intros g x [?|[-> ->]]%Hl; [by apply (G1 g)|done].
        -- intros k1 k2 g H1 H2. destruct (decide (k1 = k)) as [->|N1], (decide (k2 = k)) as [->|N2]; [done|..].
           ++ simpl in H1. rewrite lookup_insert_eq in H1. injection H1 as <-. rewrite Hk' in H2 by done. by destruct (Hlt k2 _ H2).
           ++ simpl in H2. rewrite lookup_insert_eq in H2. injection H2 as <-. rewrite Hk' in H1 by done. by destruct (Hlt k1 _ H1).
           ++ rewrite Hk' in H1, H2 by done. by apply (G2 k1 k2 g).
        -- intros k1 g H. destruct (decide (k1 = k)) as [->|N1].
           ++ simpl in H. rewrite lookup_insert_eq in H. injection H as <-. by rewrite Hnew.
           ++ rewrite Hk' in H by done. destruct (G3 k1 g H) as [x Hx]. by rewrite (Hold g x Hx).
        -- intros g x u [?|[-> ->]]%Hl; [by apply (G4 g)|done].
        -- intros g x [?|[-> ->]]%Hl; [by apply (G5 g)|apply NoDup_singleton].
      * intros t' k' g b _ (H1 & y & Hy & ?). assert (k' ≠ k) as Hne by congruence. split; [by rewrite Hk'|]. exists y. auto.
      * intros t' g x Hne [Hx|[-> ->]]%Hl Hin; [by exists x|]. by apply list_elem_of_singleton in Hin.
    + split; [simpl; by rewrite lookup_insert_eq|]. exists (mkGate 1 None [t]). split_and!; [done|by left|done].
    + intros t' g' (H1 & _). congruence.
Qed.

(** Putting a token in or out. *)
Lemma token_step t k g b s o : once_ok s → at_gate t k g b s →
  (∀ x, gates s !! g = Some x → o = Some t ∧ token x = None ∨ o = None ∧ token x = Some t) →
  ∀ x, gates s !! g = Some x →
  let s' := set_gates s (gate_of s) (<[g := mkGate (refs x) o (users x)]> (gates s)) in
  gate_step t k s s' ∧ at_gate t k g (bool_decide (o = Some t)) s' ∧ ∀ gs, only t gs s → only t gs s'.
Proof.
  intros Hi (Hk & y & Hy & Hin & _) Ho x Hx s'. rewrite Hx in Hy. injection Hy as <-. pose proof (oo_gates _ Hi) as G.
  set (x' := mkGate (refs x) o (users x)) in *.
  assert (gates s' !! g = Some x') as Hg' by (simpl; apply list_lookup_insert_eq; by eapply lookup_lt_Some).
  assert (∀ u, token x' = Some u → u ∈ users x') as H1 by (simpl; destruct (Ho x Hx) as [[-> _]|[-> _]]; [by intros u [= <-]|done]).
  assert (∀ u, u ≠ t → token x = Some u ↔ token x' = Some u) as H2 by (simpl; destruct (Ho x Hx) as [[-> ->]|[-> ->]]; naive_solver).
  split_and!.
  - apply (alter_step t k g s (λ _, x') x); [done..| | |exact H1|done|exact H2]; [exact (go_refs _ G g x Hx)|exact (go_nodup _ G g x Hx)].
  - split; [done|]. exists x'. split_and!; [done|done|]. simpl. by rewrite bool_decide_eq_true.
  - intros gs Hgs g' z Hz Hin'. simpl in Hz. apply list_lookup_insert_Some in Hz as [(-> & <- & _)|(_ & Hz)]; [by apply (Hgs g' x)|by apply (Hgs g' z)].
Qed.

(** Leaving. *)
Definition left_gate (t : nat) (k : string) (g : nat) (s : collector) : collector :=
  match gates s !! g with
  | Some x =>
      let x := mkGate (refs x - 1) (token x) (remove_one t (users x)) in
      set_gates s (if refs x =? 0 then delete k (gate_of s) else gate_of s) (<[g := x]> (gates s))
  | None => s
  end.

Lemma remove_one_in t u l : u ∈ remove_one t l → u ∈ l.
Proof.
  induction l as [|x l IH]; simpl; [done|]. destruct (x =? t)%nat; [by right|]. intros [->|?]%elem_of_cons; [by left|right; auto].
Qed.
Lemma remove_one_nodup t l : NoDup l → NoDup (remove_one t l) ∧ t ∉ remove_one t l.
Proof.
  induction 1 as [|x l Hx Hl [IH1 IH2]]; simpl; [split; [constructor|apply not_elem_of_nil]|].
  destruct (Nat.eqb_spec x t) as [->|Hne]; [done|]. split; [constructor; [by intros ?%remove_one_in|done]|].
  intros [->|?]%elem_of_cons; done.
Qed.

Lemma left_step t k g gs s : once_ok s → at_gate t k g false s → only t (g :: gs) s →
  gate_step t k s (left_gate t k g s) ∧ only t gs (left_gate t k g s) ∧ (∀ t' g', holds t' k g' s → holds t' k g' (left_gate t k g s)).
Proof.
  intros Hi (Hk & x & Hx & Hin & Htk) Ho. pose proof (oo_gates _ Hi) as G. unfold left_gate. rewrite Hx.
  set (x' := mkGate (refs x - 1) (token x) (remove_one t (users x))). cbv zeta. set (s' := set_gates s _ _).
  destruct (remove_one_nodup t (users x) (go_nodup _ G g x Hx)) as [Hnd Hout].
  assert (refs x' = Z.of_nat (length (users x'))) as Hr.
  { simpl. rewrite (go_refs _ G g x Hx), <- (remove_one_length t (users x) Hin). lia. }
  assert (token x ≠ Some t) as Hnt by naive_solver.
  assert (∀ u, token x' = Some u → u ∈ users x') as Ht'.
  { simpl. intros u Hu. apply remove_one_other; [by intros ->|]. by apply (go_token _ G g). }
  assert (∀ u, u ≠ t → u ∈ users x ↔ u ∈ users x') as Hu.
  { intros u Hne. simpl. split; [by apply remove_one_other|apply remove_one_in]. }
  assert (gate_step t k s (set_gates s (gate_of s) (<[g := x']> (gates s)))) as Hs0.
  { by apply (alter_step t k g s (λ _, x') x). }
  (* nobody is left at a gate that is dropped *)
  assert (refs x' = 0 → users x' = []) as Hnil by (rewrite Hr; destruct (users x'); simpl; [done|lia]).
  assert (∀ t' k' g' b, t' ≠ t ∨ k' ≠ k → at_gate t' k' g' b (set_gates s (gate_of s) (<[g := x']> (gates s))) → at_gate t' k' g' b s') as Hat.
  { intros t' k' g' b Hd (H1 & y & Hy & Hiny & Hty). split; [|by exists y]. simpl in *. destruct (Z.eqb_spec (refs x - 1) 0) as [E|]; [|done].
    rewrite lookup_delete_ne; [done|]. intros ->. destruct Hd as [Hd|]; [|done].
    rewrite Hk in H1. injection H1 as <-. rewrite list_lookup_insert_eq in Hy by (by eapply lookup_lt_Some). injection Hy as <-.
    simpl in Hiny. rewrite (Hnil E) in Hiny. by apply not_elem_of_nil in Hiny. }
  assert (∀ k' g', gate_of s' !! k' = Some g' → gate_of s !! k' = Some g') as Hsub.
  { intros k' g' H. simpl in H. destruct (_ =? 0); [|done]. by apply lookup_delete_Some in H as [_ ?]. }
  split_and!.
  - destruct Hs0 as [_ _ _ [G1 G2 G3 G4 G5] H5 H6]. split; [done|done|done| |auto|exact H6].
    split; [exact G1|intros k1 k2 g' ?%Hsub ?%Hsub; by eapply G2|intros k1 g' ?%Hsub; by eapply G3|exact G4|exact G5].
  - intros g' y Hy Hiny. simpl in Hy. apply list_lookup_insert_Some in Hy as [(<- & <- & _)|(Hne & Hy)]; [done|].
    destruct (proj1 (elem_of_cons _ _ _) (Ho g' y Hy Hiny)) as [->|?]; done.
  - intros t' g' Hh. apply Hat; [left|apply (gs_at _ _ _ _ Hs0); [left|done]]; intros ->;
      destruct Hh as (H1 & y & Hy & _ & Hty); rewrite Hk in H1; injection H1 as <-; rewrite Hx in Hy; injection Hy as <-; naive_solver.
Qed.

(** ** Locking and unlocking *)

Section gates.
Context (env : nat → answer) (t : nat) (k : string) (gs : list nat) (F : collector → Prop).
Context `{HS : !Stable once_ok counts_on t F}.
Hypothesis HF : ∀ s s', gate_step t k s s' → F s → F s'.
Hypothesis HG : ∀ s g, once_ok s → F s → gate_of s !! k = Some g → g ∉ gs.

Lemma keep_runs {A} (G : collector → Prop) (p : P A) `{!Stable once_ok counts_on t G} : quiet_prog t p → runs t G p (λ _, G).
Proof.
  intros Hp. apply (tri_weaken once_ok counts_on t G (λ s, G s ∧ True) p (λ _, G) (λ _ s, G s ∧ True)).
  - by apply Hp.
  - auto.
  - by intros a s _ [? _].
Qed.

Lemma same_assert s s' (G : collector → Prop) `{!Stable once_ok counts_on t G} : once_ok s → same s s' → G s → G s'.
Proof. intros Hi Hs. apply (stable once_ok counts_on s s'); [done|by eapply same_ok|by apply same_counts]. Qed.

Lemma runs_enter : runs t (λ s, only t gs s ∧ F s) (enter_gate t k) (λ g s, only t (g :: gs) s ∧ at_gate t k g false s ∧ F s).
Proof.
  apply tri_act; [apply _..|]. intros s s' g Hi [Ho Hf] [= E]. change (entered t k s = (s', g)) in E.
  destruct (entered_step t k gs s s' g Hi Ho) as (Hs & Ho' & Ha & Hh); [intros g' Hg'; by apply (HG s g' Hi Hf)|done|].
  destruct (gate_once t k s s' Hi Hs) as [Hi' Hc]; [|split_and!; [done|done|done|done|by eapply HF]].
  intros kk q <- Hl Hq. destruct (oo_known _ Hi kk q Hl Hq) as [?|(t' & g' & ?)]; [by left|right]. exists t', g'. auto.
Qed.

Lemma runs_take g : runs t (λ s, only t (g :: gs) s ∧ at_gate t k g false s ∧ F s) (take_token env t g)
  (λ ok s, only t (g :: gs) s ∧ (if ok : bool then settled t k g s else at_gate t k g false s) ∧ F s).
Proof.
  apply tri_act; [apply _|intros [|]; apply _|]. intros s s2 ok Hi (Ho & Ha & Hf) H. cbv zeta in H.
  set (s1 := set_asked s (S (asked s))) in *. assert (same s s1) as Hsm by done.
  pose proof (same_ok s s1 Hsm Hi) as Hi1. pose proof (same_assert s s1 _ Hi Hsm Ho) as Ho1.
  pose proof (same_assert s s1 _ Hi Hsm Ha) as Ha1. pose proof (same_assert s s1 _ Hi Hsm Hf) as Hf1. clear Ho Ha Hf.
  destruct (a_late _); [injection H as <- <-; split_and!; [done|intros; by apply same_counts|done|done|done]|].
  destruct (gates s1 !! g) as [[n [u0|] us]|] eqn:Eg; [done| |done]. injection H as <- <-.
  destruct (token_step t k g false s1 (Some t) Hi1 Ha1) with (x := mkGate n None us) as (Hs & Ha2 & Ho2); [|done|].
  { intros x Hx. rewrite Eg in Hx. injection Hx as <-. by left. }
  simpl in Hs, Ha2, Ho2. rewrite bool_decide_true in Ha2 by done. set (s2 := set_gates s1 _ _) in *.
  assert (∀ kk q, peer_key kk.1 = k → kk ∉ lapsed s1 → q ∈ seqs s1 kk → known s1 kk q) as Hkn.
  { intros kk q <- Hl Hq. destruct (oo_known _ Hi1 kk q Hl Hq) as [?|(t' & g' & H1 & x & Hx & _ & Htk)]; [done|].
    destruct Ha1 as (H1' & _). rewrite H1' in H1. injection H1 as <-. rewrite Eg in Hx. injection Hx as <-. pose proof (proj2 Htk eq_refl). done. }
  destruct (gate_once t k s1 s2 Hi1 Hs) as [Hi2 Hc]; [intros; left; auto|]. split_and!; [done| |auto| |by eapply HF].
  - intros t' Hne. etrans; [by apply same_counts|by apply Hc].
  - split; [done|]. intros kk q Hk Hl Hq. by apply Hkn.
Qed.

Lemma runs_release g : runs t (λ s, only t (g :: gs) s ∧ at_gate t k g false s ∧ F s) (releaseWrite t k g) (λ _ s, only t gs s ∧ F s).
Proof.
  clear HG. apply tri_act; [apply _..|]. intros s s' x Hi (Ho & Ha & Hf) [= E _]. change (left_gate t k g s = s') in E. subst s'.
  destruct (left_step t k g gs s Hi Ha Ho) as (Hs & Ho' & Hh).
  destruct (gate_once t k s _ Hi Hs) as [Hi' Hc]; [|split_and!; [done|done|done|by eapply HF]].
  intros kk q <- Hl Hq. destruct (oo_known _ Hi kk q Hl Hq) as [?|(t' & g' & ?)]; [by left|right]. exists t', g'. auto.
Qed.

Lemma runs_give g : runs t (λ s, only t (g :: gs) s ∧ settled t k g s ∧ F s) (give_token g)
  (λ _ s, only t (g :: gs) s ∧ at_gate t k g false s ∧ F s).
Proof.
  apply tri_act; [apply _..|]. intros s s' ok Hi (Ho & [Ha Hkn] & Hf) H.
  destruct (gates s !! g) as [[n [u0|] us]|] eqn:Eg; [|done..]. injection H as <- <-.
  destruct (token_step t k g true s None Hi Ha) with (x := mkGate n (Some u0) us) as (Hs & Ha2 & Ho2); [|done|].
  { intros x Hx. right. split; [done|]. destruct Ha as (_ & y & Hy & _ & Htk). rewrite Hx in Hy. injection Hy as <-. by apply Htk. }
  simpl in Hs, Ha2, Ho2.
  destruct (gate_once t k s _ Hi Hs) as [Hi' Hc]; [intros; left; auto|split_and!; [done|done|auto|done|by eapply HF]].
Qed.

(** Taking the lock, or giving up. *)
Lemma runs_lock : runs t (λ s, only t gs s ∧ F s) (lockWrite env t k)
  (λ r s, match r with Some g => only t (g :: gs) s ∧ settled t k g s ∧ F s | None => only t gs s ∧ F s end).
Proof.
  eapply then_; [apply keep_runs; [apply _|by apply o_q_both]|]. intros [|]; [by apply tri_ret; [apply _|]|].
  eapply then_; [apply runs_enter|]. intros g. eapply then_; [apply runs_take|]. intros [|]; [by apply tri_ret; [apply _|]|].
  eapply then_; [apply runs_release|]. intros ?. by apply tri_ret; [apply _|].
Qed.

Lemma runs_unlock g : runs t (λ s, only t (g :: gs) s ∧ settled t k g s ∧ F s) (unlockWrite t k g) (λ _ s, only t gs s ∧ F s).
Proof. eapply then_; [apply runs_give|]. intros ?. apply runs_release. Qed.
End gates.
