(* ===== verification/CollectorWrites.v ===== *)
(** * No event is written twice

    The sessions of the collector under the invariant of [CollectorOnce]: a goroutine
    writes an event only between taking and giving back the gate of its peer. *)

From S2P Require Import Prelude GoStrings ClientIP Event InternalEvents Messages Frame Dedup DedupPending DedupOnce Threads Triples Enrich HostMonitor Collector CollectorFrames CollectorSafety CollectorAcks CollectorOnce CollectorGates.

Section programs.
Context `{N : NetIP} (cfg : hostConfig) (env : nat → answer).

(** ** Programs that leave table, gates and events alone *)

Section quiet.
Context (t : nat).

Lemma u_sink mk e : event_of (mk e) = None → quiet_prog t (sink_Write env mk e).
Proof.
  intros H. apply o_q_both. intros s. destruct (a_ok _); [|done]. split; [done..|].
  unfold event_log. simpl. rewrite omap_app. simpl. by rewrite H, app_nil_r.
Qed.
Lemma u_publish mk src e : (∀ e, event_of (mk e) = None) → quiet_prog t (publish env mk src e).
Proof. intros H. apply o_q_bind; [by apply o_q_both|]. intros n. by apply u_sink. Qed.
Lemma u_now : quiet_prog t (now env).
Proof. by apply o_q_both. Qed.
Lemma u_expired : quiet_prog t (expired env).
Proof. by apply o_q_both. Qed.
Lemma u_count c n : quiet_prog t (count c n).
Proof. by apply o_q_write. Qed.
Lemma u_panic x : quiet_prog t (panic x).
Proof. by apply o_q_write. Qed.
Lemma u_send i m : quiet_prog t (send env i m).
Proof. by apply o_q_both. Qed.
Lemma u_on_session i f : quiet_prog t (on_session i f).
Proof. by apply o_q_write. Qed.
Lemma u_seen u p src : quiet_prog t (monitor_seen cfg env u p src).
Proof. apply o_q_within, w_monitor_seen, watches_same. Qed.
Lemma u_tick u e : quiet_prog t (monitor_tick cfg env u e).
Proof. apply o_q_within, w_monitor_tick, watches_same. Qed.
Lemma u_claimed {X} (p : P X) (c : X → P ()) (C : X → Prop) :
  does t (λ _, True) p (λ x _, C x) → (∀ x, C x → quiet_prog t (c x)) → quiet_prog t (p ≫= c).
Proof.
  intros Hp Hc. eapply bind_; [exact Hp|]. intros x. apply (f_pure once_ok counts_on t _ (C x)); [auto|].
  intros H. by apply o_q_any, Hc.
Qed.

#[local] Hint Resolve o_q_ret u_now u_expired u_count u_panic u_send u_on_session u_seen u_tick o_q_read o_q_release o_q_ResumeFrom : quiet.

(** Walks through a program down to its calls. *)
Ltac quiet :=
  repeat first
    [ solve [eauto with quiet]
    | apply u_publish; done
    | apply o_q_bind; [|intros ?]
    | match goal with |- ∀ _, _ => intros ? end
    | match goal with |- context [match ?x with _ => _ end] => destruct x end ].

Lemma u_publishGap p reason : claim_ok p → quiet_prog t (publishGap env p reason).
Proof. intros Hc. pose proof (o_q_finishGap env t p) as Hf. unfold publishGap. quiet. Qed.

Lemma u_reportGap k src g reason : range_u64 g.1 → quiet_prog t (reportGap env k src g reason).
Proof.
  intros [Hf Hl]. apply (u_claimed _ _ (λ r, ∀ p, r = Some p → claim_ok p)).
  - apply (o_does_quiet_table env t _ (λ r, ∀ p, r = Some p → claim_ok p)). intros a d Hd.
    destruct (claimGap_ok d k src (first g.1) (Dedup.last g.1) g.2 Hf Hl Hd).
    split_and!; [apply claimGap_quiet|apply window_claim|done|done].
  - intros [p|] Hp; [|quiet]. apply o_q_bind; [by apply u_publishGap, Hp|quiet].
Qed.

Lemma u_retry_loop n : ∀ p, claim_ok p → quiet_prog t (retry_loop env n p).
Proof.
  induction n as [|n IH]; intros p Hp; pose proof (λ ok, o_q_finishGap env t p ok Hp) as Hf; cbn [retry_loop]; [quiet|].
  apply o_q_bind; [quiet|]. intros [|]; [quiet|]. apply o_q_bind; [by apply u_publishGap|]. intros [|]; [|quiet].
  apply (u_claimed _ _ (λ r, ∀ p, r = Some p → claim_ok p)).
  - apply (o_does_quiet_table env t _ (λ r, ∀ p, r = Some p → claim_ok p)). intros a d Hd.
    destruct (takeNext_ok d (p_key p) (a_order a (p_key p)) Hd).
    split_and!; [apply takeNext_quiet|apply window_takeNext|done|done].
  - intros [p'|] Hp'; [by apply IH, Hp'|quiet].
Qed.

Lemma u_retryPendingGaps : quiet_prog t (retryPendingGaps env).
Proof.
  apply (u_claimed _ _ (λ r, ∀ p, r = Some p → claim_ok p)).
  - apply (o_does_quiet_table env t _ (λ r, ∀ p, r = Some p → claim_ok p)). intros a d Hd.
    destruct (takePending_ok d (a_order a) Hd). split_and!; [apply takePending_quiet|apply window_take|done|done].
  - intros [p|] Hp; [by apply u_retry_loop, Hp|quiet].
Qed.

Lemma u_flushAck i : quiet_prog t (flushAck env i).
Proof.
  apply o_q_bind; [|quiet]. apply o_q_both. intros s. destruct (sessions s !! i); [|done]. by destruct (_ <=? _).
Qed.
#[local] Hint Resolve u_flushAck : quiet.

Lemma u_ackLoop i ws : quiet_prog t (ackLoop cfg env i ws).
Proof.
  induction ws as [|w ws IH]; cbn [ackLoop]; [quiet|]. assert (quiet_prog t (take_wake cfg i w)) as Hw.
  { apply o_q_same. intros s s' x H. destruct w; [done| |].
    - destruct (sessions s !! i) as [a|]; [|done]. destruct (signal a); [|done]. by injection H as <- _.
    - destruct (0 <? _); [|done]. by injection H as <- _. }
  destruct w; quiet.
Qed.
Lemma u_drain i : quiet_prog t (drain env i).
Proof. unfold drain. quiet. Qed.
Lemma u_newSession i p : quiet_prog t (newSession i p).
Proof. apply o_q_bind; [by apply o_q_both|]. intros n. apply o_q_bind; [by apply o_q_write|]. quiet. Qed.
Lemma u_reject i p src reason : quiet_prog t (reject env i p src reason).
Proof. unfold reject. quiet. Qed.
Lemma u_finish i id p src err : quiet_prog t (finish env i id p src err).
Proof. unfold finish. destruct err as [[]|]; quiet. Qed.
Lemma u_violation {A} i c m : quiet_prog t (violation (A := A) env i c m).
Proof. unfold violation. quiet. Qed.
Lemma u_identity i p src : quiet_prog t (requireResolvedIdentity cfg env i p src).
Proof. unfold requireResolvedIdentity. quiet. Qed.
#[local] Hint Resolve u_violation u_identity : quiet.
Lemma u_handlePing i p src m : quiet_prog t (handlePing cfg env i p src m).
Proof. unfold handlePing. quiet. Qed.
Lemma u_admit i p src : quiet_prog t (Server_admit cfg i p src).
Proof.
  unfold Server_admit. destruct (negb _); [quiet|]. apply o_q_both. intros s. unfold admit_locked. by repeat destruct (over _ _).
Qed.
Lemma u_failed i src (e : Event) err k : quiet_prog t (
  count COutputErrors 1;;
  through ← ackPointSequence i;
  n ← now env;
  publish env WroteInternal src
    (NewInternal n typeOutputFailed SeverityCritical
       {[ "reason" := AnyString err; "sequence" := AnyInt (Sequence e); "event_type" := AnyString (Type_ e);
          "boot_id" := AnyString k; "acknowledged_through" := AnyInt through;
          "held_by_guest_for_retry" := AnyBool true ]});;
  mret (None : option herr)).
Proof. unfold ackPointSequence. quiet. Qed.
End quiet.

(** ** Events *)

(** What a program keeps, and what a framed one adds. *)
Lemma keeps_frame {A} t (F G : collector → Prop) (p : P A) (Q : A → collector → Prop) `{!Stable once_ok counts_on t F} :
  does t G p Q → runs t (λ s, F s ∧ G s) p (λ a s, F s ∧ Q a s).
Proof. intros Hp. by apply Hp. Qed.

Lemma runs_pure {A} t (G : collector → Prop) (C : Prop) (p : P A) (Q : A → collector → Prop) :
  (∀ s, G s → C) → (C → runs t G p Q) → runs t G p Q.
Proof. intros HC Hp s Hi HG. exact (Hp (HC s HG) s Hi HG). Qed.

Section accept.
Context (t : nat) (g : nat) (F : collector → Prop) `{HS : !Stable once_ok counts_on t F} (HF : on_gates F).

Lemma runs_accept i p k src e : is_u64 (Sequence e) → 0 < Sequence e →
  runs t (λ s, F s ∧ settled t (peer_key k.1) g s) (accept_event cfg env i p k src e) (λ _ s, F s ∧ settled t (peer_key k.1) g s).
Proof.
  intros Hq H0. set (St := settled t (peer_key k.1) g).
  assert (∀ p : P (option herr), quiet_prog t p → runs t (λ s, F s ∧ St s) p (λ _ s, F s ∧ St s)) as Hquiet.
  { intros q Hp. apply keep_runs; [apply _|done]. }
  unfold accept_event. eapply then_; [apply keep_runs; [apply _|apply u_count]|]. intros ?.
  eapply then_; [apply keep_runs; [apply _|apply u_seen]|]. intros ?.
  eapply then_; [apply keeps_frame; [apply _|by apply o_does_Check]|]. intros res.
  set (After := λ (r : dedupResult) s, (F s ∧ St s) ∧ (is_new r → fresh t g k (Sequence e) s)).
  eapply (then_ t _ _ _ (λ r s, After r s ∧ gap_ok r)).
  { apply (tri_weaken once_ok counts_on t _ (λ s, After res s ∧ gap_ok res) _ _ (λ r s, After r s ∧ gap_ok r)); [|by intros s _ (? & ? & ? & ?)|auto].
    unfold After. destruct (_ && _); [|by apply tri_ret; [apply _|]].
    eapply then_; [apply keep_runs; [apply _|apply u_retryPendingGaps]|]. intros ?.
    apply (tri_weaken once_ok counts_on t _ (λ s, F s ∧ St s) _ _ (λ r s, F s ∧ St s ∧ gap_ok r ∧ (is_new r → fresh t g k (Sequence e) s))).
    - apply keeps_frame; [apply _|by apply o_does_Check].
    - by intros s _ [[? _] _].
    - by intros r' s _ (? & ? & ? & ?). }
  intros r. apply (runs_pure t _ (gap_ok r)); [by intros s [_ ?]|]. intros Hg.
  apply (tri_weaken once_ok counts_on t _ (After r) _ _ (λ _ s, F s ∧ St s)); [|by intros s _ [? _]|auto]. unfold After.
  eapply then_.
  { apply keep_runs; [apply _|]. destruct (Gap r) as [[g0 v]|] eqn:Eg; [apply u_reportGap; by eapply Hg|apply o_q_ret]. }
  intros ?. destruct (Blocked r) eqn:Eb.
  { apply (tri_weaken once_ok counts_on t _ (λ s, F s ∧ St s) _ _ (λ _ s, F s ∧ St s)); [apply Hquiet, o_q_ret|by intros s _ [? _]|auto]. }
  destruct (Duplicate r) eqn:Ed.
  { apply (tri_weaken once_ok counts_on t _ (λ s, F s ∧ St s) _ _ (λ _ s, F s ∧ St s)); [|by intros s _ [? _]|auto]. apply Hquiet.
    apply o_q_bind; [apply u_count|]. intros ?. apply o_q_bind; [apply o_q_ResumeFrom|]. intros n.
    apply o_q_bind; [apply u_on_session|intros; apply o_q_ret]. }
  apply (tri_weaken once_ok counts_on t _ (λ s, F s ∧ fresh t g k (Sequence e) s) _ _ (λ _ s, F s ∧ St s)); [|by intros s _ [[? _] Hn]; split; [done|apply Hn]|auto].
  eapply then_; [apply keep_runs; [apply _|apply u_now]|]. intros n.
  eapply then_; [by apply (runs_event env t g k (envelopeFor n src e) F)|]. intros [err|].
  { apply Hquiet, u_failed. }
  eapply then_; [apply keep_runs; [apply _|apply u_count]|]. intros ?.
  eapply then_; [apply keeps_frame; [apply _|by apply o_does_Commit]|]. intros r'. apply Hquiet.
  apply o_q_bind; [apply u_on_session|intros; apply o_q_ret].
Qed.
End accept.

(** ** The gates of an event *)

Lemma vm_not_peer src b : vm_gate src ≠ peer_key b.
Proof. unfold vm_gate, peer_key. intros E. discriminate E. Qed.

(** The gates that are held for an event. *)
Definition locked (t : nat) (src : Source) (gv : nat * option nat) (s : collector) : Prop :=
  match gv.2 with
  | Some v => only t [v; gv.1] s ∧ at_gate t (vm_gate src) v true s
  | None => only t [gv.1] s
  end.
#[local] Instance stable_locked t src gv : Stable once_ok counts_on t (locked t src gv).
Proof.
  destruct gv as [g [v|]]; [|exact (stable_only t [g])].
  exact (stable_and _ _ t _ _ (stable_only t [v; g]) (stable_at_gate t (vm_gate src) v true)).
Qed.
#[local] Typeclasses Opaque locked.
Lemma locked_gates t src gv : on_gates (locked t src gv).
Proof.
  intros s s' E1 E2. unfold locked, only, at_gate. destruct gv as [g [v|]]; simpl; rewrite ?E1, ?E2; done.
Qed.

(** The gate of a machine guards no events of its own. *)
Lemma at_settled t src v s : at_gate t (vm_gate src) v true s → settled t (vm_gate src) v s.
Proof. intros H. split; [done|]. intros k q Hk. by destruct (vm_not_peer src k.1). Qed.

Lemma second_gate t b src g s g' : once_ok s → settled t (peer_key b) g s → gate_of s !! vm_gate src = Some g' → g' ∉ [g].
Proof.
  intros Hi [(H1 & _) _] H2 ->%list_elem_of_singleton. by apply (vm_not_peer src b), (go_inj _ (oo_gates _ Hi) _ _ g).
Qed.

Lemma unlock_peer t p g : runs t (λ s, only t [g] s ∧ settled t (peer_key (bucket p)) g s) (unlockWrite t (peer_gate p) g) (λ _, only t []).
Proof.
  apply (tri_weaken once_ok counts_on t _ (λ s, only t [g] s ∧ settled t (peer_key (bucket p)) g s ∧ True) _ _ (λ _ s, only t [] s ∧ True)).
  - apply (runs_unlock t (peer_gate p) [] (λ _, True)). auto.
  - by intros s _ [? ?].
  - by intros ? s _ [? _].
Qed.

Lemma lock_peer t p : runs t (only t []) (lockWrite env t (peer_gate p))
  (λ r s, match r with Some g => only t [g] s ∧ settled t (peer_key (bucket p)) g s | None => only t [] s end).
Proof.
  apply (tri_weaken once_ok counts_on t _ (λ s, only t [] s ∧ True) _ _ (λ r s,
    match r with Some g => only t [g] s ∧ settled t (peer_key (bucket p)) g s ∧ True | None => only t [] s ∧ True end)).
  - apply (runs_lock env t (peer_gate p) [] (λ _, True)); [auto|]. by intros s g _ _ _ ?%not_elem_of_nil.
  - auto.
  - by intros [g|] s _ H; [destruct H as (? & ? & _)|destruct H as [? _]].
Qed.

Lemma runs_lockEvent t p src : runs t (only t []) (lockEventWrite env t p src)
  (λ r s, match r with Some gv => locked t src gv s ∧ settled t (peer_key (bucket p)) gv.1 s | None => only t [] s end).
Proof.
  unfold lockEventWrite. eapply then_; [apply lock_peer|].
  intros [g|]; [|by apply tri_ret; [apply _|]]. destruct (_ || _).
  { apply (tri_ret once_ok counts_on t (λ s, only t [g] s ∧ settled t (peer_key (bucket p)) g s) (Some (g, None)));
      [exact (stable_and _ _ t _ _ (stable_only t [g]) (stable_settled t (peer_key (bucket p)) g))|].
    intros s _ H. exact H. }
  eapply then_.
  { apply (runs_lock env t (vm_gate src) [g] (settled t (peer_key (bucket p)) g)).
    - intros s s' Hs. apply (settled_step t (vm_gate src)); [done|]. intros E. by destruct (vm_not_peer src (bucket p)).
    - intros s g' Hi H1. by apply (second_gate t (bucket p)). }
  intros [v|].
  - apply (tri_ret once_ok counts_on t (λ s, only t [v; g] s ∧ settled t (vm_gate src) v s ∧ settled t (peer_key (bucket p)) g s) (Some (g, Some v)));
      [exact (stable_and _ _ t _ _ (stable_only t [v; g]) (stable_and _ _ t _ _ (stable_settled t (vm_gate src) v) (stable_settled t (peer_key (bucket p)) g)))|]. intros s _ (Ho & [Ha _] & Hs). exact (conj (conj Ho Ha) Hs).
  - eapply then_; [apply unlock_peer|]. intros ?. by apply tri_ret; [apply _|].
Qed.

Lemma runs_unlockEvent t p src gv : runs t (λ s, locked t src gv s ∧ settled t (peer_key (bucket p)) gv.1 s)
  (unlockEventWrite t p src gv) (λ _, only t []).
Proof.
  unfold unlockEventWrite. eapply then_; [|intros ?; apply unlock_peer]. destruct gv as [g [v|]]; unfold locked; simpl.
  - apply (tri_weaken once_ok counts_on t _ (λ s, only t [v; g] s ∧ settled t (vm_gate src) v s ∧ settled t (peer_key (bucket p)) g s) _ _
      (λ _ s, only t [g] s ∧ settled t (peer_key (bucket p)) g s)).
    + apply (runs_unlock t (vm_gate src) [g] (settled t (peer_key (bucket p)) g)). intros s s' Hs.
      apply (settled_step t (vm_gate src)); [done|]. intros E. by destruct (vm_not_peer src (bucket p)).
    + intros s _ [[Ho Ha%at_settled] Hs]. exact (conj Ho (conj Ha Hs)).
    + auto.
  - by apply tri_ret; [apply _|].
Qed.

(** ** Sessions *)

Abbreviation outside t := (only t []).

Lemma runs_admit_event t i p k src e : is_u64 (Sequence e) → 0 < Sequence e → k.1 = bucket p → t = i →
  runs t (outside t) (admit_event cfg env i p k src e) (λ _, outside t).
Proof.
  intros Hq H0 Hk <-. unfold admit_event. eapply then_; [apply keep_runs; [apply _|by apply o_q_reserve]|]. intros a.
  eapply (then_ t _ _ _ (λ _, outside t)).
  { destruct a; apply keep_runs; [apply _|apply o_q_ret|apply _|]. apply o_q_bind; [apply u_retryPendingGaps|]. intros ?. by apply o_q_reserve. }
  intros [r|]; [|apply keep_runs; [apply _|apply o_q_ret]].
  eapply then_; [apply keep_runs; [apply _|apply u_identity]|]. intros err. eapply (then_ t _ _ _ (λ _, outside t)).
  - destruct err; [apply keep_runs; [apply _|apply o_q_ret]|]. eapply then_; [apply runs_lockEvent|].
    intros [gv|]; [|by apply tri_ret; [apply _|]]. eapply then_.
    { rewrite <- Hk. apply (runs_accept t gv.1 (locked t src gv)); [apply locked_gates|done|done]. }
    intros err. rewrite Hk. eapply then_; [apply runs_unlockEvent|]. intros ?. by apply tri_ret; [apply _|].
  - intros err'. eapply then_; [apply keep_runs; [apply _|apply o_q_release]|]. intros ?. by apply tri_ret; [apply _|].
Qed.

Lemma quiet_outside {A} t (p : P A) : quiet_prog t p → runs t (outside t) p (λ _, outside t).
Proof. apply keep_runs; apply _. Qed.

Lemma runs_handleEvent t p k src seq m : inbound_ok (InEvent seq m) → k.1 = bucket p →
  runs t (outside t) (handleEvent cfg env t p k src seq m) (λ _, outside t).
Proof.
  intros Hm Hk. unfold handleEvent.
  assert (∀ c x, runs t (outside t) (r ← violation (A := ()) env t c x; mret (match r with inl e => Some e | inr _ => None end)) (λ _, outside t)) as Hv.
  { intros c x. apply quiet_outside, o_q_bind; [apply u_violation|intros; apply o_q_ret]. }
  destruct m as [err|[[e|]]]; [apply Hv| |apply Hv]. destruct (Z.eqb_spec (Sequence e) 0); [apply Hv|].
  destruct (negb _); [apply Hv|]. simpl in Hm. apply runs_admit_event; [done|destruct Hm; lia|done|done].
Qed.

Lemma runs_serve t p k src fs : Forall inbound_ok fs → k.1 = bucket p →
  runs t (outside t) (serve cfg env t p k src fs) (λ _, outside t).
Proof.
  intros Hfs Hk. induction fs as [|f fs IH]; [apply quiet_outside, o_q_ret|]. apply Forall_cons in Hfs as [Hf Hfs]. specialize (IH Hfs).
  assert (∀ c x, runs t (outside t) (r ← violation (A := ()) env t c x; mret (match r with inl e => Some e | inr _ => None end)) (λ _, outside t)) as Hv.
  { intros c x. apply quiet_outside, o_q_bind; [apply u_violation|intros; apply o_q_ret]. }
  assert (∀ e : option herr, runs t (outside t) (match e with Some e => mret (Some e) | None => serve cfg env t p k src fs end) (λ _, outside t)) as He.
  { intros [e|]; [apply quiet_outside, o_q_ret|exact IH]. }
  cbn [serve]. destruct f as [e|seq m|seq m|seq m|seq m|seq m|ty]; [apply quiet_outside, o_q_ret|..];
    (eapply then_; [apply quiet_outside, u_count|intros ?]).
  - apply Hv.
  - eapply then_; [by apply runs_handleEvent|apply He].
  - eapply then_; [apply quiet_outside, u_handlePing|apply He].
  - destruct m; [apply Hv|apply quiet_outside, o_q_ret].
  - destruct m as [|em]; [apply Hv|]. destruct (Fatal em); [apply quiet_outside, o_q_ret|exact IH].
  - apply Hv.
Qed.

Lemma runs_handshake t id p src f : runs t (outside t) (handshake cfg env t id p src f)
  (λ r s, outside t s ∧ match r with inr (k, _) => k.1 = bucket p | inl _ => True end).
Proof.
  assert (∀ A (q : P A) (c : A → P (herr + (streamKey * Source))) Q, quiet_prog t q → (∀ a, runs t (outside t) (c a) Q) → runs t (outside t) (q ≫= c) Q) as Hb.
  { intros A q c Q Hq Hc. eapply then_; [by apply quiet_outside|exact Hc]. }
  assert (∀ e : herr, runs t (outside t) (mret (inl e)) (λ (r : herr + (streamKey * Source)) s, outside t s ∧ match r with inr (k, _) => k.1 = bucket p | inl _ => True end)) as He.
  { intros e. by apply tri_ret; [apply _|]. }
  assert (∀ c m, runs t (outside t) (violation env t c m) (λ (r : herr + (streamKey * Source)) s, outside t s ∧ match r with inr (k, _) => k.1 = bucket p | inl _ => True end)) as Hv.
  { intros c m. apply Hb; [apply u_send|]. intros b. apply He. }
  unfold handshake. destruct f as [e|seq m| | | | |]; [apply He| |apply Hb; [apply u_count|intros ?; apply Hv]..].
  apply Hb; [apply u_count|]. intros ?. destruct m as [err|hello]; [apply Hv|]. destruct (negb _); [apply Hv|]. cbv zeta.
  set (k := (bucket p, h_BootID hello) : streamKey).
  apply Hb; [apply u_on_session|]. intros ?. apply Hb; [apply o_q_ResumeFrom|]. intros n. apply Hb; [apply u_send|]. intros ok.
  destruct (negb ok); [apply He|]. apply Hb; [apply u_seen|]. intros ?.
  eapply (then_ t _ _ _ (λ r s, outside t s ∧ gap_ok r)).
  { apply (tri_weaken once_ok counts_on t _ (λ s, outside t s ∧ True) _ _ (λ r s, outside t s ∧ gap_ok r)); [|auto|auto].
    apply keeps_frame; [apply _|apply o_does_CheckReplay]. }
  intros r. apply (runs_pure t _ (gap_ok r)); [by intros s [_ ?]|]. intros Hg.
  apply (tri_weaken once_ok counts_on t _ (outside t) _ _ (λ (r : herr + (streamKey * Source)) s, outside t s ∧ match r with inr (k, _) => k.1 = bucket p | inl _ => True end));
    [|by intros s _ [? _]|auto].
  apply Hb; [destruct (Gap r) as [[g v]|] eqn:Eg; [apply u_reportGap; by eapply Hg|apply o_q_ret]|]. intros ?.
  destruct (Blocked r); [apply He|by apply tri_ret; [apply _|]].
Qed.

Lemma runs_session t id p src fs : Forall inbound_ok fs → runs t (outside t) (run_session cfg env t id p src fs) (λ _, outside t).
Proof.
  intros Hfs. unfold run_session.
  assert (∃ f fs', match fs with f :: fs => (f, fs) | [] => (InFailed (ErrEOF "EOF"), []) end = (f, fs') ∧ Forall inbound_ok fs') as (f & fs' & -> & Hfs').
  { destruct fs as [|f fs]; [by eexists _, _|]. apply Forall_cons in Hfs as [_ ?]. by eexists _, _. }
  eapply then_; [apply runs_handshake|]. intros [e|[k src']].
  - eapply tri_weaken; [apply quiet_outside, u_finish|by intros s _ [? _]|auto].
  - apply (runs_pure t _ (k.1 = bucket p)); [by intros s [_ ?]|]. intros Hk.
    apply (tri_weaken once_ok counts_on t _ (outside t) _ _ (λ _, outside t)); [|by intros s _ [? _]|auto].
    eapply then_; [by apply runs_serve|]. intros err. apply quiet_outside, o_q_bind; [apply u_flushAck|]. intros ?. apply u_finish.
Qed.

Lemma runs_body t g : goroutine_ok g → runs t (outside t) (body cfg env t g) (λ _, outside t).
Proof.
  intros Hg. destruct g as [remote c fs|i ws|i| |e]; simpl;
    [|apply quiet_outside, u_ackLoop|apply quiet_outside, u_drain|apply quiet_outside, u_retryPendingGaps|apply quiet_outside, u_tick].
  unfold serve_conn. eapply then_; [apply quiet_outside, u_admit|]. intros [reason|]; [apply quiet_outside, u_reject|].
  eapply then_; [apply quiet_outside, u_count|]. intros ?. eapply then_; [apply quiet_outside, u_count|]. intros ?.
  eapply then_; [apply quiet_outside, u_newSession|]. intros id. eapply then_; [by apply runs_session|]. intros ?.
  apply quiet_outside, o_q_bind; [apply u_count|]. intros ?. by apply o_q_write.
Qed.

(** ** The collector *)

(** Only goroutines that were started are at a gate. *)
Definition once_server (x : server) : Prop :=
  pool_ok once_ok counts_on (λ _ _, True) (shared x) (threads x) ∧
  ∀ t g y, gates (shared x) !! g = Some y → t ∈ users y → is_Some (threads x !! t).

Lemma once_act x a : act_ok a → once_server x → once_server (default x (server_act cfg env x a)).
Proof.
  intros Ha [Hp Hd]. destruct a as [t g|t]; simpl.
  - destruct (threads x !! t) as [p|] eqn:Et; [by split|]. simpl. split; simpl.
    + eapply (pool_spawn once_ok counts_on _ _ _ _ _ (outside t)); [done| |].
      * eapply tri_weaken; [by apply runs_body|auto|auto].
      * intros g' y Hy Hin. destruct (Hd t g' y Hy Hin) as [? ?]. congruence.
    + intros t' g' y Hy Hin. destruct (decide (t = t')) as [<-|]; [by rewrite lookup_insert_eq|].
      rewrite lookup_insert_ne by done. by eapply Hd.
  - destruct (threads x !! t) as [p|] eqn:Et; [|by split]. simpl.
    destruct (advance p (shared x)) as [[s' p']|] eqn:Ea; [|by split]. simpl.
    destruct (pool_step once_ok counts_on _ _ _ _ _ _ _ Hp Et Ea) as [Hp' Hs]. split; [done|]. simpl.
    intros t' g' y Hy Hin. destruct (decide (t = t')) as [<-|Hne]; [by rewrite lookup_insert_eq|]. rewrite lookup_insert_ne by done.
    destruct (co_in _ _ _ (Hs t' (not_eq_sym Hne)) g' y Hy Hin) as (z & ? & ?). by eapply Hd.
Qed.

Lemma once_run l : ∀ x, Forall act_ok l → once_server x → once_server (server_run cfg env x l).
Proof.
  induction l as [|a l IH]; intros x Hl Hx; [done|]. apply Forall_cons in Hl as [Ha Hl].
  apply IH; [done|]. by apply once_act.
Qed.

Lemma once_New vmlist start : once_server (New cfg vmlist start).
Proof.
  split; [|by intros t g y ?]. split; [|apply map_Forall_empty]. split.
  - by split.
  - simpl. unfold newDedup. simpl. unfold minDedupWindow. destruct (Z.ltb_spec (DedupWindow cfg) 64); lia.
  - by intros k s.
  - by intros k s _.
  - intros k _. constructor.
  - by intros k q _ ?%not_elem_of_nil.
Qed.

(** C4: Exactly once.  Guests deliver an event as often as they need to: after a
    reconnect, and over several connections at a time.  In every interleaving of the
    collector, as long as the deduplication table has not dropped or shortened the
    record of a stream, no event of it is in the sink twice. *)
Theorem written_once vmlist start l k :
  let s := shared (server_run cfg env (New cfg vmlist start) l) in
  Forall act_ok l → k ∉ lapsed s → NoDup (seqs s k).
Proof. intros s Hl Hk. destruct (once_run l _ Hl (once_New vmlist start)) as [[Hi _] _]. by apply (oo_once _ Hi). Qed.
End programs.

(** ** A run *)

(** The guest comes back over a second connection and sends everything again, and one
    event more. *)
Definition again_frames : list inbound :=
  [ InHello 0 (inr demo_hello);
    InEvent 5 (inr (mkEventMessage (Some (event_at 5))));
    InEvent 8 (inr (mkEventMessage (Some (event_at 8))));
    InEvent 9 (inr (mkEventMessage (Some (event_at 9)))) ].
Definition again_acts : list act :=
  demo_acts ++ Spawn 2 (GConn None (Some 3) again_frames) :: replicate 120 (Step 2).
Abbreviation again_end := (server_run demo_cfg yes (New demo_cfg [] 0) again_acts).

Lemma again_acts_ok : Forall act_ok again_acts.
Proof.
  apply Forall_app. split; [exact demo_acts_ok|]. constructor; [|by apply Forall_replicate].
  repeat constructor; unfold is_u64, u64_mod; simpl; lia.
Qed.

Lemma again_followed : ("cid:3", "boot") ∉ lapsed (shared again_end).
Proof.
  replace (lapsed (shared again_end)) with (∅ : gset streamKey) by (vm_compute; reflexivity). apply not_elem_of_empty.
Qed.

Example again_written : seqs (shared again_end) ("cid:3", "boot") = [5; 8; 9].
Proof. vm_compute. reflexivity. Qed.

Lemma written_once_witness : NoDup (seqs (shared again_end) ("cid:3", "boot")).
Proof. exact (written_once demo_cfg yes [] 0 again_acts ("cid:3", "boot") again_acts_ok again_followed). Defined.
