(* ===== verification/Netlink.v ===== *)
(** * The kernel audit socket

    [SauronAgent/internal/audit/netlink.go] and [listener.go]: datagrams of the audit
    multicast group are received, checked for their sender, split into records, parsed
    and passed on.

    What one turn of the receive loop gets from its environment is a [recv_input]: what
    other goroutines have done to the socket before it, the clock, whether [setsockopt] works, what [recvfrom] gives, whether the context is
    cancelled when the loop of [Run] is at its head, and whether the consumer or the
    cancellation wins the [select] for a record.  [history] is what became of every
    message taken from the socket, in order; no operation reads it.  Log lines are left
    out. *)

From Stdlib Require Import Strings.Ascii.
From S2P Require Import Prelude GoStrings Metrics AuditRecords AuditParser.

(** ** Native byte order *)

(** [binary.NativeEndian]: [big] tells the byte order of the machine. *)
Definition native_put (big : bool) (n : nat) (z : Z) : list byte := if big then be_put n z else rev (be_put n z).
Definition native_get (big : bool) (l : list byte) : Z := be_get (if big then l else rev l).

Lemma native_put_length big n z : length (native_put big n z) = n.
Proof. unfold native_put. destruct big; [|rewrite length_rev]; apply be_put_length. Qed.
Lemma native_get_put big n z : 0 <= z < 256 ^ Z.of_nat n → native_get big (native_put big n z) = z.
Proof. intros H. unfold native_get, native_put. destruct big; [|rewrite rev_involutive]; by apply be_get_put_small. Qed.
Lemma native_get_range big l : 0 <= native_get big l < 256 ^ Z.of_nat (length l).
Proof. unfold native_get. destruct big; [|rewrite <- (length_rev l)]; apply be_get_range. Qed.
Lemma native_put_get big l n : length l = n → native_put big n (native_get big l) = l.
Proof.
  intros H. unfold native_get, native_put. destruct big; [by apply be_put_get|].
  rewrite be_put_get by by rewrite length_rev. apply rev_involutive.
Qed.

(** ** Messages *)

Definition NLMSG_HDRLEN : nat := 16.
Definition NLMSG_ALIGNTO : Z := 4.
Definition NLMSG_NOOP : Z := 1.
Definition NLMSG_ERROR : Z := 2.
Definition NLMSG_DONE : Z := 3.

Definition auditTypeMin : RecordType := 1000.
Definition auditTypeMax : RecordType := 2999.

Definition nlmsgAlign (n : Z) : Z := Z.ldiff (n + NLMSG_ALIGNTO - 1) (NLMSG_ALIGNTO - 1).

(** [int32(u)] *)
Definition i32 (z : Z) : Z := if z <? 2 ^ 31 then z else z - 2 ^ 32.

(** What makes a datagram malformed; all are [errBadDatagram]. *)
Inductive datagram_error : Type :=
| TrailingBytes (n : Z) | LengthOutOfRange (length available : Z) | ShortError (n : Z) | KernelReported (errno : Z).

Definition bytes_at (l : list byte) (lo hi : nat) : list byte := take (hi - lo) (drop lo l).

Section parse.
Context (big : bool).

(** One message: whether it is a record, whether it is rejected, or the error. *)
Definition message_of (msgType : Z) (payload : list byte) (received : time) :
    result datagram_error (option RawMessage * bool) :=
  if (msgType =? NLMSG_NOOP) || (msgType =? NLMSG_DONE) then Ok (None, false)
  else if msgType =? NLMSG_ERROR then
    if (length payload <? 4)%nat then Err (ShortError (Z.of_nat (length payload)))
    else let code := i32 (native_get big (take 4 payload)) in
         if negb (code =? 0) then Err (KernelReported (- code)) else Ok (None, false)
  else if (msgType <? auditTypeMin) || (auditTypeMax <? msgType) then Ok (None, true)
  else Ok (Some (mkRawMessage msgType (of_chars (ascii_of_byte <$> payload)) received), false).

Fixpoint parse_loop (fuel : nat) (b : list byte) (received : time) (msgs : list RawMessage) (rejected : Z) :
    list RawMessage * Z * option datagram_error :=
  match fuel, b with
  | O, _ | _, [] => (msgs, rejected, None)
  | S fuel, _ =>
      if (length b <? NLMSG_HDRLEN)%nat then (msgs, rejected, Some (TrailingBytes (Z.of_nat (length b))))
      else
        let len := native_get big (take 4 b) in
        let msgType := native_get big (bytes_at b 4 6) in
        if (len <? Z.of_nat NLMSG_HDRLEN) || (Z.of_nat (length b) <? len)
        then (msgs, rejected, Some (LengthOutOfRange len (Z.of_nat (length b))))
        else
          match message_of msgType (bytes_at b NLMSG_HDRLEN (Z.to_nat len)) received with
          | Err e => (msgs, rejected, Some e)
          | Ok (m, r) =>
              let msgs := msgs ++ option_list m in
              let rejected := if r : bool then rejected + 1 else rejected in
              let advance := nlmsgAlign len in
              if Z.of_nat (length b) <=? advance then (msgs, rejected, None)
              else parse_loop fuel (drop (Z.to_nat advance) b) received msgs rejected
          end
  end.

Definition parseMessages (b : list byte) (received : time) : list RawMessage * Z * option datagram_error :=
  parse_loop (length b) b received [] 0.
End parse.

(** ** Receiving *)

(** What [recvfrom] gives; the sender is the port id of a netlink address. *)
Inductive sysresult : Type :=
| SysData (b : list byte) (from : option Z)
| SysEINTR | SysEAGAIN | SysENOBUFS | SysErrno (e : Z).

Definition fromKernel (from : option Z) : bool := match from with Some pid => pid =? 0 | None => false end.

(** What other goroutines do to the socket; [t] is nil for the zero time. *)
Inductive conn_action : Type := DoSetReceiveDeadline (t : option Z) | DoClose (ok : bool).

Record recv_input : Type := mkInput {
  ri_cancelled : bool;
  ri_before : list conn_action;
  ri_until : time;        (** the clock in [time.Until] *)
  ri_setopt : bool;
  ri_sys : sysresult;
  ri_now : time;          (** the clock after the call *)
  ri_sent : nat → bool
}.

Definition receivePollInterval : duration := 250000000.
Definition minReceiveTimeout : duration := 1000.

(** [deadlineNs] counts from the Unix epoch, 0 for none; times here do too. *)
Record NetlinkConn : Type := mkConn { c_closed : bool; curTimeout : duration; deadlineNs : Z; nl_rejected : Z }.

Definition set_curTimeout (c : NetlinkConn) (d : duration) : NetlinkConn := mkConn (c_closed c) d (deadlineNs c) (nl_rejected c).
Definition add_rejected (c : NetlinkConn) (n : Z) : NetlinkConn :=
  mkConn (c_closed c) (curTimeout c) (deadlineNs c) (u64 (nl_rejected c + n)).

Inductive recv_error : Type :=
| EINTR | EAGAIN | ENOBUFS | NetClosed | SetTimeoutFailed | Errno (e : Z).

Definition setTimeout (ok : bool) (d : duration) (c : NetlinkConn) : NetlinkConn * bool :=
  let d := if d <? minReceiveTimeout then minReceiveTimeout else d in
  if ok then (set_curTimeout c d, true) else (c, false).

(** The flag is [false] for an error. *)
Definition SetReceiveDeadline (t : option Z) (c : NetlinkConn) : NetlinkConn * bool :=
  if c_closed c then (c, false)
  else let ns := match t with None => 0 | Some ns => if ns =? 0 then 1 else ns end in
       (mkConn (c_closed c) (curTimeout c) ns (nl_rejected c), true).

Definition Close (ok : bool) (c : NetlinkConn) : NetlinkConn * bool :=
  if c_closed c then (c, true) else (mkConn true (curTimeout c) (deadlineNs c) (nl_rejected c), ok).

Definition conn_do (c : NetlinkConn) (a : conn_action) : NetlinkConn :=
  match a with DoSetReceiveDeadline t => fst (SetReceiveDeadline t c) | DoClose ok => fst (Close ok c) end.

Definition receiveOnce (i : recv_input) (c : NetlinkConn) : NetlinkConn * result recv_error (list byte * option Z) :=
  let remaining := deadlineNs c - ri_until i in
  if negb (deadlineNs c =? 0) && (remaining <=? 0) then (c, Err EAGAIN)
  else
    let timeout := if negb (deadlineNs c =? 0) && (remaining <? receivePollInterval) then remaining else receivePollInterval in
    if c_closed c then (c, Err NetClosed)
    else
      let '(c, ok) := if negb (timeout =? curTimeout c) then setTimeout (ri_setopt i) timeout c else (c, true) in
      if negb ok then (c, Err SetTimeoutFailed)
      else (c, match ri_sys i with
               | SysData b from => Ok (b, from)
               | SysEINTR => Err EINTR | SysEAGAIN => Err EAGAIN | SysENOBUFS => Err ENOBUFS
               | SysErrno e => Err (Errno e)
               end).

Inductive receive_error : Type :=
| ErrKernelOverrun | ErrDeadlineExceeded | ErrClosed | ErrBadDatagram (d : datagram_error) | ErrReceive (e : recv_error).

Section listener.
Context (big : bool).

(** One turn of the loop of [Receive]; [None] is [continue]. *)
Definition receive_turn (i : recv_input) (c : NetlinkConn) :
    NetlinkConn * option (list RawMessage * option receive_error) :=
  let '(c, r) := receiveOnce i (fold_left conn_do (ri_before i) c) in
  match r with
  | Err EINTR => (c, None)
  | Err EAGAIN =>
      if negb (deadlineNs c =? 0) && negb (ri_now i <? deadlineNs c) then (c, Some ([], Some ErrDeadlineExceeded)) else (c, None)
  | Err ENOBUFS => (c, Some ([], Some ErrKernelOverrun))
  | Err NetClosed => (c, Some ([], Some ErrClosed))
  | Err e => (c, Some ([], Some (ErrReceive e)))
  | Ok (b, from) =>
      if negb (fromKernel from) then (add_rejected c 1, None)
      else
        let '(msgs, rejected, perr) := parseMessages big b (ri_now i) in
        let c := if 0 <? rejected then add_rejected c rejected else c in
        match perr with
        | Some e => (c, Some (msgs, Some (ErrBadDatagram e)))
        | None => if bool_decide (msgs = []) then (c, None) else (c, Some (msgs, None))
        end
  end.

(** [None]: every input is used up and the call has not returned. *)
Fixpoint Receive (ins : list recv_input) (c : NetlinkConn) :
    NetlinkConn * option (list recv_input * list RawMessage * option receive_error) :=
  match ins with
  | [] => (c, None)
  | i :: ins =>
      match receive_turn i c with
      | (c, Some (msgs, err)) => (c, Some (ins, msgs, err))
      | (c, None) => Receive ins c
      end
  end.

(** ** The listener *)

(** What became of a message. *)
Inductive fate : Type :=
| Excluded (m : RawMessage)
| Unparsable (m : RawMessage) (e : parse_error)
| Delivered (m : RawMessage) (r : AuditRecord)
| Abandoned (m : RawMessage).

Record Listener : Type := mkListener {
  l_conn : NetlinkConn;
  exclude : gset RecordType;
  l_metrics : Agent;
  lastRejected : Z;
  out : list AuditRecord;
  parseFailures : list (RawMessage * parse_error);   (** calls of [onParseError] *)
  kernelLosses : Z;                                  (** calls of [onKernelLoss], each with 1 *)
  history : list fate
}.

Definition set_conn (l : Listener) c := mkListener c (exclude l) (l_metrics l) (lastRejected l) (out l) (parseFailures l) (kernelLosses l) (history l).
Definition set_metrics (l : Listener) m := mkListener (l_conn l) (exclude l) m (lastRejected l) (out l) (parseFailures l) (kernelLosses l) (history l).
Definition set_lastRejected (l : Listener) n := mkListener (l_conn l) (exclude l) (l_metrics l) n (out l) (parseFailures l) (kernelLosses l) (history l).
Definition add_out (l : Listener) r := mkListener (l_conn l) (exclude l) (l_metrics l) (lastRejected l) (out l ++ [r]) (parseFailures l) (kernelLosses l) (history l).
Definition add_failure (l : Listener) x := mkListener (l_conn l) (exclude l) (l_metrics l) (lastRejected l) (out l) (parseFailures l ++ [x]) (kernelLosses l) (history l).
Definition add_loss (l : Listener) := mkListener (l_conn l) (exclude l) (l_metrics l) (lastRejected l) (out l) (parseFailures l) (kernelLosses l + 1) (history l).
Definition note_fate (f : fate) (l : Listener) := mkListener (l_conn l) (exclude l) (l_metrics l) (lastRejected l) (out l) (parseFailures l) (kernelLosses l) (history l ++ [f]).

Section metrics.
Context (n : Z) (a : Agent).
Definition count_AuditMessagesReceived : Agent :=
  mkAgent (u64 (AuditMessagesReceived a + n)) (AuditMessagesDropped a) (KernelRecordsLost a) (ParseErrors a) (EventsCreated a)
    (EventsSent a) (EventsAcknowledged a) (EventsDropped a) (EventsResent a) (QueueDepth a) (SpoolBytes a) (SpoolEvents a)
    (VSOCKReconnects a) (SendErrors a).
Definition count_AuditMessagesDropped : Agent :=
  mkAgent (AuditMessagesReceived a) (u64 (AuditMessagesDropped a + n)) (KernelRecordsLost a) (ParseErrors a) (EventsCreated a)
    (EventsSent a) (EventsAcknowledged a) (EventsDropped a) (EventsResent a) (QueueDepth a) (SpoolBytes a) (SpoolEvents a)
    (VSOCKReconnects a) (SendErrors a).
Definition count_KernelRecordsLost : Agent :=
  mkAgent (AuditMessagesReceived a) (AuditMessagesDropped a) (u64 (KernelRecordsLost a + n)) (ParseErrors a) (EventsCreated a)
    (EventsSent a) (EventsAcknowledged a) (EventsDropped a) (EventsResent a) (QueueDepth a) (SpoolBytes a) (SpoolEvents a)
    (VSOCKReconnects a) (SendErrors a).
Definition count_ParseErrors : Agent :=
  mkAgent (AuditMessagesReceived a) (AuditMessagesDropped a) (KernelRecordsLost a) (u64 (ParseErrors a + n)) (EventsCreated a)
    (EventsSent a) (EventsAcknowledged a) (EventsDropped a) (EventsResent a) (QueueDepth a) (SpoolBytes a) (SpoolEvents a)
    (VSOCKReconnects a) (SendErrors a).
End metrics.

(** [sent] tells which case of the [select] is taken. *)
Definition deliver (sent : bool) (m : RawMessage) (l : Listener) : Listener * bool :=
  let l := set_metrics l (count_AuditMessagesReceived 1 (l_metrics l)) in
  if bool_decide (msg_Type m ∈ exclude l) then (note_fate (Excluded m) l, true)
  else
    match ParseRecord m with
    | Err e => (note_fate (Unparsable m e) (add_failure (set_metrics l (count_ParseErrors 1 (l_metrics l))) (m, e)), true)
    | Ok rec => if sent then (note_fate (Delivered m rec) (add_out l rec), true) else (note_fate (Abandoned m) l, false)
    end.

(** The loop over the messages of one [Receive]; [false] is [return nil]. *)
Fixpoint deliver_all (sent : nat → bool) (k : nat) (msgs : list RawMessage) (l : Listener) : Listener * bool :=
  match msgs with
  | [] => (l, true)
  | m :: msgs =>
      let '(l, ok) := deliver (sent k) m l in
      if ok then deliver_all sent (S k) msgs l else (l, false)
  end.

Definition reportRejections (l : Listener) : Listener :=
  let total := nl_rejected (l_conn l) in
  if total <=? lastRejected l then l
  else set_metrics (set_lastRejected l total) (count_AuditMessagesDropped (u64 (total - lastRejected l)) (l_metrics l)).

Inductive run_state : Type := Running | Returned (e : option receive_error).

(** The [switch] on the error; [None] continues the loop. *)
Definition after_receive (err : option receive_error) (l : Listener) : Listener * option run_state :=
  match err with
  | None | Some ErrDeadlineExceeded => (l, None)
  | Some ErrKernelOverrun => (add_loss (set_metrics l (count_KernelRecordsLost 1 (l_metrics l))), None)
  | Some ErrClosed => (l, Some (Returned None))
  | Some (ErrBadDatagram _) => (set_metrics l (count_ParseErrors 1 (l_metrics l)), None)
  | Some e => (l, Some (Returned (Some e)))
  end.

(** Every [Receive] uses an input, so as many rounds as inputs are enough. *)
Fixpoint run_loop (rounds : nat) (ins : list recv_input) (l : Listener) : Listener * run_state :=
  match rounds, ins with
  | S rounds, i :: _ =>
      if ri_cancelled i then (l, Returned None)
      else
        match Receive ins (l_conn l) with
        | (c, None) => (set_conn l c, Running)
        | (c, Some (ins, msgs, err)) =>
            let l := reportRejections (set_conn l c) in
            match deliver_all (ri_sent i) 0 msgs l with
            | (l, false) => (l, Returned None)
            | (l, true) =>
                match after_receive err l with
                | (l, Some r) => (l, r)
                | (l, None) => run_loop rounds ins l
                end
            end
        end
  | _, _ => (l, Running)
  end.

Definition Run (ins : list recv_input) (l : Listener) : Listener * run_state := run_loop (length ins) ins l.
End listener.

Definition NewListener (c : NetlinkConn) (excluded : list RecordType) : Listener :=
  mkListener c (list_to_set excluded) zero_agent 0 [] [] 0 [].
