(* ===== verification/NetlinkProofs.v ===== *)
(** * No kernel record is forged or lost in the reader

    What [Run] of [Netlink] passes on is what the kernel sent: nothing a local process
    put into the socket, and everything the kernel put there. *)

From S2P Require Import Prelude GoStrings Metrics AuditRecords AuditParser Netlink.
From Stdlib Require Import Strings.Ascii.

Definition fate_message (f : fate) : RawMessage :=
  match f with Excluded m | Unparsable m _ | Delivered m _ | Abandoned m => m end.
Definition fate_record (f : fate) : option AuditRecord := match f with Delivered _ r => Some r | _ => None end.
Definition fate_failure (f : fate) : option (RawMessage * parse_error) :=
  match f with Unparsable m e => Some (m, e) | _ => None end.

(** A fate is what policy and parser say of the message. *)
Definition fate_ok (ex : gset RecordType) (f : fate) : Prop :=
  match f with
  | Excluded m => msg_Type m ∈ ex
  | Unparsable m e => msg_Type m ∉ ex ∧ ParseRecord m = Err e
  | Delivered m r => msg_Type m ∉ ex ∧ ParseRecord m = Ok r
  | Abandoned m => msg_Type m ∉ ex ∧ ∃ r, ParseRecord m = Ok r
  end.
Definition final (f : fate) : Prop := match f with Abandoned _ => False | _ => True end.

Section reader.
Context (big : bool).

(** The audit records in the datagram that the kernel, whose port is 0, sends in one turn,
    if it does. *)
Definition turn_messages (i : recv_input) (c : NetlinkConn) : list RawMessage :=
  match snd (receiveOnce i (fold_left conn_do (ri_before i) c)) with
  | Ok (b, from) => if decide (from = Some 0) then (parseMessages big b (ri_now i)).1.1 else []
  | Err _ => []
  end.
Definition turn_overrun (i : recv_input) (c : NetlinkConn) : Z :=
  match snd (receiveOnce i (fold_left conn_do (ri_before i) c)) with Err ENOBUFS => 1 | _ => 0 end.

(** All that the kernel sends, and how often it reports an overrun. *)
Fixpoint kernel_messages (ins : list recv_input) (c : NetlinkConn) : list RawMessage :=
  match ins with [] => [] | i :: ins => turn_messages i c ++ kernel_messages ins (fst (receive_turn big i c)) end.
Fixpoint kernel_overruns (ins : list recv_input) (c : NetlinkConn) : Z :=
  match ins with [] => 0 | i :: ins => turn_overrun i c + kernel_overruns ins (fst (receive_turn big i c)) end.

Definition is_overrun (err : option receive_error) : Z := match err with Some ErrKernelOverrun => 1 | _ => 0 end.

(** One turn hands over the records of its datagram, or there are none. *)
Lemma turn_spec i c : match receive_turn big i c with
  | (_, Some (msgs, err)) => turn_messages i c = msgs ∧ (turn_overrun i c = is_overrun err)
  | (_, None) => turn_messages i c = [] ∧ turn_overrun i c = 0
  end.
Proof.
  unfold receive_turn, turn_messages, turn_overrun. destruct (receiveOnce _ _) as [c' [[b from]|e]]; simpl.
  - assert (fromKernel from = bool_decide (from = Some 0)) as ->.
    { destruct from as [pid|]; simpl; [|done]. destruct (Z.eqb_spec pid 0) as [->|]; [done|]. by rewrite bool_decide_false by congruence. }
    destruct (decide (from = Some 0)) as [Hk|Hk]; [rewrite bool_decide_true by done|rewrite bool_decide_false by done]; simpl; [|done]. destruct (parseMessages _ _ _) as [[msgs rej] [perr|]]; simpl; [done|].
    by case_bool_decide.
  - destruct e; try done. by destruct (_ && _).
Qed.

Lemma Receive_spec ins : ∀ c, match Receive big ins c with
  | (_, None) => kernel_messages ins c = [] ∧ kernel_overruns ins c = 0
  | (c', Some (rest, msgs, err)) =>
      (length rest < length ins)%nat ∧ kernel_messages ins c = msgs ++ kernel_messages rest c' ∧
      kernel_overruns ins c = is_overrun err + kernel_overruns rest c'
  end.
Proof.
  induction ins as [|i ins IH]; intros c; cbn [Receive kernel_messages kernel_overruns]; [done|].
  pose proof (turn_spec i c) as Ht. destruct (receive_turn big i c) as [c1 [[msgs err]|]]; simpl.
  - destruct Ht as [-> ->]. split_and!; [lia|done|done].
  - destruct Ht as [-> ->]. specialize (IH c1). destruct (Receive big ins c1) as [c2 [[[rest msgs] err]|]]; simpl in *; [|done].
    destruct IH as (? & ? & ?). split_and!; [lia|done|done].
Qed.

(** What a part of the run adds. *)
Record extends (l l' : Listener) (h : list fate) : Prop := {
  ex_history : history l' = history l ++ h;
  ex_out : out l' = out l ++ omap fate_record h;
  ex_failures : parseFailures l' = parseFailures l ++ omap fate_failure h;
  ex_exclude : exclude l' = exclude l;
  ex_fates : Forall (fate_ok (exclude l)) h
}.

Lemma extends_nil l l' : history l' = history l → out l' = out l → parseFailures l' = parseFailures l → exclude l' = exclude l → extends l l' [].
Proof. intros. split; simpl; rewrite ?app_nil_r; done. Qed.

Lemma history_extends_trans l1 l2 l3 h1 h2 : extends l1 l2 h1 → extends l2 l3 h2 → extends l1 l3 (h1 ++ h2).
Proof.
  intros [A1 B1 C1 D1 E1] [A2 B2 C2 D2 E2]. split.
  - by rewrite A2, A1, app_assoc.
  - by rewrite B2, B1, omap_app, app_assoc.
  - by rewrite C2, C1, omap_app, app_assoc.
  - by rewrite D2.
  - apply Forall_app. split; [done|]. by rewrite <- D1.
Qed.

Lemma deliver_spec sent m l l' ok : deliver sent m l = (l', ok) →
  ∃ f, extends l l' [f] ∧ fate_message f = m ∧ (ok = true → final f) ∧ kernelLosses l' = kernelLosses l ∧ l_conn l' = l_conn l.
Proof.
  unfold deliver. intros H. simpl in H. case_bool_decide as Hx.
  { injection H as <- <-. exists (Excluded m). split_and!; [|done..]. split; simpl; rewrite ?app_nil_r; try done. by constructor. }
  destruct (ParseRecord m) as [r|e] eqn:Ep; [destruct sent|]; injection H as <- <-.
  - exists (Delivered m r). split_and!; [|done..]. split; simpl; rewrite ?app_nil_r; try done. by constructor.
  - exists (Abandoned m). split_and!; [|done..]. split; simpl; rewrite ?app_nil_r; try done. constructor; [|done]. split; [done|by exists r].
  - exists (Unparsable m e). split_and!; [|done..]. split; simpl; rewrite ?app_nil_r; try done. by constructor.
Qed.

Lemma deliver_all_spec sent msgs : ∀ k l l' ok, deliver_all sent k msgs l = (l', ok) →
  ∃ h rest, extends l l' h ∧ msgs = (fate_message <$> h) ++ rest ∧ (ok = true → rest = [] ∧ Forall final h) ∧
    kernelLosses l' = kernelLosses l ∧ l_conn l' = l_conn l.
Proof.
  induction msgs as [|m msgs IH]; intros k l l' ok; simpl.
  { intros [= <- <-]. exists [], []. split_and!; [by apply extends_nil|done|by split|done|done]. }
  destruct (deliver (sent k) m l) as [l1 ok1] eqn:Ed. apply deliver_spec in Ed as (f & He & Hm & Hf & Hl & Hc). destruct ok1.
  - intros H. apply IH in H as (h & rest & He2 & Hm2 & Hf2 & Hl2 & Hc2). exists (f :: h), rest. split_and!.
    + by apply (history_extends_trans l l1 l' [f] h).
    + simpl. by rewrite Hm, Hm2.
    + intros Hok. destruct (Hf2 Hok). split; [done|]. constructor; auto.
    + congruence.
    + congruence.
  - intros [= <- <-]. exists [f], msgs. split_and!; [done|by simpl; rewrite Hm|done|done|done].
Qed.

Lemma report_extends l : extends l (reportRejections l) [] ∧ kernelLosses (reportRejections l) = kernelLosses l ∧ l_conn (reportRejections l) = l_conn l.
Proof. unfold reportRejections. destruct (_ <=? _); (split_and!; [by apply extends_nil|done|done]). Qed.

Lemma after_spec err l l' r : after_receive err l = (l', r) →
  extends l l' [] ∧ kernelLosses l' = kernelLosses l + is_overrun err ∧ l_conn l' = l_conn l ∧ r ≠ Some Running.
Proof.
  unfold after_receive. intros H. destruct err as [[]|]; injection H as <- <-; simpl; (split_and!; [by apply extends_nil|lia|done|done]).
Qed.

Lemma run_spec n : ∀ ins l l' r, (length ins <= n)%nat → run_loop big n ins l = (l', r) →
  ∃ h rest, extends l l' h ∧ kernel_messages ins (l_conn l) = (fate_message <$> h) ++ rest ∧
    (r = Running → rest = [] ∧ Forall final h ∧ kernelLosses l' = kernelLosses l + kernel_overruns ins (l_conn l)).
Proof.
  induction n as [|n IH]; intros ins l l' r Hn.
  { destruct ins; [|simpl in Hn; lia]. intros [= <- <-]. exists [], []. split_and!; [by apply extends_nil|done|]. intros _. simpl. split_and!; [done|done|lia]. }
  destruct ins as [|i ins]. { intros [= <- <-]. exists [], []. split_and!; [by apply extends_nil|done|]. intros _. simpl. split_and!; [done|done|lia]. }
  cbn [run_loop]. destruct (ri_cancelled i).
  { intros [= <- <-]. exists [], (kernel_messages (i :: ins) (l_conn l)). split_and!; [by apply extends_nil|done|done]. }
  pose proof (Receive_spec (i :: ins) (l_conn l)) as Hr. destruct (Receive big (i :: ins) (l_conn l)) as [c [[[ins' msgs] err]|]].
  - destruct Hr as (Hlt & Hk & Ho). rewrite Hk, Ho. clear Hk Ho. destruct (report_extends (set_conn l c)) as (He0 & Hl0 & Hc0).
    set (l0 := reportRejections (set_conn l c)) in *. assert (extends l l0 []) as He0' by (destruct He0; by split).
    destruct (deliver_all (ri_sent i) 0 msgs l0) as [l1 ok] eqn:Ed.
    apply deliver_all_spec in Ed as (h1 & rest1 & He1 & Hm1 & Hf1 & Hl1 & Hc1). destruct ok.
    + destruct (Hf1 eq_refl) as [-> Hfin]. rewrite app_nil_r in Hm1. subst msgs.
      destruct (after_receive err l1) as [l2 r2] eqn:Ea. apply after_spec in Ea as (He2 & Hl2 & Hc2 & Hr2).
      assert (extends l l2 h1) as He12.
      { pose proof (history_extends_trans _ _ _ _ _ (history_extends_trans _ _ _ _ _ He0' He1) He2) as H. simpl in H. by rewrite app_nil_r in H. }
      destruct r2 as [r2|].
      * intros [= <- <-]. exists h1, (kernel_messages ins' c). split_and!; [done|done|]. intros ->. done.
      * intros H. apply IH in H as (h2 & rest2 & He3 & Hm3 & Hr3); [|simpl in Hn, Hlt; lia].
        assert (l_conn l2 = c) as Ec by (rewrite Hc2, Hc1, Hc0; done). rewrite Ec in Hm3, Hr3.
        exists (h1 ++ h2), rest2. split_and!; [by eapply history_extends_trans|by rewrite fmap_app, <- app_assoc, Hm3|].
        intros Hrun. destruct (Hr3 Hrun) as (-> & Hfin2 & Hl3). split_and!; [done|by apply Forall_app|].
        rewrite Hl3, Hl2, Hl1, Hl0. simpl. lia.
    + intros [= <- <-]. exists h1, (rest1 ++ kernel_messages ins' c). split_and!; [|by rewrite Hm1, <- app_assoc|done].
      by apply (history_extends_trans _ _ _ [] _ He0').
  - destruct Hr as [Hk Ho]. intros [= <- <-]. exists [], []. rewrite Hk, Ho. split_and!; [by apply extends_nil|done|].
    intros _. simpl. split_and!; [done|done|lia].
Qed.

(** C12: What the reader passes on is the kernel's evidence, all of it and nothing else.
    Whatever other processes write to the socket, whatever fails and whenever the reader
    is stopped: the messages it handled are, in order, those of the datagrams the kernel
    sent, from the first on; each was excluded by the operator's policy, reported as
    unparsable, or parsed and passed on in order.  Until the reader returns, none is
    missing, and every overrun that the kernel signalled was reported as a loss. *)
Theorem kernel_records_accounted ins c excluded l r :
  Run big ins (NewListener c excluded) = (l, r) →
  (∃ rest, kernel_messages ins c = (fate_message <$> history l) ++ rest ∧ (r = Running → rest = [])) ∧
  out l = omap fate_record (history l) ∧ parseFailures l = omap fate_failure (history l) ∧
  Forall (fate_ok (list_to_set excluded)) (history l) ∧
  (r = Running → Forall final (history l) ∧ kernelLosses l = kernel_overruns ins c).
Proof.
  intros H. apply run_spec in H as (h & rest & [H1 H2 H3 H4 H5] & Hm & Hr); [|done]. simpl in *. subst h.
  split_and!; [|done|done|done|].
  - exists rest. split; [done|]. intros ->. by apply Hr.
  - intros ->. by destruct Hr as (_ & ? & ->).
Qed.
End reader.

(** ** Datagrams *)

(** A message as the kernel lays it out, padded to the alignment. *)
Definition nlmsg (big : bool) (t : Z) (p : list byte) : list byte :=
  let n := 16 + Z.of_nat (length p) in
  native_put big 4 n ++ native_put big 2 t ++ native_put big 10 0 ++ p ++ replicate (Z.to_nat (nlmsgAlign n - n)) x00.

Lemma align_spec n : 0 <= n → n <= nlmsgAlign n < n + 4.
Proof.
  intros Hn. unfold nlmsgAlign, NLMSG_ALIGNTO. change (4 - 1) with (Z.ones 2).
  rewrite Z.ldiff_ones_r, Z.shiftl_mul_pow2, Z.shiftr_div_pow2 by lia. change (2 ^ 2) with 4.
  pose proof (Z.div_mod (n + 4 - 1) 4). pose proof (Z.mod_pos_bound (n + 4 - 1) 4). lia.
Qed.

Definition raw_of (received : time) (x : Z * list byte) : RawMessage :=
  mkRawMessage x.1 (of_chars (ascii_of_byte <$> x.2)) received.

Definition sendable (x : Z * list byte) : Prop :=
  auditTypeMin <= x.1 <= auditTypeMax ∧ 16 + Z.of_nat (length x.2) < 2 ^ 32.

Section datagram.
Context (big : bool).

Lemma nlmsg_length t p : length (nlmsg big t p) = Z.to_nat (nlmsgAlign (16 + Z.of_nat (length p))).
Proof.
  unfold nlmsg. rewrite !length_app, !native_put_length, length_replicate.
  pose proof (align_spec (16 + Z.of_nat (length p))). lia.
Qed.

Lemma parse_one fuel x rest received msgs rej : sendable x →
  parse_loop big (S fuel) (nlmsg big x.1 x.2 ++ rest) received msgs rej = parse_loop big fuel rest received (msgs ++ [raw_of received x]) rej.
Proof.
  destruct x as [t p]. intros [Ht Hp]. simpl in Ht, Hp. set (n := 16 + Z.of_nat (length p)) in *.
  pose proof (align_spec n) as Ha. pose proof (nlmsg_length t p) as Hl. fold n in Hl.
  assert (take 4 (nlmsg big t p ++ rest) = native_put big 4 n) as E1.
  { unfold nlmsg. rewrite <- !app_assoc. apply take_app_length'. by rewrite native_put_length. }
  assert (bytes_at (nlmsg big t p ++ rest) 4 6 = native_put big 2 t) as E2.
  { unfold nlmsg, bytes_at. rewrite <- !app_assoc, drop_app_length' by by rewrite native_put_length.
    apply take_app_length'. by rewrite native_put_length. }
  assert (bytes_at (nlmsg big t p ++ rest) NLMSG_HDRLEN (Z.to_nat n) = p) as E3.
  { unfold nlmsg, bytes_at. rewrite <- !app_assoc. rewrite (app_assoc (native_put _ 4 _)), (app_assoc (_ ++ _) (native_put _ 10 _)).
    rewrite drop_app_length' by by rewrite !length_app, !native_put_length. apply take_app_length'. unfold NLMSG_HDRLEN, n. lia. }
  cbn [parse_loop fst snd]. destruct (nlmsg big t p ++ rest) as [|b0 b] eqn:Eb.
  { apply (f_equal length) in Eb. rewrite length_app, Hl in Eb. simpl in Eb. unfold n in *. lia. }
  rewrite <- Eb in *. clear Eb b0 b. rewrite E1, E2. rewrite length_app, Hl.
  rewrite native_get_put by (change (256 ^ Z.of_nat 4) with (2 ^ 32); lia).
  rewrite native_get_put by (change (256 ^ Z.of_nat 2) with 65536; unfold auditTypeMin, auditTypeMax in Ht; lia).
  rewrite E3. rewrite (proj2 (Nat.ltb_ge _ _)) by (unfold NLMSG_HDRLEN, n in *; lia).
  rewrite (proj2 (Z.ltb_ge _ _)) by (unfold NLMSG_HDRLEN, n; lia). simpl orb.
  rewrite (proj2 (Z.ltb_ge _ _)) by lia. unfold message_of, NLMSG_NOOP, NLMSG_DONE, NLMSG_ERROR, auditTypeMin, auditTypeMax in *.
  rewrite !(proj2 (Z.eqb_neq _ _)) by lia. rewrite !(proj2 (Z.ltb_ge _ _)) by lia. simpl.
  destruct (Z.leb_spec (Z.of_nat (Z.to_nat (nlmsgAlign n) + length rest)) (nlmsgAlign n)) as [Hle|Hle].
  - destruct rest; [|simpl in Hle; lia]. by destruct fuel.
  - by rewrite drop_app_length' by done.
Qed.

(** A datagram of the kernel is read back record by record. *)
Theorem datagram_roundtrip l received : Forall sendable l →
  parseMessages big (concat ((λ x, nlmsg big x.1 x.2) <$> l)) received = (raw_of received <$> l, 0, None).
Proof.
  intros Hl. unfold parseMessages. assert (∀ fuel msgs, (length l <= fuel)%nat →
    parse_loop big fuel (concat ((λ x, nlmsg big x.1 x.2) <$> l)) received msgs 0 = (msgs ++ (raw_of received <$> l), 0, None)) as Hgo.
  { induction Hl as [|x l Hx Hl IH]; intros fuel msgs Hf; simpl; [rewrite app_nil_r; by destruct fuel|].
    destruct fuel as [|fuel]; [simpl in Hf; lia|]. rewrite parse_one by done. rewrite IH by (simpl in Hf; lia). by rewrite <- app_assoc. }
  apply Hgo. clear. induction l as [|x l IH]; [done|]. rewrite fmap_cons. cbn [concat length]. rewrite length_app, nlmsg_length.
  pose proof (align_spec (16 + Z.of_nat (length x.2)) ltac:(lia)). lia.
Qed.
End datagram.

(** ** A run *)

(** The kernel sends a record and one of a type the operator excludes, a local process
    sends a forged record, the kernel overruns the socket, and its last datagram is cut. *)
Definition demo_body : list byte := byte_of_ascii <$> to_chars "audit(1700000000.123:42): pid=7".
Definition demo_datagram : list byte := nlmsg false 1300 demo_body ++ nlmsg false 1307 demo_body.
Definition demo_input (sys : sysresult) : recv_input := mkInput false [] 0 true sys 5 (λ _, true).
Definition demo_inputs : list recv_input :=
  [ demo_input (SysData demo_datagram (Some 0)); demo_input (SysData demo_datagram (Some 4711)); demo_input SysENOBUFS;
    demo_input (SysData (take 30 demo_datagram) (Some 0)); demo_input SysEAGAIN ].
Definition demo_conn : NetlinkConn := mkConn false receivePollInterval 0 0.
Abbreviation demo_run := (Run false demo_inputs (NewListener demo_conn [1307])).

Example demo_out : ((rec_Type <$> out demo_run.1), kernelLosses demo_run.1, length (history demo_run.1), AuditMessagesDropped (l_metrics demo_run.1),
  ParseErrors (l_metrics demo_run.1), demo_run.2) = ([1300], 1, 2%nat, 1, 1, Running).
Proof. vm_compute. reflexivity. Qed.

Lemma kernel_records_accounted_witness :
  out demo_run.1 = omap fate_record (history demo_run.1) ∧ kernelLosses demo_run.1 = kernel_overruns false demo_inputs demo_conn.
Proof.
  destruct (kernel_records_accounted false demo_inputs demo_conn [1307] demo_run.1 demo_run.2 (surjective_pairing _)) as (_ & H1 & _ & _ & H2).
  split; [exact H1|]. apply H2. vm_compute. reflexivity.
Defined.
