(* ===== verification/AuditControl.v ===== *)
(** * Requests to the kernel audit system

    [SauronAgent/internal/audit/control.go]: a request on the audit control socket and
    the replies to it.

    The socket is an input: for each request, what the attempts to send it and the
    attempts to receive give.  When these run out, the deadline of the context has
    passed. *)

From S2P Require Import Prelude GoStrings AuditRecords Netlink.

Definition NLM_F_REQUEST : Z := 1.
Definition NLM_F_ACK : Z := 4.
Definition NLM_F_DUMP_INTR : Z := 16.
Definition AUDIT_GET : Z := 1000.
Definition AUDIT_LIST_RULES : Z := 1013.

Record controlReply : Type := mkReply { messageType : Z; r_flags : Z; r_sequence : Z; r_payload : list byte }.

Inductive ctl_error : Type :=
| CtxDone | CtlErrno (e : Z) | TruncatedReply | TruncatedHeader | BadLength | TruncatedCode | PositiveCode
| TruncatedAck | ForeignAck | UnexpectedDone | UnexpectedPayload | UnexpectedType (t : Z) | DumpInterrupted | DumpTooLarge.

(** One attempt of an operation on the socket: the context is done before it, it fails
    with an error that is tried again (the flag tells that the context ends while
    waiting), it fails, or it gives a result. *)
Inductive io_step (A : Type) : Type :=
| IoCancelled | IoRetry (cancelled : bool) | IoFailed (e : ctl_error) | IoDone (a : A).
Arguments IoCancelled {A}.
Arguments IoRetry {A} cancelled.
Arguments IoFailed {A} e.
Arguments IoDone {A} a.

(** What the kernel and others do to one request. *)
Record exchange_io : Type := mkIO { io_send : list (io_step ()); io_receive : list (io_step (list byte * option Z)) }.

(** [requests] is every request made. *)
Record auditControlClient : Type := mkClient { c_sequence : Z; io : list exchange_io; requests : list (list byte) }.

Section control.
Context (big : bool).

Fixpoint replies_loop (fuel : nat) (b : list byte) (acc : list controlReply) : result ctl_error (list controlReply) :=
  match fuel, b with
  | O, _ | _, [] => Ok acc
  | S fuel, _ =>
      if (length b <? NLMSG_HDRLEN)%nat then Err TruncatedHeader
      else
        let len := native_get big (take 4 b) in
        if (len <? Z.of_nat NLMSG_HDRLEN) || (Z.of_nat (length b) <? len) then Err BadLength
        else
          let acc := acc ++ [mkReply (native_get big (bytes_at b 4 6)) (native_get big (bytes_at b 6 8))
                               (native_get big (bytes_at b 8 12)) (bytes_at b NLMSG_HDRLEN (Z.to_nat len))] in
          let advance := nlmsgAlign len in
          if Z.of_nat (length b) <=? advance then Ok acc else replies_loop fuel (drop (Z.to_nat advance) b) acc
  end.

Definition parseControlReplies (b : list byte) : result ctl_error (list controlReply) := replies_loop (length b) b [].

(** [None] is no error. *)
Definition controlReplyError (payload : list byte) : option ctl_error :=
  if (length payload <? 4)%nat then Some TruncatedCode
  else let code := i32 (native_get big (take 4 payload)) in
       if 0 <? code then Some PositiveCode
       else if code <? 0 then Some (CtlErrno (- code))
       else None.

(** Whether the reply acknowledges the request, and whether it completes it. *)
Definition acceptControlReply (r : controlReply) (requestType : Z) : result ctl_error (bool * bool) :=
  if messageType r =? NLMSG_ERROR then
    if (length (r_payload r) <? 4 + NLMSG_HDRLEN)%nat then Err TruncatedAck
    else if negb (native_get big (bytes_at (r_payload r) 8 10) =? requestType)
            || negb (native_get big (bytes_at (r_payload r) 12 16) =? r_sequence r) then Err ForeignAck
    else match controlReplyError (r_payload r) with
         | Some e => Err e
         | None => Ok (true, negb (requestType =? AUDIT_GET) && negb (requestType =? AUDIT_LIST_RULES))
         end
  else if messageType r =? NLMSG_DONE then
    if negb (requestType =? AUDIT_LIST_RULES) then Err UnexpectedDone
    else match (if negb (length (r_payload r) =? 0)%nat then controlReplyError (r_payload r) else None) with
         | Some e => Err e
         | None => Ok (false, true)
         end
  else if messageType r =? requestType then
    if negb (requestType =? AUDIT_GET) && negb (requestType =? AUDIT_LIST_RULES) then Err UnexpectedPayload
    else Ok (false, requestType =? AUDIT_GET)
  else Err (UnexpectedType (messageType r)).

Fixpoint send_loop (l : list (io_step ())) : option ctl_error :=
  match l with
  | [] | IoCancelled :: _ | IoRetry true :: _ => Some CtxDone
  | IoRetry false :: l => send_loop l
  | IoFailed e :: _ => Some e
  | IoDone _ :: _ => None
  end.

(** The datagram of the next turn, and what is left of the input. *)
Fixpoint receive (l : list (io_step (list byte * option Z))) :
    list (io_step (list byte * option Z)) * result ctl_error (list controlReply) :=
  match l with
  | [] => ([], Err CtxDone)
  | IoCancelled :: l | IoRetry true :: l => (l, Err CtxDone)
  | IoRetry false :: l => receive l
  | IoFailed e :: l => (l, Err e)
  | IoDone (b, from) :: l => if negb (fromKernel from) then receive l else (l, parseControlReplies b)
  end.

Record progress : Type := mkProgress { p_replies : list (list byte); acknowledged : bool; completed : bool; responseBytes : Z }.

Definition maxResponseBytes : Z := 16 * 2 ^ 20.
Definition maxReplies : Z := 16384.

(** One message of a datagram. *)
Definition take_reply (sequence requestType : Z) (p : progress) (m : controlReply) : result ctl_error progress :=
  if negb (r_sequence m =? sequence) then Ok p
  else if negb (Z.land (r_flags m) NLM_F_DUMP_INTR =? 0) then Err DumpInterrupted
  else
    let? (ack, done) := acceptControlReply m requestType in
    let p := mkProgress (p_replies p) (acknowledged p || ack) (completed p || done) (responseBytes p) in
    if messageType m =? requestType then
      let n := responseBytes p + Z.of_nat (length (r_payload m)) in
      if (maxResponseBytes <? n) || (maxReplies <=? Z.of_nat (length (p_replies p))) then Err DumpTooLarge
      else Ok (mkProgress (p_replies p ++ [r_payload m]) (acknowledged p) (completed p) n)
    else Ok p.

Fixpoint take_replies (sequence requestType : Z) (p : progress) (ms : list controlReply) : result ctl_error progress :=
  match ms with
  | [] => Ok p
  | m :: ms => let? p := take_reply sequence requestType p m in take_replies sequence requestType p ms
  end.

(** Every turn but the last uses some input. *)
Fixpoint read_loop (fuel : nat) (sequence requestType : Z) (l : list (io_step (list byte * option Z))) (p : progress) :
    result ctl_error (list (list byte)) :=
  if acknowledged p && completed p then Ok (p_replies p)
  else
    match fuel with
    | O => Err CtxDone
    | S fuel =>
        let '(l, ms) := receive l in
        let? ms := ms in
        let? p := take_replies sequence requestType p ms in
        read_loop fuel sequence requestType l p
    end.

Definition readReplies (sequence requestType : Z) (l : list (io_step (list byte * option Z))) : result ctl_error (list (list byte)) :=
  read_loop (S (length l)) sequence requestType l (mkProgress [] false false 0).

Definition request_bytes (sequence requestType : Z) (payload : list byte) : list byte :=
  native_put big 4 (Z.of_nat (NLMSG_HDRLEN + length payload)) ++ native_put big 2 requestType ++
  native_put big 2 (Z.lor NLM_F_REQUEST NLM_F_ACK) ++ native_put big 4 sequence ++ native_put big 4 0 ++ payload.

Definition exchange (c : auditControlClient) (requestType : Z) (payload : list byte) :
    auditControlClient * result ctl_error (list (list byte)) :=
  let sequence := u32 (c_sequence c + 1) in
  let '(now, later) := match io c with x :: l => (x, l) | [] => (mkIO [] [], []) end in
  let request := request_bytes sequence requestType payload in
  let c := mkClient sequence later (requests c ++ [request]) in
  match send_loop (io_send now) with
  | Some e => (c, Err e)
  | None => (c, readReplies sequence requestType (io_receive now))
  end.
End control.

(** ** What a reply is *)

(** The datagrams that the kernel sent. *)
Definition kernel_datagrams (l : list (io_step (list byte * option Z))) : list (list byte) :=
  omap (λ x, match x with IoDone (b, from) => if fromKernel from then Some b else None | _ => None end) l.

Section sound.
Context (big : bool).

(** The kernel accepted the request [t] with the sequence [q]. *)
Definition acknowledges (t q : Z) (m : controlReply) : Prop :=
  messageType m = NLMSG_ERROR ∧ (4 + NLMSG_HDRLEN <= length (r_payload m))%nat ∧ native_get big (take 4 (r_payload m)) = 0 ∧
  native_get big (bytes_at (r_payload m) 8 10) = t ∧ native_get big (bytes_at (r_payload m) 12 16) = q.

(** What ends the replies to a request of type [t]. *)
Definition ends (t : Z) (m : controlReply) : Prop :=
  if t =? AUDIT_GET then messageType m = t
  else if t =? AUDIT_LIST_RULES then messageType m = NLMSG_DONE
  else messageType m = NLMSG_ERROR.

(** The messages that answer the request [q]. *)
Definition addressed (q : Z) (ms : list controlReply) : list controlReply := filter (λ m, r_sequence m = q) ms.

Record progress_ok (t q : Z) (ms : list controlReply) (p : progress) : Prop := {
  po_replies : p_replies p = r_payload <$> filter (λ m, messageType m = t) (addressed q ms);
  po_acknowledged : acknowledged p = true → ∃ m, m ∈ addressed q ms ∧ acknowledges t q m;
  po_completed : completed p = true → ∃ m, m ∈ addressed q ms ∧ ends t m;
  po_count : Z.of_nat (length (p_replies p)) <= maxReplies
}.

Lemma i32_zero z : 0 <= z < 2 ^ 32 → i32 z = 0 → z = 0.
Proof. unfold i32. destruct (Z.ltb_spec z (2 ^ 31)); lia. Qed.

Lemma code_zero payload : controlReplyError big payload = None → native_get big (take 4 payload) = 0.
Proof.
  unfold controlReplyError. destruct (length payload <? 4)%nat eqn:El; [done|]. apply Nat.ltb_ge in El. cbv zeta.
  destruct (Z.ltb_spec 0 (i32 (native_get big (take 4 payload)))); [done|].
  destruct (Z.ltb_spec (i32 (native_get big (take 4 payload))) 0); [done|]. intros _. apply i32_zero; [|lia].
  pose proof (native_get_range big (take 4 payload)) as H'. rewrite length_take in H'. rewrite Nat.min_l in H' by lia. exact H'.
Qed.

Lemma accept_spec m t ack done_ : acceptControlReply big m t = Ok (ack, done_) →
  (ack = true → acknowledges t (r_sequence m) m) ∧ (done_ = true → ends t m).
Proof.
  unfold acceptControlReply, acknowledges, ends. destruct (Z.eqb_spec (messageType m) NLMSG_ERROR) as [E|].
  - destruct (Nat.ltb_spec (length (r_payload m)) (4 + NLMSG_HDRLEN)); [done|].
    destruct (Z.eqb_spec (native_get big (bytes_at (r_payload m) 8 10)) t); [|done].
    destruct (Z.eqb_spec (native_get big (bytes_at (r_payload m) 12 16)) (r_sequence m)); [|done]. simpl.
    destruct (controlReplyError big (r_payload m)) eqn:Ec; [done|]. apply code_zero in Ec. intros [= <- <-].
    split; [done|]. destruct (t =? AUDIT_GET), (t =? AUDIT_LIST_RULES); done.
  - destruct (Z.eqb_spec (messageType m) NLMSG_DONE) as [E|].
    + destruct (Z.eqb_spec t AUDIT_LIST_RULES) as [->|]; [|done]. simpl. destruct (if negb _ then _ else _); [done|]. by intros [= <- <-].
    + destruct (Z.eqb_spec (messageType m) t) as [E|]; [|done]. destruct (_ && _) eqn:Eb; [done|]. intros [= <- <-]. split; [done|].
      by intros ->.
Qed.

Lemma addressed_app q ms ms' : addressed q (ms ++ ms') = addressed q ms ++ addressed q ms'.
Proof. apply filter_app. Qed.

Lemma take_reply_ok t q ms p m p' : progress_ok t q ms p → take_reply big q t p m = Ok p' → progress_ok t q (ms ++ [m]) p'.
Proof.
  intros [H1 H2 H3 H4] H. unfold take_reply in H. destruct (Z.eqb_spec (r_sequence m) q) as [Eq|Hne]; simpl in H.
  2:{ assert (addressed q (ms ++ [m]) = addressed q ms) as Em.
      { rewrite addressed_app. unfold addressed at 2. rewrite filter_cons, decide_False by done. apply app_nil_r. }
      injection H as <-. split; rewrite ?Em; done. }
  destruct (negb _); [done|]. apply res_bind_ok in H as ([ack dn] & Ha & H). apply accept_spec in Ha as [Ha Hd]. cbv zeta in H. simpl in H.
  assert (addressed q (ms ++ [m]) = addressed q ms ++ [m]) as Em.
  { rewrite addressed_app. f_equal. unfold addressed. rewrite filter_cons. by rewrite decide_True. }
  assert (acknowledged p || ack = true → ∃ x, x ∈ addressed q (ms ++ [m]) ∧ acknowledges t q x) as Hack.
  { rewrite Em. intros [Hp|Hp]%orb_true_iff; [destruct (H2 Hp) as (x & ? & ?); exists x; set_solver|]. exists m. rewrite <- Eq at 2. set_solver. }
  assert (completed p || dn = true → ∃ x, x ∈ addressed q (ms ++ [m]) ∧ ends t x) as Hdone.
  { rewrite Em. intros [Hp|Hp]%orb_true_iff; [destruct (H3 Hp) as (x & ? & ?); exists x; set_solver|]. exists m. set_solver. }
  destruct (Z.eqb_spec (messageType m) t) as [Et|Hnt].
  - destruct (_ || _) eqn:Eo; [done|]. injection H as <-. apply orb_false_iff in Eo as [_ Eo]. apply Z.leb_gt in Eo.
    split; simpl; [|done|done|rewrite length_app; simpl; lia].
    rewrite Em, filter_app, fmap_app, H1. f_equal. rewrite filter_cons. by rewrite decide_True.
  - injection H as <-. split; simpl; [|done|done|done].
    rewrite Em, filter_app, fmap_app, H1. rewrite filter_cons, decide_False by done. by rewrite app_nil_r.
Qed.

Lemma take_replies_ok t q ms' : ∀ ms p p', progress_ok t q ms p → take_replies big q t p ms' = Ok p' → progress_ok t q (ms ++ ms') p'.
Proof.
  induction ms' as [|m ms' IH]; intros ms p p' Hp H; simpl in H; [injection H as <-; by rewrite app_nil_r|].
  apply res_bind_ok in H as (p1 & H1 & H2). rewrite (app_assoc ms [m] ms' : ms ++ m :: ms' = _). eapply IH; [|done]. by eapply take_reply_ok.
Qed.

Lemma receive_ok l rest ms : receive big l = (rest, Ok ms) →
  ∃ d, kernel_datagrams l = d :: kernel_datagrams rest ∧ parseControlReplies big d = Ok ms.
Proof.
  induction l as [|[|[|]|e|[b from]] l IH]; simpl; try done.
  destruct (fromKernel from); simpl; [|done]. intros [= <- Hp]. by exists b.
Qed.

(** The datagrams read are the first of the kernel's, and parse. *)
Lemma read_ok t q fuel : ∀ l ms p replies, progress_ok t q ms p → read_loop big fuel q t l p = Ok replies →
  ∃ ds mss rest, kernel_datagrams l = ds ++ rest ∧ Forall2 (λ d ms, parseControlReplies big d = Ok ms) ds mss ∧
    ∃ p', progress_ok t q (ms ++ concat mss) p' ∧ acknowledged p' = true ∧ completed p' = true ∧ p_replies p' = replies.
Proof.
  induction fuel as [|fuel IH]; intros l ms p replies Hp H; simpl in H;
    (destruct (acknowledged p && completed p) eqn:Ed;
      [apply andb_true_iff in Ed as [? ?]; injection H as <-; exists [], [], (kernel_datagrams l);
       split_and!; [done|constructor|]; exists p; simpl; by rewrite app_nil_r|]); [done|].
  destruct (receive big l) as [l' r] eqn:Er. apply res_bind_ok in H as (ms1 & -> & H). apply res_bind_ok in H as (p1 & H1 & H).
  apply receive_ok in Er as (d & Hd & Hpar). eapply take_replies_ok in H1; [|done].
  apply (IH l' _ _ _ H1) in H as (ds & mss & rest & H2 & H3 & p' & H4 & H5). exists (d :: ds), (ms1 :: mss), rest.
  split_and!; [by rewrite Hd, H2|by constructor|]. exists p'. simpl. by rewrite app_assoc.
Qed.

(** C23: Only the kernel answers a request, and only this one.  When an exchange succeeds,
    then among the messages of the first datagrams that came from the kernel and carry
    the sequence number of this request there is an acknowledgement that names the
    request and reports no error, and one that ends the replies; the result is, in order,
    the payload of every one of these messages that has the type of the request.  What
    other processes send, and late replies to earlier requests, never show. *)
Theorem exchange_answered c t payload c' replies : exchange big c t payload = (c', Ok replies) →
  let q := u32 (c_sequence c + 1) in
  ∃ x later ds mss rest, io c = x :: later ∧ kernel_datagrams (io_receive x) = ds ++ rest ∧
    Forall2 (λ d ms, parseControlReplies big d = Ok ms) ds mss ∧
    (∃ m, m ∈ addressed q (concat mss) ∧ acknowledges t q m) ∧ (∃ m, m ∈ addressed q (concat mss) ∧ ends t m) ∧
    replies = r_payload <$> filter (λ m, messageType m = t) (addressed q (concat mss)) ∧
    Z.of_nat (length replies) <= maxReplies ∧ requests c' = requests c ++ [request_bytes big q t payload].
Proof.
  intros H q. unfold exchange in H. destruct (io c) as [|x later]; simpl in H; [done|].
  destruct (send_loop (io_send x)); injection H as <- H; [done|].
  apply read_ok with (ms := []) in H as (ds & mss & rest & H1 & H2 & p & [H3 H4 H5 H6] & H7 & H8 & <-).
  - exists x, later, ds, mss, rest. split_and!; [done|done|done|by apply H4|by apply H5|done|done|done].
  - by split.
Qed.
End sound.

(** ** An exchange *)

(** The kernel's messages: one of another request, the list of two rules, its end and the
    acknowledgement. *)
Definition reply_bytes (t flags q : Z) (p : list byte) : list byte :=
  native_put false 4 (16 + Z.of_nat (length p)) ++ native_put false 2 t ++ native_put false 2 flags ++ native_put false 4 q ++ native_put false 4 0 ++ p.
Definition ack_bytes (t q : Z) : list byte :=
  reply_bytes NLMSG_ERROR 0 q (native_put false 4 0 ++ reply_bytes t 5 q []).
Definition demo_io : exchange_io := mkIO [IoRetry false; IoDone ()]
  [ IoDone (ack_bytes AUDIT_LIST_RULES 7, Some 99); IoDone (ack_bytes AUDIT_LIST_RULES 6, Some 0); IoRetry false;
    IoDone (reply_bytes AUDIT_LIST_RULES 2 7 [x01; x02; x03; x04] ++ reply_bytes AUDIT_LIST_RULES 2 7 [x05] ++ [x00; x00; x00], Some 0);
    IoDone (reply_bytes NLMSG_DONE 2 7 [], Some 0); IoDone (ack_bytes AUDIT_LIST_RULES 7, Some 0) ].
Definition demo_client : auditControlClient := mkClient 6 [demo_io] [].

Lemma demo_exchange : exchange false demo_client AUDIT_LIST_RULES [] =
  (mkClient 7 [] [request_bytes false 7 AUDIT_LIST_RULES []], Ok [[x01; x02; x03; x04]; [x05]]).
Proof. vm_compute. reflexivity. Qed.

Lemma exchange_answered_witness : ∃ x later ds mss rest, io demo_client = x :: later ∧ kernel_datagrams (io_receive x) = ds ++ rest ∧
  Forall2 (λ d ms, parseControlReplies false d = Ok ms) ds mss ∧
  (∃ m, m ∈ addressed 7 (concat mss) ∧ acknowledges false AUDIT_LIST_RULES 7 m).
Proof.
  destruct (exchange_answered false demo_client AUDIT_LIST_RULES [] _ _ demo_exchange) as (x & later & ds & mss & rest & H1 & H2 & H3 & H4 & _).
  by exists x, later, ds, mss, rest.
Defined.
