(* ===== verification/AuditRules.v ===== *)
(** * Rules of the kernel audit system

    [SauronAgent/internal/audit/rules.go]: the rules as the kernel keeps them, and the
    checks that the rules in force record what the managed rules are to record.

    A loop over the fields of a rule goes over [rule_fields].  The numbers are those of
    [linux/audit.h]. *)

From Stdlib Require Import Strings.Ascii.
From S2P Require Import Prelude GoStrings GoText GoMisc Netlink.

Definition AUDIT_BITMASK_SIZE : nat := 64.
Definition AUDIT_MAX_FIELDS : nat := 64.
Definition AUDIT_MAX_KEY_LEN : Z := 256.
Definition AUDIT_SYSCALL_CLASSES : Z := 16.
Definition AUDIT_FILTER_TASK : Z := 1.
Definition AUDIT_FILTER_EXIT : Z := 4.
Definition AUDIT_FILTER_EXCLUDE : Z := 5.
Definition AUDIT_FILTER_FS : Z := 6.
Definition AUDIT_FILTER_PREPEND : Z := 16.
Definition AUDIT_NEVER : Z := 0.
Definition AUDIT_ALWAYS : Z := 2.
Definition AUDIT_ARCH : Z := 11.
Definition AUDIT_MSGTYPE : Z := 12.
Definition AUDIT_SUBJ_USER : Z := 13.
Definition AUDIT_PPID : Z := 18.
Definition AUDIT_OBJ_LEV_HIGH : Z := 23.
Definition AUDIT_FSTYPE : Z := 26.
Definition AUDIT_WATCH : Z := 105.
Definition AUDIT_PERM : Z := 106.
Definition AUDIT_DIR : Z := 107.
Definition AUDIT_EXE : Z := 112.
Definition AUDIT_FILTERKEY : Z := 210.
Definition AUDIT_EQUAL : Z := 0x40000000.
Definition AUDIT_NOT_EQUAL : Z := 0x30000000.
Definition AUDIT_OPERATORS : Z := 0x78000000.
Definition AUDIT_PERM_EXEC : Z := 1.
Definition AUDIT_PERM_WRITE : Z := 2.
Definition AUDIT_PERM_READ : Z := 4.
Definition AUDIT_PERM_ATTR : Z := 8.
Definition AUDIT_SYSCALL : Z := 1300.
Definition AUDIT_PATH : Z := 1302.
Definition AUDIT_CWD : Z := 1307.
Definition AUDIT_EXECVE : Z := 1309.
Definition AUDIT_EOE : Z := 1320.
Definition AUDIT_SECCOMP : Z := 1326.
Definition AUDIT_PROCTITLE : Z := 1327.
Definition AUDIT_AVC : Z := 1400.
Definition AUDIT_AVC_PATH : Z := 1402.

Definition auditRuleSize : nat := 4 * (4 + AUDIT_BITMASK_SIZE + 3 * AUDIT_MAX_FIELDS).
Definition executionRuleKey : chars := to_chars "exec".
Definition all_ones : Z := 2 ^ 32 - 1.

(** ** Rules *)

(** The arrays are lists of their size. *)
Record kernelRule : Type := mkKernelRule {
  Flags : Z; Action : Z; FieldCount : Z;
  Mask : list Z; Fields : list Z; Values : list Z; FieldFlags : list Z;
  BufferLength : Z
}.

Record auditRule : Type := mkAuditRule { kernel :> kernelRule; buffer : chars }.

#[global] Instance kernelRule_eq_dec : EqDecision kernelRule.
Proof. solve_decision. Defined.
#[global] Instance auditRule_eq_dec : EqDecision auditRule.
Proof. solve_decision. Defined.

Definition set_Flags (f : Z) (r : auditRule) : auditRule :=
  mkAuditRule (mkKernelRule f (Action r) (FieldCount r) (Mask r) (Fields r) (Values r) (FieldFlags r) (BufferLength r)) (buffer r).
Definition set_Mask (m : list Z) (r : auditRule) : auditRule :=
  mkAuditRule (mkKernelRule (Flags r) (Action r) (FieldCount r) m (Fields r) (Values r) (FieldFlags r) (BufferLength r)) (buffer r).
Definition set_Fields (l : list Z) (r : auditRule) : auditRule :=
  mkAuditRule (mkKernelRule (Flags r) (Action r) (FieldCount r) (Mask r) l (Values r) (FieldFlags r) (BufferLength r)) (buffer r).
Definition set_Values (l : list Z) (r : auditRule) : auditRule :=
  mkAuditRule (mkKernelRule (Flags r) (Action r) (FieldCount r) (Mask r) (Fields r) l (FieldFlags r) (BufferLength r)) (buffer r).

(** A field of a rule, its value and its operator. *)
Record rule_field : Type := mkField { f_field : Z; f_value : Z; f_op : Z }.

Fixpoint zip_fields (fs vs ops : list Z) : list rule_field :=
  match fs, vs, ops with
  | f :: fs, v :: vs, o :: ops => mkField f v o :: zip_fields fs vs ops
  | _, _, _ => []
  end.

Definition rule_fields (r : auditRule) : list rule_field :=
  take (Z.to_nat (FieldCount r)) (zip_fields (Fields r) (Values r) (FieldFlags r)).

(** The field without operator bits, and the filter list without the flag for prepending. *)
Definition plain (f : Z) : Z := Z.ldiff f AUDIT_OPERATORS.
Definition filter_list (r : auditRule) : Z := Z.ldiff (Flags r) AUDIT_FILTER_PREPEND.

(** [rule.Values[0]] *)
Definition first_value (r : auditRule) : Z := default 0 (Values r !! 0%nat).

(** ** The form of a rule on the socket *)

Inductive rule_error : Type :=
| MalformedRule | TruncatedRule | MalformedWatch
| NeverTask | NeverExit | ExcludesExecution | ExcludesSecurity | NeverWatch | NeverFilesystem (path : chars)
| KeyOrdering (description : string * chars) (key : chars)
| BadKey | NoSyscalls | SyscallTooHigh (n : Z) | ExecutionTooHigh | BadArchitecture (goarch : string).

Section codec.
Context (big : bool).

Definition rule_words (r : auditRule) : list Z :=
  [Flags r; Action r; FieldCount r] ++ Mask r ++ Fields r ++ Values r ++ FieldFlags r ++ [BufferLength r].

Definition marshalKernelRule (r : auditRule) : result rule_error (list byte) :=
  if (Z.of_nat AUDIT_MAX_FIELDS <? FieldCount r) || negb (BufferLength r =? Z.of_nat (length (buffer r))) then Err MalformedRule
  else Ok (concat (native_put big 4 <$> rule_words r) ++ (byte_of_ascii <$> buffer r)).

Fixpoint words (n : nat) (b : list byte) : list Z :=
  match n with O => [] | S n => native_get big (take 4 b) :: words n (drop 4 b) end.

Definition parseKernelRule (payload : list byte) : result rule_error auditRule :=
  if (length payload <? auditRuleSize)%nat then Err TruncatedRule
  else
    let w := words (auditRuleSize / 4) payload in
    let word i := default 0 (w !! i) in
    let array i := take 64 (drop i w) in
    let k := mkKernelRule (word 0%nat) (word 1%nat) (word 2%nat) (array 3%nat) (array 67%nat) (array 131%nat) (array 195%nat) (word 259%nat) in
    if (Z.of_nat AUDIT_MAX_FIELDS <? FieldCount k) || negb (BufferLength k =? Z.of_nat (length payload - auditRuleSize))
    then Err MalformedRule
    else Ok (mkAuditRule k (ascii_of_byte <$> drop auditRuleSize payload)).
End codec.

(** ** What a rule says *)

Definition hasRuleField (r : auditRule) (wanted : Z) : bool := existsb (λ f, plain (f_field f) =? wanted) (rule_fields r).

Definition isPathRule (r : auditRule) : bool := hasRuleField r AUDIT_WATCH || hasRuleField r AUDIT_DIR.

Definition allSyscalls (mask : list Z) : bool := forallb (λ w, w =? all_ones) (take (AUDIT_BITMASK_SIZE - 1) mask).
Definition hasAnySyscall (mask : list Z) : bool := existsb (λ w, negb (w =? 0)) mask.

Definition auditStringField (field : Z) : bool :=
  (AUDIT_SUBJ_USER <=? field) && (field <=? AUDIT_OBJ_LEV_HIGH) && negb (field =? AUDIT_PPID) ||
  (field =? AUDIT_WATCH) || (field =? AUDIT_DIR) || (field =? AUDIT_FILTERKEY) || (field =? AUDIT_EXE).

(** The fields of a watch found so far; [None] is not found. *)
Record watch_parts : Type := mkParts { w_path : option chars; w_key : option chars; w_perms : option Z }.

(** [None] is an early return. *)
Fixpoint parts_loop (fs : list rule_field) (buf : chars) (offset : nat) (p : watch_parts) : option (watch_parts * nat) :=
  match fs with
  | [] => Some (p, offset)
  | f :: fs =>
      let field := plain (f_field f) in
      let stop := (offset + Z.to_nat (f_value f))%nat in
      if auditStringField field && (length buf <? stop)%nat then None
      else
        let value := if auditStringField field then take (stop - offset) (drop offset buf) else [] in
        let offset := if auditStringField field then stop else offset in
        if negb (f_op f =? AUDIT_EQUAL) then None
        else if (field =? AUDIT_WATCH) || (field =? AUDIT_DIR) then
          match w_path p with
          | Some _ => None
          | None => parts_loop fs buf offset (mkParts (Some (path_Clean value)) (w_key p) (w_perms p))
          end
        else if field =? AUDIT_PERM then
          match w_perms p with
          | Some _ => None
          | None => parts_loop fs buf offset (mkParts (w_path p) (w_key p) (Some (f_value f)))
          end
        else if field =? AUDIT_FILTERKEY then
          match w_key p with
          | Some _ => None
          | None => parts_loop fs buf offset (mkParts (w_path p) (Some value) (w_perms p))
          end
        else None
  end.

Definition is_some {A} (o : option A) : bool := match o with Some _ => true | None => false end.

(** Path, key, permissions and whether the rule is a watch. *)
Definition fileWatchRuleParts (r : auditRule) : chars * chars * Z * bool :=
  if negb (Action r =? AUDIT_ALWAYS) || negb (filter_list r =? AUDIT_FILTER_EXIT) || (FieldCount r <? 2) || (3 <? FieldCount r)
     || negb (allSyscalls (Mask r)) then ([], [], 0, false)
  else match parts_loop (rule_fields r) (buffer r) 0 (mkParts None None None) with
       | None => ([], [], 0, false)
       | Some (p, offset) =>
           if negb (offset =? length (buffer r))%nat || negb (BufferLength r =? Z.of_nat (length (buffer r))) then ([], [], 0, false)
           else (default [] (w_path p), default [] (w_key p), default 0 (w_perms p),
                 is_some (w_path p) && is_some (w_perms p) && (is_some (w_key p) || (FieldCount r =? 2)))
       end.

Definition watch_path (r : auditRule) : chars := let '(path, _, _, _) := fileWatchRuleParts r in path.
Definition watch_key (r : auditRule) : chars := let '(_, key, _, _) := fileWatchRuleParts r in key.
Definition watch_perms (r : auditRule) : Z := let '(_, _, perms, _) := fileWatchRuleParts r in perms.
Definition watch_ok (r : auditRule) : bool := let '(_, _, _, ok) := fileWatchRuleParts r in ok.

Fixpoint key_loop (fs : list rule_field) (buf : chars) (offset : nat) (key : option chars) : option (option chars * nat) :=
  match fs with
  | [] => Some (key, offset)
  | f :: fs =>
      let field := plain (f_field f) in
      if negb (auditStringField field) then key_loop fs buf offset key
      else
        let stop := (offset + Z.to_nat (f_value f))%nat in
        if (length buf <? stop)%nat then None
        else if field =? AUDIT_FILTERKEY then
          match key with
          | Some _ => None
          | None => key_loop fs buf stop (Some (take (stop - offset) (drop offset buf)))
          end
        else key_loop fs buf stop key
  end.

(** The key and whether there is one. *)
Definition auditRuleFilterKey (r : auditRule) : chars * bool :=
  match key_loop (rule_fields r) (buffer r) 0 None with
  | None => ([], false)
  | Some (key, offset) =>
      if negb (offset =? length (buffer r))%nat || negb (BufferLength r =? Z.of_nat (length (buffer r))) then ([], false)
      else (default [] key, is_some key)
  end.

(** The value of the first field for the architecture, and whether the rule asks for equality. *)
Definition ruleArchitecture (r : auditRule) : Z * bool :=
  match List.find (λ f, plain (f_field f) =? AUDIT_ARCH) (rule_fields r) with
  | Some f => (f_value f, f_op f =? AUDIT_EQUAL)
  | None => (0, false)
  end.

(** A key of a rule is several keys, each ended by the byte 1. *)
Fixpoint key_contains (fuel : nat) (keys wanted : chars) : bool :=
  match fuel, keys with
  | O, _ | _, [] => false
  | S fuel, _ =>
      let '(first, rest) := span (λ c, negb (Ascii.eqb c (char_of 1))) keys in
      bool_decide (first = wanted) ||
      match rest with [] => false | _ :: rest => key_contains fuel rest wanted end
  end.

Definition auditKeyContains (keys wanted : chars) : bool := key_contains (length keys) keys wanted.

(** ** Managed rules *)

Section sort_less.
Context {A : Type} (less : A → A → bool).

Fixpoint insert_less (x : A) (l : list A) : list A :=
  match l with
  | [] => [x]
  | y :: l' => if less y x then y :: insert_less x l' else x :: l
  end.

(** [sort.SliceStable] *)
Fixpoint sort_less (l : list A) : list A :=
  match l with [] => [] | x :: l => insert_less x (sort_less l) end.
End sort_less.

Definition managedRulePriority (r : auditRule) : Z :=
  if hasRuleField r AUDIT_WATCH then 0
  else if hasRuleField r AUDIT_DIR then 1
  else if bool_decide (fst (auditRuleFilterKey r) = executionRuleKey) then 3
  else 2.

Definition count_slashes (l : chars) : nat := length (List.filter (Ascii.eqb slash) l).

Definition rule_less (a b : auditRule) : bool :=
  let left := managedRulePriority a in
  let right := managedRulePriority b in
  if negb (left =? right) then left <? right
  else if left =? 1 then (count_slashes (watch_path b) <? count_slashes (watch_path a))%nat
  else false.

Definition orderedManagedRules (wanted : list auditRule) : list auditRule := sort_less rule_less wanted.

Definition clear_last (mask : list Z) : list Z := <[(length mask - 1)%nat := 0]> mask.

Definition sameManagedRule (left right : auditRule) : bool :=
  let left := set_Flags (filter_list left) left in
  let right := set_Flags (filter_list right) right in
  if isPathRule left && isPathRule right && allSyscalls (Mask left) && allSyscalls (Mask right)
  then bool_decide (set_Mask (clear_last (Mask left)) left = set_Mask (clear_last (Mask right)) right)
  else bool_decide (left = right).

Definition exactManagedRule (r : auditRule) (wanted : list auditRule) : bool := existsb (sameManagedRule r) wanted.

Definition activeExitRule (r : auditRule) : bool :=
  (Action r =? AUDIT_ALWAYS) && (filter_list r =? AUDIT_FILTER_EXIT) && hasAnySyscall (Mask r).

Definition unconditionalExecutionRule (r : auditRule) (arch : Z) : bool :=
  (Action r =? AUDIT_ALWAYS) && (filter_list r =? AUDIT_FILTER_EXIT) &&
  forallb (λ f, if f_field f =? AUDIT_ARCH then (f_op f =? AUDIT_EQUAL) && (f_value f =? arch) else f_field f =? AUDIT_FILTERKEY) (rule_fields r).

Definition mayMatchArchitecture (r : auditRule) (arch : Z) : bool :=
  forallb (λ f, negb (f_field f =? AUDIT_ARCH) ||
    negb ((f_op f =? AUDIT_EQUAL) && negb (f_value f =? arch)) && negb ((f_op f =? AUDIT_NOT_EQUAL) && (f_value f =? arch))) (rule_fields r).

(** Words of masks. *)
Definition mask_word (m : list Z) (i : nat) : Z := default 0 (m !! i).
Definition mask_or (a b : list Z) : list Z := zip_with Z.lor a b.
Definition mask_within (a b : list Z) : bool := forallb (λ i, Z.land (mask_word a i) (mask_word b i) =? mask_word a i) (seq 0 (length a)).
Definition mask_meets (a b : list Z) : bool := existsb (λ i, negb (Z.land (mask_word a i) (mask_word b i) =? 0)) (seq 0 (length a)).
Definition no_syscalls : list Z := replicate AUDIT_BITMASK_SIZE 0.

Definition fileWatchCovers (existing desired : auditRule) : bool :=
  watch_ok existing && watch_ok desired && bool_decide (watch_path existing = watch_path desired) &&
  Bool.eqb (hasRuleField existing AUDIT_DIR) (hasRuleField desired AUDIT_DIR) &&
  auditKeyContains (watch_key existing) (watch_key desired) &&
  (Z.land (watch_perms existing) (watch_perms desired) =? watch_perms desired).

Definition fileWatchRulesCover (existing : list auditRule) (desired : auditRule) : bool :=
  watch_ok desired &&
  let covered := fold_left (λ covered r,
    if watch_ok r && bool_decide (watch_path r = watch_path desired) &&
       Bool.eqb (hasRuleField r AUDIT_DIR) (hasRuleField desired AUDIT_DIR) && auditKeyContains (watch_key r) (watch_key desired)
    then Z.lor covered (watch_perms r) else covered) existing 0 in
  Z.land covered (watch_perms desired) =? watch_perms desired.

Definition managedRuleCovered (existing : list auditRule) (desired : auditRule) : bool :=
  if isPathRule desired then fileWatchRulesCover existing desired
  else
    let '(arch, ok) := ruleArchitecture desired in
    let '(desiredKey, ok') := auditRuleFilterKey desired in
    if negb ok then false
    else if negb ok' then false
    else
      let covered := fold_left (λ covered r,
        if negb (unconditionalExecutionRule r arch) then covered
        else if negb (bool_decide (desiredKey = executionRuleKey)) && negb (auditKeyContains (fst (auditRuleFilterKey r)) desiredKey) then covered
        else mask_or covered (Mask r)) existing no_syscalls in
      mask_within (Mask desired) covered.

Definition missingExecution (existing : list auditRule) (desired : auditRule) : bool :=
  negb (mask_within (Mask desired) (fold_left (λ covered r,
    if unconditionalExecutionRule r (first_value desired) then mask_or covered (Mask r) else covered) existing no_syscalls)).

(** ** Rules that hide others *)

Definition overlapsExecution (r : auditRule) (wanted : list auditRule) : bool :=
  existsb (λ desired : auditRule, mayMatchArchitecture r (first_value desired) && mask_meets (Mask r) (Mask desired)) wanted.

Definition execution_records : list Z := [AUDIT_SYSCALL; AUDIT_EXECVE; AUDIT_PROCTITLE; AUDIT_PATH; AUDIT_CWD; AUDIT_EOE].

Definition excludesExecutionRecords (r : auditRule) : bool :=
  forallb (λ f, negb (f_field f =? AUDIT_MSGTYPE) || negb (f_op f =? AUDIT_EQUAL) || bool_decide (f_value f ∈ execution_records)) (rule_fields r).

(** The error of the first element that has one. *)
Fixpoint first_error {A} (f : A → option rule_error) (l : list A) : option rule_error :=
  match l with
  | [] => None
  | x :: l => match f x with Some e => Some e | None => first_error f l end
  end.

Definition checkExecutionSuppressions (existing wanted : list auditRule) : option rule_error :=
  first_error (λ r : auditRule,
    if filter_list r =? AUDIT_FILTER_TASK then if Action r =? AUDIT_NEVER then Some NeverTask else None
    else if filter_list r =? AUDIT_FILTER_EXIT then
      if (Action r =? AUDIT_NEVER) && overlapsExecution r wanted then Some NeverExit else None
    else if filter_list r =? AUDIT_FILTER_EXCLUDE then
      if excludesExecutionRecords r then Some ExcludesExecution else None
    else None) existing.

Definition missingExecutionRules (existing wanted : list auditRule) : result rule_error (list auditRule) :=
  match checkExecutionSuppressions existing wanted with
  | Some e => Err e
  | None => Ok (List.filter (missingExecution existing) wanted)
  end.

Definition security_records : list Z := [AUDIT_AVC; AUDIT_AVC_PATH; AUDIT_SECCOMP].

Definition may_exclude (r : auditRule) (messageType : Z) : bool :=
  forallb (λ f, negb (plain (f_field f) =? AUDIT_MSGTYPE) ||
    negb ((f_op f =? AUDIT_EQUAL) && negb (f_value f =? messageType) || (f_op f =? AUDIT_NOT_EQUAL) && (f_value f =? messageType))) (rule_fields r).

Definition checkSecurityRecordSuppressions (existing : list auditRule) : option rule_error :=
  first_error (λ r : auditRule,
    if negb (filter_list r =? AUDIT_FILTER_EXCLUDE) then None
    else if existsb (may_exclude r) security_records then Some ExcludesSecurity else None) existing.

(** [filepath.Dir] *)
Definition path_Dir (l : chars) : chars := path_Clean (rev (snd (span (λ c, negb (Ascii.eqb c slash)) (rev l)))).

Section filesystems.
(** [unix.Statfs]: the type of the file system, [None] for an error. *)
Context (Statfs : chars → option Z).

Fixpoint nearest_loop (fuel : nat) (path : chars) : option (Z * bool) :=
  match fuel with
  | O => None
  | S fuel =>
      match Statfs path with
      | Some t => Some (u32 t, true)
      | None => let parent := path_Dir path in
                if bool_decide (parent = path) then Some (0, false) else nearest_loop fuel parent
      end
  end.

(** The path is shorter after every turn but the last two. *)
Definition nearestFilesystemType (path : chars) : Z * bool := default (0, false) (nearest_loop (length path + 3) path).

Fixpoint filesystem_loop (fs : list rule_field) (filesystemType : Z) : bool :=
  match fs with
  | [] => true
  | f :: fs =>
      if negb (plain (f_field f) =? AUDIT_FSTYPE) then filesystem_loop fs filesystemType
      else if f_op f =? AUDIT_EQUAL then if negb (f_value f =? filesystemType) then false else filesystem_loop fs filesystemType
      else if f_op f =? AUDIT_NOT_EQUAL then if f_value f =? filesystemType then false else filesystem_loop fs filesystemType
      else true
  end.

Definition filesystemRuleMayMatchPath (r : auditRule) (path : chars) : bool :=
  let '(filesystemType, known) := nearestFilesystemType path in
  if negb known then true else filesystem_loop (rule_fields r) filesystemType.

Definition checkFileWatchSuppressions (existing wanted : list auditRule) : option rule_error :=
  first_error (λ r : auditRule,
    if negb (Action r =? AUDIT_NEVER) then None
    else if filter_list r =? AUDIT_FILTER_EXIT then
      if existsb (λ desired : auditRule, mask_meets (Mask r) (Mask desired)) wanted then Some NeverWatch else None
    else if filter_list r =? AUDIT_FILTER_FS then
      first_error (λ desired : auditRule,
        if watch_ok desired && filesystemRuleMayMatchPath r (watch_path desired) then Some (NeverFilesystem (watch_path desired)) else None) wanted
    else None) existing.

(** ** The rule that gives an event its key *)

(** The kind of rule and its path or key, as the messages name them. *)
Definition managedRuleDescription (r : auditRule) : string * chars :=
  if watch_ok r then (if hasRuleField r AUDIT_DIR then "recursive directory watch" else "file watch", watch_path r)
  else ("syscall rule", fst (auditRuleFilterKey r)).

Definition trim_slash (l : chars) : chars := match rev l with c :: r => if Ascii.eqb c slash then rev r else l | [] => l end.
Definition pathWithin (path directory : chars) : bool := has_prefix (trim_slash directory ++ [slash]) path.

Definition pathRulesOverlap (left right : auditRule) : bool :=
  if negb (watch_ok left) || negb (watch_ok right) then true
  else bool_decide (watch_path left = watch_path right) ||
       hasRuleField left AUDIT_DIR && pathWithin (watch_path right) (watch_path left) ||
       hasRuleField right AUDIT_DIR && pathWithin (watch_path left) (watch_path right).

Definition moreSpecificManagedRule (r desired : auditRule) (wanted : list auditRule) : bool :=
  if negb (isPathRule r) || negb (exactManagedRule r wanted) then false
  else if negb (isPathRule desired) then true
  else if negb (hasRuleField desired AUDIT_DIR) then false
  else watch_ok r && watch_ok desired && pathWithin (watch_path r) (watch_path desired).

Fixpoint only_mask (i : nat) (mask desired : list Z) (matched : bool) : bool :=
  match mask with
  | [] => matched
  | w :: mask => if negb (Z.ldiff w (mask_word desired i) =? 0) then false else only_mask (S i) mask desired (matched || negb (w =? 0))
  end.

Definition onlyManagedExecutionSyscalls (r : auditRule) (wanted : list auditRule) : bool :=
  let '(arch, ok) := ruleArchitecture r in
  if negb ok || negb (unconditionalExecutionRule r arch) then false
  else existsb (λ desired : auditRule, (first_value desired =? arch) && only_mask 0 (Mask r) (Mask desired) false) wanted.

Definition pathRulePermission (r : auditRule) (permission : Z) : auditRule :=
  set_Values (imap (λ i v, if (i <? Z.to_nat (FieldCount r))%nat && (plain (default 0 (Fields r !! i)) =? AUDIT_PERM) then permission else v) (Values r)) r.

Fixpoint path_ordering (existing : list auditRule) (desired : auditRule) (wanted executionWanted : list auditRule) (permission : Z) : option rule_error :=
  match existing with
  | [] => None
  | r :: existing' =>
      let next := path_ordering existing' desired wanted executionWanted permission in
      if negb (activeExitRule r) then next
      else if watch_ok r && (negb (pathRulesOverlap r desired) || (Z.land (watch_perms r) permission =? 0)) then next
      else if moreSpecificManagedRule r desired wanted then next
      else if negb (watch_ok r) && negb (permission =? AUDIT_PERM_EXEC) && onlyManagedExecutionSyscalls r executionWanted then next
      else
        let key := if negb (watch_ok r) then fst (auditRuleFilterKey r) else watch_key r in
        if negb (auditKeyContains key (watch_key desired)) then Some (KeyOrdering (managedRuleDescription desired) (watch_key desired))
        else if watch_ok r && fileWatchCovers r (pathRulePermission desired permission) then None
        else next
  end.

Definition permissions : list Z := [AUDIT_PERM_WRITE; AUDIT_PERM_ATTR; AUDIT_PERM_READ; AUDIT_PERM_EXEC].

Definition checkPathRuleKeyOrdering (existing : list auditRule) (desired : auditRule) (wanted executionWanted : list auditRule) : option rule_error :=
  first_error (λ permission,
    if Z.land (watch_perms desired) permission =? 0 then None
    else path_ordering existing desired wanted executionWanted permission) permissions.

(** The rules that can decide the key of one syscall of [desired]. *)
Fixpoint syscall_ordering (existing : list auditRule) (desired : auditRule) (wanted : list auditRule) (key : chars) (arch : Z) (word : nat) (bit : Z) : option rule_error :=
  match existing with
  | [] => None
  | r :: existing' =>
      let next := syscall_ordering existing' desired wanted key arch word bit in
      if negb (activeExitRule r) || (Z.land (mask_word (Mask r) word) (Z.shiftl 1 bit) =? 0) || negb (mayMatchArchitecture r arch) then next
      else if moreSpecificManagedRule r desired wanted then next
      else if negb (auditKeyContains (fst (auditRuleFilterKey r)) key) then Some (KeyOrdering (managedRuleDescription desired) key)
      else if unconditionalExecutionRule r arch then None
      else next
  end.

Definition bits : list Z := Z.of_nat <$> seq 0 32.

Definition checkManagedRuleKeyOrdering (existing wanted : list auditRule) : option rule_error :=
  let executionWanted := List.filter (λ r, bool_decide (fst (auditRuleFilterKey r) = executionRuleKey) && negb (isPathRule r)) wanted in
  first_error (λ desired : auditRule,
    if negb (managedRuleCovered existing desired) then None
    else if isPathRule desired then checkPathRuleKeyOrdering existing desired wanted executionWanted
    else
      let key := fst (auditRuleFilterKey desired) in
      if bool_decide (key = executionRuleKey) then None
      else
        let arch := fst (ruleArchitecture desired) in
        first_error (λ word, first_error (λ bit,
          if Z.land (mask_word (Mask desired) word) (Z.shiftl 1 bit) =? 0 then None
          else syscall_ordering existing desired wanted key arch word bit) bits) (seq 0 (length (Mask desired)))) wanted.

Definition bad_watch (r : auditRule) : bool :=
  negb (watch_ok r) || bool_decide (watch_path r = []) || bool_decide (watch_key r = []).

Definition missingManagedRules (existing wanted : list auditRule) : result rule_error (list auditRule) :=
  let wanted := orderedManagedRules wanted in
  let watchWanted := List.filter isPathRule wanted in
  let syscallWanted := List.filter (λ r, negb (isPathRule r)) wanted in
  if existsb bad_watch watchWanted then Err MalformedWatch
  else match checkExecutionSuppressions existing syscallWanted with
  | Some e => Err e
  | None => match checkSecurityRecordSuppressions existing with
  | Some e => Err e
  | None => match checkFileWatchSuppressions existing watchWanted with
  | Some e => Err e
  | None => match checkManagedRuleKeyOrdering existing wanted with
  | Some e => Err e
  | None => Ok (List.filter (λ desired, negb (managedRuleCovered existing desired)) wanted)
  end end end end.

Definition isRuleOrderingError (e : rule_error) : bool := match e with KeyOrdering _ _ => true | _ => false end.
End filesystems.
