(* ===== verification/AuditPolicy.v ===== *)
(** * The managed audit policy

    [SauronAgent/internal/audit/rules.go], [security_syscalls.go], [security_paths.go] and
    the queries of [control.go]: the rules the agent wants, the paths it discovers, and
    how it brings the rules of the kernel in line with them.

    The file system is a parameter.  [ctx.Err] is a list of answers, one for every time
    the context is asked; when it runs out the context is not done.  The two numbers of
    the native [execve] and [execveat] are arguments, as they are in the source.  What
    [EnsureManagedRulesWithLogger] logs is left out. *)

From Stdlib Require Import Strings.Ascii.
From S2P Require Import Prelude GoStrings GoText GoMisc Netlink AuditControl AuditRules.

Definition AUDIT_ARCH_X86_64 : Z := 0xc000003e.
Definition AUDIT_ARCH_I386 : Z := 0x40000003.
Definition AUDIT_ARCH_AARCH64 : Z := 0xc00000b7.
Definition AUDIT_ARCH_ARM : Z := 0x40000028.
Definition AUDIT_ARCH_RISCV64 : Z := 0xc00000f3.
Definition AUDIT_ARCH_PPC64 : Z := 0x80000015.
Definition AUDIT_ARCH_PPC64LE : Z := 0xc0000015.
Definition AUDIT_ARCH_S390X : Z := 0x80000016.
Definition AUDIT_ARCH_LOONGARCH64 : Z := 0xc0000102.
Definition AUDIT_SET : Z := 1001.
Definition AUDIT_ADD_RULE : Z := 1011.
Definition AUDIT_DEL_RULE : Z := 1012.
Definition AUDIT_STATUS_ENABLED : Z := 1.
Definition ENOENT : Z := 2.
Definition EEXIST : Z := 17.

(** ** Rules of the policy *)

Definition set_bit (mask : list Z) (number : Z) : list Z :=
  alter (λ w, Z.lor w (Z.shiftl 1 (number mod 32))) (Z.to_nat (number / 32)) mask.

(** An array whose first elements are given. *)
Definition array_of (n : nat) (l : list Z) : list Z := l ++ replicate (n - length l) 0.

Definition syscall_rule (arch : Z) (key : chars) (mask : list Z) : auditRule :=
  let n := Z.of_nat (length key) in
  mkAuditRule (mkKernelRule AUDIT_FILTER_EXIT AUDIT_ALWAYS 2 mask
    (array_of AUDIT_MAX_FIELDS [AUDIT_ARCH; AUDIT_FILTERKEY]) (array_of AUDIT_MAX_FIELDS [arch; n])
    (array_of AUDIT_MAX_FIELDS [AUDIT_EQUAL; AUDIT_EQUAL]) n) key.

Definition executionRule (arch execve execveat : Z) : auditRule :=
  syscall_rule arch executionRuleKey (set_bit (set_bit no_syscalls execve) execveat).

Definition execution_arch (goarch : string) : option Z :=
  match goarch with
  | "amd64" => Some AUDIT_ARCH_X86_64 | "386" => Some AUDIT_ARCH_I386
  | "arm64" => Some AUDIT_ARCH_AARCH64 | "arm" => Some AUDIT_ARCH_ARM
  | "riscv64" => Some AUDIT_ARCH_RISCV64 | "ppc64" => Some AUDIT_ARCH_PPC64
  | "ppc64le" => Some AUDIT_ARCH_PPC64LE | "s390x" => Some AUDIT_ARCH_S390X
  | "loong64" => Some AUDIT_ARCH_LOONGARCH64 | _ => None
  end%string.

Definition mask_bits : Z := Z.of_nat AUDIT_BITMASK_SIZE * 32.

Definition executionRules (goarch : string) (execve execveat : Z) : result rule_error (list auditRule) :=
  match execution_arch goarch with
  | None => Err (BadArchitecture goarch)
  | Some arch =>
      if (mask_bits <=? execve) || (mask_bits <=? execveat) then Err ExecutionTooHigh
      else Ok (executionRule arch execve execveat :: (if (goarch =? "amd64")%string then [executionRule AUDIT_ARCH_I386 11 358] else []))
  end.

Definition fileWatchRule (path key : chars) : auditRule :=
  let n := Z.of_nat (length path) in
  let k := Z.of_nat (length key) in
  mkAuditRule (mkKernelRule (Z.lor AUDIT_FILTER_EXIT AUDIT_FILTER_PREPEND) AUDIT_ALWAYS 3 (replicate AUDIT_BITMASK_SIZE all_ones)
    (array_of AUDIT_MAX_FIELDS [AUDIT_WATCH; AUDIT_PERM; AUDIT_FILTERKEY])
    (array_of AUDIT_MAX_FIELDS [n; Z.lor AUDIT_PERM_WRITE AUDIT_PERM_ATTR; k])
    (array_of AUDIT_MAX_FIELDS [AUDIT_EQUAL; AUDIT_EQUAL; AUDIT_EQUAL]) (n + k)) (path ++ key).

Definition identityRuleKey : string := "sauron_identity".
Definition credentialRuleKey : string := "sauron_credentials".

Definition identityCredentialWatchRules : list auditRule :=
  (λ '(path, key), fileWatchRule (to_chars path) (to_chars key)) <$>
  [("/etc/passwd", identityRuleKey); ("/etc/shadow", credentialRuleKey); ("/etc/group", identityRuleKey);
   ("/etc/gshadow", credentialRuleKey); ("/etc/security/opasswd", credentialRuleKey)]%string.

Definition pathWatchRule (path key : chars) (permissions : Z) (directory : bool) : auditRule :=
  let r := fileWatchRule path key in
  let r := set_Values (<[1%nat := permissions]> (Values r)) r in
  if directory then set_Fields (<[0%nat := AUDIT_DIR]> (Fields r)) r else r.

Fixpoint syscall_mask (mask : list Z) (syscalls : list Z) : result rule_error (list Z) :=
  match syscalls with
  | [] => Ok mask
  | n :: l => if mask_bits - AUDIT_SYSCALL_CLASSES <=? n then Err (SyscallTooHigh n) else syscall_mask (set_bit mask n) l
  end.

Definition keyedSyscallRule (arch : Z) (key : string) (syscalls : list Z) : result rule_error auditRule :=
  if bool_decide (key = EmptyString) || (AUDIT_MAX_KEY_LEN <? len key) || contains (char_of 0) key then Err BadKey
  else if (length syscalls =? 0)%nat then Err NoSyscalls
  else let? mask := syscall_mask no_syscalls syscalls in Ok (syscall_rule arch (to_chars key) mask).

Record securitySyscallTable : Type := mkTable {
  t_arch : Z; permission : list Z; ownership : list Z; attribute : list Z; privilege : list Z; module : list Z;
  replacement : list Z; network : list Z; t_time : list Z; mount : list Z }.

Definition table_amd64 : securitySyscallTable := mkTable AUDIT_ARCH_X86_64
  [90; 91; 268; 452] [92; 93; 94; 260] [188; 189; 190; 197; 198; 199; 463; 466] [105; 113; 117; 106; 114; 119; 126]
  [175; 313; 176] [246; 320] [170; 171] [159; 164; 227; 305] [165; 166; 442].

Definition table_386 (arm : bool) : securitySyscallTable :=
  let attribute := [226; 227; 228; 235; 236; 237; 463; 466] in
  let privilege := [23; 70; 164; 46; 71; 170; 185; 213; 203; 208; 214; 204; 210] in
  if arm then mkTable AUDIT_ARCH_ARM [15; 94; 333; 452] [182; 95; 16; 325; 212; 207; 198] attribute privilege
    [128; 379; 129] [347; 401] [74; 121] [124; 79; 262; 372; 404; 405] [21; 52; 442]
  else mkTable AUDIT_ARCH_I386 [15; 94; 306; 452] [182; 95; 16; 298; 212; 207; 198] attribute privilege
    [128; 350; 129] [283] [74; 121] [124; 79; 264; 343; 404; 405] [21; 52; 442].

Definition table_generic (arch : Z) : securitySyscallTable := mkTable arch
  [52; 53; 452] [55; 54] [5; 6; 7; 14; 15; 16; 463; 466] [146; 145; 147; 144; 143; 149; 91]
  [105; 273; 106] [104; 294] [161; 162] [171; 170; 112; 266] [40; 39; 442].

Definition table_ppc64 (arch : Z) : securitySyscallTable := mkTable arch
  [15; 94; 297; 452] [181; 95; 16; 289] [209; 210; 211; 218; 219; 220; 463; 466] [23; 70; 164; 46; 71; 169; 184]
  [128; 353; 129] [268; 382] [74; 121] [124; 79; 245; 347] [21; 52; 442].

Definition table_s390x : securitySyscallTable := mkTable AUDIT_ARCH_S390X
  [15; 94; 299; 452] [212; 207; 198; 291] [224; 225; 226; 233; 234; 235; 463; 466] [213; 203; 208; 214; 204; 210; 185]
  [128; 344; 129] [277; 381] [74; 121] [124; 79; 259; 337] [21; 52; 442].

Definition securitySyscallsForArchitecture (goarch : string) : result rule_error securitySyscallTable :=
  match goarch with
  | "amd64" => Ok table_amd64
  | "386" => Ok (table_386 false) | "arm" => Ok (table_386 true)
  | "arm64" => Ok (table_generic AUDIT_ARCH_AARCH64) | "riscv64" => Ok (table_generic AUDIT_ARCH_RISCV64)
  | "loong64" => Ok (table_generic AUDIT_ARCH_LOONGARCH64)
  | "ppc64" => Ok (table_ppc64 AUDIT_ARCH_PPC64) | "ppc64le" => Ok (table_ppc64 AUDIT_ARCH_PPC64LE)
  | "s390x" => Ok table_s390x
  | _ => Err (BadArchitecture goarch)
  end%string.

Definition groups (t : securitySyscallTable) : list (string * list Z) :=
  [ ("permission_change", permission t); ("ownership_change", ownership t); ("attribute_change", attribute t);
    ("privilege_change", privilege t); ("kernel_module", module t); ("kernel_replacement", replacement t);
    ("network_config", network t); ("time_change", t_time t); ("filesystem_mount", mount t) ]%string.

Fixpoint keyed_rules (l : list (Z * (string * list Z))) : result rule_error (list auditRule) :=
  match l with
  | [] => Ok []
  | (arch, (key, syscalls)) :: l => let? r := keyedSyscallRule arch key syscalls in let? rs := keyed_rules l in Ok (r :: rs)
  end.

Definition securitySyscallRules (goarch : string) : result rule_error (list auditRule) :=
  let? native := securitySyscallsForArchitecture goarch in
  let? tables := (if (goarch =? "amd64")%string then let? compat := securitySyscallsForArchitecture "386" in Ok [native; compat] else Ok [native]) in
  keyed_rules (tables ≫= λ t, pair (t_arch t) <$> groups t).

Definition managedRules (goarch : string) (execve execveat : Z) : result rule_error (list auditRule) :=
  let? rules := executionRules goarch execve execveat in
  let? syscalls := securitySyscallRules goarch in
  Ok (rules ++ syscalls ++ identityCredentialWatchRules).

(** ** Paths *)

Record securityPathSpec : Type := mkSpec { s_path : chars; s_key : string; s_permissions : Z; s_directory : bool }.

#[global] Instance securityPathSpec_eq_dec : EqDecision securityPathSpec.
Proof. solve_decision. Defined.

Definition wa : Z := Z.lor AUDIT_PERM_WRITE AUDIT_PERM_ATTR.
Definition a_file (path key : string) : securityPathSpec := mkSpec (to_chars path) key wa false.
Definition a_tree (path key : string) : securityPathSpec := mkSpec (to_chars path) key wa true.
Definition a_program (path key : string) : securityPathSpec := mkSpec (to_chars path) key AUDIT_PERM_EXEC false.

Definition securityPathSpecs : list securityPathSpec :=
  [ a_file "/etc/sudoers" "privilege_config"; a_tree "/etc/sudoers.d" "privilege_config";
    a_tree "/etc/pam.d" "authentication_config"; a_tree "/etc/security" "authentication_config";
    a_file "/etc/ssh/sshd_config" "ssh_config"; a_tree "/etc/ssh/sshd_config.d" "ssh_config";
    a_tree "/etc/polkit-1" "privilege_config";
    a_program "/usr/bin/sudo" "privilege_use"; a_program "/usr/bin/su" "privilege_use";
    a_program "/usr/bin/pkexec" "privilege_use"; a_program "/usr/bin/systemd-run" "privilege_use";
    a_tree "/etc/systemd/system" "persistence"; a_tree "/usr/lib/systemd/system" "persistence";
    a_tree "/etc/cron.d" "persistence"; a_tree "/var/spool/cron" "persistence";
    a_file "/etc/crontab" "persistence"; a_file "/etc/rc.local" "persistence"; a_file "/etc/ld.so.preload" "persistence";
    a_tree "/etc/profile.d" "persistence"; a_tree "/etc/modprobe.d" "kernel_config";
    a_tree "/etc/modules-load.d" "kernel_config"; a_tree "/etc/default" "boot_config"; a_tree "/etc/grub.d" "boot_config";
    a_tree "/etc/selinux" "mac_policy"; a_tree "/etc/apparmor.d" "mac_policy";
    a_tree "/etc/crypto-policies" "crypto_policy"; a_tree "/etc/firewalld" "firewall"; a_file "/etc/nftables.conf" "firewall";
    a_tree "/etc/sysctl.d" "kernel_config"; a_file "/etc/sysctl.conf" "kernel_config";
    a_file "/etc/hosts" "network_config"; a_file "/etc/resolv.conf" "network_config";
    a_tree "/etc/NetworkManager" "network_config"; a_tree "/etc/systemd/network" "network_config";
    a_file "/etc/localtime" "time_change"; a_file "/etc/chrony.conf" "time_config"; a_tree "/etc/chrony.d" "time_config";
    a_file "/etc/fstab" "filesystem_config" ].

(** What [stat] tells of a file, and the errors that are told apart. *)
Inductive file_kind : Type := Directory | Regular | OtherFile.
Inductive fs_error : Type := NotExist | OtherError (e : string).

(** The contents of a file, or what went wrong while reading it. *)
Record policyDiscoveryFiles : Type := mkFiles {
  stat : chars → result fs_error file_kind;
  open_file : chars → result fs_error (result fs_error chars);
  resolve : chars → result fs_error chars
}.

Inductive discover_error : Type :=
| DCancelled | DPath (path : chars) (e : fs_error) | DParentNotDirectory (path : chars) | DWrongType (path : chars) (directory : bool)
| DInvalidTarget (path : chars) | DTooManyDirectories | DOpen (e : fs_error) | DRead (e : fs_error) | DTooLarge
| DMalformed (line : Z) | DBadHome (line : Z) | DTooManyHomes | DScan.

(** [seen] is the map of the caller. *)
Record pathRuleDiscovery : Type := mkDiscovery {
  d_rules : list auditRule; skippedPaths : list chars; pendingFiles : list chars;
  sshDirectories : Z; missingSSHDirectories : Z; seen : list securityPathSpec }.

Definition appendPath (r : pathRuleDiscovery) (spec : securityPathSpec) : pathRuleDiscovery :=
  if bool_decide (spec ∈ seen r) then r
  else mkDiscovery (d_rules r ++ [pathWatchRule (s_path spec) (to_chars (s_key spec)) (s_permissions spec) (s_directory spec)])
         (skippedPaths r) (pendingFiles r) (sshDirectories r) (missingSSHDirectories r) (seen r ++ [spec]).
Definition add_skipped (p : chars) (r : pathRuleDiscovery) : pathRuleDiscovery :=
  mkDiscovery (d_rules r) (skippedPaths r ++ [p]) (pendingFiles r) (sshDirectories r) (missingSSHDirectories r) (seen r).
Definition add_pending (p : chars) (r : pathRuleDiscovery) : pathRuleDiscovery :=
  mkDiscovery (d_rules r) (skippedPaths r) (pendingFiles r ++ [p]) (sshDirectories r) (missingSSHDirectories r) (seen r).
Definition count_ssh (present : bool) (r : pathRuleDiscovery) : pathRuleDiscovery :=
  mkDiscovery (d_rules r) (skippedPaths r) (pendingFiles r) (if present then sshDirectories r + 1 else sshDirectories r)
    (if present then missingSSHDirectories r else missingSSHDirectories r + 1) (seen r).

Definition IsAbs (l : chars) : bool := match l with c :: _ => Ascii.eqb c slash | [] => false end.
Definition has_nul (l : chars) : bool := existsb (Ascii.eqb (char_of 0)) l.

Definition ssh_key_name : string := "ssh_keys".

Section discovery.
Context (files : policyDiscoveryFiles).

Definition addPath (r : pathRuleDiscovery) (spec : securityPathSpec) : result discover_error (pathRuleDiscovery * bool) :=
  match stat files (s_path spec) with
  | Err NotExist =>
      let skip := Ok (if negb (s_key spec =? ssh_key_name)%string then add_skipped (s_path spec) r else r, false) in
      if negb (s_directory spec) then
        match stat files (path_Dir (s_path spec)) with
        | Ok Directory => Ok (add_pending (s_path spec) (appendPath r spec), true)
        | Err NotExist => skip
        | Err e => Err (DPath (s_path spec) e)
        | Ok _ => Err (DParentNotDirectory (s_path spec))
        end
      else skip
  | Err e => Err (DPath (s_path spec) e)
  | Ok kind =>
      let isDir := match kind with Directory => true | _ => false end in
      let isRegular := match kind with Regular => true | _ => false end in
      if negb (Bool.eqb isDir (s_directory spec)) || negb (s_directory spec) && negb isRegular then Err (DWrongType (s_path spec) (s_directory spec))
      else match resolve files (s_path spec) with
           | Err e => Err (DPath (s_path spec) e)
           | Ok resolved =>
               let resolved := path_Clean resolved in
               if negb (IsAbs resolved) || bool_decide (resolved = [slash]) || has_nul resolved then Err (DInvalidTarget (s_path spec))
               else
                 let r := if negb (s_directory spec) then appendPath r spec else r in
                 Ok (appendPath r (mkSpec resolved (s_key spec) (s_permissions spec) (s_directory spec)), true)
           end
  end.

(** [ctx.Err() != nil], and the answers left. *)
Definition ctx_done (ctx : list bool) : bool * list bool := match ctx with [] => (false, []) | b :: ctx => (b, ctx) end.

Definition maxPasswdBytes : Z := 4 * 2 ^ 20.
Definition maxSSHDirectories : Z := 4096.

(** [bufio.ScanLines]: the lines without their ends; a line that does not fit the buffer
    of the scanner ends the scan with an error. *)
Definition maxScanTokenSize : Z := 65536.
Definition drop_cr (l : chars) : chars := match rev l with c :: r => if Ascii.eqb c (char_of 13) then rev r else l | [] => l end.
Definition scan_lines (data : chars) : list chars :=
  let l := split_on (char_of 10) data in
  match rev l with [] :: r => rev r | _ => l end.

Definition add_home (h : chars) (homes : list chars) : list chars := if bool_decide (h ∈ homes) then homes else homes ++ [h].

Fixpoint homes_loop (lines : list chars) (ctx : list bool) (line : Z) (homes : list chars) : result discover_error (list chars * list bool) :=
  match lines with
  | [] => Ok (homes, ctx)
  | raw :: lines =>
      if maxScanTokenSize <=? Z.of_nat (length raw) then Err DScan
      else
        let line := line + 1 in
        let '(done, ctx) := ctx_done ctx in
        if done then Err DCancelled
        else
          let entry := drop_cr raw in
          if match entry with [] => true | c :: _ => Ascii.eqb c "#" end then homes_loop lines ctx line homes
          else
            let fields := split_on ":" entry in
            if negb (length fields =? 7)%nat then Err (DMalformed line)
            else
              let home := default [] (fields !! 5%nat) in
              if bool_decide (home = []) then homes_loop lines ctx line homes
              else if negb (IsAbs home) || has_nul home then Err (DBadHome line)
              else
                let homes := add_home (path_Clean home) homes in
                if maxSSHDirectories <? Z.of_nat (length homes) then Err DTooManyHomes
                else homes_loop lines ctx line homes
  end.

(** The order of [slices.Sort] on strings. *)
Fixpoint chars_less (a b : chars) : bool :=
  match a, b with
  | _, [] => false
  | [], _ :: _ => true
  | x :: a, y :: b => (code x <? code y) || ((code x =? code y) && chars_less a b)
  end.

Definition localAccountHomes (ctx : list bool) : result discover_error (list chars * list bool) :=
  let '(done, ctx) := ctx_done ctx in
  if done then Err DCancelled
  else match open_file files (to_chars "/etc/passwd") with
       | Err e => Err (DOpen e)
       | Ok (Err e) => Err (DRead e)
       | Ok (Ok data) =>
           if maxPasswdBytes <? Z.of_nat (length data) then Err DTooLarge
           else let? (homes, ctx) := homes_loop (scan_lines data) ctx 0 [to_chars "/root"] in
                Ok (sort_less chars_less homes, ctx)
       end.

Fixpoint add_specs (specs : list securityPathSpec) (ctx : list bool) (r : pathRuleDiscovery) : result discover_error (pathRuleDiscovery * list bool) :=
  match specs with
  | [] => Ok (r, ctx)
  | spec :: specs =>
      let '(done, ctx) := ctx_done ctx in
      if done then Err DCancelled
      else let? (r, _) := addPath r spec in add_specs specs ctx r
  end.

Definition ssh_spec (home : chars) : securityPathSpec := mkSpec (path_Join home (to_chars ".ssh")) ssh_key_name wa true.

Fixpoint add_homes (homes : list chars) (ctx : list bool) (r : pathRuleDiscovery) : result discover_error pathRuleDiscovery :=
  match homes with
  | [] => Ok r
  | home :: homes =>
      let '(done, ctx) := ctx_done ctx in
      if done then Err DCancelled
      else if maxSSHDirectories <=? sshDirectories r then Err DTooManyDirectories
      else let? (r, present) := addPath r (ssh_spec home) in add_homes homes ctx (count_ssh present r)
  end.

Definition discoverSecurityPathRules (ctx : list bool) : result discover_error pathRuleDiscovery :=
  let? (r, ctx) := add_specs securityPathSpecs ctx (mkDiscovery [] [] [] 0 0 []) in
  let? (homes, ctx) := localAccountHomes ctx in
  add_homes homes ctx r.
End discovery.

(** ** The rules of the kernel *)

Inductive policy_error : Type :=
| Control (operation : string) (rule : option (string * chars)) (e : ctl_error)
| BadStatus | BadEnabled (n : Z) | Immutable | StillDisabled | StillMissing | Rule (e : rule_error)
| Cancelled | Discovery (e : discover_error).

Definition lift {A} (r : result rule_error A) : result policy_error A := match r with Ok a => Ok a | Err e => Err (Rule e) end.

(** The client and a result. *)
Definition outcome (A : Type) : Type := auditControlClient * result policy_error A.

Definition andThen {A B} (o : outcome A) (k : auditControlClient → A → outcome B) : outcome B :=
  match o with (c, Ok a) => k c a | (c, Err e) => (c, Err e) end.
Notation "'do!' ( c , x ) := o 'in' k" := (andThen o (λ c x, k)) (at level 200, c name, x pattern, o at level 100, k at level 200).

Section kernel.
Context (big : bool) (Statfs : chars → option Z).

Definition control {A} (operation : string) (rule : option (string * chars)) (o : auditControlClient * result ctl_error A) : outcome A :=
  match o with (c, Ok a) => (c, Ok a) | (c, Err e) => (c, Err (Control operation rule e)) end.

Definition enabled (c : auditControlClient) : outcome Z :=
  do! (c, replies) := control "reading kernel audit status" None (exchange big c AUDIT_GET []) in
  match replies with
  | [reply] =>
      if (length reply <? 40)%nat then (c, Err BadStatus)
      else let n := native_get big (take 4 (drop 4 reply)) in
           if 2 <? n then (c, Err (BadEnabled n)) else (c, Ok n)
  | _ => (c, Err BadStatus)
  end.

Fixpoint parse_rules (l : list (list byte)) : result rule_error (list auditRule) :=
  match l with
  | [] => Ok []
  | p :: l => let? r := parseKernelRule big p in let? rs := parse_rules l in Ok (r :: rs)
  end.

Definition rules (c : auditControlClient) : outcome (list auditRule) :=
  do! (c, replies) := control "listing kernel audit rules" None (exchange big c AUDIT_LIST_RULES []) in
  (c, lift (parse_rules replies)).

Definition verifyManagedRules (c : auditControlClient) (wanted : list auditRule) : outcome () :=
  do! (c, on) := enabled c in
  if on =? 0 then (c, Err StillDisabled)
  else
    do! (c, rs) := rules c in
    match missingManagedRules Statfs rs wanted with
    | Err e => (c, Err (Rule e))
    | Ok [] => (c, Ok tt)
    | Ok _ => (c, Err StillMissing)
    end.

Definition is_errno (e : ctl_error) (n : Z) : bool := match e with CtlErrno m => m =? n | _ => false end.

Fixpoint delete_replaced (c : auditControlClient) (replacements : list auditRule) (rule : auditRule) : outcome () :=
  match replacements with
  | [] => (c, Ok tt)
  | existing :: l =>
      if negb (sameManagedRule existing rule) then delete_replaced c l rule
      else match marshalKernelRule big existing with
           | Err e => (c, Err (Rule e))
           | Ok payload =>
               match exchange big c AUDIT_DEL_RULE payload with
               | (c, Err e) => if is_errno e ENOENT then delete_replaced c l rule
                               else (c, Err (Control "reordering" (Some (managedRuleDescription rule)) e))
               | (c, Ok _) => delete_replaced c l rule
               end
           end
  end.

Definition prepended (rule : auditRule) : auditRule := set_Flags (Z.lor (Flags rule) AUDIT_FILTER_PREPEND) rule.

Definition install (c : auditControlClient) (replacements : list auditRule) (rule : auditRule) : outcome () :=
  do! (c, _) := delete_replaced c replacements rule in
  let rule := prepended rule in
  match marshalKernelRule big rule with
  | Err e => (c, Err (Rule e))
  | Ok payload =>
      match exchange big c AUDIT_ADD_RULE payload with
      | (c, Err e) => if is_errno e EEXIST then (c, Ok tt) else (c, Err (Control "installing" (Some (managedRuleDescription rule)) e))
      | (c, Ok _) => (c, Ok tt)
      end
  end.

Fixpoint install_all (c : auditControlClient) (replacements todo : list auditRule) : outcome () :=
  match todo with
  | [] => (c, Ok tt)
  | rule :: todo => do! (c, _) := install c replacements rule in install_all c replacements todo
  end.

Definition enable_status : list byte := native_put big 4 AUDIT_STATUS_ENABLED ++ native_put big 4 1 ++ replicate 32 x00.

(** The first rules of [wanted] up to the last one of [missing]. *)
Definition up_to_last (wanted missing : list auditRule) : list auditRule :=
  match last missing with
  | None => []
  | Some r => match list_find (λ x, x = r) wanted with Some (i, _) => take (S i) wanted | None => [] end
  end.

(** The exact managed rules among the rules are installed anew. *)
Definition rebuild (rs wanted : list auditRule) : result policy_error (list auditRule * list auditRule) :=
  let remaining := List.filter (λ r, negb (exactManagedRule r wanted)) rs in
  let replacements := List.filter (λ r, exactManagedRule r wanted) rs in
  match missingManagedRules Statfs remaining wanted with
  | Err e => if negb (isRuleOrderingError e) then Err (Rule e) else Ok (up_to_last wanted wanted, replacements)
  | Ok missing => Ok (up_to_last wanted missing, replacements)
  end.

(** What is to be installed, in the order of [wanted], and the rules that are moved. *)
Definition plan (on : Z) (rs wanted : list auditRule) : result policy_error (list auditRule * list auditRule) :=
  match missingManagedRules Statfs rs wanted with
  | Err e => if negb (isRuleOrderingError e) then Err (Rule e) else if on =? 2 then Err Immutable else rebuild rs wanted
  | Ok [] => Ok ([], [])
  | Ok _ => if on =? 2 then Err Immutable else rebuild rs wanted
  end.

Definition ensureManagedRules (c : auditControlClient) (wanted : list auditRule) : outcome () :=
  let wanted := orderedManagedRules wanted in
  do! (c, on) := enabled c in
  do! (c, rs) := rules c in
  do! (c, p) := (c, plan on rs wanted) in
  let '(missing, replacements) := p in
  do! (c, _) := install_all c replacements (rev missing) in
  do! (c, _) := (if on =? 0 then control "enabling kernel auditing" None (exchange big c AUDIT_SET enable_status) else (c, Ok [])) in
  verifyManagedRules c wanted.

(** [socket] is what opening the control socket gives. *)
Definition EnsureManagedRulesWithLogger (goarch : string) (execve execveat : Z) (files : policyDiscoveryFiles) (ctx : list bool)
    (socket : result ctl_error auditControlClient) : option auditControlClient * result policy_error () :=
  let '(done, ctx) := ctx_done ctx in
  if done then (None, Err Cancelled)
  else match managedRules goarch execve execveat with
       | Err e => (None, Err (Rule e))
       | Ok wanted =>
           match discoverSecurityPathRules files ctx with
           | Err e => (None, Err (Discovery e))
           | Ok paths =>
               match socket with
               | Err e => (None, Err (Control "opening rule-control socket" None e))
               | Ok c => let '(c, r) := ensureManagedRules c (wanted ++ d_rules paths) in (Some c, r)
               end
           end
       end.
End kernel.
