(* ===== verification/AuditRulesProofs.v ===== *)
(** * What the checks of the audit rules guarantee

    [AuditRules] decides from a dump of the kernel's rules whether the managed rules are
    in force.  Here the decision is compared with what the kernel does with an event: the
    first rule of the exit list that matches decides whether the event is recorded and
    with which key.  What the kernel matches is the class [KernelFilter]: its laws are the
    documented behaviour that the checks rely on. *)

From Stdlib Require Import Strings.Ascii.
From S2P Require Import Prelude GoStrings GoText GoMisc Netlink AuditRules.

(** ** Helpers *)

Lemma first_error_None {A} (f : A → option rule_error) l : first_error f l = None ↔ ∀ x, x ∈ l → f x = None.
Proof.
  induction l as [|a l IH]; simpl; [set_solver|]. destruct (f a) eqn:E; [set_solver|]. rewrite IH. set_solver.
Qed.

Lemma existsb_elem {A} (f : A → bool) l : existsb f l = false ↔ ∀ x, x ∈ l → f x = false.
Proof.
  split; [|intros H; apply not_true_iff_false; rewrite existsb_exists; intros (x & Hx & Hf); rewrite H in Hf; [done|by apply list_elem_of_In]].
  intros H x Hx. destruct (f x) eqn:E; [|done]. rewrite <- H. symmetry. apply existsb_exists. exists x. split; [by apply list_elem_of_In|done].
Qed.

Lemma forallb_elem {A} (f : A → bool) l : forallb f l = true ↔ ∀ x, x ∈ l → f x = true.
Proof. rewrite forallb_forall. split; intros H x Hx; apply H; by apply list_elem_of_In. Qed.

Lemma elem_filter {A} (f : A → bool) l x : x ∈ List.filter f l ↔ x ∈ l ∧ f x = true.
Proof. rewrite !list_elem_of_In. apply filter_In. Qed.

Lemma insert_less_perm {A} (less : A → A → bool) x l : insert_less less x l ≡ₚ x :: l.
Proof. induction l as [|y l IH]; simpl; [done|]. destruct (less y x); [|done]. rewrite IH. apply Permutation_swap. Qed.

Lemma sort_less_perm {A} (less : A → A → bool) l : sort_less less l ≡ₚ l.
Proof. induction l as [|x l IH]; simpl; [done|]. by rewrite insert_less_perm, IH. Qed.

Lemma elem_ordered r wanted : r ∈ orderedManagedRules wanted ↔ r ∈ wanted.
Proof. unfold orderedManagedRules. by rewrite sort_less_perm. Qed.

(** ** Masks *)

(** Whether a mask selects a syscall. *)
Definition selects (m : list Z) (n : Z) : bool := Z.testbit (mask_word m (Z.to_nat (n / 32))) (n mod 32).

Lemma bit_land w k : 0 <= k → (Z.land w (Z.shiftl 1 k) =? 0) = negb (Z.testbit w k).
Proof.
  intros Hk. rewrite Z.shiftl_1_l. destruct (Z.testbit w k) eqn:E; simpl.
  - apply Z.eqb_neq. intros H. assert (Z.testbit (Z.land w (2 ^ k)) k = true) as H' by (rewrite Z.land_spec, E, Z.pow2_bits_true; lia).
    rewrite H, Z.bits_0 in H'. done.
  - apply Z.eqb_eq. apply Z.bits_inj'. intros i Hi. rewrite Z.land_spec, Z.bits_0, Z.pow2_bits_eqb by lia.
    destruct (Z.eqb_spec k i) as [->|]; [by rewrite E|apply andb_false_r].
Qed.

Lemma land_shared a b k : Z.testbit a k = true → Z.testbit b k = true → (Z.land a b =? 0) = false.
Proof.
  intros Ha Hb. apply Z.eqb_neq. intros H. assert (Z.testbit (Z.land a b) k = true) as H' by by rewrite Z.land_spec, Ha, Hb.
  by rewrite H, Z.bits_0 in H'.
Qed.

Lemma land_sub a b k : (Z.land b a =? a) = true → Z.testbit a k = true → Z.testbit b k = true.
Proof. intros H%Z.eqb_eq Hk. rewrite <- H, Z.land_spec in Hk. by apply andb_true_iff in Hk as [? _]. Qed.

Lemma mask_word_in m i k : Z.testbit (mask_word m i) k = true → (i < length m)%nat.
Proof. unfold mask_word. destruct (m !! i) eqn:E; simpl; [intros _; by eapply lookup_lt_Some|by rewrite Z.bits_0]. Qed.

Lemma selects_meets a b n : selects a n = true → selects b n = true → mask_meets a b = true.
Proof.
  intros Ha Hb. unfold mask_meets. apply existsb_exists. exists (Z.to_nat (n / 32)). pose proof (mask_word_in _ _ _ Ha).
  rewrite in_seq. split; [lia|]. unfold selects in Ha, Hb. by rewrite (land_shared _ _ _ Ha Hb).
Qed.

Lemma selects_or a b n : selects (mask_or a b) n = true → selects a n = true ∨ selects b n = true.
Proof.
  unfold selects, mask_word, mask_or. rewrite lookup_zip_with. destruct (a !! _); simpl; [|by rewrite Z.bits_0].
  destruct (b !! _); simpl; [|by rewrite Z.bits_0]. by rewrite Z.lor_spec, orb_true_iff.
Qed.

Lemma selects_none n : selects no_syscalls n = false.
Proof. unfold selects, mask_word, no_syscalls. destruct (_ !! _) eqn:E; simpl; [|apply Z.bits_0]. apply lookup_replicate in E as [-> _]. apply Z.bits_0. Qed.

Lemma within_selects a b n : mask_within a b = true → selects a n = true → selects b n = true.
Proof.
  unfold mask_within, selects. rewrite forallb_forall. intros H Hn. pose proof (mask_word_in _ _ _ Hn) as Hi.
  specialize (H (Z.to_nat (n / 32))). rewrite in_seq in H. rewrite Z.land_comm in H. eapply land_sub; [apply H; lia|done].
Qed.

Lemma selects_any m n : selects m n = true → hasAnySyscall m = true.
Proof.
  unfold selects, mask_word, hasAnySyscall. destruct (m !! _) eqn:E; simpl; [|by rewrite Z.bits_0]. intros Hz. apply existsb_exists.
  exists z. split; [apply list_elem_of_In; by eapply list_elem_of_lookup_2|]. destruct (Z.eqb_spec z 0) as [->|]; [by rewrite Z.bits_0 in Hz|done].
Qed.

(** The syscalls below the reserved word. *)
Definition ordinary (n : Z) : Prop := 0 <= n < 63 * 32.

Lemma all_selected m n : length m = AUDIT_BITMASK_SIZE → allSyscalls m = true → ordinary n → selects m n = true.
Proof.
  intros Hl H [H0 H1]. unfold selects, mask_word. unfold AUDIT_BITMASK_SIZE in Hl.
  assert (Z.to_nat (n / 32) < 63)%nat as Hi by (apply Nat2Z.inj_lt; rewrite Z2Nat.id; [apply Z.div_lt_upper_bound; lia|apply Z.div_pos; lia]).
  destruct (lookup_lt_is_Some_2 m (Z.to_nat (n / 32))) as [w Hw]; [lia|]. rewrite Hw. simpl.
  unfold allSyscalls in H. rewrite forallb_elem in H. specialize (H w).
  assert (w = all_ones) as ->. { apply Z.eqb_eq, H. apply list_elem_of_lookup. exists (Z.to_nat (n / 32)). by rewrite lookup_take_lt. }
  pose proof (Z.mod_pos_bound n 32). change all_ones with (Z.ones 32). apply Z.ones_spec_low. lia.
Qed.

(** ** What the kernel does with an event *)

(** Whether a watch is for the file. *)
Definition path_hit (r : auditRule) (path : chars) : bool :=
  bool_decide (path = watch_path r) || hasRuleField r AUDIT_DIR && pathWithin path (watch_path r).

(** An event is the end of a system call: its architecture, its number, the file and the
    kind of access when it has one.  [fields_match] tells whether every field of a rule
    holds of it. *)
Class KernelFilter (E : Type) : Type := {
  e_arch : E → Z;
  e_syscall : E → Z;
  e_path : E → chars;
  e_access : E → Z;
  fields_match : E → auditRule → bool;
  (** Keys label; they match every event. *)
  match_unconditional e r :
    (∀ f, f ∈ rule_fields r → f = mkField AUDIT_ARCH (e_arch e) AUDIT_EQUAL ∨ f_field f = AUDIT_FILTERKEY) → fields_match e r = true;
  (** All fields of a rule have to hold. *)
  match_equal e r v : fields_match e r = true → mkField AUDIT_ARCH v AUDIT_EQUAL ∈ rule_fields r → e_arch e = v;
  match_not_equal e r v : fields_match e r = true → mkField AUDIT_ARCH v AUDIT_NOT_EQUAL ∈ rule_fields r → e_arch e ≠ v;
  (** A watch is for the accesses of its kinds to its file or tree. *)
  match_watch e r : watch_ok r = true → fields_match e r = path_hit r (e_path e) && negb (Z.land (watch_perms r) (e_access e) =? 0)
}.

Definition rule_matches `{KernelFilter E} (e : E) (r : auditRule) : bool :=
  (filter_list r =? AUDIT_FILTER_EXIT) && selects (Mask r) (e_syscall e) && fields_match e r.

(** The rule that decides the fate of the event. *)
Definition deciding_rule `{KernelFilter E} (e : E) (rs : list auditRule) : option auditRule := List.find (rule_matches e) rs.

(** The kernel knows no other actions. *)
Definition known_action (r : auditRule) : Prop := Action r = AUDIT_NEVER ∨ Action r = AUDIT_ALWAYS.

(** The key of an event that the rule records. *)
Definition event_key (r : auditRule) : chars := if watch_ok r then watch_key r else fst (auditRuleFilterKey r).

Section events.
Context `{KernelFilter E} (e : E).

Lemma decided rs r : deciding_rule e rs = Some r → r ∈ rs ∧ rule_matches e r = true.
Proof. unfold deciding_rule. intros Hf. apply List.find_some in Hf as [? ?]. by rewrite list_elem_of_In. Qed.

Lemma some_decides rs r : r ∈ rs → rule_matches e r = true → ∃ r', deciding_rule e rs = Some r'.
Proof.
  unfold deciding_rule. intros Hr Hm. destruct (List.find _ rs) eqn:Ef; [by eexists|]. apply list_elem_of_In in Hr.
  by rewrite (List.find_none _ _ Ef _ Hr) in Hm.
Qed.

Lemma matches_parts r : rule_matches e r = true → filter_list r = AUDIT_FILTER_EXIT ∧ selects (Mask r) (e_syscall e) = true ∧ fields_match e r = true.
Proof. unfold rule_matches. rewrite !andb_true_iff, Z.eqb_eq. tauto. Qed.

Lemma matched_arch r : fields_match e r = true → mayMatchArchitecture r (e_arch e) = true.
Proof.
  intros Hm. apply forallb_elem. intros [f v op] Hf. simpl. destruct (Z.eqb_spec f AUDIT_ARCH) as [->|]; [|done]. simpl.
  destruct (Z.eqb_spec op AUDIT_EQUAL) as [->|]; simpl; [rewrite (match_equal e r v Hm Hf), Z.eqb_refl; done|].
  destruct (Z.eqb_spec op AUDIT_NOT_EQUAL) as [->|]; simpl; [|done].
  destruct (Z.eqb_spec v (e_arch e)) as [->|]; [|done]. by destruct (match_not_equal e r _ Hm Hf).
Qed.

Lemma unconditional_matches r : unconditionalExecutionRule r (e_arch e) = true → selects (Mask r) (e_syscall e) = true → rule_matches e r = true.
Proof.
  unfold unconditionalExecutionRule, rule_matches. rewrite !andb_true_iff. intros [[_ ->] Hf] ->. split_and!; [done|done|].
  apply match_unconditional. rewrite forallb_elem in Hf. intros [f v op] Hin. specialize (Hf _ Hin). simpl in *.
  destruct (Z.eqb_spec f AUDIT_ARCH) as [->|]; [|right; by apply Z.eqb_eq]. rewrite andb_true_iff, !Z.eqb_eq in Hf.
  left. by destruct Hf as [-> ->].
Qed.

Lemma unconditional_always r arch : unconditionalExecutionRule r arch = true → Action r = AUDIT_ALWAYS.
Proof. unfold unconditionalExecutionRule. rewrite !andb_true_iff, !Z.eqb_eq. tauto. Qed.

(** A rule that decides is one that the loops of the checks come to. *)
Lemma decided_active r : rule_matches e r = true → Action r = AUDIT_ALWAYS → activeExitRule r = true.
Proof.
  intros (H1 & H2 & _)%matches_parts Ha. unfold activeExitRule. rewrite H1, Ha. simpl. by eapply selects_any.
Qed.
End events.

(** ** Taking the answer apart *)

Lemma covered_by existing desired : isPathRule desired = false → managedRuleCovered existing desired = true →
  ∀ n, selects (Mask desired) n = true → ∃ r, r ∈ existing ∧ unconditionalExecutionRule r (fst (ruleArchitecture desired)) = true ∧ selects (Mask r) n = true.
Proof.
  unfold managedRuleCovered. intros -> Hc n Hn. destruct (ruleArchitecture desired) as [arch ok], (auditRuleFilterKey desired) as [key ok'].
  destruct ok; [|done]. destruct ok'; [|done]. simpl in *. eapply within_selects in Hc; [|done]. clear Hn.
  assert (∀ l acc, selects acc n = false → selects (fold_left (λ covered (r : auditRule),
    if negb (unconditionalExecutionRule r arch) then covered
    else if negb (bool_decide (key = executionRuleKey)) && negb (auditKeyContains (fst (auditRuleFilterKey r)) key) then covered
    else mask_or covered (Mask r)) l acc) n = true → ∃ r, r ∈ l ∧ unconditionalExecutionRule r arch = true ∧ selects (Mask r) n = true) as Hg.
  { induction l as [|r l IH]; simpl; intros acc Ha Hs; [by rewrite Ha in Hs|].
    destruct (unconditionalExecutionRule r arch) eqn:Eu; simpl in Hs; [|destruct (IH _ Ha Hs) as (x & ? & ?); exists x; set_solver].
    destruct (_ && _); [destruct (IH _ Ha Hs) as (x & ? & ?); exists x; set_solver|].
    destruct (selects (Mask r) n) eqn:Er; [exists r; set_solver|].
    destruct (IH (mask_or acc (Mask r))) as (x & ? & ?); [|done|exists x; set_solver].
    apply not_true_iff_false. intros [?|?]%selects_or; congruence. }
  by apply (Hg existing no_syscalls); [apply selects_none|].
Qed.

(** What it means that nothing is missing and nothing is hidden. *)
Record answer_ok (Statfs : chars → option Z) (existing wanted : list auditRule) : Prop := {
  ok_watches r : r ∈ wanted → isPathRule r = true → watch_ok r = true;
  ok_covered r : r ∈ wanted → managedRuleCovered existing r = true;
  ok_syscalls r d : r ∈ existing → filter_list r = AUDIT_FILTER_EXIT → Action r = AUDIT_NEVER → d ∈ wanted → isPathRule d = false →
    mayMatchArchitecture r (first_value d) && mask_meets (Mask r) (Mask d) = false;
  ok_files r d : r ∈ existing → filter_list r = AUDIT_FILTER_EXIT → Action r = AUDIT_NEVER → d ∈ wanted → isPathRule d = true →
    mask_meets (Mask r) (Mask d) = false;
  ok_ordering : checkManagedRuleKeyOrdering existing (orderedManagedRules wanted) = None
}.

Lemma missing_none Statfs existing wanted : missingManagedRules Statfs existing wanted = Ok [] → answer_ok Statfs existing wanted.
Proof.
  unfold missingManagedRules. cbv zeta. set (w := orderedManagedRules wanted). destruct (existsb _ _) eqn:Ew; [done|].
  destruct (checkExecutionSuppressions _ _) eqn:Ee; [done|]. destruct (checkSecurityRecordSuppressions _) eqn:Es; [done|].
  destruct (checkFileWatchSuppressions _ _ _) eqn:Ef; [done|]. destruct (checkManagedRuleKeyOrdering _ _) eqn:Eo; [done|].
  intros [= Hm]. assert (∀ r, r ∈ wanted → r ∈ w) as Hw by (intros r Hr; by apply elem_ordered).
  unfold checkExecutionSuppressions in Ee. unfold checkFileWatchSuppressions in Ef. rewrite first_error_None in Ee, Ef. rewrite existsb_elem in Ew.
  split.
  - intros r Hr Hp. specialize (Ew r). rewrite elem_filter in Ew. specialize (Ew (conj (Hw _ Hr) Hp)). unfold bad_watch in Ew.
    rewrite !orb_false_iff in Ew. destruct Ew as [[Ew _] _]. by apply negb_false_iff in Ew.
  - intros r Hr. apply Hw in Hr. destruct (managedRuleCovered existing r) eqn:Ec; [done|].
    assert (r ∈ List.filter (λ d, negb (managedRuleCovered existing d)) w) as Hin by (apply elem_filter; by rewrite Ec). rewrite Hm in Hin. set_solver.
  - intros r d Hr Hl Ha Hd Hp. specialize (Ee r Hr). rewrite Hl, Ha in Ee. simpl in Ee.
    destruct (overlapsExecution r _) eqn:Eov; [done|]. unfold overlapsExecution in Eov. rewrite existsb_elem in Eov. apply Eov.
    apply elem_filter. rewrite Hp. eauto.
  - intros r d Hr Hl Ha Hd Hp. specialize (Ef r Hr). rewrite Hl, Ha in Ef. simpl in Ef.
    destruct (existsb _ _) eqn:Ex in Ef; [done|]. rewrite existsb_elem in Ex. apply Ex. apply elem_filter. eauto.
  - done.
Qed.

Section syscalls.
Context `{KernelFilter E} (e : E).

Lemma ordering_decides existing desired wanted key r word bit :
  word = Z.to_nat (e_syscall e / 32) → bit = e_syscall e mod 32 →
  syscall_ordering existing desired wanted key (e_arch e) word bit = None →
  deciding_rule e existing = Some r → Action r = AUDIT_ALWAYS →
  moreSpecificManagedRule r desired wanted = true ∨ auditKeyContains (fst (auditRuleFilterKey r)) key = true.
Proof.
  intros -> ->. induction existing as [|r0 l IH]; [done|]. unfold deciding_rule. cbn [List.find syscall_ordering]. intros Ho Hd Ha.
  rewrite bit_land in Ho by (apply Z.mod_pos_bound; lia). fold (selects (Mask r0) (e_syscall e)) in Ho.
  destruct (rule_matches e r0) eqn:Em.
  - injection Hd as <-. pose proof (decided_active e r0 Em Ha) as Hact. apply matches_parts in Em as (_ & Hs & Hf).
    rewrite Hact, Hs, (matched_arch e r0 Hf) in Ho. simpl in Ho. destruct (moreSpecificManagedRule r0 desired wanted); [by left|].
    destruct (auditKeyContains _ key); [by right|done].
  - destruct (_ || _ || _) eqn:Eg in Ho; [by apply IH|]. destruct (moreSpecificManagedRule r0 desired wanted); [by apply IH|].
    destruct (negb (auditKeyContains _ key)); [done|]. destruct (unconditionalExecutionRule r0 (e_arch e)) eqn:Eu; [|by apply IH].
    rewrite !orb_false_iff, !negb_false_iff in Eg. destruct Eg as [[_ Hs] _].
    by rewrite (unconditional_matches e r0 Eu Hs) in Em.
Qed.

(** The rule that decides an event on a managed syscall records it, under the managed key
    or under the key of a managed path. *)
Lemma syscall_decided Statfs existing wanted desired :
  Forall known_action existing → missingManagedRules Statfs existing wanted = Ok [] →
  desired ∈ wanted → isPathRule desired = false → ruleArchitecture desired = (e_arch e, true) → first_value desired = e_arch e →
  0 <= e_syscall e → selects (Mask desired) (e_syscall e) = true →
  ∃ r, deciding_rule e existing = Some r ∧ Action r = AUDIT_ALWAYS ∧
    (fst (auditRuleFilterKey desired) = executionRuleKey ∨ auditKeyContains (fst (auditRuleFilterKey r)) (fst (auditRuleFilterKey desired)) = true ∨
     isPathRule r = true ∧ exactManagedRule r (orderedManagedRules wanted) = true).
Proof.
  intros Hk Hm Hd Hp Harch Hv Hn Hs. apply missing_none in Hm as [_ Hc Hsup _ Ho].
  destruct (covered_by _ _ Hp (Hc _ Hd) _ Hs) as (u & Hu & Hun & Hus). rewrite Harch in Hun. simpl in Hun.
  destruct (some_decides e _ _ Hu (unconditional_matches e u Hun Hus)) as [r Hr]. exists r. split; [done|].
  pose proof (decided e _ _ Hr) as [Hrin Hrm]. pose proof (matches_parts e _ Hrm) as (Hrl & Hrs & Hrf).
  assert (Action r = AUDIT_ALWAYS) as Ha.
  { rewrite Forall_forall in Hk. destruct (Hk r Hrin) as [Hnever|]; [|done]. specialize (Hsup r desired Hrin Hrl Hnever Hd Hp).
    by rewrite Hv, (matched_arch e r Hrf), (selects_meets _ _ _ Hrs Hs) in Hsup. }
  split; [done|]. destruct (decide (fst (auditRuleFilterKey desired) = executionRuleKey)) as [|Hne]; [by left|right].
  unfold checkManagedRuleKeyOrdering in Ho. rewrite first_error_None in Ho. specialize (Ho desired). rewrite elem_ordered, (Hc _ Hd), Hp in Ho.
  specialize (Ho Hd). cbn [negb] in Ho. rewrite bool_decide_false, Harch in Ho by done. cbn [fst] in Ho. rewrite first_error_None in Ho.
  assert (Z.to_nat (e_syscall e / 32) ∈ seq 0 (length (Mask desired))) as Hw by (apply elem_of_seq; pose proof (mask_word_in _ _ _ Hs); lia).
  specialize (Ho _ Hw). rewrite first_error_None in Ho. specialize (Ho (e_syscall e mod 32)). pose proof (Z.mod_pos_bound (e_syscall e) 32 ltac:(lia)) as Hb.
  rewrite bit_land in Ho by lia. fold (selects (Mask desired) (e_syscall e)) in Ho. rewrite Hs in Ho. cbn [negb] in Ho.
  destruct (ordering_decides existing desired (orderedManagedRules wanted) _ r _ _ eq_refl eq_refl (Ho ltac:(
    apply list_elem_of_fmap; exists (Z.to_nat (e_syscall e mod 32)); rewrite elem_of_seq; split; [lia|lia])) Hr Ha) as [Hsp|]; [|by left].
  right. unfold moreSpecificManagedRule in Hsp. destruct (isPathRule r), (exactManagedRule r _); done.
Qed.
End syscalls.

(** ** The walk to the root ends *)

(** The characters of elements, each with a separator. *)
Definition elements_size (ws : list chars) : nat := sum_list_with (λ w, S (length w)) ws.

Lemma elements_size_app a b : elements_size (a ++ b) = (elements_size a + elements_size b)%nat.
Proof. unfold elements_size. apply sum_list_with_app. Qed.

Lemma split_on_size c l : elements_size (split_on c l) = S (length l).
Proof.
  induction l as [|x l IH]; [done|]. simpl. destruct (Ascii.eqb x c); [unfold elements_size in *; simpl; by rewrite IH|].
  destruct (split_on c l) as [|w ws]; [done|]. unfold elements_size in *. simpl in *. lia.
Qed.

Lemma join_size c ws : length (join [c] ws) = (elements_size ws - 1)%nat.
Proof.
  induction ws as [|w ws IH]; [done|]. destruct ws as [|v ws]; [unfold elements_size; simpl; lia|].
  change (join [c] (w :: v :: ws)) with (w ++ [c] ++ join [c] (v :: ws)). rewrite !length_app, IH. unfold elements_size. simpl. lia.
Qed.

Lemma clean_step_size rooted st w : (elements_size (clean_step rooted st w) <= elements_size st + S (length w))%nat.
Proof.
  unfold clean_step. destruct (bool_decide _); [lia|]. destruct (bool_decide _).
  - destruct st as [|top st]; [destruct rooted; unfold elements_size; simpl; lia|]. destruct (bool_decide _); unfold elements_size; simpl; lia.
  - unfold elements_size. simpl. lia.
Qed.

Lemma clean_fold_size rooted ws : ∀ st, (elements_size (fold_left (clean_step rooted) ws st) <= elements_size st + elements_size ws)%nat.
Proof.
  induction ws as [|w ws IH]; intros st; simpl; [lia|]. etrans; [apply IH|]. pose proof (clean_step_size rooted st w). unfold elements_size in *. simpl. lia.
Qed.

Lemma elements_size_rev ws : elements_size (rev ws) = elements_size ws.
Proof. induction ws as [|w ws IH]; [done|]. simpl. rewrite elements_size_app, IH. unfold elements_size. simpl. lia. Qed.

(** A path does not grow when it is cleaned. *)
Lemma path_Clean_length l : (length (path_Clean l) <= Nat.max 1 (length l))%nat.
Proof.
  unfold path_Clean. set (body := join _ _).
  assert (∀ rooted ws, (length (join [slash] (rev (fold_left (clean_step rooted) ws []))) <= elements_size ws - 1)%nat) as Hb.
  { intros rooted ws. rewrite join_size, elements_size_rev. pose proof (clean_fold_size rooted ws []). unfold elements_size in *. simpl in *. lia. }
  destruct l as [|c l]; [simpl; lia|]. destruct (Ascii.eqb_spec c slash) as [->|Hne].
  - assert (length body <= length l)%nat; [|simpl; lia]. specialize (Hb true (split_on slash l)). rewrite split_on_size in Hb.
    etrans; [exact Hb|]. simpl. lia.
  - specialize (Hb false (split_on slash (c :: l))). rewrite split_on_size in Hb. simpl in Hb. destruct body eqn:Eb; [simpl; lia|].
    rewrite <- Eb. unfold body. simpl. lia.
Qed.

Lemma split_on_tail c l : split_on c (l ++ [c]) = split_on c l ++ [[]].
Proof.
  induction l as [|x l IH]; simpl; [by rewrite Ascii.eqb_refl|]. destruct (Ascii.eqb x c); [by rewrite IH|].
  rewrite IH. pose proof (split_on_size c l) as Hs. by destruct (split_on c l).
Qed.

Lemma path_Clean_slash l : l ≠ [] → path_Clean (l ++ [slash]) = path_Clean l.
Proof.
  intros Hl. unfold path_Clean. rewrite split_on_tail, fold_left_app. destruct l as [|c l]; [done|]. done.
Qed.

Lemma span_stops p l : match snd (span p l) with [] => True | c :: _ => p c = false end.
Proof. induction l as [|x l IH]; simpl; [done|]. destruct (p x) eqn:Ep; [|done]. by destruct (span p l). Qed.

Lemma path_Dir_cases p : (length (path_Dir p) < length p)%nat ∨ path_Dir p = [slash] ∨ path_Dir p = to_chars ".".
Proof.
  unfold path_Dir. pose proof (span_app (λ c, negb (Ascii.eqb c slash)) (rev p)) as Hs. destruct (span _ (rev p)) as [a b] eqn:Es. destruct Hs as [Hp Ha].
  simpl. destruct b as [|c b]; [by right; right|]. assert (c = slash) as ->.
  { pose proof (span_stops (λ c, negb (Ascii.eqb c slash)) (rev p)) as Hc. rewrite Es in Hc. simpl in Hc. by destruct (Ascii.eqb_spec c slash). }
  simpl. destruct (decide (rev b = [])) as [->|Hne]; [by right; left|]. rewrite path_Clean_slash by done.
  pose proof (path_Clean_length (rev b)) as Hl. rewrite length_rev in Hl. assert (length p = length a + S (length b))%nat as Hlp by (rewrite <- length_rev, Hp, length_app; done).
  left. destruct b; [done|]. simpl in *. lia.
Qed.

(** The fuel of [nearestFilesystemType] is enough. *)
Lemma nearest_ends Statfs : ∀ n path, (length path + 2 <= n)%nat → is_Some (nearest_loop Statfs n path).
Proof.
  induction n as [|n IH]; intros path Hn; [lia|]. simpl. destruct (Statfs path); [by eexists|]. destruct (bool_decide_reflect (path_Dir path = path)) as [|Hne]; [by eexists|].
  destruct (path_Dir_cases path) as [Hl|Hroot]; [apply IH; lia|].
  destruct n as [|n]; [simpl in Hn; lia|]. simpl. destruct (Statfs _); [by eexists|].
  destruct Hroot as [-> | ->]; by eexists.
Qed.
