(* ===== verification/AuditPathProofs.v ===== *)
(** * Which key an access to a managed path gets

    The part of [AuditRulesProofs] for watches of files and trees: the rule that decides
    an access of one kind to a managed path records it, under the managed key or under that
    of another managed path. *)

From Stdlib Require Import Strings.Ascii.
From S2P Require Import Prelude GoStrings GoText GoMisc Netlink AuditRules AuditRulesProofs.

(** ** The watch for one kind of access *)

Definition with_permission (p : Z) (f : rule_field) : rule_field :=
  if plain (f_field f) =? AUDIT_PERM then mkField (f_field f) p (f_op f) else f.

Lemma zip_fields_nil l l' : zip_fields l [] l' = [].
Proof. by destruct l. Qed.

Lemma zip_fields_permission p (fs : list Z) : ∀ vs ops (g : nat → bool) n,
  (∀ i, (i < n)%nat → g i = true) →
  take n (zip_fields fs (imap (λ i v, if g i && (plain (default 0 (fs !! i)) =? AUDIT_PERM) then p else v) vs) ops) =
  with_permission p <$> take n (zip_fields fs vs ops).
Proof.
  induction fs as [|f fs IH]; intros vs ops g n Hg; [simpl; by rewrite take_nil|].
  destruct vs as [|v vs]; [by rewrite imap_nil, !zip_fields_nil, !take_nil|]. rewrite imap_cons. destruct ops as [|o ops]; [simpl; by rewrite take_nil|].
  destruct n as [|n]; [done|]. simpl. f_equal.
  - rewrite (Hg 0%nat) by lia. unfold with_permission. simpl. by destruct (plain f =? AUDIT_PERM).
  - apply (IH vs ops (g ∘ S) n). intros i ?. apply Hg. lia.
Qed.

Lemma permission_fields r p : rule_fields (pathRulePermission r p) = with_permission p <$> rule_fields r.
Proof.
  unfold rule_fields, pathRulePermission, set_Values. simpl. apply (zip_fields_permission _ _ _ _ (λ i, (i <? Z.to_nat (FieldCount r))%nat)).
  intros i Hi. by apply Nat.ltb_lt.
Qed.

Definition set_perms (o : option Z) (p : watch_parts) : watch_parts := mkParts (w_path p) (w_key p) o.
Definition as_perm (q : Z) (o : option Z) : option Z := match o with Some _ => Some q | None => None end.

Lemma parts_permission q buf fs : ∀ offset p,
  parts_loop (with_permission q <$> fs) buf offset (set_perms (as_perm q (w_perms p)) p) =
  prod_map (λ p, set_perms (as_perm q (w_perms p)) p) id <$> parts_loop fs buf offset p.
Proof.
  induction fs as [|[f v op] fs IH]; intros offset [path key perms]; [done|]. rewrite fmap_cons.
  destruct (Z.eqb_spec (plain f) AUDIT_PERM) as [Ep|Hne].
  - replace (with_permission q (mkField f v op)) with (mkField f q op) by (unfold with_permission; simpl; by rewrite Ep).
    cbn [parts_loop f_field f_value f_op]. rewrite Ep.
    change (auditStringField AUDIT_PERM) with false. change (AUDIT_PERM =? AUDIT_WATCH) with false.
    change (AUDIT_PERM =? AUDIT_DIR) with false. change (AUDIT_PERM =? AUDIT_PERM) with true. cbn [andb orb].
    destruct (op =? AUDIT_EQUAL); cbn [negb]; [|done]. destruct perms; [done|]. apply (IH _ (mkParts path key (Some v))).
  - replace (with_permission q (mkField f v op)) with (mkField f v op) by (unfold with_permission; simpl; by rewrite (proj2 (Z.eqb_neq _ _) Hne)).
    cbn [parts_loop f_field f_value f_op]. destruct (_ && _); [done|]. destruct (op =? AUDIT_EQUAL); cbn [negb]; [|done].
    destruct (_ || _); [destruct path; [done|]; apply (IH _ (mkParts _ key perms))|].
    rewrite (proj2 (Z.eqb_neq _ _) Hne). destruct (plain f =? AUDIT_FILTERKEY); [|done]. destruct key; [done|]. apply (IH _ (mkParts path _ perms)).
Qed.

Lemma permission_parts r q path key perms : fileWatchRuleParts r = (path, key, perms, true) →
  fileWatchRuleParts (pathRulePermission r q) = (path, key, q, true).
Proof.
  unfold fileWatchRuleParts. rewrite permission_fields. unfold pathRulePermission at 1 2 3 4 5, set_Values. cbn [Action Flags FieldCount Mask kernel].
  change (filter_list (pathRulePermission r q)) with (filter_list r). destruct (_ || _); [done|].
  change (buffer (pathRulePermission r q)) with (buffer r). change (BufferLength (pathRulePermission r q)) with (BufferLength r).
  pose proof (parts_permission q (buffer r) (rule_fields r) 0 (mkParts None None None) :
    parts_loop _ _ _ (mkParts None None None) = _) as ->.
  destruct (parts_loop _ _ _ _) as [[[p k m] offset]|]; [|done]. cbn. destruct (_ || _); [done|].
  destruct m; cbn; [|rewrite andb_false_r; by intros [=]]. intros [= <- <- _ ->]. done.
Qed.

Lemma permission_dir r q : hasRuleField (pathRulePermission r q) AUDIT_DIR = hasRuleField r AUDIT_DIR.
Proof.
  unfold hasRuleField. rewrite permission_fields. induction (rule_fields r) as [|f l IH]; [done|]. simpl. f_equal; [|exact IH].
  unfold with_permission. by destruct (_ =? AUDIT_PERM).
Qed.

(** ** Paths that two watches share *)

Lemma trim_slash_cases l : trim_slash l = l ∨ l = trim_slash l ++ [slash].
Proof.
  unfold trim_slash. destruct (rev l) as [|c r] eqn:Er; [by left|]. destruct (Ascii.eqb_spec c slash) as [->|]; [|by left]. right.
  rewrite <- (rev_involutive l), Er. done.
Qed.

Lemma trim_slash_prefix l : trim_slash l `prefix_of` l.
Proof. destruct (trim_slash_cases l) as [->|E]; [done|]. rewrite E at 2. by apply prefix_app_r. Qed.

Lemma has_prefix_prefix p l : has_prefix p l = true ↔ p `prefix_of` l.
Proof. apply has_prefix_spec. Qed.

(** Two trees with a common path are the same or one holds the other. *)
Lemma trees_nested a b p : pathWithin p a = true → pathWithin p b = true → a = b ∨ pathWithin a b = true ∨ pathWithin b a = true.
Proof.
  unfold pathWithin. rewrite !has_prefix_prefix. intros Ha Hb.
  assert (∀ x y : chars, trim_slash x ++ [slash] `prefix_of` trim_slash y ++ [slash] → x = y ∨ trim_slash y ++ [slash] `prefix_of` x ∨ trim_slash x ++ [slash] `prefix_of` y) as Hg.
  { intros x y [k Hk]. destruct k as [|c k _] using rev_ind.
    - rewrite app_nil_r in Hk. apply app_inj_tail in Hk as [Hk _].
      destruct (trim_slash_cases x) as [Ex|Ex], (trim_slash_cases y) as [Ey|Ey].
      + left. congruence.
      + right. right. rewrite Ey, <- Hk. done.
      + right. left. rewrite Ex, Hk. done.
      + left. congruence.
    - right. right. rewrite app_assoc in Hk. apply app_inj_tail in Hk as [Hk _]. etrans; [|apply trim_slash_prefix]. rewrite Hk. by apply prefix_app_r. }
  destruct (prefix_weak_total _ _ _ Ha Hb) as [Hp|Hp]; apply Hg in Hp as [?|[?|?]]; auto.
Qed.

Lemma hits_overlap a b p : path_hit a p = true → path_hit b p = true → pathRulesOverlap a b = true.
Proof.
  unfold path_hit, pathRulesOverlap. rewrite !orb_true_iff, !andb_true_iff, !bool_decide_eq_true. intros Ha Hb.
  destruct (negb _ || negb _); [done|]. rewrite !orb_true_iff, !andb_true_iff, bool_decide_eq_true.
  destruct Ha as [->|[Da Ha]], Hb as [Hb|[Db Hb]]; [by left; left|by right|subst p; by left; right|].
  destruct (trees_nested _ _ _ Ha Hb) as [?|[?|?]]; auto.
Qed.

(** ** The rule that decides *)

Lemma watch_ok_parts r : watch_ok r = true → fileWatchRuleParts r = (watch_path r, watch_key r, watch_perms r, true).
Proof. unfold watch_ok, watch_path, watch_key, watch_perms. destruct (fileWatchRuleParts r) as [[[? ?] ?] ?]. by intros ->. Qed.

Lemma watch_ok_shape r : watch_ok r = true → Action r = AUDIT_ALWAYS ∧ filter_list r = AUDIT_FILTER_EXIT ∧ allSyscalls (Mask r) = true.
Proof.
  unfold watch_ok, fileWatchRuleParts. destruct (_ || _) eqn:Eg; [done|]. intros _. rewrite !orb_false_iff, !negb_false_iff, !Z.eqb_eq in Eg. tauto.
Qed.

Section paths.
Context `{KernelFilter E} (e : E).

Lemma watch_matches r : watch_ok r = true → length (Mask r) = AUDIT_BITMASK_SIZE → ordinary (e_syscall e) →
  path_hit r (e_path e) = true → Z.land (watch_perms r) (e_access e) ≠ 0 → rule_matches e r = true.
Proof.
  intros Ho Hl Hn Hp Ha. destruct (watch_ok_shape r Ho) as (_ & Hf & Hm). unfold rule_matches. rewrite Hf, (all_selected _ _ Hl Hm Hn).
  rewrite (match_watch e r Ho), Hp. simpl. by apply Z.eqb_neq in Ha as ->.
Qed.

(** The same file or tree. *)
Lemma same_hit a b p : watch_path a = watch_path b → hasRuleField a AUDIT_DIR = hasRuleField b AUDIT_DIR → path_hit a p = path_hit b p.
Proof. unfold path_hit. by intros -> ->. Qed.

Lemma covering_matches r desired : fileWatchCovers r (pathRulePermission desired (e_access e)) = true → watch_ok desired = true →
  length (Mask r) = AUDIT_BITMASK_SIZE → ordinary (e_syscall e) → path_hit desired (e_path e) = true → e_access e ≠ 0 → rule_matches e r = true.
Proof.
  intros Hc Hd Hl Hn Hp Ha. apply watch_ok_parts in Hd. apply (permission_parts _ (e_access e)) in Hd.
  assert (watch_path (pathRulePermission desired (e_access e)) = watch_path desired) as Hpp by (unfold watch_path at 1; by rewrite Hd).
  assert (watch_perms (pathRulePermission desired (e_access e)) = e_access e) as Hpq by (unfold watch_perms; by rewrite Hd).
  unfold fileWatchCovers in Hc. rewrite permission_dir, Hpq, !andb_true_iff, bool_decide_eq_true, Z.eqb_eq in Hc.
  destruct Hc as (((((Ho & _) & Hpath) & Hdir) & _) & Hperm).
  apply eqb_prop in Hdir. apply watch_matches; [done|done|done|rewrite (same_hit r desired); congruence|congruence].
Qed.

Lemma path_ordering_decides existing desired wanted exec r :
  Forall (λ r : auditRule, length (Mask r) = AUDIT_BITMASK_SIZE) existing → watch_ok desired = true → ordinary (e_syscall e) →
  path_hit desired (e_path e) = true → e_access e ≠ 0 →
  path_ordering existing desired wanted exec (e_access e) = None →
  deciding_rule e existing = Some r → Action r = AUDIT_ALWAYS →
  moreSpecificManagedRule r desired wanted = true ∨ onlyManagedExecutionSyscalls r exec = true ∧ e_access e ≠ AUDIT_PERM_EXEC ∨
  auditKeyContains (event_key r) (watch_key desired) = true.
Proof.
  intros Hl Hd Hn Hp Ha. induction existing as [|r0 l IH]; [done|]. apply Forall_cons in Hl as [Hl0 Hl]. specialize (IH Hl).
  unfold deciding_rule. cbn [List.find path_ordering]. intros Ho Hf Hal. destruct (rule_matches e r0) eqn:Em.
  - injection Hf as <-. rewrite (decided_active e r0 Em Hal) in Ho. apply matches_parts in Em as (_ & _ & Hm). cbn [negb] in Ho.
    destruct (watch_ok r0 && _) eqn:Es in Ho.
    { apply andb_true_iff in Es as [Hw Es]. rewrite (match_watch e r0 Hw) in Hm. apply andb_true_iff in Hm as [Hh Hm].
      rewrite (hits_overlap _ _ _ Hh Hp) in Es. simpl in Es. by rewrite Es in Hm. }
    destruct (moreSpecificManagedRule r0 desired wanted); [by left|]. destruct (_ && _) eqn:Ex in Ho.
    { rewrite !andb_true_iff, !negb_true_iff, Z.eqb_neq in Ex. right. left. tauto. }
    right. right. clear IH. unfold event_key. destruct (watch_ok r0); cbn [negb] in Ho; by destruct (auditKeyContains _ (watch_key desired)).
  - destruct (negb (activeExitRule r0)); [by apply IH|]. destruct (_ && _); [by apply IH|]. destruct (moreSpecificManagedRule r0 desired wanted); [by apply IH|].
    destruct (_ && _); [by apply IH|]. destruct (negb _); [done|]. destruct (_ && fileWatchCovers _ _) eqn:Ec in Ho; [|by apply IH].
    apply andb_true_iff in Ec as [_ Ec]. by rewrite (covering_matches _ _ Ec Hd Hl0 Hn Hp Ha) in Em.
Qed.

Lemma watch_covered existing desired q : fileWatchRulesCover existing desired = true → 0 <= q → Z.testbit (watch_perms desired) q = true →
  ∃ r, r ∈ existing ∧ watch_ok r = true ∧ watch_path r = watch_path desired ∧ hasRuleField r AUDIT_DIR = hasRuleField desired AUDIT_DIR ∧
    Z.testbit (watch_perms r) q = true.
Proof.
  unfold fileWatchRulesCover. rewrite andb_true_iff. intros [_ Hc] Hq Hb. eapply land_sub in Hc; [|done]. revert Hc.
  assert (∀ l acc, Z.testbit acc q = false → Z.testbit (fold_left (λ covered r,
    if watch_ok r && bool_decide (watch_path r = watch_path desired) && Bool.eqb (hasRuleField r AUDIT_DIR) (hasRuleField desired AUDIT_DIR) &&
       auditKeyContains (watch_key r) (watch_key desired) then Z.lor covered (watch_perms r) else covered) l acc) q = true →
    ∃ r, r ∈ l ∧ watch_ok r = true ∧ watch_path r = watch_path desired ∧ hasRuleField r AUDIT_DIR = hasRuleField desired AUDIT_DIR ∧
      Z.testbit (watch_perms r) q = true) as Hg; [|apply Hg, Z.bits_0].
  induction l as [|r l IH]; simpl; intros acc Ha Hs; [by rewrite Ha in Hs|].
  destruct (_ && _) eqn:Ec in Hs; [|destruct (IH _ Ha Hs) as (x & ? & ?); exists x; set_solver].
  rewrite !andb_true_iff, bool_decide_eq_true in Ec. destruct Ec as (((? & ?) & ?%eqb_prop) & _).
  destruct (Z.testbit (watch_perms r) q) eqn:Er; [exists r; set_solver|].
  destruct (IH (Z.lor acc (watch_perms r))) as (x & ? & ?); [by rewrite Z.lor_spec, Ha, Er|done|exists x; set_solver].
Qed.

(** One kind of access. *)
Definition single_access : Prop := e_access e ∈ permissions.

Lemma single_bit : single_access → ∃ q, 0 <= q ∧ e_access e = Z.shiftl 1 q.
Proof.
  unfold single_access, permissions. rewrite !elem_of_cons. unfold AUDIT_PERM_WRITE, AUDIT_PERM_ATTR, AUDIT_PERM_READ, AUDIT_PERM_EXEC.
  intros [->|[->|[->|[->|?]]]]; [by exists 1|by exists 3|by exists 2|by exists 0|set_solver].
Qed.

(** A rule that the check passes over as one for the execution syscalls only decides
    events on these. *)
Lemma only_mask_selects mask desired : ∀ i matched, only_mask i mask desired matched = true →
  ∀ j k, Z.testbit (mask_word mask j) k = true → Z.testbit (mask_word desired (i + j)) k = true.
Proof.
  induction mask as [|w mask IH]; intros i matched Ho j k Hb; [unfold mask_word in Hb; simpl in Hb; by rewrite Z.bits_0 in Hb|].
  simpl in Ho. destruct (Z.eqb_spec (Z.ldiff w (mask_word desired i)) 0) as [Ez|]; [|done]. simpl in Ho. destruct j as [|j].
  - rewrite Nat.add_0_r. simpl in Hb. destruct (Z.testbit (mask_word desired i) k) eqn:Ed; [done|].
    assert (0 <= k) as Hk by (destruct (Z.leb_spec 0 k); [done|]; rewrite Z.testbit_neg_r in Hb by lia; done).
    assert (Z.testbit (Z.ldiff w (mask_word desired i)) k = true) as Hx by (rewrite Z.ldiff_spec, Ed; unfold mask_word in Hb; simpl in Hb; by rewrite Hb).
    by rewrite Ez, Z.bits_0 in Hx.
  - replace (i + S j)%nat with (S i + j)%nat by lia. by apply (IH _ _ Ho).
Qed.

Lemma only_execution r exec : onlyManagedExecutionSyscalls r exec = true → rule_matches e r = true →
  ∃ d, d ∈ exec ∧ first_value d = e_arch e ∧ selects (Mask d) (e_syscall e) = true.
Proof.
  unfold onlyManagedExecutionSyscalls. destruct (ruleArchitecture r) as [arch ok] eqn:Ea. destruct (_ || _) eqn:Eg; [done|].
  apply orb_false_iff in Eg as [Hok Hu]. apply negb_false_iff in Hok, Hu. subst ok. intros (d & Hd & Ho)%existsb_exists Hm.
  apply andb_true_iff in Ho as [Hv%Z.eqb_eq Ho]. apply matches_parts in Hm as (_ & Hs & Hf). exists d. split; [by apply list_elem_of_In|].
  split; [|by apply (only_mask_selects _ _ 0%nat _ Ho)]. rewrite Hv. symmetry. unfold ruleArchitecture in Ea.
  destruct (List.find _ _) as [[f v op]|] eqn:Ef; [|done]. injection Ea as <- Hop%Z.eqb_eq. simpl in Hop. subst op.
  apply List.find_some in Ef as [Hin Hp]. apply list_elem_of_In in Hin. simpl in Hp. apply (match_equal e r _ Hf).
  unfold unconditionalExecutionRule in Hu. rewrite !andb_true_iff, forallb_elem in Hu. destruct Hu as [_ Hu]. specialize (Hu _ Hin). simpl in Hu.
  destruct (Z.eqb_spec f AUDIT_ARCH) as [->|]; [done|]. apply Z.eqb_eq in Hu as ->. done.
Qed.

(** Both ways to read the key of a watch agree. *)
Lemma parts_key buf fs : ∀ offset p p' offset', parts_loop fs buf offset p = Some (p', offset') →
  key_loop fs buf offset (w_key p) = Some (w_key p', offset').
Proof.
  induction fs as [|f fs IH]; intros offset [path key perms] p' offset'; simpl; [by intros [= <- <-]|].
  destruct (auditStringField (plain (f_field f))) eqn:Ea; simpl.
  - destruct (length buf <? _)%nat; [done|]. destruct (negb _); [done|]. destruct (_ || _) eqn:Ew.
    { destruct path; [done|]. destruct (Z.eqb_spec (plain (f_field f)) AUDIT_FILTERKEY) as [Ek|]; [by rewrite Ek in Ew|]. by intros ?%IH. }
    destruct (Z.eqb_spec (plain (f_field f)) AUDIT_PERM) as [Ek|]; [by rewrite Ek in Ea|].
    destruct (_ =? AUDIT_FILTERKEY); [|done]. destruct key; [done|]. by intros ?%IH.
  - destruct (negb _); [done|]. destruct (_ || _) eqn:Ew.
    { apply orb_true_iff in Ew as [Ew%Z.eqb_eq|Ew%Z.eqb_eq]; by rewrite Ew in Ea. }
    destruct (_ =? AUDIT_PERM); [destruct perms; [done|]; by intros ?%IH|].
    destruct (Z.eqb_spec (plain (f_field f)) AUDIT_FILTERKEY) as [Ek|]; [by rewrite Ek in Ea|done].
Qed.

Lemma event_key_filter r : event_key r = fst (auditRuleFilterKey r).
Proof.
  unfold event_key. destruct (watch_ok r) eqn:Eo; [|done]. unfold watch_ok, watch_key, fileWatchRuleParts, auditRuleFilterKey in *.
  destruct (_ || _); [done|]. destruct (parts_loop _ _ _ _) as [[p offset]|] eqn:Ep; [|done].
  apply parts_key in Ep. simpl in Ep. rewrite Ep. by destruct (_ || _).
Qed.

(** An access of another kind than execution is not made by an execution syscall. *)
Definition access_consistent (wanted : list auditRule) : Prop :=
  e_access e ≠ AUDIT_PERM_EXEC → ∀ d, d ∈ wanted → fst (auditRuleFilterKey d) = executionRuleKey → first_value d = e_arch e →
  selects (Mask d) (e_syscall e) = false.
Lemma path_decided Statfs existing wanted (desired : auditRule) :
  Forall known_action existing → Forall (λ r : auditRule, length (Mask r) = AUDIT_BITMASK_SIZE) existing → length (Mask desired) = AUDIT_BITMASK_SIZE →
  missingManagedRules Statfs existing wanted = Ok [] →
  desired ∈ wanted → isPathRule desired = true → ordinary (e_syscall e) → path_hit desired (e_path e) = true →
  single_access → access_consistent wanted → Z.land (watch_perms desired) (e_access e) ≠ 0 →
  ∃ r, deciding_rule e existing = Some r ∧ Action r = AUDIT_ALWAYS ∧
    (auditKeyContains (event_key r) (watch_key desired) = true ∨
     isPathRule r = true ∧ exactManagedRule r (orderedManagedRules wanted) = true).
Proof.
  intros Hk Hl Hlw Hm Hd Hp Hn Hh Hs Hx Ha. apply missing_none in Hm as [Hw Hc _ Hf Ho]. specialize (Hw _ Hd Hp).
  destruct (single_bit Hs) as (q & Hq & Eq). assert (Z.testbit (watch_perms desired) q = true) as Hb.
  { apply Z.eqb_neq in Ha. rewrite Eq, bit_land in Ha by lia. by destruct (Z.testbit _ q). }
  pose proof (Hc _ Hd) as Hcov. unfold managedRuleCovered in Hcov. rewrite Hp in Hcov.
  destruct (watch_covered _ _ q Hcov Hq Hb) as (u & Hu & Huo & Hup & Hud & Hub).
  assert (rule_matches e u = true) as Hum.
  { rewrite Forall_forall in Hl. apply watch_matches; [done|by apply Hl|done|by rewrite (same_hit u desired)|].
    apply Z.eqb_neq. rewrite Eq, bit_land by lia. by rewrite Hub. }
  destruct (some_decides e _ _ Hu Hum) as [r Hr]. exists r. split; [done|].
  pose proof (decided e _ _ Hr) as [Hrin Hrm]. pose proof (matches_parts e _ Hrm) as (Hrl & Hrs & Hrf).
  destruct (watch_ok_shape desired Hw) as (_ & _ & Hall).
  assert (Action r = AUDIT_ALWAYS) as Hal.
  { rewrite Forall_forall in Hk. destruct (Hk r Hrin) as [Hnever|]; [|done]. specialize (Hf r desired Hrin Hrl Hnever Hd Hp).
    by rewrite (selects_meets _ _ _ Hrs (all_selected _ _ Hlw Hall Hn)) in Hf. }
  split; [done|]. unfold checkManagedRuleKeyOrdering in Ho. rewrite first_error_None in Ho. specialize (Ho desired).
  rewrite elem_ordered, (Hc _ Hd), Hp in Ho. specialize (Ho Hd). cbn [negb] in Ho. unfold checkPathRuleKeyOrdering in Ho. rewrite first_error_None in Ho.
  specialize (Ho _ Hs). rewrite (proj2 (Z.eqb_neq _ _) Ha) in Ho.
  assert (e_access e ≠ 0) as Hne by (intros E0; rewrite E0, Z.land_0_r in Ha; done).
  destruct (path_ordering_decides _ _ _ _ r Hl Hw Hn Hh Hne Ho Hr Hal) as [Hsp|[[Hex He]|?]]; [right| |by left].
  - unfold moreSpecificManagedRule in Hsp. destruct (isPathRule r), (exactManagedRule r _); done.
  - destruct (only_execution _ _ Hex Hrm) as (d & Hdin & Hv & Hsel). apply elem_filter in Hdin as [Hin [Hkey _]%andb_true_iff].
    apply bool_decide_eq_true in Hkey. rewrite elem_ordered in Hin. by rewrite (Hx He d Hin Hkey Hv) in Hsel.
Qed.
End paths.
