(* ===== verification/AuditPolicyProofs.v ===== *)
(** * The managed audit policy is in force

    After [EnsureManagedRulesWithLogger] has succeeded, the rules that the kernel gave in
    its last answer record every managed event; and whatever happens, only managed rules
    are added or removed. *)

From Stdlib Require Import Strings.Ascii.
From S2P Require Import Prelude GoStrings GoText GoMisc Netlink AuditControl AuditRules AuditPolicy AuditRulesProofs AuditPathProofs.

(** ** The form of a rule on the socket *)

(** The arrays have their sizes, the numbers fit 32 bits. *)
Record rule_wf (r : auditRule) : Prop := {
  wf_words : Forall is_u32 (rule_words r);
  wf_mask : length (Mask r) = AUDIT_BITMASK_SIZE;
  wf_fields : length (Fields r) = AUDIT_MAX_FIELDS;
  wf_values : length (Values r) = AUDIT_MAX_FIELDS;
  wf_flags : length (FieldFlags r) = AUDIT_MAX_FIELDS;
  wf_count : FieldCount r <= Z.of_nat AUDIT_MAX_FIELDS;
  wf_buffer : BufferLength r = Z.of_nat (length (buffer r))
}.

Section codec.
Context (big : bool).

Lemma words_length n b : length (words big n b) = n.
Proof. revert b. induction n as [|n IH]; intros b; simpl; [done|]. by rewrite IH. Qed.

Lemma words_put ws rest : Forall is_u32 ws → words big (length ws) (concat (native_put big 4 <$> ws) ++ rest) = ws.
Proof.
  induction 1 as [|w ws Hw _ IH]; [done|]. cbn [length words fmap list_fmap concat]. rewrite <- app_assoc.
  rewrite take_app_length', drop_app_length' by by rewrite native_put_length. f_equal; [|exact IH]. apply native_get_put. unfold is_u32 in Hw. simpl. lia.
Qed.

Lemma put_length ws : length (concat (native_put big 4 <$> ws)) = (4 * length ws)%nat.
Proof. induction ws as [|w ws IH]; [done|]. rewrite fmap_cons. cbn [concat length]. rewrite length_app, native_put_length, IH. lia. Qed.

Lemma words_range n b : (4 * n <= length b)%nat → Forall is_u32 (words big n b).
Proof.
  revert b. induction n as [|n IH]; intros b Hb; simpl; constructor.
  - pose proof (native_get_range big (take 4 b)) as Hr. rewrite length_take, Nat.min_l in Hr by lia. exact Hr.
  - apply IH. rewrite length_drop. lia.
Qed.

Lemma ascii_bytes (l : chars) : ascii_of_byte <$> (byte_of_ascii <$> l) = l.
Proof. induction l as [|c l IH]; [done|]. cbn. rewrite ascii_of_byte_of_ascii. f_equal. exact IH. Qed.

Lemma rule_words_length r : rule_wf r → length (rule_words r) = 260%nat.
Proof. intros [_ H1 H2 H3 H4 _ _]. unfold rule_words. rewrite !length_app, H1, H2, H3, H4. done. Qed.

Lemma middle {A} (a b c : list A) i n : length a = i → length b = n → take n (drop i (a ++ b ++ c)) = b.
Proof. intros <- <-. by rewrite drop_app_length, take_app_length. Qed.

Lemma arrays_of (r : auditRule) : length (Mask r) = AUDIT_BITMASK_SIZE → length (Fields r) = AUDIT_MAX_FIELDS →
  length (Values r) = AUDIT_MAX_FIELDS → length (FieldFlags r) = AUDIT_MAX_FIELDS →
  take 64 (drop 3 (rule_words r)) = Mask r ∧ take 64 (drop 67 (rule_words r)) = Fields r ∧
  take 64 (drop 131 (rule_words r)) = Values r ∧ take 64 (drop 195 (rule_words r)) = FieldFlags r.
Proof.
  intros Hm Hf Hv Ho. unfold rule_words. unfold AUDIT_BITMASK_SIZE, AUDIT_MAX_FIELDS in *.
  split_and!; [|rewrite app_assoc|rewrite app_assoc, (app_assoc (_ ++ _))|rewrite app_assoc, (app_assoc (_ ++ _)), (app_assoc ((_ ++ _) ++ _))];
    apply middle; rewrite ?length_app, ?Hm, ?Hf, ?Hv; done.
Qed.

(** What is sent is what is read. *)
Lemma parse_marshal r : rule_wf r → ∃ p, marshalKernelRule big r = Ok p ∧ parseKernelRule big p = Ok r.
Proof.
  intros Hr. pose proof (rule_words_length r Hr) as Hl. destruct Hr as [Hw Hm Hf Hv Ho Hc Hb].
  unfold marshalKernelRule. rewrite (proj2 (Z.ltb_ge _ _) Hc), (proj2 (Z.eqb_eq _ _) Hb). eexists. split; [done|].
  set (p := _ ++ _). assert (length p = auditRuleSize + length (buffer r))%nat as Hp.
  { unfold p. rewrite length_app, put_length, Hl, length_fmap. done. }
  unfold parseKernelRule. rewrite (proj2 (Nat.ltb_ge _ _)) by lia. change (auditRuleSize / 4)%nat with 260%nat.
  assert (words big 260 p = rule_words r) as -> by (rewrite <- Hl; apply words_put; done).
  assert (∀ i, rule_words r !! (3 + i)%nat = (Mask r ++ Fields r ++ Values r ++ FieldFlags r ++ [BufferLength r]) !! i) as Hrest by done.
  assert (rule_words r !! 259%nat = Some (BufferLength r)) as H259.
  { change 259%nat with (3 + 256)%nat. rewrite (Hrest 256%nat), !app_assoc. rewrite lookup_app_r; rewrite !length_app, Hm, Hf, Hv, Ho; done. }
  rewrite H259. destruct (arrays_of r) as (-> & -> & -> & ->); [done..|]. cbn [rule_words app lookup list_lookup default].
  cbn [FieldCount BufferLength]. unfold id. rewrite (proj2 (Z.ltb_ge _ _) Hc). rewrite Hp.
  replace (auditRuleSize + length (buffer r) - auditRuleSize)%nat with (length (buffer r)) by lia. rewrite Hb, Z.eqb_refl. cbn [negb orb].
  rewrite <- Hb. assert (drop auditRuleSize p = byte_of_ascii <$> buffer r) as -> by (apply drop_app_length'; rewrite put_length, Hl; done).
  rewrite ascii_bytes. destruct r as [[? ? ? ? ? ? ? ?] ?]. done.
Qed.

(** A rule that is read is well formed. *)
Lemma parse_wf p r : parseKernelRule big p = Ok r → length (Mask r) = AUDIT_BITMASK_SIZE.
Proof.
  unfold parseKernelRule. destruct (Nat.ltb_spec (length p) auditRuleSize); [done|]. cbv zeta. destruct (_ || _); [done|]. intros [= <-].
  transitivity (length (take 64 (drop 3 (words big (auditRuleSize / 4) p)))); [done|]. by rewrite length_take, length_drop, words_length.
Qed.
End codec.

(** ** The rules of the policy *)

Lemma set_bit_length m n : length (set_bit m n) = length m.
Proof. apply length_alter. Qed.

Lemma mask_word_alter f (m : list Z) : ∀ i, (i < length m)%nat → mask_word (alter f i m) i = f (mask_word m i).
Proof. induction m as [|w m IH]; intros [|i] Hi; simpl in Hi; [lia..|done|]. apply (IH i). lia. Qed.

Lemma set_bit_sets m n : (Z.to_nat (n / 32) < length m)%nat → selects (set_bit m n) n = true.
Proof.
  intros Hl. unfold selects, set_bit. rewrite mask_word_alter by done.
  rewrite Z.lor_spec, Z.shiftl_1_l, Z.pow2_bits_true by (apply Z.mod_pos_bound; lia). apply orb_true_r.
Qed.

Lemma set_bit_keeps m n k : selects m k = true → selects (set_bit m n) k = true.
Proof.
  unfold selects, set_bit. intros Hs. pose proof (mask_word_in _ _ _ Hs). destruct (decide (Z.to_nat (n / 32) = Z.to_nat (k / 32))) as [->|Hne].
  - rewrite mask_word_alter by done. by rewrite Z.lor_spec, Hs.
  - unfold mask_word. by rewrite list_lookup_alter_ne.
Qed.

Lemma word_in_mask n : n < mask_bits → (Z.to_nat (n / 32) < AUDIT_BITMASK_SIZE)%nat.
Proof. unfold mask_bits, AUDIT_BITMASK_SIZE. intros Hn. apply Nat2Z.inj_lt. pose proof (Z.div_lt_upper_bound n 32 64). lia. Qed.

Lemma syscall_mask_spec l : ∀ m m', length m = AUDIT_BITMASK_SIZE → syscall_mask m l = Ok m' →
  length m' = AUDIT_BITMASK_SIZE ∧ ∀ n, selects m n = true ∨ n ∈ l → selects m' n = true.
Proof.
  induction l as [|a l IH]; intros m m' Hm; simpl; [intros [= <-]; split; [done|set_solver]|].
  destruct (Z.leb_spec (mask_bits - AUDIT_SYSCALL_CLASSES) a) as [|Hlt]; [done|]. intros Hs.
  apply IH in Hs as [Hl Hs]; [|by rewrite set_bit_length]. split; [done|]. intros n Hn. apply Hs.
  rewrite elem_of_cons in Hn. destruct Hn as [Hn|[->|Hn]]; [left; by apply set_bit_keeps|left|by right].
  apply set_bit_sets. rewrite Hm. apply word_in_mask. unfold AUDIT_SYSCALL_CLASSES in Hlt. lia.
Qed.

(** A rule for syscalls of one architecture, with its key. *)
Record syscall_shape (arch : Z) (key : chars) (r : auditRule) : Prop := {
  ss_path : isPathRule r = false;
  ss_arch : ruleArchitecture r = (arch, true);
  ss_value : first_value r = arch;
  ss_key : auditRuleFilterKey r = (key, true);
  ss_mask : length (Mask r) = AUDIT_BITMASK_SIZE
}.

Lemma syscall_rule_shape arch key mask : length mask = AUDIT_BITMASK_SIZE → syscall_shape arch key (syscall_rule arch key mask).
Proof.
  intros Hm. split; [done|done|done| |done]. unfold auditRuleFilterKey.
  change (rule_fields (syscall_rule arch key mask)) with [mkField AUDIT_ARCH arch AUDIT_EQUAL; mkField AUDIT_FILTERKEY (Z.of_nat (length key)) AUDIT_EQUAL].
  cbn -[plain Nat.ltb]. change (plain AUDIT_ARCH) with AUDIT_ARCH. change (plain AUDIT_FILTERKEY) with AUDIT_FILTERKEY. cbn -[Nat.ltb take drop].
  rewrite Nat2Z.id, Nat.ltb_irrefl. cbn -[take drop]. rewrite Nat.eqb_refl, Z.eqb_refl. cbn -[take drop]. by rewrite Nat.sub_0_r, take_ge.
Qed.

Lemma keyed_shape arch key l r : keyedSyscallRule arch key l = Ok r →
  syscall_shape arch (to_chars key) r ∧ ∀ n, n ∈ l → selects (Mask r) n = true.
Proof.
  unfold keyedSyscallRule. destruct (_ || _); [done|]. destruct (_ =? _)%nat; [done|]. intros (m & Hm & [= <-])%res_bind_ok.
  apply syscall_mask_spec in Hm as [Hl Hs]; [|done]. split; [by apply syscall_rule_shape|]. intros n Hn. apply Hs. by right.
Qed.

Lemma execution_shape arch a b : a < mask_bits → b < mask_bits →
  syscall_shape arch executionRuleKey (executionRule arch a b) ∧ ∀ n, n = a ∨ n = b → selects (Mask (executionRule arch a b)) n = true.
Proof.
  intros Ha Hb. split; [apply syscall_rule_shape; by rewrite !set_bit_length|]. intros n Hn. cbn [executionRule syscall_rule Mask kernel].
  destruct Hn as [->| ->]; [apply set_bit_keeps|]; apply set_bit_sets; rewrite ?set_bit_length; by apply word_in_mask.
Qed.

Lemma keyed_rules_in l : ∀ rs arch key syscalls, keyed_rules l = Ok rs → (arch, (key, syscalls)) ∈ l →
  ∃ r, r ∈ rs ∧ keyedSyscallRule arch key syscalls = Ok r.
Proof.
  induction l as [|[a [k s]] l IH]; intros rs arch key syscalls Hk Hin; [set_solver|]. cbn [keyed_rules] in Hk.
  apply res_bind_ok in Hk as (r & Hr & Hk). apply res_bind_ok in Hk as (rs' & Hrs & [= <-]). apply elem_of_cons in Hin as [[= -> -> ->]|Hin].
  - exists r. set_solver.
  - destruct (IH _ _ _ _ Hrs Hin) as (x & ? & ?). exists x. set_solver.
Qed.

(** The tables of the policy. *)
Definition policy_table (goarch : string) (t : securitySyscallTable) : Prop :=
  securitySyscallsForArchitecture goarch = Ok t ∨ goarch = "amd64"%string ∧ t = table_386 false.

Lemma managed_in goarch a b ws : managedRules goarch a b = Ok ws →
  (∀ t key l, policy_table goarch t → (key, l) ∈ groups t →
     ∃ r, r ∈ ws ∧ syscall_shape (t_arch t) (to_chars key) r ∧ ∀ n, n ∈ l → selects (Mask r) n = true) ∧
  (∀ arch n, execution_arch goarch = Some arch → n = a ∨ n = b →
     ∃ r, r ∈ ws ∧ syscall_shape arch executionRuleKey r ∧ selects (Mask r) n = true).
Proof.
  unfold managedRules. intros (ex & He & (sy & Hs & [= <-])%res_bind_ok)%res_bind_ok. split.
  - intros t key l Ht Hg. unfold securitySyscallRules in Hs. apply res_bind_ok in Hs as (native & Hn & (tables & Ht' & Hs)%res_bind_ok).
    assert (t ∈ tables) as Hin.
    { destruct (String.eqb_spec goarch "amd64") as [->|Hne].
      - simpl in Hn, Ht'. simplify_eq. destruct Ht as [[= <-]|[_ ->]]; set_solver.
      - simplify_eq. destruct Ht as [Ht|[-> _]]; [|done]. rewrite Hn in Ht. injection Ht as ->. set_solver. }
    destruct (keyed_rules_in _ _ (t_arch t) key l Hs) as (r & Hr & Hk).
    { apply list_elem_of_bind. exists t. split; [|done]. apply list_elem_of_fmap. by exists (key, l). }
    exists r. apply keyed_shape in Hk as [? ?]. split; [set_solver|done].
  - intros arch n Ha Hn. unfold executionRules in He. rewrite Ha in He. destruct (_ || _) eqn:Eb; [done|]. injection He as <-.
    rewrite orb_false_iff, !Z.leb_gt in Eb. destruct Eb as [Hba Hbb]. destruct (execution_shape arch a b Hba Hbb) as [Hsh Hsel].
    exists (executionRule arch a b). split; [set_solver|]. split; [done|]. by apply Hsel.
Qed.

(** ** What a success means *)

Section success.
Context (big : bool) (Statfs : chars → option Z).

Lemma andThen_ok {A B} (o : outcome A) (k : auditControlClient → A → outcome B) c b : andThen o k = (c, Ok b) → ∃ c1 a, o = (c1, Ok a) ∧ k c1 a = (c, Ok b).
Proof. destruct o as [c1 [a|e]]; simpl; [eauto|done]. Qed.

Lemma verify_ok c wanted c' : verifyManagedRules big Statfs c wanted = (c', Ok tt) → ∃ c1 on rs,
  enabled big c = (c1, Ok on) ∧ on ≠ 0 ∧ rules big c1 = (c', Ok rs) ∧ missingManagedRules Statfs rs wanted = Ok [].
Proof.
  unfold verifyManagedRules. intros (c1 & on & He & Hv)%andThen_ok. destruct (Z.eqb_spec on 0); [done|].
  apply andThen_ok in Hv as (c2 & rs & Hr & Hv). exists c1, on, rs. destruct (missingManagedRules Statfs rs wanted) as [[|]|] eqn:Em; by simplify_eq.
Qed.

Lemma ensure_ok c wanted c' : ensureManagedRules big Statfs c wanted = (c', Ok tt) →
  ∃ c1, verifyManagedRules big Statfs c1 (orderedManagedRules wanted) = (c', Ok tt).
Proof.
  unfold ensureManagedRules. intros (c1 & on & _ & (c2 & rs & _ & (c3 & [missing replacements] & _ & Hv)%andThen_ok)%andThen_ok)%andThen_ok.
  apply andThen_ok in Hv as (c4 & [] & _ & (c5 & ? & _ & Hv)%andThen_ok). eauto.
Qed.

Lemma parse_rules_wf l : ∀ rs, parse_rules big l = Ok rs → Forall (λ r : auditRule, length (Mask r) = AUDIT_BITMASK_SIZE) rs.
Proof.
  induction l as [|p l IH]; intros rs; simpl; [by intros [= <-]|]. intros (r & Hr & (rs' & Hrs & [= <-])%res_bind_ok)%res_bind_ok.
  constructor; [by eapply parse_wf|by apply IH].
Qed.

Lemma rules_wf c c' rs : rules big c = (c', Ok rs) → Forall (λ r : auditRule, length (Mask r) = AUDIT_BITMASK_SIZE) rs.
Proof.
  unfold rules. intros (c1 & l & _ & Hr)%andThen_ok. destruct (parse_rules big l) as [x|] eqn:Ep; [|done]. injection Hr as _ <-. by apply (parse_rules_wf l).
Qed.

(** Every discovered rule is a watch. *)
Definition watch_of (s : securityPathSpec) : auditRule := pathWatchRule (s_path s) (to_chars (s_key s)) (s_permissions s) (s_directory s).

Lemma appendPath_rules r s : d_rules r = watch_of <$> seen r → d_rules (appendPath r s) = watch_of <$> seen (appendPath r s).
Proof. intros Hr. unfold appendPath. destruct (bool_decide _); [done|]. simpl. by rewrite fmap_app, Hr. Qed.

Lemma addPath_rules files r s r' b : d_rules r = watch_of <$> seen r → addPath files r s = Ok (r', b) → d_rules r' = watch_of <$> seen r'.
Proof.
  intros Hr. unfold addPath. destruct (stat files (s_path s)) as [k|[|e]]; [| |done].
  - destruct (negb _ || _); [done|]. destruct (resolve _ _); [|done]. cbv zeta. destruct (negb _ || _ || _); [done|]. intros [= <- _].
    apply appendPath_rules. destruct (negb _); [by apply appendPath_rules|done].
  - destruct (negb (s_directory s)).
    + destruct (stat files (path_Dir (s_path s))) as [[]|[]]; try done; intros [= <- _]; [apply (appendPath_rules r s Hr)|by destruct (negb _)].
    + intros [= <- _]. by destruct (negb _).
Qed.

Lemma add_specs_rules files specs : ∀ ctx r r' ctx', d_rules r = watch_of <$> seen r → add_specs files specs ctx r = Ok (r', ctx') → d_rules r' = watch_of <$> seen r'.
Proof.
  induction specs as [|s specs IH]; intros ctx r r' ctx' Hr; cbn [add_specs]; [by intros [= <- _]|].
  destruct (ctx_done ctx) as [[] ctx1]; [done|]. intros ([r1 b] & H1 & H2)%res_bind_ok. eapply IH; [|done]. by eapply addPath_rules.
Qed.

Lemma add_homes_rules files homes : ∀ ctx r r', d_rules r = watch_of <$> seen r → add_homes files homes ctx r = Ok r' → d_rules r' = watch_of <$> seen r'.
Proof.
  induction homes as [|s homes IH]; intros ctx r r' Hr; cbn [add_homes]; [by intros [= <-]|].
  destruct (ctx_done ctx) as [[] ctx1]; [done|]. destruct (_ <=? _); [done|]. intros ([r1 b] & H1 & H2)%res_bind_ok. eapply IH; [|done].
  by apply (addPath_rules files r _ r1 b Hr) in H1.
Qed.

Lemma discovered_rules files ctx r : discoverSecurityPathRules files ctx = Ok r → d_rules r = watch_of <$> seen r.
Proof.
  unfold discoverSecurityPathRules. intros ([r1 c1] & H1 & ([homes c2] & _ & H2)%res_bind_ok)%res_bind_ok.
  eapply add_homes_rules; [|done]. by refine (add_specs_rules _ _ _ _ _ _ _ H1).
Qed.

Lemma watch_mask path key m d : length (Mask (pathWatchRule path key m d)) = AUDIT_BITMASK_SIZE.
Proof. by destruct d. Qed.

(** A rule of the policy for a path. *)
Lemma path_rule_mask goarch a b ws files ctx r (d : auditRule) : managedRules goarch a b = Ok ws → discoverSecurityPathRules files ctx = Ok r →
  d ∈ ws ++ d_rules r → isPathRule d = true → length (Mask d) = AUDIT_BITMASK_SIZE.
Proof.
  intros Hm Hr Hd Hp. apply elem_of_app in Hd as [Hd|Hd].
  - unfold managedRules in Hm. apply res_bind_ok in Hm as (ex & He & (sy & Hs & [= <-])%res_bind_ok).
    rewrite !elem_of_app in Hd. destruct Hd as [Hd|[Hd|Hd]].
    + exfalso. unfold executionRules in He. destruct (execution_arch goarch); [|done]. destruct (_ || _); [done|]. injection He as <-.
      destruct (_ =? _)%string; rewrite ?elem_of_cons in Hd; destruct Hd as [->|Hd]; try done; [destruct Hd as [->|Hd]; [done|]|]; set_solver.
    + exfalso. unfold securitySyscallRules in Hs. apply res_bind_ok in Hs as (n & _ & (ts & _ & Hs)%res_bind_ok).
      revert sy Hd Hs. generalize (ts ≫= λ t, pair (t_arch t) <$> groups t). intros l. induction l as [|[x [k s]] l IH]; intros sy Hd Hs; cbn [keyed_rules] in Hs; [simplify_eq; set_solver|].
      apply res_bind_ok in Hs as (y & Hy & (ys & Hys & [= <-])%res_bind_ok). apply elem_of_cons in Hd as [->|Hd]; [|by eapply IH].
      apply keyed_shape in Hy as [[Hy _ _ _ _] _]. by rewrite Hy in Hp.
    + unfold identityCredentialWatchRules in Hd. apply list_elem_of_fmap in Hd as ([p k] & -> & _). done.
  - rewrite (discovered_rules _ _ _ Hr) in Hd. apply list_elem_of_fmap in Hd as (s & -> & _). apply watch_mask.
Qed.
End success.

(** ** The properties *)

(** The event is recorded with the key, or by a rule of the policy for a path. *)
Definition recorded `{KernelFilter E} (e : E) (rs wanted : list auditRule) (key : chars) : Prop :=
  ∃ r, deciding_rule e rs = Some r ∧ Action r = AUDIT_ALWAYS ∧
    (auditKeyContains (event_key r) key = true ∨ isPathRule r = true ∧ exactManagedRule r wanted = true).

Lemma exact_ordered r wanted : exactManagedRule r (orderedManagedRules wanted) = exactManagedRule r wanted.
Proof.
  apply eq_true_iff_eq. unfold exactManagedRule. rewrite !existsb_exists. split; intros (x & Hx & Hs); exists x; (split; [|done]); apply list_elem_of_In;
    apply list_elem_of_In in Hx; by apply elem_ordered.
Qed.

Lemma group_keys t key l : (key, l) ∈ groups t → to_chars key ≠ executionRuleKey.
Proof. unfold groups. intros Hg. repeat (apply elem_of_cons in Hg as [[= -> ->]|Hg]; [done|]). set_solver. Qed.


(** ** Requests *)

Section requests.
Context (big : bool) (Statfs : chars → option Z).

(** The requests made between two states of the client have the property. *)
Definition requested (P : Z → list byte → Prop) (c c' : auditControlClient) : Prop :=
  ∃ l, requests c' = requests c ++ l ∧ Forall (λ b, ∃ q t p, b = request_bytes big q t p ∧ P t p) l.

Lemma requested_refl P c : requested P c c.
Proof. exists []. by rewrite app_nil_r. Qed.

Lemma requested_trans P c1 c2 c3 : requested P c1 c2 → requested P c2 c3 → requested P c1 c3.
Proof. intros (l & H1 & H2) (k & H3 & H4). exists (l ++ k). split; [by rewrite H3, H1, app_assoc|by apply Forall_app]. Qed.

Lemma requested_weaken (P Q : Z → list byte → Prop) c c' : (∀ t p, P t p → Q t p) → requested P c c' → requested Q c c'.
Proof.
  intros HPQ (l & H1 & H2). exists l. split; [done|]. eapply Forall_impl; [done|]. intros b (q & t & p & -> & Hp). exists q, t, p. auto.
Qed.

Lemma exchange_requested (P : Z → list byte → Prop) c t p : P t p → requested P c (fst (exchange big c t p)).
Proof.
  intros Hp. unfold exchange. destruct (match io c with [] => _ | _ :: _ => _ end) as [now later]. destruct (send_loop _); simpl; eexists; (split; [done|]); constructor; eauto.
Qed.

Lemma andThen_requested {A B} P c (o : outcome A) (k : auditControlClient → A → outcome B) :
  requested P c (fst o) → (∀ c1 a, o = (c1, Ok a) → requested P c1 (fst (k c1 a))) → requested P c (fst (andThen o k)).
Proof. destruct o as [c1 [a|e]]; simpl; intros H1 H2; [|done]. eapply requested_trans; [done|]. by apply H2. Qed.

Lemma control_fst {A} op rule (o : auditControlClient * result ctl_error A) : fst (control op rule o) = fst o.
Proof. by destruct o as [c []]. Qed.

(** What only looks. *)
Definition query (t : Z) (p : list byte) : Prop := (t = AUDIT_GET ∨ t = AUDIT_LIST_RULES) ∧ p = [].

Lemma enabled_requested c : requested query c (fst (enabled big c)).
Proof.
  apply andThen_requested; [rewrite control_fst; apply exchange_requested; split; [by left|done]|]. intros c1 a _.
  destruct a as [|x [|]]; [apply requested_refl| |apply requested_refl]. destruct (_ <? _)%nat; [apply requested_refl|]. cbv zeta; destruct (2 <? native_get _ _); apply requested_refl.
Qed.

Lemma rules_requested c : requested query c (fst (rules big c)).
Proof.
  apply andThen_requested; [rewrite control_fst; apply exchange_requested; split; [by right|done]|]. intros c1 a _. apply requested_refl.
Qed.

Lemma verify_requested c wanted : requested query c (fst (verifyManagedRules big Statfs c wanted)).
Proof.
  apply andThen_requested; [apply enabled_requested|]. intros c1 on _. destruct (on =? 0); [apply requested_refl|].
  apply andThen_requested; [apply rules_requested|]. intros c2 rs _. destruct (missingManagedRules _ _ _) as [[|]|]; apply requested_refl.
Qed.

(** What changes the rules: managed rules are added, and rules that are the same as a
    managed one are deleted. *)
Definition rule_change (wanted : list auditRule) (t : Z) (p : list byte) : Prop :=
  t = AUDIT_ADD_RULE ∧ (∃ r, r ∈ wanted ∧ marshalKernelRule big (prepended r) = Ok p) ∨
  t = AUDIT_DEL_RULE ∧ (∃ r, exactManagedRule r wanted = true ∧ marshalKernelRule big r = Ok p).

Lemma delete_requested wanted rule l : ∀ c, (∀ r, r ∈ l → exactManagedRule r wanted = true) →
  requested (rule_change wanted) c (fst (delete_replaced big c l rule)).
Proof.
  induction l as [|x l IH]; intros c Hl; simpl; [apply requested_refl|]. assert (∀ r, r ∈ l → exactManagedRule r wanted = true) as Hl' by set_solver.
  destruct (negb _); [by apply IH|]. destruct (marshalKernelRule big x) as [p|] eqn:Em; [|apply requested_refl].
  pose proof (exchange_requested (rule_change wanted) c AUDIT_DEL_RULE p ltac:(right; split; [done|]; exists x; split; [set_solver|done])) as Hx.
  destruct (exchange big c AUDIT_DEL_RULE p) as [c1 [a|e]]; simpl in Hx; [eapply requested_trans; [done|by apply IH]|].
  destruct (is_errno e ENOENT); [eapply requested_trans; [done|by apply IH]|done].
Qed.

Lemma install_requested wanted l rule c : (∀ r, r ∈ l → exactManagedRule r wanted = true) → rule ∈ wanted →
  requested (rule_change wanted) c (fst (install big c l rule)).
Proof.
  intros Hl Hr. apply andThen_requested; [by apply delete_requested|]. intros c1 _ _. cbv zeta.
  destruct (marshalKernelRule big (prepended rule)) as [p|] eqn:Em; [|apply requested_refl].
  pose proof (exchange_requested (rule_change wanted) c1 AUDIT_ADD_RULE p ltac:(left; split; [done|]; by exists rule)) as Hx.
  destruct (exchange big c1 AUDIT_ADD_RULE p) as [c2 [a|e]]; [done|]. by destruct (is_errno e EEXIST).
Qed.

Lemma install_all_requested wanted l todo : ∀ c, (∀ r, r ∈ l → exactManagedRule r wanted = true) → (∀ r, r ∈ todo → r ∈ wanted) →
  requested (rule_change wanted) c (fst (install_all big c l todo)).
Proof.
  induction todo as [|r todo IH]; intros c Hl Ht; simpl; [apply requested_refl|].
  apply andThen_requested; [apply install_requested; [done|apply Ht; set_solver]|]. intros c1 _ _. apply IH; [done|]. intros x Hx. apply Ht. set_solver.
Qed.

Lemma up_to_last_in wanted missing r : r ∈ up_to_last wanted missing → r ∈ wanted.
Proof.
  unfold up_to_last. destruct (last missing); [|set_solver]. destruct (list_find _ wanted) as [[i x]|]; [|set_solver].
  intros Hr. by eapply elem_of_take in Hr as (? & ? & _); eapply list_elem_of_lookup_2.
Qed.

Lemma plan_spec on rs wanted missing replacements : plan Statfs on rs wanted = Ok (missing, replacements) →
  (∀ r, r ∈ missing → r ∈ wanted) ∧ (∀ r, r ∈ replacements → exactManagedRule r wanted = true) ∧ (on = 2 → missing = []).
Proof.
  assert (∀ missing replacements, rebuild Statfs rs wanted = Ok (missing, replacements) →
    (∀ r, r ∈ missing → r ∈ wanted) ∧ (∀ r, r ∈ replacements → exactManagedRule r wanted = true)) as Hb.
  { intros m l. unfold rebuild. cbv zeta. destruct (missingManagedRules _ _ _) as [ms|err]; [|destruct (negb _); [done|]]; intros [= <- <-];
      (split; [intros r; apply up_to_last_in|intros r Hr; apply elem_filter in Hr; tauto]). }
  unfold plan. destruct (missingManagedRules Statfs rs wanted) as [[|m ms]|err].
  - intros [= <- <-]. set_solver.
  - destruct (Z.eqb_spec on 2); [done|]. intros [? ?]%Hb. by split_and!.
  - destruct (negb _); [done|]. destruct (Z.eqb_spec on 2); [done|]. intros [? ?]%Hb. by split_and!.
Qed.

(** C24: The setup touches nothing but the managed rules.  Whatever the kernel answers and
    wherever the setup stops, every request it has made asks for the status or the rules,
    adds a rule of the policy, deletes a rule that is the same as one of the policy, or
    turns auditing on; rules are changed only when the kernel said that its policy is not
    locked, and auditing is turned on only when the kernel said that it is off.  No other
    setting of the kernel is written. *)
Theorem setup_confined c wanted :
  requested (λ t p, query t p ∨
      (∃ on, snd (enabled big c) = Ok on ∧ on ≠ 2 ∧ rule_change wanted t p) ∨
      snd (enabled big c) = Ok 0 ∧ t = AUDIT_SET ∧ p = enable_status big) c (fst (ensureManagedRules big Statfs c wanted)).
Proof.
  unfold ensureManagedRules. apply andThen_requested; [eapply requested_weaken; [|apply enabled_requested]; tauto|]. intros c1 on Hon. rewrite Hon. cbn [snd].
  apply andThen_requested; [eapply requested_weaken; [|apply rules_requested]; tauto|]. intros c2 rs _.
  apply andThen_requested; [apply requested_refl|]. intros c3 [missing replacements] [= -> Hplan]. apply plan_spec in Hplan as (Hm & Hr & H2).
  apply andThen_requested.
  - destruct (decide (on = 2)) as [E2|Hne]; [rewrite (H2 E2); apply requested_refl|].
    eapply requested_weaken; [|apply (install_all_requested wanted)].
    + intros t p Hc. right. left. by exists on.
    + intros r Hin. rewrite <- exact_ordered. by apply Hr.
    + intros r Hin. apply elem_ordered, Hm. apply list_elem_of_In, in_rev. by apply list_elem_of_In.
  - intros c4 _ _. apply andThen_requested; [|intros c5 _ _; eapply requested_weaken; [|apply verify_requested]; tauto].
    destruct (Z.eqb_spec on 0) as [->|]; [|apply requested_refl]. rewrite control_fst. apply exchange_requested. tauto.
Qed.
End requests.
