(* ===== verification/AuditPolicyRun.v ===== *)
(** * A setup of the managed audit policy

    A kernel filter for single system calls, the answers of a kernel without rules to the
    setup, and what then happens to events. *)

From Stdlib Require Import Strings.Ascii.
From S2P Require Import Prelude GoStrings GoText GoMisc Netlink AuditControl AuditRules AuditPolicy AuditRulesProofs AuditPathProofs AuditPolicyProofs.

(** ** A kernel filter *)

Record one_call : Type := mkCall { o_arch : Z; o_syscall : Z; o_path : chars; o_access : Z }.

Definition call_field (e : one_call) (f : rule_field) : bool :=
  if f_field f =? AUDIT_ARCH then
    if f_op f =? AUDIT_EQUAL then o_arch e =? f_value f else (f_op f =? AUDIT_NOT_EQUAL) && negb (o_arch e =? f_value f)
  else f_field f =? AUDIT_FILTERKEY.

Definition call_matches (e : one_call) (r : auditRule) : bool :=
  if watch_ok r then path_hit r (o_path e) && negb (Z.land (watch_perms r) (o_access e) =? 0)
  else forallb (call_field e) (rule_fields r).

Definition watch_field (f : rule_field) : Prop :=
  plain (f_field f) = AUDIT_WATCH ∨ plain (f_field f) = AUDIT_DIR.

(** The fields of a watch. *)
Lemma parts_fields buf fs : ∀ offset p p' offset', parts_loop fs buf offset p = Some (p', offset') →
  (∀ f, f ∈ fs → watch_field f ∨ plain (f_field f) = AUDIT_PERM ∨ plain (f_field f) = AUDIT_FILTERKEY) ∧
  (is_some (w_path p') = true → is_some (w_path p) = true ∨ ∃ f, f ∈ fs ∧ watch_field f).
Proof.
  induction fs as [|f fs IH]; intros offset [path key perms] p' offset'; simpl; [intros [= <- _]; split; [set_solver|by left]|].
  destruct (_ && _); [done|]. destruct (negb _); [done|]. destruct (_ || _) eqn:Ew.
  - apply orb_true_iff in Ew. rewrite !Z.eqb_eq in Ew. destruct path; [done|]. intros [H1 _]%IH.
    split; [intros g [->|Hg]%elem_of_cons; [by left|by apply H1]|]. intros _. right. exists f. split; [by left|done].
  - destruct (Z.eqb_spec (plain (f_field f)) AUDIT_PERM); [destruct perms; [done|]|
      destruct (Z.eqb_spec (plain (f_field f)) AUDIT_FILTERKEY); [destruct key; [done|]|done]];
      intros [H1 H2]%IH; (split; [intros g [->|Hg]%elem_of_cons; [auto|by apply H1]|]; intros [?|(x & ? & ?)]%H2; [by left|right; exists x; split; [by right|done]]).
Qed.

Lemma watch_ok_fields r : watch_ok r = true →
  (∀ f, f ∈ rule_fields r → f_field f ≠ AUDIT_ARCH) ∧ (∃ f, f ∈ rule_fields r ∧ f_field f ≠ AUDIT_ARCH ∧ f_field f ≠ AUDIT_FILTERKEY).
Proof.
  unfold watch_ok, fileWatchRuleParts. destruct (_ || _); [done|]. destruct (parts_loop _ _ _ _) as [[p offset]|] eqn:Ep; [|done].
  destruct (_ || _); [done|]. rewrite !andb_true_iff. intros [[Hp _] _]. apply parts_fields in Ep as [H1 H2].
  destruct (H2 Hp) as [|(f & Hf & Hw)]; [done|]. split.
  - intros g Hg E. destruct (H1 g Hg) as [[Hx|Hx]|[Hx|Hx]]; rewrite E in Hx; done.
  - exists f. split_and!; [done| |]; intros E; destruct Hw as [Hx|Hx]; rewrite E in Hx; done.
Qed.

#[global] Program Instance one_call_filter : KernelFilter one_call := {|
  e_arch := o_arch; e_syscall := o_syscall; e_path := o_path; e_access := o_access; fields_match := call_matches |}.
Next Obligation.
  intros e r Hf. unfold call_matches. destruct (watch_ok r) eqn:Ew.
  - destruct (watch_ok_fields r Ew) as [_ (f & Hin & H1 & H2)]. destruct (Hf f Hin) as [->|?]; done.
  - apply forallb_elem. intros f Hin. unfold call_field. destruct (Hf f Hin) as [->|Hk]; [simpl; by rewrite Z.eqb_refl|]. by rewrite Hk.
Qed.
Next Obligation.
  intros e r v Hm Hin. unfold call_matches in Hm. destruct (watch_ok r) eqn:Ew; [by destruct (proj1 (watch_ok_fields r Ew) _ Hin)|].
  rewrite forallb_elem in Hm. specialize (Hm _ Hin). by apply Z.eqb_eq in Hm.
Qed.
Next Obligation.
  intros e r v Hm Hin. unfold call_matches in Hm. destruct (watch_ok r) eqn:Ew; [by destruct (proj1 (watch_ok_fields r Ew) _ Hin)|].
  rewrite forallb_elem in Hm. specialize (Hm _ Hin). unfold call_field in Hm. simpl in Hm. by apply negb_true_iff, Z.eqb_neq in Hm.
Qed.
Next Obligation. intros e r Hw. unfold call_matches. by rewrite Hw. Qed.

(** ** The answers of a kernel *)

Definition no_files : policyDiscoveryFiles := mkFiles (λ _, Err NotExist) (λ _, Ok (Ok (to_chars "root:x:0:0:root:/root:/bin/sh"))) (λ _, Err NotExist).

Definition answer (datagrams : list (list byte)) : exchange_io := mkIO [IoDone ()] ((λ b, IoDone (b, Some 0)) <$> datagrams).
Definition status_answer (q on : Z) : exchange_io :=
  answer [ack_bytes AUDIT_GET q; reply_bytes AUDIT_GET 0 q (native_put false 4 0 ++ native_put false 4 on ++ replicate 32 x00)].
Definition list_answer (q : Z) (rs : list auditRule) : exchange_io :=
  answer (ack_bytes AUDIT_LIST_RULES q :: ((λ r, reply_bytes AUDIT_LIST_RULES 2 q (match marshalKernelRule false r with Ok p => p | Err _ => [] end)) <$> rs)
          ++ [reply_bytes NLMSG_DONE 2 q (native_put false 4 0)]).

(** The policy for arm64 and what the kernel lists after it is installed. *)
Definition arm_rules : list auditRule := match managedRules "arm64" 221 281 with Ok l => l | Err _ => [] end.
Definition arm_listed : list auditRule := (λ r, set_Flags (filter_list r) r) <$> orderedManagedRules arm_rules.

Definition arm_answers : list exchange_io :=
  status_answer 1 0 :: list_answer 2 [] :: ((λ q, answer [ack_bytes AUDIT_ADD_RULE (Z.of_nat q)]) <$> seq 3 15) ++
  [answer [ack_bytes AUDIT_SET 18]; status_answer 19 1; list_answer 20 arm_listed].
Definition arm_client : auditControlClient := mkClient 0 arm_answers [].
Definition no_statfs : chars → option Z := λ _, None.
Definition arm_after : auditControlClient := default arm_client (fst (EnsureManagedRulesWithLogger false no_statfs "arm64" 221 281 no_files [] (Ok arm_client))).

Lemma arm_setup : match EnsureManagedRulesWithLogger false no_statfs "arm64" 221 281 no_files [] (Ok arm_client) with (Some _, Ok tt) => true | _ => false end = true.
Proof. vm_compute. reflexivity. Qed.

Lemma arm_run_ok : EnsureManagedRulesWithLogger false no_statfs "arm64" 221 281 no_files [] (Ok arm_client) = (Some arm_after, Ok tt).
Proof.
  pose proof arm_setup as H. unfold arm_after. destruct (EnsureManagedRulesWithLogger _ _ _ _ _ _ _ _) as [[c|] [[]|]]; done.
Qed.

Lemma arm_rules_ok : managedRules "arm64" 221 281 = Ok arm_rules.
Proof.
  assert (match managedRules "arm64" 221 281 with Ok _ => true | Err _ => false end = true) as H by (vm_compute; reflexivity).
  unfold arm_rules. by destruct (managedRules _ _ _).
Qed.

Definition no_paths : pathRuleDiscovery := match discoverSecurityPathRules no_files [] with Ok r => r | Err _ => mkDiscovery [] [] [] 0 0 [] end.

Lemma no_paths_ok : discoverSecurityPathRules no_files (snd (ctx_done [])) = Ok no_paths.
Proof.
  assert (match discoverSecurityPathRules no_files [] with Ok _ => true | Err _ => false end = true) as H by (vm_compute; reflexivity).
  unfold no_paths. simpl snd. by destruct (discoverSecurityPathRules _ _).
Qed.

Lemma no_paths_rules : d_rules no_paths = [].
Proof. vm_compute. reflexivity. Qed.

(** [fchmodat] on arm64 and a write to [/etc/shadow] with [openat]. *)
Definition a_chmod : one_call := mkCall AUDIT_ARCH_AARCH64 53 (to_chars "/srv/x") 0.
Definition a_write : one_call := mkCall AUDIT_ARCH_AARCH64 56 (to_chars "/etc/shadow") AUDIT_PERM_WRITE.


(** What the kernel then does. *)
Example events_decided :
  event_key <$> deciding_rule a_chmod arm_listed = Some (to_chars "permission_change") ∧
  event_key <$> deciding_rule a_write arm_listed = Some (to_chars "sauron_credentials").
Proof. vm_compute. done. Qed.
